(* ===== verification/_CoqProject ===== *)
-Q . S2P
Prelude.v
RustStd.v
KmipTypes.v
KmipTtlv.v
KmipTtlvProofs.v
KmipStore.v
KmipStoreProofs.v
KmipHandlers.v
KmipHandlersProofs.v
KmipMessage.v
KmipMessageProofs.v
RaftLog.v
RaftLogProofs.v
RaftStateMachine.v
RaftGuard.v
RaftGuardProofs.v
RaftNode.v
RaftReplicate.v
RaftSnapshot.v
RaftVoteProofs.v
RaftReplProofs.v
RaftReplicateProofs.v
RaftSnapshotProofs.v
RaftMacProofs.v
RaftGaps.v
RaftFile.v
RaftFileProofs.v
RaftConfig.v
RaftConfigProofs.v
AuthRbac.v
AuthRbacProofs.v
AuthTenant.v
AuthTenantProofs.v
AuthRateLimit.v
AuthRateLimitProofs.v
AuthMfa.v
AuthMfaProofs.v
AuthProvider.v
AuthOidc.v
AuthOidcProofs.v
AuthLdap.v
AuthLdapProofs.v
AuthCert.v
AuthCertProofs.v
CertFsm.v
CertFsmProofs.v
CertSign.v
CertSignProofs.v
CertMode.v
CertModeProofs.v
GcmCounter.v
GcmCounterProofs.v
Pkcs11.v
Pkcs11Proofs.v
CloudCrypto.v
CloudCryptoProofs.v
CloudVault.v
CloudVaultProofs.v
CloudCsi.v
CloudCsiProofs.v
CloudAzure.v
CloudAzureProofs.v
CloudAws.v
CloudAwsProofs.v
