(* ===== verification/Prelude.v ===== *)
(** * Craton HSM Enterprise: a verification library

    The repository is a Rust workspace around a hardware security module: a KMIP
    server ([craton-hsm-kmip]), a Raft cluster that replicates key material
    ([craton-hsm-cluster]), authentication, roles and approvals
    ([craton-hsm-auth]), the certification layer ([craton-hsm-certified]), adapters
    for clouds ([craton-hsm-cloud]) and bindings to cryptographic libraries and tokens.  This library models
    the parts that carry the system's own logic and proves what makes them
    correct.  All paths below are under [src/].

    ** How the program works

    A KMIP client sends a TTLV message over TLS.  The server authenticates the caller,
    decodes the message ([ttlv.rs]), refuses replays, checks every batch item against the
    access policy and dispatches it ([server.rs]) to a handler ([operations.rs]) that checks
    the owner of the object and calls the key store; the answers become one message.  In a cluster, every node runs a [RaftNode]
    ([raft.rs]): messages are admitted by rate limit, freshness, HMAC and replay
    cache; elections choose a leader; the leader appends commands, replicates
    them and commits; every node applies committed commands to its
    [ClusterStateMachine] ([state_machine.rs]) and persists through [RaftStorage]
    ([storage.rs]), in memory or in files: a log of JSON lines with an index of their
    offsets, the hard state, an authenticated snapshot.  A node is built from a
    configuration that is checked first ([config.rs]); reports tell its health
    ([health.rs]), and events of keys go to a bounded log ([replication.rs]).

    A user logs in with a PIN, with a token of an OpenID Connect issuer whose keys the
    provider caches, with a password that a directory checks over a pooled connection, or
    with a chain of certificates ([auth/manager.rs], [auth/local_pin.rs], [auth/oidc.rs],
    [auth/ldap.rs], [auth/cert.rs]).  Sessions of
    the module carry an identity with a role ([rbac/identity.rs]); the
    policy engine decides what it may do ([rbac/policy.rs]), sensitive operations wait
    in a queue for the votes of other users ([rbac/approval.rs]) or need a second factor
    ([auth/mfa.rs]), tenants have quotas ([tenant/]), and failed logins lock a key out
    ([auth/rate_limit.rs]).  The module's
    state machine ([fsm.rs]) admits operation only after self tests
    ([test_harness.rs], [power_on_self_test.rs]).  In approved mode a wrapper asks a policy
    before every call of a cryptographic backend ([approved_mode.rs],
    [approved_mode_wrapper.rs]); binaries carry their metadata and an HMAC in a footer
    ([binary_sign.rs], [integrity.rs]).  The OpenSSL backend
    counts the encryptions of every AES-GCM key in a journal that survives crashes
    ([gcm_counter.rs]).  The PKCS#11 backend keeps a pool of sessions of a token
    ([pool.rs]), each with a cache of the keys it imported ([cache.rs]).

    Adapters offer keys to other systems: a backend of Vault's transit engine
    ([vault_plugin.rs]) with versioned keys, a shim with the interface of Azure Key Vault
    ([azure_shim.rs]), whose keys are deleted softly, backed up and restored, one with that
    of AWS CloudHSM ([aws_shim.rs]), whose keys belong to HSMs and wrap each other, and a
    driver that projects secrets into the volumes of Kubernetes pods ([k8s_csi.rs]).

    ** Files

    Shared:
    - [Prelude]: results and computations with panics ([result], [comp]), tactics
      and hint databases, lemmas on lists, maps and lengths;
    - [RustStd]: the part of Rust's standard library the sources use (integer
      arithmetic at its width, byte order, UTF-8, formatting).

    KMIP ([craton-hsm-kmip/src]):
    - [KmipTypes]: the enumerations of [types.rs], one Module each, and the class
      [WireEnum] of their numberings;
    - [KmipTtlv], [KmipTtlvProofs]: the codec of [ttlv.rs] and its correctness;
    - [KmipStore], [KmipStoreProofs]: data model and in-memory store of
      [operations.rs], over all sequences [store_run] of operations [store_op];
    - [KmipHandlers], [KmipHandlersProofs]: every [process_*] handler and
      [dispatch_operation] of [server.rs], against the class [KmipKeyStore] with
      the laws [KmipKeyStoreLaws], which the in-memory store has;
    - [KmipMessage], [KmipMessageProofs]: the rest of [server.rs] up to the socket:
      authentication and its failure limiter, parsing, replay defence, access policy
      ([acl.rs]), batches, encoding of responses.

    Cluster ([craton-hsm-cluster/src]):
    - [RaftLog], [RaftLogProofs]: terms, commands and their canonical encoding,
      the log with its commit and apply indices;
    - [RaftStateMachine]: [ClusterStateMachine] (Module [SM]), the in-memory storage
      backend, and what a node sees of its storage: [AttachedStorage], whose calls may fail;
    - [RaftGuard], [RaftGuardProofs]: freshness, replay cache, vote rate limiter;
    - [RaftNode]: the state of a node and its handlers: votes and pre-votes,
      AppendEntries on both sides, commitment, application, local compaction,
      membership proposals, restart;
    - [RaftReplicate], [RaftReplicateProofs]: the messages a leader builds, for
      one peer and for all; signed replies;
    - [RaftSnapshot], [RaftSnapshotProofs]: snapshot transfer;
    - [RaftVoteProofs]: elections, over runs of [node_step] with crashes;
    - [RaftReplProofs]: replication and commitment;
    - [RaftMacProofs]: what the HMAC inputs authenticate;
    - [RaftFile], [RaftFileProofs]: the file backend of [storage.rs], over directories
      ([Disk]) and system calls that fail ([OpenIo], [AppendIo], [TruncateIo]);
    - [RaftConfig], [RaftConfigProofs]: configuration, secrets, the configured node, health
      reports and the replication log;
    - [RaftGaps]: behaviours that weaken these results, stated and proved.

    Authentication ([craton-hsm-auth/src]):
    - [AuthRbac], [AuthRbacProofs]: roles, access lists, identities, policy engine and the
      approval queue, whose operations interleave in [queue_step];
    - [AuthTenant], [AuthTenantProofs]: tenant identifiers and the tenant manager, in
      sequence ([tenant_call]) and interleaved ([tenant_step]);
    - [AuthRateLimit], [AuthRateLimitProofs]: the login rate limiter, over interleaved calls
      [rate_calls];
    - [AuthMfa], [AuthMfaProofs]: base32, TOTP codes, challenges and gates of [mfa.rs],
      over runs [mfa_run] of the manager;
    - [AuthProvider]: the interface of identity providers as a class, the local PIN
      provider and the authentication manager;
    - [AuthOidc], [AuthOidcProofs]: the OpenID Connect provider of [oidc.rs], over runs
      [oidc_run], and the gate of the manager, over runs [manager_run];
    - [AuthLdap], [AuthLdapProofs]: the LDAP provider of [ldap.rs], over sequences
      [ldap_calls] of logins;
    - [AuthCert], [AuthCertProofs]: the certificate provider of [cert.rs], in every state that
      refreshes of its revocation lists ([cert_refreshes]) lead to.

    Certification layer and cryptographic backends:
    - [CertFsm], [CertFsmProofs]: [fsm.rs] of [craton-hsm-certified]: the table, its
      validator, the runtime machine with its interleavings [fsm_step];
    - [CertSign], [CertSignProofs]: [binary_sign.rs], [integrity.rs] and [hex_util.rs];
    - [CertMode], [CertModeProofs]: [approved_mode.rs], [approved_mode_wrapper.rs],
      [test_harness.rs] and [power_on_self_test.rs], for every backend that answers the
      calls [CryptoCall];
    - [GcmCounter], [GcmCounterProofs]: [gcm_counter.rs] of [craton-hsm-openssl] and the
      counters of its [lib.rs], with runs [gcm_step] of processes one after another, each with
      one caller at a time;
    - [Pkcs11], [Pkcs11Proofs]: [cache.rs] and [pool.rs] of [craton-hsm-pkcs11].

    Clouds ([craton-hsm-cloud/src]):
    - [CloudCrypto], [CloudCryptoProofs]: base64, labelled HMAC and XOR stream of
      [mock_crypto.rs];
    - [CloudVault], [CloudVaultProofs]: keys and requests of [vault_plugin.rs], over runs
      [vault_run];
    - [CloudCsi], [CloudCsiProofs]: paths, volumes and services of [k8s_csi.rs], over runs
      [csi_run];
    - [CloudAzure], [CloudAzureProofs]: keys and requests of [azure_shim.rs], over runs
      [azure_run];
    - [CloudAws], [CloudAwsProofs]: HSMs, keys and requests of [aws_shim.rs], over runs
      [aws_run].

    ** How code becomes definitions

    A struct is a Record, an enum an Inductive type with the source's
    constructors, a method a function from the state (and its arguments) to the
    result and the new state; early returns are the branches.  Integers are [Z]
    with the width written out where it matters ([saturating_add], [checked_add],
    [u64_succ], [in_u64]).  Bytes are [byte], strings byte strings.  [HashMap] and
    [DashMap] are [gmap]; where the code iterates one, the unspecified order is the
    class [MapIter] and the theorems hold for every order.  A long handler is split
    into the definitions its paragraphs become ([prev_log_check], [append_loop],
    [finish_append]; [committed_guard], [reassemble], [install]) and composed as the
    code composes them.

    What comes from outside is an argument: clock readings ([raw], [now], [mono],
    [clock]), random draws ([jitter], [backoff]), the random generator and HKDF
    ([OsEnv]), HMAC-SHA256 and the JSON codec of snapshots ([RaftCrates]), SHA-256,
    HMAC and substring search of the journal ([GcmCrates]), digests of tokens
    ([ServerCrates]), HMAC and PBKDF2 of second factors ([MfaCrates]), JSON and HMAC of the
    file backend ([StorageCrates]), digests of keys ([DigestCrate]), HMAC and digests of the
    cloud adapters ([CloudCrates]), random draws, link resolution and secrets of their
    requests ([VaultEnv], [CsiEnv], [AzureEnv], [AwsEnv]), URLs, tokens and digests of the OpenID
    provider ([OidcCrates]), with its downloads and clocks ([FetchEnv], [OidcEnv]), digests of user names
    ([LdapCrates]), the answers of a directory, locked slots and clocks ([LdapEnv]), parsed certificates
    and lists with their signatures ([X509Crate], [ReqwestCrate]), the clocks of a chain
    ([CertEnv]), HMAC and
    the JSON reader of signed binaries ([SignCrates]), upper-casing beyond ASCII
    ([UnicodeTables]), types of the parent crate ([HsmTypes]), files and variables with the
    cluster secret ([ConfigEnv]), digests of the replication log ([ReplCrates]), the
    outcome of a system call ([Io], [AppendIo] and the like)
    and of a call of the storage ([SaveOutcome]).  No theorem assumes anything about them except
    where the statement says so (the transfer of a snapshot and the file backend need that
    JSON decodes what it encoded, on one line; the journal needs the lengths of digests and
    the contract of [rfind]).

    The release build is modelled: [debug_assert!] does nothing.  [usize] has 64
    bits and byte order is little-endian where [shard_of] reads native words.
    Operations that hold a lock, or that the code performs through concurrent maps
    and atomics, are single steps; interleavings are sequences of steps.  Binary
    searches ([partition_point]) are by their contract on partitioned slices, which
    the log invariant provides.

    ** What is proved

    - TTLV: the back-patching encoder is the reference encoder and fails only on
      oversized items; the decoder never panics, terminates, respects its limits;
      both round trips.  Fuel: the loop over children gets the number of remaining
      bytes, and every iteration consumes at least 8; depth is bounded by the limit,
      so [CDiverge] is unreachable.
    - Store: an invariant of every reachable store (erased destroyed objects, ordered
      times, every live object in the type index), and as long as no Create issues the
      identifier of a registered object the index is exact and objects keep their history
      (lifecycle table, immutable attributes, key material); [locate] through the index
      equals a scan.
    - Handlers: requests of one caller neither read nor change another's objects, for every
      key store with the laws, unless a Create issues the identifier of the object; a request
      changes the store by at most one operation, on the object it names, which its caller
      may access, and uses the data of accessible objects only; guarantees of Create,
      DeriveKey and Locate.
    - Messages: the isolation of owners for raw bytes and whole batches; no access without
      credentials; every input is answered by a frame with the refusal of the message or one
      item per request item; accepted correlation values are not accepted again in the window.
    - Elections: as long as no save of the hard state fails, it is on disk when a step ends,
      there is one vote per term across crashes, and elections are safe; the code ignores a
      failed save, and then a vote can be cast twice.
    - Replication: AppendEntries never changes a committed entry and puts the entries of the
      message into the log, for messages whose entries follow their previous index and do not
      start below a compacted log; a round from the leader's message to the follower's log,
      commands included; a batched round equals per-peer messages; commitment needs an entry
      of the leader's term and the records of at least half of the members; the apply loop
      terminates ([apply_fuel] iterations are enough).
    - Snapshots: installation is safe for every message, buffers are bounded, a
      transfer that can be saved makes the follower's state the leader's.
    - Admission: replay cache and rate limiter are bounded and effective; HMAC
      inputs determine kind and fields of a message; signed replies verify.
    - File storage: with a snapshot key, increasing indices and no failing system call it
      implements the in-memory storage across restarts; interrupted appends and
      truncations are recovered; only authenticated snapshots are loaded.
    - Dual control: under every interleaving a consumed request had enough votes of
      distinct authorised users other than the requester, in time and once; the workflow
      completes; the decision of the policy engine on every branch.
    - Tenants: quotas in sequence and under interleaving.  Rate limiting: a lockout holds
      for its duration, the number of admitted guesses is bounded over time, by the number
      of guesses that threads have open at once.
    - Second factors: the gates open only after a correct answer of the same session to a
      challenge for the same operation, no code is accepted twice, approvals end with their
      challenge; base32 is decoded as RFC 4648 encodes it.
    - Logins: an accepted token was signed with a published key of the issuer for the
      configured audience, is fresh and gives exactly the identity of its claims, with the
      highest role named; its identifier is not accepted again while it is remembered;
      destructive operations need a second factor whatever the provider.  User names do not
      change the structure of directory filters and names; a directory login means a bind
      the directory accepted and the first mapped group of the entry found; the count of
      connections stays in its bounds, but wrong passwords use it up.  A chain of
      certificates logs in only if it leads to a trusted root by valid authorities and, where
      revocation is checked, no usable list revokes its first; tenants are exactly what its names agree on.
    - Configuration: the validator decides the documented requirements; a node that is
      built knows its members and has a secret, unless a feature of the crate and the
      configuration both allow it to have none; a healthy report means one leader and a
      majority, and a split brain is found exactly; the replication log is a window on its
      history.
    - Signed binaries: only authentic ones are accepted, what is signed is accepted, and
      the rollback policy holds.
    - Approved mode: a validated policy admits exactly what it lists ([classify_fuel] gets
      one more than the number of upper-case characters, and every call strips ten), the
      wrapper passes on exactly the calls its gates admit, the verdict of the self tests is final.
    - State machine: the validator decides the documented requirements ([dfs] gets the
      number of states as fuel and never runs out); the runtime machine follows its table;
      no operation without a positive answer to the guard of the self tests in the attempt
      that entered it (an answer from before a power cycle counts, too).
    - GCM counters: records and files are read back as written ([split_footer_loop] gets
      the length of the file as fuel, and every turn shortens the searched prefix); over
      crashes, failed writes and restarts no two admitted uses of a key share a number and
      fewer than 2^32 are admitted, as long as the journal is not compacted, the MAC key is
      the same and callers do not overlap; a compaction breaks this, two callers and a reset
      do, and under another MAC key no use is admitted any more.
    - PKCS#11: the linked slots of the cache implement a list in the order of use, without
      panics; fingerprints separate keys; the pool admits exactly its budget of messages.
    - Clouds: base64 and stream round trips; a ciphertext within the size limit stays
      readable through rotations,
      only authentic ciphertexts are decrypted, keys change only as the policy allows and
      the documented life of keys prescribes; backups restore the key they were made of;
      wrapped keys unwrap to keys that sign alike, every key belongs to an HSM;
      accepted target paths stay below the kubelet directory, secrets are held exactly
      while their volume is staged, failed calls change nothing.

    Where the code does not do what its documentation says, the behaviour is a
    theorem too ([RaftGaps], the last theorems of the other proof files).

    ** What is not modelled

    Input and output, TLS and certificates, threads, logging, metrics, zeroization and
    constant-time execution; the accept loop and the client of [server.rs]; the channels and
    transports of [replication.rs]; the packaging of evidence, ACVP sessions, the security policy document and the comparison of
    builds; the AWS-LC copy of the GCM journal; runs of concurrent callers of
    [check_gcm_usage], of which one interleaving is shown.  Bindings to C libraries, devices and Windows are outside its scope. *)

From stdpp Require Import prelude gmap strings list relations.
From Stdlib Require Import ZArith Lia.

(** ** Results of fallible code

    [result] is Rust's [Result].  [comp] adds the two outcomes that a Rust
    function must never have on the paths we care about: a panic (slice or index
    out of range) and, for loops that we run with fuel, running out of it. *)

Inductive result (A E : Type) : Type :=
| Ok (a : A)
| Err (e : E).
Arguments Ok {A E} a.
Arguments Err {A E} e.

#[global] Instance Ok_inj {A E} : Inj (=) (=) (@Ok A E).
Proof. by intros ?? [=]. Qed.

Inductive comp (A E : Type) : Type :=
| COk (a : A)
| CErr (e : E)
| CPanic
| CDiverge.
Arguments COk {A E} a.
Arguments CErr {A E} e.
Arguments CPanic {A E}.
Arguments CDiverge {A E}.

Definition comp_bind {A B E} (m : comp A E) (k : A -> comp B E) : comp B E :=
  match m with
  | COk a => k a
  | CErr e => CErr e
  | CPanic => CPanic
  | CDiverge => CDiverge
  end.

Definition result_bind {A B E} (m : result A E) (k : A -> result B E) : result B E :=
  match m with
  | Ok a => k a
  | Err e => Err e
  end.

(** Lifting: [?] on a [Result], indexing that panics on [None]. *)
Definition of_result {A E} (r : result A E) : comp A E :=
  match r with Ok a => COk a | Err e => CErr e end.
Definition or_panic {A E} (o : option A) : comp A E :=
  match o with Some a => COk a | None => CPanic end.
Definition ok_or {A E} (o : option A) (e : E) : comp A E :=
  match o with Some a => COk a | None => CErr e end.
Definition is_ok {A E} (r : result A E) : bool :=
  match r with Ok _ => true | Err _ => false end.

Declare Scope rust_scope.
Delimit Scope rust_scope with rust.
Notation "'let?' x ':=' m 'in' k" := (comp_bind m (fun x => k))
  (at level 10, x pattern, m at level 100, k at level 200,
   format "'let?'  x  ':='  m  'in' '//' k") : rust_scope.
Notation "'try' x ':=' m 'in' k" := (result_bind m (fun x => k))
  (at level 10, x pattern, m at level 100, k at level 200,
   format "'try'  x  ':='  m  'in' '//' k") : rust_scope.

(** Neither a panic nor divergence. *)
Definition returns {A E} (c : comp A E) : Prop :=
  c <> CPanic /\ c <> CDiverge.

Lemma returns_COk {A E} (a : A) : returns (COk (E := E) a).
Proof. split; discriminate. Qed.
Lemma returns_CErr {A E} (e : E) : returns (CErr (A := A) e).
Proof. split; discriminate. Qed.

Lemma returns_bind {A B E} (m : comp A E) (k : A -> comp B E) :
  returns m -> (forall a, m = COk a -> returns (k a)) -> returns (comp_bind m k).
Proof. destruct m; simpl; intros [Hp Hd] Hk; try done; auto using returns_CErr. Qed.

Lemma comp_bind_COk_inv {A B E} (m : comp A E) (k : A -> comp B E) b :
  comp_bind m k = COk b -> exists a, m = COk a /\ k a = COk b.
Proof. destruct m; simpl; intros H; try discriminate. eauto. Qed.

Lemma comp_bind_CErr_inv {A B E} (m : comp A E) (k : A -> comp B E) e :
  comp_bind m k = CErr e -> m = CErr e \/ exists a, m = COk a /\ k a = CErr e.
Proof. destruct m; simpl; intros H; simplify_eq; eauto. Qed.

(** ** Automation of the development *)

Create HintDb rust discriminated.
#[export] Hint Resolve returns_COk returns_CErr : rust.

Lemma ok_or_COk {A E} (o : option A) (e : E) a : ok_or o e = COk a -> o = Some a.
Proof. destruct o; cbn; congruence. Qed.

Lemma of_result_COk {A E} (r : result A E) a : of_result r = COk a -> r = Ok a.
Proof. destruct r; cbn; congruence. Qed.

(** Split a hypothesis that says a chain of [comp_bind]s returned a value. *)
Ltac inv_comp :=
  repeat match goal with
  | H : comp_bind _ _ = COk _ |- _ =>
      let a := fresh "a" in let E := fresh "E" in
      apply comp_bind_COk_inv in H as (a & E & H)
  | H : COk _ = COk _ |- _ => injection H as H; subst
  | H : CErr _ = CErr _ |- _ => injection H as H; subst
  | H : Ok _ = Ok _ |- _ => injection H as H; subst
  | H : CErr _ = COk _ |- _ => discriminate H
  | H : CPanic = COk _ |- _ => discriminate H
  | H : CDiverge = COk _ |- _ => discriminate H
  | H : Err _ = Ok _ |- _ => discriminate H
  | H : Ok _ = Err _ |- _ => discriminate H
  end.

(** Case analysis on the scrutinee of the [if] or [match] at the head of a
    hypothesis or the goal, keeping the equation. *)
Ltac case_if :=
  match goal with
  | H : context [if ?b then _ else _] |- _ => let E := fresh "E" in destruct b eqn:E
  | |- context [if ?b then _ else _] => let E := fresh "E" in destruct b eqn:E
  end.

(** Turn boolean comparisons on [Z] and [nat] into the propositions they decide. *)
Ltac bool_to_prop :=
  repeat match goal with
  | H : andb _ _ = true |- _ => apply andb_true_iff in H as [? ?]
  | H : orb _ _ = false |- _ => apply orb_false_iff in H as [? ?]
  | H : negb _ = true |- _ => apply negb_true_iff in H
  | H : negb _ = false |- _ => apply negb_false_iff in H
  | H : (_ <? _)%Z = true |- _ => apply Z.ltb_lt in H
  | H : (_ <? _)%Z = false |- _ => apply Z.ltb_ge in H
  | H : (_ <=? _)%Z = true |- _ => apply Z.leb_le in H
  | H : (_ <=? _)%Z = false |- _ => apply Z.leb_gt in H
  | H : (_ =? _)%Z = true |- _ => apply Z.eqb_eq in H
  | H : (_ =? _)%Z = false |- _ => apply Z.eqb_neq in H
  | H : (_ =? _)%nat = true |- _ => apply Nat.eqb_eq in H
  | H : (_ =? _)%nat = false |- _ => apply Nat.eqb_neq in H
  | H : (_ <=? _)%nat = true |- _ => apply Nat.leb_le in H
  | H : (_ <=? _)%nat = false |- _ => apply Nat.leb_gt in H
  | H : (_ <? _)%nat = true |- _ => apply Nat.ltb_lt in H
  | H : (_ <? _)%nat = false |- _ => apply Nat.ltb_ge in H
  | H : bool_decide _ = true |- _ => apply bool_decide_eq_true in H
  | H : bool_decide _ = false |- _ => apply bool_decide_eq_false in H
  end.

(** ** Invariants of runs *)

Lemma rtc_invariant {A} (R : A -> A -> Prop) (P : A -> Prop) x y :
  (forall x y, P x -> R x y -> P y) -> P x -> rtc R x y -> P y.
Proof. intros Hstep Hx Hr. revert Hx. induction Hr; eauto. Qed.

(** ** Generic list facts shared by the components *)

(** [usize] length of a vector or slice. *)
Definition len {A} (l : list A) : Z := Z.of_nat (length l).

Lemma len_nonneg {A} (l : list A) : (0 <= len l)%Z.
Proof. unfold len. lia. Qed.
Lemma len_app {A} (l k : list A) : (len (l ++ k) = len l + len k)%Z.
Proof. unfold len. rewrite length_app. lia. Qed.
Lemma len_cons {A} (x : A) (l : list A) : (len (x :: l) = 1 + len l)%Z.
Proof. unfold len. simpl. lia. Qed.
Lemma len_nil {A} : len (@nil A) = 0%Z.
Proof. reflexivity. Qed.
Create Rewrite HintDb rust_len.
#[export] Hint Rewrite @len_app @len_cons @len_nil : rust_len.
#[export] Hint Resolve len_nonneg : rust.

(** [&l[a..b]]: [None] where Rust panics. *)
Definition slice {A} (l : list A) (a b : Z) : option (list A) :=
  if ((0 <=? a) && (a <=? b) && (b <=? len l))%Z
  then Some (take (Z.to_nat (b - a)) (drop (Z.to_nat a) l))
  else None.

(** [l[i]] *)
Definition index {A} (l : list A) (i : Z) : option A :=
  if (0 <=? i)%Z then l !! Z.to_nat i else None.

Lemma slice_some {A} (l : list A) a b :
  (0 <= a <= b)%Z -> (b <= len l)%Z ->
  slice l a b = Some (take (Z.to_nat (b - a)) (drop (Z.to_nat a) l)).
Proof.
  intros [Ha Hab] Hb. unfold slice.
  rewrite (proj2 (Z.leb_le 0 a)), (proj2 (Z.leb_le a b)), (proj2 (Z.leb_le b (len l))); auto.
Qed.

Lemma slice_len {A} (l : list A) a b s : slice l a b = Some s -> len s = (b - a)%Z.
Proof.
  unfold slice. case_if; intros; simplify_eq. bool_to_prop.
  unfold len in *. rewrite length_take, length_drop. lia.
Qed.

(** A slice that lies inside the middle part of a concatenation. *)
Lemma slice_app_mid {A} (p m s : list A) :
  slice (p ++ m ++ s) (len p) (len p + len m) = Some m.
Proof.
  rewrite slice_some; rewrite ?len_app; try (unfold len; lia).
  replace (Z.to_nat (len p)) with (length p) by (unfold len; lia).
  rewrite drop_app_length.
  replace (Z.to_nat (len p + len m - len p)) with (length m) by (unfold len; lia).
  by rewrite take_app_length.
Qed.

Lemma slice_prefix {A} (m s : list A) n :
  n = len m -> slice (m ++ s) 0 n = Some m.
Proof. intros ->. apply (slice_app_mid [] m s). Qed.
