(* ===== verification/RustStd.v ===== *)
(** * Rust's standard library, as far as the sources use it

    Machine integers with their saturating and checked operations, big-endian
    byte encodings ([to_be_bytes], [from_be_bytes]), UTF-8 strings
    ([str::from_utf8], [chars], [trim], [to_ascii_lowercase]) and the two number
    formats that occur in identifiers and messages ([{:08x}] and decimal).
    [usize] is 64 bits wide.  Strings are byte strings; a Rust [String] is one
    for which [utf8_valid] holds. *)

From coqutil Require Import Byte Word.LittleEndianList.
From stdpp Require Import prelude countable gmap strings list pretty.
From Stdlib Require Import ZArith Lia.
From S2P Require Import Prelude.
Local Open Scope Z_scope.

#[global] Instance byte_eq_decision : EqDecision byte := Stdlib.Strings.Byte.byte_eq_dec.

#[global] Instance byte_countable : Countable byte :=
  inj_countable Stdlib.Strings.Byte.to_N Stdlib.Strings.Byte.of_N Stdlib.Strings.Byte.of_to_N.

(** ** Machine integers *)

Definition u64_max : Z := 2 ^ 64 - 1.
Definition usize_max : Z := 2 ^ 64 - 1.
Definition i64_max : Z := 2 ^ 63 - 1.
Definition i64_min : Z := - 2 ^ 63.

Definition in_u32 (z : Z) : Prop := 0 <= z < 2 ^ 32.
Definition in_u64 (z : Z) : Prop := 0 <= z < 2 ^ 64.
Definition in_i32 (z : Z) : Prop := - 2 ^ 31 <= z < 2 ^ 31.
Definition in_i64 (z : Z) : Prop := - 2 ^ 63 <= z < 2 ^ 63.

Definition saturating_add (a b : Z) : Z := Z.min (a + b) u64_max.
Definition saturating_sub (a b : Z) : Z := Z.max (a - b) 0.
Definition saturating_mul (a b : Z) : Z := Z.min (a * b) u64_max.
Definition checked_add (a b : Z) : option Z :=
  if a + b <=? u64_max then Some (a + b) else None.
Definition checked_sub (a b : Z) : option Z :=
  if b <=? a then Some (a - b) else None.
Definition i64_saturating_sub (a b : Z) : Z := Z.max i64_min (Z.min (a - b) i64_max).

(** [as iN]: reinterpret the low [w] bits as a two's-complement number. *)
Definition as_signed (w : Z) (z : Z) : Z := (z + 2 ^ (w - 1)) mod 2 ^ w - 2 ^ (w - 1).

Lemma as_signed_mod w z :
  0 < w -> - 2 ^ (w - 1) <= z < 2 ^ (w - 1) -> as_signed w (z mod 2 ^ w) = z.
Proof.
  intros Hw Hz. unfold as_signed.
  rewrite Z.add_mod_idemp_l by (apply Z.pow_nonzero; lia).
  assert (2 ^ w = 2 * 2 ^ (w - 1)) as Hp.
  { replace w with (Z.succ (w - 1)) at 1 by lia. rewrite Z.pow_succ_r by lia. done. }
  rewrite Z.mod_small; lia.
Qed.

Lemma as_signed_range w z : 0 < w -> - 2 ^ (w - 1) <= as_signed w z < 2 ^ (w - 1).
Proof.
  intros Hw. unfold as_signed.
  assert (2 ^ w = 2 * 2 ^ (w - 1)) as Hp.
  { replace w with (Z.succ (w - 1)) at 1 by lia. rewrite Z.pow_succ_r by lia. done. }
  pose proof (Z.mod_pos_bound (z + 2 ^ (w - 1)) (2 ^ w) ltac:(apply Z.pow_pos_nonneg; lia)).
  lia.
Qed.

(** ** Big-endian byte encodings *)

Definition to_be_bytes (n : nat) (z : Z) : list byte := rev (le_split n z).
Definition from_be_bytes (bs : list byte) : Z := le_combine (rev bs).

Lemma to_be_bytes_length n z : length (to_be_bytes n z) = n.
Proof. unfold to_be_bytes. rewrite length_rev. apply length_le_split. Qed.

Lemma to_be_bytes_len n z : len (to_be_bytes n z) = Z.of_nat n.
Proof. unfold len. by rewrite to_be_bytes_length. Qed.

Lemma from_to_be_bytes_mod n z :
  from_be_bytes (to_be_bytes n z) = z mod 2 ^ (Z.of_nat n * 8).
Proof. unfold from_be_bytes, to_be_bytes. rewrite rev_involutive. apply le_combine_split. Qed.

Lemma from_to_be_bytes n z :
  0 <= z < 2 ^ (Z.of_nat n * 8) -> from_be_bytes (to_be_bytes n z) = z.
Proof. intros. rewrite from_to_be_bytes_mod. by apply Z.mod_small. Qed.

Lemma to_be_bytes_inj n a b :
  0 <= a < 2 ^ (Z.of_nat n * 8) -> 0 <= b < 2 ^ (Z.of_nat n * 8) ->
  to_be_bytes n a = to_be_bytes n b -> a = b.
Proof.
  intros Ha Hb H. rewrite <- (from_to_be_bytes n a), <- (from_to_be_bytes n b) by done.
  by rewrite H.
Qed.

Lemma from_be_bytes_bound bs : 0 <= from_be_bytes bs < 2 ^ (8 * len bs).
Proof.
  unfold from_be_bytes, len. rewrite <- (length_rev bs). apply le_combine_bound.
Qed.

Lemma signed_from_to_be_bytes n w z :
  w = Z.of_nat n * 8 -> 0 < w -> - 2 ^ (w - 1) <= z < 2 ^ (w - 1) ->
  as_signed w (from_be_bytes (to_be_bytes n z)) = z.
Proof. intros -> ? ?. rewrite from_to_be_bytes_mod. by apply as_signed_mod. Qed.

#[export] Hint Rewrite to_be_bytes_len : rust_len.

(** ** UTF-8

    [utf8_chars] is the validating decoder behind [str::from_utf8]: the byte
    ranges are those of RFC 3629, which exclude overlong forms, surrogates and
    values above U+10FFFF. *)

Definition byte_in (b : byte) (lo hi : Z) : bool :=
  (lo <=? byte.unsigned b) && (byte.unsigned b <=? hi).
Definition is_cont (b : byte) : bool := byte_in b 0x80 0xBF.
Definition low6 (b : byte) : Z := Z.land (byte.unsigned b) 0x3F.

Fixpoint utf8_chars (bs : list byte) : option (list Z) :=
  match bs with
  | [] => Some []
  | b0 :: r0 =>
      let u := byte.unsigned b0 in
      if byte_in b0 0 0x7F then cons u <$> utf8_chars r0
      else match r0 with
      | [] => None
      | b1 :: r1 =>
          if byte_in b0 0xC2 0xDF then
            if is_cont b1
            then cons (Z.lor (Z.shiftl (Z.land u 0x1F) 6) (low6 b1)) <$> utf8_chars r1
            else None
          else match r1 with
          | [] => None
          | b2 :: r2 =>
              if byte_in b0 0xE0 0xEF then
                if (if u =? 0xE0 then byte_in b1 0xA0 0xBF
                    else if u =? 0xED then byte_in b1 0x80 0x9F
                    else is_cont b1) && is_cont b2
                then cons (Z.lor (Z.shiftl (Z.land u 0x0F) 12)
                             (Z.lor (Z.shiftl (low6 b1) 6) (low6 b2))) <$> utf8_chars r2
                else None
              else match r2 with
              | [] => None
              | b3 :: r3 =>
                  if byte_in b0 0xF0 0xF4
                     && (if u =? 0xF0 then byte_in b1 0x90 0xBF
                         else if u =? 0xF4 then byte_in b1 0x80 0x8F
                         else is_cont b1) && is_cont b2 && is_cont b3
                  then cons (Z.lor (Z.shiftl (Z.land u 0x07) 18)
                               (Z.lor (Z.shiftl (low6 b1) 12)
                                  (Z.lor (Z.shiftl (low6 b2) 6) (low6 b3)))) <$> utf8_chars r3
                  else None
              end
          end
      end
  end.

Definition utf8_valid (bs : list byte) : bool :=
  match utf8_chars bs with Some _ => true | None => false end.

(** The encoder: the bytes of a [str] given by its code points. *)
Definition utf8_encode_char (c : Z) : list byte :=
  if c <? 0x80 then [byte.of_Z c]
  else if c <? 0x800 then
    [byte.of_Z (Z.lor 0xC0 (Z.shiftr c 6)); byte.of_Z (Z.lor 0x80 (Z.land c 0x3F))]
  else if c <? 0x10000 then
    [byte.of_Z (Z.lor 0xE0 (Z.shiftr c 12)); byte.of_Z (Z.lor 0x80 (Z.land (Z.shiftr c 6) 0x3F));
     byte.of_Z (Z.lor 0x80 (Z.land c 0x3F))]
  else
    [byte.of_Z (Z.lor 0xF0 (Z.shiftr c 18)); byte.of_Z (Z.lor 0x80 (Z.land (Z.shiftr c 12) 0x3F));
     byte.of_Z (Z.lor 0x80 (Z.land (Z.shiftr c 6) 0x3F)); byte.of_Z (Z.lor 0x80 (Z.land c 0x3F))].

Definition utf8_encode (cs : list Z) : list byte := concat (map utf8_encode_char cs).

(** ASCII text is its own encoding. *)
Definition ascii_byte (b : byte) : Prop := byte.unsigned b < 0x80.

Lemma utf8_chars_ascii bs :
  Forall ascii_byte bs -> utf8_chars bs = Some (map byte.unsigned bs).
Proof.
  induction 1 as [|b bs Hb _ IH]; [done|]. cbn [utf8_chars map]. rewrite IH.
  pose proof (byte.unsigned_range b). unfold byte_in, ascii_byte in *.
  by rewrite (proj2 (Z.leb_le 0 _)), (proj2 (Z.leb_le _ 0x7F)) by lia.
Qed.

Lemma utf8_encode_ascii bs :
  Forall ascii_byte bs -> utf8_encode (map byte.unsigned bs) = bs.
Proof.
  induction 1 as [|b bs Hb _ IH]; [done|]. unfold utf8_encode in *. cbn [map concat]. rewrite IH.
  unfold utf8_encode_char, ascii_byte in *. rewrite (proj2 (Z.ltb_lt _ _)) by done.
  by rewrite byte.of_Z_unsigned.
Qed.

(** ** Strings *)

Definition as_bytes (s : string) : list byte := String.list_byte_of_string s.
Definition from_bytes (bs : list byte) : string := String.string_of_list_byte bs.

Lemma from_as_bytes s : from_bytes (as_bytes s) = s.
Proof. apply String.string_of_list_byte_of_string. Qed.
Lemma as_from_bytes bs : as_bytes (from_bytes bs) = bs.
Proof. apply String.list_byte_of_string_of_list_byte. Qed.
Lemma as_bytes_inj s t : as_bytes s = as_bytes t -> s = t.
Proof. intros H. by rewrite <- (from_as_bytes s), <- (from_as_bytes t), H. Qed.

(** [s.chars()]: the code points of a [String]. *)
Definition chars (s : string) : list Z := default [] (utf8_chars (as_bytes s)).

(** [char::is_whitespace]: the Unicode property White_Space. *)
Definition is_whitespace (c : Z) : bool :=
  ((0x09 <=? c) && (c <=? 0x0D)) || (c =? 0x20) || (c =? 0x85) || (c =? 0xA0)
  || (c =? 0x1680) || ((0x2000 <=? c) && (c <=? 0x200A)) || (c =? 0x2028)
  || (c =? 0x2029) || (c =? 0x202F) || (c =? 0x205F) || (c =? 0x3000).

Fixpoint drop_while {A} (p : A -> bool) (l : list A) : list A :=
  match l with
  | [] => []
  | x :: r => if p x then drop_while p r else l
  end.

(** [str::trim], on the code points. *)
Definition trim (cs : list Z) : list Z :=
  rev (drop_while is_whitespace (rev (drop_while is_whitespace cs))).
Definition trim_str (s : string) : string := from_bytes (utf8_encode (trim (chars s))).

(** [str::to_ascii_lowercase] maps the bytes [A-Z] and leaves the others. *)
Definition lower_byte (b : byte) : byte :=
  if byte_in b 0x41 0x5A then byte.of_Z (byte.unsigned b + 32) else b.
Definition to_ascii_lowercase (s : string) : string :=
  from_bytes (map lower_byte (as_bytes s)).

Lemma lower_byte_idem b : lower_byte (lower_byte b) = lower_byte b.
Proof. by destruct b. Qed.

Lemma to_ascii_lowercase_idem s :
  to_ascii_lowercase (to_ascii_lowercase s) = to_ascii_lowercase s.
Proof.
  unfold to_ascii_lowercase. rewrite as_from_bytes, map_map.
  f_equal. apply map_ext, lower_byte_idem.
Qed.

(** ** Lower-case hexadecimal with zero padding: [format!("{v:0Wx}")]

    The digits are produced least significant first; 16 of them cover a [u64]. *)

Fixpoint nibbles (fuel : nat) (v : Z) : list Z :=
  match fuel with
  | O => []
  | S f => if v <? 16 then [v] else v mod 16 :: nibbles f (v / 16)
  end.

Definition hex_digit (d : Z) : byte :=
  if d <? 10 then byte.of_Z (48 + d) else byte.of_Z (87 + d).

Definition fmt_hex (width : nat) (v : Z) : string :=
  let ds := nibbles 16 v in
  from_bytes (rev (map hex_digit (ds ++ replicate (width - length ds) 0))).

Fixpoint nibbles_value (ds : list Z) : Z :=
  match ds with
  | [] => 0
  | d :: r => d + 16 * nibbles_value r
  end.

Definition hex_digit_value (b : byte) : Z :=
  if byte.unsigned b <? 58 then byte.unsigned b - 48 else byte.unsigned b - 87.

Lemma hex_digit_value_digit d : 0 <= d < 16 -> hex_digit_value (hex_digit d) = d.
Proof.
  intros [H0 H]. unfold hex_digit.
  destruct (d <? 10) eqn:E; unfold hex_digit_value; rewrite !byte.unsigned_of_Z;
    unfold byte.wrap; bool_to_prop; rewrite Z.mod_small by lia; case_if; bool_to_prop; lia.
Qed.

Lemma nibbles_digits fuel v : 0 <= v -> Forall (fun d => 0 <= d < 16) (nibbles fuel v).
Proof.
  revert v. induction fuel as [|f IH]; intros v Hv; simpl; [constructor|].
  case_if; bool_to_prop; constructor; auto.
  - apply Z.mod_pos_bound. lia.
  - apply IH, Z.div_pos; lia.
Qed.

Lemma nibbles_value_nibbles fuel v :
  0 <= v < 16 ^ Z.of_nat fuel -> nibbles_value (nibbles fuel v) = v.
Proof.
  revert v. induction fuel as [|f IH]; intros v Hv; simpl.
  - simpl in Hv. lia.
  - case_if; bool_to_prop; simpl; [lia|].
    rewrite IH.
    + pose proof (Z.div_mod v 16). lia.
    + rewrite Nat2Z.inj_succ, Z.pow_succ_r in Hv by lia. split; [apply Z.div_pos; lia|].
      apply Z.div_lt_upper_bound; lia.
Qed.

Lemma nibbles_value_pad ds n : nibbles_value (ds ++ replicate n 0) = nibbles_value ds.
Proof.
  induction ds as [|d ds IH]; simpl; [|by rewrite IH].
  induction n as [|n IHn]; simpl; [done|]. by rewrite IHn.
Qed.

(** Reading the formatted number back; [fmt_hex] loses nothing. *)
Definition hex_value (s : string) : Z :=
  nibbles_value (map hex_digit_value (rev (as_bytes s))).

Lemma map_hex_digit_value ds :
  Forall (fun d => 0 <= d < 16) ds -> map hex_digit_value (map hex_digit ds) = ds.
Proof. induction 1; simpl; [done|]. rewrite hex_digit_value_digit by done. by f_equal. Qed.

Lemma hex_value_fmt_hex w v : in_u64 v -> hex_value (fmt_hex w v) = v.
Proof.
  intros Hv. unfold hex_value, fmt_hex. rewrite as_from_bytes, rev_involutive.
  rewrite map_hex_digit_value, nibbles_value_pad.
  - apply nibbles_value_nibbles. unfold in_u64 in Hv.
    by replace (16 ^ Z.of_nat 16) with (2 ^ 64) by reflexivity.
  - apply Forall_app. split.
    + apply nibbles_digits. unfold in_u64 in Hv. lia.
    + apply Forall_replicate. lia.
Qed.

Lemma fmt_hex_inj w a b : in_u64 a -> in_u64 b -> fmt_hex w a = fmt_hex w b -> a = b.
Proof.
  intros Ha Hb H. rewrite <- (hex_value_fmt_hex w a), <- (hex_value_fmt_hex w b) by done.
  by rewrite H.
Qed.

Lemma hex_digit_range d : 0 <= d < 16 -> (byte_in (hex_digit d) 0x30 0x39 || byte_in (hex_digit d) 0x61 0x66) = true.
Proof.
  intros Hd. assert (exists n : nat, (n < 16)%nat /\ d = Z.of_nat n) as (n & Hn & ->) by (exists (Z.to_nat d); lia).
  do 16 (destruct n as [|n]; [by vm_compute|]). lia.
Qed.

Lemma fmt_hex_digits w v :
  0 <= v -> Forall (fun b => (byte_in b 0x30 0x39 || byte_in b 0x61 0x66) = true) (as_bytes (fmt_hex w v)).
Proof.
  intros Hv. unfold fmt_hex. rewrite as_from_bytes. apply Forall_rev, Forall_map, Forall_app. split.
  - eapply Forall_impl; [by apply nibbles_digits|]. apply hex_digit_range.
  - apply Forall_replicate. by vm_compute.
Qed.

Lemma nibbles_length fuel v : (length (nibbles fuel v) <= fuel)%nat.
Proof. revert v. induction fuel as [|f IH]; intros v; simpl; [lia|]. case_if; simpl; [lia|]. specialize (IH (v / 16)). lia. Qed.

Lemma fmt_hex_length w v : (16 <= w)%nat -> length (as_bytes (fmt_hex w v)) = w.
Proof.
  intros Hw. unfold fmt_hex. rewrite as_from_bytes, length_rev, length_map, length_app, length_replicate.
  pose proof (nibbles_length 16 v). lia.
Qed.

(** ** [u64] arithmetic in a release build *)

Definition u64_succ (z : Z) : Z := (z + 1) mod 2 ^ 64.

Lemma u64_succ_small z : 0 <= z < u64_max -> u64_succ z = z + 1.
Proof. intros. unfold u64_succ, u64_max in *. apply Z.mod_small. lia. Qed.

(** [slice::partition_point]: on a slice partitioned by [p], the number of leading
    elements that satisfy it. *)
Fixpoint partition_point {A} (p : A -> bool) (l : list A) : nat :=
  match l with
  | [] => 0
  | x :: r => if p x then S (partition_point p r) else 0
  end.

(** ** Bits and bytes *)

Lemma lor_shiftl_low a b k : 0 <= k -> 0 <= a < 2 ^ k -> Z.lor (Z.shiftl b k) a = b * 2 ^ k + a.
Proof.
  intros Hk Ha. pose proof (Z.add_lor_land (Z.shiftl b k) a) as H.
  replace (Z.land (Z.shiftl b k) a) with 0 in H; [rewrite Z.shiftl_mul_pow2 in *; lia|].
  symmetry. apply Z.bits_inj'. intros n Hn. rewrite Z.land_spec, Z.bits_0.
  destruct (Z.lt_ge_cases n k); [by rewrite Z.shiftl_spec_low|].
  rewrite <- (Z.mod_small a (2 ^ k)), Z.mod_pow2_bits_high by lia. apply andb_false_r.
Qed.

Lemma from_be_bytes_snoc out b : from_be_bytes (out ++ [b]) = from_be_bytes out * 256 + byte.unsigned b.
Proof.
  unfold from_be_bytes. rewrite rev_app_distr. 
  change (le_combine (rev [b] ++ rev out)) with (Z.lor (byte.unsigned b) (Z.shiftl (le_combine (rev out)) 8)).
  rewrite Z.lor_comm. apply (lor_shiftl_low _ _ 8); [lia|]. apply byte.unsigned_range.
Qed.

Lemma from_be_bytes_inj a b : length a = length b -> from_be_bytes a = from_be_bytes b -> a = b.
Proof.
  intros Hl H. unfold from_be_bytes in H.
  apply le_combine_inj in H; [|by rewrite !length_rev].
  rewrite <- (rev_involutive a), <- (rev_involutive b). by f_equal.
Qed.

Lemma to_from_be_bytes n bs : length bs = n -> to_be_bytes n (from_be_bytes bs) = bs.
Proof.
  intros Hl. apply from_be_bytes_inj; [by rewrite to_be_bytes_length|]. apply from_to_be_bytes.
  pose proof (from_be_bytes_bound bs) as H. unfold len in H. rewrite Hl in H. by rewrite Z.mul_comm.
Qed.

(** ** Decimal numbers *)

(** [str::parse::<u32>] *)
Fixpoint u32_digits (acc : Z) (s : list byte) : option Z :=
  match s with
  | [] => Some acc
  | b :: r =>
      if byte_in b 0x30 0x39 then
        let acc := acc * 10 + (byte.unsigned b - 0x30) in
        if acc <? 2 ^ 32 then u32_digits acc r else None
      else None
  end.

Definition parse_u32 (s : list byte) : option Z :=
  match s with
  | [] => None
  | b :: r =>
      if bool_decide (b = Byte.x2b) then (if bool_decide (r = []) then None else u32_digits 0 r)
      else u32_digits 0 s
  end.

Lemma as_bytes_cons c s : as_bytes (String c s) = Ascii.byte_of_ascii c :: as_bytes s.
Proof. done. Qed.

Lemma as_bytes_app s t : as_bytes (s +:+ t) = as_bytes s ++ as_bytes t.
Proof.
  induction s as [|c s IH]; [done|]. change (String c s +:+ t) with (String c (s +:+ t)).
  by rewrite !as_bytes_cons, IH.
Qed.

Lemma pretty_pos z : pretty (Z.pos z) = pretty_N_go (N.pos z) "".
Proof. done. Qed.

Lemma pretty_char_digit d :
  (d < 10)%N ->
  let b := Ascii.byte_of_ascii (pretty_N_char d) in
  byte_in b 0x30 0x39 = true /\ byte.unsigned b - 0x30 = Z.of_N d.
Proof.
  intros Hd. assert (d = 0 \/ d = 1 \/ d = 2 \/ d = 3 \/ d = 4 \/ d = 5 \/ d = 6 \/ d = 7 \/ d = 8 \/ d = 9)%N
    as Hc by lia.
  by repeat (destruct Hc as [->|Hc]; [by vm_compute|]); subst.
Qed.

Lemma pretty_go_digits x s :
  Forall (fun b => byte_in b 0x30 0x39 = true) (as_bytes s) ->
  Forall (fun b => byte_in b 0x30 0x39 = true) (as_bytes (pretty_N_go x s)).
Proof.
  revert s. induction (N.lt_wf_0 x) as [x _ IH]; intros s Hs.
  assert (x = 0 \/ 0 < x)%N as [->|Hx] by lia; [by rewrite pretty_N_go_0|].
  rewrite pretty_N_go_step by done. apply IH; [apply N.div_lt; lia|].
  rewrite as_bytes_cons. constructor; [|done]. apply pretty_char_digit. by apply N.mod_lt.
Qed.

Lemma pretty_digits z : 0 <= z -> Forall (fun b => byte_in b 0x30 0x39 = true) (as_bytes (pretty z)).
Proof.
  destruct z as [|z|z]; [by repeat constructor| |lia]. intros _. rewrite pretty_pos. by apply pretty_go_digits.
Qed.

Lemma u32_digits_go x s :
  exists k, 0 <= k /\ forall acc, 0 <= acc -> acc * 10 ^ k + Z.of_N x < 2 ^ 32 ->
    u32_digits acc (as_bytes (pretty_N_go x s)) = u32_digits (acc * 10 ^ k + Z.of_N x) (as_bytes s).
Proof.
  revert s. induction (N.lt_wf_0 x) as [x _ IH]; intros s.
  assert (x = 0 \/ 0 < x)%N as [->|Hx] by lia.
  { exists 0. split; [done|]. intros acc _ _. rewrite pretty_N_go_0. f_equal. lia. }
  destruct (IH (x `div` 10)%N (N.div_lt x 10 Hx ltac:(lia)) (String (pretty_N_char (x `mod` 10)) s))
    as (k & Hk & Hp).
  destruct (pretty_char_digit (x `mod` 10)) as (Hd1 & Hd2); [by apply N.mod_lt|].
  assert (Z.of_N x = 10 * Z.of_N (x `div` 10) + Z.of_N (x `mod` 10)) as Hdm
    by (pose proof (N.div_mod x 10 ltac:(done)); lia).
  pose proof (N2Z.is_nonneg (x `div` 10)). pose proof (N2Z.is_nonneg (x `mod` 10)).
  exists (k + 1). split; [lia|]. intros acc Ha Hm. rewrite Z.pow_add_r, Z.pow_1_r in * by lia.
  assert (0 <= acc * 10 ^ k) by (apply Z.mul_nonneg_nonneg; [done|apply Z.pow_nonneg; lia]).
  assert (acc * (10 ^ k * 10) = 10 * (acc * 10 ^ k)) as Hmul by ring.
  rewrite pretty_N_go_step by done. rewrite Hp; [|done|].
  2:{ generalize dependent (Z.of_N (x `div` 10)). generalize dependent (Z.of_N (x `mod` 10)).
      generalize dependent (acc * 10 ^ k). intros. lia. }
  rewrite as_bytes_cons. cbn [u32_digits]. rewrite Hd1, Hd2.
  replace ((acc * 10 ^ k + Z.of_N (x `div` 10)) * 10 + Z.of_N (x `mod` 10))
    with (acc * (10 ^ k * 10) + Z.of_N x) by lia.
  by rewrite (proj2 (Z.ltb_lt _ _)) by done.
Qed.

Lemma pretty_go_not_nil x s : as_bytes s <> [] -> as_bytes (pretty_N_go x s) <> [].
Proof.
  revert s. induction (N.lt_wf_0 x) as [x _ IH]; intros s Hs.
  assert (x = 0 \/ 0 < x)%N as [->|Hx] by lia; [by rewrite pretty_N_go_0|].
  rewrite pretty_N_go_step by done. apply IH; [apply N.div_lt; lia|done].
Qed.

Lemma parse_u32_pretty z : in_u32 z -> parse_u32 (as_bytes (pretty z)) = Some z.
Proof.
  intros [H0 H1]. pose proof (pretty_digits z H0) as Hd.
  assert (as_bytes (pretty z) <> []) as Hne.
  { destruct z as [|z|z]; [done| |lia]. rewrite pretty_pos, pretty_N_go_step by done. by apply pretty_go_not_nil. }
  assert (u32_digits 0 (as_bytes (pretty z)) = Some z) as Hv.
  { destruct z as [|z|z]; [done| |lia]. rewrite pretty_pos.
    destruct (u32_digits_go (N.pos z) "") as (k & _ & Hk). rewrite Hk by (done || simpl in *; lia). done. }
  destruct (as_bytes (pretty z)) as [|b r]; [done|]. apply Forall_cons in Hd as [Hb _]. unfold parse_u32.
  rewrite bool_decide_false; [done|]. intros ->. done.
Qed.

Lemma pretty_go_len k x s :
  Z.of_N x < 10 ^ Z.of_nat k -> len (as_bytes (pretty_N_go x s)) <= Z.of_nat k + len (as_bytes s).
Proof.
  revert x s. induction k as [|k IH]; intros x s Hx.
  { assert (x = 0%N) as -> by (simpl in Hx; lia). rewrite pretty_N_go_0. lia. }
  assert (x = 0 \/ 0 < x)%N as [->|Hpos] by lia; [rewrite pretty_N_go_0; lia|].
  rewrite pretty_N_go_step by done. rewrite Nat2Z.inj_succ, Z.pow_succ_r in Hx by lia.
  etrans; [apply IH|rewrite as_bytes_cons, len_cons; lia].
  rewrite N2Z.inj_div. apply Z.div_lt_upper_bound; lia.
Qed.

(** ** Time

    An [Instant] (monotonic clock) is a number of nanoseconds, a [SystemTime] read
    through [duration_since(UNIX_EPOCH)] a [u64] of seconds.  Adding a [Duration] of
    whole seconds to an [Instant] panics when the 64-bit signed count of seconds
    behind it overflows. *)

Definition nanos : Z := 10 ^ 9.

Definition instant_add_secs (t secs : Z) : option Z :=
  let r := t + secs * nanos in
  if r / nanos <=? i64_max then Some r else None.

Lemma instant_add_secs_Some t secs r : instant_add_secs t secs = Some r -> r = t + secs * nanos.
Proof. unfold instant_add_secs. case_if; intros; by simplify_eq. Qed.

(** [a + b] on [u64] in a release build. *)
Definition u64_add (a b : Z) : Z := (a + b) mod 2 ^ 64.

Lemma u64_add_small a b : 0 <= a -> 0 <= b -> a + b < 2 ^ 64 -> u64_add a b = a + b.
Proof. intros. unfold u64_add. apply Z.mod_small. lia. Qed.

(** ** Iteration order of hash maps *)

Class MapIter := {
  iter : forall {K : Type} `{Countable K} {A : Type}, gmap K A -> list (K * A);
  iter_perm : forall {K : Type} `{Countable K} {A : Type} (m : gmap K A), iter m ≡ₚ map_to_list m;
}.

(** One admissible order, used by the witnesses. *)
Definition key_order : MapIter :=
  {| iter := fun _ _ _ _ m => map_to_list m; iter_perm := fun _ _ _ _ _ => reflexivity _ |}.

Definition keys `{MapIter} `{Countable K} {A} (m : gmap K A) : list K := (iter m).*1.

Lemma elem_of_iter `{MapIter} `{Countable K} {A} (m : gmap K A) k v :
  (k, v) ∈ iter m <-> m !! k = Some v.
Proof. rewrite iter_perm. apply elem_of_map_to_list. Qed.

Lemma elem_of_keys `{MapIter} `{Countable K} {A} (m : gmap K A) k :
  k ∈ keys m <-> is_Some (m !! k).
Proof.
  unfold keys. rewrite list_elem_of_fmap. split.
  - intros ([k' v] & -> & Hin%elem_of_iter). by exists v.
  - intros [v Hv]. exists (k, v). split; [done|]. by apply elem_of_iter.
Qed.

Lemma NoDup_keys `{MapIter} `{Countable K} {A} (m : gmap K A) : NoDup (keys m).
Proof. unfold keys. rewrite (iter_perm m). apply NoDup_fst_map_to_list. Qed.

Lemma forallb_iter `{MapIter} {A} (m : gmap string A) (f : string * A -> bool) :
  forallb f (iter m) = true <-> forall k v, m !! k = Some v -> f (k, v) = true.
Proof.
  rewrite forallb_forall. setoid_rewrite <- list_elem_of_In. split.
  - intros Hf k v Hk. apply Hf. by apply elem_of_iter.
  - intros Hf [k v] Hin%elem_of_iter. auto.
Qed.

Lemma existsb_keys `{MapIter} {A} (m : gmap string A) (f : string -> bool) :
  existsb f (keys m) = true <-> exists k, is_Some (m !! k) /\ f k = true.
Proof.
  rewrite existsb_exists. setoid_rewrite <- list_elem_of_In. by setoid_rewrite elem_of_keys.
Qed.

(** ** UTF-8 round trip *)

(** The code point of a sequence as a sum, and back. *)
Lemma low6_sub b : is_cont b = true -> low6 b = byte.unsigned b - 0x80 /\ 0 <= low6 b < 64.
Proof. destruct b; vm_compute; intuition congruence. Qed.

Lemma utf8_cont x b : is_cont b = true -> x mod 64 = low6 b -> byte.of_Z (Z.lor 0x80 (Z.land x 0x3F)) = b.
Proof.
  intros Hb Hx. change 0x3F with (Z.ones 6). rewrite Z.land_ones by lia. change (2 ^ 6) with 64. rewrite Hx.
  by destruct b.
Qed.

Lemma utf8_lead k hi x b : 0 <= k -> byte.unsigned b = hi * 2 ^ k + x -> 0 <= x < 2 ^ k ->
  byte.of_Z (Z.lor (hi * 2 ^ k) x) = b.
Proof.
  intros Hk Hb Hx. rewrite <- (Z.shiftl_mul_pow2 hi k) by done. rewrite lor_shiftl_low by done.
  rewrite Z.add_comm in Hb. rewrite Z.add_comm, <- Hb. apply byte.of_Z_unsigned.
Qed.

Lemma utf8_pair b0 b1 : byte_in b0 0xC2 0xDF = true -> is_cont b1 = true ->
  let c := Z.lor (Z.shiftl (Z.land (byte.unsigned b0) 0x1F) 6) (low6 b1) in
  0x80 <= c /\ utf8_encode_char c = [b0; b1].
Proof.
  intros H0 H1 c. subst c. pose proof (low6_sub b1 H1) as [_ L1].
  assert (Ha : Z.land (byte.unsigned b0) 0x1F = byte.unsigned b0 - 0xC0).
  { clear -H0. destruct b0; try done; discriminate. }
  unfold byte_in in H0. bool_to_prop. rewrite Ha, lor_shiftl_low by (change (2 ^ 6) with 64; lia).
  change (2 ^ 6) with 64. split; [lia|]. unfold utf8_encode_char.
  rewrite (proj2 (Z.ltb_ge _ _)), (proj2 (Z.ltb_lt _ _)) by lia. rewrite Z.shiftr_div_pow2 by lia. f_equal; [|f_equal].
  - apply (utf8_lead 6 3); [done| |]; change (2 ^ 6) with 64; rewrite Z.div_add_l, Z.div_small by lia; lia.
  - apply utf8_cont; [done|]. rewrite Z.add_comm, Z.mod_add, Z.mod_small; lia.
Qed.

Lemma utf8_triple b0 b1 b2 : byte_in b0 0xE0 0xEF = true -> is_cont b1 = true -> is_cont b2 = true ->
  (byte.unsigned b0 = 0xE0 -> 0xA0 <= byte.unsigned b1) ->
  let c := Z.lor (Z.shiftl (Z.land (byte.unsigned b0) 0x0F) 12) (Z.lor (Z.shiftl (low6 b1) 6) (low6 b2)) in
  0x80 <= c /\ utf8_encode_char c = [b0; b1; b2].
Proof.
  intros H0 H1 H2 Hlow c. subst c. pose proof (low6_sub b1 H1) as [E1 L1]. pose proof (low6_sub b2 H2) as [_ L2].
  assert (Ha : Z.land (byte.unsigned b0) 0x0F = byte.unsigned b0 - 0xE0).
  { clear -H0. destruct b0; try done; discriminate. }
  unfold byte_in in H0. bool_to_prop. rewrite Ha, (lor_shiftl_low _ (low6 b1)) by (change (2 ^ 6) with 64; lia).
  rewrite lor_shiftl_low by (change (2 ^ 6) with 64; change (2 ^ 12) with 4096; lia).
  change (2 ^ 6) with 64. change (2 ^ 12) with 4096. split; [lia|]. unfold utf8_encode_char.
  rewrite !(proj2 (Z.ltb_ge _ _)), (proj2 (Z.ltb_lt _ _)) by lia. rewrite !Z.shiftr_div_pow2 by lia.
  change (2 ^ 6) with 64. change (2 ^ 12) with 4096. f_equal; [|f_equal; [|f_equal]].
  - apply (utf8_lead 4 14); [done| |]; change (2 ^ 4) with 16; rewrite Z.div_add_l, Z.div_small by lia; lia.
  - apply utf8_cont; [done|]. Z.div_mod_to_equations; lia.
  - apply utf8_cont; [done|]. Z.div_mod_to_equations; lia.
Qed.

Lemma utf8_quad b0 b1 b2 b3 : byte_in b0 0xF0 0xF4 = true -> is_cont b1 = true -> is_cont b2 = true -> is_cont b3 = true ->
  (byte.unsigned b0 = 0xF0 -> 0x90 <= byte.unsigned b1) ->
  let c := Z.lor (Z.shiftl (Z.land (byte.unsigned b0) 0x07) 18)
             (Z.lor (Z.shiftl (low6 b1) 12) (Z.lor (Z.shiftl (low6 b2) 6) (low6 b3))) in
  0x80 <= c /\ utf8_encode_char c = [b0; b1; b2; b3].
Proof.
  intros H0 H1 H2 H3 Hlow c. subst c. pose proof (low6_sub b1 H1) as [E1 L1]. pose proof (low6_sub b2 H2) as [_ L2].
  pose proof (low6_sub b3 H3) as [_ L3].
  assert (Ha : Z.land (byte.unsigned b0) 0x07 = byte.unsigned b0 - 0xF0).
  { clear -H0. destruct b0; try done; discriminate. }
  unfold byte_in in H0. bool_to_prop. rewrite Ha, (lor_shiftl_low _ (low6 b2)) by (change (2 ^ 6) with 64; lia).
  rewrite (lor_shiftl_low _ (low6 b1)) by (change (2 ^ 6) with 64; change (2 ^ 12) with 4096; lia).
  rewrite lor_shiftl_low by (change (2 ^ 6) with 64; change (2 ^ 12) with 4096; change (2 ^ 18) with 262144; lia).
  change (2 ^ 6) with 64. change (2 ^ 12) with 4096. change (2 ^ 18) with 262144. split; [lia|]. unfold utf8_encode_char.
  rewrite !(proj2 (Z.ltb_ge _ _)) by lia. rewrite !Z.shiftr_div_pow2 by lia.
  change (2 ^ 6) with 64. change (2 ^ 12) with 4096. change (2 ^ 18) with 262144. f_equal; [|f_equal; [|f_equal; [|f_equal]]].
  - apply (utf8_lead 4 15); [done| |]; change (2 ^ 4) with 16; rewrite Z.div_add_l, Z.div_small by lia; lia.
  - apply utf8_cont; [done|]. Z.div_mod_to_equations; lia.
  - apply utf8_cont; [done|]. Z.div_mod_to_equations; lia.
  - apply utf8_cont; [done|]. Z.div_mod_to_equations; lia.
Qed.

(** Induction along the characters of a valid text: ASCII bytes, and longer sequences whose
    bytes are all above them. *)
Lemma utf8_chars_ind (P : list byte -> list Z -> Prop) :
  P [] [] ->
  (forall b r cs, byte.unsigned b < 0x80 -> P r cs -> P (b :: r) (byte.unsigned b :: cs)) ->
  (forall c hd r cs, 0x80 <= c -> utf8_encode_char c = hd -> Forall (fun b => 0x80 <= byte.unsigned b) hd ->
     P r cs -> P (hd ++ r) (c :: cs)) ->
  forall bs cs, utf8_chars bs = Some cs -> P bs cs.
Proof.
  intros Hnil Hascii Hlong bs. induction bs as [bs IH] using (induction_ltof1 _ (@length byte)). unfold ltof in IH.
  assert (Hstep : forall c hd r cs, (length r < length bs)%nat -> bs = hd ++ r ->
    0x80 <= c /\ utf8_encode_char c = hd -> Forall (fun b => 0x80 <= byte.unsigned b) hd ->
    cons c <$> utf8_chars r = Some cs -> P bs cs).
  { intros c hd r cs Hl -> [Hc Hh] Hf (cs' & Hr & ->)%fmap_Some. apply Hlong; auto. }
  intros cs. destruct bs as [|b0 r0]; cbn [utf8_chars]; [by intros [= <-]|].
  destruct (byte_in b0 0 0x7F) eqn:E0.
  { intros (cs' & Hr & ->)%fmap_Some. unfold byte_in in E0. bool_to_prop. apply Hascii; [lia|]. apply IH; [simpl; lia|done]. }
  destruct r0 as [|b1 r1]; [done|]. destruct (byte_in b0 0xC2 0xDF) eqn:E1.
  { destruct (is_cont b1) eqn:C1; [|done]. apply (Hstep _ [b0; b1]); [simpl; lia|done|by apply utf8_pair|].
    unfold is_cont, byte_in in *. bool_to_prop. repeat constructor; lia. }
  destruct r1 as [|b2 r2]; [done|]. destruct (byte_in b0 0xE0 0xEF) eqn:E2.
  { destruct (_ && is_cont b2) eqn:C; [|done]. apply andb_true_iff in C as [C1 C2].
    assert (C1' : is_cont b1 = true) by (unfold is_cont, byte_in in *; repeat case_match; bool_to_prop; lia).
    apply (Hstep _ [b0; b1; b2]); [simpl; lia|done| |unfold is_cont, byte_in in *; bool_to_prop; repeat constructor; lia].
    apply utf8_triple; [done..|]. intros E. unfold is_cont, byte_in in *. repeat case_match; bool_to_prop; lia. }
  destruct r2 as [|b3 r3]; [done|]. destruct (_ && is_cont b3) eqn:C; [|done].
  repeat rewrite andb_true_iff in C. destruct C as [[[C0 C1] C2] C3].
  assert (C1' : is_cont b1 = true) by (unfold is_cont, byte_in in *; repeat case_match; bool_to_prop; lia).
  apply (Hstep _ [b0; b1; b2; b3]); [simpl; lia|done| |unfold is_cont, byte_in in *; bool_to_prop; repeat constructor; lia].
  apply utf8_quad; [done..|]. intros E. unfold is_cont, byte_in in *. repeat case_match; bool_to_prop; lia.
Qed.

(** Decoding and encoding again gives the bytes. *)
Lemma utf8_encode_decode bs cs : utf8_chars bs = Some cs -> utf8_encode cs = bs.
Proof.
  revert bs cs. apply utf8_chars_ind; [done| |].
  - intros b r cs Hb <-. unfold utf8_encode. cbn [map concat]. unfold utf8_encode_char at 1.
    rewrite (proj2 (Z.ltb_lt _ _)) by lia. by rewrite byte.of_Z_unsigned.
  - intros c hd r cs _ Hc _ <-. unfold utf8_encode. cbn [map concat]. by rewrite Hc.
Qed.
