(* ===== verification/KmipTypes.v ===== *)
(** * KMIP enumerations ([craton-hsm-kmip/src/types.rs])

    One Module per enumeration, so that the constructors keep the source's names:
    the wire tags ([Tag]), object types ([ObjectType]), operations ([Operation]),
    algorithms ([Algorithm]), result statuses ([Status]) and reasons ([Reason]).
    [WireEnum] is what the codec and the dispatcher rely on: a numbering of the
    constructors and its partial inverse. *)

From stdpp Require Import prelude strings.
From Stdlib Require Import ZArith Lia.
From S2P Require Import Prelude RustStd.
Local Open Scope Z_scope.
Local Open Scope string_scope.

(** ** The interface of a wire enumeration *)

Class WireEnum (A : Type) := {
  to_wire : A -> Z;
  from_wire : Z -> option A;
}.

Class WireEnumLaws (A : Type) `{WireEnum A} := {
  from_to_wire : forall a : A, from_wire (to_wire a) = Some a;
  to_from_wire : forall (v : Z) (a : A), from_wire v = Some a -> to_wire a = v;
  to_wire_u32 : forall a : A, in_u32 (to_wire a);
}.

Lemma to_wire_inj `{WireEnumLaws A} (a b : A) : to_wire a = to_wire b -> a = b.
Proof. intros E. apply (inj Some). by rewrite <- (from_to_wire a), <- (from_to_wire b), E. Qed.

(** Walk down the binary digits of the scrutinised literal. *)
Ltac split_literal p :=
  destruct p; simpl in *; try discriminate;
  try match goal with q : positive |- _ => split_literal q end.

Ltac solve_wire :=
  split;
  [ intros a; destruct a; reflexivity
  | intros v a E; destruct v as [|p|p]; simpl in E; try discriminate;
    [ try (by simplify_eq) | .. ];
    try (split_literal p; by simplify_eq)
  | intros a; destruct a; split; vm_compute; congruence ].

Module Tag.
Inductive KmipTag : Set :=
| Operation
| UniqueIdentifier
| ObjectType
| TemplateAttribute
| Attribute
| AttributeName
| AttributeValue
| CryptographicAlgorithm
| CryptographicLength
| Name
| NameValue
| NameType
| RequestHeader
| ResponseHeader
| RequestMessage
| ResponseMessage
| BatchItem
| ResultStatus
| ResultReason
| ResultMessage
| KeyBlock
| KeyValue
| KeyMaterial
| ProtocolVersion
| ProtocolVersionMajor
| ProtocolVersionMinor
| TimeStamp
| BatchCount
| ClientCorrelationValue.

#[global] Instance KmipTag_eq_dec : EqDecision KmipTag.
Proof. solve_decision. Defined.

Definition KmipTag_to_u32 (x : KmipTag) : Z :=
  match x with
  | Operation => 0x0042005C
  | UniqueIdentifier => 0x00420094
  | ObjectType => 0x00420057
  | TemplateAttribute => 0x00420091
  | Attribute => 0x00420008
  | AttributeName => 0x0042000A
  | AttributeValue => 0x0042000B
  | CryptographicAlgorithm => 0x00420028
  | CryptographicLength => 0x0042002A
  | Name => 0x00420053
  | NameValue => 0x00420055
  | NameType => 0x00420054
  | RequestHeader => 0x00420077
  | ResponseHeader => 0x0042007A
  | RequestMessage => 0x00420078
  | ResponseMessage => 0x0042007B
  | BatchItem => 0x0042000D
  | ResultStatus => 0x0042007F
  | ResultReason => 0x00420080
  | ResultMessage => 0x00420081
  | KeyBlock => 0x00420040
  | KeyValue => 0x00420045
  | KeyMaterial => 0x00420043
  | ProtocolVersion => 0x00420069
  | ProtocolVersionMajor => 0x0042006A
  | ProtocolVersionMinor => 0x0042006B
  | TimeStamp => 0x00420092
  | BatchCount => 0x0042000E
  | ClientCorrelationValue => 0x0042009A
  end.

Definition KmipTag_from_u32 (v : Z) : option KmipTag :=
  match v with
  | 0x0042005C => Some Operation
  | 0x00420094 => Some UniqueIdentifier
  | 0x00420057 => Some ObjectType
  | 0x00420091 => Some TemplateAttribute
  | 0x00420008 => Some Attribute
  | 0x0042000A => Some AttributeName
  | 0x0042000B => Some AttributeValue
  | 0x00420028 => Some CryptographicAlgorithm
  | 0x0042002A => Some CryptographicLength
  | 0x00420053 => Some Name
  | 0x00420055 => Some NameValue
  | 0x00420054 => Some NameType
  | 0x00420077 => Some RequestHeader
  | 0x0042007A => Some ResponseHeader
  | 0x00420078 => Some RequestMessage
  | 0x0042007B => Some ResponseMessage
  | 0x0042000D => Some BatchItem
  | 0x0042007F => Some ResultStatus
  | 0x00420080 => Some ResultReason
  | 0x00420081 => Some ResultMessage
  | 0x00420040 => Some KeyBlock
  | 0x00420045 => Some KeyValue
  | 0x00420043 => Some KeyMaterial
  | 0x00420069 => Some ProtocolVersion
  | 0x0042006A => Some ProtocolVersionMajor
  | 0x0042006B => Some ProtocolVersionMinor
  | 0x00420092 => Some TimeStamp
  | 0x0042000E => Some BatchCount
  | 0x0042009A => Some ClientCorrelationValue
  | _ => None
  end.

#[global] Instance KmipTag_wire : WireEnum KmipTag :=
  {| to_wire := KmipTag_to_u32; from_wire := KmipTag_from_u32 |}.
#[global] Instance KmipTag_wire_laws : WireEnumLaws KmipTag.
Proof. solve_wire. Qed.
End Tag.

Module ObjectType.
Inductive KmipObjectType : Set :=
| SymmetricKey
| PublicKey
| PrivateKey
| Certificate
| SecretData
| OpaqueData.

#[global] Instance KmipObjectType_eq_dec : EqDecision KmipObjectType.
Proof. solve_decision. Defined.

Definition KmipObjectType_to_u32 (x : KmipObjectType) : Z :=
  match x with
  | SymmetricKey => 1
  | PublicKey => 2
  | PrivateKey => 3
  | Certificate => 6
  | SecretData => 7
  | OpaqueData => 8
  end.

Definition KmipObjectType_from_u32 (v : Z) : option KmipObjectType :=
  match v with
  | 1 => Some SymmetricKey
  | 2 => Some PublicKey
  | 3 => Some PrivateKey
  | 6 => Some Certificate
  | 7 => Some SecretData
  | 8 => Some OpaqueData
  | _ => None
  end.

Definition KmipObjectType_fmt (x : KmipObjectType) : string :=
  match x with
  | SymmetricKey => "SymmetricKey"
  | PublicKey => "PublicKey"
  | PrivateKey => "PrivateKey"
  | Certificate => "Certificate"
  | SecretData => "SecretData"
  | OpaqueData => "OpaqueData"
  end.

#[global] Instance KmipObjectType_wire : WireEnum KmipObjectType :=
  {| to_wire := KmipObjectType_to_u32; from_wire := KmipObjectType_from_u32 |}.
#[global] Instance KmipObjectType_wire_laws : WireEnumLaws KmipObjectType.
Proof. solve_wire. Qed.
End ObjectType.

Module Operation.
Inductive KmipOperation : Set :=
| Create
| CreateKeyPair
| Register
| Locate
| Get
| GetAttributes
| AddAttribute
| ModifyAttribute
| DeleteAttribute
| Activate
| Revoke
| Destroy
| Query
| Check
| Encrypt
| Decrypt
| Sign
| SignatureVerify
| MAC
| MACVerify
| RngRetrieve
| DeriveKey.

#[global] Instance KmipOperation_eq_dec : EqDecision KmipOperation.
Proof. solve_decision. Defined.

Definition KmipOperation_to_u32 (x : KmipOperation) : Z :=
  match x with
  | Create => 1
  | CreateKeyPair => 2
  | Register => 3
  | DeriveKey => 4
  | Locate => 8
  | Get => 10
  | GetAttributes => 11
  | AddAttribute => 13
  | ModifyAttribute => 14
  | DeleteAttribute => 15
  | Activate => 18
  | Revoke => 19
  | Destroy => 20
  | Query => 24
  | Check => 25
  | Encrypt => 31
  | Decrypt => 32
  | Sign => 33
  | SignatureVerify => 34
  | MAC => 35
  | MACVerify => 36
  | RngRetrieve => 37
  end.

Definition KmipOperation_from_u32 (v : Z) : option KmipOperation :=
  match v with
  | 1 => Some Create
  | 2 => Some CreateKeyPair
  | 3 => Some Register
  | 4 => Some DeriveKey
  | 8 => Some Locate
  | 10 => Some Get
  | 11 => Some GetAttributes
  | 13 => Some AddAttribute
  | 14 => Some ModifyAttribute
  | 15 => Some DeleteAttribute
  | 18 => Some Activate
  | 19 => Some Revoke
  | 20 => Some Destroy
  | 24 => Some Query
  | 25 => Some Check
  | 31 => Some Encrypt
  | 32 => Some Decrypt
  | 33 => Some Sign
  | 34 => Some SignatureVerify
  | 35 => Some MAC
  | 36 => Some MACVerify
  | 37 => Some RngRetrieve
  | _ => None
  end.

Definition KmipOperation_fmt (x : KmipOperation) : string :=
  match x with
  | Create => "Create"
  | CreateKeyPair => "CreateKeyPair"
  | Register => "Register"
  | DeriveKey => "DeriveKey"
  | Locate => "Locate"
  | Get => "Get"
  | GetAttributes => "GetAttributes"
  | AddAttribute => "AddAttribute"
  | ModifyAttribute => "ModifyAttribute"
  | DeleteAttribute => "DeleteAttribute"
  | Activate => "Activate"
  | Revoke => "Revoke"
  | Destroy => "Destroy"
  | Query => "Query"
  | Check => "Check"
  | Encrypt => "Encrypt"
  | Decrypt => "Decrypt"
  | Sign => "Sign"
  | SignatureVerify => "SignatureVerify"
  | MAC => "MAC"
  | MACVerify => "MACVerify"
  | RngRetrieve => "RNG_Retrieve"
  end.

#[global] Instance KmipOperation_wire : WireEnum KmipOperation :=
  {| to_wire := KmipOperation_to_u32; from_wire := KmipOperation_from_u32 |}.
#[global] Instance KmipOperation_wire_laws : WireEnumLaws KmipOperation.
Proof. solve_wire. Qed.
End Operation.

Module Algorithm.
Inductive KmipCryptographicAlgorithm : Set :=
| AES
| RSA
| ECDSA
| HMAC_SHA256.

#[global] Instance KmipCryptographicAlgorithm_eq_dec : EqDecision KmipCryptographicAlgorithm.
Proof. solve_decision. Defined.

Definition KmipCryptographicAlgorithm_to_u32 (x : KmipCryptographicAlgorithm) : Z :=
  match x with
  | AES => 3
  | RSA => 4
  | ECDSA => 6
  | HMAC_SHA256 => 17
  end.

Definition KmipCryptographicAlgorithm_from_u32 (v : Z) : option KmipCryptographicAlgorithm :=
  match v with
  | 3 => Some AES
  | 4 => Some RSA
  | 6 => Some ECDSA
  | 17 => Some HMAC_SHA256
  | _ => None
  end.

#[global] Instance KmipCryptographicAlgorithm_wire : WireEnum KmipCryptographicAlgorithm :=
  {| to_wire := KmipCryptographicAlgorithm_to_u32; from_wire := KmipCryptographicAlgorithm_from_u32 |}.
#[global] Instance KmipCryptographicAlgorithm_wire_laws : WireEnumLaws KmipCryptographicAlgorithm.
Proof. solve_wire. Qed.
End Algorithm.

Module Status.
Inductive KmipResultStatus : Set :=
| Success
| OperationFailed
| OperationPending
| OperationUndone.

#[global] Instance KmipResultStatus_eq_dec : EqDecision KmipResultStatus.
Proof. solve_decision. Defined.

Definition KmipResultStatus_to_u32 (x : KmipResultStatus) : Z :=
  match x with
  | Success => 0
  | OperationFailed => 1
  | OperationPending => 2
  | OperationUndone => 3
  end.

Definition KmipResultStatus_from_u32 (v : Z) : option KmipResultStatus :=
  match v with
  | 0 => Some Success
  | 1 => Some OperationFailed
  | 2 => Some OperationPending
  | 3 => Some OperationUndone
  | _ => None
  end.

#[global] Instance KmipResultStatus_wire : WireEnum KmipResultStatus :=
  {| to_wire := KmipResultStatus_to_u32; from_wire := KmipResultStatus_from_u32 |}.
#[global] Instance KmipResultStatus_wire_laws : WireEnumLaws KmipResultStatus.
Proof. solve_wire. Qed.
End Status.

Module Reason.
Inductive KmipResultReason : Set :=
| ItemNotFound
| NotAuthorized
| PermissionDenied
| ObjectNotFound
| CryptographicFailure
| InvalidMessage
| InvalidField
| OperationNotSupported
| GeneralFailure.

#[global] Instance KmipResultReason_eq_dec : EqDecision KmipResultReason.
Proof. solve_decision. Defined.

Definition KmipResultReason_to_u32 (x : KmipResultReason) : Z :=
  match x with
  | ItemNotFound => 1
  | NotAuthorized => 3
  | PermissionDenied => 4
  | ObjectNotFound => 5
  | CryptographicFailure => 11
  | InvalidMessage => 15
  | InvalidField => 19
  | OperationNotSupported => 20
  | GeneralFailure => 0x100
  end.

Definition KmipResultReason_from_u32 (v : Z) : option KmipResultReason :=
  match v with
  | 1 => Some ItemNotFound
  | 3 => Some NotAuthorized
  | 4 => Some PermissionDenied
  | 5 => Some ObjectNotFound
  | 11 => Some CryptographicFailure
  | 15 => Some InvalidMessage
  | 19 => Some InvalidField
  | 20 => Some OperationNotSupported
  | 0x100 => Some GeneralFailure
  | _ => None
  end.

#[global] Instance KmipResultReason_wire : WireEnum KmipResultReason :=
  {| to_wire := KmipResultReason_to_u32; from_wire := KmipResultReason_from_u32 |}.
#[global] Instance KmipResultReason_wire_laws : WireEnumLaws KmipResultReason.
Proof. solve_wire. Qed.
End Reason.

(** ** Every enumeration survives the wire *)

Lemma from_wire_iff `{WireEnumLaws A} (v : Z) (a : A) :
  from_wire v = Some a <-> v = to_wire a.
Proof.
  split; [intros E; symmetry; by apply to_from_wire | intros ->; apply from_to_wire].
Qed.

(** The wire numbers of the six KMIP enumerations and their partial inverses
    agree: [from_u32 v] returns a constructor exactly when [v] is that
    constructor's number, so no two constructors share a number and every number
    that is accepted re-encodes to itself. *)
Theorem kmip_wire_enums_exact :
  (forall v t, Tag.KmipTag_from_u32 v = Some t <-> v = Tag.KmipTag_to_u32 t) /\
  (forall v t, ObjectType.KmipObjectType_from_u32 v = Some t
               <-> v = ObjectType.KmipObjectType_to_u32 t) /\
  (forall v o, Operation.KmipOperation_from_u32 v = Some o
               <-> v = Operation.KmipOperation_to_u32 o) /\
  (forall v a, Algorithm.KmipCryptographicAlgorithm_from_u32 v = Some a
               <-> v = Algorithm.KmipCryptographicAlgorithm_to_u32 a) /\
  (forall v s, Status.KmipResultStatus_from_u32 v = Some s
               <-> v = Status.KmipResultStatus_to_u32 s) /\
  (forall v r, Reason.KmipResultReason_from_u32 v = Some r
               <-> v = Reason.KmipResultReason_to_u32 r).
Proof.
  split_and!; intros v x.
  - exact (from_wire_iff (A := Tag.KmipTag) v x).
  - exact (from_wire_iff (A := ObjectType.KmipObjectType) v x).
  - exact (from_wire_iff (A := Operation.KmipOperation) v x).
  - exact (from_wire_iff (A := Algorithm.KmipCryptographicAlgorithm) v x).
  - exact (from_wire_iff (A := Status.KmipResultStatus) v x).
  - exact (from_wire_iff (A := Reason.KmipResultReason) v x).
Qed.
