(* ===== verification/KmipTtlv.v ===== *)
(** * The TTLV codec ([craton-hsm-kmip/src/ttlv.rs])

    Data ([TtlvType], [TtlvValue], [TtlvItem]), the encoder as the source writes
    it (one output buffer, the length of a structure back-patched once its
    children are written) and the decoder with its resource limits.

    The decoder returns [CPanic] where Rust would panic on a slice or an index
    out of range, and [CDiverge] if the loop over the children ran out of fuel. *)

From coqutil Require Import Byte Word.LittleEndianList.
From stdpp Require Import prelude strings list.
From Stdlib Require Import ZArith Lia.
From S2P Require Import Prelude RustStd KmipTypes.
Local Open Scope Z_scope.
Local Open Scope rust_scope.

(** ** Data *)

Module TtlvTag.
Inductive TtlvType : Set :=
| Structure
| Integer
| LongInteger
| BigInteger
| Enumeration
| Boolean
| TextString
| ByteString
| DateTime.

Definition TtlvType_to_u8 (t : TtlvType) : Z :=
  match t with
  | Structure => 1
  | Integer => 2
  | LongInteger => 3
  | BigInteger => 4
  | Enumeration => 5
  | Boolean => 6
  | TextString => 7
  | ByteString => 8
  | DateTime => 9
  end.

Definition TtlvType_from_u8 (v : Z) : option TtlvType :=
  match v with
  | 1 => Some Structure
  | 2 => Some Integer
  | 3 => Some LongInteger
  | 4 => Some BigInteger
  | 5 => Some Enumeration
  | 6 => Some Boolean
  | 7 => Some TextString
  | 8 => Some ByteString
  | 9 => Some DateTime
  | _ => None
  end.

#[global] Instance TtlvType_wire : WireEnum TtlvType :=
  {| to_wire := TtlvType_to_u8; from_wire := TtlvType_from_u8 |}.
#[global] Instance TtlvType_wire_laws : WireEnumLaws TtlvType.
Proof. solve_wire. Qed.
End TtlvTag.

Inductive TtlvItem : Type :=
| Item (tag : Z) (value : TtlvValue)
with TtlvValue : Type :=
| VStructure (children : list TtlvItem)
| VInteger (v : Z)
| VLongInteger (v : Z)
| VBigInteger (bytes : list byte)
| VEnumeration (v : Z)
| VBoolean (b : bool)
| VTextString (s : list byte)
| VByteString (bytes : list byte)
| VDateTime (v : Z).

Definition ttlv_type (v : TtlvValue) : TtlvTag.TtlvType :=
  match v with
  | VStructure _ => TtlvTag.Structure
  | VInteger _ => TtlvTag.Integer
  | VLongInteger _ => TtlvTag.LongInteger
  | VBigInteger _ => TtlvTag.BigInteger
  | VEnumeration _ => TtlvTag.Enumeration
  | VBoolean _ => TtlvTag.Boolean
  | VTextString _ => TtlvTag.TextString
  | VByteString _ => TtlvTag.ByteString
  | VDateTime _ => TtlvTag.DateTime
  end.

Inductive TtlvError : Type :=
| Truncated
| UnknownType (t : Z)
| InvalidLength
| InvalidUtf8
| DepthExceeded
| ValueTooLarge (n : Z)
| TooManyItems (n : Z)
| MessageTooLarge (n : Z).

(** ** Encoding *)

Definition MAX_TTLV_VALUE_SIZE : Z := 1048576.
Definition MAX_TTLV_ENCODE_SIZE : Z := MAX_TTLV_VALUE_SIZE.

(** [(len + 7) & !7] *)
Definition padded_len (n : Z) : Z := Z.land (n + 7) (Z.lnot 7).

Definition write_header (out : list byte) (tag : Z) (typ : TtlvTag.TtlvType) (value_len : Z)
  : list byte :=
  out ++ [byte.of_Z (Z.land (Z.shiftr tag 16) 0xFF);
          byte.of_Z (Z.land (Z.shiftr tag 8) 0xFF);
          byte.of_Z (Z.land tag 0xFF);
          byte.of_Z (TtlvTag.TtlvType_to_u8 typ)]
      ++ to_be_bytes 4 value_len.

Definition zeros (n : Z) : list byte := replicate (Z.to_nat n) Byte.x00.

Definition pad_to_boundary (out : list byte) (value_len : Z) : list byte :=
  out ++ zeros (padded_len value_len - value_len).

(** [out[a..b].copy_from_slice(src)]: panics when the range is out of bounds or
    the lengths differ. *)
Definition copy_from_slice {A} (out : list A) (a b : Z) (src : list A) : option (list A) :=
  if (0 <=? a) && (a <=? b) && (b <=? len out) && (len src =? b - a)
  then Some (take (Z.to_nat a) out ++ src ++ drop (Z.to_nat b) out)
  else None.

(** The three arms for byte-valued payloads are the same code. *)
Definition encode_bytes_arm (out : list byte) (tag : Z) (typ : TtlvTag.TtlvType)
  (bytes : list byte) : comp (list byte) TtlvError :=
  let vlen := len bytes in
  if MAX_TTLV_ENCODE_SIZE <? vlen then CErr (ValueTooLarge vlen)
  else COk (pad_to_boundary (write_header out tag typ vlen ++ bytes) vlen).

Fixpoint encode_ttlv_into (item : TtlvItem) (out : list byte) {struct item}
  : comp (list byte) TtlvError :=
  let '(Item tag value) := item in
  match value with
  | VStructure children =>
      let header_pos := len out in
      let out1 := write_header out tag TtlvTag.Structure 0 in
      let children_start := len out1 in
      let? out2 :=
        (fix encode_children (cs : list TtlvItem) (o : list byte) :=
           match cs with
           | [] => COk o
           | c :: cs' => let? o' := encode_ttlv_into c o in encode_children cs' o'
           end) children out1 in
      let inner_len := len out2 - children_start in
      if MAX_TTLV_ENCODE_SIZE <? inner_len then CErr (ValueTooLarge inner_len)
      else or_panic (copy_from_slice out2 (header_pos + 4) (header_pos + 8)
                       (to_be_bytes 4 inner_len))
  | VInteger v =>
      COk (write_header out tag TtlvTag.Integer 4 ++ to_be_bytes 4 v ++ zeros 4)
  | VLongInteger v =>
      COk (write_header out tag TtlvTag.LongInteger 8 ++ to_be_bytes 8 v)
  | VBigInteger bytes => encode_bytes_arm out tag TtlvTag.BigInteger bytes
  | VEnumeration v =>
      COk (write_header out tag TtlvTag.Enumeration 4 ++ to_be_bytes 4 v ++ zeros 4)
  | VBoolean b =>
      COk (write_header out tag TtlvTag.Boolean 8 ++ zeros 7
             ++ [if b then Byte.x01 else Byte.x00])
  | VTextString s => encode_bytes_arm out tag TtlvTag.TextString s
  | VByteString bytes => encode_bytes_arm out tag TtlvTag.ByteString bytes
  | VDateTime v =>
      COk (write_header out tag TtlvTag.DateTime 8 ++ to_be_bytes 8 v)
  end.

Definition encode_ttlv (item : TtlvItem) : comp (list byte) TtlvError :=
  encode_ttlv_into item [].

(** ** Decoding *)

Definition MAX_TTLV_DEPTH : Z := 32.
Definition MAX_TTLV_ITEMS : Z := 10000.

Record TtlvLimits := { max_depth : Z; max_items : Z; max_bytes : Z }.

Definition TtlvLimits_default : TtlvLimits :=
  {| max_depth := MAX_TTLV_DEPTH; max_items := MAX_TTLV_ITEMS; max_bytes := usize_max |}.

Record DecodeCx := { limits : TtlvLimits; bytes_consumed : Z }.

Definition charge (cx : DecodeCx) (n : Z) : comp DecodeCx TtlvError :=
  let consumed := saturating_add (bytes_consumed cx) n in
  if max_bytes (limits cx) <? consumed then CErr (MessageTooLarge consumed)
  else COk {| limits := limits cx; bytes_consumed := consumed |}.

Definition header_len : Z := 8.

(** What one call of the decoder delivers: the item, the bytes consumed, and the
    counters it leaves behind. *)
Definition Decoded : Type := (TtlvItem * Z) * DecodeCx.

(** The [while offset < value_len] loop over the children of a structure;
    [dec] is the recursive call. *)
Fixpoint decode_children (dec : list byte -> DecodeCx -> comp Decoded TtlvError)
  (fuel : nat) (inner : list byte) (value_len offset : Z) (children : list TtlvItem)
  (cx : DecodeCx) : comp (list TtlvItem * DecodeCx) TtlvError :=
  if negb (offset <? value_len) then COk (children, cx)
  else match fuel with
  | O => CDiverge
  | S fuel' =>
      if max_items (limits cx) <=? len children
      then CErr (TooManyItems (len children + 1))
      else
        let? rest := or_panic (slice inner offset (len inner)) in
        let? ((child, consumed), cx') := dec rest cx in
        decode_children dec fuel' inner value_len (offset + consumed) (children ++ [child]) cx'
  end.

(** Read [n] bytes of a fixed-size body and charge the padded body. *)
Definition fixed_body (data : list byte) (n padded : Z) (cx : DecodeCx)
  : comp (list byte * DecodeCx) TtlvError :=
  if len data <? header_len + padded then CErr Truncated
  else
    let? cx' := charge cx padded in
    let? body := or_panic (slice data header_len (header_len + n)) in
    COk (body, cx').

(** The [match typ] of the decoder: header parsed and charged, [dec] is the
    recursive call on the children. *)
Definition decode_value (dec : list byte -> DecodeCx -> comp Decoded TtlvError)
  (typ : TtlvTag.TtlvType) (tag value_len : Z) (data : list byte) (cx : DecodeCx)
  : comp Decoded TtlvError :=
  match typ with
  | TtlvTag.Structure =>
      if len data <? header_len + value_len then CErr Truncated
      else
        let? inner := or_panic (slice data header_len (header_len + value_len)) in
        let? (children, cx') :=
          decode_children dec (Z.to_nat value_len) inner value_len 0 [] cx in
        COk ((Item tag (VStructure children), header_len + value_len), cx')
  | TtlvTag.Integer =>
      let? (body, cx') := fixed_body data 4 (padded_len 4) cx in
      COk ((Item tag (VInteger (as_signed 32 (from_be_bytes body))),
            header_len + padded_len 4), cx')
  | TtlvTag.LongInteger =>
      let? (body, cx') := fixed_body data 8 8 cx in
      COk ((Item tag (VLongInteger (as_signed 64 (from_be_bytes body))), header_len + 8), cx')
  | TtlvTag.BigInteger =>
      let? (body, cx') := fixed_body data value_len (padded_len value_len) cx in
      COk ((Item tag (VBigInteger body), header_len + padded_len value_len), cx')
  | TtlvTag.Enumeration =>
      let? (body, cx') := fixed_body data 4 (padded_len 4) cx in
      COk ((Item tag (VEnumeration (from_be_bytes body)), header_len + padded_len 4), cx')
  | TtlvTag.Boolean =>
      if len data <? header_len + 8 then CErr Truncated
      else
        let? cx' := charge cx 8 in
        let? b := or_panic (index data (header_len + 7)) in
        COk ((Item tag (VBoolean (negb (byte.unsigned b =? 0))), header_len + 8), cx')
  | TtlvTag.TextString =>
      let? (body, cx') := fixed_body data value_len (padded_len value_len) cx in
      if utf8_valid body
      then COk ((Item tag (VTextString body), header_len + padded_len value_len), cx')
      else CErr InvalidUtf8
  | TtlvTag.ByteString =>
      let? (body, cx') := fixed_body data value_len (padded_len value_len) cx in
      COk ((Item tag (VByteString body), header_len + padded_len value_len), cx')
  | TtlvTag.DateTime =>
      let? (body, cx') := fixed_body data 8 8 cx in
      COk ((Item tag (VDateTime (as_signed 64 (from_be_bytes body))), header_len + 8), cx')
  end.

(** The three tag bytes of a header. *)
Definition header_tag (d0 d1 d2 : byte) : Z :=
  Z.lor (Z.shiftl (byte.unsigned d0) 16)
    (Z.lor (Z.shiftl (byte.unsigned d1) 8) (byte.unsigned d2)).

Fixpoint decode_ttlv_inner (max_depth : nat) (data : list byte) (cx : DecodeCx)
  : comp Decoded TtlvError :=
  match max_depth with
  | O => CErr DepthExceeded
  | S depth' =>
      if len data <? 8 then CErr Truncated
      else
        let? d0 := or_panic (index data 0) in
        let? d1 := or_panic (index data 1) in
        let? d2 := or_panic (index data 2) in
        let tag := header_tag d0 d1 d2 in
        let? d3 := or_panic (index data 3) in
        let type_byte := byte.unsigned d3 in
        let? lenb := or_panic (slice data 4 8) in
        let value_len := from_be_bytes lenb in
        if MAX_TTLV_VALUE_SIZE <? value_len then CErr (ValueTooLarge value_len)
        else
          let? typ := ok_or (TtlvTag.TtlvType_from_u8 type_byte) (UnknownType type_byte) in
          let? cx1 := charge cx header_len in
          decode_value (decode_ttlv_inner depth') typ tag value_len data cx1
  end.

Definition decode_ttlv_with_limits (data : list byte) (l : TtlvLimits)
  : comp (TtlvItem * Z) TtlvError :=
  let? (r, _) := decode_ttlv_inner (Z.to_nat (max_depth l)) data
                    {| limits := l; bytes_consumed := 0 |} in
  COk r.

Definition decode_ttlv (data : list byte) : comp (TtlvItem * Z) TtlvError :=
  decode_ttlv_with_limits data TtlvLimits_default.

Definition decode_ttlv_bounded (data : list byte) (depth : Z) : comp (TtlvItem * Z) TtlvError :=
  let l := {| max_depth := depth; max_items := max_items TtlvLimits_default;
              max_bytes := max_bytes TtlvLimits_default |} in
  let? (r, _) := decode_ttlv_inner (Z.to_nat depth) data
                    {| limits := l; bytes_consumed := 0 |} in
  COk r.

(** ** Convenience constructors *)

Definition encode_integer (tag val : Z) := encode_ttlv (Item tag (VInteger val)).
Definition encode_text_string (tag : Z) (val : list byte) :=
  encode_ttlv (Item tag (VTextString val)).
Definition encode_byte_string (tag : Z) (val : list byte) :=
  encode_ttlv (Item tag (VByteString val)).
Definition encode_enumeration (tag val : Z) := encode_ttlv (Item tag (VEnumeration val)).
