(* ===== verification/KmipTtlvProofs.v ===== *)
(** * Correctness of the TTLV codec

    The reference encoder [enc], the equivalence of the back-patching encoder with
    it, totality and resource bounds of the decoder, and the two round trips. *)

From coqutil Require Import Byte Word.LittleEndianList Z.bitblast.
From stdpp Require Import prelude strings list.
From Stdlib Require Import ZArith Lia.
From S2P Require Import Prelude RustStd KmipTypes KmipTtlv.
Local Open Scope Z_scope.
Local Open Scope rust_scope.

(** ** Induction over items *)

Section ItemInd.
Variable P : TtlvItem -> Prop.
Hypothesis Hstruct : forall tag cs, Forall P cs -> P (Item tag (VStructure cs)).
Hypothesis Hleaf : forall tag v, (forall cs, v <> VStructure cs) -> P (Item tag v).

Fixpoint TtlvItem_nested_ind (i : TtlvItem) : P i :=
  match i with
  | Item tag v =>
      match v as v0 return P (Item tag v0) with
      | VStructure cs =>
          Hstruct tag cs
            ((fix go (cs : list TtlvItem) : Forall P cs :=
                match cs with
                | [] => Forall_nil_2 P
                | c :: cs' => Forall_cons_2 P c cs' (TtlvItem_nested_ind c) (go cs')
                end) cs)
      | VInteger v => Hleaf tag (VInteger v) ltac:(discriminate)
      | VLongInteger v => Hleaf tag (VLongInteger v) ltac:(discriminate)
      | VBigInteger b => Hleaf tag (VBigInteger b) ltac:(discriminate)
      | VEnumeration v => Hleaf tag (VEnumeration v) ltac:(discriminate)
      | VBoolean b => Hleaf tag (VBoolean b) ltac:(discriminate)
      | VTextString s => Hleaf tag (VTextString s) ltac:(discriminate)
      | VByteString b => Hleaf tag (VByteString b) ltac:(discriminate)
      | VDateTime v => Hleaf tag (VDateTime v) ltac:(discriminate)
      end
  end.
End ItemInd.

(** ** The reference encoder: each level encoded into its own buffer *)

Definition header (tag : Z) (typ : TtlvTag.TtlvType) (n : Z) : list byte :=
  write_header [] tag typ n.

(** The body of a leaf, padding excluded. *)
Definition leaf_body (v : TtlvValue) : list byte :=
  match v with
  | VStructure _ => []
  | VInteger z => to_be_bytes 4 z
  | VEnumeration z => to_be_bytes 4 z
  | VLongInteger z => to_be_bytes 8 z
  | VDateTime z => to_be_bytes 8 z
  | VBigInteger b => b
  | VTextString b => b
  | VByteString b => b
  | VBoolean b => zeros 7 ++ [if b then Byte.x01 else Byte.x00]
  end.

Definition pad (n : Z) : list byte := zeros (padded_len n - n).

Definition enc_leaf (tag : Z) (v : TtlvValue) : result (list byte) TtlvError :=
  let b := leaf_body v in
  if MAX_TTLV_ENCODE_SIZE <? len b then Err (ValueTooLarge (len b))
  else Ok (header tag (ttlv_type v) (len b) ++ b ++ pad (len b)).

Fixpoint enc (item : TtlvItem) : result (list byte) TtlvError :=
  let '(Item tag v) := item in
  match v with
  | VStructure cs =>
      try body := (fix enc_list (cs : list TtlvItem) : result (list byte) TtlvError :=
                     match cs with
                     | [] => Ok []
                     | c :: cs' => try b := enc c in try r := enc_list cs' in Ok (b ++ r)
                     end) cs in
      if MAX_TTLV_ENCODE_SIZE <? len body then Err (ValueTooLarge (len body))
      else Ok (header tag TtlvTag.Structure (len body) ++ body)
  | _ => enc_leaf tag v
  end.

Fixpoint enc_list (cs : list TtlvItem) : result (list byte) TtlvError :=
  match cs with
  | [] => Ok []
  | c :: cs' => try b := enc c in try r := enc_list cs' in Ok (b ++ r)
  end.

Lemma enc_structure tag cs :
  enc (Item tag (VStructure cs)) =
  (try body := enc_list cs in
   if MAX_TTLV_ENCODE_SIZE <? len body then Err (ValueTooLarge (len body))
   else Ok (header tag TtlvTag.Structure (len body) ++ body)).
Proof. reflexivity. Qed.

Lemma enc_leaf_eq tag v :
  (forall cs, v <> VStructure cs) -> enc (Item tag v) = enc_leaf tag v.
Proof. intros H. destruct v; try reflexivity. by destruct (H children). Qed.

Lemma enc_list_app cs ds :
  enc_list (cs ++ ds) = (try a := enc_list cs in try b := enc_list ds in Ok (a ++ b)).
Proof.
  induction cs as [|c cs IH]; simpl.
  - by destruct (enc_list ds).
  - destruct (enc c); simpl; [|done]. rewrite IH.
    destruct (enc_list cs); simpl; [|done]. destruct (enc_list ds); simpl; [|done].
    by rewrite app_assoc.
Qed.

(** ** Facts about headers and padding *)

Lemma write_header_app out tag typ n : write_header out tag typ n = out ++ header tag typ n.
Proof. reflexivity. Qed.

Lemma header_len_8 tag typ n : len (header tag typ n) = 8.
Proof. unfold header, write_header. autorewrite with rust_len. reflexivity. Qed.

Lemma zeros_len n : 0 <= n -> len (zeros n) = n.
Proof. intros. unfold zeros, len. rewrite length_replicate. lia. Qed.

Lemma padded_len_eq n : 0 <= n -> padded_len n = 8 * ((n + 7) / 8).
Proof.
  intros. unfold padded_len.
  rewrite <- Z.ldiff_land. change 7 with (Z.ones 3) at 2.
  rewrite Z.ldiff_ones_r by lia. rewrite Z.shiftl_mul_pow2, Z.shiftr_div_pow2 by lia.
  change (2 ^ 3) with 8. lia.
Qed.

Lemma padded_len_bounds n : 0 <= n -> n <= padded_len n < n + 8.
Proof.
  intros. rewrite padded_len_eq by lia.
  pose proof (Z.div_mod (n + 7) 8). pose proof (Z.mod_pos_bound (n + 7) 8). lia.
Qed.

Lemma pad_len n : 0 <= n -> len (pad n) = padded_len n - n.
Proof. intros. unfold pad. apply zeros_len. pose proof (padded_len_bounds n). lia. Qed.

Lemma copy_from_slice_mid {A} (p m s src : list A) a b :
  a = len p -> b = len p + len m -> len src = len m ->
  copy_from_slice (p ++ m ++ s) a b src = Some (p ++ src ++ s).
Proof.
  intros -> -> Hsrc. unfold copy_from_slice.
  pose proof (len_nonneg p). pose proof (len_nonneg m). pose proof (len_nonneg s).
  rewrite !len_app.
  rewrite (proj2 (Z.leb_le 0 _)), (proj2 (Z.leb_le (len p) _)),
    (proj2 (Z.leb_le (len p + len m) _)), (proj2 (Z.eqb_eq (len src) _)) by lia.
  simpl. do 2 f_equal.
  - replace (Z.to_nat (len p)) with (length p) by (unfold len; lia). apply take_app_length.
  - f_equal. rewrite app_assoc.
    replace (Z.to_nat (len p + len m)) with (length (p ++ m)).
    + apply drop_app_length.
    + rewrite length_app. unfold len. lia.
Qed.

Lemma header_patch tag n m s out :
  copy_from_slice (out ++ header tag TtlvTag.Structure n ++ s) (len out + 4) (len out + 8)
    (to_be_bytes 4 m) = Some (out ++ header tag TtlvTag.Structure m ++ s).
Proof.
  unfold header, write_header. rewrite !app_nil_l.
  set (h := [_; _; _; _]).
  rewrite <- (app_assoc h), <- (app_assoc h), !(app_assoc out h).
  assert (len h = 4) as Hh by reflexivity.
  apply copy_from_slice_mid; rewrite ?len_app, ?to_be_bytes_len; lia.
Qed.

(** ** The in-place encoder computes the reference encoding *)

Definition encode_children : list TtlvItem -> list byte -> comp (list byte) TtlvError :=
  fix encode_children cs o :=
    match cs with
    | [] => COk o
    | c :: cs' => let? o' := encode_ttlv_into c o in encode_children cs' o'
    end.

(** Appending the outcome of the reference encoder to a buffer. *)
Definition append_result (out : list byte) (r : result (list byte) TtlvError)
  : comp (list byte) TtlvError :=
  match r with Ok bs => COk (out ++ bs) | Err e => CErr e end.

Lemma encode_children_spec cs :
  Forall (fun c => forall out, encode_ttlv_into c out = append_result out (enc c)) cs ->
  forall out, encode_children cs out = append_result out (enc_list cs).
Proof.
  induction 1 as [|c cs Hc _ IH]; intros out; simpl.
  - by rewrite app_nil_r.
  - rewrite Hc. destruct (enc c) as [b|e]; simpl; [|done].
    rewrite IH. destruct (enc_list cs); simpl; [|done]. by rewrite app_assoc.
Qed.

Lemma encode_leaf_spec tag v out :
  (forall cs, v <> VStructure cs) ->
  encode_ttlv_into (Item tag v) out = append_result out (enc_leaf tag v).
Proof.
  intros Hv. destruct v; [by destruct (Hv children)|..];
    unfold enc_leaf; simpl; unfold encode_bytes_arm, pad_to_boundary, pad;
    rewrite ?write_header_app;
    try (rewrite !to_be_bytes_len; simpl);
    try (case_if; simpl; rewrite <- ?app_assoc; done).
  all: rewrite <- ?app_assoc; rewrite ?app_nil_r; reflexivity.
Qed.

Lemma encode_ttlv_into_enc item out :
  encode_ttlv_into item out = append_result out (enc item).
Proof.
  revert out. induction item as [tag cs IH | tag v Hv] using TtlvItem_nested_ind; intros out.
  - rewrite enc_structure. simpl.
    change (fix encode_children (cs0 : list TtlvItem) (o : list byte) {struct cs0} := _)
      with encode_children.
    rewrite write_header_app, (encode_children_spec cs IH).
    destruct (enc_list cs) as [body|e]; simpl; [|done].
    rewrite !len_app, header_len_8.
    replace (len out + 8 + len body - (len out + 8)) with (len body) by lia.
    case_if; simpl; [done|].
    rewrite <- app_assoc, header_patch. done.
  - rewrite enc_leaf_eq by done. by apply encode_leaf_spec.
Qed.

(** ** Well-formed items and their measures

    [item_ok]: the values are in the range of their Rust types ([tag] on its three
    wire bytes) and text is UTF-8. *)

Definition in_range (lo z hi : Z) : bool := (lo <=? z) && (z <? hi).

Fixpoint item_ok (i : TtlvItem) : bool :=
  let '(Item tag v) := i in
  in_range 0 tag (2 ^ 24) &&
  match v with
  | VStructure cs => forallb item_ok cs
  | VInteger z => in_range (- 2 ^ 31) z (2 ^ 31)
  | VLongInteger z | VDateTime z => in_range (- 2 ^ 63) z (2 ^ 63)
  | VEnumeration z => in_range 0 z (2 ^ 32)
  | VTextString s => utf8_valid s
  | VBigInteger _ | VByteString _ | VBoolean _ => true
  end.

(** Nesting depth, counted as the decoder counts it. *)
Fixpoint item_depth (i : TtlvItem) : nat :=
  let '(Item _ v) := i in
  match v with
  | VStructure cs => S (foldr (fun c d => Nat.max (item_depth c) d) 0%nat cs)
  | _ => 1%nat
  end.

(** Every structure has at most [m] children. *)
Fixpoint item_width_ok (m : Z) (i : TtlvItem) : bool :=
  let '(Item _ v) := i in
  match v with
  | VStructure cs => (len cs <=? m) && forallb (item_width_ok m) cs
  | _ => true
  end.

Definition depth_list (cs : list TtlvItem) : nat :=
  foldr (fun c d => Nat.max (item_depth c) d) 0%nat cs.

Lemma depth_list_app cs ds : depth_list (cs ++ ds) = Nat.max (depth_list cs) (depth_list ds).
Proof. induction cs as [|c cs IH]; simpl; [done|]. rewrite IH. lia. Qed.

Lemma in_range_spec lo z hi : in_range lo z hi = true <-> lo <= z < hi.
Proof. unfold in_range. rewrite andb_true_iff, Z.leb_le, Z.ltb_lt. done. Qed.

(** ** What a successful decode delivers *)

(** Counters between two steps of a decode: below the budget, limits non-negative. *)
Record cx_ok (cx : DecodeCx) : Prop := {
  cx_low : 0 <= bytes_consumed cx <= u64_max;
  cx_budget : bytes_consumed cx <= max_bytes (limits cx);
  cx_items : 0 <= max_items (limits cx);
}.

(** [cx'] is [cx] after [n] more bytes were charged. *)
Record charged (cx : DecodeCx) (n : Z) (cx' : DecodeCx) : Prop := {
  ch_ok : cx_ok cx';
  ch_limits : limits cx' = limits cx;
  ch_bytes : bytes_consumed cx' = saturating_add (bytes_consumed cx) n;
}.

Record decode_spec (depth : nat) (data : list byte) (cx : DecodeCx)
  (item : TtlvItem) (n : Z) (cx' : DecodeCx) : Prop := {
  ds_consumed : 8 <= n <= len data;
  ds_ok : item_ok item = true;
  ds_depth : (item_depth item <= depth)%nat;
  ds_width : item_width_ok (max_items (limits cx)) item = true;
  ds_charged : charged cx n cx';
  ds_enc : exists bs, enc item = Ok bs /\ len bs = n;
}.

(** A decoder that returns, and satisfies [decode_spec] when it succeeds. *)
Definition good_decoder (depth : nat) (dec : list byte -> DecodeCx -> comp Decoded TtlvError) :=
  forall data cx, cx_ok cx ->
    returns (dec data cx) /\
    forall item n cx', dec data cx = COk (item, n, cx') -> decode_spec depth data cx item n cx'.

Lemma charge_charged cx n cx' : cx_ok cx -> 0 <= n -> charge cx n = COk cx' -> charged cx n cx'.
Proof.
  intros [Hl Hb Hi] Hn. unfold charge. case_if; intros; simplify_eq. bool_to_prop.
  split; [split|..]; simpl; auto. unfold saturating_add in *. lia.
Qed.

Lemma charge_returns cx n : returns (charge cx n).
Proof. unfold charge. case_if; auto with rust. Qed.

Lemma charged_trans cx n cx1 m cx2 :
  cx_ok cx -> 0 <= n -> 0 <= m -> charged cx n cx1 -> charged cx1 m cx2 -> charged cx (n + m) cx2.
Proof.
  intros [Hl ? ?] Hn Hm [_ Hl1 Hb1] [Hok Hl2 Hb2]. split; [done|congruence|].
  rewrite Hb2, Hb1. unfold saturating_add. lia.
Qed.

Lemma charged_refl cx : cx_ok cx -> charged cx 0 cx.
Proof. intros H. split; [done..|]. destruct H. unfold saturating_add. lia. Qed.

(** The children decoded by the loop over the last [n] bytes of a structure. *)
Record children_spec (depth : nat) (cx : DecodeCx) (new : list TtlvItem) (n : Z)
  (cx' : DecodeCx) : Prop := {
  cs_ok : forallb item_ok new = true;
  cs_depth : (depth_list new <= depth)%nat;
  cs_width : forallb (item_width_ok (max_items (limits cx))) new = true;
  cs_charged : charged cx n cx';
  cs_enc : exists bs, enc_list new = Ok bs /\ len bs = n;
}.

Lemma children_spec_nil depth cx : cx_ok cx -> children_spec depth cx [] 0 cx.
Proof. split; simpl; auto using charged_refl; [lia|]. by exists []. Qed.

Lemma children_spec_cons depth data cx child n cx1 new m cx2 :
  cx_ok cx -> 0 <= m -> decode_spec depth data cx child n cx1 ->
  children_spec depth cx1 new m cx2 -> children_spec depth cx (child :: new) (n + m) cx2.
Proof.
  intros Hcx Hm [Hn Hok Hd Hw Hch (b & Hb & Hbl)] [Hoks Hds Hws Hchs (bs & Hbs & Hbsl)].
  rewrite (ch_limits _ _ _ Hch) in Hws. split; simpl.
  - by rewrite Hok.
  - lia.
  - by rewrite Hw.
  - eapply charged_trans; eauto; lia.
  - exists (b ++ bs). rewrite Hb, Hbs. simpl. rewrite len_app. split; [done|lia].
Qed.

Lemma or_panic_inv {A E} (o : option A) a : or_panic (E := E) o = COk a -> o = Some a.
Proof. destruct o; simpl; congruence. Qed.

Lemma or_panic_returns {A E} (o : option A) : is_Some o -> returns (or_panic (E := E) o).
Proof. intros [a ->]. apply returns_COk. Qed.

(** One iteration reads a non-empty rest of the body and leaves a shorter one. *)
Lemma loop_rest {A} (inner : list A) offset :
  0 <= offset <= len inner ->
  exists rest, slice inner offset (len inner) = Some rest /\ len rest = len inner - offset.
Proof.
  intros H. pose proof (slice_some inner offset (len inner) ltac:(lia) ltac:(lia)) as E.
  eexists. split; [exact E|]. exact (slice_len _ _ _ _ E).
Qed.

(** The loop terminates with the given fuel, keeps the count below the limit and
    consumes the body exactly. *)
Lemma decode_children_good depth dec fuel inner offset children cx :
  good_decoder depth dec -> cx_ok cx -> 0 <= offset <= len inner ->
  len inner - offset <= Z.of_nat fuel -> len children <= max_items (limits cx) ->
  returns (decode_children dec fuel inner (len inner) offset children cx) /\
  forall cs cx', decode_children dec fuel inner (len inner) offset children cx = COk (cs, cx') ->
    exists new, cs = children ++ new /\ len cs <= max_items (limits cx) /\
      children_spec depth cx new (len inner - offset) cx'.
Proof.
  intros Hdec. revert offset children cx.
  induction fuel as [|fuel IH]; intros offset children cx Hcx Hoff Hfuel Hcnt; simpl;
    (destruct (offset <? len inner) eqn:Elt; simpl; bool_to_prop;
     [|split; [auto with rust|]; intros cs cx' E; inv_comp; exists []; rewrite app_nil_r;
       replace (len inner - offset) with 0 by lia; auto using children_spec_nil]).
  - lia.
  - case_if; [split; [auto with rust|]; discriminate|]. bool_to_prop.
    destruct (loop_rest inner offset Hoff) as (rest & -> & Hrest). simpl.
    destruct (Hdec rest cx Hcx) as [[Hp Hd] Hok].
    destruct (dec rest cx) as [[[child n] cx1]|e| |] eqn:Ed; simpl; try done.
    specialize (Hok child n cx1 eq_refl).
    pose proof (ds_consumed _ _ _ _ _ _ Hok). pose proof (ds_charged _ _ _ _ _ _ Hok) as Hch.
    destruct (IH (offset + n) (children ++ [child]) cx1) as [Hr Hs];
      [apply Hch|lia|lia|rewrite (ch_limits _ _ _ Hch), len_app, len_cons, len_nil; lia|].
    split; [done|]. intros cs cx' Eq. destruct (Hs cs cx' Eq) as (new & -> & Hlen & Hspec).
    exists (child :: new). rewrite (ch_limits _ _ _ Hch) in Hlen. rewrite <- app_assoc in *.
    split_and!; [done..|].
    replace (len inner - offset) with (n + (len inner - (offset + n))) by lia.
    eapply children_spec_cons; eauto; lia.
Qed.

(** ** The header as three big-endian fields *)

Lemma of_Z_low8 z : byte.of_Z (Z.land z 0xFF) = byte.of_Z z.
Proof.
  apply byte.unsigned_inj. rewrite !byte.unsigned_of_Z. unfold byte.wrap.
  change 0xFF with (Z.ones 8). rewrite Z.land_ones by lia. by rewrite Zmod_mod.
Qed.

Lemma header_fields tag typ n :
  header tag typ n =
  to_be_bytes 3 tag ++ [byte.of_Z (TtlvTag.TtlvType_to_u8 typ)] ++ to_be_bytes 4 n.
Proof.
  unfold header, write_header. rewrite !of_Z_low8.
  replace (to_be_bytes 3 tag)
    with [byte.of_Z (Z.shiftr tag 16); byte.of_Z (Z.shiftr tag 8); byte.of_Z tag]; [done|].
  unfold to_be_bytes. cbv [le_split rev app]. by rewrite Z.shiftr_shiftr by lia.
Qed.

Lemma header_tag_be d0 d1 d2 : header_tag d0 d1 d2 = from_be_bytes [d0; d1; d2].
Proof.
  unfold header_tag, from_be_bytes. cbv [rev app le_combine].
  rewrite Z.shiftl_0_l, Z.lor_0_r, !Z.shiftl_lor, Z.shiftl_shiftl by lia.
  change (8 + 8) with 16.
  by rewrite (Z.lor_comm (byte.unsigned d2)), (Z.lor_comm (Z.shiftl (byte.unsigned d1) 8) (Z.shiftl _ _)),
    <- Z.lor_assoc.
Qed.

Lemma header_tag_range d0 d1 d2 : 0 <= header_tag d0 d1 d2 < 2 ^ 24.
Proof. rewrite header_tag_be. apply (from_be_bytes_bound [d0; d1; d2]). Qed.

(** ** One step of the decoder *)

Lemma index_some {A} (l : list A) i : 0 <= i < len l -> exists x, index l i = Some x.
Proof.
  intros Hi. unfold index. rewrite (proj2 (Z.leb_le 0 i)) by lia.
  destruct (l !! Z.to_nat i) eqn:E; [eauto|].
  apply lookup_ge_None_1 in E. unfold len in Hi. lia.
Qed.

Lemma fixed_body_returns data n p cx : 0 <= n <= p -> returns (fixed_body data n p cx).
Proof.
  intros. unfold fixed_body. case_if; [auto with rust|]. bool_to_prop.
  apply returns_bind; [apply charge_returns|]. intros cx' _.
  rewrite slice_some by (unfold header_len in *; lia). apply returns_COk.
Qed.

Lemma fixed_body_inv data n p cx body cx' :
  cx_ok cx -> 0 <= n <= p -> fixed_body data n p cx = COk (body, cx') ->
  charged cx p cx' /\ len body = n /\ 8 + p <= len data.
Proof.
  intros Hcx Hn. unfold fixed_body. case_if; [discriminate|]. intros H. inv_comp. simplify_eq.
  bool_to_prop. apply or_panic_inv, slice_len in E1.
  split_and!; [eapply charge_charged; eauto; lia|lia|unfold header_len in *; lia].
Qed.

(** A leaf whose body was read. *)
Lemma leaf_decode_spec depth data cx0 cx tag v p cx' :
  (forall cs, v <> VStructure cs) -> item_ok (Item tag v) = true ->
  len (leaf_body v) <= MAX_TTLV_ENCODE_SIZE -> p = padded_len (len (leaf_body v)) ->
  cx_ok cx0 -> charged cx0 8 cx -> charged cx p cx' -> 8 + p <= len data ->
  decode_spec (S depth) data cx0 (Item tag v) (header_len + p) cx'.
Proof.
  intros Hv Hok Hmax -> Hcx Hc0 Hc Hlen. unfold header_len.
  pose proof (padded_len_bounds (len (leaf_body v)) (len_nonneg _)).
  pose proof (len_nonneg (leaf_body v)).
  split; [lia|done|destruct v; simpl; try lia; by destruct (Hv children)
         |destruct v; try done; by destruct (Hv children)
         |eapply charged_trans; eauto; lia|].
  rewrite enc_leaf_eq by done. unfold enc_leaf.
  rewrite (proj2 (Z.ltb_ge _ _)) by lia. eexists. split; [done|].
  rewrite !len_app, header_len_8, pad_len by lia. lia.
Qed.

(** A structure whose children were decoded. *)
Lemma structure_decode_spec depth data cx0 cx tag cs vl cx' :
  0 <= tag < 2 ^ 24 -> vl <= MAX_TTLV_ENCODE_SIZE -> 0 <= vl -> cx_ok cx0 -> charged cx0 8 cx ->
  len cs <= max_items (limits cx0) -> 8 + vl <= len data -> children_spec depth cx cs vl cx' ->
  decode_spec (S depth) data cx0 (Item tag (VStructure cs)) (header_len + vl) cx'.
Proof.
  intros Htag Hmax Hvl Hcx Hc0 Hcnt Hlen [Hok Hd Hw Hch (bs & Hbs & Hbl)].
  rewrite (ch_limits _ _ _ Hc0) in Hw. unfold header_len. split.
  - lia.
  - simpl. rewrite Hok, (proj2 (in_range_spec 0 tag (2 ^ 24))) by lia. done.
  - simpl. fold (depth_list cs). lia.
  - simpl. rewrite Hw, (proj2 (Z.leb_le _ _)) by lia. done.
  - eapply charged_trans; eauto; lia.
  - rewrite enc_structure, Hbs. cbn [result_bind]. rewrite (proj2 (Z.ltb_ge _ _)) by lia.
    eexists. split; [done|]. rewrite len_app, header_len_8. lia.
Qed.

(** A leaf that the decoder may build from [p] padded bytes. *)
Record leaf_ok (v : TtlvValue) (p : Z) : Prop := {
  lo_leaf : forall cs, v <> VStructure cs;
  lo_ok : forall tag, in_range 0 tag (2 ^ 24) = true -> item_ok (Item tag v) = true;
  lo_max : len (leaf_body v) <= MAX_TTLV_ENCODE_SIZE;
  lo_pad : p = padded_len (len (leaf_body v));
}.

(** The three byte-valued leaves. *)
Lemma bytes_leaf_ok v body vl :
  leaf_body v = body -> (forall cs, v <> VStructure cs) ->
  (forall tag, in_range 0 tag (2 ^ 24) = true -> item_ok (Item tag v) = true) ->
  len body = vl -> vl <= MAX_TTLV_VALUE_SIZE -> leaf_ok v (padded_len vl).
Proof. intros <- Hs Hok <- Hmax. by split. Qed.

(** The integer leaves: an in-range value of a fixed width. *)
Lemma int_leaf_ok v p :
  (forall cs, v <> VStructure cs) ->
  (forall tag, in_range 0 tag (2 ^ 24) = true -> item_ok (Item tag v) = true) ->
  len (leaf_body v) <= 8 -> p = padded_len (len (leaf_body v)) -> leaf_ok v p.
Proof. intros. split; auto. unfold MAX_TTLV_ENCODE_SIZE, MAX_TTLV_VALUE_SIZE. lia. Qed.

(** [c] returns, and what it returns satisfies [decode_spec]. *)
Definition good_outcome (depth : nat) (data : list byte) (cx : DecodeCx)
  (c : comp Decoded TtlvError) : Prop :=
  returns c /\ forall item n cx', c = COk (item, n, cx') -> decode_spec depth data cx item n cx'.

Lemma good_outcome_err depth data cx e : good_outcome depth data cx (CErr e).
Proof. split; [auto with rust|discriminate]. Qed.
#[local] Hint Resolve good_outcome_err : rust.

Section DecodeValue.
Variables (depth : nat) (tag vl : Z) (data : list byte) (cx0 cx : DecodeCx).
Hypothesis Hcx : cx_ok cx0.
Hypothesis Hc0 : charged cx0 8 cx.
Hypothesis Htag : 0 <= tag < 2 ^ 24.
Hypothesis Hvl : 0 <= vl <= MAX_TTLV_VALUE_SIZE.
Hypothesis Hdata : 8 <= len data.

Lemma decode_structure_good dec :
  good_decoder depth dec ->
  good_outcome (S depth) data cx0 (decode_value dec TtlvTag.Structure tag vl data cx).
Proof.
  intros Hdec. cbn [decode_value]. case_if; [auto with rust|]. bool_to_prop. unfold header_len in *.
  destruct (slice data 8 (8 + vl)) as [inner|] eqn:Es;
    [|rewrite slice_some in Es by lia; discriminate].
  pose proof (slice_len _ _ _ _ Es) as Hin. cbn [or_panic comp_bind].
  replace vl with (len inner) by lia.
  destruct (decode_children_good depth dec (Z.to_nat (len inner)) inner 0 [] cx)
    as [Hr Hs]; rewrite ?len_nil; try lia; [done|apply Hc0| |].
  { rewrite (ch_limits _ _ _ Hc0). apply Hcx. }
  split; [apply returns_bind; [done|]; intros [] _; apply returns_COk|].
  intros item n cx' Eq. inv_comp. destruct a as [cs cx2]. simplify_eq.
  destruct (Hs _ _ E0) as (new & -> & Hlen & Hsp). rewrite (ch_limits _ _ _ Hc0) in Hlen.
  eapply structure_decode_spec; eauto; unfold MAX_TTLV_ENCODE_SIZE; try lia.
  by replace (len inner) with (len inner - 0) by lia.
Qed.

Lemma decode_fixed_good n p (build : list byte -> comp TtlvValue TtlvError) :
  0 <= n <= p ->
  (forall body, returns (build body)) ->
  (forall body v, len body = n -> build body = COk v -> leaf_ok v p) ->
  good_outcome (S depth) data cx0
    (let? (body, cx') := fixed_body data n p cx in
     let? v := build body in
     COk (Item tag v, header_len + p, cx')).
Proof.
  intros Hn Hret Hbuild. split.
  - apply returns_bind; [by apply fixed_body_returns|]. intros [body cx'] _.
    apply returns_bind; auto with rust.
  - intros item n' cx' Eq. inv_comp. destruct a as [body cx2]. inv_comp. simplify_eq.
    apply fixed_body_inv in E as (Hch & Hbl & Hlen); [|apply Hc0|done].
    destruct (Hbuild body a Hbl E0) as [Hv Hok Hmax Hp].
    eapply leaf_decode_spec; eauto. apply Hok, in_range_spec. lia.
Qed.

Lemma decode_boolean_good dec :
  good_outcome (S depth) data cx0 (decode_value dec TtlvTag.Boolean tag vl data cx).
Proof.
  cbn [decode_value]. case_if; [auto with rust|]. bool_to_prop. unfold header_len in *.
  destruct (index_some data (8 + 7)) as [b Hb]; [lia|]. rewrite Hb. split.
  - apply returns_bind; [apply charge_returns|]. intros ? _. apply returns_COk.
  - intros item n cx' Eq. cbn [or_panic] in Eq. inv_comp. simplify_eq.
    apply charge_charged in E0; [|apply Hc0|lia].
    apply (leaf_decode_spec depth data cx0 cx tag (VBoolean _) 8 cx'); try done;
      try (by destruct (byte.unsigned b =? 0)).
    cbn. by rewrite (proj2 (in_range_spec _ _ _)).
Qed.

(** Every arm of the type match, given a good decoder for the children. *)
Ltac fixed_arm n p build :=
  apply (decode_fixed_good n p build); [lia | auto with rust |];
  let body := fresh "body" in let Hb := fresh "Hb" in
  intros body v Hb Eq; inv_comp;
  first [ apply int_leaf_ok; [done| |done|done] | apply (bytes_leaf_ok _ body); [done|done| |lia..] ];
  let t := fresh "t" in let Ht := fresh "Ht" in
  intros t Ht; simpl; rewrite Ht; try done; apply in_range_spec.

Lemma decode_value_good dec typ :
  good_decoder depth dec ->
  good_outcome (S depth) data cx0 (decode_value dec typ tag vl data cx).
Proof.
  intros Hdec. pose proof (padded_len_bounds vl (proj1 Hvl)) as Hpad.
  assert (padded_len 4 = 8) as H4 by done.
  destruct typ; [by apply decode_structure_good|..|by apply decode_boolean_good| | |];
    cbn [decode_value].
  - fixed_arm 4 (padded_len 4) (fun b => COk (E := TtlvError) (VInteger (as_signed 32 (from_be_bytes b)))).
    by apply (as_signed_range 32).
  - fixed_arm 8 8 (fun b => COk (E := TtlvError) (VLongInteger (as_signed 64 (from_be_bytes b)))).
    by apply (as_signed_range 64).
  - fixed_arm vl (padded_len vl) (fun b => COk (E := TtlvError) (VBigInteger b)).
  - fixed_arm 4 (padded_len 4) (fun b => COk (E := TtlvError) (VEnumeration (from_be_bytes b))).
    pose proof (from_be_bytes_bound body) as Hr. by rewrite Hb in Hr.
  - replace (let? (body, cx') := fixed_body data vl (padded_len vl) cx in _) with
      (let? (body, cx') := fixed_body data vl (padded_len vl) cx in
       let? v := (if utf8_valid body then COk (VTextString body) else CErr InvalidUtf8) in
       COk (Item tag v, header_len + padded_len vl, cx')).
    2:{ destruct (fixed_body _ _ _ _) as [[b c]| | |]; cbn; try done. by destruct (utf8_valid b). }
    apply decode_fixed_good; [lia|intros body; case_if; auto with rust|].
    intros body v Hb Eq. destruct (utf8_valid body) eqn:Eu; inv_comp.
    apply (bytes_leaf_ok _ body); try done; [|lia]. intros t Ht. simpl. by rewrite Ht.
  - fixed_arm vl (padded_len vl) (fun b => COk (E := TtlvError) (VByteString b)).
  - fixed_arm 8 8 (fun b => COk (E := TtlvError) (VDateTime (as_signed 64 (from_be_bytes b)))).
    by apply (as_signed_range 64).
Qed.
End DecodeValue.

(** With eight bytes available the header is read without a panic. *)
Lemma decode_header_step depth data cx :
  8 <= len data -> exists d0 d1 d2 d3 lenb,
    index data 0 = Some d0 /\ index data 1 = Some d1 /\ index data 2 = Some d2 /\
    index data 3 = Some d3 /\ slice data 4 8 = Some lenb /\
    decode_ttlv_inner (S depth) data cx =
    (if MAX_TTLV_VALUE_SIZE <? from_be_bytes lenb then CErr (ValueTooLarge (from_be_bytes lenb))
     else
       let? typ := ok_or (TtlvTag.TtlvType_from_u8 (byte.unsigned d3)) (UnknownType (byte.unsigned d3)) in
       let? cx1 := charge cx header_len in
       decode_value (decode_ttlv_inner depth) typ (header_tag d0 d1 d2) (from_be_bytes lenb) data cx1).
Proof.
  intros H. cbn [decode_ttlv_inner]. rewrite (proj2 (Z.ltb_ge _ _)) by lia.
  destruct (index_some data 0) as [d0 E0]; [lia|]. destruct (index_some data 1) as [d1 E1]; [lia|].
  destruct (index_some data 2) as [d2 E2]; [lia|]. destruct (index_some data 3) as [d3 E3]; [lia|].
  pose proof (slice_some data 4 8 ltac:(lia) H) as Es.
  rewrite E0, E1, E2, E3, Es. cbn [or_panic comp_bind]. do 5 eexists. split_and!; done.
Qed.

Lemma decode_inner_good depth : good_decoder depth (decode_ttlv_inner depth).
Proof.
  induction depth as [|depth IH]; intros data cx Hcx; [apply good_outcome_err|].
  change (good_outcome (S depth) data cx (decode_ttlv_inner (S depth) data cx)).
  destruct (Z.lt_ge_cases (len data) 8) as [Hs|Hl].
  { cbn [decode_ttlv_inner]. rewrite (proj2 (Z.ltb_lt _ _)) by lia. auto with rust. }
  destruct (decode_header_step depth data cx Hl)
    as (d0 & d1 & d2 & d3 & lenb & _ & _ & _ & _ & Es & ->).
  case_if; [auto with rust|]. bool_to_prop.
  destruct (TtlvTag.TtlvType_from_u8 _) as [typ|]; cbn [ok_or comp_bind]; [|auto with rust].
  destruct (charge cx header_len) as [cx1|e| |] eqn:Ec; cbn [comp_bind]; [|auto with rust|..];
    try (destruct (charge_returns cx header_len); congruence).
  apply charge_charged in Ec; [|done|unfold header_len; lia].
  apply (decode_value_good depth (header_tag d0 d1 d2) (from_be_bytes lenb) data cx cx1);
    auto using header_tag_range.
  pose proof (from_be_bytes_bound lenb). lia.
Qed.

(** Limits a Rust caller can pass: the fields are [usize]. *)
Definition limits_ok (l : TtlvLimits) : Prop :=
  0 <= max_depth l /\ 0 <= max_items l /\ 0 <= max_bytes l.

Definition cx_init (l : TtlvLimits) : DecodeCx := {| limits := l; bytes_consumed := 0 |}.

Lemma cx_init_ok l : limits_ok l -> cx_ok (cx_init l).
Proof. intros (? & ? & ?). split; simpl; unfold u64_max; lia. Qed.

Lemma decode_with_limits_returns data l : limits_ok l -> returns (decode_ttlv_with_limits data l).
Proof.
  intros Hl. unfold decode_ttlv_with_limits.
  apply returns_bind; [apply (decode_inner_good _ _ _ (cx_init_ok l Hl))|].
  intros [[? ?] ?] _. apply returns_COk.
Qed.

Lemma decode_with_limits_inv data l item n :
  limits_ok l -> decode_ttlv_with_limits data l = COk (item, n) ->
  exists cx', decode_spec (Z.to_nat (max_depth l)) data (cx_init l) item n cx'.
Proof.
  intros Hl H. unfold decode_ttlv_with_limits in H. inv_comp. destruct a as [[i k] cx'].
  inv_comp. exists cx'. by apply (decode_inner_good _ _ _ (cx_init_ok l Hl)).
Qed.

(** ** Decoding what the encoder produced *)

(** Everything the round trip needs of an item and of the limits. *)
Definition decodable (depth : nat) (cx : DecodeCx) (item : TtlvItem) (bs : list byte) : Prop :=
  (item_depth item <= depth)%nat /\ item_ok item = true /\
  item_width_ok (max_items (limits cx)) item = true /\
  bytes_consumed cx + len bs <= Z.min u64_max (max_bytes (limits cx)).

Definition cx_after (cx : DecodeCx) (n : Z) : DecodeCx :=
  {| limits := limits cx; bytes_consumed := bytes_consumed cx + n |}.

Lemma charge_after cx n :
  bytes_consumed cx + n <= Z.min u64_max (max_bytes (limits cx)) ->
  charge cx n = COk (cx_after cx n).
Proof.
  intros H. unfold charge, cx_after, saturating_add.
  rewrite Z.min_l by lia. by rewrite (proj2 (Z.ltb_ge _ _)) by lia.
Qed.

Lemma cx_after_0 cx : cx_after cx 0 = cx.
Proof. destruct cx. unfold cx_after. simpl. by rewrite Z.add_0_r. Qed.

Lemma cx_after_after cx n m : cx_after (cx_after cx n) m = cx_after cx (n + m).
Proof. unfold cx_after. simpl. by rewrite Z.add_assoc. Qed.

(** Reading back the fields of a header the encoder wrote. *)
Lemma header_read tag typ n s :
  exists t0 t1 t2, to_be_bytes 3 tag = [t0; t1; t2] /\
    let data := header tag typ n ++ s in
    index data 0 = Some t0 /\ index data 1 = Some t1 /\ index data 2 = Some t2 /\
    index data 3 = Some (byte.of_Z (TtlvTag.TtlvType_to_u8 typ)) /\
    slice data 4 8 = Some (to_be_bytes 4 n).
Proof.
  assert (exists t0 t1 t2, to_be_bytes 3 tag = [t0; t1; t2]) as (t0 & t1 & t2 & Et).
  { unfold to_be_bytes. cbv [le_split rev app]. eauto. }
  exists t0, t1, t2. split; [done|]. cbv zeta. rewrite header_fields, Et.
  split_and!; try reflexivity.
  pose proof (slice_app_mid [t0; t1; t2; byte.of_Z (TtlvTag.TtlvType_to_u8 typ)]
                (to_be_bytes 4 n) s) as Hm.
  rewrite to_be_bytes_len in Hm. exact Hm.
Qed.

Lemma type_byte_read typ :
  TtlvTag.TtlvType_from_u8 (byte.unsigned (byte.of_Z (TtlvTag.TtlvType_to_u8 typ))) = Some typ.
Proof. by destruct typ. Qed.

(** The decoder on a buffer that starts with a header the encoder wrote. *)
Lemma decode_header depth tag typ n s cx :
  0 <= tag < 2 ^ 24 -> 0 <= n <= MAX_TTLV_VALUE_SIZE ->
  bytes_consumed cx + 8 <= Z.min u64_max (max_bytes (limits cx)) ->
  decode_ttlv_inner (S depth) (header tag typ n ++ s) cx =
  decode_value (decode_ttlv_inner depth) typ tag n (header tag typ n ++ s) (cx_after cx 8).
Proof.
  intros Htag Hn Hb. destruct (header_read tag typ n s) as (t0 & t1 & t2 & Et & H0 & H1 & H2 & H3 & H4).
  set (data := header tag typ n ++ s) in *.
  assert (8 <= len data) as Hlen.
  { unfold data. rewrite len_app, header_len_8. pose proof (len_nonneg s). lia. }
  destruct (decode_header_step depth data cx Hlen)
    as (d0 & d1 & d2 & d3 & lenb & E0 & E1 & E2 & E3 & Es & ->).
  rewrite H0 in E0. rewrite H1 in E1. rewrite H2 in E2. rewrite H3 in E3. rewrite H4 in Es.
  simplify_eq.
  rewrite header_tag_be, <- Et, !from_to_be_bytes by (unfold MAX_TTLV_VALUE_SIZE in *; lia).
  rewrite (proj2 (Z.ltb_ge _ _)), type_byte_read by lia.
  cbn [ok_or comp_bind]. unfold header_len. by rewrite charge_after.
Qed.

Lemma fixed_body_read h b q s n p cx :
  len h = 8 -> len b = n -> len q = p - n ->
  bytes_consumed cx + p <= Z.min u64_max (max_bytes (limits cx)) ->
  fixed_body (h ++ (b ++ q) ++ s) n p cx = COk (b, cx_after cx p).
Proof.
  intros Hh Hb Hq Hbud. unfold fixed_body, header_len.
  pose proof (len_nonneg s). rewrite !len_app, (proj2 (Z.ltb_ge _ _)) by lia.
  rewrite charge_after by done. cbn [comp_bind].
  rewrite <- app_assoc. rewrite <- Hh, <- Hb, slice_app_mid. done.
Qed.

Lemma index_app_r {A} (h x : list A) i : 0 <= i -> index (h ++ x) (len h + i) = index x i.
Proof.
  intros Hi. unfold index. pose proof (len_nonneg h).
  rewrite !(proj2 (Z.leb_le 0 _)) by lia.
  replace (Z.to_nat (len h + i)) with (length h + Z.to_nat i)%nat by (unfold len; lia).
  by rewrite lookup_app_r, Nat.add_sub_swap, Nat.sub_diag by lia.
Qed.

Lemma decode_value_boolean dec tag (t : bool) h s cx :
  len h = 8 -> bytes_consumed cx + 8 <= Z.min u64_max (max_bytes (limits cx)) ->
  decode_value dec TtlvTag.Boolean tag 8
    (h ++ ((zeros 7 ++ [if t then Byte.x01 else Byte.x00]) ++ pad 8) ++ s) cx
  = COk (Item tag (VBoolean t), 8 + 8, cx_after cx 8).
Proof.
  intros Hh Hbud. cbn [decode_value]. unfold header_len. pose proof (len_nonneg s).
  rewrite !len_app, Hh. change (len (zeros 7)) with 7. change (len [if t then Byte.x01 else Byte.x00]) with 1.
  change (len (pad 8)) with 0. rewrite (proj2 (Z.ltb_ge _ _)), charge_after by lia.
  cbn [comp_bind]. replace (8 + 7) with (len h + 7) by lia. rewrite index_app_r by lia. by destruct t.
Qed.

(** What the type match makes of the body of a leaf. *)
Lemma decode_value_leaf dec tag v h s cx :
  (forall cs, v <> VStructure cs) -> item_ok (Item tag v) = true -> len h = 8 ->
  let b := leaf_body v in
  let p := padded_len (len b) in
  bytes_consumed cx + p <= Z.min u64_max (max_bytes (limits cx)) ->
  decode_value dec (ttlv_type v) tag (len b) (h ++ (b ++ pad (len b)) ++ s) cx
  = COk (Item tag v, 8 + p, cx_after cx p).
Proof.
  intros Hv Hok Hh b p Hbud. cbn in Hok. apply andb_true_iff in Hok as [Htag Hval].
  assert (fixed_body (h ++ (b ++ pad (len b)) ++ s) (len b) p cx = COk (b, cx_after cx p)) as Hbody.
  { apply fixed_body_read; [done..|apply pad_len, len_nonneg|done]. }
  destruct v as [cs|z|z|l|z|t|l|l|z]; [by destruct (Hv cs)|..];
    cbn [ttlv_type decode_value leaf_body] in *; unfold p, b in *;
    rewrite ?to_be_bytes_len in *; change (Z.of_nat 4) with 4 in *; change (Z.of_nat 8) with 8 in *;
    change (padded_len 8) with 8 in *; try rewrite Hbody; cbn [comp_bind].
  - rewrite (signed_from_to_be_bytes 4 32); [done..|by apply in_range_spec].
  - rewrite (signed_from_to_be_bytes 8 64); [done..|by apply in_range_spec].
  - done.
  - rewrite from_to_be_bytes; [done|by apply in_range_spec].
  - replace (len (zeros 7 ++ [if t then Byte.x01 else Byte.x00])) with 8 in * by (by destruct t).
    by apply (decode_value_boolean dec).
  - by rewrite Hval.
  - done.
  - rewrite (signed_from_to_be_bytes 8 64); [done..|by apply in_range_spec].
Qed.

(** Leaves survive the round trip. *)
Lemma decode_leaf depth tag v bs s cx :
  (forall cs, v <> VStructure cs) -> enc_leaf tag v = Ok bs -> item_ok (Item tag v) = true ->
  bytes_consumed cx + len bs <= Z.min u64_max (max_bytes (limits cx)) ->
  decode_ttlv_inner (S depth) (bs ++ s) cx = COk (Item tag v, len bs, cx_after cx (len bs)).
Proof.
  intros Hv Henc Hok Hbud. unfold enc_leaf in Henc. case_if; [discriminate|]. bool_to_prop.
  apply (inj Ok) in Henc as <-.
  pose proof (len_nonneg (leaf_body v)) as Hnn. pose proof (padded_len_bounds _ Hnn) as Hpad.
  assert (in_range 0 tag (2 ^ 24) = true) as Htag by (cbn in Hok; apply andb_true_iff in Hok; tauto).
  apply in_range_spec in Htag. unfold MAX_TTLV_ENCODE_SIZE in *.
  assert (len (header tag (ttlv_type v) (len (leaf_body v)) ++ leaf_body v ++ pad (len (leaf_body v)))
    = 8 + padded_len (len (leaf_body v))) as Hlen by (rewrite !len_app, pad_len, header_len_8; lia).
  rewrite Hlen in Hbud |- *. rewrite <- app_assoc, decode_header by lia.
  rewrite decode_value_leaf; auto using header_len_8; [by rewrite cx_after_after|simpl; lia].
Qed.

Lemma enc_len_ge_8 item bs : enc item = Ok bs -> 8 <= len bs.
Proof.
  destruct item as [tag v]. assert (forall h b : list byte, len h = 8 -> 8 <= len (h ++ b)) as Hh.
  { intros h b Hh. rewrite len_app. pose proof (len_nonneg b). lia. }
  destruct v as [cs|z|z|l|z|t|l|l|z]; [rewrite enc_structure; destruct (enc_list cs); cbn [result_bind]|..];
    try done; unfold enc, enc_leaf; case_if; intros Hx; try done; apply (inj Ok) in Hx as <-; apply Hh, header_len_8.
Qed.

(** The loop over the children reads back a concatenation of encodings. *)
Lemma decode_children_enc depth cs body :
  Forall (fun c => forall bs s cx, enc c = Ok bs -> decodable depth cx c bs ->
    decode_ttlv_inner depth (bs ++ s) cx = COk (c, len bs, cx_after cx (len bs))) cs ->
  enc_list cs = Ok body -> forallb item_ok cs = true -> (depth_list cs <= depth)%nat ->
  forall pre done fuel cx,
  forallb (item_width_ok (max_items (limits cx))) cs = true ->
  len done + len cs <= max_items (limits cx) ->
  bytes_consumed cx + len body <= Z.min u64_max (max_bytes (limits cx)) ->
  len body <= Z.of_nat fuel ->
  decode_children (decode_ttlv_inner depth) fuel (pre ++ body) (len (pre ++ body)) (len pre) done cx
  = COk (done ++ cs, cx_after cx (len body)).
Proof.
  intros Hcs. revert body. induction Hcs as [|c cs Hc _ IH];
    intros body Henc Hok Hd pre dn fuel cx Hw Hcnt Hbud Hfuel; cbn in Henc.
  - inv_comp. rewrite app_nil_r, len_nil, cx_after_0, app_nil_r.
    destruct fuel; simpl; by rewrite (proj2 (Z.ltb_ge _ _)) by lia.
  - destruct (enc c) as [b|] eqn:Eb; [|discriminate]. cbn in Henc.
    destruct (enc_list cs) as [r|] eqn:Er; [|discriminate]. cbn in Henc. inv_comp.
    cbn in Hok, Hw. apply andb_true_iff in Hok as [Hok1 Hok2], Hw as [Hw1 Hw2].
    cbn in Hd. fold (depth_list cs) in Hd. rewrite !len_app, len_cons in *.
    pose proof (enc_len_ge_8 c b Eb). pose proof (len_nonneg r). pose proof (len_nonneg cs).
    destruct fuel as [|fuel]; [lia|]. cbn [decode_children].
    rewrite (proj2 (Z.ltb_lt _ _)), (proj2 (Z.leb_gt _ _)) by lia. cbn [negb].
    pose proof (slice_app_mid pre (b ++ r) []) as Hsl. rewrite app_nil_r, <- len_app in Hsl.
    rewrite Hsl. cbn [or_panic comp_bind].
    rewrite Hc; [|done|split_and!; [lia|done..|lia]]. cbn [comp_bind].
    rewrite app_assoc, <- (cx_after_after cx (len b)).
    replace (len pre + (len b + len r)) with (len ((pre ++ b) ++ r)) by (rewrite !len_app; lia).
    rewrite <- (len_app pre b).
    rewrite (IH r); try done; simpl; rewrite ?len_app, ?len_cons, ?len_nil; try lia.
    by rewrite <- app_assoc.
Qed.

(** ** Round trips *)

Lemma decode_enc depth item bs s cx :
  enc item = Ok bs -> decodable depth cx item bs ->
  decode_ttlv_inner depth (bs ++ s) cx = COk (item, len bs, cx_after cx (len bs)).
Proof.
  revert depth bs s cx.
  induction item as [tag cs IH | tag v Hv] using TtlvItem_nested_ind;
    intros depth bs s cx Henc (Hd & Hok & Hw & Hbud).
  - rewrite enc_structure in Henc. destruct (enc_list cs) as [body|] eqn:Eb; [|discriminate].
    cbn [result_bind] in Henc. case_if; [discriminate|]. apply (inj Ok) in Henc as <-. bool_to_prop.
    cbn in Hd, Hok, Hw. fold (depth_list cs) in Hd. destruct depth as [|depth]; [lia|].
    apply andb_true_iff in Hok as [Htag Hok], Hw as [Hcnt Hw]. apply in_range_spec in Htag.
    apply Z.leb_le in Hcnt. pose proof (len_nonneg body). unfold MAX_TTLV_ENCODE_SIZE in *.
    rewrite !len_app, header_len_8 in *. rewrite <- app_assoc, decode_header by lia.
    cbn [decode_value]. unfold header_len. rewrite !len_app, header_len_8.
    pose proof (len_nonneg s). rewrite (proj2 (Z.ltb_ge _ _)) by lia.
    rewrite <- (header_len_8 tag TtlvTag.Structure (len body)) at 1 2. rewrite slice_app_mid.
    cbn [or_panic comp_bind].
    rewrite (decode_children_enc depth cs body) with (pre := []) (done := []);
      try done; simpl; try lia.
    + by rewrite cx_after_after.
    + eapply Forall_impl; [exact IH|]. intros c Hc bs' s' cx' He Hdec. by apply Hc.
  - rewrite enc_leaf_eq in Henc by done. destruct depth as [|depth].
    + exfalso. destruct v; simpl in Hd; lia.
    + by apply decode_leaf.
Qed.

Lemma enc_error item e : enc item = Err e -> exists n, e = ValueTooLarge n /\ MAX_TTLV_ENCODE_SIZE < n.
Proof.
  revert e. induction item as [tag cs IH | tag v Hv] using TtlvItem_nested_ind; intros e H.
  - rewrite enc_structure in H. destruct (enc_list cs) as [b|e'] eqn:Eb; cbn [result_bind] in H.
    + case_if; [|discriminate]. bool_to_prop. simplify_eq. eauto.
    + simplify_eq. revert Eb. induction IH as [|c cs Hc _ IH]; [discriminate|]. cbn.
      destruct (enc c) as [b|] eqn:Ec; cbn; intros; simplify_eq; [|by apply Hc].
      destruct (enc_list cs); cbn in *; simplify_eq. by apply IH.
  - rewrite enc_leaf_eq in H by done. unfold enc_leaf in H. case_if; [|discriminate].
    bool_to_prop. simplify_eq. eauto.
Qed.

Lemma encode_ttlv_enc item :
  encode_ttlv item = match enc item with Ok bs => COk bs | Err e => CErr e end.
Proof. unfold encode_ttlv. rewrite encode_ttlv_into_enc. by destruct (enc item). Qed.

Lemma encode_ttlv_Ok item bs : encode_ttlv item = COk bs <-> enc item = Ok bs.
Proof. rewrite encode_ttlv_enc. destruct (enc item); naive_solver. Qed.

Lemma decode_with_limits_enc item bs s l :
  enc item = Ok bs -> item_ok item = true -> Z.of_nat (item_depth item) <= max_depth l ->
  item_width_ok (max_items l) item = true -> len bs <= Z.min u64_max (max_bytes l) ->
  decode_ttlv_with_limits (bs ++ s) l = COk (item, len bs).
Proof.
  intros Henc Hok Hd Hw Hb. unfold decode_ttlv_with_limits.
  rewrite (decode_enc _ item bs s); [done|done|]. split_and!; simpl; auto; lia.
Qed.

(** ** The properties of the codec *)

(** C17: the single-pass encoder, which writes a zero length for every structure
    and back-patches it after the children, never panics and appends exactly the
    bytes of the reference encoder [enc], which encodes each nesting level into a
    buffer of its own; it fails exactly when the reference fails, with the same
    error. *)
Theorem encoder_is_reference_encoder :
  forall item out, encode_ttlv_into item out =
    match enc item with Ok bs => COk (out ++ bs) | Err e => CErr e end.
Proof. exact encode_ttlv_into_enc. Qed.

(** The only error of the encoder is [ValueTooLarge n] for an [n] above the
    1 MiB limit. *)
Theorem encoder_errors_only_oversize item e :
  encode_ttlv item = CErr e -> exists n, e = ValueTooLarge n /\ MAX_TTLV_ENCODE_SIZE < n.
Proof.
  rewrite encode_ttlv_enc. destruct (enc item) as [|e'] eqn:E; [discriminate|].
  intros H. simplify_eq. by eapply enc_error.
Qed.

Lemma encoder_errors_only_oversize_witness :
  exists item n, encode_ttlv item = CErr (ValueTooLarge n) /\ MAX_TTLV_ENCODE_SIZE < n.
Proof.
  exists (Item 1 (VByteString (zeros 1048577))), 1048577.
  assert (encode_ttlv (Item 1 (VByteString (zeros 1048577))) = CErr (ValueTooLarge 1048577)) as H.
  { unfold encode_ttlv. cbn [encode_ttlv_into]. unfold encode_bytes_arm.
    rewrite zeros_len by lia. reflexivity. }
  split; [exact H|].
  destruct (encoder_errors_only_oversize _ _ H) as (n & En & Hn).
  injection En as <-. exact Hn.
Defined.

(** C35: the decoder is safe on arbitrary network input: for every byte string and
    every limits it returns an item or an error; it never reads out of range and
    its loops end. *)
Theorem decoder_never_panics data l :
  limits_ok l -> returns (decode_ttlv_with_limits data l).
Proof. apply decode_with_limits_returns. Qed.

Lemma decoder_never_panics_witness :
  limits_ok TtlvLimits_default /\
  returns (decode_ttlv_with_limits (map byte.of_Z [0x42; 0; 0x78; 1; 0; 0; 0; 9; 1; 2; 3; 4; 5; 6; 7; 8; 9])
             TtlvLimits_default).
Proof.
  assert (limits_ok TtlvLimits_default) as H
    by (unfold limits_ok, TtlvLimits_default; simpl; unfold MAX_TTLV_DEPTH, MAX_TTLV_ITEMS, usize_max; lia).
  split; [exact H | exact (decoder_never_panics _ _ H)].
Defined.

(** A successful decode honours the caller's resource limits and delivers a
    well-formed item: it consumes between 8 and [len data] bytes, the item is
    nested at most [max_depth] deep, every structure has at most [max_items]
    children, the bytes consumed do not exceed [max_bytes], every value is in the
    range of its type and every text is valid UTF-8. *)
Theorem decoder_respects_limits data l item n :
  limits_ok l -> decode_ttlv_with_limits data l = COk (item, n) ->
  8 <= n <= len data /\ Z.of_nat (item_depth item) <= max_depth l /\
  item_width_ok (max_items l) item = true /\ Z.min n u64_max <= max_bytes l /\
  item_ok item = true.
Proof.
  intros Hl H. destruct (decode_with_limits_inv _ _ _ _ Hl H) as (cx' & [Hn Hok Hd Hw Hch _]).
  destruct Hl as (Hl1 & _). split_and!; try done; try lia.
  destruct Hch as [[_ Hb _] Hlim Hbytes]. rewrite Hlim, Hbytes in Hb. exact Hb.
Qed.

(** An item of every type, used by the witnesses. *)
Definition sample_item : TtlvItem :=
  Item 0x420078 (VStructure
    [Item 0x42000D (VStructure [Item 1 (VInteger (-5)); Item 2 (VLongInteger (-2 ^ 40))]);
     Item 3 (VTextString (as_bytes "AES key")); Item 4 (VByteString [Byte.xff; Byte.x00]);
     Item 5 (VBigInteger [Byte.x01]); Item 6 (VEnumeration 3); Item 7 (VBoolean true);
     Item 8 (VDateTime 1700000000)]).

Definition sample_bytes : list byte :=
  match encode_ttlv sample_item with COk bs => bs | _ => [] end.

Lemma default_limits_ok : limits_ok TtlvLimits_default.
Proof. repeat split; discriminate. Qed.

Lemma decoder_respects_limits_witness :
  decode_ttlv_with_limits sample_bytes TtlvLimits_default = COk (sample_item, 144) /\
  8 <= 144 <= len sample_bytes.
Proof.
  assert (decode_ttlv_with_limits sample_bytes TtlvLimits_default = COk (sample_item, 144)) as H
    by (vm_compute; reflexivity).
  split; [exact H|].
  exact (proj1 (decoder_respects_limits _ _ _ _ default_limits_ok H)).
Defined.

(** C5: encode then decode is the identity: whatever follows in the buffer, the
    decoder returns the encoded item and consumes exactly its bytes, provided the
    item is well formed and within the decoder's limits (depth 32, 10000 children
    per structure). *)
Theorem ttlv_roundtrip item bs s :
  item_ok item = true -> Z.of_nat (item_depth item) <= MAX_TTLV_DEPTH ->
  item_width_ok MAX_TTLV_ITEMS item = true -> len bs <= usize_max ->
  encode_ttlv item = COk bs -> decode_ttlv (bs ++ s) = COk (item, len bs).
Proof.
  intros Hok Hd Hw Hl Henc. apply encode_ttlv_Ok in Henc.
  by apply (decode_with_limits_enc item bs s TtlvLimits_default).
Qed.

Lemma ttlv_roundtrip_witness :
  decode_ttlv (sample_bytes ++ [Byte.x2a]) = COk (sample_item, len sample_bytes).
Proof.
  apply (ttlv_roundtrip sample_item sample_bytes [Byte.x2a]);
    first [reflexivity | vm_compute; reflexivity | vm_compute; discriminate].
Defined.

(** Decode then encode is canonical: an item the decoder accepted re-encodes
    without an error into exactly as many bytes as were consumed, and those bytes
    decode to the same item under the same limits. *)
Theorem ttlv_reencode data l item n :
  limits_ok l -> len data <= usize_max -> decode_ttlv_with_limits data l = COk (item, n) ->
  exists bs, encode_ttlv item = COk bs /\ len bs = n /\
    decode_ttlv_with_limits bs l = COk (item, n).
Proof.
  intros Hl Hdata H. destruct (decode_with_limits_inv _ _ _ _ Hl H)
    as (cx' & [Hn Hok Hd Hw Hch (bs & Hbs & Hlen)]).
  destruct Hch as [[_ Hb _] Hlim Hbytes]. rewrite Hlim, Hbytes in Hb.
  unfold saturating_add in Hb. simpl in Hb. unfold usize_max, u64_max in *.
  exists bs. split_and!; [by apply encode_ttlv_Ok|done|].
  rewrite <- (app_nil_r bs), <- Hlen. destruct Hl as (? & _).
  apply decode_with_limits_enc; auto; unfold u64_max; lia.
Qed.

Lemma ttlv_reencode_witness :
  exists bs, encode_ttlv sample_item = COk bs /\ len bs = 144 /\
    decode_ttlv_with_limits bs TtlvLimits_default = COk (sample_item, 144).
Proof.
  apply (ttlv_reencode (sample_bytes ++ [Byte.x2a]) TtlvLimits_default sample_item 144);
    first [exact default_limits_ok | vm_compute; reflexivity | vm_compute; discriminate].
Defined.

(** A chain of [n] structures around an integer. *)
Fixpoint nested (n : nat) : TtlvItem :=
  match n with
  | O => Item 1 (VInteger 0)
  | S k => Item 1 (VStructure [nested k])
  end.

(** The size limit of the encoder does not make its output decodable: a
    well-formed item nested 33 deep encodes, and the decoder with the default
    limits rejects the encoding.  The comment on [MAX_TTLV_ENCODE_SIZE] claims
    encoded messages are always decodable by the same stack. *)
Theorem encoded_not_always_decodable :
  exists item bs, item_ok item = true /\ encode_ttlv item = COk bs /\
    decode_ttlv bs = CErr DepthExceeded.
Proof.
  exists (nested 32), (match encode_ttlv (nested 32) with COk bs => bs | _ => [] end).
  repeat split; vm_compute; reflexivity.
Qed.

(** The length field of a fixed-width item is not checked: an Integer with any
    declared length up to 1 MiB decodes to its four value bytes and consumes 16
    bytes; the error [InvalidLength] is never raised for it. *)
Theorem integer_length_field_ignored tag z n s :
  0 <= tag < 2 ^ 24 -> in_i32 z -> 0 <= n <= MAX_TTLV_VALUE_SIZE ->
  decode_ttlv (header tag TtlvTag.Integer n ++ (to_be_bytes 4 z ++ zeros 4) ++ s)
  = COk (Item tag (VInteger z), 16).
Proof.
  intros Htag Hz Hn. unfold decode_ttlv, decode_ttlv_with_limits. simpl max_depth.
  change (Z.to_nat MAX_TTLV_DEPTH) with 32%nat.
  rewrite decode_header by (simpl; unfold u64_max, usize_max; lia). cbn [decode_value].
  change (padded_len 4) with 8.
  rewrite fixed_body_read; cbn [comp_bind];
    [|apply header_len_8|apply to_be_bytes_len|done|simpl; unfold u64_max, usize_max; lia].
  by rewrite (signed_from_to_be_bytes 4 32).
Qed.

Lemma integer_length_field_ignored_witness :
  decode_ttlv (header 1 TtlvTag.Integer 999 ++ (to_be_bytes 4 7 ++ zeros 4) ++ [])
  = COk (Item 1 (VInteger 7), 16).
Proof.
  apply (integer_length_field_ignored 1 7 999 []);
    unfold in_i32, MAX_TTLV_VALUE_SIZE; lia.
Defined.
