(* ===== verification/KmipStore.v ===== *)
(** * The KMIP object store ([craton-hsm-kmip/src/operations.rs], lines 20-850)

    Objects and their lifecycle states, the [KmipKeyStore] trait as the class
    [KmipKeyStore], and the in-memory implementation [InMemoryKeyStore] with its
    secondary index by object type.  Operations pass the store explicitly.  The
    reading of the wall clock that [now_epoch] takes is the argument [raw]; the
    process-wide floor [MONO_FLOOR] lives in the store's record.  A [HashMap] or
    [DashMap] is a [gmap]; the order in which it is iterated is unspecified, and
    is the class [MapIter] of [RustStd]. *)

From coqutil Require Import Byte.
From stdpp Require Import prelude gmap strings list pretty.
From Stdlib Require Import ZArith Lia.
From S2P Require Import Prelude RustStd KmipTypes.
Import ObjectType Reason.
Local Open Scope Z_scope.
Local Open Scope string_scope.

(** ** Data *)

Module Attr.
Inductive KmipAttributeValue : Type :=
| Text (s : string)
| Integer (v : Z)
| LongInteger (v : Z)
| Enum (v : Z)
| Bytes (b : list byte)
| Boolean (b : bool).

#[global] Instance KmipAttributeValue_eq_dec : EqDecision KmipAttributeValue.
Proof. solve_decision. Defined.
End Attr.
Import Attr.

Inductive KmipObjectState : Set :=
| PreActive
| Active
| Deactivated
| Compromised
| Destroyed.

#[global] Instance KmipObjectState_eq_dec : EqDecision KmipObjectState.
Proof. solve_decision. Defined.

#[global] Instance KmipObjectType_countable : Countable KmipObjectType.
Proof.
  refine (inj_countable KmipObjectType_to_u32 KmipObjectType_from_u32 _).
  intros x. by destruct x.
Defined.

Definition KmipObjectState_fmt (s : KmipObjectState) : string :=
  match s with
  | PreActive => "PreActive"
  | Active => "Active"
  | Deactivated => "Deactivated"
  | Compromised => "Compromised"
  | Destroyed => "Destroyed"
  end.

Record KmipAttribute : Type := mkAttribute {
  attr_name : string;
  attr_value : KmipAttributeValue;
}.

Record KmipStoredObject : Type := mkObject {
  obj_id : string;
  obj_object_type : KmipObjectType;
  obj_state : KmipObjectState;
  obj_key_material : option (list byte);
  obj_attributes : gmap string KmipAttributeValue;
  obj_created : Z;
  obj_modified : Z;
}.

(** Field assignments. *)
Definition with_state (st : KmipObjectState) (o : KmipStoredObject) : KmipStoredObject :=
  mkObject (obj_id o) (obj_object_type o) st (obj_key_material o) (obj_attributes o)
    (obj_created o) (obj_modified o).
Definition with_key_material (km : option (list byte)) (o : KmipStoredObject) : KmipStoredObject :=
  mkObject (obj_id o) (obj_object_type o) (obj_state o) km (obj_attributes o)
    (obj_created o) (obj_modified o).
Definition with_attributes (a : gmap string KmipAttributeValue) (o : KmipStoredObject)
    : KmipStoredObject :=
  mkObject (obj_id o) (obj_object_type o) (obj_state o) (obj_key_material o) a
    (obj_created o) (obj_modified o).
Definition with_modified (t : Z) (o : KmipStoredObject) : KmipStoredObject :=
  mkObject (obj_id o) (obj_object_type o) (obj_state o) (obj_key_material o) (obj_attributes o)
    (obj_created o) t.

(** ** Lifecycle table and immutable attributes *)

Definition allowed_transitions (from to : KmipObjectState) : bool :=
  match from, to with
  | PreActive, Active => true
  | Active, Deactivated => true
  | PreActive, Destroyed => true
  | Deactivated, Destroyed => true
  | _, _ => false
  end.

Definition IMMUTABLE_ATTRIBUTES : list string :=
  ["owner"; "Cryptographic Algorithm"; "Cryptographic Length"; "Object Type"; "Key Material"].

Definition is_immutable_attribute (name : string) : bool :=
  let lname := to_ascii_lowercase name in
  existsb (fun i => String.eqb (to_ascii_lowercase i) lname) IMMUTABLE_ATTRIBUTES.

Definition SYNTHETIC_NAMES : list string :=
  ["State"; "Object Type"; "Initial Date"; "Last Change Date"].

Definition USAGE_COUNTER : string := "Cryptographic Usage Limits Counter".

(** ** The store *)

Record InMemoryKeyStore : Type := mkStore {
  objects : gmap string KmipStoredObject;
  type_index : gmap KmipObjectType (gmap string unit);
  counter : Z;
  mono_floor : Z;
}.

(** [InMemoryKeyStore::new()], in a process whose [MONO_FLOOR] is [floor]. *)
Definition InMemoryKeyStore_new (floor : Z) : InMemoryKeyStore := mkStore ∅ ∅ 1 floor.

Definition set_objects (m : gmap string KmipStoredObject) (s : InMemoryKeyStore) :=
  mkStore m (type_index s) (counter s) (mono_floor s).

Definition index_insert (ot : KmipObjectType) (id : string) (s : InMemoryKeyStore)
    : InMemoryKeyStore :=
  let ids := default ∅ (type_index s !! ot) in
  mkStore (objects s) (<[ot := <[id := tt]> ids]> (type_index s)) (counter s) (mono_floor s).

Definition index_remove (ot : KmipObjectType) (id : string) (s : InMemoryKeyStore)
    : InMemoryKeyStore :=
  match type_index s !! ot with
  | Some ids => mkStore (objects s) (<[ot := delete id ids]> (type_index s)) (counter s) (mono_floor s)
  | None => s
  end.

(** [raw] is the clock reading in seconds since the epoch (0 before it). *)
Definition now_epoch (raw : Z) (s : InMemoryKeyStore) : Z * InMemoryKeyStore :=
  let candidate := Z.max raw (mono_floor s) in
  (candidate, mkStore (objects s) (type_index s) (counter s) candidate).

(** The identifier [create] gives to sequence number [seq]. *)
Definition gen_id (seq : Z) : string := "kmip-" +:+ fmt_hex 8 seq.

Definition create (raw : Z) (ot : KmipObjectType) (km : list byte)
    (attrs : gmap string KmipAttributeValue) (s : InMemoryKeyStore)
    : string * InMemoryKeyStore :=
  let seq := counter s in
  let s := mkStore (objects s) (type_index s) ((seq + 1) mod 2 ^ 64) (mono_floor s) in
  let id := gen_id seq in
  let '(ts, s) := now_epoch raw s in
  let obj := mkObject id ot PreActive (Some km) attrs ts ts in
  let s := index_insert ot id s in
  (id, set_objects (<[id := obj]> (objects s)) s).

Definition get (id : string) (s : InMemoryKeyStore) : option KmipStoredObject := objects s !! id.

(** Write [f entry] back through the guard [get_mut] returned, with the
    modification time refreshed. *)
Definition touch (raw : Z) (id : string) (o : KmipStoredObject) (s : InMemoryKeyStore)
    : InMemoryKeyStore :=
  let '(t, s) := now_epoch raw s in
  set_objects (<[id := with_modified t o]> (objects s)) s.

Definition activate (raw : Z) (id : string) (s : InMemoryKeyStore)
    : result unit KmipResultReason * InMemoryKeyStore :=
  match objects s !! id with
  | None => (Err ObjectNotFound, s)
  | Some entry =>
      if bool_decide (obj_state entry = Destroyed) then (Err ObjectNotFound, s)
      else if negb (allowed_transitions (obj_state entry) Active) then (Err PermissionDenied, s)
      else (Ok tt, touch raw id (with_state Active entry) s)
  end.

Definition revoke (raw : Z) (id : string) (s : InMemoryKeyStore)
    : result unit KmipResultReason * InMemoryKeyStore :=
  match objects s !! id with
  | None => (Err ObjectNotFound, s)
  | Some entry =>
      if bool_decide (obj_state entry = Destroyed) then (Err ObjectNotFound, s)
      else if negb (allowed_transitions (obj_state entry) Deactivated) then (Err PermissionDenied, s)
      else (Ok tt, touch raw id (with_state Deactivated entry) s)
  end.

Definition destroy (raw : Z) (id : string) (s : InMemoryKeyStore)
    : result unit KmipResultReason * InMemoryKeyStore :=
  match objects s !! id with
  | None => (Err ObjectNotFound, s)
  | Some entry =>
      if bool_decide (obj_state entry = Destroyed) then (Err ObjectNotFound, s)
      else if negb (allowed_transitions (obj_state entry) Destroyed) then (Err PermissionDenied, s)
      else
        let s := index_remove (obj_object_type entry) id s in
        (Ok tt, touch raw id (with_key_material None (with_state Destroyed entry)) s)
  end.

Section Iterating.
Context `{MapIter}.

(** The filter of [locate]; [skip_type] on the path through the index. *)
Definition matches_attributes (skip_type : bool) (attributes : gmap string KmipAttributeValue)
    (o : KmipStoredObject) : bool :=
  forallb (fun '(k, v) =>
    if skip_type && String.eqb k "Object Type" then true
    else bool_decide (obj_attributes o !! k = Some v)) (iter attributes).

Definition locate_indexed (attributes : gmap string KmipAttributeValue)
    (type_ids : gmap string unit) (s : InMemoryKeyStore) : list string :=
  filter (fun id => Is_true
    match objects s !! id with
    | Some o =>
        if bool_decide (obj_state o = Destroyed) then false
        else matches_attributes true attributes o
    | None => false
    end) (keys type_ids).

Definition locate_scan (attributes : gmap string KmipAttributeValue) (s : InMemoryKeyStore)
    : list string :=
  (filter (fun '(_, o) => Is_true
    (if bool_decide (obj_state o = Destroyed) then false
     else matches_attributes false attributes o)) (iter (objects s))).*1.

Definition locate (attributes : gmap string KmipAttributeValue) (s : InMemoryKeyStore)
    : list string :=
  match attributes !! "Object Type" with
  | Some (Enum ot_val) =>
      match KmipObjectType_from_u32 ot_val with
      | Some ot =>
          match type_index s !! ot with
          | Some type_ids => locate_indexed attributes type_ids s
          | None => []
          end
      | None => locate_scan attributes s
      end
  | _ => locate_scan attributes s
  end.

Definition is_synthetic (name : string) : bool :=
  existsb (fun s => String.eqb (to_ascii_lowercase s) (to_ascii_lowercase name)) SYNTHETIC_NAMES.

Definition object_attributes (o : KmipStoredObject) : list KmipAttribute :=
  map (fun '(n, v) => mkAttribute n v)
    (filter (fun '(n, _) => Is_true (negb (is_synthetic n))) (iter (obj_attributes o)))
  ++ [ mkAttribute "State" (Text (KmipObjectState_fmt (obj_state o)));
       mkAttribute "Object Type" (Enum (KmipObjectType_to_u32 (obj_object_type o)));
       mkAttribute "Initial Date" (LongInteger (as_signed 64 (obj_created o)));
       mkAttribute "Last Change Date" (LongInteger (as_signed 64 (obj_modified o))) ].

Definition get_attributes (id : string) (s : InMemoryKeyStore) : option (list KmipAttribute) :=
  object_attributes <$> objects s !! id.

Definition register (raw : Z) (id : string) (ot : KmipObjectType) (km : option (list byte))
    (attrs : gmap string KmipAttributeValue) (s : InMemoryKeyStore)
    : result string KmipResultReason * InMemoryKeyStore :=
  let '(ts, s) := now_epoch raw s in
  match objects s !! id with
  | None =>
      let obj := mkObject id ot PreActive km attrs ts ts in
      (Ok id, index_insert ot id (set_objects (<[id := obj]> (objects s)) s))
  | Some _ => (Err ObjectNotFound, s)
  end.

Definition insert_all (new_attrs attrs : gmap string KmipAttributeValue)
    : gmap string KmipAttributeValue :=
  foldl (fun m '(k, v) => <[k := v]> m) attrs (iter new_attrs).

(** A name [add_attributes] refuses: blank, with surrounding white space, or
    with white space other than the space character. *)
Definition malformed_name (k : string) : bool :=
  let cs := chars k in
  bool_decide (trim cs = []) || negb (bool_decide (trim cs = cs))
  || existsb (fun c => is_whitespace c && negb (c =? 32)%Z) cs.

Definition has_name_ci (attrs : gmap string KmipAttributeValue) (k : string) : bool :=
  existsb (fun existing => String.eqb (to_ascii_lowercase existing) (to_ascii_lowercase k))
    (keys attrs).

Definition add_attributes (raw : Z) (id : string) (new_attrs : gmap string KmipAttributeValue)
    (s : InMemoryKeyStore) : result unit KmipResultReason * InMemoryKeyStore :=
  match objects s !! id with
  | None => (Err ObjectNotFound, s)
  | Some entry =>
      if existsb is_immutable_attribute (keys new_attrs) then (Err PermissionDenied, s)
      else if existsb (fun k => malformed_name k || has_name_ci (obj_attributes entry) k)
                (keys new_attrs)
      then (Err InvalidField, s)
      else (Ok tt, touch raw id (with_attributes (insert_all new_attrs (obj_attributes entry)) entry) s)
  end.

Definition modify_attributes (raw : Z) (id : string) (attrs : gmap string KmipAttributeValue)
    (s : InMemoryKeyStore) : result unit KmipResultReason * InMemoryKeyStore :=
  match objects s !! id with
  | None => (Err ObjectNotFound, s)
  | Some entry =>
      if existsb is_immutable_attribute (keys attrs) then (Err PermissionDenied, s)
      else (Ok tt, touch raw id (with_attributes (insert_all attrs (obj_attributes entry)) entry) s)
  end.

Definition delete_attributes (raw : Z) (id : string) (names : list string)
    (s : InMemoryKeyStore) : result unit KmipResultReason * InMemoryKeyStore :=
  match objects s !! id with
  | None => (Err ObjectNotFound, s)
  | Some entry =>
      if existsb is_immutable_attribute names then (Err PermissionDenied, s)
      else
        let attrs := foldl (fun m n => delete n m) (obj_attributes entry) names in
        (Ok tt, touch raw id (with_attributes attrs entry) s)
  end.

Definition decrement_usage_counter (raw : Z) (id : string) (s : InMemoryKeyStore)
    : option Z * InMemoryKeyStore :=
  match objects s !! id with
  | None => (None, s)
  | Some entry =>
      match (match obj_attributes entry !! USAGE_COUNTER with
             | Some (LongInteger v) => Some v
             | Some (Integer v) => Some v
             | _ => None
             end) with
      | None => (None, s)
      | Some cur =>
          let next := Z.max (i64_saturating_sub cur 1) 0 in
          (Some next,
           touch raw id
             (with_attributes (<[USAGE_COUNTER := LongInteger next]> (obj_attributes entry)) entry) s)
      end
  end.

Definition with_object_acl_probe (id : string) (f : KmipStoredObject -> bool)
    (s : InMemoryKeyStore) : option bool :=
  f <$> objects s !! id.

End Iterating.
