(* ===== verification/KmipStoreProofs.v ===== *)
(** * Correctness of the KMIP object store

    The mutating operations as a type [store_op] and their runs [store_run]; what holds in
    every store a run leads to ([store_core]: object records, an index that misses no live
    object) and what holds as long as no Create stores over an object ([store_inv]: the index
    is exact); objects only evolve along the lifecycle table, [locate] through the index
    returns what a scan of the objects returns. *)

From coqutil Require Import Byte.
From stdpp Require Import prelude gmap strings list pretty relations.
From Stdlib Require Import ZArith Lia.
From S2P Require Import Prelude RustStd KmipTypes KmipStore.
Import ObjectType Reason Attr.
Local Open Scope Z_scope.
Local Open Scope string_scope.

(** ** What a stored object may become *)

(** [evolves o o']: identity, type and creation time are fixed, the state follows
    the lifecycle table, the immutable attributes keep their values, and the key
    material is either kept or erased by destruction. *)
Record evolves (o o' : KmipStoredObject) : Prop := {
  ev_id : obj_id o' = obj_id o;
  ev_type : obj_object_type o' = obj_object_type o;
  ev_created : obj_created o' = obj_created o;
  ev_state : obj_state o' = obj_state o \/ allowed_transitions (obj_state o) (obj_state o') = true;
  ev_immutable : forall k, is_immutable_attribute k = true ->
    obj_attributes o' !! k = obj_attributes o !! k;
  ev_material : obj_key_material o' = obj_key_material o
    \/ (obj_state o' = Destroyed /\ obj_key_material o' = None);
  ev_erased : obj_state o <> Destroyed -> obj_state o' = Destroyed -> obj_key_material o' = None;
}.

Lemma evolves_refl o : evolves o o.
Proof. by split; auto. Qed.

Lemma evolves_modified t o o' : evolves o o' -> evolves o (with_modified t o').
Proof. intros []. by split. Qed.

#[export] Hint Resolve evolves_refl evolves_modified : rust.

(** Destruction is final: nothing leaves [Destroyed], nothing enters
    [Compromised]. *)
Lemma allowed_from_destroyed st : allowed_transitions Destroyed st = false.
Proof. by destruct st. Qed.
Lemma allowed_to_compromised st : allowed_transitions st Compromised = false.
Proof. by destruct st. Qed.

Lemma evolves_destroyed o o' :
  evolves o o' -> obj_state o = Destroyed -> obj_state o' = Destroyed.
Proof.
  intros Ev Hd. destruct (ev_state _ _ Ev) as [->|Ha]; [done|].
  rewrite Hd, allowed_from_destroyed in Ha. done.
Qed.

(** ** The invariant *)

Definition index_ids (ot : KmipObjectType) (s : InMemoryKeyStore) : gmap string unit :=
  default ∅ (type_index s !! ot).

Record obj_wf (floor : Z) (id : string) (o : KmipStoredObject) : Prop := {
  wf_id : obj_id o = id;
  wf_state : obj_state o <> Compromised;
  wf_erased : obj_state o = Destroyed -> obj_key_material o = None;
  wf_times : obj_created o <= obj_modified o <= floor;
}.

Record store_core (s : InMemoryKeyStore) : Prop := {
  core_objects : map_Forall (obj_wf (mono_floor s)) (objects s);
  core_index : forall id o, objects s !! id = Some o -> obj_state o <> Destroyed ->
    is_Some (index_ids (obj_object_type o) s !! id);
  core_counter : in_u64 (counter s);
}.

(** The index lists nothing but live objects. *)
Definition index_exact (s : InMemoryKeyStore) : Prop :=
  forall ot id, is_Some (index_ids ot s !! id) ->
    exists o, objects s !! id = Some o /\ obj_object_type o = ot /\ obj_state o <> Destroyed.

Definition store_inv (s : InMemoryKeyStore) : Prop := store_core s /\ index_exact s.

Lemma inv_index s ot id : store_inv s ->
  is_Some (index_ids ot s !! id) <->
  exists o, objects s !! id = Some o /\ obj_object_type o = ot /\ obj_state o <> Destroyed.
Proof. intros [Hc Hx]. split; [apply Hx|]. intros (o & Ho & <- & Hd). by apply (core_index _ Hc). Qed.

Lemma obj_wf_floor f f' id o : f <= f' -> obj_wf f id o -> obj_wf f' id o.
Proof. intros ? [? ? ? [? ?]]. split; auto. lia. Qed.

(** An evolved object is well-formed again once its modification time is
    refreshed. *)
Lemma obj_wf_evolves f t id o o' :
  obj_wf f id o -> evolves o o' -> f <= t -> obj_wf t id (with_modified t o').
Proof.
  intros [? Hc He [? ?]] Ev Ht. split; simpl.
  - by rewrite (ev_id _ _ Ev).
  - destruct (ev_state _ _ Ev) as [->|Ha]; [done|]. intros Hs.
    by rewrite Hs, allowed_to_compromised in Ha.
  - intros Hd. destruct (decide (obj_state o = Destroyed)) as [Hs|Hs].
    + destruct (ev_material _ _ Ev) as [->|[_ ->]]; auto.
    + by apply (ev_erased _ _ Ev).
  - rewrite (ev_created _ _ Ev). lia.
Qed.

(** ** Effect of the operations on the record of the store *)

Lemma objects_touch raw id o s :
  objects (touch raw id o s) = <[id := with_modified (Z.max raw (mono_floor s)) o]> (objects s).
Proof. done. Qed.

Lemma index_ids_insert ot ot' id id' s :
  is_Some (index_ids ot (index_insert ot' id' s) !! id) <->
  (ot = ot' /\ id = id') \/ is_Some (index_ids ot s !! id).
Proof.
  unfold index_ids, index_insert. cbn [type_index].
  destruct (decide (ot = ot')) as [->|Hne].
  - rewrite lookup_insert_eq. unfold default; simpl. rewrite lookup_insert_is_Some'. intuition congruence.
  - rewrite lookup_insert_ne by done. intuition congruence.
Qed.

Lemma index_ids_remove ot ot' id id' s :
  is_Some (index_ids ot (index_remove ot' id' s) !! id) <->
  ~ (ot = ot' /\ id = id') /\ is_Some (index_ids ot s !! id).
Proof.
  unfold index_ids, index_remove.
  destruct (type_index s !! ot') as [ids|] eqn:E; cbn [type_index].
  - destruct (decide (ot = ot')) as [->|Hne].
    + rewrite lookup_insert_eq, E. unfold default; simpl. rewrite lookup_delete_is_Some. intuition congruence.
    + rewrite lookup_insert_ne by done. intuition congruence.
  - split; [|tauto]. intros H; split; [|done]. intros [-> ->].
    rewrite E in H. simpl in H. rewrite lookup_empty in H. by destruct H.
Qed.

(** The operations on one existing object all have one of three effects. *)
Inductive op_effect (raw : Z) (id : string) (s : InMemoryKeyStore) : InMemoryKeyStore -> Prop :=
| effect_none : op_effect raw id s s
| effect_update o o' :
    objects s !! id = Some o -> evolves o o' ->
    (obj_state o' = Destroyed <-> obj_state o = Destroyed) ->
    op_effect raw id s (touch raw id o' s)
| effect_destroy o o' :
    objects s !! id = Some o -> evolves o o' ->
    obj_state o <> Destroyed -> obj_state o' = Destroyed ->
    op_effect raw id s (touch raw id o' (index_remove (obj_object_type o) id s)).

#[export] Hint Constructors op_effect : rust.

Lemma core_touch raw id o o' s s0 :
  store_core s -> objects s !! id = Some o -> evolves o o' ->
  objects s0 = objects s -> mono_floor s0 = mono_floor s -> counter s0 = counter s ->
  (forall ot i, is_Some (index_ids ot s !! i) -> (i = id -> obj_state o' <> Destroyed) -> is_Some (index_ids ot s0 !! i)) ->
  (obj_state o = Destroyed -> obj_state o' = Destroyed) ->
  store_core (touch raw id o' s0).
Proof.
  intros [Hobj Hindex Hcnt] Ho Ev Eo Ef Ec Hidx Hd. split; [| |cbn; by rewrite Ec].
  - rewrite objects_touch, Eo, Ef. cbn [mono_floor touch now_epoch set_objects].
    rewrite Ef. apply map_Forall_insert_2.
    + eapply obj_wf_evolves; [by apply Hobj|done|lia].
    + eapply map_Forall_impl; [exact Hobj|]. intros i x Hx. eapply obj_wf_floor; [|exact Hx]. lia.
  - intros i x. change (index_ids (obj_object_type x) (touch raw id o' s0)) with (index_ids (obj_object_type x) s0).
    rewrite objects_touch, Eo, Ef. intros [[<- <-]|[Hne Hx]]%lookup_insert_Some Hl; cbn in *.
    + apply Hidx; [|done]. rewrite (ev_type _ _ Ev). apply Hindex; [done|]. intros H1. by apply Hl, Hd.
    + apply Hidx; [by apply Hindex|by intros ->].
Qed.

Lemma exact_touch raw id o o' s s0 :
  index_exact s -> objects s !! id = Some o -> evolves o o' -> objects s0 = objects s ->
  (forall ot i, is_Some (index_ids ot s0 !! i) -> is_Some (index_ids ot s !! i) /\ (i = id -> obj_state o' <> Destroyed)) ->
  index_exact (touch raw id o' s0).
Proof.
  intros Hx Ho Ev Eo Hidx ot i. change (index_ids ot (touch raw id o' s0)) with (index_ids ot s0).
  rewrite objects_touch, Eo. intros [Hi Hl]%Hidx. apply Hx in Hi as (x & Hi & Ht & Hs).
  destruct (decide (i = id)) as [->|Hne]; [|rewrite lookup_insert_ne by done; eauto].
  rewrite lookup_insert_eq. eexists. split; [done|]. cbn. simplify_eq. split; [apply (ev_type _ _ Ev)|by apply Hl].
Qed.

Lemma objects_index_remove ot id s :
  objects (index_remove ot id s) = objects s /\ mono_floor (index_remove ot id s) = mono_floor s /\
  counter (index_remove ot id s) = counter s.
Proof. unfold index_remove. by case_match. Qed.

Lemma core_op_effect raw id s s' : store_core s -> op_effect raw id s s' -> store_core s'.
Proof.
  intros Inv [|o o' Ho Ev Hs|o o' Ho Ev Hn Hd]; [done| |].
  - eapply core_touch; try done. tauto.
  - destruct (objects_index_remove (obj_object_type o) id s) as (? & ? & ?). eapply core_touch; try done.
    intros ot i Hi Hl. apply index_ids_remove. split; [|done]. intros [_ ->]. by apply Hl.
Qed.

Lemma exact_op_effect raw id s s' : index_exact s -> op_effect raw id s s' -> index_exact s'.
Proof.
  intros Hx [|o o' Ho Ev Hs|o o' Ho Ev Hn Hd]; [done| |].
  - eapply exact_touch; try done. intros ot i Hi. split; [done|]. intros ->.
    apply Hx in Hi as (x & Hi & _ & Hl). simplify_eq. tauto.
  - destruct (objects_index_remove (obj_object_type o) id s) as (? & ? & ?). eapply exact_touch; try done.
    intros ot i [Hne Hi]%index_ids_remove. split; [done|]. intros ->.
    apply Hx in Hi as (x & Hi & Ht & _). simplify_eq. tauto.
Qed.

(** ** Attribute maps *)

Section Attributes.
Context `{MapIter}.

(** Inserting one by one in any order is the left-biased union. *)
Lemma insert_all_union new_attrs attrs : insert_all new_attrs attrs = new_attrs ∪ attrs.
Proof.
  unfold insert_all.
  assert (forall l : list (string * KmipAttributeValue), NoDup l.*1 ->
    foldl (fun m '(k, v) => <[k := v]> m) attrs l = list_to_map l ∪ attrs) as Hl.
  { intros l. revert attrs. induction l as [|[k v] l IH]; intros attrs Hnd; cbn.
    - by rewrite (left_id_L ∅ (∪)).
    - inversion_clear Hnd. rewrite IH by done.
      rewrite <- insert_union_l. symmetry. by apply insert_union_r, not_elem_of_list_to_map. }
  rewrite Hl.
  - f_equal. transitivity (list_to_map (M := gmap string KmipAttributeValue) (map_to_list new_attrs)).
    + apply list_to_map_proper; [apply (NoDup_keys new_attrs)|apply iter_perm].
    + apply list_to_map_to_list.
  - apply (NoDup_keys new_attrs).
Qed.

Lemma foldl_delete_lookup names (attrs : gmap string KmipAttributeValue) k :
  k ∉ names -> foldl (fun m n => delete n m) attrs names !! k = attrs !! k.
Proof.
  revert attrs. induction names as [|n names IH]; intros attrs Hk; [done|]. cbn.
  apply not_elem_of_cons in Hk as [? ?]. rewrite IH by done. by apply lookup_delete_ne.
Qed.

Lemma existsb_false_elem {A} (f : A -> bool) l x : existsb f l = false -> x ∈ l -> f x = false.
Proof.
  intros Hf Hx. destruct (f x) eqn:E; [|done]. rewrite <- Hf. symmetry.
  apply existsb_exists. exists x. split; [by apply list_elem_of_In|done].
Qed.

(** ** The operations on an existing object *)

Lemma evolves_attributes o a :
  (forall k, is_immutable_attribute k = true -> a !! k = obj_attributes o !! k) ->
  evolves o (with_attributes a o).
Proof. intros Ha. by split; auto. Qed.

Lemma evolves_insert_all o new_attrs :
  existsb is_immutable_attribute (keys new_attrs) = false ->
  evolves o (with_attributes (insert_all new_attrs (obj_attributes o)) o).
Proof.
  intros Hi. apply evolves_attributes. intros k Hk. rewrite insert_all_union.
  apply lookup_union_r. apply eq_None_not_Some. intros Hs%elem_of_keys.
  pose proof (existsb_false_elem _ _ _ Hi Hs). congruence.
Qed.

Ltac op_cases :=
  repeat (case_match; bool_to_prop); simplify_eq; cbn [snd fst]; auto with rust.

Lemma effect_attributes raw id s o a :
  objects s !! id = Some o -> evolves o (with_attributes a o) ->
  op_effect raw id s (touch raw id (with_attributes a o) s).
Proof. intros. by eapply effect_update. Qed.

Lemma effect_activate raw id s : op_effect raw id s (activate raw id s).2.
Proof.
  unfold activate. op_cases. eapply effect_update; [done| |].
  - split; cbn; auto. intros. congruence.
  - cbn. naive_solver.
Qed.

Lemma effect_revoke raw id s : op_effect raw id s (revoke raw id s).2.
Proof.
  unfold revoke. op_cases. eapply effect_update; [done| |].
  - split; cbn; auto. intros. congruence.
  - cbn. naive_solver.
Qed.

Lemma effect_destroy_op raw id s : op_effect raw id s (destroy raw id s).2.
Proof. unfold destroy. op_cases. eapply effect_destroy; [done| |done|done]. split; cbn; auto. Qed.

Lemma effect_add_attributes raw id a s : op_effect raw id s (add_attributes raw id a s).2.
Proof.
  unfold add_attributes. op_cases. apply effect_attributes; [done|]. by apply evolves_insert_all.
Qed.

Lemma effect_modify_attributes raw id a s : op_effect raw id s (modify_attributes raw id a s).2.
Proof.
  unfold modify_attributes. op_cases. apply effect_attributes; [done|]. by apply evolves_insert_all.
Qed.

Lemma effect_delete_attributes raw id ns s : op_effect raw id s (delete_attributes raw id ns s).2.
Proof.
  unfold delete_attributes. op_cases. apply effect_attributes; [done|].
  apply evolves_attributes. intros name Hname. apply foldl_delete_lookup.
  intros Hin. epose proof (existsb_false_elem _ _ _ ltac:(eassumption) Hin). congruence.
Qed.

Lemma effect_decrement raw id s : op_effect raw id s (decrement_usage_counter raw id s).2.
Proof.
  unfold decrement_usage_counter. op_cases; (apply effect_attributes; [done|]);
    apply evolves_attributes; intros name Hname; apply lookup_insert_ne; by intros <-.
Qed.

End Attributes.

#[export] Hint Resolve effect_activate effect_revoke effect_destroy_op effect_add_attributes
  effect_modify_attributes effect_delete_attributes effect_decrement : rust.

(** ** Creation and registration *)

Lemma gen_id_inj a b : in_u64 a -> in_u64 b -> gen_id a = gen_id b -> a = b.
Proof. intros Ha Hb E. apply (fmt_hex_inj 8); [done..|]. by apply (inj (String.append "kmip-")) in E. Qed.

(** A well-formed new object, stored over whatever was there. *)
Lemma core_new_object id o s s' :
  store_core s -> objects s' = <[id := o]> (objects s) ->
  mono_floor s <= mono_floor s' -> obj_wf (mono_floor s') id o ->
  (forall ot i, is_Some (index_ids ot s' !! i) <->
     (ot = obj_object_type o /\ i = id) \/ is_Some (index_ids ot s !! i)) ->
  in_u64 (counter s') -> store_core s'.
Proof.
  intros [Hobj Hindex Hcnt] Eo Hf Hwf Hidx Hc. split; [| |done].
  - rewrite Eo. apply map_Forall_insert_2; [done|].
    eapply map_Forall_impl; [exact Hobj|]. intros i x Hx. by eapply obj_wf_floor.
  - intros i x. rewrite Eo, Hidx. intros [[<- <-]|[_ Hx]]%lookup_insert_Some Hl; [by left|right]. by apply Hindex.
Qed.

(** Under an unused identifier it keeps the index exact. *)
Lemma exact_new_object id o s s' :
  index_exact s -> objects s !! id = None -> objects s' = <[id := o]> (objects s) -> obj_state o <> Destroyed ->
  (forall ot i, is_Some (index_ids ot s' !! i) <->
     (ot = obj_object_type o /\ i = id) \/ is_Some (index_ids ot s !! i)) -> index_exact s'.
Proof.
  intros Hx Hid Eo Hs Hidx ot i. rewrite Hidx, Eo. intros [[-> ->]|(x & Hi & Ht & Hl)%Hx].
  - rewrite lookup_insert_eq. eauto.
  - rewrite lookup_insert_ne by congruence. eauto.
Qed.

Lemma core_floor raw s : store_core s -> store_core (now_epoch raw s).2.
Proof.
  intros [Hobj Hindex Hcnt]. split; [|done..]. cbn.
  eapply map_Forall_impl; [exact Hobj|]. intros i x Hx. eapply obj_wf_floor; [|exact Hx]. lia.
Qed.

Definition new_object (raw : Z) (id : string) (ot : KmipObjectType) (km : option (list byte))
    (attrs : gmap string KmipAttributeValue) (s : InMemoryKeyStore) : KmipStoredObject :=
  mkObject id ot PreActive km attrs (Z.max raw (mono_floor s)) (Z.max raw (mono_floor s)).

Lemma objects_create raw ot km attrs s :
  objects (create raw ot km attrs s).2 =
  <[gen_id (counter s) := new_object raw (gen_id (counter s)) ot (Some km) attrs s]> (objects s).
Proof. done. Qed.

Lemma objects_register raw id ot km attrs s :
  objects (register raw id ot km attrs s).2 =
  match objects s !! id with
  | None => <[id := new_object raw id ot km attrs s]> (objects s)
  | Some _ => objects s
  end.
Proof. unfold register, now_epoch. cbn [objects]. by case_match. Qed.

Lemma core_create raw ot km attrs s : store_core s -> store_core (create raw ot km attrs s).2.
Proof.
  intros Inv. eapply (core_new_object (gen_id (counter s))); [exact Inv|reflexivity|..]; cbn.
  - lia.
  - split; cbn; done || lia.
  - intros ot' i. exact (index_ids_insert ot' ot i (gen_id (counter s)) s).
  - unfold in_u64. pose proof (Z.mod_pos_bound (counter s + 1) (2 ^ 64)). lia.
Qed.

Lemma exact_create raw ot km attrs s :
  index_exact s -> objects s !! gen_id (counter s) = None -> index_exact (create raw ot km attrs s).2.
Proof.
  intros Hx Hn. eapply (exact_new_object (gen_id (counter s))); [exact Hx|done|reflexivity|done|].
  intros ot' i. exact (index_ids_insert ot' ot i (gen_id (counter s)) s).
Qed.

Lemma core_register raw id ot km attrs s : store_core s -> store_core (register raw id ot km attrs s).2.
Proof.
  intros Inv. unfold register, now_epoch. cbn [objects]. case_match; [by apply core_floor|].
  eapply (core_new_object id); [exact Inv|reflexivity|..]; cbn.
  - lia.
  - split; cbn; done || lia.
  - intros ot' i. exact (index_ids_insert ot' ot i id s).
  - apply (core_counter _ Inv).
Qed.

Lemma exact_register raw id ot km attrs s : index_exact s -> index_exact (register raw id ot km attrs s).2.
Proof.
  intros Hx. unfold register, now_epoch. cbn [objects]. case_match; [done|].
  eapply (exact_new_object id); [exact Hx|done|reflexivity|done|]. intros ot' i. exact (index_ids_insert ot' ot i id s).
Qed.

(** ** Runs of the store *)

Section Runs.
Context `{MapIter}.

(** One call of a mutating operation, with its reading of the clock. *)
Inductive store_op : Type :=
| OpCreate (raw : Z) (ot : KmipObjectType) (km : list byte) (attrs : gmap string KmipAttributeValue)
| OpRegister (raw : Z) (id : string) (ot : KmipObjectType) (km : option (list byte)) (attrs : gmap string KmipAttributeValue)
| OpActivate (raw : Z) (id : string)
| OpRevoke (raw : Z) (id : string)
| OpDestroy (raw : Z) (id : string)
| OpAddAttributes (raw : Z) (id : string) (attrs : gmap string KmipAttributeValue)
| OpModifyAttributes (raw : Z) (id : string) (attrs : gmap string KmipAttributeValue)
| OpDeleteAttributes (raw : Z) (id : string) (names : list string)
| OpDecrement (raw : Z) (id : string).

Definition apply_op (op : store_op) (s : InMemoryKeyStore) : InMemoryKeyStore :=
  match op with
  | OpCreate raw ot km attrs => (create raw ot km attrs s).2
  | OpRegister raw id ot km attrs => (register raw id ot km attrs s).2
  | OpActivate raw id => (activate raw id s).2
  | OpRevoke raw id => (revoke raw id s).2
  | OpDestroy raw id => (destroy raw id s).2
  | OpAddAttributes raw id attrs => (add_attributes raw id attrs s).2
  | OpModifyAttributes raw id attrs => (modify_attributes raw id attrs s).2
  | OpDeleteAttributes raw id names => (delete_attributes raw id names s).2
  | OpDecrement raw id => (decrement_usage_counter raw id s).2
  end.

Definition store_run (ops : list store_op) (s : InMemoryKeyStore) : InMemoryKeyStore :=
  foldl (fun s op => apply_op op s) s ops.

(** The identifier that a Create issues. *)
Definition issues (op : store_op) (s : InMemoryKeyStore) : option string :=
  match op with OpCreate _ _ _ _ => Some (gen_id (counter s)) | _ => None end.

(** No Create of the run issues the identifier. *)
Fixpoint never_issued (id : string) (ops : list store_op) (s : InMemoryKeyStore) : bool :=
  match ops with
  | [] => true
  | op :: ops => bool_decide (issues op s <> Some id) && never_issued id ops (apply_op op s)
  end.

(** No Create of the run issues the identifier of an object that is there. *)
Fixpoint no_overwrite (ops : list store_op) (s : InMemoryKeyStore) : bool :=
  match ops with
  | [] => true
  | op :: ops => match issues op s ≫= fun id => objects s !! id with Some _ => false | None => no_overwrite ops (apply_op op s) end
  end.

Lemma core_new floor : store_core (InMemoryKeyStore_new floor).
Proof. split; cbn; [apply map_Forall_empty|intros id o; by rewrite lookup_empty|unfold in_u64; lia]. Qed.

Lemma exact_new floor : index_exact (InMemoryKeyStore_new floor).
Proof. intros ot id. unfold index_ids. cbn. rewrite !lookup_empty. by intros []. Qed.

Lemma core_op op s : store_core s -> store_core (apply_op op s).
Proof.
  intros Inv. destruct op; cbn [apply_op]; first [ by apply core_create | by apply core_register
    | eapply core_op_effect; [done|solve [eauto with rust]] ].
Qed.

Lemma core_run ops s : store_core s -> store_core (store_run ops s).
Proof. revert s. induction ops as [|op ops IH]; intros s Inv; [done|]. by apply IH, core_op. Qed.

Lemma exact_run ops s : index_exact s -> no_overwrite ops s = true -> index_exact (store_run ops s).
Proof.
  revert s. induction ops as [|op ops IH]; intros s Hx Hn; [done|]. cbn [no_overwrite] in Hn. case_match eqn:Ho; [done|].
  apply IH; [|done]. destruct op; cbn [apply_op]; first [ by apply exact_create | by apply exact_register
    | eapply exact_op_effect; [done|solve [eauto with rust]] ].
Qed.

(** *** An object through one step *)

Definition object_step (o o' : KmipStoredObject) : Prop :=
  evolves o o' /\ obj_modified o <= obj_modified o'.

Lemma op_effect_objects raw id s s' i o :
  store_core s -> op_effect raw id s s' -> objects s !! i = Some o ->
  exists o', objects s' !! i = Some o' /\ object_step o o'.
Proof.
  intros Inv He Ho.
  assert (forall x s0, objects s0 = objects s -> mono_floor s0 = mono_floor s ->
    (forall y, objects s !! id = Some y -> evolves y x) ->
    exists o', objects (touch raw id x s0) !! i = Some o' /\ object_step o o') as Ht.
  { intros x s0 Eo Ef Hx. rewrite objects_touch, Eo, Ef.
    destruct (decide (i = id)) as [->|Hne].
    - rewrite lookup_insert_eq. eexists. split; [done|]. split; [by apply evolves_modified, Hx|].
      cbn. pose proof (wf_times _ _ _ (core_objects _ Inv _ _ Ho)). lia.
    - rewrite lookup_insert_ne by done. exists o. split; [done|]. split; [apply evolves_refl|lia]. }
  destruct He as [|y x Hy Ev _|y x Hy Ev _ _].
  - exists o. split; [done|]. split; [apply evolves_refl|lia].
  - apply Ht; [done..|]. intros. by simplify_eq.
  - apply Ht; [unfold index_remove; by case_match..|]. intros. by simplify_eq.
Qed.

Lemma step_objects op s i o :
  store_core s -> issues op s <> Some i -> objects s !! i = Some o ->
  exists o', objects (apply_op op s) !! i = Some o' /\ object_step o o'.
Proof.
  intros Inv Hs Ho.
  assert (exists o', objects s !! i = Some o' /\ object_step o o') as Hkeep.
  { exists o. split; [done|]. split; [apply evolves_refl|lia]. }
  destruct op; cbn [apply_op issues] in *; try (eapply op_effect_objects; [done|solve [eauto with rust]|done]).
  - rewrite objects_create, lookup_insert_ne; [done|congruence].
  - rewrite objects_register. case_match eqn:Hid; [done|].
    rewrite lookup_insert_ne; [done|]. intros <-. congruence.
Qed.

(** What an object may look like after any number of operations. *)
Record history (o o' : KmipStoredObject) : Prop := {
  hist_id : obj_id o' = obj_id o;
  hist_type : obj_object_type o' = obj_object_type o;
  hist_created : obj_created o' = obj_created o;
  hist_modified : obj_modified o <= obj_modified o';
  hist_state : rtc (fun a b => allowed_transitions a b = true) (obj_state o) (obj_state o');
  hist_immutable : forall k, is_immutable_attribute k = true ->
    obj_attributes o' !! k = obj_attributes o !! k;
  hist_material : obj_state o' <> Destroyed -> obj_key_material o' = obj_key_material o;
}.

Lemma history_refl o : history o o.
Proof. split; done || lia. Qed.

Lemma history_step o o1 o2 : object_step o o1 -> history o1 o2 -> history o o2.
Proof.
  intros [Ev Hm] [? ? ? ? Hs Hi Hk]. destruct Ev as [? ? ? Hst Him Hmat _].
  split; try congruence; try lia.
  - destruct Hst as [<-|]; [done|]. by eapply rtc_l.
  - intros k ?. rewrite Hi by done. auto.
  - intros Hd. rewrite Hk by done. destruct Hmat as [|[Hd1 _]]; [done|].
    exfalso. apply Hd. rewrite Hd1 in Hs. clear -Hs.
    remember Destroyed as d eqn:Ed. induction Hs as [|x y z Hxy]; [done|].
    subst. by rewrite allowed_from_destroyed in Hxy.
Qed.

(** *** [locate]: what the filter means *)

(** An [Object Type] filter that names a known type constrains the type of the
    object; every other entry must be a stored attribute with that value. *)
Definition filter_matches (attributes : gmap string KmipAttributeValue) (o : KmipStoredObject)
    : Prop :=
  obj_state o <> Destroyed /\
  forall k v, attributes !! k = Some v ->
    match (if String.eqb k "Object Type"
           then match v with Enum n => KmipObjectType_from_u32 n | _ => None end
           else None) with
    | Some ot => obj_object_type o = ot
    | None => obj_attributes o !! k = Some v
    end.

Lemma matches_attributes_spec skip a o :
  matches_attributes skip a o = true <->
  forall k v, a !! k = Some v ->
    (skip = true /\ k = "Object Type") \/ obj_attributes o !! k = Some v.
Proof.
  unfold matches_attributes. rewrite forallb_iter.
  do 2 (apply forall_proper; intros ?). apply forall_proper. intros _.
  destruct skip; cbn; [|rewrite bool_decide_eq_true; naive_solver].
  case_if; [apply String.eqb_eq in E|apply String.eqb_neq in E];
    rewrite ?bool_decide_eq_true; naive_solver.
Qed.

Lemma locate_scan_spec a s id :
  (forall n, a !! "Object Type" = Some (Enum n) -> KmipObjectType_from_u32 n = None) ->
  id ∈ locate_scan a s <-> exists o, objects s !! id = Some o /\ filter_matches a o.
Proof.
  intros Hot. unfold locate_scan. rewrite list_elem_of_fmap.
  assert (forall o, matches_attributes false a o = true <->
    forall k v, a !! k = Some v ->
      match (if String.eqb k "Object Type"
             then match v with Enum n => KmipObjectType_from_u32 n | _ => None end else None) with
      | Some ot => obj_object_type o = ot | None => obj_attributes o !! k = Some v end) as Hm.
  { intros o. rewrite matches_attributes_spec.
    do 2 (apply forall_proper; intros ?). apply forall_proper. intros Hk.
    case_if; [apply String.eqb_eq in E as ->|naive_solver].
    destruct x0; try naive_solver. rewrite (Hot _ Hk). naive_solver. }
  split.
  - intros ([i o] & -> & [Hf Hin]%list_elem_of_filter). exists o.
    split; [by apply elem_of_iter|]. cbn in Hf. case_if; [done|]. bool_to_prop.
    split; [done|]. apply Hm, Is_true_true, Hf.
  - intros (o & Ho & Hd & Hf%Hm). exists (id, o). split; [done|].
    apply list_elem_of_filter. split; [|by apply elem_of_iter].
    rewrite bool_decide_eq_false_2 by done. by apply Is_true_true.
Qed.

Lemma locate_indexed_spec a s n ot ids id :
  store_inv s -> a !! "Object Type" = Some (Enum n) -> KmipObjectType_from_u32 n = Some ot ->
  ids = index_ids ot s ->
  id ∈ locate_indexed a ids s <-> exists o, objects s !! id = Some o /\ filter_matches a o.
Proof.
  intros Inv Hn Hot ->. unfold locate_indexed. rewrite list_elem_of_filter, elem_of_keys.
  rewrite (inv_index _ _ _ Inv). split.
  - intros [Hf (o & Ho & Ht & Hd)]. exists o. split; [done|]. split; [done|].
    rewrite Ho, bool_decide_eq_false_2 in Hf by done.
    apply Is_true_true in Hf. rewrite matches_attributes_spec in Hf.
    intros k v Hk. case_if; [apply String.eqb_eq in E as ->|apply String.eqb_neq in E].
    + rewrite Hn in Hk. simplify_eq. by rewrite Hot.
    + destruct (Hf _ _ Hk) as [[_ ?]|]; done.
  - intros (o & Ho & Hd & Hf). rewrite Ho, bool_decide_eq_false_2 by done. split.
    + apply Is_true_true, matches_attributes_spec. intros k v Hk.
      destruct (decide (k = "Object Type")) as [->|Hne]; [by left|right].
      specialize (Hf _ _ Hk). by rewrite (proj2 (String.eqb_neq _ _) Hne) in Hf.
    + exists o. specialize (Hf _ _ Hn). cbn in Hf. by rewrite Hot in Hf.
Qed.

Lemma NoDup_locate a s : NoDup (locate a s).
Proof.
  assert (NoDup (locate_scan a s)) as Hscan.
  { eapply sublist_NoDup; [apply (NoDup_keys (objects s))|]. apply fmap_sublist, sublist_filter. }
  unfold locate. repeat case_match; try done; [|apply NoDup_nil_2].
  apply NoDup_filter, NoDup_keys.
Qed.

(** The order of the lifecycle states; [Compromised] is never entered. *)
Definition lifecycle_rank (st : KmipObjectState) : nat :=
  match st with
  | PreActive => 0 | Active => 1 | Deactivated => 2 | Destroyed => 3 | Compromised => 4
  end.

Lemma lifecycle_forward a b :
  rtc (fun x y => allowed_transitions x y = true) a b ->
  (b = a \/ lifecycle_rank a < lifecycle_rank b)%nat.
Proof.
  induction 1 as [|x y z Hxy _ IH]; [by left|right].
  assert (lifecycle_rank x < lifecycle_rank y)%nat by (by destruct x, y; simpl in *; try lia).
  destruct IH as [->|]; lia.
Qed.

(** *** Theorems *)

(** C39: every store that any sequence of operations leads to from an empty one, register
    under any identifier and wrap-around of the sequence numbers included: objects are
    stored under their own identifier, no object is ever Compromised, destroyed objects hold
    no key material, timestamps satisfy created <= modified <= the clock floor, and the type
    index lists every live object under its type.  The index lists nothing else, as long as
    no Create of the sequence issues the identifier of an object that is there. *)
Theorem store_invariant_reachable floor ops :
  let s := store_run ops (InMemoryKeyStore_new floor) in
  store_core s /\ (no_overwrite ops (InMemoryKeyStore_new floor) = true -> index_exact s).
Proof. split; [apply core_run, core_new|]. intros Hn. apply exact_run; [apply exact_new|done]. Qed.

(** C23: over any sequence of operations in which no Create issues its identifier, an object
    stays present with its identity, type, creation time and immutable attributes (owner
    among them); its state moves only along the lifecycle table, hence only forward
    (PreActive, Active, Deactivated, Destroyed) and never back; its modification time never
    decreases, and its key material stays the same until it is destroyed, after which it is
    gone and the object stays destroyed.  (A Create that issues the identifier replaces the
    object: create_overwrites_registered.) *)
Theorem object_history s ops id o :
  store_core s -> objects s !! id = Some o -> never_issued id ops s = true ->
  exists o', objects (store_run ops s) !! id = Some o' /\ history o o'
    /\ (obj_state o' = obj_state o \/ lifecycle_rank (obj_state o) < lifecycle_rank (obj_state o'))%nat
    /\ (obj_state o = Destroyed -> obj_state o' = Destroyed)
    /\ (obj_state o' = Destroyed -> obj_key_material o' = None).
Proof.
  intros Inv Ho Hn.
  assert (exists o', objects (store_run ops s) !! id = Some o' /\ history o o') as (o' & Ho' & Hh).
  { revert s o Inv Ho Hn. induction ops as [|op ops IH]; intros s o Inv Ho Hn.
    - eauto using history_refl.
    - cbn [never_issued] in Hn. apply andb_true_iff in Hn as [Hi%bool_decide_eq_true Hn].
      destruct (step_objects op s id o Inv Hi Ho) as (o1 & Ho1 & Hs1).
      destruct (IH _ _ (core_op op s Inv) Ho1 Hn) as (o2 & ? & ?). eauto using history_step. }
  exists o'. split_and!; [done|done|by apply lifecycle_forward, hist_state| |].
  - intros Hd. pose proof (hist_state _ _ Hh) as Hs. rewrite Hd in Hs.
    inversion Hs as [|? ? ? Hab]; [done|]. subst. by rewrite allowed_from_destroyed in Hab.
  - apply (wf_erased _ _ _ (core_objects _ (core_run ops s Inv) _ _ Ho')).
Qed.

(** What is enough for both conditions: fewer than 2^64 operations, and no registered
    identifier of the form that Create issues. *)
Definition registers_foreign (op : store_op) : Prop :=
  match op with OpRegister _ id _ _ _ => forall n, id <> gen_id n | _ => True end.

Definition issued_below (s : InMemoryKeyStore) : Prop :=
  forall n, counter s <= n < 2 ^ 64 -> objects s !! gen_id n = None.

Lemma op_effect_fresh raw id s s' i : op_effect raw id s s' -> objects s !! i = None -> objects s' !! i = None /\ counter s' = counter s.
Proof.
  intros [|o o' Ho _ _|o o' Ho _ _ _] Hi; [done| |];
    [|destruct (objects_index_remove (obj_object_type o) id s) as (E & _ & Ec)];
    rewrite objects_touch, ?E, lookup_insert_ne by congruence; done.
Qed.

Lemma issued_below_op op s :
  registers_foreign op -> issued_below s -> in_u64 (counter s) -> counter s + 1 < 2 ^ 64 ->
  issued_below (apply_op op s) /\ counter s <= counter (apply_op op s) <= counter s + 1.
Proof.
  intros Hr Hb Hu Hc.
  assert (forall raw id s', op_effect raw id s s' -> issued_below s' /\ counter s <= counter s' <= counter s + 1) as He.
  { intros raw id s' He. assert (counter s' = counter s) as Ec.
    { destruct He as [| |o o' Ho _ _ _]; [done..|]. cbn. apply (objects_index_remove (obj_object_type o) id s). }
    split; [|lia]. intros n Hn. eapply op_effect_fresh; [done|]. apply Hb. lia. }
  destruct op; cbn [apply_op registers_foreign] in *; try (eapply He; solve [eauto with rust]).
  - assert (counter (create raw ot km attrs s).2 = counter s + 1) as Ec by (cbn; apply Z.mod_small; unfold in_u64 in Hu; lia).
    split; [|lia]. intros n Hn. rewrite objects_create, lookup_insert_ne; [apply Hb; lia|]. intros E%gen_id_inj; unfold in_u64 in *; lia.
  - assert (counter (register raw id ot km attrs s).2 = counter s) as Ec by (unfold register, now_epoch; cbn [objects]; by case_match).
    split; [|lia]. intros n Hn. rewrite objects_register. case_match; [apply Hb; lia|]. rewrite lookup_insert_ne by done. apply Hb. lia.
Qed.

(** Creates do not overwrite in such runs. *)
Lemma foreign_no_overwrite ops s :
  Forall registers_foreign ops -> issued_below s -> in_u64 (counter s) -> counter s + len ops < 2 ^ 64 -> no_overwrite ops s = true.
Proof.
  revert s. induction ops as [|op ops IH]; intros s Hr Hb Hu Hc; [done|]. apply Forall_cons in Hr as [Hr Hrs]. rewrite len_cons in Hc.
  pose proof (len_nonneg ops). cbn [no_overwrite].
  destruct (issued_below_op op s Hr Hb Hu ltac:(lia)) as [Hb' Hc']. unfold in_u64 in *.
  assert ((issues op s ≫= fun id => objects s !! id) = None) as ->. { destruct op; try done. cbn. apply Hb. lia. }
  apply IH; [done|done| |]; unfold in_u64; lia.
Qed.

(** The indexed search agrees with a scan of all objects: in a store that
    satisfies the invariant, locate returns without repetition exactly the
    identifiers of the live objects that match every entry of the filter. *)
Theorem locate_exact a s :
  store_inv s ->
  NoDup (locate a s) /\
  forall id, id ∈ locate a s <-> exists o, objects s !! id = Some o /\ filter_matches a o.
Proof.
  intros Inv. split; [apply NoDup_locate|]. intros id. unfold locate.
  destruct (a !! "Object Type") as [[]|] eqn:Ea; try (apply locate_scan_spec; congruence).
  destruct (KmipObjectType_from_u32 v) as [ot|] eqn:Et; [|apply locate_scan_spec; congruence].
  destruct (type_index s !! ot) as [ids|] eqn:Ei.
  - eapply locate_indexed_spec; [done..|]. unfold index_ids. by rewrite Ei.
  - rewrite <- (locate_indexed_spec a s v ot ∅); [|done..|unfold index_ids; by rewrite Ei].
    unfold locate_indexed. rewrite list_elem_of_filter, elem_of_keys, lookup_empty.
    split; [intros ?%elem_of_nil; done|intros [_ []]; done].
Qed.

End Runs.

(** ** Attribute names and the usage counter *)

Section AttributeNames.
Context `{MapIter}.

(** No two stored names differ only in ASCII case. *)
Definition names_unique_ci (m : gmap string KmipAttributeValue) : Prop :=
  forall k k', is_Some (m !! k) -> is_Some (m !! k') ->
    to_ascii_lowercase k = to_ascii_lowercase k' -> k = k'.

Lemma has_name_ci_spec m k :
  has_name_ci m k = true <->
  exists k', is_Some (m !! k') /\ to_ascii_lowercase k' = to_ascii_lowercase k.
Proof. unfold has_name_ci. rewrite existsb_keys. by setoid_rewrite String.eqb_eq. Qed.

Lemma add_attributes_ok raw id a s s' :
  add_attributes raw id a s = (Ok tt, s') ->
  exists o, objects s !! id = Some o
    /\ (forall k, is_Some (a !! k) -> is_immutable_attribute k = false /\ malformed_name k = false
          /\ has_name_ci (obj_attributes o) k = false)
    /\ s' = touch raw id (with_attributes (a ∪ obj_attributes o) o) s.
Proof.
  unfold add_attributes. intros Ha. destruct (objects s !! id) as [o|]; [|done].
  destruct (existsb _ _) eqn:E1 in Ha; [done|]. destruct (existsb _ _) eqn:E2 in Ha; [done|].
  simplify_eq. exists o. split; [done|]. rewrite insert_all_union. split; [|done].
  intros k Hk%elem_of_keys.
  pose proof (existsb_false_elem _ _ _ E1 Hk) as H1.
  pose proof (existsb_false_elem _ _ _ E2 Hk) as H2. cbn in H2.
  by apply orb_false_iff in H2 as [? ?].
Qed.

(** AddAttribute never makes two attribute names of an object equal up to
    case, provided that the names of one request are distinct up to case; every
    attribute the object had keeps its value and every new one is present. *)
Theorem add_attributes_preserves_names raw id a s s' o :
  add_attributes raw id a s = (Ok tt, s') -> objects s !! id = Some o ->
  names_unique_ci (obj_attributes o) -> names_unique_ci a ->
  exists o', objects s' !! id = Some o' /\ names_unique_ci (obj_attributes o')
    /\ (forall k v, obj_attributes o !! k = Some v -> obj_attributes o' !! k = Some v)
    /\ (forall k v, a !! k = Some v -> obj_attributes o' !! k = Some v).
Proof.
  intros (o1 & Ho1 & Hnew & ->)%add_attributes_ok Ho Uo Ua. simplify_eq.
  rewrite objects_touch, lookup_insert_eq. eexists. split; [done|]. cbn.
  assert (forall k k', is_Some (a !! k) -> is_Some (obj_attributes o1 !! k') ->
    to_ascii_lowercase k' <> to_ascii_lowercase k) as Hdisj.
  { intros k k' Hk Hk' E. destruct (Hnew k Hk) as (_ & _ & Hf).
    assert (has_name_ci (obj_attributes o1) k = true) as Ht by (apply has_name_ci_spec; eauto).
    congruence. }
  split_and!.
  - intros k k' Hk Hk' E.
    apply lookup_union_is_Some in Hk as [Hk|Hk], Hk' as [Hk'|Hk']; auto.
    + by destruct (Hdisj k k' Hk Hk').
    + by destruct (Hdisj k' k Hk' Hk).
  - intros k v Hk. apply lookup_union_Some_raw. right. split; [|done].
    apply eq_None_not_Some. intros Hk'. by apply (Hdisj k k Hk').
  - intros k v Hk. apply lookup_union_Some_raw. by left.
Qed.

(** The counter attribute of an object, when it is numeric. *)
Definition usage_count (o : KmipStoredObject) : option Z :=
  match obj_attributes o !! USAGE_COUNTER with
  | Some (LongInteger v) => Some v
  | Some (Integer v) => Some v
  | _ => None
  end.

Lemma decrement_once raw id s o v :
  objects s !! id = Some o -> usage_count o = Some v -> 0 <= v < 2 ^ 63 ->
  exists o', decrement_usage_counter raw id s = (Some (Z.max (v - 1) 0), touch raw id o' s)
    /\ usage_count o' = Some (Z.max (v - 1) 0).
Proof.
  intros Ho Hu Hv. unfold decrement_usage_counter. rewrite Ho.
  fold (usage_count o). rewrite Hu.
  replace (Z.max (i64_saturating_sub v 1) 0) with (Z.max (v - 1) 0)
    by (unfold i64_saturating_sub, i64_min, i64_max; lia).
  eexists. split; [reflexivity|]. unfold usage_count. cbn. by rewrite lookup_insert_eq.
Qed.

(** A non-negative usage counter counts down by one per use and stops at
    zero: after n uses it holds max (v - n) 0, and use number n+1 reports
    max (v - n - 1) 0. *)
Theorem usage_counter_counts_down (raws : nat -> Z) id s o v n :
  objects s !! id = Some o -> usage_count o = Some v -> 0 <= v < 2 ^ 63 ->
  let run := nat_rect (fun _ => InMemoryKeyStore) s
               (fun i s => (decrement_usage_counter (raws i) id s).2) in
  exists o', objects (run n) !! id = Some o'
    /\ usage_count o' = Some (Z.max (v - Z.of_nat n) 0)
    /\ (decrement_usage_counter (raws n) id (run n)).1 = Some (Z.max (v - Z.of_nat n - 1) 0).
Proof.
  intros Ho Hu Hv run.
  assert (exists o', objects (run n) !! id = Some o'
    /\ usage_count o' = Some (Z.max (v - Z.of_nat n) 0)) as (o' & Ho' & Hu').
  { induction n as [|n IH]; cbn.
    - exists o. split; [done|]. rewrite Hu. f_equal. lia.
    - destruct IH as (o1 & Ho1 & Hu1).
      destruct (decrement_once (raws n) id (run n) o1 _ Ho1 Hu1) as (o2 & E & Hu2); [lia|].
      fold (run n). rewrite E. cbn [snd]. rewrite objects_touch, lookup_insert_eq.
      eexists. split; [done|]. unfold usage_count in *. cbn in *. rewrite Hu2. f_equal. lia. }
  exists o'. split_and!; [done..|].
  destruct (decrement_once (raws n) id (run n) o' _ Ho' Hu') as (o2 & -> & _); [lia|].
  cbn. f_equal. lia.
Qed.

(** Create can overwrite.  An object registered under the identifier that the
    next create will issue is silently replaced by it (with its key material and
    owner), and the index keeps the identifier under the old type. *)
Theorem create_overwrites_registered raw raw' ot ot' km km' a a' s :
  objects s !! gen_id (counter s) = None ->
  let id := gen_id (counter s) in
  let s1 := (register raw id ot km a s).2 in
  let s2 := (create raw' ot' km' a' s1).2 in
  objects s1 !! id = Some (new_object raw id ot km a s)
  /\ (create raw' ot' km' a' s1).1 = id
  /\ objects s2 !! id = Some (new_object raw' id ot' (Some km') a' s1)
  /\ is_Some (index_ids ot s2 !! id).
Proof.
  intros Hid id s1 s2. fold id in Hid.
  assert (objects s1 = <[id := new_object raw id ot km a s]> (objects s)) as E1.
  { unfold s1. rewrite objects_register. by rewrite Hid. }
  assert (counter s1 = counter s) as Ec.
  { unfold s1, register, now_epoch. cbn [objects]. by case_match. }
  assert (is_Some (index_ids ot s1 !! id)) as Hi1.
  { unfold s1, register, now_epoch. cbn [objects]. rewrite Hid. cbn [snd].
    apply index_ids_insert. by left. }
  split_and!.
  - rewrite E1. apply lookup_insert_eq.
  - unfold create, now_epoch. cbn. by rewrite Ec.
  - unfold s2. rewrite objects_create, Ec. apply lookup_insert_eq.
  - apply (index_ids_insert ot ot' id (gen_id (counter s1)) s1). by right.
Qed.

End AttributeNames.

(** ** Witnesses: one concrete run *)

Definition demo_id : string := "kmip-00000001".
Definition demo_attrs : gmap string KmipAttributeValue :=
  {[ "owner" := Text "alice"; USAGE_COUNTER := LongInteger 2 ]}.
Definition demo0 : InMemoryKeyStore := InMemoryKeyStore_new 0.
Definition demo1 : InMemoryKeyStore :=
  (create 100 SymmetricKey [Byte.x01; Byte.x02] demo_attrs demo0).2.
Definition demo2 : InMemoryKeyStore := (register 90 "ext-1" PublicKey None ∅ demo1).2.
Definition demo3 : InMemoryKeyStore := (activate 110 demo_id demo2).2.
Definition demo4 : InMemoryKeyStore := (destroy 120 demo_id (revoke 115 demo_id demo3).2).2.

#[local] Existing Instance key_order.

Definition demo_ops1 : list store_op := [OpCreate 100 SymmetricKey [Byte.x01; Byte.x02] demo_attrs; OpRegister 90 "ext-1" PublicKey None ∅].
Definition demo_ops2 : list store_op := [OpActivate 110 demo_id; OpRevoke 115 demo_id; OpDestroy 120 demo_id].

Lemma demo_inv2 : store_inv demo2.
Proof.
  change demo2 with (store_run demo_ops1 demo0). split; [apply core_run, core_new|]. by apply exact_run; [apply exact_new|vm_compute].
Qed.

Lemma store_invariant_reachable_witness :
  obj_state <$> objects demo4 !! demo_id = Some Destroyed /\ index_exact demo4.
Proof.
  split; [reflexivity|]. apply (store_invariant_reachable 0 (demo_ops1 ++ demo_ops2)). vm_compute. reflexivity.
Defined.

Lemma object_history_witness :
  exists o o', objects demo2 !! demo_id = Some o /\ obj_state o = PreActive
    /\ objects demo4 !! demo_id = Some o' /\ history o o' /\ obj_key_material o' = None.
Proof.
  destruct (objects demo2 !! demo_id) as [o|] eqn:Ho; [|discriminate Ho].
  destruct (object_history demo2 demo_ops2 demo_id o (proj1 demo_inv2) Ho eq_refl) as (o' & H1 & H2 & _ & _ & H4).
  exists o, o'. split; [done|]. split; [by injection Ho as <-|]. split_and!; [done..|].
  assert (obj_state <$> objects demo4 !! demo_id = Some Destroyed) as Hs by reflexivity.
  change (store_run demo_ops2 demo2) with demo4 in H1. rewrite H1 in Hs. by apply H4, (inj Some).
Defined.

Lemma locate_exact_witness :
  locate {[ "Object Type" := Enum 1 ]} demo2 = [demo_id]
  /\ exists o, objects demo2 !! demo_id = Some o
       /\ filter_matches {[ "Object Type" := Enum 1 ]} o.
Proof.
  assert (locate {[ "Object Type" := Enum 1 ]} demo2 = [demo_id]) as E by reflexivity.
  split; [exact E|].
  apply (locate_exact {[ "Object Type" := Enum 1 ]} demo2 demo_inv2).
  rewrite E. apply list_elem_of_here.
Defined.

Lemma add_attributes_preserves_names_witness :
  exists s', add_attributes 130 demo_id {[ "x-team" := Text "core" ]} demo2 = (Ok tt, s')
    /\ exists o', objects s' !! demo_id = Some o' /\ names_unique_ci (obj_attributes o').
Proof.
  destruct (add_attributes 130 demo_id {[ "x-team" := Text "core" ]} demo2) as [r s'] eqn:E.
  assert (r = Ok tt) as -> by (vm_compute in E; by injection E as <-).
  destruct (objects demo2 !! demo_id) as [o|] eqn:Ho; [|discriminate Ho].
  exists s'. split; [done|].
  destruct (add_attributes_preserves_names 130 demo_id _ demo2 s' o E Ho) as (o' & ? & ? & _); eauto.
  - assert (obj_attributes <$> objects demo2 !! demo_id = Some demo_attrs) as Ha by reflexivity.
    rewrite Ho in Ha. apply (inj Some) in Ha as ->. intros k k' Hk Hk' Hkk.
    unfold demo_attrs in Hk, Hk'.
    rewrite lookup_insert_is_Some', lookup_singleton_is_Some in Hk, Hk'.
    destruct Hk as [<-|<-], Hk' as [<-|<-]; vm_compute in Hkk; done.
  - intros k k' [? [-> _]%lookup_singleton_Some] [? [-> _]%lookup_singleton_Some] _. done.
Defined.

Lemma usage_counter_counts_down_witness :
  exists o', objects (decrement_usage_counter 7 demo_id demo2).2 !! demo_id = Some o'
    /\ usage_count o' = Some 1.
Proof.
  destruct (objects demo2 !! demo_id) as [o|] eqn:Ho; [|discriminate Ho].
  destruct (usage_counter_counts_down (fun _ => 7) demo_id demo2 o 2 1 Ho) as (o' & ? & ? & _);
    [by injection Ho as <-|lia|eauto].
Defined.

Lemma create_overwrites_registered_witness :
  let id := "kmip-00000002" in
  let s1 := (register 130 id PublicKey (Some [Byte.xff]) {[ "owner" := Text "alice" ]} demo2).2 in
  let s2 := (create 140 SymmetricKey [Byte.x00] {[ "owner" := Text "bob" ]} s1).2 in
  is_Some (objects s1 !! id) /\
  obj_attributes <$> objects s2 !! id = Some {[ "owner" := Text "bob" ]}
  /\ is_Some (index_ids PublicKey s2 !! id).
Proof.
  destruct (create_overwrites_registered 130 140 PublicKey SymmetricKey (Some [Byte.xff]) [Byte.x00]
    {[ "owner" := Text "alice" ]} {[ "owner" := Text "bob" ]} demo2 ltac:(vm_compute; reflexivity)) as (H1 & _ & H2 & H3).
  intros id s1 s2. split_and!; [eexists; exact H1| |exact H3].
  change (objects s2 !! id) with (objects s2 !! gen_id (counter demo2)). unfold s2, s1. 
  change id with (gen_id (counter demo2)). rewrite H2. reflexivity.
Defined.

(** The check against stored names does not look at the other names of the
    same request: one AddAttribute may add two names that differ only in case,
    which the comment in add_attributes says must be impossible. *)
Theorem add_attributes_admits_case_pair :
  exists a s', add_attributes 130 demo_id a demo2 = (Ok tt, s')
    /\ exists o', objects s' !! demo_id = Some o' /\ ~ names_unique_ci (obj_attributes o').
Proof.
  exists {[ "Team" := Text "a"; "team" := Text "b" ]}.
  eexists. split; [vm_compute; reflexivity|].
  eexists. split; [vm_compute; reflexivity|].
  intros Hu. specialize (Hu "Team" "team").
  assert ("Team" = "team") as E by (apply Hu; vm_compute; eauto). discriminate E.
Qed.
