(* ===== verification/KmipHandlers.v ===== *)
(** * The KMIP operation handlers ([craton-hsm-kmip/src/operations.rs],
    lines 850-2015, and the dispatcher of [server.rs])

    The handlers are written against the [KmipKeyStore] trait, which is the class
    [KmipKeyStore] here: its operations, and in [KmipKeyStoreLaws] what the
    handlers rely on.  [InMemoryKeyStore] is the instance.  The operating system
    enters through [OsEnv]: the clock reading, the random number generator
    ([OsRng::try_fill_bytes], which may fail) and HKDF-SHA256 of the [hkdf] crate. *)

From coqutil Require Import Byte.
From stdpp Require Import prelude gmap strings list pretty.
From Stdlib Require Import ZArith Lia.
From S2P Require Import Prelude RustStd KmipTypes KmipStore.
Import ObjectType Operation Status Reason Attr.
Local Open Scope Z_scope.
Local Open Scope string_scope.

(** ** The trait *)

Abbreviation Attrs := (gmap string KmipAttributeValue).

Class KmipKeyStore (S : Type) := {
  ks_create : Z -> KmipObjectType -> list byte -> Attrs -> S -> string * S;
  ks_get : string -> S -> option KmipStoredObject;
  ks_activate : Z -> string -> S -> result unit KmipResultReason * S;
  ks_revoke : Z -> string -> S -> result unit KmipResultReason * S;
  ks_destroy : Z -> string -> S -> result unit KmipResultReason * S;
  ks_locate : Attrs -> S -> list string;
  ks_get_attributes : string -> S -> option (list KmipAttribute);
  ks_register : Z -> string -> KmipObjectType -> option (list byte) -> Attrs -> S ->
    result string KmipResultReason * S;
  ks_add_attributes : Z -> string -> Attrs -> S -> result unit KmipResultReason * S;
  ks_modify_attributes : Z -> string -> Attrs -> S -> result unit KmipResultReason * S;
  ks_delete_attributes : Z -> string -> list string -> S -> result unit KmipResultReason * S;
  ks_decrement_usage_counter : Z -> string -> S -> option Z * S;
  ks_with_object_acl_probe : string -> (KmipStoredObject -> bool) -> S -> option bool;
}.

#[global] Instance InMemoryKeyStore_KmipKeyStore `{MapIter} : KmipKeyStore InMemoryKeyStore := {|
  ks_create := create;
  ks_get := get;
  ks_activate := activate;
  ks_revoke := revoke;
  ks_destroy := destroy;
  ks_locate := locate;
  ks_get_attributes := get_attributes;
  ks_register := register;
  ks_add_attributes := add_attributes;
  ks_modify_attributes := modify_attributes;
  ks_delete_attributes := delete_attributes;
  ks_decrement_usage_counter := decrement_usage_counter;
  ks_with_object_acl_probe := with_object_acl_probe;
|}.

(** ** Requests and responses *)

Record KmipRequest : Type := mkRequest {
  req_operation : KmipOperation;
  req_unique_id : option string;
  req_attributes : list KmipAttribute;
  req_caller_identity : option string;
  req_strict_owner_acl : bool;
}.

Record KmipResponse : Type := mkResponse {
  resp_status : KmipResultStatus;
  resp_reason : option KmipResultReason;
  resp_message : option string;
  resp_unique_id : option string;
  resp_object_type : option KmipObjectType;
  resp_key_material : option (list byte);
  resp_attributes : list KmipAttribute;
  resp_located_ids : list string;
}.

Definition KmipResponse_success (unique_id : string) : KmipResponse :=
  mkResponse Success None None (Some unique_id) None None [] [].
Definition KmipResponse_error (reason : KmipResultReason) (msg : string) : KmipResponse :=
  mkResponse OperationFailed (Some reason) (Some msg) None None None [] [].
Definition KmipResponse_success_bare : KmipResponse :=
  mkResponse Success None None None None None [] [].

(** Assignments to fields of a response. *)
Definition set_object_type (ot : KmipObjectType) (r : KmipResponse) : KmipResponse :=
  mkResponse (resp_status r) (resp_reason r) (resp_message r) (resp_unique_id r) (Some ot)
    (resp_key_material r) (resp_attributes r) (resp_located_ids r).
Definition set_key_material (km : option (list byte)) (r : KmipResponse) : KmipResponse :=
  mkResponse (resp_status r) (resp_reason r) (resp_message r) (resp_unique_id r)
    (resp_object_type r) km (resp_attributes r) (resp_located_ids r).
Definition set_attributes (a : list KmipAttribute) (r : KmipResponse) : KmipResponse :=
  mkResponse (resp_status r) (resp_reason r) (resp_message r) (resp_unique_id r)
    (resp_object_type r) (resp_key_material r) a (resp_located_ids r).
Definition set_located_ids (l : list string) (r : KmipResponse) : KmipResponse :=
  mkResponse (resp_status r) (resp_reason r) (resp_message r) (resp_unique_id r)
    (resp_object_type r) (resp_key_material r) (resp_attributes r) l.

(** [iter().map(..).collect()] into a [HashMap]: the last binding of a name wins. *)
Definition collect_attributes (l : list KmipAttribute) : Attrs :=
  foldl (fun m a => <[attr_name a := attr_value a]> m) ∅ l.

(** ** Capabilities *)

Definition SUPPORTED_OPERATIONS : list KmipOperation :=
  [ Create; Get; Activate; Revoke; Destroy; Query; GetAttributes; Register; Locate; Operation.Check;
    AddAttribute; ModifyAttribute; DeleteAttribute; DeriveKey; RngRetrieve ].
Definition SUPPORTED_OBJECT_TYPES : list KmipObjectType := [SymmetricKey; PublicKey; PrivateKey].

(** ** Owner access control *)

(** The bytes of both strings, zero-padded to the longer one, are compared
    without an early exit. *)
Definition ct_str_eq (a b : string) : bool :=
  let aa := map byte.unsigned (as_bytes a) in
  let bb := map byte.unsigned (as_bytes b) in
  let max_len := Nat.max (length aa) (length bb) in
  let diff := foldl (fun diff i =>
    Z.lor diff (Z.lxor (default 0 (aa !! i)) (default 0 (bb !! i)))) 0 (seq 0 max_len) in
  let len_mismatch := negb (Z.lxor (len aa) (len bb) =? 0)%Z in
  (0 =? diff)%Z && negb len_mismatch.

Definition check_owner_acl_with_options (obj : KmipStoredObject)
    (caller_identity : option string) (strict_owner_acl : bool) : result unit KmipResponse :=
  match obj_attributes obj !! "owner" with
  | Some (Text owner) =>
      match caller_identity with
      | Some caller =>
          if ct_str_eq caller owner then Ok tt
          else Err (KmipResponse_error ObjectNotFound "object not found")
      | None => Err (KmipResponse_error ObjectNotFound "object not found")
      end
  | _ =>
      if strict_owner_acl && bool_decide (is_Some caller_identity)
      then Err (KmipResponse_error ObjectNotFound "object not found")
      else Ok tt
  end.

Definition check_owner_acl (obj : KmipStoredObject) (caller_identity : option string)
    : result unit KmipResponse :=
  check_owner_acl_with_options obj caller_identity false.

Definition check_owner_acl_for_request (obj : KmipStoredObject) (request : KmipRequest)
    : result unit KmipResponse :=
  check_owner_acl_with_options obj (req_caller_identity request) (req_strict_owner_acl request).

(** ** The environment of a request *)

Record OsEnv : Type := mkEnv {
  clock : Z;
  try_fill_bytes : nat -> option (list byte);
  hkdf_expand : option (list byte) -> list byte -> list byte -> nat -> option (list byte);
}.

Section Handlers.
Context {S : Type} `{KmipKeyStore S}.
Implicit Types (request : KmipRequest) (key_store : S).

Definition acl_checked_transition (id : string) (caller_identity : option string)
    (mutate : string -> S -> KmipResponse * S) (store : S) : KmipResponse * S :=
  match ks_get id store with
  | Some obj =>
      match check_owner_acl obj caller_identity with
      | Err resp => (resp, store)
      | Ok _ => mutate id store
      end
  | None => mutate id store
  end.

(** *** Create *)

(** The loop over the template attributes: algorithm, length, stored attributes. *)
Definition create_template (l : list KmipAttribute) : option Z * option Z * Attrs :=
  foldl (fun '(algo, key_len, attrs) a =>
    let attrs := <[attr_name a := attr_value a]> attrs in
    if String.eqb (attr_name a) "Cryptographic Algorithm" then
      (match attr_value a with Enum v => Some v | _ => algo end, key_len, attrs)
    else if String.eqb (attr_name a) "Cryptographic Length" then
      (algo, match attr_value a with Integer v => Some v | _ => key_len end, attrs)
    else (algo, key_len, attrs)) (None, None, ∅) l.

(** The early returns between the template and the key generation. *)
Definition algorithm_refusal (algo : option Z) (key_len : Z) : option KmipResponse :=
  match algo with
  | Some 1 =>
      if negb (key_len =? 128)%Z && negb (key_len =? 192)%Z then
        Some (KmipResponse_error InvalidField
          ("3DES requires key length 128 or 192 bits, got " +:+ pretty key_len))
      else None
  | Some 3 =>
      if negb (key_len =? 128)%Z && negb (key_len =? 192)%Z && negb (key_len =? 256)%Z then
        Some (KmipResponse_error InvalidField
          ("AES requires key length 128, 192, or 256 bits, got " +:+ pretty key_len))
      else None
  | Some alg =>
      Some (KmipResponse_error InvalidField
        ("unsupported algorithm 0x" +:+ fmt_hex 4 alg +:+ " for symmetric key creation"))
  | None => None
  end.

Definition length_refusal (key_len : Z) : option KmipResponse :=
  if (key_len <=? 0)%Z then
    Some (KmipResponse_error InvalidField
      ("Cryptographic Length must be positive, got " +:+ pretty key_len))
  else if negb (Z.rem key_len 8 =? 0)%Z || (key_len <? 128)%Z then
    Some (KmipResponse_error InvalidField
      "Cryptographic Length must be a multiple of 8 and at least 128 bits")
  else None.

Definition create_refusal (algo : option Z) (key_len : Z) : option KmipResponse :=
  match algorithm_refusal algo key_len with
  | Some r => Some r
  | None => length_refusal key_len
  end.

(** [if !attrs.contains_key("owner")] attach the caller. *)
Definition attach_owner (caller_identity : option string) (attrs : Attrs) : Attrs :=
  match attrs !! "owner", caller_identity with
  | None, Some caller => <["owner" := Text caller]> attrs
  | _, _ => attrs
  end.

Definition process_create (env : OsEnv) request key_store : KmipResponse * S :=
  let '(algo, key_len, attrs) := create_template (req_attributes request) in
  match key_len with
  | None =>
      (KmipResponse_error InvalidField "Create requires an explicit Cryptographic Length attribute",
       key_store)
  | Some key_len =>
      match create_refusal algo key_len with
      | Some resp => (resp, key_store)
      | None =>
          let attrs := attach_owner (req_caller_identity request) attrs in
          let byte_len := Z.to_nat (key_len / 8) in
          match try_fill_bytes env byte_len with
          | None => (KmipResponse_error CryptographicFailure "OS RNG unavailable", key_store)
          | Some material =>
              let '(id, key_store) := ks_create (clock env) SymmetricKey material attrs key_store in
              (set_object_type SymmetricKey (KmipResponse_success id), key_store)
          end
      end
  end.

(** *** Get, and the lifecycle operations *)

Definition process_get request key_store : KmipResponse * S :=
  match req_unique_id request with
  | None => (KmipResponse_error InvalidMessage "Get requires a UniqueIdentifier", key_store)
  | Some id =>
      match ks_get id key_store with
      | Some obj =>
          if bool_decide (obj_state obj = Destroyed)
          then (KmipResponse_error ObjectNotFound "object has been destroyed", key_store)
          else match check_owner_acl_for_request obj request with
          | Err resp => (resp, key_store)
          | Ok _ =>
              (set_key_material (obj_key_material obj)
                 (set_object_type (obj_object_type obj) (KmipResponse_success (obj_id obj))),
               key_store)
          end
      | None => (KmipResponse_error ObjectNotFound "object not found", key_store)
      end
  end.

Definition process_activate (env : OsEnv) request key_store : KmipResponse * S :=
  match req_unique_id request with
  | None => (KmipResponse_error InvalidMessage "Activate requires a UniqueIdentifier", key_store)
  | Some id =>
      acl_checked_transition id (req_caller_identity request) (fun id store =>
        match ks_activate (clock env) id store with
        | (Ok _, store) => (KmipResponse_success id, store)
        | (Err reason, store) => (KmipResponse_error reason ("activate failed for " +:+ id), store)
        end) key_store
  end.

Definition process_revoke (env : OsEnv) request key_store : KmipResponse * S :=
  match req_unique_id request with
  | None => (KmipResponse_error InvalidMessage "Revoke requires a UniqueIdentifier", key_store)
  | Some id =>
      acl_checked_transition id (req_caller_identity request) (fun id store =>
        match ks_revoke (clock env) id store with
        | (Ok _, store) => (KmipResponse_success id, store)
        | (Err reason, store) => (KmipResponse_error reason ("revoke failed for " +:+ id), store)
        end) key_store
  end.

Definition process_destroy (env : OsEnv) request key_store : KmipResponse * S :=
  match req_unique_id request with
  | None => (KmipResponse_error InvalidMessage "Destroy requires a UniqueIdentifier", key_store)
  | Some id =>
      acl_checked_transition id (req_caller_identity request) (fun id store =>
        match ks_destroy (clock env) id store with
        | (Ok _, store) => (KmipResponse_success id, store)
        | (Err reason, store) => (KmipResponse_error reason ("destroy failed for " +:+ id), store)
        end) key_store
  end.

Definition process_query request key_store : KmipResponse * S :=
  (set_located_ids
     (map (fun op => "OP:" +:+ KmipOperation_fmt op) SUPPORTED_OPERATIONS
      ++ map (fun ot => "OT:" +:+ KmipObjectType_fmt ot) SUPPORTED_OBJECT_TYPES)
     KmipResponse_success_bare, key_store).

Definition process_get_attributes request key_store : KmipResponse * S :=
  match req_unique_id request with
  | None => (KmipResponse_error InvalidMessage "GetAttributes requires a UniqueIdentifier", key_store)
  | Some id =>
      match ks_get id key_store with
      | None => (KmipResponse_error ObjectNotFound "object not found", key_store)
      | Some obj =>
          match check_owner_acl_for_request obj request with
          | Err resp => (resp, key_store)
          | Ok _ =>
              match ks_get_attributes id key_store with
              | Some attrs => (set_attributes attrs (KmipResponse_success id), key_store)
              | None => (KmipResponse_error ObjectNotFound "object not found", key_store)
              end
          end
      end
  end.

(** *** Register *)

(** The loop over the request attributes; [Err] is the early return on an
    unknown object type. *)
Fixpoint register_template (l : list KmipAttribute)
    (object_type : KmipObjectType) (key_material : option (list byte)) (attrs : Attrs)
    : result (KmipObjectType * option (list byte) * Attrs) KmipResponse :=
  match l with
  | [] => Ok (object_type, key_material, attrs)
  | a :: l =>
      let attrs' := <[attr_name a := attr_value a]> attrs in
      if String.eqb (attr_name a) "Object Type" then
        match attr_value a with
        | Enum v =>
            match KmipObjectType_from_u32 v with
            | Some ot => register_template l ot key_material attrs'
            | None => Err (KmipResponse_error InvalidField
                        ("unknown Object Type enum value: 0x" +:+ fmt_hex 8 v))
            end
        | _ => register_template l object_type key_material attrs'
        end
      else if String.eqb (attr_name a) "Key Material" then
        match attr_value a with
        | Bytes b => register_template l object_type (Some b) attrs
        | _ => register_template l object_type key_material attrs
        end
      else register_template l object_type key_material attrs'
  end.

Definition process_register (env : OsEnv) request key_store : KmipResponse * S :=
  match req_unique_id request with
  | None => (KmipResponse_error InvalidMessage "Register requires a UniqueIdentifier", key_store)
  | Some id =>
      match (match ks_get id key_store with
             | Some existing => check_owner_acl_for_request existing request
             | None => Ok tt
             end) with
      | Err resp => (resp, key_store)
      | Ok _ =>
          match register_template (req_attributes request) SymmetricKey None ∅ with
          | Err resp => (resp, key_store)
          | Ok (object_type, key_material, attrs) =>
              let attrs := attach_owner (req_caller_identity request) attrs in
              match ks_register (clock env) id object_type key_material attrs key_store with
              | (Ok new_id, key_store) =>
                  (set_object_type object_type (KmipResponse_success new_id), key_store)
              | (Err reason, key_store) => (KmipResponse_error reason "register failed", key_store)
              end
          end
      end
  end.

(** *** Check and the attribute operations *)

Definition process_check (env : OsEnv) request key_store : KmipResponse * S :=
  match req_unique_id request with
  | None => (KmipResponse_error InvalidMessage "Check requires a UniqueIdentifier", key_store)
  | Some id =>
      match ks_get id key_store with
      | None => (KmipResponse_error ObjectNotFound "object not found", key_store)
      | Some obj =>
          if bool_decide (obj_state obj = Destroyed)
          then (KmipResponse_error ObjectNotFound "object has been destroyed", key_store)
          else match check_owner_acl_for_request obj request with
          | Err resp => (resp, key_store)
          | Ok _ =>
              let resp := KmipResponse_success (obj_id obj) in
              match ks_decrement_usage_counter (clock env) (obj_id obj) key_store with
              | (Some remaining, key_store) =>
                  (set_attributes [mkAttribute USAGE_COUNTER (LongInteger remaining)] resp, key_store)
              | (None, key_store) => (resp, key_store)
              end
          end
      end
  end.

Fixpoint first_refusal (refuse : KmipAttribute -> option KmipResponse) (l : list KmipAttribute)
    : option KmipResponse :=
  match l with
  | [] => None
  | a :: l => match refuse a with Some r => Some r | None => first_refusal refuse l end
  end.

(** The body of the validation loop of [process_add_attribute]. *)
Definition add_attribute_refusal `{MapIter} (obj : KmipStoredObject) (a : KmipAttribute)
    : option KmipResponse :=
  let name := attr_name a in
  let cs := chars name in
  if bool_decide (trim cs = []) || negb (bool_decide (trim cs = cs)) then
    Some (KmipResponse_error InvalidField "attribute name must not have surrounding whitespace")
  else if existsb (fun c => (c =? 9)%Z || (c =? 10)%Z || (c =? 13)%Z) cs then
    Some (KmipResponse_error InvalidField "attribute name must not contain control whitespace")
  else if is_immutable_attribute name then
    Some (KmipResponse_error PermissionDenied
      ("attribute '" +:+ name +:+ "' is immutable via AddAttribute"))
  else if has_name_ci (obj_attributes obj) name then
    Some (KmipResponse_error InvalidField
      ("attribute '" +:+ name +:+ "' already exists (case-insensitive); use ModifyAttribute instead"))
  else None.

Definition process_add_attribute `{MapIter} (env : OsEnv) request key_store : KmipResponse * S :=
  match req_unique_id request with
  | None => (KmipResponse_error InvalidMessage "AddAttribute requires a UniqueIdentifier", key_store)
  | Some id =>
      if bool_decide (req_attributes request = [])
      then (KmipResponse_error InvalidField "AddAttribute requires at least one attribute", key_store)
      else match ks_get id key_store with
      | None => (KmipResponse_error ObjectNotFound "object not found", key_store)
      | Some obj =>
          match check_owner_acl_for_request obj request with
          | Err resp => (resp, key_store)
          | Ok _ =>
              match first_refusal (add_attribute_refusal obj) (req_attributes request) with
              | Some resp => (resp, key_store)
              | None =>
                  match ks_add_attributes (clock env) id
                          (collect_attributes (req_attributes request)) key_store with
                  | (Ok _, key_store) => (KmipResponse_success id, key_store)
                  | (Err reason, key_store) =>
                      (KmipResponse_error reason "add_attribute failed", key_store)
                  end
              end
          end
      end
  end.

Definition modify_attribute_refusal (obj : KmipStoredObject) (a : KmipAttribute)
    : option KmipResponse :=
  let name := attr_name a in
  if is_immutable_attribute name then
    Some (KmipResponse_error PermissionDenied ("attribute '" +:+ name +:+ "' is immutable"))
  else if negb (bool_decide (is_Some (obj_attributes obj !! name))) then
    Some (KmipResponse_error ItemNotFound
      ("attribute '" +:+ name +:+ "' does not exist; use AddAttribute"))
  else None.

Definition process_modify_attribute (env : OsEnv) request key_store : KmipResponse * S :=
  match req_unique_id request with
  | None => (KmipResponse_error InvalidMessage "ModifyAttribute requires a UniqueIdentifier", key_store)
  | Some id =>
      if bool_decide (req_attributes request = [])
      then (KmipResponse_error InvalidField "ModifyAttribute requires at least one attribute", key_store)
      else match ks_get id key_store with
      | None => (KmipResponse_error ObjectNotFound "object not found", key_store)
      | Some obj =>
          match check_owner_acl_for_request obj request with
          | Err resp => (resp, key_store)
          | Ok _ =>
              match first_refusal (modify_attribute_refusal obj) (req_attributes request) with
              | Some resp => (resp, key_store)
              | None =>
                  match ks_modify_attributes (clock env) id
                          (collect_attributes (req_attributes request)) key_store with
                  | (Ok _, key_store) => (KmipResponse_success id, key_store)
                  | (Err reason, key_store) =>
                      (KmipResponse_error reason "modify_attribute failed", key_store)
                  end
              end
          end
      end
  end.

Definition delete_attribute_refusal (obj : KmipStoredObject) (a : KmipAttribute)
    : option KmipResponse :=
  let n := attr_name a in
  if is_immutable_attribute n then
    Some (KmipResponse_error PermissionDenied ("attribute '" +:+ n +:+ "' is immutable"))
  else if negb (bool_decide (is_Some (obj_attributes obj !! n))) then
    Some (KmipResponse_error ItemNotFound ("attribute '" +:+ n +:+ "' does not exist"))
  else None.

Definition process_delete_attribute (env : OsEnv) request key_store : KmipResponse * S :=
  match req_unique_id request with
  | None => (KmipResponse_error InvalidMessage "DeleteAttribute requires a UniqueIdentifier", key_store)
  | Some id =>
      if bool_decide (req_attributes request = [])
      then (KmipResponse_error InvalidField "DeleteAttribute requires at least one attribute name",
            key_store)
      else match ks_get id key_store with
      | None => (KmipResponse_error ObjectNotFound "object not found", key_store)
      | Some obj =>
          match check_owner_acl_for_request obj request with
          | Err resp => (resp, key_store)
          | Ok _ =>
              match first_refusal (delete_attribute_refusal obj) (req_attributes request) with
              | Some resp => (resp, key_store)
              | None =>
                  match ks_delete_attributes (clock env) id
                          (map attr_name (req_attributes request)) key_store with
                  | (Ok _, key_store) => (KmipResponse_success id, key_store)
                  | (Err reason, key_store) =>
                      (KmipResponse_error reason "delete_attribute failed", key_store)
                  end
              end
          end
      end
  end.

(** *** Locate *)

Definition LOCATE_MAX_RESULTS_DEFAULT : Z := 1000.
Definition LOCATE_TRUNCATED_ATTR : string := "Locate-Truncated".

(** The loop over the candidates: [(filtered, truncated)]. *)
Fixpoint locate_filter (caller : option string) (key_store : S) (ids filtered : list string)
    : list string * bool :=
  match ids with
  | [] => (filtered, false)
  | id :: ids =>
      if (LOCATE_MAX_RESULTS_DEFAULT <=? len filtered)%Z then (filtered, true)
      else if default false
                (ks_with_object_acl_probe id (fun obj => is_ok (check_owner_acl obj caller)) key_store)
      then locate_filter caller key_store ids (filtered ++ [id])
      else locate_filter caller key_store ids filtered
  end.

Definition process_locate request key_store : KmipResponse * S :=
  let ids := ks_locate (collect_attributes (req_attributes request)) key_store in
  let '(filtered, truncated) := locate_filter (req_caller_identity request) key_store ids [] in
  let resp := set_located_ids filtered KmipResponse_success_bare in
  (if truncated then set_attributes [mkAttribute LOCATE_TRUNCATED_ATTR (Boolean true)] resp
   else resp, key_store).

(** *** Operations without key store: stubs and random numbers *)

Definition STUB_OP_REASON : string := "operation not implemented in this build".
Definition stub_response (op : KmipOperation) : KmipResponse :=
  KmipResponse_error OperationNotSupported (KmipOperation_fmt op +:+ ": " +:+ STUB_OP_REASON).

Definition process_rng_retrieve (env : OsEnv) request key_store : KmipResponse * S :=
  let bits := foldl (fun bits a =>
    if String.eqb (attr_name a) "Cryptographic Length"
    then match attr_value a with Integer v => v | _ => bits end else bits)
    256 (req_attributes request) in
  if (bits <=? 0)%Z || negb (Z.rem bits 8 =? 0)%Z then
    (KmipResponse_error InvalidField
       "RNG_Retrieve length must be positive and a multiple of 8 bits", key_store)
  else
    let want := bits / 8 in
    if (16 * 1024 <? want)%Z then
      (KmipResponse_error InvalidField "RNG_Retrieve length exceeds server cap (16 KiB)", key_store)
    else match try_fill_bytes env (Z.to_nat want) with
    | None => (KmipResponse_error CryptographicFailure "OS RNG unavailable", key_store)
    | Some buf =>
        (set_attributes [mkAttribute "Data" (Bytes buf)] KmipResponse_success_bare, key_store)
    end.

(** *** DeriveKey *)

Definition derive_params (l : list KmipAttribute) : option Z * list byte * list byte :=
  foldl (fun '(out_bits, salt, info) a =>
    if String.eqb (attr_name a) "Cryptographic Length" then
      (match attr_value a with Integer v => Some v | _ => out_bits end, salt, info)
    else if String.eqb (attr_name a) "Salt" then
      (out_bits, match attr_value a with Bytes b => b | _ => salt end, info)
    else if String.eqb (attr_name a) "Info" then
      (out_bits, salt, match attr_value a with Bytes b => b | _ => info end)
    else (out_bits, salt, info)) (None, [], []) l.

Definition derive_length_ok (b : Z) : bool :=
  (0 <? b)%Z && (Z.rem b 8 =? 0)%Z && (b <=? 8192)%Z.

Definition process_derive_key (env : OsEnv) request key_store : KmipResponse * S :=
  match req_unique_id request with
  | None => (KmipResponse_error InvalidMessage "DeriveKey requires a UniqueIdentifier", key_store)
  | Some id =>
      let '(out_bits, salt, info) := derive_params (req_attributes request) in
      match (match out_bits with
             | Some b => if derive_length_ok b then Some b else None
             | None => None
             end) with
      | None =>
          (KmipResponse_error InvalidField
             "DeriveKey requires a positive Cryptographic Length (multiple of 8, <= 8192 bits)",
           key_store)
      | Some out_bits =>
          match (match ks_get id key_store with
                 | Some o => if bool_decide (obj_state o = Destroyed) then None else Some o
                 | None => None
                 end) with
          | None => (KmipResponse_error ObjectNotFound "DeriveKey: input key not found", key_store)
          | Some ikm_obj =>
              match check_owner_acl_for_request ikm_obj request with
              | Err resp => (resp, key_store)
              | Ok _ =>
                  match obj_key_material ikm_obj with
                  | None | Some [] =>
                      (KmipResponse_error CryptographicFailure "DeriveKey: input key has no material",
                       key_store)
                  | Some ikm =>
                      match hkdf_expand env (if bool_decide (salt = []) then None else Some salt)
                              ikm info (Z.to_nat (out_bits / 8)) with
                      | None =>
                          (KmipResponse_error CryptographicFailure "DeriveKey: HKDF expand failed",
                           key_store)
                      | Some okm =>
                          let attrs : Attrs :=
                            match req_caller_identity request with
                            | Some caller => {[ "owner" := Text caller ]}
                            | None => ∅
                            end in
                          let attrs := <["Cryptographic Length" := Integer out_bits]> attrs in
                          let attrs := <["Derived From" := Text id]> attrs in
                          let '(new_id, key_store) :=
                            ks_create (clock env) SymmetricKey okm attrs key_store in
                          (set_object_type SymmetricKey (KmipResponse_success new_id), key_store)
                      end
                  end
              end
          end
      end
  end.

(** ** The dispatcher ([server.rs]) *)

Definition dispatch_operation `{MapIter} (env : OsEnv) request key_store : KmipResponse * S :=
  match req_operation request with
  | Create => process_create env request key_store
  | CreateKeyPair => (stub_response CreateKeyPair, key_store)
  | Get => process_get request key_store
  | Activate => process_activate env request key_store
  | Revoke => process_revoke env request key_store
  | Destroy => process_destroy env request key_store
  | Query => process_query request key_store
  | GetAttributes => process_get_attributes request key_store
  | Register => process_register env request key_store
  | Locate => process_locate request key_store
  | Operation.Check => process_check env request key_store
  | AddAttribute => process_add_attribute env request key_store
  | ModifyAttribute => process_modify_attribute env request key_store
  | DeleteAttribute => process_delete_attribute env request key_store
  | DeriveKey => process_derive_key env request key_store
  | RngRetrieve => process_rng_retrieve env request key_store
  | Encrypt => (stub_response Encrypt, key_store)
  | Decrypt => (stub_response Decrypt, key_store)
  | Sign => (stub_response Sign, key_store)
  | SignatureVerify => (stub_response SignatureVerify, key_store)
  | MAC => (stub_response MAC, key_store)
  | MACVerify => (stub_response MACVerify, key_store)
  end.

End Handlers.

Definition operation_requires_acl (op : KmipOperation) : bool :=
  match op with
  | Destroy | Revoke | Activate | Get | GetAttributes | AddAttribute | ModifyAttribute
  | DeleteAttribute | DeriveKey | Register | Query | Locate | Encrypt | Decrypt | Sign
  | SignatureVerify | MAC | MACVerify => true
  | _ => false
  end.
