(* ===== verification/KmipHandlersProofs.v ===== *)
(** * Correctness of the KMIP handlers

    [KmipKeyStoreLaws] is what a key store promises to the handlers; the tenant
    isolation theorem is proved for every store with these laws.  The in-memory
    store has them, and every request it serves does at most one operation
    [store_op] on an object the caller may access, so that the theorems of
    KmipStoreProofs apply to whole requests. *)

From coqutil Require Import Byte.
From stdpp Require Import prelude gmap strings list pretty relations.
From Stdlib Require Import ZArith Lia.
From S2P Require Import Prelude RustStd KmipTypes KmipStore KmipStoreProofs KmipHandlers.
Import ObjectType Operation Status Reason Attr.
Local Open Scope Z_scope.
Local Open Scope string_scope.

(** ** The constant-time comparison decides equality *)

Lemma foldl_lor_zero {A} (f : A -> Z) l d :
  foldl (fun d i => Z.lor d (f i)) d l = 0 <-> d = 0 /\ Forall (fun i => f i = 0) l.
Proof.
  revert d. induction l as [|i l IH]; intros d; cbn; [split; [by intros ->|by intros [-> _]]|].
  rewrite IH, Z.lor_eq_0_iff, Forall_cons. tauto.
Qed.

Lemma map_unsigned_inj (a b : list byte) : map byte.unsigned a = map byte.unsigned b -> a = b.
Proof.
  revert b. induction a as [|x a IH]; intros [|y b] E; try done. cbn in E.
  injection E as Exy E. f_equal; [|by apply IH].
  by rewrite <- (byte.of_Z_unsigned x), <- (byte.of_Z_unsigned y), Exy.
Qed.

Lemma ct_str_eq_spec a b : ct_str_eq a b = true <-> a = b.
Proof.
  unfold ct_str_eq. set (aa := map byte.unsigned (as_bytes a)).
  set (bb := map byte.unsigned (as_bytes b)).
  rewrite andb_true_iff, negb_true_iff, negb_false_iff, !Z.eqb_eq, Z.lxor_eq_0_iff.
  rewrite (eq_comm 0), (foldl_lor_zero (fun i => Z.lxor (default 0 (aa !! i)) (default 0 (bb !! i)))).
  split.
  - intros [[_ Hall] Hlen]. apply as_bytes_inj, map_unsigned_inj. fold aa bb.
    assert (length aa = length bb) as Hl by (unfold len in Hlen; lia).
    apply list_eq_same_length with (length aa); [done..|]. intros i x y Hi Hx Hy.
    rewrite Forall_forall in Hall. specialize (Hall i).
    rewrite Hx, Hy, Z.lxor_eq_0_iff in Hall. apply Hall, elem_of_seq. lia.
  - intros ->. subst aa bb. split; [split; [done|]|done].
    apply Forall_forall. intros i _. apply Z.lxor_nilpotent.
Qed.

(** Ct_str_eq, which touches every byte of the longer string whatever the
    inputs, returns true exactly on equal strings; the zero padding cannot make
    strings of different lengths compare equal. *)
Theorem ct_str_eq_correct a b : ct_str_eq a b = true <-> a = b.
Proof. exact (ct_str_eq_spec a b). Qed.

(** ** The owner check *)

Definition not_found : KmipResponse := KmipResponse_error ObjectNotFound "object not found".

Lemma acl_foreign o w caller strict :
  obj_attributes o !! "owner" = Some (Text w) -> caller <> Some w ->
  check_owner_acl_with_options o caller strict = Err not_found.
Proof.
  intros Ho Hc. unfold check_owner_acl_with_options. rewrite Ho.
  destruct caller as [c|]; [|done]. case_if; [|done].
  apply ct_str_eq_spec in E. congruence.
Qed.

Lemma acl_owner o w strict :
  obj_attributes o !! "owner" = Some (Text w) ->
  check_owner_acl_with_options o (Some w) strict = Ok tt.
Proof.
  intros Ho. unfold check_owner_acl_with_options. rewrite Ho.
  by rewrite (proj2 (ct_str_eq_spec w w)).
Qed.

(** ** What a key store promises *)

Class KmipKeyStoreLaws (S : Type) `{KmipKeyStore S} := {
  ks_inv : S -> Prop;
  law_get_id s id o : ks_inv s -> ks_get id s = Some o -> obj_id o = id;
  law_probe s id f : ks_with_object_acl_probe id f s = f <$> ks_get id s;
  law_create raw ot km a s id s' : ks_create raw ot km a s = (id, s') ->
    (exists t, ks_get id s' = Some (mkObject id ot PreActive (Some km) a t t))
    /\ forall j, j <> id -> ks_get j s' = ks_get j s;
  law_activate raw id s r s' j : ks_activate raw id s = (r, s') -> j <> id -> ks_get j s' = ks_get j s;
  law_revoke raw id s r s' j : ks_revoke raw id s = (r, s') -> j <> id -> ks_get j s' = ks_get j s;
  law_destroy raw id s r s' j : ks_destroy raw id s = (r, s') -> j <> id -> ks_get j s' = ks_get j s;
  law_register raw id ot km a s r s' j : ks_register raw id ot km a s = (r, s') ->
    j <> id -> ks_get j s' = ks_get j s;
  law_add_attributes raw id a s r s' j : ks_add_attributes raw id a s = (r, s') ->
    j <> id -> ks_get j s' = ks_get j s;
  law_modify_attributes raw id a s r s' j : ks_modify_attributes raw id a s = (r, s') ->
    j <> id -> ks_get j s' = ks_get j s;
  law_delete_attributes raw id ns s r s' j : ks_delete_attributes raw id ns s = (r, s') ->
    j <> id -> ks_get j s' = ks_get j s;
  law_decrement raw id s r s' j : ks_decrement_usage_counter raw id s = (r, s') ->
    j <> id -> ks_get j s' = ks_get j s;
}.

#[export] Hint Resolve law_activate law_revoke law_destroy law_register law_add_attributes
  law_modify_attributes law_delete_attributes law_decrement : rust.

(** ** Tenant isolation, for every store with the laws *)

Section Isolation.
Context {S : Type} `{KmipKeyStoreLaws S} `{MapIter}.
Context (env : OsEnv).

(** Operations whose unique identifier names an existing object. *)
Definition targets_object (op : KmipOperation) : bool :=
  match op with
  | Get | Activate | Revoke | Destroy | GetAttributes | Register | Operation.Check
  | AddAttribute | ModifyAttribute | DeleteAttribute | DeriveKey => true
  | _ => false
  end.

(** Operations that store an object under an identifier the store chooses. *)
Definition issues_id (op : KmipOperation) : bool :=
  match op with Create | DeriveKey => true | _ => false end.

(** A refusal carries nothing of the object. *)
Definition refused (resp : KmipResponse) : Prop :=
  exists r m, resp = KmipResponse_error r m /\ (r = ObjectNotFound \/ r = InvalidField).

Lemma refused_error r m : r = ObjectNotFound \/ r = InvalidField -> refused (KmipResponse_error r m).
Proof. unfold refused. eauto. Qed.
Lemma refused_not_found : refused not_found.
Proof. apply refused_error. by left. Qed.
Hint Resolve refused_error refused_not_found : rust.

Variables (j : string) (o : KmipStoredObject) (w : string).
Hypothesis Hown : obj_attributes o !! "owner" = Some (Text w).

(** Closes the branches of a handler: the denied branch, the branches that leave
    the store alone, and the calls framed by the laws. *)
Ltac acl_denied Hj Hc :=
  rewrite ?Hj; unfold check_owner_acl_for_request, check_owner_acl;
  rewrite ?(acl_foreign o w _ _ Hown Hc).

Lemma targeted_refused req s :
  ks_get j s = Some o -> req_caller_identity req <> Some w ->
  targets_object (req_operation req) = true -> req_unique_id req = Some j ->
  exists resp, dispatch_operation env req s = (resp, s) /\ refused resp.
Proof.
  intros Hj Hc Ht Hid. unfold dispatch_operation.
  destruct (req_operation req); try discriminate Ht;
    unfold process_get, process_activate, process_revoke, process_destroy, process_get_attributes,
      process_register, process_check, process_add_attribute, process_modify_attribute,
      process_delete_attribute, process_derive_key, acl_checked_transition;
    rewrite Hid; acl_denied Hj Hc; try (destruct (derive_params _) as [[[] ?] ?]);
    repeat case_match; simplify_eq;
    try match goal with Hx : check_owner_acl_with_options _ _ _ = _ |- _ =>
          rewrite (acl_foreign _ w) in Hx by done; simplify_eq end;
    eauto 6 with rust.
Qed.

Lemma untargeted_unchanged req s resp s' :
  ks_inv s -> ks_get j s = Some o ->
  (targets_object (req_operation req) = true -> req_unique_id req <> Some j) ->
  (issues_id (req_operation req) = true -> resp_unique_id resp <> Some j) ->
  dispatch_operation env req s = (resp, s') -> ks_get j s' = ks_get j s.
Proof.
  intros Inv Hj Hid Hnew Hd. unfold dispatch_operation in Hd.
  destruct (req_operation req); cbn in Hnew, Hid;
    unfold process_create, process_get, process_activate, process_revoke, process_destroy,
      process_query, process_get_attributes, process_register, process_locate, process_check,
      process_add_attribute, process_modify_attribute, process_delete_attribute,
      process_derive_key, process_rng_retrieve, acl_checked_transition in Hd;
    destruct (req_unique_id req) as [id|] eqn:Eid;
    repeat case_match; simplify_eq; try done;
    try (eapply law_create; [eassumption|]; intros ->; by apply Hnew);
    assert (j <> id) by (intros ->; by apply Hid);
    try (erewrite law_decrement; [done|eassumption|]; erewrite law_get_id by eassumption; done);
    eauto with rust.
Qed.

Lemma locate_filter_visible caller s ids acc id :
  id ∈ (locate_filter caller s ids acc).1 ->
  id ∈ acc \/ exists x, ks_get id s = Some x /\ check_owner_acl x caller = Ok tt.
Proof.
  revert acc. induction ids as [|i ids IH]; intros acc; cbn; [by left|].
  case_if; [by left|]. case_if; [|apply IH].
  intros [[Hin|Hi]%elem_of_app|Hx]%IH; [by left| |by right].
  apply list_elem_of_singleton in Hi as ->. right.
  rewrite law_probe in E0. destruct (ks_get i s) as [x|]; [|done]. exists x. split; [done|].
  cbn in E0. by destruct (check_owner_acl x caller) as [[]|].
Qed.

Lemma locate_hidden req s resp s' :
  ks_get j s = Some o -> req_caller_identity req <> Some w -> req_operation req = Locate ->
  dispatch_operation env req s = (resp, s') -> j ∉ resp_located_ids resp.
Proof.
  intros Hj Hc Ho Hd Hin. unfold dispatch_operation, process_locate in Hd. rewrite Ho in Hd.
  destruct (locate_filter _ _ _ _) as [filtered truncated] eqn:E.
  assert (j ∈ (locate_filter (req_caller_identity req) s
    (ks_locate (collect_attributes (req_attributes req)) s) []).1) as Hf.
  { rewrite E. destruct truncated; simplify_eq; done. }
  apply locate_filter_visible in Hf as [?%elem_of_nil|(x & Hx & Ha)]; [done|].
  simplify_eq. unfold check_owner_acl in Ha. by rewrite (acl_foreign _ w) in Ha.
Qed.

(** A helper that refuses builds an error response. *)
Definition error_response (r : KmipResponse) : Prop := exists c m, r = KmipResponse_error c m.

Ltac solve_error := repeat case_match; intros; simplify_eq; try done; by do 2 eexists.

Lemma acl_error x req r : check_owner_acl_for_request x req = Err r -> error_response r.
Proof. unfold check_owner_acl_for_request, check_owner_acl_with_options. solve_error. Qed.
Lemma acl_caller_error x c r : check_owner_acl x c = Err r -> error_response r.
Proof. unfold check_owner_acl, check_owner_acl_with_options. solve_error. Qed.
Lemma create_error a n r : create_refusal a n = Some r -> error_response r.
Proof. unfold create_refusal, algorithm_refusal, length_refusal. solve_error. Qed.
Lemma register_error l ot km a r : register_template l ot km a = Err r -> error_response r.
Proof. revert ot km a. induction l as [|x l IH]; intros ot km a; [done|]. cbn. repeat case_match; eauto; solve_error. Qed.
Lemma first_refusal_error f l r :
  (forall x r, f x = Some r -> error_response r) -> first_refusal f l = Some r -> error_response r.
Proof. intros Hf. induction l as [|x l IH]; [done|]. cbn. case_match eqn:E; [|done]. intros [= <-]. by eapply Hf. Qed.
Lemma add_error x a r : add_attribute_refusal x a = Some r -> error_response r.
Proof. unfold add_attribute_refusal. solve_error. Qed.
Lemma modify_error x a r : modify_attribute_refusal x a = Some r -> error_response r.
Proof. unfold modify_attribute_refusal. solve_error. Qed.
Lemma delete_error x a r : delete_attribute_refusal x a = Some r -> error_response r.
Proof. unfold delete_attribute_refusal. solve_error. Qed.

Hint Resolve acl_error acl_caller_error create_error register_error add_error modify_error delete_error : rust.
Hint Extern 2 (error_response _) => eapply first_refusal_error; [|eassumption]; intros ? ?; solve [eauto with rust] : rust.

Lemma error_no_ids r : error_response r -> resp_located_ids r = [] /\ resp_unique_id r = None.
Proof. by intros (c & m & ->). Qed.

(** Only Locate lists identifiers, and Query the capabilities. *)
Lemma no_located_ids req s resp s' :
  req_operation req <> Locate -> req_operation req <> Query ->
  dispatch_operation env req s = (resp, s') -> resp_located_ids resp = [].
Proof.
  intros Hop Hq Hd. unfold dispatch_operation in Hd. destruct (req_operation req); try done;
    unfold process_create, process_get, process_activate, process_revoke, process_destroy,
      process_query, process_get_attributes, process_register, process_check,
      process_add_attribute, process_modify_attribute, process_delete_attribute,
      process_derive_key, process_rng_retrieve, acl_checked_transition in Hd;
    repeat case_match; simplify_eq; try done; apply error_no_ids; eauto with rust.
Qed.

End Isolation.

#[export] Hint Resolve acl_error acl_caller_error create_error register_error : rust.

(** C2: tenant isolation.  Whatever request another caller (or an unauthenticated
    one) sends, and unless the request issues the identifier of the object itself, an
    object with an owner is left exactly as it was, it does not appear in that caller's
    Locate results, and a request that names it is refused without any of its data and
    without any effect on the store.  The exception is real: an object registered under an
    identifier that Create issues later is replaced (create_overwrites_registered). *)
Theorem owner_isolation {S : Type} `{KmipKeyStoreLaws S} `{MapIter} env req (s : S) resp s' j o w :
  ks_inv s -> ks_get j s = Some o ->
  obj_attributes o !! "owner" = Some (Text w) -> req_caller_identity req <> Some w ->
  dispatch_operation env req s = (resp, s') ->
  (issues_id (req_operation req) = true -> resp_unique_id resp <> Some j) ->
  ks_get j s' = Some o
  /\ (req_operation req = Locate -> j ∉ resp_located_ids resp)
  /\ (targets_object (req_operation req) = true -> req_unique_id req = Some j ->
      s' = s /\ refused resp).
Proof.
  intros Inv Hj Hown Hc Hd Hnew. split_and!.
  - destruct (decide (targets_object (req_operation req) = true /\ req_unique_id req = Some j))
      as [[Ht Hid]|Hn].
    + destruct (targeted_refused env j o w Hown req s Hj Hc Ht Hid) as (r & E & _). congruence.
    + rewrite <- Hj. eapply untargeted_unchanged; eauto.
  - intros Ho. by eapply locate_hidden.
  - intros Ht Hid.
    destruct (targeted_refused env j o w Hown req s Hj Hc Ht Hid) as (r & E & Hr).
    rewrite E in Hd. by simplify_eq.
Qed.

(** ** The in-memory store keeps the promises *)

Section InMemory.
Context `{MapIter}.

Lemma op_effect_frame raw id s s' j : op_effect raw id s s' -> j <> id -> get j s' = get j s.
Proof.
  unfold get. intros [|? ? _ _ _|? ? _ _ _] Hj; [done| |];
    rewrite objects_touch, lookup_insert_ne by done; [done|].
  unfold index_remove. by case_match.
Qed.

Lemma snd_frame {A} raw id s (r : A) s' j (out : A * InMemoryKeyStore) :
  op_effect raw id s out.2 -> out = (r, s') -> j <> id -> get j s' = get j s.
Proof. intros He -> Hj. by eapply op_effect_frame. Qed.

#[global] Instance InMemoryKeyStore_laws : KmipKeyStoreLaws InMemoryKeyStore.
Proof.
  refine {| ks_inv := store_core |}; try solve [intros; eapply snd_frame; [|eassumption|done]; eauto with rust].
  - intros s id o Inv Ho. apply (wf_id _ _ _ (core_objects _ Inv _ _ Ho)).
  - done.
  - intros raw ot km a s id s' E. split.
    + exists (Z.max raw (mono_floor s)). inversion E; subst. apply lookup_insert_eq.
    + intros j Hj. inversion E; subst. cbn in *. by apply lookup_insert_ne.
  - intros raw id ot km a s r s' j E Hj.
    assert (s' = (register raw id ot km a s).2) as -> by exact (eq_sym (f_equal snd E)).
    change (objects (register raw id ot km a s).2 !! j = objects s !! j). rewrite objects_register. case_match; [done|]. by apply lookup_insert_ne.
  - intros. eapply snd_frame; [|eassumption|done]. apply effect_add_attributes.
  - intros. eapply snd_frame; [|eassumption|done]. apply effect_modify_attributes.
Defined.

(** The object that an operation changes. *)
Definition op_target (op : store_op) : option string :=
  match op with
  | OpCreate _ _ _ _ => None
  | OpRegister _ id _ _ _ | OpActivate _ id | OpRevoke _ id | OpDestroy _ id | OpAddAttributes _ id _
  | OpModifyAttributes _ id _ | OpDeleteAttributes _ id _ | OpDecrement _ id => Some id
  end.

(** The operation of the store that serves an operation of the protocol. *)
Definition serves (kop : KmipOperation) (op : store_op) : bool :=
  match kop, op with
  | Create, OpCreate _ _ _ _ | DeriveKey, OpCreate _ _ _ _ | Register, OpRegister _ _ _ _ _ | Activate, OpActivate _ _
  | Revoke, OpRevoke _ _ | Destroy, OpDestroy _ _ | AddAttribute, OpAddAttributes _ _ _ | ModifyAttribute, OpModifyAttributes _ _ _
  | DeleteAttribute, OpDeleteAttributes _ _ _ | Operation.Check, OpDecrement _ _ => true
  | _, _ => false
  end.

(** The caller passes the owner check of the object. *)
Definition may_access (req : KmipRequest) (id : string) (s : InMemoryKeyStore) : Prop :=
  req_unique_id req = Some id /\ exists o, objects s !! id = Some o /\ check_owner_acl o (req_caller_identity req) = Ok tt.

(** ... or it registers an object where there is none. *)
Definition authorised (req : KmipRequest) (op : store_op) (s : InMemoryKeyStore) : Prop :=
  forall id, op_target op = Some id -> may_access req id s \/
    (req_unique_id req = Some id /\ objects s !! id = None /\ req_operation req = Register).

Lemma acl_request o req : check_owner_acl_for_request o req = Ok tt -> check_owner_acl o (req_caller_identity req) = Ok tt.
Proof.
  unfold check_owner_acl_for_request, check_owner_acl, check_owner_acl_with_options. repeat case_match; done.
Qed.

Lemma may_access_request req id s o :
  req_unique_id req = Some id -> get id s = Some o -> check_owner_acl_for_request o req = Ok tt -> may_access req id s.
Proof. intros Hid Ho Ha. split; [done|]. exists o. split; [done|]. by apply acl_request. Qed.
Lemma may_access_caller req id s o :
  req_unique_id req = Some id -> get id s = Some o -> check_owner_acl o (req_caller_identity req) = Ok tt -> may_access req id s.
Proof. intros. split; [done|]. by exists o. Qed.

(** The operations on a missing object do nothing. *)
Lemma transition_missing raw id s :
  get id s = None -> (activate raw id s).2 = s /\ (revoke raw id s).2 = s /\ (destroy raw id s).2 = s.
Proof. unfold get, activate, revoke, destroy. by intros ->. Qed.

(** A request changed nothing, or it did [op] with the right to. *)
Definition did (req : KmipRequest) (s s' : InMemoryKeyStore) : Prop :=
  s' = s \/ exists op, s' = apply_op op s /\ serves (req_operation req) op = true /\ authorised req op s.

Lemma did_access req s s' op id :
  s' = apply_op op s -> serves (req_operation req) op = true -> op_target op = Some id -> may_access req id s -> did req s s'.
Proof. intros -> Hs Ht Ha. right. exists op. split; [done|]. split; [done|]. intros i Hi. left. congruence. Qed.

Lemma did_new req s s' op :
  s' = apply_op op s -> serves (req_operation req) op = true -> op_target op = None -> did req s s'.
Proof. intros -> Hs Ht. right. exists op. split; [done|]. split; [done|]. intros i. by rewrite Ht. Qed.

Lemma did_register req s s' raw id ot km a :
  s' = (register raw id ot km a s).2 -> req_operation req = Register -> req_unique_id req = Some id ->
  match get id s with Some o => check_owner_acl_for_request o req = Ok tt | None => True end -> did req s s'.
Proof.
  intros -> Hop Hid Ha. right. exists (OpRegister raw id ot km a). split; [done|]. split; [by rewrite Hop|].
  intros i [= <-]. destruct (get id s) as [o|] eqn:E; [left; by eapply may_access_request|by right].
Qed.

(** The operation of the store that a call is. *)
Ltac did_call :=
  match goal with
  | E : create ?raw ?ot ?km ?a ?s = (_, ?s1) |- did _ _ ?s1 => apply (did_new _ _ _ (OpCreate raw ot km a))
  | E : activate ?raw ?id ?s = (_, ?s1) |- did _ _ ?s1 => apply (did_access _ _ _ (OpActivate raw id) id)
  | E : revoke ?raw ?id ?s = (_, ?s1) |- did _ _ ?s1 => apply (did_access _ _ _ (OpRevoke raw id) id)
  | E : destroy ?raw ?id ?s = (_, ?s1) |- did _ _ ?s1 => apply (did_access _ _ _ (OpDestroy raw id) id)
  | E : add_attributes ?raw ?id ?a ?s = (_, ?s1) |- did _ _ ?s1 => apply (did_access _ _ _ (OpAddAttributes raw id a) id)
  | E : modify_attributes ?raw ?id ?a ?s = (_, ?s1) |- did _ _ ?s1 => apply (did_access _ _ _ (OpModifyAttributes raw id a) id)
  | E : delete_attributes ?raw ?id ?a ?s = (_, ?s1) |- did _ _ ?s1 => apply (did_access _ _ _ (OpDeleteAttributes raw id a) id)
  | E : decrement_usage_counter ?raw ?id ?s = (_, ?s1) |- did _ _ ?s1 => apply (did_access _ _ _ (OpDecrement raw id) id)
  | E : register ?raw ?id ?ot ?km ?a ?s = (_, ?s1) |- did _ _ ?s1 => apply (did_register _ _ _ raw id ot km a)
  end.

Ltac did_missing :=
  match goal with
  | Hn : get ?id ?s = None, E : ?f ?raw ?id ?s = (_, ?s1) |- did _ ?s ?s1 =>
      left; change s1 with (snd (fst (f raw id s), s1)); destruct (transition_missing raw id s Hn) as (? & ? & ?); by rewrite E in *
  end.

Ltac did_solve Inv :=
  first
  [ did_missing
  | did_call; first [ reflexivity | match goal with Eop : req_operation _ = _ |- serves _ _ = true => by rewrite Eop end
      | (match goal with E : ?f = (_, ?s1) |- ?s1 = _ => cbn [apply_op]; by rewrite E end)
      | done
      | (match goal with Ho : get ?i ?s = Some ?o |- may_access _ _ _ =>
           rewrite ?(wf_id _ _ _ (core_objects _ Inv i o Ho)); first [by eapply may_access_request | by eapply may_access_caller] end)
      | (match goal with Ho : get _ _ = _ |- _ => rewrite Ho; done end) ] ].

Lemma dispatch_did env req s resp s' : store_core s -> dispatch_operation env req s = (resp, s') -> did req s s'.
Proof.
  intros Inv Hd. unfold dispatch_operation in Hd. destruct (req_operation req) eqn:Eop;
    unfold process_create, process_get, process_activate, process_revoke, process_destroy,
      process_query, process_get_attributes, process_register, process_locate, process_check,
      process_add_attribute, process_modify_attribute, process_delete_attribute,
      process_derive_key, process_rng_retrieve, acl_checked_transition in Hd;
    cbv [ks_get ks_create ks_activate ks_revoke ks_destroy ks_register ks_add_attributes
      ks_modify_attributes ks_delete_attributes ks_decrement_usage_counter InMemoryKeyStore_KmipKeyStore] in Hd;
    destruct (req_unique_id req) as [id|] eqn:Eid;
    repeat match goal with u : unit |- _ => destruct u | _ => case_match end; simplify_eq; try (by left); did_solve Inv.
Qed.

Ltac no_data :=
  first [ done
        | exfalso; match goal with
          | Hr : check_owner_acl_for_request _ _ = Err ?r |- _ => by destruct (acl_error _ _ _ Hr) as (? & ? & ->)
          | Hr : check_owner_acl _ _ = Err ?r |- _ => by destruct (acl_caller_error _ _ _ Hr) as (? & ? & ->)
          end ].

(** What the operations that read an object disclose. *)
Lemma get_discloses req s resp s' :
  process_get req s = (resp, s') -> resp_key_material resp <> None ->
  exists id o, may_access req id s /\ objects s !! id = Some o /\ resp_key_material resp = obj_key_material o.
Proof.
  intros Hd Hk. unfold process_get in Hd. cbv [ks_get InMemoryKeyStore_KmipKeyStore] in Hd.
  destruct (req_unique_id req) as [id|] eqn:Eid; [|by simplify_eq]. destruct (get id s) as [o|] eqn:Eo; [|by simplify_eq].
  case_bool_decide; [by simplify_eq|]. destruct (check_owner_acl_for_request o req) as [[]|] eqn:Ea; simplify_eq; [|no_data].
  exists id, o. split; [by eapply may_access_request|done].
Qed.

Lemma get_attributes_discloses req s resp s' :
  process_get_attributes req s = (resp, s') -> resp_attributes resp <> [] -> exists id, may_access req id s.
Proof.
  intros Hd Hk. unfold process_get_attributes in Hd. cbv [ks_get ks_get_attributes InMemoryKeyStore_KmipKeyStore] in Hd.
  destruct (req_unique_id req) as [id|] eqn:Eid; [|by simplify_eq]. destruct (get id s) as [o|] eqn:Eo; [|by simplify_eq].
  destruct (check_owner_acl_for_request o req) as [[]|] eqn:Ea; [|simplify_eq; no_data]. exists id. by eapply may_access_request.
Qed.

Lemma derive_uses env req s resp s' :
  process_derive_key env req s = (resp, s') -> s' <> s -> exists id, may_access req id s.
Proof.
  intros Hd Hk. unfold process_derive_key in Hd. cbv [ks_get ks_create InMemoryKeyStore_KmipKeyStore] in Hd.
  destruct (req_unique_id req) as [id|] eqn:Eid; [|by simplify_eq]. destruct (derive_params _) as [[bits salt] info].
  case_match; [|by simplify_eq]. destruct (get id s) as [o|] eqn:Eo; [|by simplify_eq]. case_bool_decide; [by simplify_eq|].
  destruct (check_owner_acl_for_request o req) as [[]|] eqn:Ea; [|by simplify_eq]. exists id. by eapply may_access_request.
Qed.


End InMemory.

(** ** What the operations that store or return key material guarantee *)

Section Guarantees.
Context {S : Type} `{KmipKeyStoreLaws S}.

Lemma length_refusal_none bits : length_refusal bits = None -> 128 <= bits /\ bits mod 8 = 0.
Proof.
  unfold length_refusal. case_if; [done|]. case_if; [done|]. intros _. bool_to_prop.
  by rewrite Z.rem_mod_nonneg in * by lia.
Qed.

(** The lengths an algorithm admits; without an algorithm any length does. *)
Definition algorithm_length (algo : option Z) (bits : Z) : Prop :=
  algo = None \/ algo = Some 1 /\ (bits = 128 \/ bits = 192)
  \/ algo = Some 3 /\ (bits = 128 \/ bits = 192 \/ bits = 256).

Lemma algorithm_refusal_none algo bits :
  algorithm_refusal algo bits = None -> algorithm_length algo bits.
Proof.
  unfold algorithm_refusal, algorithm_length. intros Hr.
  destruct algo as [[|[[]|[]|]|]|]; try discriminate Hr; try (by left); right; [right|left];
    (split; [done|]); case_if; try discriminate Hr;
    repeat match goal with E : _ && _ = false |- _ => apply andb_false_iff in E as [E|E] end;
    bool_to_prop; lia.
Qed.

Lemma create_refusal_none algo bits :
  create_refusal algo bits = None ->
  algorithm_length algo bits /\ 128 <= bits /\ bits mod 8 = 0.
Proof.
  unfold create_refusal. destruct (algorithm_refusal algo bits) eqn:E; [done|].
  intros Hl. split; [by apply algorithm_refusal_none|by apply length_refusal_none].
Qed.

Lemma attach_owner_spec caller attrs :
  attach_owner (Some caller) attrs !! "owner" =
  match attrs !! "owner" with Some v => Some v | None => Some (Text caller) end.
Proof.
  unfold attach_owner. destruct (attrs !! "owner") eqn:E; [done|]. apply lookup_insert_eq.
Qed.

Lemma byte_count bits : 0 <= bits -> bits mod 8 = 0 -> 8 * Z.of_nat (Z.to_nat (bits / 8)) = bits.
Proof. intros. rewrite Z2Nat.id by (apply Z.div_pos; lia). pose proof (Z.div_mod bits 8). lia. Qed.

(** A successful Create stores one new PreActive symmetric key whose random
    material has exactly the requested number of bits, at least 128 and one of
    the sizes of the requested algorithm; an authenticated caller becomes its
    owner unless the request named one; every other object is untouched.  (The
    generator is assumed to fill the buffer it is given.) *)
Theorem create_guarantees env req (s : S) resp s' :
  (forall n b, try_fill_bytes env n = Some b -> length b = n) ->
  process_create env req s = (resp, s') -> resp_status resp = Success ->
  exists algo bits attrs id o km,
    create_template (req_attributes req) = (algo, Some bits, attrs)
    /\ algorithm_length algo bits /\ 128 <= bits
    /\ resp_unique_id resp = Some id /\ ks_get id s' = Some o
    /\ obj_object_type o = SymmetricKey /\ obj_state o = PreActive
    /\ obj_key_material o = Some km /\ 8 * len km = bits
    /\ (forall c, req_caller_identity req = Some c ->
         obj_attributes o !! "owner" = Some (default (Text c) (attrs !! "owner")))
    /\ (forall j, j <> id -> ks_get j s' = ks_get j s).
Proof.
  intros Hrng Hp Hs. unfold process_create in Hp.
  destruct (create_template _) as [[algo [bits|]] attrs]; [|by simplify_eq].
  destruct (create_refusal algo bits) as [r|] eqn:Er.
  { simplify_eq. unfold create_refusal, algorithm_refusal, length_refusal in Er.
    repeat case_match; simplify_eq; done. }
  destruct (try_fill_bytes _ _) as [km|] eqn:Ek; [|by simplify_eq].
  destruct (ks_create _ _ _ _ _) as [id s1] eqn:Ec. simplify_eq.
  apply create_refusal_none in Er as (Ha & Hb & Hm). apply Hrng in Ek.
  destruct (law_create _ _ _ _ _ _ _ Ec) as [[t Ht] Hframe].
  eexists algo, bits, attrs, id, _, km. split_and!; try done.
  - unfold len. rewrite Ek. apply byte_count; [lia|done].
  - cbn. intros c ->. rewrite attach_owner_spec. by destruct (attrs !! "owner").
Qed.

(** DeriveKey reads the input key only after the owner check: a successful
    call expands the material of an existing, live object that the caller may
    access into a new PreActive key of the requested length (at most 8192 bits)
    that belongs to the caller and records its origin. *)
Theorem derive_key_guarantees env req (s : S) resp s' :
  (forall salt ikm info n b, hkdf_expand env salt ikm info n = Some b -> length b = n) ->
  process_derive_key env req s = (resp, s') -> resp_status resp = Success ->
  exists src ikm_obj id o okm bits,
    req_unique_id req = Some src /\ ks_get src s = Some ikm_obj
    /\ obj_state ikm_obj <> Destroyed
    /\ check_owner_acl_for_request ikm_obj req = Ok tt
    /\ resp_unique_id resp = Some id /\ ks_get id s' = Some o
    /\ obj_state o = PreActive /\ obj_key_material o = Some okm
    /\ 8 * len okm = bits /\ 0 < bits <= 8192
    /\ obj_attributes o !! "Derived From" = Some (Text src)
    /\ obj_attributes o !! "owner" = Text <$> req_caller_identity req
    /\ (forall j, j <> id -> ks_get j s' = ks_get j s).
Proof.
  intros Hk Hp Hs. unfold process_derive_key in Hp.
  destruct (req_unique_id req) as [src|]; [|by simplify_eq].
  destruct (derive_params _) as [[[bits|] salt] info]; [|by simplify_eq].
  destruct (derive_length_ok bits) eqn:Hb; [|by simplify_eq].
  destruct (ks_get src s) as [x|] eqn:Hx; [|by simplify_eq].
  case_bool_decide as Hd; [by simplify_eq|].
  destruct (check_owner_acl_for_request x req) as [[]|r] eqn:Ha.
  2: { simplify_eq. unfold check_owner_acl_for_request, check_owner_acl_with_options in Ha.
       repeat case_match; simplify_eq; done. }
  destruct (obj_key_material x) as [[|b0 ikm]|]; try by simplify_eq.
  destruct (hkdf_expand _ _ _ _ _) as [okm|] eqn:He; [|by simplify_eq].
  destruct (ks_create _ _ _ _ _) as [id s1] eqn:Ec. simplify_eq.
  destruct (law_create _ _ _ _ _ _ _ Ec) as [[t Ht] Hframe]. apply Hk in He.
  unfold derive_length_ok in Hb. bool_to_prop. rewrite Z.rem_mod_nonneg in * by lia.
  eexists src, x, id, _, okm, bits. split_and!; try done; cbn.
  - unfold len. rewrite He. apply byte_count; lia.
  - apply lookup_insert_eq.
  - rewrite !lookup_insert_ne by done. destruct (req_caller_identity req) as [c|]; cbn;
      [apply lookup_singleton_eq|apply lookup_empty].
Qed.

(** *** Locate *)

Definition visible_to (caller : option string) (s : S) (id : string) : bool :=
  match ks_get id s with Some o => is_ok (check_owner_acl o caller) | None => false end.

Lemma locate_filter_spec caller s ids acc :
  len acc <= LOCATE_MAX_RESULTS_DEFAULT ->
  let vis := filter (fun id => Is_true (visible_to caller s id)) ids in
  (locate_filter caller s ids acc).1 = take (Z.to_nat LOCATE_MAX_RESULTS_DEFAULT) (acc ++ vis)
  /\ ((locate_filter caller s ids acc).2 = false -> len (acc ++ vis) <= LOCATE_MAX_RESULTS_DEFAULT).
Proof.
  revert acc. induction ids as [|i ids IH]; intros acc Hacc vis; cbn [locate_filter].
  - unfold vis. rewrite app_nil_r. split; [|done].
    symmetry. apply take_ge. unfold len, LOCATE_MAX_RESULTS_DEFAULT in *. cbn [fst]. lia.
  - case_if; bool_to_prop.
    + split; [|done]. cbn [fst]. rewrite take_app_length'; [done|].
      unfold len, LOCATE_MAX_RESULTS_DEFAULT in *. lia.
    + rewrite law_probe.
      replace (default false _) with (visible_to caller s i)
        by (unfold visible_to; by destruct (ks_get i s)).
      unfold vis. rewrite filter_cons.
      destruct (visible_to caller s i); rewrite ?decide_True, ?decide_False by auto;
        [|by apply IH].
      rewrite (cons_middle i acc (filter _ _)), (app_assoc acc [i]). apply IH.
      rewrite len_app. unfold len, LOCATE_MAX_RESULTS_DEFAULT in *. cbn. lia.
Qed.

(** Locate returns the first 1000 of the matching objects the caller may see,
    in the store's order, changes nothing, and returns all of them whenever it
    does not set the Locate-Truncated marker. *)
Theorem locate_visible_prefix req (s : S) resp s' :
  process_locate req s = (resp, s') ->
  let all := ks_locate (collect_attributes (req_attributes req)) s in
  let vis := filter (fun id => Is_true (visible_to (req_caller_identity req) s id)) all in
  s' = s /\ resp_status resp = Success
  /\ resp_located_ids resp = take (Z.to_nat LOCATE_MAX_RESULTS_DEFAULT) vis
  /\ (resp_attributes resp = [] -> resp_located_ids resp = vis)
  /\ len (resp_located_ids resp) <= 1000.
Proof.
  intros Hp all vis. unfold process_locate in Hp. fold all in Hp.
  destruct (locate_filter_spec (req_caller_identity req) s all []) as [H1 H2]; [done|].
  destruct (locate_filter _ _ _ _) as [filtered truncated]. cbn in H1, H2. fold vis in H1, H2.
  assert (len (take (Z.to_nat LOCATE_MAX_RESULTS_DEFAULT) vis) <= 1000) as Hlen by (unfold len, LOCATE_MAX_RESULTS_DEFAULT; rewrite length_take; lia).
  destruct truncated; simplify_eq; cbn; split_and!; try done.
  intros _. apply take_ge. specialize (H2 eq_refl).
  unfold len, LOCATE_MAX_RESULTS_DEFAULT in *. lia.
Qed.

End Guarantees.

(** ** Where the handlers fall short of their documentation *)

Section Divergences.
Context `{MapIter}.

(** The strict owner check is not applied by the lifecycle operations: with
    strict_owner_acl set, an authenticated caller is refused Get on a live object
    without owner, yet the same caller may Activate it. *)
Theorem strict_acl_ignored_by_activate env req s id o caller :
  req_unique_id req = Some id -> req_caller_identity req = Some caller ->
  req_strict_owner_acl req = true ->
  objects s !! id = Some o -> obj_attributes o !! "owner" = None -> obj_state o = PreActive ->
  process_get req s = (not_found, s) /\
  exists s', process_activate env req s = (KmipResponse_success id, s')
    /\ obj_state <$> objects s' !! id = Some Active.
Proof.
  intros Hid Hc Hst Ho Hown Hs. unfold process_get, process_activate, acl_checked_transition.
  rewrite Hid, Hc. cbn. unfold get. rewrite Ho.
  unfold check_owner_acl_for_request, check_owner_acl, check_owner_acl_with_options.
  rewrite Hown, Hc, Hst, Hs. cbn. split; [done|].
  unfold activate. rewrite Ho, Hs. cbn. eexists. split; [done|].
  cbn. by rewrite lookup_insert_eq.
Qed.

(** The diagnostic message tells a foreign object from a missing one: Activate
    on another tenant's object answers "object not found", on an unused identifier
    "activate failed for <id>", both with reason ObjectNotFound. *)
Theorem activate_message_reveals_existence env req s1 s2 id o w :
  req_unique_id req = Some id -> req_caller_identity req <> Some w ->
  objects s1 !! id = Some o -> obj_attributes o !! "owner" = Some (Text w) ->
  objects s2 !! id = None ->
  let r1 := (process_activate env req s1).1 in
  let r2 := (process_activate env req s2).1 in
  resp_reason r1 = resp_reason r2 /\ resp_message r1 <> resp_message r2.
Proof.
  intros Hid Hc Ho Hown Hn. unfold process_activate, acl_checked_transition.
  rewrite Hid. cbn. unfold get. rewrite Ho, Hn. unfold check_owner_acl.
  rewrite (acl_foreign _ w) by done. unfold activate. rewrite Hn. cbn. by split.
Qed.

End Divergences.

(** ** Witnesses *)

#[local] Existing Instance key_order.

Definition demo_env : OsEnv := mkEnv 200
  (fun n => Some (replicate n Byte.x2a)) (fun _ _ _ n => Some (replicate n Byte.x07)).
Definition demo_request (op : KmipOperation) (id : option string) (caller : string)
    (attrs : list KmipAttribute) : KmipRequest := mkRequest op id attrs (Some caller) true.

Lemma demo_ks_inv2 : ks_inv demo2.
Proof. exact (proj1 demo_inv2). Qed.
Lemma demo_rng_fills n b : try_fill_bytes demo_env n = Some b -> length b = n.
Proof. cbn. intros [= <-]. apply length_replicate. Qed.
Lemma demo_hkdf_fills salt ikm info n b :
  hkdf_expand demo_env salt ikm info n = Some b -> length b = n.
Proof. cbn. intros [= <-]. apply length_replicate. Qed.

Lemma owner_isolation_witness :
  let req := demo_request Destroy (Some demo_id) "bob" [] in
  exists o, get demo_id demo2 = Some o
    /\ get demo_id (dispatch_operation demo_env req demo2).2 = Some o
    /\ refused (dispatch_operation demo_env req demo2).1.
Proof.
  intros req. destruct (get demo_id demo2) as [o|] eqn:Ho; [|discriminate Ho].
  assert (obj_attributes o !! "owner" = Some (Text "alice")) as Hown.
  { assert ((obj_attributes <$> get demo_id demo2) = Some demo_attrs) as Ha by reflexivity.
    rewrite Ho in Ha. apply (inj Some) in Ha as ->. reflexivity. }
  destruct (dispatch_operation demo_env req demo2) as [resp s'] eqn:Hd.
  destruct (owner_isolation (S := InMemoryKeyStore) demo_env req demo2 resp s' demo_id o "alice"
    demo_ks_inv2 Ho Hown ltac:(done) Hd ltac:(done)) as (H1 & _ & H3).
  exists o. split; [done|]. split; [exact H1|]. by apply H3.
Defined.


Lemma create_guarantees_witness :
  let req := demo_request Create None "bob" [mkAttribute "Cryptographic Length" (Integer 256)] in
  exists id o, resp_unique_id (process_create demo_env req demo2).1 = Some id
    /\ get id (process_create demo_env req demo2).2 = Some o /\ obj_state o = PreActive.
Proof.
  intros req. destruct (process_create demo_env req demo2) as [resp s'] eqn:Hd.
  assert (resp_status (process_create demo_env req demo2).1 = Success) as Hs by reflexivity.
  rewrite Hd in Hs.
  destruct (create_guarantees demo_env req demo2 resp s' demo_rng_fills Hd Hs)
    as (? & ? & ? & id & o & ? & ? & ? & ? & ? & ? & ? & ? & _).
  by exists id, o.
Defined.

Lemma derive_key_guarantees_witness :
  let req := demo_request DeriveKey (Some demo_id) "alice"
               [mkAttribute "Cryptographic Length" (Integer 128)] in
  exists id o, resp_unique_id (process_derive_key demo_env req demo2).1 = Some id
    /\ get id (process_derive_key demo_env req demo2).2 = Some o
    /\ obj_attributes o !! "owner" = Some (Text "alice").
Proof.
  intros req. destruct (process_derive_key demo_env req demo2) as [resp s'] eqn:Hd.
  assert (resp_status (process_derive_key demo_env req demo2).1 = Success) as Hs by reflexivity.
  rewrite Hd in Hs.
  destruct (derive_key_guarantees demo_env req demo2 resp s' demo_hkdf_fills Hd Hs)
    as (? & ? & id & o & ? & ? & ? & ? & ? & ? & ? & ? & ? & ? & ? & ? & ? & ? & _).
  by exists id, o.
Defined.

Lemma locate_visible_prefix_witness :
  let req := demo_request Locate None "bob" [] in
  resp_located_ids (process_locate req demo2).1 = ["ext-1"]
  /\ len (resp_located_ids (process_locate req demo2).1) <= 1000.
Proof.
  intros req. split; [reflexivity|].
  destruct (process_locate req demo2) as [resp s'] eqn:Hd.
  apply (locate_visible_prefix req demo2 resp s' Hd).
Defined.

Lemma strict_acl_ignored_by_activate_witness :
  let req := demo_request Activate (Some "ext-1") "bob" [] in
  resp_status (process_get req demo2).1 = OperationFailed
  /\ exists s', process_activate demo_env req demo2 = (KmipResponse_success "ext-1", s').
Proof.
  intros req. split; [reflexivity|].
  destruct (objects demo2 !! "ext-1") as [o|] eqn:Ho; [|discriminate Ho].
  destruct (strict_acl_ignored_by_activate demo_env req demo2 "ext-1" o "bob"
    eq_refl eq_refl eq_refl Ho) as [_ (s' & E & _)]; [by injection Ho as <-..|].
  by exists s'.
Defined.

Lemma activate_message_reveals_existence_witness :
  let req := demo_request Activate (Some demo_id) "bob" [] in
  resp_message (process_activate demo_env req demo2).1
  <> resp_message (process_activate demo_env req demo0).1.
Proof.
  intros req. destruct (objects demo2 !! demo_id) as [o|] eqn:Ho; [|discriminate Ho].
  refine (proj2 (activate_message_reveals_existence demo_env req demo2 demo0 demo_id o "alice"
    eq_refl _ Ho _ eq_refl)); [done|].
  assert ((obj_attributes <$> objects demo2 !! demo_id) = Some demo_attrs) as Ha by reflexivity.
  rewrite Ho in Ha. apply (inj Some) in Ha as ->. reflexivity.
Defined.
