(* ===== verification/KmipMessage.v ===== *)
(** * The KMIP message layer ([craton-hsm-kmip/src/server.rs] and [acl.rs])

    From the bytes of a request to the bytes of the answer: authentication with its
    failure limiter, decoding, parsing into batch items, the replay cache, the access
    policy, dispatch and encoding; around them the framing of a session.

    Arguments of the model: SHA-256 ([ServerCrates]), the policy and the key-encryption
    key that a deployment installs (traits [KmipAcl] and [KekProvider], fields of the
    server), and in [ServerEnv] what one message reads from its surroundings: the clock
    readings in program order, the environment variable, the build feature
    [insecure-static-token] and the [OsEnv] of each batch item.  An [Instant] is a number
    of nanoseconds.  A message is processed as one step. *)

From coqutil Require Import Byte.
From stdpp Require Import prelude gmap strings list pretty.
From Stdlib Require Import ZArith Lia.
From S2P Require Import Prelude RustStd KmipTypes KmipTtlv KmipStore KmipHandlers.
Local Open Scope string_scope.
Local Open Scope list_scope.
Local Open Scope Z_scope.
Local Open Scope rust_scope.

Class ServerCrates := { token_digest : list byte -> list byte }.

(** [Instant::saturating_duration_since] *)
Definition since (now t : Z) : Z := Z.max (now - t) 0.

(** ** The limiter of failed authentications *)

Record TokenLimiter : Type := mkLimiter {
  tl_failures : gmap (list byte) (Z * Z);
  tl_max_failures : Z;
  tl_window : Z;
  tl_check_counter : Z;
}.

Definition TokenLimiter_new (max_failures window_secs : Z) : TokenLimiter :=
  mkLimiter ∅ max_failures (window_secs * nanos) 0.

Definition set_failures (f : gmap (list byte) (Z * Z)) (l : TokenLimiter) : TokenLimiter :=
  mkLimiter f (tl_max_failures l) (tl_window l) (tl_check_counter l).

Definition evict_stale_failures (now : Z) (l : TokenLimiter) : TokenLimiter :=
  set_failures (filter (fun kv => since now kv.2.2 < tl_window l * 2) (tl_failures l)) l.

Definition is_rate_limited (evict_now now : Z) (client_id : list byte) (l : TokenLimiter)
    : bool * TokenLimiter :=
  let c := tl_check_counter l in
  let l := mkLimiter (tl_failures l) (tl_max_failures l) (tl_window l) (u64_succ c) in
  let l := if c mod 100 =? 0 then evict_stale_failures evict_now l else l in
  match tl_failures l !! client_id with
  | Some (count, window_start) =>
      ((since now window_start <? tl_window l) && (tl_max_failures l <=? count), l)
  | None => (false, l)
  end.

Definition record_token_failure (now : Z) (client_id : list byte) (l : TokenLimiter) : TokenLimiter :=
  let e :=
    match tl_failures l !! client_id with
    | Some (count, window_start) =>
        if tl_window l <=? since now window_start then (1, now) else (u64_succ count, window_start)
    | None => (1, now)
    end in
  set_failures (<[client_id := e]> (tl_failures l)) l.

(** ** Options *)

Record KmipOptions : Type := mkOptions {
  strict_owner_acl : bool;
  require_correlation_value : bool;
  replay_window_secs : Z;
  hash_identity_in_logs : bool;
}.

Definition KmipOptions_default : KmipOptions := mkOptions true false 60 true.

(** ** The replay cache *)

Definition REPLAY_CACHE_HARD_CAP : Z := 65536.

Record CorrelationCache : Type := mkCorrelation {
  cc_seen : gmap (list byte) Z;
  cc_window : Z;
  cc_check_counter : Z;
}.

Definition CorrelationCache_new (window_secs : Z) : CorrelationCache :=
  mkCorrelation ∅ (Z.max window_secs 1 * nanos) 0.

Section Server.
Context `{ServerCrates}.

Definition correlation_key (identity : option string) (ccv : string) : list byte :=
  token_digest (as_bytes (default "" identity) ++ [Byte.xff] ++ as_bytes ccv).

Definition check_and_record (now : Z) (identity : option string) (ccv : string)
    (c : CorrelationCache) : bool * CorrelationCache :=
  let n := cc_check_counter c in
  let w := cc_window c in
  let seen :=
    if n mod 100 =? 0 then filter (fun kv => since now kv.2 < w) (cc_seen c) else cc_seen c in
  let with_seen s := mkCorrelation s w (u64_succ n) in
  let k := correlation_key identity ccv in
  if match seen !! k with Some ts => since now ts <? w | None => false end
  then (true, with_seen seen)
  else if REPLAY_CACHE_HARD_CAP <=? Z.of_nat (size seen) then (true, with_seen seen)
  else
    match seen !! k with
    | Some ts =>
        if since now ts <? w then (true, with_seen seen)
        else (false, with_seen (<[k := now]> seen))
    | None => (false, with_seen (<[k := now]> seen))
    end.

(** ** Configuration *)

Record KmipTlsConfig : Type := mkTls {
  cert_path : option string;
  key_path : option string;
  ca_cert_path : option string;
}.

Record KmipServerConfig : Type := mkConfig {
  listen_addr : string;
  max_message_size : Z;
  pre_auth_max_message_size : Z;
  connection_timeout_secs : Z;
  max_concurrent_connections : Z;
  require_auth : bool;
  auth_token : option string;
  tls : option KmipTlsConfig;
}.

Definition KmipServerConfig_default : KmipServerConfig :=
  mkConfig "127.0.0.1:5696" 1048576 (64 * 1024) 30 1024 true None None.

Definition MIN_STATIC_TOKEN_BYTES : Z := 32.
Definition WEAK_STATIC_TOKEN_VALUES : list string :=
  ["changeme"; "change-me"; "password"; "secret"; "test"; "test-secret"; "test-token"; "dev";
   "development"; "kmip"; "kmip-token"; "admin"; "admin-token"; "admin:admin"; "root"; "hsm";
   "craton"; "example"].

(** The refusals of [validate_for_production]. *)
Inductive ConfigRefusal : Type :=
| AuthNotRequired
| WeakToken (placeholder : string)
| ShortToken (bytes : Z)
| StaticTokenNotAllowed.

(** [len] and the bytewise [eq_ignore_ascii_case]. *)
Definition token_is (tok weak : string) : bool :=
  let t := as_bytes tok in
  let w := as_bytes weak in
  (len t =? len w) && forallb (fun ab => bool_decide (lower_byte ab.1 = lower_byte ab.2)) (zip t w).

Definition validate_static_token (tok : string) : result unit ConfigRefusal :=
  match find (token_is tok) WEAK_STATIC_TOKEN_VALUES with
  | Some weak => Err (WeakToken weak)
  | None =>
      if len (as_bytes tok) <? MIN_STATIC_TOKEN_BYTES then Err (ShortToken (len (as_bytes tok)))
      else Ok tt
  end.

(** [var] is [CRATON_HSM_ALLOW_INSECURE_STATIC_TOKEN]. *)
Definition insecure_static_token_allowed (var : option string) : bool :=
  match var with
  | Some v =>
      let v := from_bytes (utf8_encode (trim (chars v))) in
      negb (String.eqb v "") && negb (String.eqb v "0")
      && negb (String.eqb (to_ascii_lowercase v) "false")
  | None => false
  end.

Definition validate_for_production (var : option string) (c : KmipServerConfig)
    : result unit ConfigRefusal :=
  (if negb (require_auth c) then Err AuthNotRequired
   else match auth_token c with
        | Some tok =>
            try _ := validate_static_token tok in
            if negb (insecure_static_token_allowed var) then Err StaticTokenNotAllowed else Ok tt
        | None => Ok tt
        end).

(** ** The access policy ([acl.rs]) *)

Inductive KmipAclDecision : Type := Allow | Deny (reason : Reason.KmipResultReason).

Abbreviation KmipAcl := (option string -> Operation.KmipOperation -> option string -> KmipAclDecision).

Definition AllowAll : KmipAcl := fun _ _ _ => Allow.

(** ** Parsing *)

Definition item_tag (i : TtlvItem) : Z := let '(Item t _) := i in t.
Definition item_value (i : TtlvItem) : TtlvValue := let '(Item _ v) := i in v.
Definition has_tag (t : Tag.KmipTag) (i : TtlvItem) : bool := item_tag i =? Tag.KmipTag_to_u32 t.

(** [iter().find_map] *)
Fixpoint find_map {A B} (f : A -> option B) (l : list A) : option B :=
  match l with
  | [] => None
  | x :: r => match f x with Some y => Some y | None => find_map f r end
  end.

Definition text_child (t : Tag.KmipTag) (c : TtlvItem) : option string :=
  if has_tag t c then match item_value c with VTextString s => Some (from_bytes s) | _ => None end
  else None.

Definition attribute_value (c : TtlvItem) : option Attr.KmipAttributeValue :=
  if has_tag Tag.AttributeValue c then
    match item_value c with
    | VTextString s => Some (Attr.Text (from_bytes s))
    | VInteger v => Some (Attr.Integer v)
    | VLongInteger v => Some (Attr.LongInteger v)
    | VEnumeration v => Some (Attr.Enum v)
    | VByteString b => Some (Attr.Bytes b)
    | VBoolean b => Some (Attr.Boolean b)
    | _ => None
    end
  else None.

Definition parse_attribute (item : TtlvItem) : option KmipAttribute :=
  match item_value item with
  | VStructure children =>
      name ← find_map (text_child Tag.AttributeName) children;
      value ← find_map attribute_value children;
      Some (mkAttribute name value)
  | _ => None
  end.

Definition template_attributes (batch_children : list TtlvItem) : list KmipAttribute :=
  match find (has_tag Tag.TemplateAttribute) batch_children with
  | Some tmpl =>
      match item_value tmpl with
      | VStructure tmpl_children =>
          omap parse_attribute (filter (fun i => has_tag Tag.Attribute i = true) tmpl_children)
      | _ => []
      end
  | None => []
  end.

Definition parse_batch_item (item : TtlvItem) : option KmipRequest :=
  match item_value item with
  | VStructure batch_children =>
      op_val ← find_map (fun c =>
        if has_tag Tag.Operation c
        then match item_value c with VEnumeration v => Some v | _ => None end
        else None) batch_children;
      operation ← Operation.KmipOperation_from_u32 op_val;
      Some (mkRequest operation (find_map (text_child Tag.UniqueIdentifier) batch_children)
              (template_attributes batch_children) None false)
  | _ => None
  end.

Record ProtocolVersion : Type := mkVersion { pv_major : Z; pv_minor : Z }.
Definition ProtocolVersion_default : ProtocolVersion := mkVersion 2 1.
Definition SERVER_MAX_PROTOCOL_MAJOR : Z := 2.
Definition SERVER_MAX_PROTOCOL_MINOR : Z := 1.

Definition negotiate_protocol_version (major minor : Z) : Z * Z :=
  if (major <=? 0) || ((major =? 1) && (minor <? 0)) then (1, 0)
  else if (SERVER_MAX_PROTOCOL_MAJOR <? major)
          || ((major =? SERVER_MAX_PROTOCOL_MAJOR) && (SERVER_MAX_PROTOCOL_MINOR <? minor))
  then (SERVER_MAX_PROTOCOL_MAJOR, SERVER_MAX_PROTOCOL_MINOR)
  else (major, Z.max minor 0).

(** The loop over the children of ProtocolVersion. *)
Definition version_numbers (pv_children : list TtlvItem) : option Z * option Z :=
  foldl (fun mm pv =>
    if has_tag Tag.ProtocolVersionMajor pv then
      match item_value pv with VInteger v => (Some v, mm.2) | _ => mm end
    else if has_tag Tag.ProtocolVersionMinor pv then
      match item_value pv with VInteger v => (mm.1, Some v) | _ => mm end
    else mm) (None, None) pv_children.

(** What the header contributes: BatchCount, ClientCorrelationValue, version. *)
Record HeaderMeta : Type := mkHeader {
  hm_batch_count : option Z;
  hm_ccv : option string;
  hm_version : ProtocolVersion;
}.

Definition header_child (h : HeaderMeta) (c : TtlvItem) : HeaderMeta :=
  if has_tag Tag.BatchCount c then
    match item_value c with VInteger v => mkHeader (Some v) (hm_ccv h) (hm_version h) | _ => h end
  else if has_tag Tag.ClientCorrelationValue c then
    match item_value c with
    | VTextString v => mkHeader (hm_batch_count h) (Some (from_bytes v)) (hm_version h)
    | _ => h
    end
  else if has_tag Tag.ProtocolVersion c then
    match item_value c with
    | VStructure pv_children =>
        match version_numbers pv_children with
        | (Some maj, Some min) =>
            let '(nmaj, nmin) := negotiate_protocol_version maj min in
            mkHeader (hm_batch_count h) (hm_ccv h) (mkVersion nmaj nmin)
        | _ => h
        end
    | _ => h
    end
  else h.

Record ParsedRequest : Type := mkParsed {
  pr_requests : list KmipRequest;
  pr_batch_count : option Z;
  pr_actual_batch_items : Z;
  pr_client_correlation_value : option string;
  pr_protocol_version : ProtocolVersion;
}.

(** The placeholder for an item of a longer batch that does not parse. *)
Definition placeholder : KmipRequest := mkRequest Operation.Query None [] None false.

Definition parse_request_with_meta (item : TtlvItem) : option ParsedRequest :=
  match item_value item with
  | VStructure children =>
      let meta :=
        match find (has_tag Tag.RequestHeader) children with
        | Some hdr =>
            match item_value hdr with
            | VStructure hdr_children =>
                foldl header_child (mkHeader None None ProtocolVersion_default) hdr_children
            | _ => mkHeader None None ProtocolVersion_default
            end
        | None => mkHeader None None ProtocolVersion_default
        end in
      let batch_items := filter (fun c => has_tag Tag.BatchItem c = true) children in
      let batch_item_count := len batch_items in
      let requests := omap (fun c =>
        match parse_batch_item c with
        | Some r => Some r
        | None => if 1 <? batch_item_count then Some placeholder else None
        end) batch_items in
      let all_unparseable :=
        (0 <? batch_item_count)
        && forallb (fun c => bool_decide (parse_batch_item c = None)) batch_items in
      if all_unparseable then None
      else Some (mkParsed requests (hm_batch_count meta) (len requests) (hm_ccv meta) (hm_version meta))
  | _ => None
  end.

(** ** Encoding *)

Definition tagged (t : Tag.KmipTag) (v : TtlvValue) : TtlvItem := Item (Tag.KmipTag_to_u32 t) v.

Definition attribute_ttlv (v : Attr.KmipAttributeValue) : TtlvValue :=
  match v with
  | Attr.Text s => VTextString (as_bytes s)
  | Attr.Integer v => VInteger v
  | Attr.LongInteger v => VLongInteger v
  | Attr.Enum v => VEnumeration v
  | Attr.Bytes b => VByteString b
  | Attr.Boolean b => VBoolean b
  end.

Definition encode_one_batch_item (resp : KmipResponse) : TtlvItem :=
  tagged Tag.BatchItem (VStructure (
    [tagged Tag.ResultStatus (VEnumeration (Status.KmipResultStatus_to_u32 (resp_status resp)))]
    ++ match resp_reason resp with
       | Some r => [tagged Tag.ResultReason (VEnumeration (Reason.KmipResultReason_to_u32 r))]
       | None => [] end
    ++ match resp_message resp with
       | Some msg => [tagged Tag.ResultMessage (VTextString (as_bytes msg))] | None => [] end
    ++ match resp_unique_id resp with
       | Some uid => [tagged Tag.UniqueIdentifier (VTextString (as_bytes uid))] | None => [] end
    ++ match resp_object_type resp with
       | Some ot => [tagged Tag.ObjectType (VEnumeration (ObjectType.KmipObjectType_to_u32 ot))]
       | None => [] end
    ++ map (fun id => tagged Tag.UniqueIdentifier (VTextString (as_bytes id))) (resp_located_ids resp)
    ++ map (fun a =>
         tagged Tag.Attribute (VStructure
           [tagged Tag.AttributeName (VTextString (as_bytes (attr_name a)));
            tagged Tag.AttributeValue (attribute_ttlv (attr_value a))])) (resp_attributes resp))).

Definition response_header (now_secs count : Z) (pv : ProtocolVersion) : TtlvItem :=
  tagged Tag.ResponseHeader (VStructure
    [tagged Tag.ProtocolVersion (VStructure
       [tagged Tag.ProtocolVersionMajor (VInteger (pv_major pv));
        tagged Tag.ProtocolVersionMinor (VInteger (pv_minor pv))]);
     tagged Tag.TimeStamp (VDateTime (Z.min now_secs i64_max));
     tagged Tag.BatchCount (VInteger count)]).

Definition response_message (now_secs : Z) (resps : list KmipResponse) (pv : ProtocolVersion) : TtlvItem :=
  tagged Tag.ResponseMessage (VStructure
    (response_header now_secs (as_signed 32 (Z.max (len resps) 1)) pv ::
     match resps with
     | [] => [encode_one_batch_item (KmipResponse_error Reason.GeneralFailure "no batch items produced")]
     | _ => map encode_one_batch_item resps
     end)).

Definition encode_response_batch_inner (now_secs : Z) (resps : list KmipResponse) (pv : ProtocolVersion)
    : comp (list byte) TtlvError := encode_ttlv (response_message now_secs resps pv).

Definition fallback_response : KmipResponse :=
  KmipResponse_error Reason.GeneralFailure "internal server error: response encode failed".

(** The clock is read once for each attempt. *)
Definition encode_response_batch (now1 now2 : Z) (resps : list KmipResponse) (pv : ProtocolVersion)
    : comp (list byte) Empty_set :=
  match encode_response_batch_inner now1 resps pv with
  | COk bytes => COk bytes
  | CErr _ =>
      match encode_response_batch_inner now2 [fallback_response] pv with
      | COk bytes => COk bytes
      | CErr _ => COk []
      | CPanic => CPanic
      | CDiverge => CDiverge
      end
  | CPanic => CPanic
  | CDiverge => CDiverge
  end.

Definition log_identity_tag (identity : option string) (hash_in_logs : bool) : string :=
  match identity with
  | None => "<anon>"
  | Some id =>
      if hash_in_logs then
        "id:" +:+ from_bytes (concat (map (fun b => as_bytes (fmt_hex 2 (byte.unsigned b)))
                                        (take 4 (token_digest (as_bytes id)))))
      else id
  end.

(** ** The server *)

Context {S : Type} `{KmipKeyStore S} `{MapIter}.

Record KmipServer : Type := mkServer {
  sv_store : S;
  sv_config : KmipServerConfig;
  sv_rate_limiter : TokenLimiter;
  sv_acl : KmipAcl;
  sv_options : KmipOptions;
  sv_kek : option (list byte -> result (list byte) string);
  sv_replay : CorrelationCache;
}.

Definition set_store (s : S) (sv : KmipServer) : KmipServer :=
  mkServer s (sv_config sv) (sv_rate_limiter sv) (sv_acl sv) (sv_options sv) (sv_kek sv) (sv_replay sv).
Definition set_rate_limiter (l : TokenLimiter) (sv : KmipServer) : KmipServer :=
  mkServer (sv_store sv) (sv_config sv) l (sv_acl sv) (sv_options sv) (sv_kek sv) (sv_replay sv).
Definition set_replay (c : CorrelationCache) (sv : KmipServer) : KmipServer :=
  mkServer (sv_store sv) (sv_config sv) (sv_rate_limiter sv) (sv_acl sv) (sv_options sv) (sv_kek sv) c.

Definition KmipServer_new (store : S) (config : KmipServerConfig) : KmipServer :=
  mkServer store config (TokenLimiter_new 5 60) AllowAll KmipOptions_default None
    (CorrelationCache_new (replay_window_secs KmipOptions_default)).

Definition with_options (options : KmipOptions) (sv : KmipServer) : KmipServer :=
  mkServer (sv_store sv) (sv_config sv) (sv_rate_limiter sv) (sv_acl sv) options (sv_kek sv)
    (CorrelationCache_new (replay_window_secs options)).
Definition with_kek (kek : list byte -> result (list byte) string) (sv : KmipServer) : KmipServer :=
  mkServer (sv_store sv) (sv_config sv) (sv_rate_limiter sv) (sv_acl sv) (sv_options sv) (Some kek)
    (sv_replay sv).
Definition with_acl (acl : KmipAcl) (sv : KmipServer) : KmipServer :=
  mkServer (sv_store sv) (sv_config sv) (sv_rate_limiter sv) acl (sv_options sv) (sv_kek sv) (sv_replay sv).

(** ** One message *)

Record ServerEnv : Type := mkServerEnv {
  se_feature : bool;
  se_var : option string;
  se_evict_now : Z;
  se_limit_now : Z;
  se_failure_now : Z;
  se_replay_now : Z;
  se_encode_secs : Z;
  se_fallback_secs : Z;
  se_item : nat -> OsEnv;
}.

(** [peer] is the text of the peer's address. *)
Definition client_hash (peer token : option string) : list byte :=
  token_digest (
    match peer with Some pa => Byte.x01 :: as_bytes pa | None => [Byte.x00] end
    ++ [Byte.xff]
    ++ match token with Some t => Byte.x01 :: token_digest (as_bytes t) | None => [Byte.x00] end).

Abbreviation Refusal := (Reason.KmipResultReason * string)%type.

Definition too_many_failures : Refusal :=
  (Reason.PermissionDenied, "too many authentication failures — try again later").
Definition static_token_forbidden : Refusal :=
  (Reason.PermissionDenied, "static-token authentication not permitted: set CRATON_HSM_ALLOW_INSECURE_STATIC_TOKEN=1 or integrate craton-hsm-auth").
Definition invalid_token : Refusal := (Reason.PermissionDenied, "authentication failed: invalid token").
Definition no_token : Refusal :=
  (Reason.PermissionDenied, "authentication required but no token provided").
Definition token_not_configured : Refusal :=
  (Reason.PermissionDenied, "server authentication token not configured").
Definition feature_missing : Refusal :=
  (Reason.PermissionDenied, "KMIP server built without the 'insecure-static-token' feature; integrate craton-hsm-auth (mTLS / IdP) for authentication").

(** The authentication gate: the caller's identity, or the refusal. *)
Definition authenticate (env : ServerEnv) (client_token preauth_identity peer : option string)
    (sv : KmipServer) : result (option string) Refusal * KmipServer :=
  let id := client_hash peer client_token in
  match preauth_identity with
  | Some i => (Ok (Some i), sv)
  | None =>
      if require_auth (sv_config sv) then
        let '(limited, l) := is_rate_limited (se_evict_now env) (se_limit_now env) id (sv_rate_limiter sv) in
        let sv := set_rate_limiter l sv in
        let failed := set_rate_limiter (record_token_failure (se_failure_now env) id l) sv in
        if limited then (Err too_many_failures, sv)
        else if se_feature env then
          if negb (insecure_static_token_allowed (se_var env)) then (Err static_token_forbidden, sv)
          else match auth_token (sv_config sv), client_token with
               | Some expected, Some provided =>
                   if bool_decide (token_digest (as_bytes expected) = token_digest (as_bytes provided))
                   then (Ok (Some provided), sv)
                   else (Err invalid_token, failed)
               | Some _, None => (Err no_token, failed)
               | None, _ => (Err token_not_configured, sv)
               end
        else (Err feature_missing, failed)
      else (Ok client_token, sv)
  end.

(** Size, decoding and structure of the message. *)
Definition decode_request (raw : list byte) (sv : KmipServer) : comp (result ParsedRequest Refusal) Empty_set :=
  if max_message_size (sv_config sv) <? len raw
  then COk (Err (Reason.InvalidMessage, "message exceeds maximum size"))
  else
    match decode_ttlv_with_limits raw
            {| max_depth := MAX_TTLV_DEPTH; max_items := MAX_TTLV_ITEMS;
               max_bytes := max_message_size (sv_config sv) |} with
    | CErr _ => COk (Err (Reason.InvalidMessage, "failed to decode TTLV request"))
    | CPanic => CPanic
    | CDiverge => CDiverge
    | COk (item, _) =>
        COk (match parse_request_with_meta item with
             | None => Err (Reason.InvalidMessage, "malformed KMIP request")
             | Some parsed =>
                 if match pr_batch_count parsed with
                    | Some declared => negb (declared mod 2 ^ 64 =? pr_actual_batch_items parsed)
                    | None => false
                    end
                 then Err (Reason.InvalidMessage, "BatchCount header does not match number of BatchItem children")
                 else if bool_decide (pr_requests parsed = [])
                 then Err (Reason.InvalidMessage, "request contained no BatchItem entries")
                 else Ok parsed
             end)
    end.

(** The caller's identity and the ownership policy on a request. *)
Definition attach_identity (identity : option string) (strict : bool) (r : KmipRequest) : KmipRequest :=
  mkRequest (req_operation r) (req_unique_id r) (req_attributes r) identity strict.

(** The replay defence. *)
Definition check_correlation (env : ServerEnv) (identity ccv : option string) (sv : KmipServer)
    : result unit Refusal * KmipServer :=
  if require_correlation_value (sv_options sv) then
    match ccv with
    | Some v =>
        if String.eqb v "" then
          (Err (Reason.InvalidMessage, "ClientCorrelationValue is required by server policy"), sv)
        else
          let '(dup, c) := check_and_record (se_replay_now env) identity v (sv_replay sv) in
          let sv := set_replay c sv in
          if dup
          then (Err (Reason.PermissionDenied, "duplicate ClientCorrelationValue within replay window"), sv)
          else (Ok tt, sv)
    | None => (Err (Reason.InvalidMessage, "ClientCorrelationValue is required by server policy"), sv)
    end
  else (Ok tt, sv).

Definition wrap_material (kek : option (list byte -> result (list byte) string)) (response : KmipResponse)
    : KmipResponse :=
  match kek, resp_key_material response with
  | Some wrap, Some material =>
      match wrap material with
      | Ok wrapped => set_key_material (Some wrapped) response
      | Err _ => KmipResponse_error Reason.CryptographicFailure "KEK wrap failed"
      end
  | _, _ => response
  end.

(** One turn of the dispatch loop. *)
Definition process_item (env : OsEnv) (identity_log : string) (request : KmipRequest) (sv : KmipServer)
    : KmipResponse * KmipServer :=
  let decision :=
    if operation_requires_acl (req_operation request)
    then sv_acl sv (req_caller_identity request) (req_operation request) (req_unique_id request)
    else Allow in
  match decision with
  | Deny reason =>
      (KmipResponse_error reason
         ("ACL denied " +:+ Operation.KmipOperation_fmt (req_operation request) +:+ " for caller " +:+ identity_log), sv)
  | Allow =>
      let '(response, store) := dispatch_operation env request (sv_store sv) in
      (wrap_material (sv_kek sv) response, set_store store sv)
  end.

Fixpoint dispatch_batch (env : nat -> OsEnv) (identity_log : string) (requests : list KmipRequest)
    (sv : KmipServer) : list KmipResponse * KmipServer :=
  match requests with
  | [] => ([], sv)
  | request :: rest =>
      let '(response, sv) := process_item (env O) identity_log request sv in
      let '(responses, sv) := dispatch_batch (fun n => env (Datatypes.S n)) identity_log rest sv in
      (response :: responses, sv)
  end.

Definition answer (env : ServerEnv) (resps : list KmipResponse) (pv : ProtocolVersion) (sv : KmipServer)
    : comp (list byte * KmipServer) Empty_set :=
  let? bytes := encode_response_batch (se_encode_secs env) (se_fallback_secs env) resps pv in
  COk (bytes, sv).

Definition encode_error_response (env : ServerEnv) (why : Refusal) (sv : KmipServer)
    : comp (list byte * KmipServer) Empty_set :=
  answer env [KmipResponse_error why.1 why.2] ProtocolVersion_default sv.

Definition process_message_internal (env : ServerEnv) (raw : list byte)
    (client_token preauth_identity peer : option string) (sv : KmipServer)
    : comp (list byte * KmipServer) Empty_set :=
  match authenticate env client_token preauth_identity peer sv with
  | (Err why, sv) => encode_error_response env why sv
  | (Ok identity, sv) =>
      let? decoded := decode_request raw sv in
      match decoded with
      | Err why => encode_error_response env why sv
      | Ok parsed =>
          let requests :=
            map (attach_identity identity (strict_owner_acl (sv_options sv))) (pr_requests parsed) in
          let identity_log := log_identity_tag identity (hash_identity_in_logs (sv_options sv)) in
          match check_correlation env identity (pr_client_correlation_value parsed) sv with
          | (Err why, sv) => encode_error_response env why sv
          | (Ok _, sv) =>
              let '(responses, sv) := dispatch_batch (se_item env) identity_log requests sv in
              answer env responses (pr_protocol_version parsed) sv
          end
      end
  end.

Definition process_message_with_identity (env : ServerEnv) (raw : list byte) (identity : string)
    (sv : KmipServer) := process_message_internal env raw None (Some identity) None sv.
Definition process_message_with_peer (env : ServerEnv) (peer : string) (raw : list byte)
    (client_token : option string) (sv : KmipServer) :=
  process_message_internal env raw client_token None (Some peer) sv.
Definition process_message_with_auth (env : ServerEnv) (raw : list byte) (client_token : option string)
    (sv : KmipServer) := process_message_internal env raw client_token None None sv.
Definition process_message (env : ServerEnv) (raw : list byte) (sv : KmipServer) :=
  process_message_with_auth env raw None sv.

(** ** Sessions *)

Inductive SessionError : Type := UnexpectedEof | MessageTooBig | EncodingFailed.

(** [stream] is what the peer sends before it closes. *)
Definition read_ttlv_message (stream : list byte) (max_message_size : Z) : result (list byte) SessionError :=
  if len stream <? 8 then Err UnexpectedEof
  else
    let header := take 8 stream in
    let length := from_be_bytes (take 4 (drop 4 header)) in
    if saturating_sub max_message_size 8 <? length then Err MessageTooBig
    else
      let padded := (length + 7) / 8 * 8 in
      if max_message_size <? len header + padded then Err MessageTooBig
      else if len stream <? 8 + padded then Err UnexpectedEof
      else Ok (header ++ take (Z.to_nat padded) (drop 8 stream)).

(** What is written to the peer. *)
Definition handle_one_session (env : ServerEnv) (stream : list byte) (identity : option string)
    (peer : string) (max : Z) (sv : KmipServer) : comp (list byte * KmipServer) SessionError :=
  match read_ttlv_message stream max with
  | Err e => CErr e
  | Ok bytes =>
      match (match identity with
             | Some id => process_message_with_identity env bytes id sv
             | None => process_message_with_peer env peer bytes None sv
             end) with
      | COk ([], _) => CErr EncodingFailed
      | COk r => COk r
      | CErr e => match e with end
      | CPanic => CPanic
      | CDiverge => CDiverge
      end
  end.

Definition normalize_dns_identity (input : string) : option string :=
  let b := as_bytes input in
  if bool_decide (b = []) then None
  else if negb (forallb (fun x => byte.unsigned x <? 0x80) b) then None
  else if existsb (fun x => (byte.unsigned x <? 0x20) || (byte.unsigned x =? 0x7F)
                            || is_whitespace (byte.unsigned x)) b then None
  else
    let trimmed := match rev b with Byte.x2e :: r => rev r | _ => b end in
    if bool_decide (trimmed = []) then None
    else Some (to_ascii_lowercase (from_bytes trimmed)).

End Server.
