(* ===== verification/KmipMessageProofs.v ===== *)
(** * Correctness of the KMIP message layer

    Every message is answered; nothing reaches the store without credentials; the
    isolation of owners holds for whole messages; replays are refused; what the failure
    limiter does and does not bound. *)

From coqutil Require Import Byte.
From stdpp Require Import prelude gmap strings list pretty.
From Stdlib Require Import ZArith Lia.
From S2P Require Import Prelude RustStd KmipTypes KmipTtlv KmipTtlvProofs KmipStore KmipStoreProofs KmipHandlers KmipHandlersProofs KmipMessage.
Local Open Scope string_scope.
Local Open Scope list_scope.
Local Open Scope Z_scope.

(** ** The size of an encoding *)

Definition leaf_size (v : TtlvValue) : Z :=
  match v with
  | VStructure _ => 0
  | VInteger _ | VEnumeration _ => 4
  | VLongInteger _ | VDateTime _ | VBoolean _ => 8
  | VBigInteger b | VTextString b | VByteString b => len b
  end.

Fixpoint item_size (i : TtlvItem) : Z :=
  let '(Item _ v) := i in
  8 + match v with
      | VStructure cs => foldr (fun c n => item_size c + n) 0 cs
      | v => padded_len (leaf_size v)
      end.

Lemma leaf_size_eq v : len (leaf_body v) = leaf_size v.
Proof. destruct v; simpl; try done; apply to_be_bytes_len. Qed.

Lemma item_size_ge_8 i : 8 <= item_size i.
Proof.
  induction i as [tag cs IH | tag v Hv] using TtlvItem_nested_ind; simpl.
  - assert (0 <= foldr (fun c n => item_size c + n) 0 cs); [|lia].
    induction IH as [|c cs Hc _ IHc]; simpl; lia.
  - pose proof (len_nonneg (leaf_body v)) as Hn. rewrite leaf_size_eq in Hn.
    pose proof (padded_len_bounds (leaf_size v) Hn). destruct v; try lia. by destruct (Hv children).
Qed.

Lemma sizes_nonneg cs : 0 <= foldr (fun c n => item_size c + n) 0 cs.
Proof. induction cs as [|c cs IH]; simpl; [done|]. pose proof (item_size_ge_8 c). lia. Qed.

(** An item whose size is within the limit is encoded, into that many bytes. *)
Lemma enc_fits i : item_size i <= 8 + MAX_TTLV_ENCODE_SIZE -> exists bs, enc i = Ok bs /\ len bs = item_size i.
Proof.
  induction i as [tag cs IH | tag v Hv] using TtlvItem_nested_ind; intros Hs.
  - rewrite enc_structure. simpl item_size in Hs |- *.
    assert (exists body, enc_list cs = Ok body /\ len body = foldr (fun c n => item_size c + n) 0 cs) as (body & Hb & Hl).
    { revert Hs. induction IH as [|c cs Hc _ IHc]; simpl; intros Hs; [by exists []|].
      pose proof (sizes_nonneg cs). pose proof (item_size_ge_8 c).
      destruct Hc as (b & -> & Hb); [lia|]. destruct IHc as (r & -> & Hr); [lia|].
      exists (b ++ r). split; [done|]. rewrite len_app. lia. }
    rewrite Hb. cbn [result_bind]. rewrite (proj2 (Z.ltb_ge _ _)) by lia. eexists. split; [done|].
    rewrite len_app, header_len_8. lia.
  - rewrite enc_leaf_eq by done. unfold enc_leaf. rewrite leaf_size_eq.
    pose proof (len_nonneg (leaf_body v)) as Hn. rewrite leaf_size_eq in Hn.
    pose proof (padded_len_bounds (leaf_size v) Hn).
    assert (item_size (Item tag v) = 8 + padded_len (leaf_size v)) as Hz by (destruct v; try done; by destruct (Hv children)).
    rewrite Hz in *. rewrite (proj2 (Z.ltb_ge _ _)) by lia. eexists. split; [done|].
    rewrite !len_app, header_len_8, pad_len, leaf_size_eq by done. lia.
Qed.

(** ** Every message is answered *)

Section Answers.
Context {SC : ServerCrates} {S : Type} {KS : KmipKeyStore S} {MI : MapIter}.
Implicit Types (sv : KmipServer (S := S)) (env : ServerEnv).

Lemma fallback_encodes now pv : exists bs, enc (response_message now [fallback_response] pv) = Ok bs.
Proof.
  destruct (enc_fits (response_message now [fallback_response] pv)) as (bs & Hb & _); [|by exists bs].
  by vm_compute.
Qed.

(** [bs] is the frame of [resps], or of the substitute if [resps] take more bytes than a
    frame may have. *)
Definition framed env (resps : list KmipResponse) (pv : ProtocolVersion) (bs : list byte) : Prop :=
  enc (response_message (se_encode_secs env) resps pv) = Ok bs \/
  8 + MAX_TTLV_ENCODE_SIZE < item_size (response_message (se_encode_secs env) resps pv) /\
  enc (response_message (se_fallback_secs env) [fallback_response] pv) = Ok bs.

Lemma answer_framed env resps pv sv :
  exists bs, answer env resps pv sv = COk (bs, sv) /\ framed env resps pv bs.
Proof.
  unfold answer, encode_response_batch, encode_response_batch_inner, framed. rewrite !encode_ttlv_enc.
  destruct (enc (response_message _ resps pv)) as [bs|e] eqn:Ee; [by exists bs; split; [|left]|].
  destruct (fallback_encodes (se_fallback_secs env) pv) as [bs Hb]. rewrite Hb. exists bs.
  split; [done|]. right. split; [|done]. apply Z.nle_gt. intros (b & E & _)%enc_fits. by rewrite Ee in E.
Qed.

(** The versions the server answers with. *)
Definition version_ok (pv : ProtocolVersion) : Prop :=
  (pv_major pv = 1 /\ 0 <= pv_minor pv) \/ (pv_major pv = 2 /\ 0 <= pv_minor pv <= 1).

Lemma negotiate_ok maj min :
  let '(a, b) := negotiate_protocol_version maj min in version_ok (mkVersion a b).
Proof.
  unfold negotiate_protocol_version, version_ok, SERVER_MAX_PROTOCOL_MAJOR, SERVER_MAX_PROTOCOL_MINOR in *.
  repeat case_if; simpl; bool_to_prop; lia.
Qed.

Lemma header_version_ok cs h : version_ok (hm_version h) -> version_ok (hm_version (foldl header_child h cs)).
Proof.
  revert h. induction cs as [|c cs IH]; intros h Hh; [done|]. cbn [foldl]. apply IH.
  unfold header_child. repeat case_match; simpl; try done.
  match goal with E : negotiate_protocol_version ?a ?b = _ |- _ => pose proof (negotiate_ok a b) as Hn; by rewrite E in Hn end.
Qed.

Definition config_ok (c : KmipServerConfig) : Prop := 0 <= max_message_size c <= u64_max.

Definition request_limits (c : KmipServerConfig) : TtlvLimits :=
  {| max_depth := MAX_TTLV_DEPTH; max_items := MAX_TTLV_ITEMS; max_bytes := max_message_size c |}.

Lemma request_limits_ok c : config_ok c -> limits_ok (request_limits c).
Proof. intros [Hm _]. split; [done|]. split; done. Qed.

Lemma len_omap_le {A B} (f : A -> option B) (l : list A) : len (omap f l) <= len l.
Proof.
  unfold len. apply inj_le. induction l as [|x l IH]; [done|]. cbn. destruct (f x); cbn in *; lia.
Qed.

Lemma parse_width item parsed :
  item_width_ok MAX_TTLV_ITEMS item = true -> parse_request_with_meta item = Some parsed ->
  len (pr_requests parsed) <= MAX_TTLV_ITEMS /\ version_ok (pr_protocol_version parsed).
Proof.
  intros Hw. unfold parse_request_with_meta. destruct item as [tag [cs|v|v|v|v|v|v|v|v]]; try done.
  cbn [item_value]. case_if; [done|]. intros [= <-]. simpl. split.
  - simpl in Hw. apply andb_true_iff in Hw as [Hw _]. apply Z.leb_le in Hw.
    etrans; [apply len_omap_le|]. etrans; [|exact Hw]. unfold len. apply inj_le, length_filter.
  - assert (version_ok ProtocolVersion_default) by (right; simpl; lia).
    case_match; [|done]. case_match; try done. by apply header_version_ok.
Qed.

Lemma decode_request_spec raw sv :
  config_ok (sv_config sv) ->
  exists r, decode_request raw sv = COk r /\
    forall parsed, r = Ok parsed ->
      1 <= len (pr_requests parsed) <= MAX_TTLV_ITEMS /\ version_ok (pr_protocol_version parsed).
Proof.
  intros Hc%request_limits_ok. unfold decode_request. case_if; [by eexists|].
  fold (request_limits (sv_config sv)).
  pose proof (decode_with_limits_returns raw _ Hc) as [Hp Hd].
  destruct (decode_ttlv_with_limits raw (request_limits (sv_config sv))) as [[item n]|e| |] eqn:Ed; [|by eexists|done..].
  eexists. split; [done|]. intros parsed. case_match eqn:Hparse; [|done]. case_if; [done|].
  case_bool_decide as Hn; [done|]. intros [= <-].
  destruct (decode_with_limits_inv _ _ _ _ Hc Ed) as (cx' & Hs).
  destruct (parse_width item p (ds_width _ _ _ _ _ _ Hs) Hparse) as [Hl Hv]. split; [|done].
  split; [|done]. destruct (pr_requests p); [done|]. rewrite len_cons. pose proof (len_nonneg l). lia.
Qed.

Lemma dispatch_batch_length envs id_log reqs sv : len (dispatch_batch envs id_log reqs sv).1 = len reqs.
Proof.
  revert envs sv. induction reqs as [|r reqs IH]; intros envs sv; [done|]. cbn [dispatch_batch].
  destruct (process_item (envs O) id_log r sv) as [resp sv1].
  specialize (IH (fun n => envs (Datatypes.S n)) sv1).
  destruct (dispatch_batch _ id_log reqs sv1) as [resps sv2]. simpl in *. rewrite !len_cons. lia.
Qed.

Lemma authenticate_frame env token preauth peer sv :
  let sv' := (authenticate env token preauth peer sv).2 in
  sv_store sv' = sv_store sv /\ sv_config sv' = sv_config sv /\ sv_options sv' = sv_options sv
  /\ sv_acl sv' = sv_acl sv /\ sv_replay sv' = sv_replay sv.
Proof.
  unfold authenticate. destruct preauth; [done|]. destruct (require_auth _); [|done].
  destruct (is_rate_limited _ _ _ _) as [b l]. repeat case_match; done.
Qed.

Definition answered env (resps : list KmipResponse) (pv : ProtocolVersion) (bs : list byte) : Prop :=
  framed env resps pv bs /\ 0 < len bs /\ version_ok pv /\ 1 <= len resps <= MAX_TTLV_ITEMS.

Lemma answer_answered env resps pv sv :
  version_ok pv -> 1 <= len resps <= MAX_TTLV_ITEMS ->
  exists bs, answer env resps pv sv = COk (bs, sv) /\ answered env resps pv bs.
Proof.
  intros Hv Hl. destruct (answer_framed env resps pv sv) as (bs & Ha & Hf).
  exists bs. split; [done|]. split; [done|]. split; [|done].
  destruct Hf as [He|[_ He]]; apply enc_len_ge_8 in He; lia.
Qed.

Definition refusal (why : Reason.KmipResultReason * string) : list KmipResponse :=
  [KmipResponse_error why.1 why.2].

Lemma refusal_answered env why sv :
  exists bs, encode_error_response env why sv = COk (bs, sv)
    /\ answered env (refusal why) ProtocolVersion_default bs.
Proof. apply answer_answered; [by right; simpl; lia|done]. Qed.

(** Each request is served in turn, in the state its predecessors left. *)
Inductive served (id_log : string) : (nat -> OsEnv) -> list KmipRequest -> KmipServer (S := S) -> list KmipResponse -> KmipServer (S := S) -> Prop :=
| served_nil envs sv : served id_log envs [] sv [] sv
| served_cons envs req reqs sv resp sv1 resps sv2 :
    process_item (envs O) id_log req sv = (resp, sv1) ->
    served id_log (fun n => envs (Datatypes.S n)) reqs sv1 resps sv2 ->
    served id_log envs (req :: reqs) sv (resp :: resps) sv2.

Lemma dispatch_batch_served envs id_log reqs sv : 
  served id_log envs reqs sv (dispatch_batch envs id_log reqs sv).1 (dispatch_batch envs id_log reqs sv).2.
Proof.
  revert envs sv. induction reqs as [|req reqs IH]; intros envs sv; cbn [dispatch_batch]; [constructor|].
  destruct (process_item (envs O) id_log req sv) as [resp sv1] eqn:E.
  specialize (IH (fun n => envs (Datatypes.S n)) sv1). destruct (dispatch_batch _ id_log reqs sv1) as [resps sv2].
  by econstructor.
Qed.

(** Why a message is refused as a whole. *)
Definition refused_because env raw token preauth peer sv (why : Reason.KmipResultReason * string) sv' : Prop :=
  authenticate env token preauth peer sv = (Err why, sv') \/
  exists identity sv1, authenticate env token preauth peer sv = (Ok identity, sv1) /\
    (decode_request raw sv1 = COk (Err why) /\ sv' = sv1 \/
     exists parsed, decode_request raw sv1 = COk (Ok parsed) /\
       check_correlation env identity (pr_client_correlation_value parsed) sv1 = (Err why, sv')).

(** The answer to a refused message. *)
Ltac answer_refusal :=
  match goal with |- exists bs sv' resps pv, encode_error_response ?env ?why ?sv0 = _ /\ _ =>
    let bs := fresh "bs" in let He := fresh in let Ha := fresh in
    destruct (refusal_answered env why sv0) as (bs & He & Ha);
    exists bs, sv0, (refusal why), ProtocolVersion_default; split; [exact He|]; split; [exact Ha|];
    left; exists why; split; [|done] end.


(** ** Authentication *)

(** The credentials that the static-token gate accepts. *)
Definition presents_token env (c : KmipServerConfig) (token : option string) : Prop :=
  se_feature env = true /\ insecure_static_token_allowed (se_var env) = true /\
  exists expected provided, auth_token c = Some expected /\ token = Some provided /\
    token_digest (as_bytes expected) = token_digest (as_bytes provided).

(** C7: nothing without credentials: when authentication is required, a message without
    an identity from the transport whose token does not have the digest of the configured
    one (or that reaches a build or an environment that forbids static tokens) is
    answered with PermissionDenied, and leaves the store and the replay cache as they
    were, whatever its bytes are. *)
Theorem no_access_without_credentials env raw token peer sv :
  require_auth (sv_config sv) = true -> ~ presents_token env (sv_config sv) token ->
  exists bs sv' msg, process_message_internal env raw token None peer sv = COk (bs, sv') /\
    framed env [KmipResponse_error Reason.PermissionDenied msg] ProtocolVersion_default bs /\
    sv_store sv' = sv_store sv /\ sv_replay sv' = sv_replay sv.
Proof.
  intros Hreq Hno. unfold process_message_internal.
  pose proof (authenticate_frame env token None peer sv) as (Hs & _ & _ & _ & Hrep).
  assert (exists msg sv1, authenticate env token None peer sv = (Err (Reason.PermissionDenied, msg), sv1))
    as (msg & sv1 & Ha).
  { unfold authenticate. rewrite Hreq. destruct (is_rate_limited _ _ _ _) as [[] l]; [by do 2 eexists|].
    destruct (se_feature env) eqn:Hf; [|by do 2 eexists].
    destruct (insecure_static_token_allowed (se_var env)) eqn:Hv; [|by do 2 eexists]. cbn [negb].
    change (sv_config (set_rate_limiter l sv)) with (sv_config sv).
    destruct (auth_token (sv_config sv)) as [expected|] eqn:He; [|by do 2 eexists].
    destruct token as [provided|]; [|by do 2 eexists].
    case_bool_decide as Hd; [|by do 2 eexists]. destruct Hno. split; [done|]. split; [done|]. by exists expected, provided. }
  rewrite Ha in *. simpl in Hs, Hrep.
  destruct (refusal_answered env (Reason.PermissionDenied, msg) sv1) as (bs & Hb & Hf & _).
  exists bs, sv1, msg. by rewrite Hb.
Qed.

End Answers.

(** ** Isolation of owners, for whole messages *)

(** The objects are stored under their own identifiers. *)
Definition ids_inv (s : InMemoryKeyStore) : Prop :=
  forall id o, objects s !! id = Some o -> obj_id o = id.

(** What the message layer needs of the store while a batch runs: the laws with [ids_inv]
    only, since an item may register an object under an identifier that is still to be
    issued. *)
#[local] Instance batch_laws `{MapIter} : KmipKeyStoreLaws InMemoryKeyStore := {|
  ks_inv := ids_inv;
  law_get_id := fun s id o Hi Ho => Hi id o Ho;
  law_probe := @law_probe _ _ InMemoryKeyStore_laws;
  law_create := @law_create _ _ InMemoryKeyStore_laws;
  law_activate := @law_activate _ _ InMemoryKeyStore_laws;
  law_revoke := @law_revoke _ _ InMemoryKeyStore_laws;
  law_destroy := @law_destroy _ _ InMemoryKeyStore_laws;
  law_register := @law_register _ _ InMemoryKeyStore_laws;
  law_add_attributes := @law_add_attributes _ _ InMemoryKeyStore_laws;
  law_modify_attributes := @law_modify_attributes _ _ InMemoryKeyStore_laws;
  law_delete_attributes := @law_delete_attributes _ _ InMemoryKeyStore_laws;
  law_decrement := @law_decrement _ _ InMemoryKeyStore_laws;
|}.

Lemma ids_effect raw id s s' : op_effect raw id s s' -> ids_inv s -> ids_inv s' /\ counter s' = counter s.
Proof.
  intros He Hi. destruct He as [|o o' Ho Hev _|o o' Ho Hev _ _]; [done| |].
  all: split; [|cbn; unfold index_remove; by repeat case_match].
  all: intros i x; rewrite objects_touch; intros [[<- <-]|[_ Hx]]%lookup_insert_Some;
    [cbn; rewrite (ev_id _ _ Hev); by apply Hi|].
  all: apply Hi; revert Hx; unfold index_remove; by repeat case_match.
Qed.

Lemma ids_register raw id ot km a s :
  ids_inv s -> ids_inv (register raw id ot km a s).2 /\ counter (register raw id ot km a s).2 = counter s.
Proof.
  intros Hi. split.
  - intros i x. rewrite objects_register. case_match; [apply Hi|].
    intros [[<- <-]|[_ Hx]]%lookup_insert_Some; [done|by apply Hi].
  - unfold register, now_epoch. cbn [objects]. by case_match.
Qed.

Lemma ids_create raw ot km a s :
  ids_inv s -> ids_inv (create raw ot km a s).2 /\ counter (create raw ot km a s).2 = u64_succ (counter s).
Proof.
  intros Hi. split; [|done]. intros i x. rewrite objects_create.
  intros [[<- <-]|[_ Hx]]%lookup_insert_Some; [done|by apply Hi].
Qed.

Section Isolated.
Context {SC : ServerCrates} {MI : MapIter}.
Implicit Types (sv : KmipServer (S := InMemoryKeyStore)).

Definition counts_on (s s' : InMemoryKeyStore) : Prop :=
  ids_inv s' /\ (counter s' = counter s \/ counter s' = u64_succ (counter s)).

Lemma counts_on_refl s : ids_inv s -> counts_on s s.
Proof. intros Hi. split; [done|by left]. Qed.
Lemma counts_on_effect raw id s s' : ids_inv s -> op_effect raw id s s' -> counts_on s s'.
Proof. intros Hi He. destruct (ids_effect _ _ _ _ He Hi). split; [done|by left]. Qed.
Lemma counts_on_register raw id ot km a s : ids_inv s -> counts_on s (register raw id ot km a s).2.
Proof. intros Hi. destruct (ids_register raw id ot km a s Hi). split; [done|by left]. Qed.
Lemma counts_on_create raw ot km a s : ids_inv s -> counts_on s (create raw ot km a s).2.
Proof. intros Hi. destruct (ids_create raw ot km a s Hi). split; [done|by right]. Qed.

Hint Resolve counts_on_refl counts_on_register counts_on_create : rust.

Lemma dispatch_counts env req (s : InMemoryKeyStore) resp s' :
  ids_inv s -> dispatch_operation env req s = (resp, s') -> counts_on s s'.
Proof.
  intros Hi Hd. unfold dispatch_operation in Hd. destruct (req_operation req);
    unfold process_create, process_get, process_activate, process_revoke, process_destroy,
      process_query, process_get_attributes, process_register, process_locate, process_check,
      process_add_attribute, process_modify_attribute, process_delete_attribute,
      process_derive_key, process_rng_retrieve, acl_checked_transition in Hd;
    repeat case_match; simplify_eq; try (by apply counts_on_refl);
    repeat match goal with
    | E : ?f = (?r, ?s') |- counts_on _ ?s' => replace s' with (f).2 by (by rewrite E); clear E
    end;
    cbv [ks_create ks_activate ks_revoke ks_destroy ks_register ks_add_attributes
      ks_modify_attributes ks_delete_attributes ks_decrement_usage_counter
      InMemoryKeyStore_KmipKeyStore];
    first [ solve [eauto with rust] | eapply counts_on_effect; [done|]; eauto with rust ].
Qed.

Lemma issued_id env req (s : InMemoryKeyStore) resp s' j :
  dispatch_operation env req s = (resp, s') -> issues_id (req_operation req) = true ->
  resp_unique_id resp = Some j -> j = gen_id (counter s).
Proof.
  intros Hd Ho Hj. unfold dispatch_operation in Hd. destruct (req_operation req); try done;
    unfold process_create, process_derive_key in Hd;
    repeat case_match; simplify_eq/=; try done;
    first [ match goal with E : create _ _ _ _ _ = _ |- _ => by apply (f_equal fst) in E end
          | match goal with Hr : resp_unique_id ?r = Some _ |- _ =>
              assert (error_response r) as He by eauto with rust;
              apply error_no_ids in He as [_ ?]; congruence end ].
Qed.

Section Owned.
Variables (j : string) (o : KmipStoredObject) (w : string).
Hypothesis Hown : obj_attributes o !! "owner" = Some (Attr.Text w).

(** The object is there, and none of the next [k] identifiers is its own. *)
Definition keeps_object (k : Z) (s : InMemoryKeyStore) : Prop :=
  ids_inv s /\ get j s = Some o /\ forall n, 0 <= n < k -> j <> gen_id ((counter s + n) mod 2 ^ 64).

(** What an item of the answer may tell about the object: a request that names it gets an
    error, and no other lists it, Query's constant list of capabilities apart. *)
Definition hides (req : KmipRequest) (resp : KmipResponse) : Prop :=
  (targets_object (req_operation req) = true -> req_unique_id req = Some j -> error_response resp) /\
  (req_operation req <> Operation.Query -> j ∉ resp_located_ids resp).

Lemma keeps_object_le k k' s : keeps_object k s -> k' <= k -> keeps_object k' s.
Proof. intros (Hi & Hg & Hf) Hk. split; [done|]. split; [done|]. intros n Hn. apply Hf. lia. Qed.

Lemma item_isolated env req s resp s' k :
  in_u64 (counter s) -> keeps_object (1 + k) s -> 0 <= k -> req_caller_identity req <> Some w ->
  dispatch_operation env req s = (resp, s') -> keeps_object k s' /\ in_u64 (counter s').
Proof.
  intros Hu (Hi & Hg & Hf) Hk Hid Hd.
  assert (ks_get j s = Some o) as Hj by exact Hg.
  assert (ks_get j s' = Some o) as Hj'.
  { destruct (decide (targets_object (req_operation req) = true /\ req_unique_id req = Some j)) as [[Ht Hr]|Hn].
    - destruct (targeted_refused env j o w Hown req s Hj Hid Ht Hr) as (r & E & _). congruence.
    - rewrite <- Hj. eapply (untargeted_unchanged env j o); [exact Hi|exact Hj| | |exact Hd].
      { intros Ht Hr. by apply Hn. }
      intros Ho Hr. apply (Hf 0); [lia|]. rewrite Z.add_0_r, Z.mod_small by (unfold in_u64 in Hu; lia). by eapply issued_id. }
  destruct (dispatch_counts _ _ _ _ _ Hi Hd) as [Hi' [Hcnt|Hcnt]].
  - split; [|by rewrite Hcnt]. split; [done|]. split; [done|]. rewrite Hcnt. intros n Hn. apply Hf. lia.
  - assert (counter s' = (counter s + 1) mod 2 ^ 64) as E by (rewrite Hcnt; done).
    split; [|rewrite E; unfold in_u64; pose proof (Z.mod_pos_bound (counter s + 1) (2 ^ 64)); lia].
    split; [done|]. split; [done|]. rewrite E. intros n Hn. rewrite Zplus_mod_idemp_l.
    replace (counter s + 1 + n) with (counter s + (1 + n)) by lia. apply Hf. lia.
Qed.

Lemma wrap_error kek r : error_response r -> error_response (wrap_material kek r).
Proof. intros (c & m & ->). unfold wrap_material. destruct kek; by exists c, m. Qed.

Lemma wrap_located kek r : j ∉ resp_located_ids r -> j ∉ resp_located_ids (wrap_material kek r).
Proof. unfold wrap_material. repeat case_match; simpl; try done. by intros _ ?%elem_of_nil. Qed.

Lemma item_hides env req s resp s' kek :
  get j s = Some o -> req_caller_identity req <> Some w ->
  dispatch_operation env req s = (resp, s') -> hides req (wrap_material kek resp).
Proof.
  intros Hg Hid Hd. assert (ks_get j s = Some o) as Hj by exact Hg. split.
  - intros Ht Hr. destruct (targeted_refused env j o w Hown req s Hj Hid Ht Hr) as (x & E & c & m & -> & _).
    rewrite E in Hd. injection Hd as <- <-. apply wrap_error. by exists c, m.
  - intros Hq. apply wrap_located. destruct (decide (req_operation req = Operation.Locate)) as [Hl|Hl].
    + by eapply (locate_hidden env j o w).
    + erewrite (no_located_ids env req s) by done. by intros ?%elem_of_nil.
Qed.

Lemma error_hides req r m : hides req (KmipResponse_error r m).
Proof. split; [by exists r, m|]. by intros _ ?%elem_of_nil. Qed.

Lemma batch_isolated envs idl reqs sv resps sv' :
  in_u64 (counter (sv_store sv)) -> keeps_object (len reqs) (sv_store sv) -> Forall (fun r => req_caller_identity r <> Some w) reqs ->
  dispatch_batch envs idl reqs sv = (resps, sv') ->
  get j (sv_store sv') = Some o /\ Forall2 hides reqs resps.
Proof.
  intros Hu Hk Hr. revert envs sv resps sv' Hu Hk. induction Hr as [|r reqs Hid _ IH]; intros envs sv resps sv' Hu Hk; cbn [dispatch_batch].
  { intros [= <- <-]. split; [apply Hk|constructor]. }
  destruct (process_item (envs O) idl r sv) as [resp sv1] eqn:Hp.
  destruct (dispatch_batch _ idl reqs sv1) as [rest sv2] eqn:Hb. intros [= <- <-].
  assert ((keeps_object (len reqs) (sv_store sv1) /\ in_u64 (counter (sv_store sv1))) /\ hides r resp) as [[Hk1 Hu1] Hh].
  { rewrite len_cons in Hk. pose proof (len_nonneg reqs). unfold process_item in Hp. case_match.
    - destruct (dispatch_operation (envs O) r (sv_store sv)) as [rd s1] eqn:Hd. injection Hp as <- <-. simpl.
      split; [by eapply item_isolated|]. eapply item_hides; [apply Hk|done|done].
    - injection Hp as <- <-. split; [|apply error_hides]. split; [|done]. eapply keeps_object_le; [exact Hk|lia]. }
  destruct (IH _ _ _ _ Hu1 Hk1 Hb) as [Hg Hf]. split; [done|by constructor].
Qed.

(** C1: owners are isolated at the level of messages. Take any bytes of a caller who was not
    authenticated as the owner [w] of an object, and suppose that the identifier of the
    object is none of those that Create issues next, as many as a message has items at most.
    Then the object is afterwards exactly what it was, every item that names it is answered
    with an error, and no item lists its identifier (Query's constant list of capabilities
    apart). The condition fails only for an object registered under an identifier that
    Create had yet to issue, which a Create replaces: create_overwrites_registered. *)
Theorem message_isolation env raw token preauth peer sv bs sv' :
  config_ok (sv_config sv) -> store_core (sv_store sv) ->
  get j (sv_store sv) = Some o ->
  (forall n, 0 <= n < MAX_TTLV_ITEMS -> j <> gen_id ((counter (sv_store sv) + n) mod 2 ^ 64)) ->
  (forall sv1, authenticate env token preauth peer sv <> (Ok (Some w), sv1)) ->
  process_message_internal env raw token preauth peer sv = COk (bs, sv') ->
  get j (sv_store sv') = Some o /\ exists resps pv, framed env resps pv bs /\
    ((exists why, resps = refusal why) \/
     exists identity sv1 parsed, authenticate env token preauth peer sv = (Ok identity, sv1) /\
       decode_request raw sv1 = COk (Ok parsed) /\ Forall2 hides (pr_requests parsed) resps).
Proof.
  intros Hc Hinv Hg Hnext Hid Hp. unfold process_message_internal in Hp.
  pose proof (authenticate_frame env token preauth peer sv) as (Hst & Hcfg & _).
  assert (forall why sv0 bs sv' (P : list KmipResponse -> Prop), encode_error_response env why sv0 = COk (bs, sv') ->
    sv_store sv0 = sv_store sv -> get j (sv_store sv') = Some o /\ exists resps pv, framed env resps pv bs /\ ((exists why, resps = refusal why) \/ P resps)) as Herr.
  { intros why sv0 b s1 P He Hs0. destruct (refusal_answered env why sv0) as (b' & He' & Hf & _).
    rewrite He in He'. injection He' as <- <-. rewrite Hs0. split; [done|]. eexists _, _. split; [done|]. left. eauto. }
  destruct (authenticate env token preauth peer sv) as [[identity|why] sv1] eqn:Ea; simpl in Hst, Hcfg; [|by eapply Herr].
  destruct (decode_request_spec raw sv1) as (r & Hd & Hr); [by rewrite Hcfg|].
  rewrite Hd in Hp. cbn [comp_bind] in Hp. destruct r as [parsed|why]; [|by eapply Herr].
  destruct (Hr parsed eq_refl) as [Hl Hv].
  destruct (check_correlation _ _ _ _) as [rc sv2] eqn:Hcc.
  assert (sv_store sv2 = sv_store sv) as Hst2.
  { rewrite <- Hst. unfold check_correlation in Hcc. repeat case_match; by simplify_eq. }
  destruct rc as [[]|why]; [|by eapply Herr].
  destruct (dispatch_batch _ _ _ sv2) as [resps sv3] eqn:Hb.
  destruct (answer_framed env resps (pr_protocol_version parsed) sv3) as (b' & Ha & Hf).
  rewrite Ha in Hp. injection Hp as <- <-.
  apply batch_isolated in Hb as [Hg' Hh]; [|rewrite Hst2; apply Hinv|rewrite Hst2|].
  - split; [done|]. exists resps, (pr_protocol_version parsed). split; [done|]. right. exists identity, sv1, parsed. split; [done|]. split; [done|].
    eapply (proj1 (Forall2_fmap_l _ _ _ _)) in Hh. eapply Forall2_impl; [exact Hh|]. by intros req resp [H1 H2].
  - unfold len. rewrite length_map. fold (len (pr_requests parsed)).
    split; [intros id x Hx; apply (wf_id _ _ _ (core_objects _ Hinv id x Hx))|]. split; [done|]. intros n Hn. apply Hnext. lia.
  - apply Forall_map, Forall_forall. intros x _ E. simpl in E. subst. by apply (Hid sv1).
Qed.

End Owned.

End Isolated.

(** ** Replays *)

Section Caches.
Context {SC : ServerCrates}.

(** A check: time, identity, correlation value. *)
Abbreviation Check := (Z * option string * string)%type.

Definition run_checks (c : CorrelationCache) (l : list Check) : CorrelationCache :=
  foldl (fun c x => (check_and_record x.1.1 x.1.2 x.2 c).2) c l.

Definition seen_at (k : list byte) (t0 w : Z) (c : CorrelationCache) : Prop :=
  cc_seen c !! k = Some t0 /\ cc_window c = w.

Lemma check_keeps k t0 w t i v c :
  seen_at k t0 w c -> since t t0 < w -> seen_at k t0 w (check_and_record t i v c).2.
Proof.
  intros [Hs Hw] Ht. unfold check_and_record. rewrite Hw.
  set (seen := if cc_check_counter c mod 100 =? 0 then _ else _).
  assert (seen !! k = Some t0) as Hk.
  { unfold seen. case_match; [|done]. by apply map_lookup_filter_Some. }
  destruct (match seen !! correlation_key i v with Some ts => since t ts <? w | None => false end) eqn:E1; [by split|].
  destruct (REPLAY_CACHE_HARD_CAP <=? _); [by split|].
  assert (correlation_key i v <> k) as Hne.
  { intros <-. rewrite Hk in E1. apply Z.ltb_ge in E1. lia. }
  destruct (seen !! correlation_key i v); [case_match|]; (split; [|done]); cbn; rewrite ?lookup_insert_ne; done.
Qed.

Lemma check_seen t0 w t i v c :
  seen_at (correlation_key i v) t0 w c -> since t t0 < w -> (check_and_record t i v c).1 = true.
Proof.
  intros [Hs Hw] Ht. unfold check_and_record. rewrite Hw.
  set (seen := if cc_check_counter c mod 100 =? 0 then _ else _).
  assert (seen !! correlation_key i v = Some t0) as ->.
  { unfold seen. case_match; [|done]. by apply map_lookup_filter_Some. }
  by rewrite (proj2 (Z.ltb_lt _ _)).
Qed.

Lemma check_records t i v c c1 :
  check_and_record t i v c = (false, c1) -> seen_at (correlation_key i v) t (cc_window c) c1.
Proof.
  unfold check_and_record. intros Hc. repeat case_match; simplify_eq; split; cbn; try done; apply lookup_insert_eq.
Qed.

Definition duplicate_refusal : Reason.KmipResultReason * string :=
  (Reason.PermissionDenied, "duplicate ClientCorrelationValue within replay window").

(** Replays are refused: once a correlation value of a caller was accepted at [t0],
    every message of the same caller with the same value that is checked before the
    replay window has passed is refused and does not reach the store, whatever other
    messages were checked in between, sweeps and a full cache included. *)
Theorem replayed_correlation_refused {S} {KS : KmipKeyStore S} {MI : MapIter} t0 i v c c1 l env (sv : KmipServer (S := S)) :
  check_and_record t0 i v c = (false, c1) -> v <> "" ->
  Forall (fun x => since x.1.1 t0 < cc_window c) l ->
  sv_replay sv = run_checks c1 l -> since (se_replay_now env) t0 < cc_window c ->
  require_correlation_value (sv_options sv) = true ->
  exists sv', check_correlation env i (Some v) sv = (Err duplicate_refusal, sv') /\ sv_store sv' = sv_store sv.
Proof.
  intros Hc Hv Hl Hr Ht Ho.
  assert (seen_at (correlation_key i v) t0 (cc_window c) (sv_replay sv)) as Hs.
  { rewrite Hr. clear Hr. apply check_records in Hc. revert c1 Hc. induction Hl as [|x l Hx _ IH]; intros c1 Hc; [done|].
    cbn. apply IH. by apply check_keeps. }
  unfold check_correlation. rewrite Ho. apply String.eqb_neq in Hv. rewrite Hv.
  pose proof (check_seen _ _ _ _ _ _ Hs Ht) as Hd.
  destruct (check_and_record (se_replay_now env) i v (sv_replay sv)) as [dup c2]. simpl in Hd. subst.
  by eexists.
Qed.

(** ** What the failure limiter does not bound *)

Context {S : Type} {KS : KmipKeyStore S} {MI : MapIter}.
Implicit Types (sv : KmipServer (S := S)).

(** Attempts from one peer, each with a token of its own. *)
Fixpoint guess_run (peer : option string) (attempts : list (ServerEnv * string)) sv
    : list (result (option string) (Reason.KmipResultReason * string)) * KmipServer (S := S) :=
  match attempts with
  | [] => ([], sv)
  | (env, token) :: rest =>
      let '(r, sv) := authenticate env (Some token) None peer sv in
      let '(rs, sv) := guess_run peer rest sv in (r :: rs, sv)
  end.

Definition wrong_guess (expected : string) (a : ServerEnv * string) : Prop :=
  se_feature a.1 = true /\ insecure_static_token_allowed (se_var a.1) = true /\
  token_digest (as_bytes expected) <> token_digest (as_bytes a.2).

Definition guess_bucket (peer : option string) (a : ServerEnv * string) : list byte :=
  client_hash peer (Some a.2).

Lemma one_guess peer expected a sv :
  require_auth (sv_config sv) = true -> auth_token (sv_config sv) = Some expected -> wrong_guess expected a ->
  tl_failures (sv_rate_limiter sv) !! guess_bucket peer a = None ->
  exists sv', authenticate a.1 (Some a.2) None peer sv = (Err invalid_token, sv') /\ sv_config sv' = sv_config sv /\
    forall k, k <> guess_bucket peer a -> tl_failures (sv_rate_limiter sv) !! k = None ->
      tl_failures (sv_rate_limiter sv') !! k = None.
Proof.
  intros Hreq Htok (Hf & Hv & Hd) Hno. unfold authenticate. rewrite Hreq. fold (guess_bucket peer a).
  unfold is_rate_limited. set (l := if tl_check_counter (sv_rate_limiter sv) mod 100 =? 0 then _ else _).
  assert (forall k, tl_failures (sv_rate_limiter sv) !! k = None -> tl_failures l !! k = None) as Hl.
  { intros k Hk. unfold l. case_match; [|done]. cbn. apply map_lookup_filter_None. by left. }
  rewrite (Hl _ Hno). rewrite Hf, Hv. cbn [negb]. cbn [sv_config set_rate_limiter]. rewrite Htok.
  rewrite bool_decide_eq_false_2 by done. eexists. split; [done|]. split; [done|].
  intros k Hk Hn. cbn. rewrite lookup_insert_ne by done. by apply Hl.
Qed.

(** Guessing is not limited.  Failures are counted per peer and token, so a client
    that tries another token each time is never slowed down: any number of
    distinct wrong tokens from one peer (with distinct buckets) are all compared
    with the configured token and none is refused for too many failures, whatever the
    times at which they arrive. *)
Theorem guesses_escape_limiter peer expected attempts sv :
  require_auth (sv_config sv) = true -> auth_token (sv_config sv) = Some expected ->
  tl_failures (sv_rate_limiter sv) = ∅ ->
  Forall (wrong_guess expected) attempts -> NoDup (guess_bucket peer <$> attempts) ->
  Forall (fun r => r = Err invalid_token) (guess_run peer attempts sv).1.
Proof.
  intros Hreq Htok He Hw Hn.
  assert (forall a, a ∈ attempts -> tl_failures (sv_rate_limiter sv) !! guess_bucket peer a = None) as Hno
    by (intros a _; rewrite He; apply lookup_empty).
  clear He. revert sv Hreq Htok Hno. induction Hw as [|[env token] attempts Ha _ IH]; intros sv Hreq Htok Hno; [constructor|].
  apply NoDup_cons in Hn as [Hna Hn]. cbn [guess_run].
  destruct (one_guess peer expected (env, token) sv) as (sv1 & H1 & Hc & Hk); [done|done|done|by apply Hno; left|].
  cbn [fst snd] in H1. rewrite H1.
  destruct (guess_run peer attempts sv1) as [rs sv2] eqn:Hr.
  specialize (IH Hn sv1). rewrite Hr in IH. constructor; [done|]. apply IH; [by rewrite Hc..|].
  intros a Hin. apply Hk; [|by apply Hno; right].
  intros E. apply Hna. rewrite <- E. by apply list_elem_of_fmap_2.
Qed.

End Caches.

(** ** Concrete messages *)

Definition demo_digest : ServerCrates := {| token_digest := fun m => m |}.
#[local] Existing Instances demo_digest key_order.

Definition demo_server_env : ServerEnv :=
  mkServerEnv true (Some "1") 0 0 0 0 1700000000 1700000000 (fun _ => demo_env).

Definition demo_server (c : KmipServerConfig) : KmipServer (S := InMemoryKeyStore) := KmipServer_new demo2 c.

Definition token_config : KmipServerConfig :=
  mkConfig "127.0.0.1:5696" 1048576 65536 30 1024 true (Some "0123456789abcdef0123456789abcdef") None.

(** A request message with the given batch items. *)
Definition demo_message (items : list TtlvItem) : list byte :=
  match encode_ttlv (tagged Tag.RequestMessage (VStructure (tagged Tag.RequestHeader (VStructure []) :: items))) with
  | COk bs => bs
  | _ => []
  end.

Definition batch_item (op : Operation.KmipOperation) (id : string) : TtlvItem :=
  tagged Tag.BatchItem (VStructure
    [tagged Tag.Operation (VEnumeration (Operation.KmipOperation_to_u32 op));
     tagged Tag.UniqueIdentifier (VTextString (as_bytes id))]).


Lemma no_access_without_credentials_witness :
  exists bs sv' msg,
    process_message_internal demo_server_env (demo_message [batch_item Operation.Destroy demo_id]) (Some "guess") None
      (Some "10.0.0.9") (demo_server token_config) = COk (bs, sv') /\
    framed demo_server_env [KmipResponse_error Reason.PermissionDenied msg] ProtocolVersion_default bs /\
    sv_store sv' = demo2.
Proof.
  destruct (no_access_without_credentials demo_server_env (demo_message [batch_item Operation.Destroy demo_id])
    (Some "guess") (Some "10.0.0.9") (demo_server token_config)) as (bs & sv' & msg & H1 & H2 & H3 & _).
  - reflexivity.
  - intros (_ & _ & e & p & He & Hp & Hd). injection He as <-. injection Hp as <-. vm_compute in Hd. discriminate.
  - by exists bs, sv', msg.
Defined.

(** Bob's attempt to destroy Alice's key, in a batch. *)
Lemma message_isolation_witness :
  let raw := demo_message [batch_item Operation.Get demo_id; batch_item Operation.Destroy demo_id] in
  exists o bs sv', get demo_id demo2 = Some o /\
    process_message_internal demo_server_env raw None (Some "bob") None (demo_server KmipServerConfig_default) = COk (bs, sv')
    /\ get demo_id (sv_store sv') = Some o.
Proof.
  intros raw. destruct (get demo_id demo2) as [o|] eqn:Ho; [|discriminate Ho].
  assert (obj_attributes o !! "owner" = Some (Attr.Text "alice")) as Hown.
  { assert ((obj_attributes <$> get demo_id demo2) = Some demo_attrs) as Ha by reflexivity.
    rewrite Ho in Ha. apply (inj Some) in Ha as ->. reflexivity. }
  destruct (process_message_internal demo_server_env raw None (Some "bob") None (demo_server KmipServerConfig_default))
    as [[bs sv']|[]| |] eqn:Hp; [|by vm_compute in Hp..].
  exists o, bs, sv'. split; [reflexivity|]. split; [reflexivity|].
  destruct (message_isolation demo_id o "alice" Hown demo_server_env raw None (Some "bob") None
    (demo_server KmipServerConfig_default) bs sv') as [Hg _].
  - clear Hp. by vm_compute.
  - exact (proj1 demo_inv2).
  - exact Ho.
  - clear Hp. intros n Hn. change (counter (sv_store (demo_server KmipServerConfig_default))) with 2. unfold MAX_TTLV_ITEMS in Hn.
    rewrite Z.mod_small by lia. change demo_id with (gen_id 1). intros E%gen_id_inj; unfold in_u64; lia.
  - intros sv1 E. apply (f_equal fst) in E. discriminate E.
  - exact Hp.
  - exact Hg.
Defined.

Lemma replayed_correlation_refused_witness :
  let c1 := (check_and_record 5 (Some "bob") "ccv-1" (CorrelationCache_new 60)).2 in
  let l := [(7, Some "eve", "ccv-1"); (8, Some "bob", "ccv-2")] in
  let sv := set_replay (run_checks c1 l) (with_options (mkOptions true true 60 true) (demo_server KmipServerConfig_default)) in
  exists sv', check_correlation demo_server_env (Some "bob") (Some "ccv-1") sv = (Err duplicate_refusal, sv')
    /\ sv_store sv' = demo2.
Proof.
  intros c1 l sv. apply (replayed_correlation_refused 5 (Some "bob") "ccv-1" (CorrelationCache_new 60) c1 l);
    [by vm_compute|done|by repeat constructor|reflexivity|by vm_compute|reflexivity].
Defined.

Lemma guesses_escape_limiter_witness :
  let attempts := (fun t => (demo_server_env, t)) <$> ["a"; "b"; "c"; "d"; "e"; "f"; "g"] in
  Forall (fun r => r = Err invalid_token) (guess_run (Some "10.0.0.9") attempts (demo_server token_config)).1.
Proof.
  apply (guesses_escape_limiter (Some "10.0.0.9") "0123456789abcdef0123456789abcdef");
    [reflexivity|reflexivity|reflexivity| |].
  - repeat constructor; by vm_compute.
  - apply (bool_decide_unpack _). by vm_compute.
Defined.

(** The decoded answer to a message. *)
Definition demo_answer (raw : list byte) (caller : string) : option TtlvItem :=
  match process_message_internal demo_server_env raw None (Some caller) None (demo_server KmipServerConfig_default) with
  | COk (bs, _) => match decode_ttlv bs with COk (item, _) => Some item | _ => None end
  | _ => None
  end.

(** The batch items of an answer. *)
Definition answer_items (item : TtlvItem) : list (list TtlvItem) :=
  match item_value item with
  | VStructure cs => omap (fun c => if has_tag Tag.BatchItem c
                                    then match item_value c with VStructure l => Some l | _ => None end
                                    else None) cs
  | _ => []
  end.

(** Get answers its owner without the key: the encoder writes no key material. *)
Example get_answer_has_no_key :
  answer_items <$> demo_answer (demo_message [batch_item Operation.Get demo_id]) "alice" =
  Some [[tagged Tag.ResultStatus (VEnumeration 0);
         tagged Tag.UniqueIdentifier (VTextString (as_bytes demo_id));
         tagged Tag.ObjectType (VEnumeration 1)]].
Proof. vm_compute. reflexivity. Qed.

(** An item of a longer batch that does not parse is executed as a Query and succeeds. *)
Example malformed_item_succeeds :
  (fun it => head <$> answer_items it) <$>
    demo_answer (demo_message [batch_item Operation.Get demo_id; tagged Tag.BatchItem (VInteger 7)]) "alice" =
  Some [Some (tagged Tag.ResultStatus (VEnumeration 0)); Some (tagged Tag.ResultStatus (VEnumeration 0))].
Proof. vm_compute. reflexivity. Qed.
