(* ===== verification/RaftLog.v ===== *)
(** * Raft commands, their canonical encoding, and the log
    ([craton-hsm-cluster/src/raft.rs], lines 130-620)

    [Term] and indices are [u64] values, kept as [Z].  The [debug_assert!]s of the
    source do nothing in the release build that is modelled.  The invariant
    [log_wf base] says that the entries are numbered consecutively from [base + 1],
    where [base] is the index of the last compacted entry. *)

From coqutil Require Import Byte.
From stdpp Require Import prelude gmap strings list.
From Stdlib Require Import ZArith Lia.
From S2P Require Import Prelude RustStd.
Local Open Scope Z_scope.

(** ** Terms *)

Definition Term_checked_next (t : Z) : option Z := checked_add t 1.
Definition Term_next (t : Z) : Z :=
  match Term_checked_next t with Some t' => t' | None => u64_max end.
Definition Term_add (t rhs : Z) : Z := saturating_add t rhs.

(** ** Commands *)

Inductive RaftState : Set := Follower | Candidate | Leader.
#[global] Instance RaftState_eq_dec : EqDecision RaftState.
Proof. solve_decision. Defined.

Inductive MembershipAction : Set := AddNode | RemoveNode | AddLearner | PromoteLearner.
#[global] Instance MembershipAction_eq_dec : EqDecision MembershipAction.
Proof. solve_decision. Defined.

Inductive RaftCommand : Type :=
| KeySync (key_id : string) (data : list byte)
| ConfigChange (node_id : string) (action : MembershipAction)
| Noop.
#[global] Instance RaftCommand_eq_dec : EqDecision RaftCommand.
Proof. solve_decision. Defined.

(** ** Canonical encoding *)

(** [push_lp]: a 32-bit length (truncated by [as u32]) and the bytes. *)
Definition push_lp (out bs : list byte) : list byte := out ++ to_be_bytes 4 (len bs) ++ bs.

Definition action_tag (a : MembershipAction) : byte :=
  match a with
  | AddNode => Byte.x02
  | RemoveNode => Byte.x03
  | AddLearner => Byte.x04
  | PromoteLearner => Byte.x05
  end.

Definition canonical_bytes (c : RaftCommand) : list byte :=
  match c with
  | Noop => [Byte.x00]
  | KeySync key_id data => push_lp (push_lp [Byte.x01] (as_bytes key_id)) data
  | ConfigChange node_id action => push_lp [action_tag action] (as_bytes node_id)
  end.

(** A MAC context is the list of the chunks given to [update] so far. *)
Definition mac_update (mac : list (list byte)) (chunk : list byte) : list (list byte) :=
  mac ++ [chunk].
Definition push_lp_to_mac (mac : list (list byte)) (bs : list byte) : list (list byte) :=
  mac_update (mac_update mac (to_be_bytes 4 (len bs))) bs.

Definition canonical_into_mac (c : RaftCommand) (mac : list (list byte)) : list (list byte) :=
  match c with
  | Noop => mac_update mac [Byte.x00]
  | KeySync key_id data =>
      push_lp_to_mac (push_lp_to_mac (mac_update mac [Byte.x01]) (as_bytes key_id)) data
  | ConfigChange node_id action =>
      push_lp_to_mac (mac_update mac [action_tag action]) (as_bytes node_id)
  end.

Definition canonical_byte_len (c : RaftCommand) : Z :=
  match c with
  | Noop => 1
  | KeySync key_id data => 1 + 4 + len (as_bytes key_id) + 4 + len data
  | ConfigChange node_id _ => 1 + 4 + len (as_bytes node_id)
  end.

(** ** The log *)

Record LogEntry : Type := mkEntry {
  le_term : Z;
  le_index : Z;
  le_command : RaftCommand;
}.

Record RaftLog : Type := mkLog {
  entries : list LogEntry;
  committed : Z;
  applied : Z;
}.

Definition RaftLog_new : RaftLog := mkLog [] 0 0.

Definition append (e : LogEntry) (l : RaftLog) : RaftLog :=
  mkLog (entries l ++ [e]) (committed l) (applied l).

Definition log_get (index : Z) (l : RaftLog) : option LogEntry :=
  match entries l with
  | [] => None
  | e0 :: _ =>
      if (index =? 0) || (index <? le_index e0) then None
      else entries l !! Z.to_nat (index - le_index e0)
  end.

Definition last_index (l : RaftLog) : Z :=
  match last (entries l) with Some e => le_index e | None => 0 end.
Definition last_term (l : RaftLog) : Z :=
  match last (entries l) with Some e => le_term e | None => 0 end.

Definition entries_slice_from (from_index : Z) (l : RaftLog) : list LogEntry :=
  drop (partition_point (fun e => le_index e <? from_index) (entries l)) (entries l).

Inductive RaftInvariantError : Set :=
| TruncateBelowCommitted (after committed : Z)
| TruncateBelowApplied (after applied : Z).

Definition truncate_after (after : Z) (l : RaftLog) : result RaftLog RaftInvariantError :=
  if after <? committed l then Err (TruncateBelowCommitted after (committed l))
  else if after <? applied l then Err (TruncateBelowApplied after (applied l))
  else
    let keep := partition_point (fun e => le_index e <=? after) (entries l) in
    Ok (mkLog (take keep (entries l)) (committed l) (applied l)).

Definition discard_through (up_to : Z) (l : RaftLog) : RaftLog :=
  mkLog (filter (fun e => Is_true (up_to <? le_index e)) (entries l))
    (if committed l <? up_to then up_to else committed l)
    (if applied l <? up_to then up_to else applied l).

Definition commit (index : Z) (l : RaftLog) : RaftLog :=
  if (committed l <? index) && (index <=? last_index l)
  then mkLog (entries l) index (applied l) else l.

Definition log_apply (index : Z) (l : RaftLog) : RaftLog :=
  if (applied l <? index) && (index <=? committed l)
  then mkLog (entries l) (committed l) index else l.
