(* ===== verification/RaftLogProofs.v ===== *)
(** * Correctness of the Raft log and of the canonical command encoding *)

From coqutil Require Import Byte.
From stdpp Require Import prelude gmap strings list.
From Stdlib Require Import ZArith Lia.
From S2P Require Import Prelude RustStd RaftLog.
Local Open Scope Z_scope.

(** ** Consecutive entries *)

Definition contig (base : Z) (es : list LogEntry) : Prop :=
  forall i e, es !! i = Some e -> le_index e = base + 1 + Z.of_nat i.

Lemma contig_nil base : contig base [].
Proof. intros i e. by rewrite lookup_nil. Qed.

Lemma contig_cons base e es : contig base (e :: es) <-> le_index e = base + 1 /\ contig (base + 1) es.
Proof.
  split.
  - intros H. split; [specialize (H 0%nat e eq_refl); lia|]. intros i x Hx.
    specialize (H (S i) x Hx). lia.
  - intros [He H] [|i] x Hx; cbn in Hx; [simplify_eq; lia|]. rewrite (H i x Hx). lia.
Qed.

Lemma contig_app base es es' :
  contig base (es ++ es') <-> contig base es /\ contig (base + len es) es'.
Proof.
  revert base. induction es as [|e es IH]; intros base; cbn [app].
  - rewrite len_nil, Z.add_0_r. intuition auto using contig_nil.
  - rewrite !contig_cons, IH, len_cons.
    replace (base + (1 + len es)) with (base + 1 + len es) by lia. tauto.
Qed.

Lemma contig_take base n es : contig base es -> contig base (take n es).
Proof. intros H i e He. apply lookup_take_Some in He as [He _]. auto. Qed.

Lemma contig_drop base n es : (n <= length es)%nat -> contig base es ->
  contig (base + Z.of_nat n) (drop n es).
Proof.
  intros Hn H. rewrite <- (take_drop n es) in H. apply contig_app in H as [_ H].
  unfold len in H. rewrite length_take in H. by replace (n `min` length es)%nat with n in H by lia.
Qed.

(** The binary searches and filters of the log split consecutive entries at a
    position. *)
Lemma partition_point_contig base es after :
  contig base es ->
  partition_point (fun e => le_index e <=? after) es = (length es `min` Z.to_nat (after - base))%nat.
Proof.
  revert base. induction es as [|e es IH]; intros base H; [done|]. cbn [partition_point length].
  apply contig_cons in H as [He H]. case_if; bool_to_prop; [|lia].
  rewrite (IH _ H). lia.
Qed.

Lemma filter_contig base es up_to :
  contig base es ->
  filter (fun e => Is_true (up_to <? le_index e)) es = drop (Z.to_nat (up_to - base)) es.
Proof.
  revert base. induction es as [|e es IH]; intros base H; [by rewrite drop_nil|].
  pose proof H as Hall. apply contig_cons in H as [He H]. rewrite filter_cons.
  destruct (Z.ltb_spec up_to (le_index e)) as [Hlt|Hge]; cbn.
  - replace (Z.to_nat (up_to - base)) with 0%nat by lia. cbn. f_equal.
    rewrite (IH _ H). by replace (Z.to_nat (up_to - (base + 1))) with 0%nat by lia.
  - rewrite (IH _ H).
    by replace (Z.to_nat (up_to - base)) with (S (Z.to_nat (up_to - (base + 1)))) by lia.
Qed.

(** ** The invariant of the log *)

Record log_wf (base : Z) (l : RaftLog) : Prop := {
  wf_contig : contig base (entries l);
  wf_base : 0 <= base <= applied l;
  wf_applied : applied l <= committed l;
  wf_committed : committed l <= base + len (entries l);
}.

Lemma log_get_wf base l idx :
  contig base (entries l) -> 0 <= base ->
  log_get idx l =
  if (base <? idx) && (idx <=? base + len (entries l))
  then entries l !! Z.to_nat (idx - base - 1) else None.
Proof.
  intros H Hb. unfold log_get. destruct (entries l) as [|e0 es] eqn:E.
  - rewrite lookup_nil. by case_if.
  - apply contig_cons in H as [He0 _]. rewrite He0.
    destruct (Z.ltb_spec base idx); cbn [andb].
    + rewrite (proj2 (Z.eqb_neq idx 0)), (proj2 (Z.ltb_ge idx (base + 1))) by lia. cbn [orb].
      replace (idx - (base + 1)) with (idx - base - 1) by lia.
      destruct (Z.leb_spec idx (base + len (e0 :: es))); [done|].
      apply lookup_ge_None. unfold len in *. lia.
    + by rewrite (proj2 (Z.ltb_lt idx (base + 1))), orb_true_r by lia.
Qed.

Lemma log_get_Some base l idx e :
  contig base (entries l) -> 0 <= base ->
  log_get idx l = Some e <->
  base < idx <= base + len (entries l) /\ entries l !! Z.to_nat (idx - base - 1) = Some e.
Proof.
  intros H Hb. rewrite (log_get_wf base) by done. split.
  - case_if; [|done]. bool_to_prop. intros. split; [lia|done].
  - intros [Hr He]. by rewrite (proj2 (Z.ltb_lt _ _)), (proj2 (Z.leb_le _ _)) by lia.
Qed.

Lemma last_index_wf base l :
  contig base (entries l) -> entries l <> [] -> last_index l = base + len (entries l).
Proof.
  intros H Hne. unfold last_index. destruct (last (entries l)) as [e|] eqn:E.
  - rewrite last_lookup in E. rewrite (H _ _ E). unfold len.
    destruct (entries l); [done|]. cbn. lia.
  - by apply last_None in E.
Qed.

Lemma last_index_le base l : contig base (entries l) -> 0 <= base ->
  last_index l <= base + len (entries l).
Proof.
  intros H Hb. destruct (decide (entries l = [])) as [E|Hne].
  - unfold last_index. rewrite E. unfold len. simpl. lia.
  - by rewrite (last_index_wf base).
Qed.

(** ** Operations of the log *)

Lemma append_wf base e l :
  log_wf base l -> le_index e = base + len (entries l) + 1 -> log_wf base (append e l).
Proof.
  intros [Hc Hb Ha Hm] He. split; cbn; [|done|done|].
  - apply contig_app. split; [done|]. apply contig_cons. split; [lia|apply contig_nil].
  - rewrite len_app, len_cons, len_nil. lia.
Qed.

Lemma commit_wf base i l : log_wf base l -> log_wf base (commit i l).
Proof.
  intros [Hc Hb Ha Hm]. unfold commit. case_if; [|done]. bool_to_prop.
  pose proof (last_index_le base l Hc). split; cbn; lia || done.
Qed.

Lemma log_apply_wf base i l : log_wf base l -> log_wf base (log_apply i l).
Proof.
  intros [Hc Hb Ha Hm]. unfold log_apply. case_if; [|done]. bool_to_prop. split; cbn; lia || done.
Qed.

Lemma discard_through_wf base up_to l :
  log_wf base l -> base <= up_to <= applied l ->
  log_wf up_to (discard_through up_to l)
  /\ entries (discard_through up_to l) = drop (Z.to_nat (up_to - base)) (entries l)
  /\ committed (discard_through up_to l) = committed l
  /\ applied (discard_through up_to l) = applied l.
Proof.
  intros [Hc Hb Ha Hm] Hu. unfold discard_through, len in *.
  rewrite (filter_contig base) by done.
  rewrite (proj2 (Z.ltb_ge (committed l) up_to)), (proj2 (Z.ltb_ge (applied l) up_to)) by lia.
  split; [|done]. split; cbn; try lia.
  - replace up_to with (base + Z.of_nat (Z.to_nat (up_to - base))) at 1 by lia.
    apply contig_drop; [lia|done].
  - unfold len. rewrite length_drop. lia.
Qed.

(** What [truncate_after] keeps. *)
Lemma truncate_after_Ok base after l l' :
  log_wf base l -> truncate_after after l = Ok l' ->
  committed l <= after
  /\ l' = mkLog (take (Z.to_nat (after - base)) (entries l)) (committed l) (applied l)
  /\ log_wf base l'.
Proof.
  intros [Hc Hb Ha Hm] Ht. unfold truncate_after in Ht.
  case_if; [done|]. case_if; [done|]. bool_to_prop.
  rewrite (partition_point_contig base) in Ht by done. inversion Ht; subst; clear Ht.
  assert (take (length (entries l) `min` Z.to_nat (after - base)) (entries l)
    = take (Z.to_nat (after - base)) (entries l)) as ->.
  { rewrite Nat.min_comm, <- take_take, firstn_all. done. }
  split_and!; [done|done|]. split; cbn; [by apply contig_take|lia|lia|].
  unfold len in *. rewrite length_take. lia.
Qed.

Lemma truncate_spec base after l :
  log_wf base l ->
  match truncate_after after l with
  | Ok l' =>
      committed l <= after /\ log_wf base l'
      /\ committed l' = committed l /\ applied l' = applied l
      /\ forall i, log_get i l' = if i <=? after then log_get i l else None
  | Err e => after < committed l /\ e = TruncateBelowCommitted after (committed l)
  end.
Proof.
  intros Hwf. destruct (truncate_after after l) as [l'|e] eqn:Ht.
  - destruct (truncate_after_Ok _ _ _ _ Hwf Ht) as (Hle & El & Hwf').
    split_and!; [done|done|by rewrite El..|]. intros i. destruct Hwf as [Hc Hb Ha Hm].
    rewrite (log_get_wf base l'), (log_get_wf base l) by (try apply Hwf'; done || lia).
    rewrite El. cbn. unfold len. rewrite length_take.
    destruct (Z.leb_spec i after).
    + destruct (Z.ltb_spec base i); cbn [andb]; [|done].
      rewrite lookup_take, decide_True by lia. unfold len in *.
      destruct (Z.leb_spec i (base + Z.of_nat (length (entries l)))).
      * by rewrite (proj2 (Z.leb_le _ _)) by lia.
      * by rewrite (proj2 (Z.leb_gt _ _)) by lia.
    + case_if; [|done]. bool_to_prop. lia.
  - unfold truncate_after in Ht. destruct Hwf as [Hc Hb Ha Hm].
    case_if; bool_to_prop; [by simplify_eq|]. case_if; bool_to_prop; [lia|done].
Qed.

(** Truncation never loses committed entries.  On a well-formed log,
    truncate_after fails exactly when it would cut below the commit index, and
    otherwise keeps precisely the entries up to the given index, the commit and
    apply indices, and the well-formedness of the log. *)
Theorem truncate_keeps_committed base after l :
  log_wf base l ->
  match truncate_after after l with
  | Ok l' =>
      committed l <= after /\ log_wf base l'
      /\ committed l' = committed l /\ applied l' = applied l
      /\ forall i, log_get i l' = if i <=? after then log_get i l else None
  | Err e => after < committed l /\ e = TruncateBelowCommitted after (committed l)
  end.
Proof. exact (truncate_spec base after l). Qed.

(** ** The canonical encoding *)

Definition fits_u32 (bs : list byte) : Prop := len bs < 2 ^ 32.

Definition command_fits (c : RaftCommand) : Prop :=
  match c with
  | Noop => True
  | KeySync key_id data => fits_u32 (as_bytes key_id) /\ fits_u32 data
  | ConfigChange node_id _ => fits_u32 (as_bytes node_id)
  end.

(** A length-prefixed string can be split off the front of any byte stream. *)
Lemma lp_prefix_free a b x y :
  fits_u32 a -> fits_u32 b ->
  to_be_bytes 4 (len a) ++ a ++ x = to_be_bytes 4 (len b) ++ b ++ y -> a = b /\ x = y.
Proof.
  unfold fits_u32. intros Ha Hb E.
  apply app_inj_1 in E as [El E]; [|by rewrite !to_be_bytes_length].
  pose proof (len_nonneg a). pose proof (len_nonneg b).
  apply to_be_bytes_inj in El; [|cbn; lia..].
  apply app_inj_1 in E as [-> ->]; [done|]. unfold len in El. lia.
Qed.

Lemma canonical_prefix_free a b x y :
  command_fits a -> command_fits b ->
  canonical_bytes a ++ x = canonical_bytes b ++ y -> a = b /\ x = y.
Proof.
  assert (forall n1 a1 n2 a2 : _, fits_u32 (as_bytes n1) -> fits_u32 (as_bytes n2) ->
    push_lp [action_tag a1] (as_bytes n1) ++ x = push_lp [action_tag a2] (as_bytes n2) ++ y ->
    n1 = n2 /\ a1 = a2 /\ x = y) as Hcc.
  { intros n1 a1 n2 a2 H1 H2. unfold push_lp. rewrite <- !(assoc_L (++)). intros E.
    apply app_inj_1 in E as [Et E]; [|done]. apply lp_prefix_free in E as [En ->]; [|done..].
    apply as_bytes_inj in En as ->. by destruct a1, a2. }
  destruct a as [k1 d1|n1 a1|], b as [k2 d2|n2 a2|]; cbn [canonical_bytes command_fits];
    intros Ha Hb E;
    try (exfalso; apply (f_equal head) in E; first [destruct a1 | destruct a2 | idtac]; discriminate E).
  - destruct Ha, Hb. unfold push_lp in E. rewrite <- !(assoc_L (++)) in E.
    apply app_inj_1 in E as [_ E]; [|done]. apply lp_prefix_free in E as [Ek E]; [|done..].
    apply lp_prefix_free in E as [-> ->]; [|done..]. by apply as_bytes_inj in Ek as ->.
  - by apply Hcc in E as (-> & -> & ->).
  - cbn in E. by injection E.
Qed.

Lemma concat_push_lp_to_mac mac bs : concat (push_lp_to_mac mac bs) = push_lp (concat mac) bs.
Proof.
  unfold push_lp_to_mac, push_lp, mac_update. rewrite !concat_app. cbn.
  by rewrite !app_nil_r, <- (assoc_L (++)).
Qed.

Lemma canonical_into_mac_bytes c mac :
  concat (canonical_into_mac c mac) = concat mac ++ canonical_bytes c.
Proof.
  destruct c; cbn [canonical_into_mac canonical_bytes]; rewrite ?concat_push_lp_to_mac;
    unfold push_lp, mac_update; rewrite concat_app; cbn [concat];
    rewrite ?app_nil_r, <- ?(assoc_L (++)); done.
Qed.

Lemma canonical_bytes_len c : len (canonical_bytes c) = canonical_byte_len c.
Proof.
  destruct c; cbn [canonical_bytes canonical_byte_len]; unfold push_lp;
    autorewrite with rust_len; lia.
Qed.

(** The three encoders of a command agree and lose nothing: the chunks
    streamed into the MAC are the canonical bytes, canonical_byte_len is their
    number, and no encoding is a prefix of a different one, so that entries in a
    MAC input cannot be re-split (for strings below 4 GiB, whose length prefix
    does not wrap). *)
Theorem canonical_encoding_exact c :
  (forall mac, concat (canonical_into_mac c mac) = concat mac ++ canonical_bytes c)
  /\ len (canonical_bytes c) = canonical_byte_len c
  /\ (forall d x y, command_fits c -> command_fits d ->
       canonical_bytes c ++ x = canonical_bytes d ++ y -> c = d /\ x = y).
Proof.
  split_and!; [apply canonical_into_mac_bytes|apply canonical_bytes_len|].
  intros. by apply canonical_prefix_free.
Qed.

(** ** Witnesses *)

Definition demo_log : RaftLog :=
  mkLog [mkEntry 1 4 Noop; mkEntry 1 5 (KeySync "k1" [Byte.x01]); mkEntry 2 6 Noop] 5 4.

Lemma demo_log_wf : log_wf 3 demo_log.
Proof.
  split; [|done..]. do 3 (apply contig_cons; split; [done|]). apply contig_nil.
Qed.

Lemma truncate_keeps_committed_witness :
  truncate_after 4 demo_log = Err (TruncateBelowCommitted 4 5)
  /\ exists l', truncate_after 5 demo_log = Ok l' /\ log_wf 3 l' /\ log_get 6 l' = None.
Proof.
  split; [reflexivity|].
  pose proof (truncate_keeps_committed 3 5 demo_log demo_log_wf) as H.
  destruct (truncate_after 5 demo_log) as [l'|] eqn:E; [|discriminate E].
  exists l'. destruct H as (_ & Hwf & _ & _ & Hget). split_and!; [done|done|apply Hget].
Defined.
