(* ===== verification/RaftStateMachine.v ===== *)
(** * The replicated state machine ([craton-hsm-cluster/src/state_machine.rs]) and
    the in-memory storage backend ([storage.rs], lines 320-372)

    The state machine's lock makes each operation atomic, so its state is passed
    explicitly.  [BTreeSet] and [BTreeMap] are [gset] and [gmap]; the one place where
    the order matters is [voters], which lists the set in the order of [String]. *)

From coqutil Require Import Byte.
From stdpp Require Import prelude gmap strings list sorting.
From Stdlib Require Import ZArith Lia.
From S2P Require Import Prelude RustStd RaftLog RaftLogProofs.
Local Open Scope Z_scope.

(** ** State machine *)

Module SM.

Record Inner : Type := mkInner {
  last_applied : Z;
  voter_set : gset string;
  keys : gmap string (list byte);
}.

Record StateMachineSnapshot : Type := mkSnapshot {
  snap_last_applied : Z;
  snap_voters : list string;
  snap_keys : gmap string (list byte);
}.

Inductive ApplyOutcome : Type :=
| Applied_Noop
| KeyInstalled (key_id : string) (bytes : Z)
| NodeAdded (node : string)
| NodeRemoved (node : string).

Inductive ApplyError : Set := OutOfOrder (expected got : Z).

Definition new (initial_voters : list string) : Inner := mkInner 0 (list_to_set initial_voters) ∅.

(** The lexicographic order of byte strings. *)
Definition string_le (a b : string) : Prop := Is_true (String.leb a b).
#[global] Instance string_le_dec : RelDecision string_le.
Proof. intros a b. unfold string_le. apply _. Defined.

Definition voters (g : Inner) : list string := merge_sort string_le (elements (voter_set g)).

Definition apply (entry : LogEntry) (g : Inner) : result ApplyOutcome ApplyError * Inner :=
  let expected := u64_succ (last_applied g) in
  if negb (le_index entry =? expected) then (Err (OutOfOrder expected (le_index entry)), g)
  else
    let '(outcome, g) :=
      match le_command entry with
      | Noop => (Applied_Noop, g)
      | KeySync key_id data =>
          (KeyInstalled key_id (len data),
           mkInner (last_applied g) (voter_set g) (<[key_id := data]> (keys g)))
      | ConfigChange node_id action =>
          match action with
          | AddNode | AddLearner | PromoteLearner =>
              (NodeAdded node_id, mkInner (last_applied g) ({[node_id]} ∪ voter_set g) (keys g))
          | RemoveNode =>
              (NodeRemoved node_id, mkInner (last_applied g) (voter_set g ∖ {[node_id]}) (keys g))
          end
      end in
    (Ok outcome, mkInner (le_index entry) (voter_set g) (keys g)).

Fixpoint apply_all (es : list LogEntry) (g : Inner) : result unit ApplyError * Inner :=
  match es with
  | [] => (Ok tt, g)
  | e :: es =>
      match apply e g with
      | (Ok _, g) => apply_all es g
      | (Err err, g) => (Err err, g)
      end
  end.

Definition apply_batch (es : list LogEntry) (g : Inner) : result Z ApplyError * Inner :=
  match apply_all es g with
  | (Ok _, g) => (Ok (len es), g)
  | (Err e, g) => (Err e, g)
  end.

Definition snapshot (g : Inner) : StateMachineSnapshot :=
  mkSnapshot (last_applied g) (voters g) (keys g).

Definition restore_from_snapshot (snap : StateMachineSnapshot) (g : Inner) : Inner :=
  mkInner (snap_last_applied snap) (list_to_set (snap_voters snap)) (snap_keys snap).

(** ** Lemmas *)

Lemma voters_set g : list_to_set (voters g) = voter_set g.
Proof. unfold voters. apply leibniz_equiv. rewrite merge_sort_Permutation. apply list_to_set_elements. Qed.

Lemma NoDup_voters g : NoDup (voters g).
Proof. unfold voters. rewrite merge_sort_Permutation. apply NoDup_elements. Qed.

Lemma restore_snapshot g g' : restore_from_snapshot (snapshot g) g' = g.
Proof. destruct g. unfold restore_from_snapshot, snapshot. cbn. by rewrite voters_set. Qed.

Lemma apply_index e g o g' : apply e g = (Ok o, g') ->
  le_index e = u64_succ (last_applied g) /\ last_applied g' = le_index e.
Proof.
  unfold apply. case_if; [done|]. bool_to_prop. intros Ha.
  destruct (le_command e) as [| ? []|]; simplify_eq; done.
Qed.

Lemma apply_err e g err g' : apply e g = (Err err, g') ->
  g' = g /\ err = OutOfOrder (u64_succ (last_applied g)) (le_index e)
  /\ le_index e <> u64_succ (last_applied g).
Proof.
  unfold apply. case_if; bool_to_prop; [by intros; simplify_eq|].
  destruct (le_command e) as [| ? []|]; intros; simplify_eq.
Qed.

Lemma apply_next e g : le_index e = u64_succ (last_applied g) -> exists o g', apply e g = (Ok o, g').
Proof.
  intros He. unfold apply. rewrite He, Z.eqb_refl. cbn.
  destruct (le_command e) as [| ? []|]; eauto.
Qed.

Lemma apply_all_app es1 es2 g g1 :
  apply_all es1 g = (Ok tt, g1) -> apply_all (es1 ++ es2) g = apply_all es2 g1.
Proof.
  revert g. induction es1 as [|e es1 IH]; intros g; cbn; [by intros; simplify_eq|].
  destruct (apply e g) as [[o|err] g']; [apply IH|done].
Qed.

Lemma apply_all_contig es g :
  contig (last_applied g) es -> 0 <= last_applied g -> last_applied g + len es <= u64_max ->
  exists g', apply_all es g = (Ok tt, g') /\ last_applied g' = last_applied g + len es.
Proof.
  revert g. induction es as [|e es IH]; intros g Hc H0 Hm; cbn [apply_all].
  - exists g. rewrite len_nil. split; [done|lia].
  - apply contig_cons in Hc as [He Hc]. rewrite len_cons in Hm. pose proof (len_nonneg es).
    destruct (apply_next e g) as (o & g1 & E); [rewrite u64_succ_small; lia|].
    rewrite E. apply apply_index in E as [_ El].
    destruct (IH g1) as (g' & E' & Hl); rewrite ?El, ?He; [done|lia|lia|].
    exists g'. split; [done|]. rewrite Hl, El, len_cons. lia.
Qed.

(** ** Theorems *)

(** Entries are applied strictly in order: a batch that continues the last
    applied index succeeds and moves it by the length of the batch; a failing
    entry is one whose index is not the next one, and it changes nothing. *)
Theorem apply_in_order es g e :
  0 <= last_applied g -> last_applied g + len es <= u64_max -> contig (last_applied g) es ->
  (exists g', apply_batch es g = (Ok (len es), g') /\ last_applied g' = last_applied g + len es
     /\ (le_index e <> u64_succ (last_applied g') ->
         apply e g' = (Err (OutOfOrder (u64_succ (last_applied g')) (le_index e)), g'))).
Proof.
  intros H0 Hm Hc. destruct (apply_all_contig es g Hc H0 Hm) as (g' & E & Hl).
  exists g'. unfold apply_batch. rewrite E. split_and!; [done..|]. intros Hne.
  unfold apply. by rewrite (proj2 (Z.eqb_neq _ _)) by done.
Qed.

(** State transfer by snapshot is exact: whatever a machine held before, after
    restoring a snapshot taken behind the entries es1 and applying es2 it is in
    the very state of the machine that applied es1 and then es2. *)
Theorem snapshot_transfer_exact es1 es2 g g1 g2 lagging :
  apply_all es1 g = (Ok tt, g1) -> apply_all (es1 ++ es2) g = (Ok tt, g2) ->
  apply_all es2 (restore_from_snapshot (snapshot g1) lagging) = (Ok tt, g2).
Proof. intros E1 E2. rewrite restore_snapshot. by rewrite <- (apply_all_app _ _ _ _ E1). Qed.

(** *** Witnesses *)

Definition demo_entries1 : list LogEntry :=
  [mkEntry 1 1 Noop; mkEntry 1 2 (KeySync "k" [Byte.x07])].
Definition demo_entries2 : list LogEntry := [mkEntry 2 3 (ConfigChange "n3" AddNode)].
Definition demo_machine : Inner := new ["n1"; "n2"].

Lemma apply_in_order_witness :
  exists g', apply_batch demo_entries1 demo_machine = (Ok 2, g') /\ last_applied g' = 2.
Proof.
  destruct (apply_in_order demo_entries1 demo_machine (mkEntry 2 3 Noop)) as (g' & E & Hl & _).
  - done.
  - done.
  - do 2 (apply contig_cons; split; [done|]). apply contig_nil.
  - by exists g'.
Defined.

Lemma snapshot_transfer_exact_witness :
  exists g1 g2, apply_all demo_entries1 demo_machine = (Ok tt, g1)
    /\ apply_all demo_entries2 (restore_from_snapshot (snapshot g1) (new ["old"])) = (Ok tt, g2)
    /\ keys g2 !! "k" = Some [Byte.x07] /\ last_applied g2 = 3.
Proof.
  eexists _, _. split; [reflexivity|]. split.
  - by apply (snapshot_transfer_exact demo_entries1 demo_entries2 demo_machine).
  - split; reflexivity.
Defined.

End SM.

(** ** In-memory storage *)

Record HardState : Type := mkHard {
  hs_current_term : Z;
  hs_voted_for : option string;
}.

Record PersistedSnapshot : Type := mkPersisted {
  ps_last_index : Z;
  ps_last_term : Z;
  ps_voters : list string;
  ps_data : list byte;
}.

Record InMemoryInner : Type := mkStorage {
  st_hard : HardState;
  st_log : list LogEntry;
  st_snapshot : option PersistedSnapshot;
}.

Definition InMemoryStorage_new : InMemoryInner := mkStorage (mkHard 0 None) [] None.

Definition save_hard_state (hs : HardState) (s : InMemoryInner) : InMemoryInner :=
  mkStorage hs (st_log s) (st_snapshot s).
Definition append_log (es : list LogEntry) (s : InMemoryInner) : InMemoryInner :=
  mkStorage (st_hard s) (st_log s ++ es) (st_snapshot s).
Definition truncate_log_after (after : Z) (s : InMemoryInner) : InMemoryInner :=
  mkStorage (st_hard s) (filter (fun e => Is_true (le_index e <=? after)) (st_log s)) (st_snapshot s).
Definition save_snapshot (p : PersistedSnapshot) (s : InMemoryInner) : InMemoryInner :=
  mkStorage (st_hard s) (st_log s) (Some p).

(** ** The attached storage

    What a node sees of its [RaftStorage]: the contents, and how the coming calls of each of
    its files end.  A call is done, or it fails and leaves in its file whatever [rest] has
    there; when an outcome list is used up, calls succeed. *)
Inductive SaveOutcome : Type :=
| Saved
| SaveFailed (rest : InMemoryInner).

Record AttachedStorage : Type := mkAttached {
  sto_contents : InMemoryInner;
  sto_hard_io : list SaveOutcome;
  sto_log_io : list SaveOutcome;
  sto_snapshot_io : list SaveOutcome;
}.

(** A storage whose calls all succeed, as those of the in-memory backend do. *)
Definition reliable (c : InMemoryInner) : AttachedStorage := mkAttached c [] [] [].

Definition next_outcome (io : list SaveOutcome) : SaveOutcome * list SaveOutcome :=
  match io with [] => (Saved, []) | o :: io => (o, io) end.

(** The calls; the flag says whether the result is [Ok]. *)
Definition sto_save_hard_state (hs : HardState) (s : AttachedStorage) : bool * AttachedStorage :=
  let c := sto_contents s in
  let '(o, io) := next_outcome (sto_hard_io s) in
  match o with
  | Saved => (true, mkAttached (save_hard_state hs c) io (sto_log_io s) (sto_snapshot_io s))
  | SaveFailed rest =>
      (false, mkAttached (mkStorage (st_hard rest) (st_log c) (st_snapshot c)) io (sto_log_io s) (sto_snapshot_io s))
  end.

Definition sto_update_log (update : InMemoryInner -> InMemoryInner) (s : AttachedStorage) : bool * AttachedStorage :=
  let c := sto_contents s in
  let '(o, io) := next_outcome (sto_log_io s) in
  match o with
  | Saved => (true, mkAttached (update c) (sto_hard_io s) io (sto_snapshot_io s))
  | SaveFailed rest =>
      (false, mkAttached (mkStorage (st_hard c) (st_log rest) (st_snapshot c)) (sto_hard_io s) io (sto_snapshot_io s))
  end.
Definition sto_append_log (es : list LogEntry) : AttachedStorage -> bool * AttachedStorage :=
  sto_update_log (append_log es).
Definition sto_truncate_log_after (after : Z) : AttachedStorage -> bool * AttachedStorage :=
  sto_update_log (truncate_log_after after).

Definition sto_save_snapshot (p : PersistedSnapshot) (s : AttachedStorage) : bool * AttachedStorage :=
  let c := sto_contents s in
  let '(o, io) := next_outcome (sto_snapshot_io s) in
  match o with
  | Saved => (true, mkAttached (save_snapshot p c) (sto_hard_io s) (sto_log_io s) io)
  | SaveFailed rest =>
      (false, mkAttached (mkStorage (st_hard c) (st_log c) (st_snapshot rest)) (sto_hard_io s) (sto_log_io s) io)
  end.
