(* ===== verification/RaftGuard.v ===== *)
(** * Admission control of Raft messages ([craton-hsm-cluster/src/raft.rs],
    lines 690-1120 and [check_message_freshness])

    The freshness window, the sharded replay cache and the per-peer token buckets
    for vote requests.  Each operation holds the lock of the state it changes, so
    operations are functions on explicit states, with the clock reading as an
    argument. *)

From coqutil Require Import Byte Word.LittleEndianList.
From stdpp Require Import prelude gmap strings list.
From Stdlib Require Import ZArith Lia.
From S2P Require Import Prelude RustStd.
Local Open Scope Z_scope.

(** ** Freshness *)

Definition MAX_FUTURE_SKEW_MS : Z := 1000.

Definition check_message_freshness (now timestamp_ms max_age_ms max_future_skew_ms : Z) : bool :=
  if timestamp_ms <=? now then now - timestamp_ms <=? max_age_ms
  else timestamp_ms - now <=? max_future_skew_ms.

(** ** Replay cache *)

Definition REPLAY_CACHE_MAX : Z := 16384.
Definition REPLAY_CACHE_SHARDS : Z := 8.
Definition REPLAY_CACHE_PER_SHARD_MAX : Z := REPLAY_CACHE_MAX / REPLAY_CACHE_SHARDS.

(** A shard is its queue of (time of insertion, MAC), eldest first. *)
Abbreviation ReplayShard := (list (Z * list byte)).

Record ReplayCache : Type := mkCache {
  seen : gmap (list byte) Z;
  shards : list ReplayShard;
  full_evictions : Z;
}.

Definition ReplayCache_new : ReplayCache :=
  mkCache ∅ (replicate (Z.to_nat REPLAY_CACHE_SHARDS) []) 0.

(** [u64::rotate_left] *)
Definition rotate_left (v n : Z) : Z :=
  Z.lor (Z.shiftl v n mod 2 ^ 64) (Z.shiftr v (64 - n)).

(** On a little-endian target, as [from_ne_bytes] reads the chunks. *)
Definition shard_of (mac : list byte) : nat :=
  let acc := foldl (fun acc i => Z.lxor acc (le_combine (take 8 (drop (8 * i) mac)))) 0 (seq 0 4) in
  let mixed := (rotate_left acc 13 * 0x9e3779b97f4a7c15) mod 2 ^ 64 in
  Z.to_nat (mixed mod REPLAY_CACHE_SHARDS).

(** Pop the expired entries off the front of the queue. *)
Fixpoint evict_expired (now max_age : Z) (order : ReplayShard) (seen : gmap (list byte) Z)
    : ReplayShard * gmap (list byte) Z :=
  match order with
  | [] => ([], seen)
  | (ts, head_mac) :: rest =>
      if max_age <=? saturating_sub now ts
      then evict_expired now max_age rest (delete head_mac seen)
      else (order, seen)
  end.

(** Pop from the front while the queue is over the cap, counting. *)
Fixpoint evict_over_cap (order : ReplayShard) (seen : gmap (list byte) Z) (evictions : Z)
    : ReplayShard * gmap (list byte) Z * Z :=
  match order with
  | [] => ([], seen, evictions)
  | (_, old) :: rest =>
      if REPLAY_CACHE_PER_SHARD_MAX <? len order
      then evict_over_cap rest (delete old seen) (u64_succ evictions)
      else (order, seen, evictions)
  end.

(** [true]: the MAC was already present. *)
Definition check_and_insert (mac : list byte) (now max_age : Z) (c : ReplayCache)
    : bool * ReplayCache :=
  match seen c !! mac with
  | Some _ => (true, c)
  | None =>
      let seen1 := <[mac := now]> (seen c) in
      let shard_idx := shard_of mac in
      let order := default [] (shards c !! shard_idx) ++ [(now, mac)] in
      let '(order, seen1) := evict_expired now max_age order seen1 in
      let '(order, seen1, ev) := evict_over_cap order seen1 (full_evictions c) in
      (false, mkCache seen1 (<[shard_idx := order]> (shards c)) ev)
  end.

(** ** Vote rate limiter *)

Definition MAX_VOTE_RATE_LIMITER_PEERS : Z := 65536.

Record VoteBucket : Type := mkBucket {
  tokens : Z;
  last_refill_ms : Z;
  rejected : Z;
}.

Record VoteRateLimiter : Type := mkLimiter {
  buckets : gmap string VoteBucket;
  capacity : Z;
  refill_interval_ms : Z;
  allowed_peers : option (gset string);
  unknown_rejects : Z;
}.

Definition VoteRateLimiter_new (cap refill : Z) : VoteRateLimiter :=
  mkLimiter ∅ (if cap =? 0 then 1 else cap) refill None 0.

(** [VoteRateLimiterConfig::adaptive_for_cluster_size]: capacity and interval. *)
Definition adaptive_for_cluster_size (cluster_size : Z) : Z * Z :=
  let n := Z.max cluster_size 1 in (3, Z.min (Z.max (5000 / n) 500) 5000).

Definition set_allowed_peers (peers : option (gset string)) (l : VoteRateLimiter) : VoteRateLimiter :=
  mkLimiter (buckets l) (capacity l) (refill_interval_ms l) peers (unknown_rejects l).

Definition evict_stale (now stale_after : Z) (l : VoteRateLimiter) : Z * VoteRateLimiter :=
  if stale_after =? 0 then (0, l)
  else
    let stale := filter (fun '(_, b) => stale_after <= saturating_sub now (last_refill_ms b)) (buckets l) in
    (Z.of_nat (size stale),
     mkLimiter (buckets l ∖ stale) (capacity l) (refill_interval_ms l) (allowed_peers l)
       (unknown_rejects l)).

(** Refill by the whole intervals elapsed since the last refill. *)
Definition refill (cap interval now : Z) (b : VoteBucket) : VoteBucket :=
  if 0 <? interval then
    let elapsed := saturating_sub now (last_refill_ms b) in
    let refills := elapsed / interval in
    if 0 <? refills then
      mkBucket (Z.min (saturating_add (tokens b) refills) cap)
        (saturating_add (last_refill_ms b) (saturating_mul refills interval)) (rejected b)
    else b
  else b.

Definition consume (b : VoteBucket) : bool * VoteBucket :=
  if tokens b =? 0
  then (false, mkBucket (tokens b) (last_refill_ms b) (saturating_add (rejected b) 1))
  else (true, mkBucket (tokens b - 1) (last_refill_ms b) (rejected b)).

Definition try_consume (peer : string) (now : Z) (l : VoteRateLimiter) : bool * VoteRateLimiter :=
  let reject := (false, mkLimiter (buckets l) (capacity l) (refill_interval_ms l) (allowed_peers l)
                          (u64_succ (unknown_rejects l))) in
  let admitted :=
    let b := default (mkBucket (capacity l) now 0) (buckets l !! peer) in
    let '(ok, b) := consume (refill (capacity l) (refill_interval_ms l) now b) in
    (ok, mkLimiter (<[peer := b]> (buckets l)) (capacity l) (refill_interval_ms l)
           (allowed_peers l) (unknown_rejects l)) in
  match allowed_peers l with
  | Some allowed => if bool_decide (peer ∈ allowed) then admitted else reject
  | None =>
      if (MAX_VOTE_RATE_LIMITER_PEERS <=? Z.of_nat (size (buckets l)))
         && negb (bool_decide (is_Some (buckets l !! peer)))
      then reject else admitted
  end.
