(* ===== verification/RaftGuardProofs.v ===== *)
(** * Correctness of the admission control

    The replay cache is bounded and recognises every MAC it accepted for as long
    as the message is fresh, up to two edges that are stated and shown; the token
    buckets bound the number of admitted vote requests in any period. *)

From coqutil Require Import Byte Word.LittleEndianList.
From stdpp Require Import prelude gmap strings list.
From Stdlib Require Import ZArith Lia.
From S2P Require Import Prelude RustStd RaftGuard.
Local Open Scope Z_scope.

(** ** Popping from the front of a shard *)

Definition forget (ms : list (list byte)) (s : gmap (list byte) Z) : gmap (list byte) Z :=
  foldl (fun m k => delete k m) s ms.

Lemma forget_lookup ms s k : forget ms s !! k = if decide (k ∈ ms) then None else s !! k.
Proof.
  revert s. induction ms as [|x ms IH]; intros s.
  - by rewrite decide_False by apply not_elem_of_nil.
  - change (forget (x :: ms) s) with (forget ms (delete x s)). rewrite IH. destruct (decide (k = x)) as [->|Hne].
    + rewrite (decide_True (P := x ∈ x :: ms)) by apply list_elem_of_here.
      rewrite lookup_delete_eq. by case_decide.
    + rewrite lookup_delete_ne by done.
      destruct (decide (k ∈ ms)); [rewrite decide_True|rewrite decide_False]; try done;
        rewrite elem_of_cons; tauto.
Qed.

Lemma forget_app ms ms' s : forget (ms ++ ms') s = forget ms' (forget ms s).
Proof. apply foldl_app. Qed.

(** Both loops remove a prefix of the queue and forget its MACs. *)
Definition pops (order : ReplayShard) (s : gmap (list byte) Z)
    (order' : ReplayShard) (s' : gmap (list byte) Z) : Prop :=
  exists pre, order = pre ++ order' /\ s' = forget pre.*2 s.

Lemma pops_refl order s : pops order s order s.
Proof. by exists []. Qed.

Lemma pops_cons x order s order' s' :
  pops order (delete x.2 s) order' s' -> pops (x :: order) s order' s'.
Proof. intros (pre & -> & ->). by exists (x :: pre). Qed.

Lemma pops_trans o1 s1 o2 s2 o3 s3 : pops o1 s1 o2 s2 -> pops o2 s2 o3 s3 -> pops o1 s1 o3 s3.
Proof.
  intros (p1 & -> & ->) (p2 & -> & ->). exists (p1 ++ p2).
  by rewrite fmap_app, forget_app, (assoc_L (++)).
Qed.

Lemma evict_expired_pops now age order s order' s' :
  evict_expired now age order s = (order', s') -> pops order s order' s'.
Proof.
  revert s. induction order as [|[ts m] order IH]; intros s; cbn.
  - intros. simplify_eq. apply pops_refl.
  - case_if; intros; simplify_eq; [|apply pops_refl]. apply pops_cons. by apply IH.
Qed.

Lemma evict_over_cap_pops order s ev order' s' ev' :
  evict_over_cap order s ev = (order', s', ev') ->
  pops order s order' s' /\ len order' <= REPLAY_CACHE_PER_SHARD_MAX.
Proof.
  revert s ev. induction order as [|[ts m] order IH]; intros s ev; cbn [evict_over_cap].
  - intros. simplify_eq. split; [apply pops_refl|done].
  - case_if; intros; simplify_eq; bool_to_prop; [|by split; [apply pops_refl|]].
    destruct (IH _ _ H) as [? ?]. split; [by apply pops_cons|done].
Qed.

(** ** Invariant of the cache *)

Lemma shard_of_bound mac : (shard_of mac < 8)%nat.
Proof.
  unfold shard_of. cbv zeta.
  match goal with |- context [(?x mod REPLAY_CACHE_SHARDS)] =>
    pose proof (Z.mod_pos_bound x REPLAY_CACHE_SHARDS ltac:(done)) as Hb end.
  unfold REPLAY_CACHE_SHARDS in *. lia.
Qed.

Record cache_wf (c : ReplayCache) : Prop := {
  cw_shards : length (shards c) = 8%nat;
  cw_nodup : forall i sh, shards c !! i = Some sh -> NoDup sh.*2;
  cw_bound : forall i sh, shards c !! i = Some sh -> len sh <= REPLAY_CACHE_PER_SHARD_MAX;
  cw_queued : forall i sh ts m, shards c !! i = Some sh -> (ts, m) ∈ sh ->
    shard_of m = i /\ seen c !! m = Some ts;
  cw_seen : forall m ts, seen c !! m = Some ts ->
    exists sh, shards c !! shard_of m = Some sh /\ (ts, m) ∈ sh;
}.

Lemma cache_wf_new : cache_wf ReplayCache_new.
Proof.
  split; cbn; try done; intros i sh; rewrite ?lookup_empty; try done;
    intros; repeat match goal with H : replicate _ _ !! _ = Some _ |- _ =>
      apply lookup_replicate_1 in H as [-> _] end.
  - constructor.
  - done.
  - by apply elem_of_nil in H0.
Qed.

Lemma elem_of_snd (sh : ReplayShard) m : m ∈ sh.*2 <-> exists ts, (ts, m) ∈ sh.
Proof.
  rewrite list_elem_of_fmap. split.
  - intros ([ts m'] & -> & H). by exists ts.
  - intros [ts H]. by exists (ts, m).
Qed.

(** What one insertion does to the cache. *)
Lemma check_and_insert_fresh mac now age c c' :
  cache_wf c -> check_and_insert mac now age c = (false, c') ->
  seen c !! mac = None /\
  exists sh order' pre,
    shards c !! shard_of mac = Some sh
    /\ sh ++ [(now, mac)] = pre ++ order'
    /\ len order' <= REPLAY_CACHE_PER_SHARD_MAX
    /\ shards c' = <[shard_of mac := order']> (shards c)
    /\ seen c' = forget pre.*2 (<[mac := now]> (seen c)).
Proof.
  intros Hwf. unfold check_and_insert. destruct (seen c !! mac) eqn:Es; [by intros; simplify_eq|].
  destruct (lookup_lt_is_Some_2 (shards c) (shard_of mac)) as [sh Hsh];
    [rewrite (cw_shards _ Hwf); apply shard_of_bound|].
  rewrite Hsh. cbn [default]. unfold default, id, from_option.
  destruct (evict_expired _ _ _ _) as [o1 s1] eqn:E1.
  destruct (evict_over_cap _ _ _) as [[o2 s2] ev] eqn:E2. intros; simplify_eq.
  apply evict_expired_pops in E1. apply evict_over_cap_pops in E2 as [E2 Hb].
  destruct (pops_trans _ _ _ _ _ _ E1 E2) as (pre & Ho & ->).
  split; [done|]. by exists sh, o2, pre.
Qed.

(** The queue of a shard after a new MAC was pushed and a prefix popped. *)
Lemma insert_queue_facts mac now c sh pre order :
  cache_wf c -> seen c !! mac = None -> shards c !! shard_of mac = Some sh ->
  sh ++ [(now, mac)] = pre ++ order ->
  NoDup order.*2
  /\ (forall ts m, (ts, m) ∈ order <-> (ts, m) ∈ pre ++ order /\ m ∉ pre.*2)
  /\ (forall ts m, (ts, m) ∈ pre ++ order -> shard_of m = shard_of mac
       /\ <[mac := now]> (seen c) !! m = Some ts).
Proof.
  intros Hwf Hn Hsh Ho.
  assert (NoDup (sh ++ [(now, mac)]).*2) as Hnd.
  { rewrite fmap_app. apply NoDup_app. split_and!; [by eapply cw_nodup| |apply NoDup_singleton].
    intros m [ts Hm]%elem_of_snd ->%list_elem_of_singleton. cbn in Hm.
    destruct (cw_queued _ Hwf _ _ _ _ Hsh Hm) as [_ ?]. congruence. }
  rewrite Ho, fmap_app in Hnd. apply NoDup_app in Hnd as (_ & Hdisj & Hnd).
  split_and!; [done| |].
  - intros ts m. rewrite elem_of_app. split.
    2: { intros [[Hm|Hm] Hnp]; [|done]. exfalso. apply Hnp, elem_of_snd. eauto. }
    intros Hm. split; [by right|]. intros Hp. apply (Hdisj _ Hp). apply elem_of_snd. eauto.
  - intros ts m. rewrite <- Ho. intros [Hm|Hm]%elem_of_app.
    + destruct (cw_queued _ Hwf _ _ _ _ Hsh Hm). split; [done|].
      rewrite lookup_insert_ne; [done|]. intros <-. congruence.
    + apply list_elem_of_singleton in Hm. simplify_eq. split; [done|apply lookup_insert_eq].
Qed.

Lemma cache_wf_insert mac now age c :
  cache_wf c -> cache_wf (check_and_insert mac now age c).2.
Proof.
  intros Hwf. destruct (check_and_insert mac now age c) as [[] c'] eqn:E; cbn [snd].
  { unfold check_and_insert in E. case_match; [by simplify_eq|].
    destruct (evict_expired _ _ _ _), (evict_over_cap _ _ _) as [[] ?]. done. }
  apply check_and_insert_fresh in E as (Hn & sh & order & pre & Hsh & Ho & Hb & Es & Ese); [|done].
  destruct (insert_queue_facts mac now c sh pre order Hwf Hn Hsh Ho) as (Hnd & Hin & Hq).
  split.
  - rewrite Es, length_insert. apply Hwf.
  - intros i x. rewrite Es. intros [(<- & <- & _)|[_ Hx]]%list_lookup_insert_Some; [done|].
    by eapply cw_nodup.
  - intros i x. rewrite Es. intros [(<- & <- & _)|[_ Hx]]%list_lookup_insert_Some; [done|].
    by eapply cw_bound.
  - intros i x ts m. rewrite Es, Ese, forget_lookup.
    intros [(<- & <- & _)|[Hne Hx]]%list_lookup_insert_Some Hm.
    + apply Hin in Hm as [Hm Hnp]. rewrite decide_False by done. by apply Hq.
    + destruct (cw_queued _ Hwf _ _ _ _ Hx Hm) as [Hi Hs]. split; [done|].
      assert (m <> mac) by (intros ->; congruence).
      assert (m ∉ pre.*2) as Hnp.
      { intros [ts' Hp]%elem_of_snd. destruct (Hq ts' m); [by apply elem_of_app; left|congruence]. }
      by rewrite decide_False, lookup_insert_ne by done.
  - intros m ts. rewrite Ese, forget_lookup. case_decide as Hp; [done|]. intros Hm.
    rewrite Es. destruct (decide (m = mac)) as [->|Hne].
    + rewrite lookup_insert_eq in Hm. simplify_eq. exists order.
      rewrite list_lookup_insert_eq by (by eapply lookup_lt_Some). split; [done|].
      apply Hin. split; [|done]. rewrite <- Ho. apply elem_of_app. right. apply list_elem_of_here.
    + rewrite lookup_insert_ne in Hm by done.
      destruct (cw_seen _ Hwf _ _ Hm) as (x & Hx & Hmx).
      destruct (decide (shard_of m = shard_of mac)) as [He|Hne'].
      * rewrite He in *. exists order. rewrite list_lookup_insert_eq by (by eapply lookup_lt_Some).
        split; [done|]. apply Hin. split; [|done]. rewrite <- Ho. apply elem_of_app. left.
        by simplify_eq.
      * exists x. by rewrite list_lookup_insert_ne.
Qed.

(** ** Runs of the cache *)

Definition cache_run (age : Z) (run : list (list byte * Z)) (c : ReplayCache) : ReplayCache :=
  foldl (fun c '(mac, now) => (check_and_insert mac now age c).2) c run.

Lemma cache_wf_run age run c : cache_wf c -> cache_wf (cache_run age run c).
Proof.
  revert c. induction run as [|[m t] run IH]; intros c Hwf; [done|].
  apply IH. by apply cache_wf_insert.
Qed.

Lemma length_concat_shards (l : list ReplayShard) b :
  Forall (fun sh => len sh <= b) l -> len (concat l) <= len l * b.
Proof.
  induction 1 as [|sh l Hb _ IH]; [done|]. cbn [concat]. rewrite len_app, len_cons. lia.
Qed.

Lemma size_list_to_set_le (l : list (list byte)) :
  (size (list_to_set (C := gset (list byte)) l) <= length l)%nat.
Proof.
  induction l as [|x l IH]; [done|]. cbn [list_to_set length].
  rewrite size_union_alt, size_singleton.
  pose proof (subseteq_size (list_to_set (C := gset (list byte)) l ∖ {[x]}) (list_to_set l)
    ltac:(set_solver)). lia.
Qed.

(** Whatever is presented to it, the replay cache never holds more than
    REPLAY_CACHE_MAX MACs, and every MAC it knows is in the queue of its shard. *)
Theorem replay_cache_bounded age run :
  let c := cache_run age run ReplayCache_new in
  cache_wf c /\ Z.of_nat (size (seen c)) <= REPLAY_CACHE_MAX.
Proof.
  intros c. assert (cache_wf c) as Hwf by apply cache_wf_run, cache_wf_new. split; [done|].
  assert (dom (seen c) ⊆ list_to_set (concat (shards c)).*2) as Hsub.
  { intros m [ts Hm]%elem_of_dom. destruct (cw_seen _ Hwf _ _ Hm) as (sh & Hsh & Hin).
    apply elem_of_list_to_set, elem_of_snd. exists ts. apply list_elem_of_In, in_concat.
    exists sh. split; [|by apply list_elem_of_In]. apply list_elem_of_In. by eapply list_elem_of_lookup_2. }
  apply subseteq_size in Hsub. rewrite size_dom in Hsub.
  assert (len (concat (shards c)) <= REPLAY_CACHE_MAX) as Hlen.
  { transitivity (len (shards c) * REPLAY_CACHE_PER_SHARD_MAX).
    - apply length_concat_shards, Forall_lookup. apply Hwf.
    - unfold len. by rewrite (cw_shards _ Hwf). }
  assert (size (list_to_set (C := gset (list byte)) (concat (shards c)).*2)
    <= length (concat (shards c)).*2)%nat as Hsz by apply size_list_to_set_le.
  rewrite length_fmap in Hsz. unfold len in Hlen. lia.
Qed.

(** *** Retention *)

(** [mac] sits in its queue with at most [k] younger entries behind it. *)
Definition queued (k : Z) (mac : list byte) (ts : Z) (c : ReplayCache) : Prop :=
  exists pre post, shards c !! shard_of mac = Some (pre ++ (ts, mac) :: post) /\ len post <= k.

Lemma evict_expired_keeps now age pre x post s :
  saturating_sub now x.1 < age ->
  exists pre' s', evict_expired now age (pre ++ x :: post) s = (pre' ++ x :: post, s').
Proof.
  intros Hx. revert s. induction pre as [|[t m] pre IH]; intros s; cbn.
  - destruct x as [t m]. cbn in Hx. rewrite (proj2 (Z.leb_gt _ _)) by done. by exists [], s.
  - case_if; [apply IH|]. by exists ((t, m) :: pre), s.
Qed.

Lemma evict_over_cap_keeps pre x post s ev :
  len (x :: post) <= REPLAY_CACHE_PER_SHARD_MAX ->
  exists pre' s' ev', evict_over_cap (pre ++ x :: post) s ev = (pre' ++ x :: post, s', ev').
Proof.
  intros Hx. revert s ev. induction pre as [|[t m] pre IH]; intros s ev; cbn [app evict_over_cap].
  - destruct x as [t m]. rewrite (proj2 (Z.ltb_ge _ _)) by done. by exists [], s, ev.
  - case_if; [apply IH|]. by exists ((t, m) :: pre), s, ev.
Qed.

Lemma queued_step k mac ts m now age c :
  cache_wf c -> queued k mac ts c -> now - ts < age -> 0 < age ->
  k + 2 <= REPLAY_CACHE_PER_SHARD_MAX ->
  queued (k + 1) mac ts (check_and_insert m now age c).2.
Proof.
  intros Hwf (pre & post & Hsh & Hk) Hnow Hage Hcap. unfold check_and_insert.
  destruct (seen c !! m) eqn:Em; [exists pre, post; split; [done|]; lia|].
  destruct (decide (shard_of m = shard_of mac)) as [E|Hne].
  - rewrite E, Hsh. unfold default, id, from_option. rewrite <- (assoc_L (++)). cbn [app].
    destruct (evict_expired_keeps now age pre (ts, mac) (post ++ [(now, m)]) (<[m := now]> (seen c)))
      as (p1 & s1 & ->); [unfold saturating_sub; cbn; lia|].
    destruct (evict_over_cap_keeps p1 (ts, mac) (post ++ [(now, m)]) s1 (full_evictions c))
      as (p2 & s2 & ev & ->); [autorewrite with rust_len; lia|].
    exists p2, (post ++ [(now, m)]). cbn. split.
    + apply list_lookup_insert_eq. by eapply lookup_lt_Some.
    + autorewrite with rust_len. lia.
  - destruct (evict_expired _ _ _ _) as [o1 s1], (evict_over_cap _ _ _) as [[o2 s2] ev].
    exists pre, post. cbn. split; [by rewrite list_lookup_insert_ne|lia].
Qed.

Lemma queued_insert mac now age c c' :
  cache_wf c -> 0 < age -> check_and_insert mac now age c = (false, c') -> queued 0 mac now c'.
Proof.
  intros Hwf Hage. unfold check_and_insert. destruct (seen c !! mac) eqn:Es; [done|].
  destruct (lookup_lt_is_Some_2 (shards c) (shard_of mac)) as [sh Hsh];
    [rewrite (cw_shards _ Hwf); apply shard_of_bound|].
  rewrite Hsh. unfold default, id, from_option.
  destruct (evict_expired_keeps now age sh (now, mac) [] (<[mac := now]> (seen c)))
    as (p1 & s1 & ->); [unfold saturating_sub; cbn; lia|].
  destruct (evict_over_cap_keeps p1 (now, mac) [] s1 (full_evictions c)) as (p2 & s2 & ev & ->); [done|].
  intros; simplify_eq. exists p2, []. split; [|done].
  apply list_lookup_insert_eq. by eapply lookup_lt_Some.
Qed.

Lemma queued_run k mac ts age run c :
  cache_wf c -> queued k mac ts c -> 0 < age -> Forall (fun '(_, now) => now - ts < age) run ->
  k + len run + 1 <= REPLAY_CACHE_PER_SHARD_MAX -> queued (k + len run) mac ts (cache_run age run c).
Proof.
  revert k c. induction run as [|[m t] run IH]; intros k c Hwf Hq Hage Ht Hcap.
  - rewrite len_nil, Z.add_0_r. done.
  - inversion_clear Ht. rewrite len_cons in *. pose proof (len_nonneg run).
    replace (k + (1 + len run)) with (k + 1 + len run) by lia.
    apply IH; [by apply cache_wf_insert| |done|done|lia]. apply queued_step; done || lia.
Qed.

(** A replayed message is rejected.  A MAC accepted at time t0 for a message
    stamped before t0 is recognised at every later time t at which the message
    still passes the freshness check, as long as fewer than 2048 other messages
    were processed in between. *)
Theorem replayed_message_rejected mac t0 t stamp age skew run c c0 :
  cache_wf c0 -> 0 < age -> stamp < t0 ->
  check_and_insert mac t0 age c0 = (false, c) ->
  Forall (fun '(_, now) => now <= t) run -> len run < REPLAY_CACHE_PER_SHARD_MAX ->
  t0 <= t -> check_message_freshness t stamp age skew = true ->
  (check_and_insert mac t age (cache_run age run c)).1 = true.
Proof.
  intros Hwf Hage Hst Hins Hrun Hlen Ht Hfresh.
  unfold check_message_freshness in Hfresh. rewrite (proj2 (Z.leb_le _ _)) in Hfresh by lia.
  bool_to_prop.
  assert (cache_wf c) as Hwf1.
  { replace c with (check_and_insert mac t0 age c0).2 by (by rewrite Hins). by apply cache_wf_insert. }
  destruct (queued_run 0 mac t0 age run c) as (pre & post & Hsh & _); [done| |done| |lia|].
  - exact (queued_insert _ _ _ _ _ Hwf Hage Hins).
  - eapply Forall_impl; [exact Hrun|]. intros [m now] ?. lia.
  - pose proof (cache_wf_run age run c Hwf1) as Hwf2.
    destruct (cw_queued _ Hwf2 _ _ t0 mac Hsh) as [_ Hs];
      [apply elem_of_app; right; apply list_elem_of_here|].
    unfold check_and_insert. by rewrite Hs.
Qed.

(** A message stamped in the tolerated future outlives its cache entry: it is
    accepted, evicted once max_age has passed since its arrival, and accepted a
    second time while it is still fresh. *)
Theorem future_stamp_replay_accepted :
  let age := 30000 in let stamp := 101000 in
  let mac := replicate 32 Byte.x00 in
  let other := replicate 32 Byte.x01 in
  let c1 := check_and_insert mac 100000 age ReplayCache_new in
  let c2 := check_and_insert other 130000 age c1.2 in
  check_message_freshness 100000 stamp age MAX_FUTURE_SKEW_MS = true /\ c1.1 = false
  /\ c2.1 = false
  /\ check_message_freshness 130500 stamp age MAX_FUTURE_SKEW_MS = true
  /\ (check_and_insert mac 130500 age c2.2).1 = false.
Proof. by vm_compute. Qed.

(** ** Token buckets *)

Lemma refill_account C I now b :
  0 < I -> in_u64 now -> 0 <= last_refill_ms b ->
  let b' := refill C I now b in
  last_refill_ms b <= last_refill_ms b' <= Z.max (last_refill_ms b) now
  /\ I * tokens b' <= I * tokens b + (last_refill_ms b' - last_refill_ms b).
Proof.
  intros HI Hnow Hl. unfold refill. rewrite (proj2 (Z.ltb_lt 0 I)) by done.
  set (r := saturating_sub now (last_refill_ms b) / I).
  destruct (Z.ltb_spec 0 r) as [Hr|Hr]; cbn; [|lia].
  assert (r * I <= saturating_sub now (last_refill_ms b)) as Hrl.
  { rewrite Z.mul_comm. apply Z.mul_div_le. lia. }
  assert (0 < saturating_sub now (last_refill_ms b)) as Hpos.
  { destruct (Z.le_gt_cases (saturating_sub now (last_refill_ms b)) 0); [|lia].
    unfold saturating_sub in *. nia. }
  unfold saturating_add, saturating_mul, saturating_sub, u64_max, in_u64 in *.
  rewrite (Z.min_l (r * I)) by lia. rewrite (Z.min_l (last_refill_ms b + r * I)) by lia.
  split; [nia|]. assert (Z.min (Z.min (tokens b + r) (2 ^ 64 - 1)) C <= tokens b + r) by lia. nia.
Qed.

Lemma consume_account b :
  let '(ok, b') := consume b in
  last_refill_ms b' = last_refill_ms b /\ tokens b' = tokens b - (if ok then 1 else 0)
  /\ (0 <= tokens b -> 0 <= tokens b').
Proof. unfold consume. case_if; cbn; bool_to_prop; repeat split; lia. Qed.

Lemma refill_nonneg C I now b : 0 <= C -> 0 <= tokens b -> 0 <= tokens (refill C I now b).
Proof.
  intros. unfold refill, saturating_add, saturating_sub, u64_max. repeat (case_if; cbn); bool_to_prop; lia.
Qed.

(** The number of requests of [peer] admitted in a sequence of clock readings,
    with requests of other peers in between. *)
Fixpoint admitted_of (peer : string) (calls : list (string * Z)) (l : VoteRateLimiter)
    : Z * VoteRateLimiter :=
  match calls with
  | [] => (0, l)
  | (p, now) :: calls =>
      let '(ok, l) := try_consume p now l in
      let '(n, l) := admitted_of peer calls l in
      ((if ok && String.eqb p peer then 1 else 0) + n, l)
  end.

(** One call, as seen by [peer]. *)
Lemma try_consume_cases p now l ok l' :
  try_consume p now l = (ok, l') ->
  capacity l' = capacity l /\ refill_interval_ms l' = refill_interval_ms l
  /\ allowed_peers l' = allowed_peers l
  /\ ((ok = false /\ buckets l' = buckets l)
      \/ exists b, consume (refill (capacity l) (refill_interval_ms l) now
                     (default (mkBucket (capacity l) now 0) (buckets l !! p))) = (ok, b)
           /\ buckets l' = <[p := b]> (buckets l)
           /\ (allowed_peers l = None -> is_Some (buckets l !! p)
               \/ Z.of_nat (size (buckets l)) < MAX_VOTE_RATE_LIMITER_PEERS)).
Proof.
  unfold try_consume. destruct (consume _) as [ok' b] eqn:Ec.
  destruct (allowed_peers l) as [al|] eqn:Ea.
  - case_if; intros; simplify_eq; cbn; split_and!; try done; [|by left].
    right. exists b. split_and!; congruence || done.
  - case_if; intros; simplify_eq; cbn; split_and!; try done; [by left|].
    right. exists b. split_and!; try congruence. intros _.
    apply andb_false_iff in E as [E|E]; bool_to_prop; [by right|by left].
Qed.

(** Tokens a peer may still spend, in units of time, given that all readings lie
    between [tmin] and [T]. *)
Definition credit (peer : string) (tmin T : Z) (l : VoteRateLimiter) : Z :=
  match buckets l !! peer with
  | Some b => refill_interval_ms l * tokens b + (T - last_refill_ms b)
  | None => refill_interval_ms l * capacity l + (T - tmin)
  end.

Definition bucket_ok (peer : string) (tmin T : Z) (l : VoteRateLimiter) : Prop :=
  forall b, buckets l !! peer = Some b -> 0 <= tokens b /\ tmin <= last_refill_ms b <= T.

Lemma credit_step peer p now tmin T l ok l' :
  0 < refill_interval_ms l -> 0 <= capacity l -> 0 <= tmin <= now -> now <= T <= u64_max ->
  bucket_ok peer tmin T l -> try_consume p now l = (ok, l') ->
  bucket_ok peer tmin T l'
  /\ (if ok && String.eqb p peer then refill_interval_ms l else 0) + credit peer tmin T l'
     <= credit peer tmin T l.
Proof.
  intros HI HC Hmin Hmax Hok Ht.
  destruct (try_consume_cases _ _ _ _ _ Ht) as (Ec & Ei & _ & [[-> Eb]|(b & Eb & Hb & _)]).
  { unfold bucket_ok, credit. rewrite Eb, Ei, Ec. cbn. split; [done|lia]. }
  destruct (String.eqb_spec p peer) as [->|Hne].
  2: { unfold bucket_ok, credit. rewrite Hb, lookup_insert_ne, Ei, Ec, andb_false_r by done.
       split; [done|lia]. }
  set (b0 := default (mkBucket (capacity l) now 0) (buckets l !! peer)) in Eb.
  assert (0 <= tokens b0 /\ tmin <= last_refill_ms b0 <= T
    /\ refill_interval_ms l * tokens b0 + (T - last_refill_ms b0) <= credit peer tmin T l)
    as (Ht0 & Hl0 & Hc0).
  { unfold credit, b0. destruct (buckets l !! peer) as [b1|] eqn:E1; cbn.
    - destruct (Hok b1 E1). lia.
    - lia. }
  destruct (refill_account (capacity l) (refill_interval_ms l) now b0) as [Hlr Htr];
    [done|unfold in_u64, u64_max in *; lia|lia|].
  pose proof (refill_nonneg (capacity l) (refill_interval_ms l) now b0 HC Ht0) as Hnn.
  pose proof (consume_account (refill (capacity l) (refill_interval_ms l) now b0)) as Hcons.
  rewrite Eb in Hcons. destruct Hcons as (Hl & Htk & Hn).
  revert Hc0. generalize (credit peer tmin T l) as cr. intros cr Hc0.
  unfold bucket_ok, credit. rewrite Hb, lookup_insert_eq, Ei.
  split; [intros ? [= <-]; split; [auto|]; lia|].
  rewrite Hl, Htk, andb_true_r. destruct ok; lia.
Qed.

(** The vote limiter is a token bucket: for a peer seen for the first time, in
    any sequence of requests (of all peers) with clock readings between tmin and
    T, in whatever order, at most capacity + (T - tmin) / interval of its
    requests are admitted. *)
Theorem vote_rate_bound peer calls l tmin T :
  0 < refill_interval_ms l -> 0 <= capacity l -> 0 <= tmin <= T -> T <= u64_max ->
  buckets l !! peer = None -> Forall (fun '(_, now) => tmin <= now <= T) calls ->
  (admitted_of peer calls l).1 <= capacity l + (T - tmin) / refill_interval_ms l.
Proof.
  intros HI HC Hmin HT Hnone Hcalls.
  assert (forall l1, refill_interval_ms l1 = refill_interval_ms l -> capacity l1 = capacity l ->
    bucket_ok peer tmin T l1 ->
    refill_interval_ms l * (admitted_of peer calls l1).1 <= credit peer tmin T l1) as Hind.
  { induction Hcalls as [|[p now] calls Hnow _ IH]; intros l1 Ei Ec Hok; cbn [admitted_of].
    - cbn. unfold credit. destruct (buckets l1 !! peer) as [b|] eqn:E; [destruct (Hok b E)|]; nia.
    - destruct (try_consume p now l1) as [ok l2] eqn:E2.
      destruct (credit_step peer p now tmin T l1 ok l2) as [Hok2 Hcr]; try done; try lia.
      destruct (try_consume_cases _ _ _ _ _ E2) as (Ec2 & Ei2 & _ & _).
      specialize (IH l2 ltac:(congruence) ltac:(congruence) Hok2).
      destruct (admitted_of peer calls l2) as [n l3]. cbn [fst] in *.
      rewrite Ei in Hcr. destruct (ok && String.eqb p peer); lia. }
  specialize (Hind l eq_refl eq_refl ltac:(intros b; rewrite Hnone; done)).
  unfold credit in Hind. rewrite Hnone in Hind.
  rewrite (Z.add_comm (capacity l)), <- Z.div_add by lia.
  apply Z.div_le_lower_bound; lia.
Qed.

(** Without an allowlist the limiter never keeps more than
    MAX_VOTE_RATE_LIMITER_PEERS buckets, however many names are presented. *)
Theorem vote_buckets_bounded cap interval calls peer :
  Z.of_nat (size (buckets (admitted_of peer calls (VoteRateLimiter_new cap interval)).2))
  <= MAX_VOTE_RATE_LIMITER_PEERS.
Proof.
  assert (forall l, allowed_peers l = None ->
    Z.of_nat (size (buckets l)) <= MAX_VOTE_RATE_LIMITER_PEERS ->
    Z.of_nat (size (buckets (admitted_of peer calls l).2)) <= MAX_VOTE_RATE_LIMITER_PEERS) as Hind.
  { induction calls as [|[p now] calls IH]; intros l Ha Hs; [done|]. cbn [admitted_of].
    destruct (try_consume p now l) as [ok l1] eqn:E1.
    destruct (try_consume_cases _ _ _ _ _ E1) as (_ & _ & Ha1 & Hcase).
    specialize (IH l1 ltac:(congruence)).
    destruct (admitted_of peer calls l1) as [n l2]. cbn [snd] in *. apply IH.
    destruct Hcase as [[_ ->]|(b & _ & -> & Hroom)]; [done|].
    destruct (buckets l !! p) as [b0|] eqn:Ep.
    - rewrite map_size_insert_Some by done. done.
    - rewrite map_size_insert_None by done.
      destruct (Hroom Ha) as [[? ?]|]; [done|]. lia. }
  apply Hind; [done|]. cbn. by rewrite map_size_empty.
Qed.

(** ** Witnesses *)

Definition demo_mac : list byte := replicate 32 Byte.x00.

Lemma replayed_message_rejected_witness :
  let c := (check_and_insert demo_mac 1000 30000 ReplayCache_new).2 in
  let run := [(replicate 32 Byte.x01, 30000)] in
  check_message_freshness 30900 999 30000 1000 = true
  /\ (check_and_insert demo_mac 30900 30000 (cache_run 30000 run c)).1 = true.
Proof.
  intros c run. split; [reflexivity|].
  apply (replayed_message_rejected demo_mac 1000 30900 999 30000 1000 run c ReplayCache_new
    cache_wf_new); try (done || lia).
  by repeat constructor.
Defined.

Lemma vote_rate_bound_witness :
  let calls := [("a", 100); ("a", 101); ("b", 101); ("a", 102); ("a", 103); ("a", 5103)] in
  (admitted_of "a" calls (VoteRateLimiter_new 3 5000)).1 = 4
  /\ (admitted_of "a" calls (VoteRateLimiter_new 3 5000)).1 <= 3 + (5103 - 100) / 5000.
Proof.
  intros calls. split; [reflexivity|].
  apply (vote_rate_bound "a" calls (VoteRateLimiter_new 3 5000) 100 5103); try (done || lia).
  repeat constructor; lia.
Defined.
