(* ===== verification/RaftNode.v ===== *)
(** * The Raft node ([craton-hsm-cluster/src/raft.rs])

    The state of a node, the authentication of messages, elections, log
    replication, commitment, application, compaction and quorum-gated membership
    proposals.  A node is a value of [RaftNode]; every handler maps a node to a
    reply and a node.  What the process reads from outside is explicit: [now] is
    the wall clock and [mono] the monotonic clock in milliseconds, [jitter] a
    random draw.  HMAC-SHA256 and the JSON encoding of snapshots come from crates
    and are the fields of [RaftCrates].  The storage is an [AttachedStorage]: its
    contents, and how its coming calls end; the node logs a failed save and goes
    on, except for a snapshot that could not be saved. *)

From coqutil Require Import Byte.
From stdpp Require Import prelude gmap strings list sorting.
From Stdlib Require Import ZArith Lia.
From S2P Require Import Prelude RustStd RaftLog RaftStateMachine RaftGuard.
Local Open Scope Z_scope.

Record RaftCrates : Type := mkCrates {
  hmac_sha256 : list byte -> list byte -> list byte;
  snapshot_to_vec : SM.StateMachineSnapshot -> option (list byte);
  snapshot_from_slice : list byte -> option SM.StateMachineSnapshot;
}.

(** ** Messages *)

Record RequestVoteArgs : Type := mkVoteArgs {
  rv_term : Z;
  rv_candidate_id : string;
  rv_last_log_index : Z;
  rv_last_log_term : Z;
  rv_timestamp_ms : Z;
  rv_hmac : option (list byte);
}.

Record RequestVoteReply : Type := mkVoteReply {
  rvr_term : Z;
  rvr_vote_granted : bool;
  rvr_timestamp_ms : Z;
  rvr_hmac : option (list byte);
}.

(** [PreVoteArgs] has the fields of [RequestVoteArgs], and [PreVoteReply] those of
    [RequestVoteReply]. *)
Definition PreVoteArgs : Type := RequestVoteArgs.
Definition PreVoteReply : Type := RequestVoteReply.

Record AppendEntriesArgs : Type := mkAppendArgs {
  ae_term : Z;
  ae_leader_id : string;
  ae_prev_log_index : Z;
  ae_prev_log_term : Z;
  ae_entries : list LogEntry;
  ae_leader_commit : Z;
  ae_timestamp_ms : Z;
  ae_hmac : option (list byte);
}.

Record AppendEntriesReply : Type := mkAppendReply {
  aer_term : Z;
  aer_success : bool;
  aer_timestamp_ms : Z;
  aer_hmac : option (list byte);
}.

Record ConfigChangeProposal : Type := mkProposal {
  cp_proposal_id : string;
  cp_node_id : string;
  cp_action : MembershipAction;
  cp_timestamp_ms : Z;
}.

Record ConfigChangeApproval : Type := mkApproval {
  ca_proposal_id : string;
  ca_approver_id : string;
  ca_timestamp_ms : Z;
  ca_hmac : list byte;
}.

Record PendingConfigChange : Type := mkPending {
  pc_proposal : ConfigChangeProposal;
  pc_approvers : gset string;
}.

Record SnapshotChunkBuffer : Type := mkChunkBuffer {
  cb_data : list byte;
  cb_total_size : Z;
  cb_last_included_index : Z;
  cb_last_included_term : Z;
}.

(** ** The node

    Two fields of the struct are left out: [started_at], the origin of the
    monotonic clock (here [mono] is the reading), and [last_reply_ts], which no
    function reads or writes after construction. *)

Record RaftNode : Type := mkNode {
  n_id : string;
  n_state : RaftState;
  n_current_term : Z;
  n_voted_for : option string;
  n_log : RaftLog;
  n_peers : list string;
  n_base_election_timeout_ms : Z;
  n_election_timeout_ms : Z;
  n_last_heartbeat_ms : Z;
  n_cluster_secret : option (list byte);
  n_max_message_age_ms : Z;
  n_max_future_skew_ms : Z;
  n_next_index : gmap string Z;
  n_match_index : gmap string Z;
  n_replay_cache : ReplayCache;
  n_storage : option AttachedStorage;
  n_state_machine : option SM.Inner;
  n_last_snapshot_index : Z;
  n_last_snapshot_term : Z;
  n_snapshot_interval : Z;
  n_vote_rate_limiter : VoteRateLimiter;
  n_pending_config_changes : gmap string PendingConfigChange;
  n_last_config_change_at : gmap string Z;
  n_min_config_change_interval_ms : Z;
  n_last_heartbeat_monotonic_ms : Z;
  n_snapshot_chunk_buffers : gmap string SnapshotChunkBuffer;
  n_recent_departed_peers : gmap string Z;
  n_forged_reply_rejects : Z;
  n_forged_snapshot_rejects : Z;
  n_current_leader_hint : option string;
  n_accept_legacy_reply_hmac_tags : bool;
  n_legacy_reply_hmac_accepts : Z;
  n_apply_halted : bool;
}.

(** Assignments to the fields. *)
Definition set_cluster_secret (v : option (list byte)) (n : RaftNode) : RaftNode :=
  mkNode (n_id n) (n_state n) (n_current_term n) (n_voted_for n) (n_log n) (n_peers n)
    (n_base_election_timeout_ms n) (n_election_timeout_ms n) (n_last_heartbeat_ms n) v
    (n_max_message_age_ms n) (n_max_future_skew_ms n) (n_next_index n) (n_match_index n)
    (n_replay_cache n) (n_storage n) (n_state_machine n) (n_last_snapshot_index n)
    (n_last_snapshot_term n) (n_snapshot_interval n) (n_vote_rate_limiter n)
    (n_pending_config_changes n) (n_last_config_change_at n) (n_min_config_change_interval_ms
    n) (n_last_heartbeat_monotonic_ms n) (n_snapshot_chunk_buffers n) (n_recent_departed_peers
    n) (n_forged_reply_rejects n) (n_forged_snapshot_rejects n) (n_current_leader_hint n)
    (n_accept_legacy_reply_hmac_tags n) (n_legacy_reply_hmac_accepts n) (n_apply_halted n).
Definition set_snapshot_interval (v : Z) (n : RaftNode) : RaftNode :=
  mkNode (n_id n) (n_state n) (n_current_term n) (n_voted_for n) (n_log n) (n_peers n)
    (n_base_election_timeout_ms n) (n_election_timeout_ms n) (n_last_heartbeat_ms n)
    (n_cluster_secret n) (n_max_message_age_ms n) (n_max_future_skew_ms n) (n_next_index n)
    (n_match_index n) (n_replay_cache n) (n_storage n) (n_state_machine n)
    (n_last_snapshot_index n) (n_last_snapshot_term n) v (n_vote_rate_limiter n)
    (n_pending_config_changes n) (n_last_config_change_at n) (n_min_config_change_interval_ms
    n) (n_last_heartbeat_monotonic_ms n) (n_snapshot_chunk_buffers n) (n_recent_departed_peers
    n) (n_forged_reply_rejects n) (n_forged_snapshot_rejects n) (n_current_leader_hint n)
    (n_accept_legacy_reply_hmac_tags n) (n_legacy_reply_hmac_accepts n) (n_apply_halted n).
Definition set_state (v : RaftState) (n : RaftNode) : RaftNode :=
  mkNode (n_id n) v (n_current_term n) (n_voted_for n) (n_log n) (n_peers n)
    (n_base_election_timeout_ms n) (n_election_timeout_ms n) (n_last_heartbeat_ms n)
    (n_cluster_secret n) (n_max_message_age_ms n) (n_max_future_skew_ms n) (n_next_index n)
    (n_match_index n) (n_replay_cache n) (n_storage n) (n_state_machine n)
    (n_last_snapshot_index n) (n_last_snapshot_term n) (n_snapshot_interval n)
    (n_vote_rate_limiter n) (n_pending_config_changes n) (n_last_config_change_at n)
    (n_min_config_change_interval_ms n) (n_last_heartbeat_monotonic_ms n)
    (n_snapshot_chunk_buffers n) (n_recent_departed_peers n) (n_forged_reply_rejects n)
    (n_forged_snapshot_rejects n) (n_current_leader_hint n) (n_accept_legacy_reply_hmac_tags n)
    (n_legacy_reply_hmac_accepts n) (n_apply_halted n).
Definition set_current_term (v : Z) (n : RaftNode) : RaftNode :=
  mkNode (n_id n) (n_state n) v (n_voted_for n) (n_log n) (n_peers n)
    (n_base_election_timeout_ms n) (n_election_timeout_ms n) (n_last_heartbeat_ms n)
    (n_cluster_secret n) (n_max_message_age_ms n) (n_max_future_skew_ms n) (n_next_index n)
    (n_match_index n) (n_replay_cache n) (n_storage n) (n_state_machine n)
    (n_last_snapshot_index n) (n_last_snapshot_term n) (n_snapshot_interval n)
    (n_vote_rate_limiter n) (n_pending_config_changes n) (n_last_config_change_at n)
    (n_min_config_change_interval_ms n) (n_last_heartbeat_monotonic_ms n)
    (n_snapshot_chunk_buffers n) (n_recent_departed_peers n) (n_forged_reply_rejects n)
    (n_forged_snapshot_rejects n) (n_current_leader_hint n) (n_accept_legacy_reply_hmac_tags n)
    (n_legacy_reply_hmac_accepts n) (n_apply_halted n).
Definition set_voted_for (v : option string) (n : RaftNode) : RaftNode :=
  mkNode (n_id n) (n_state n) (n_current_term n) v (n_log n) (n_peers n)
    (n_base_election_timeout_ms n) (n_election_timeout_ms n) (n_last_heartbeat_ms n)
    (n_cluster_secret n) (n_max_message_age_ms n) (n_max_future_skew_ms n) (n_next_index n)
    (n_match_index n) (n_replay_cache n) (n_storage n) (n_state_machine n)
    (n_last_snapshot_index n) (n_last_snapshot_term n) (n_snapshot_interval n)
    (n_vote_rate_limiter n) (n_pending_config_changes n) (n_last_config_change_at n)
    (n_min_config_change_interval_ms n) (n_last_heartbeat_monotonic_ms n)
    (n_snapshot_chunk_buffers n) (n_recent_departed_peers n) (n_forged_reply_rejects n)
    (n_forged_snapshot_rejects n) (n_current_leader_hint n) (n_accept_legacy_reply_hmac_tags n)
    (n_legacy_reply_hmac_accepts n) (n_apply_halted n).
Definition set_log (v : RaftLog) (n : RaftNode) : RaftNode :=
  mkNode (n_id n) (n_state n) (n_current_term n) (n_voted_for n) v (n_peers n)
    (n_base_election_timeout_ms n) (n_election_timeout_ms n) (n_last_heartbeat_ms n)
    (n_cluster_secret n) (n_max_message_age_ms n) (n_max_future_skew_ms n) (n_next_index n)
    (n_match_index n) (n_replay_cache n) (n_storage n) (n_state_machine n)
    (n_last_snapshot_index n) (n_last_snapshot_term n) (n_snapshot_interval n)
    (n_vote_rate_limiter n) (n_pending_config_changes n) (n_last_config_change_at n)
    (n_min_config_change_interval_ms n) (n_last_heartbeat_monotonic_ms n)
    (n_snapshot_chunk_buffers n) (n_recent_departed_peers n) (n_forged_reply_rejects n)
    (n_forged_snapshot_rejects n) (n_current_leader_hint n) (n_accept_legacy_reply_hmac_tags n)
    (n_legacy_reply_hmac_accepts n) (n_apply_halted n).
Definition set_peers (v : list string) (n : RaftNode) : RaftNode :=
  mkNode (n_id n) (n_state n) (n_current_term n) (n_voted_for n) (n_log n) v
    (n_base_election_timeout_ms n) (n_election_timeout_ms n) (n_last_heartbeat_ms n)
    (n_cluster_secret n) (n_max_message_age_ms n) (n_max_future_skew_ms n) (n_next_index n)
    (n_match_index n) (n_replay_cache n) (n_storage n) (n_state_machine n)
    (n_last_snapshot_index n) (n_last_snapshot_term n) (n_snapshot_interval n)
    (n_vote_rate_limiter n) (n_pending_config_changes n) (n_last_config_change_at n)
    (n_min_config_change_interval_ms n) (n_last_heartbeat_monotonic_ms n)
    (n_snapshot_chunk_buffers n) (n_recent_departed_peers n) (n_forged_reply_rejects n)
    (n_forged_snapshot_rejects n) (n_current_leader_hint n) (n_accept_legacy_reply_hmac_tags n)
    (n_legacy_reply_hmac_accepts n) (n_apply_halted n).
Definition set_election_timeout_ms (v : Z) (n : RaftNode) : RaftNode :=
  mkNode (n_id n) (n_state n) (n_current_term n) (n_voted_for n) (n_log n) (n_peers n)
    (n_base_election_timeout_ms n) v (n_last_heartbeat_ms n) (n_cluster_secret n)
    (n_max_message_age_ms n) (n_max_future_skew_ms n) (n_next_index n) (n_match_index n)
    (n_replay_cache n) (n_storage n) (n_state_machine n) (n_last_snapshot_index n)
    (n_last_snapshot_term n) (n_snapshot_interval n) (n_vote_rate_limiter n)
    (n_pending_config_changes n) (n_last_config_change_at n) (n_min_config_change_interval_ms
    n) (n_last_heartbeat_monotonic_ms n) (n_snapshot_chunk_buffers n) (n_recent_departed_peers
    n) (n_forged_reply_rejects n) (n_forged_snapshot_rejects n) (n_current_leader_hint n)
    (n_accept_legacy_reply_hmac_tags n) (n_legacy_reply_hmac_accepts n) (n_apply_halted n).
Definition set_last_heartbeat_ms (v : Z) (n : RaftNode) : RaftNode :=
  mkNode (n_id n) (n_state n) (n_current_term n) (n_voted_for n) (n_log n) (n_peers n)
    (n_base_election_timeout_ms n) (n_election_timeout_ms n) v (n_cluster_secret n)
    (n_max_message_age_ms n) (n_max_future_skew_ms n) (n_next_index n) (n_match_index n)
    (n_replay_cache n) (n_storage n) (n_state_machine n) (n_last_snapshot_index n)
    (n_last_snapshot_term n) (n_snapshot_interval n) (n_vote_rate_limiter n)
    (n_pending_config_changes n) (n_last_config_change_at n) (n_min_config_change_interval_ms
    n) (n_last_heartbeat_monotonic_ms n) (n_snapshot_chunk_buffers n) (n_recent_departed_peers
    n) (n_forged_reply_rejects n) (n_forged_snapshot_rejects n) (n_current_leader_hint n)
    (n_accept_legacy_reply_hmac_tags n) (n_legacy_reply_hmac_accepts n) (n_apply_halted n).
Definition set_next_index (v : gmap string Z) (n : RaftNode) : RaftNode :=
  mkNode (n_id n) (n_state n) (n_current_term n) (n_voted_for n) (n_log n) (n_peers n)
    (n_base_election_timeout_ms n) (n_election_timeout_ms n) (n_last_heartbeat_ms n)
    (n_cluster_secret n) (n_max_message_age_ms n) (n_max_future_skew_ms n) v (n_match_index n)
    (n_replay_cache n) (n_storage n) (n_state_machine n) (n_last_snapshot_index n)
    (n_last_snapshot_term n) (n_snapshot_interval n) (n_vote_rate_limiter n)
    (n_pending_config_changes n) (n_last_config_change_at n) (n_min_config_change_interval_ms
    n) (n_last_heartbeat_monotonic_ms n) (n_snapshot_chunk_buffers n) (n_recent_departed_peers
    n) (n_forged_reply_rejects n) (n_forged_snapshot_rejects n) (n_current_leader_hint n)
    (n_accept_legacy_reply_hmac_tags n) (n_legacy_reply_hmac_accepts n) (n_apply_halted n).
Definition set_match_index (v : gmap string Z) (n : RaftNode) : RaftNode :=
  mkNode (n_id n) (n_state n) (n_current_term n) (n_voted_for n) (n_log n) (n_peers n)
    (n_base_election_timeout_ms n) (n_election_timeout_ms n) (n_last_heartbeat_ms n)
    (n_cluster_secret n) (n_max_message_age_ms n) (n_max_future_skew_ms n) (n_next_index n) v
    (n_replay_cache n) (n_storage n) (n_state_machine n) (n_last_snapshot_index n)
    (n_last_snapshot_term n) (n_snapshot_interval n) (n_vote_rate_limiter n)
    (n_pending_config_changes n) (n_last_config_change_at n) (n_min_config_change_interval_ms
    n) (n_last_heartbeat_monotonic_ms n) (n_snapshot_chunk_buffers n) (n_recent_departed_peers
    n) (n_forged_reply_rejects n) (n_forged_snapshot_rejects n) (n_current_leader_hint n)
    (n_accept_legacy_reply_hmac_tags n) (n_legacy_reply_hmac_accepts n) (n_apply_halted n).
Definition set_replay_cache (v : ReplayCache) (n : RaftNode) : RaftNode :=
  mkNode (n_id n) (n_state n) (n_current_term n) (n_voted_for n) (n_log n) (n_peers n)
    (n_base_election_timeout_ms n) (n_election_timeout_ms n) (n_last_heartbeat_ms n)
    (n_cluster_secret n) (n_max_message_age_ms n) (n_max_future_skew_ms n) (n_next_index n)
    (n_match_index n) v (n_storage n) (n_state_machine n) (n_last_snapshot_index n)
    (n_last_snapshot_term n) (n_snapshot_interval n) (n_vote_rate_limiter n)
    (n_pending_config_changes n) (n_last_config_change_at n) (n_min_config_change_interval_ms
    n) (n_last_heartbeat_monotonic_ms n) (n_snapshot_chunk_buffers n) (n_recent_departed_peers
    n) (n_forged_reply_rejects n) (n_forged_snapshot_rejects n) (n_current_leader_hint n)
    (n_accept_legacy_reply_hmac_tags n) (n_legacy_reply_hmac_accepts n) (n_apply_halted n).
Definition set_storage (v : option AttachedStorage) (n : RaftNode) : RaftNode :=
  mkNode (n_id n) (n_state n) (n_current_term n) (n_voted_for n) (n_log n) (n_peers n)
    (n_base_election_timeout_ms n) (n_election_timeout_ms n) (n_last_heartbeat_ms n)
    (n_cluster_secret n) (n_max_message_age_ms n) (n_max_future_skew_ms n) (n_next_index n)
    (n_match_index n) (n_replay_cache n) v (n_state_machine n) (n_last_snapshot_index n)
    (n_last_snapshot_term n) (n_snapshot_interval n) (n_vote_rate_limiter n)
    (n_pending_config_changes n) (n_last_config_change_at n) (n_min_config_change_interval_ms
    n) (n_last_heartbeat_monotonic_ms n) (n_snapshot_chunk_buffers n) (n_recent_departed_peers
    n) (n_forged_reply_rejects n) (n_forged_snapshot_rejects n) (n_current_leader_hint n)
    (n_accept_legacy_reply_hmac_tags n) (n_legacy_reply_hmac_accepts n) (n_apply_halted n).
Definition set_state_machine (v : option SM.Inner) (n : RaftNode) : RaftNode :=
  mkNode (n_id n) (n_state n) (n_current_term n) (n_voted_for n) (n_log n) (n_peers n)
    (n_base_election_timeout_ms n) (n_election_timeout_ms n) (n_last_heartbeat_ms n)
    (n_cluster_secret n) (n_max_message_age_ms n) (n_max_future_skew_ms n) (n_next_index n)
    (n_match_index n) (n_replay_cache n) (n_storage n) v (n_last_snapshot_index n)
    (n_last_snapshot_term n) (n_snapshot_interval n) (n_vote_rate_limiter n)
    (n_pending_config_changes n) (n_last_config_change_at n) (n_min_config_change_interval_ms
    n) (n_last_heartbeat_monotonic_ms n) (n_snapshot_chunk_buffers n) (n_recent_departed_peers
    n) (n_forged_reply_rejects n) (n_forged_snapshot_rejects n) (n_current_leader_hint n)
    (n_accept_legacy_reply_hmac_tags n) (n_legacy_reply_hmac_accepts n) (n_apply_halted n).
Definition set_last_snapshot_index (v : Z) (n : RaftNode) : RaftNode :=
  mkNode (n_id n) (n_state n) (n_current_term n) (n_voted_for n) (n_log n) (n_peers n)
    (n_base_election_timeout_ms n) (n_election_timeout_ms n) (n_last_heartbeat_ms n)
    (n_cluster_secret n) (n_max_message_age_ms n) (n_max_future_skew_ms n) (n_next_index n)
    (n_match_index n) (n_replay_cache n) (n_storage n) (n_state_machine n) v
    (n_last_snapshot_term n) (n_snapshot_interval n) (n_vote_rate_limiter n)
    (n_pending_config_changes n) (n_last_config_change_at n) (n_min_config_change_interval_ms
    n) (n_last_heartbeat_monotonic_ms n) (n_snapshot_chunk_buffers n) (n_recent_departed_peers
    n) (n_forged_reply_rejects n) (n_forged_snapshot_rejects n) (n_current_leader_hint n)
    (n_accept_legacy_reply_hmac_tags n) (n_legacy_reply_hmac_accepts n) (n_apply_halted n).
Definition set_last_snapshot_term (v : Z) (n : RaftNode) : RaftNode :=
  mkNode (n_id n) (n_state n) (n_current_term n) (n_voted_for n) (n_log n) (n_peers n)
    (n_base_election_timeout_ms n) (n_election_timeout_ms n) (n_last_heartbeat_ms n)
    (n_cluster_secret n) (n_max_message_age_ms n) (n_max_future_skew_ms n) (n_next_index n)
    (n_match_index n) (n_replay_cache n) (n_storage n) (n_state_machine n)
    (n_last_snapshot_index n) v (n_snapshot_interval n) (n_vote_rate_limiter n)
    (n_pending_config_changes n) (n_last_config_change_at n) (n_min_config_change_interval_ms
    n) (n_last_heartbeat_monotonic_ms n) (n_snapshot_chunk_buffers n) (n_recent_departed_peers
    n) (n_forged_reply_rejects n) (n_forged_snapshot_rejects n) (n_current_leader_hint n)
    (n_accept_legacy_reply_hmac_tags n) (n_legacy_reply_hmac_accepts n) (n_apply_halted n).
Definition set_vote_rate_limiter (v : VoteRateLimiter) (n : RaftNode) : RaftNode :=
  mkNode (n_id n) (n_state n) (n_current_term n) (n_voted_for n) (n_log n) (n_peers n)
    (n_base_election_timeout_ms n) (n_election_timeout_ms n) (n_last_heartbeat_ms n)
    (n_cluster_secret n) (n_max_message_age_ms n) (n_max_future_skew_ms n) (n_next_index n)
    (n_match_index n) (n_replay_cache n) (n_storage n) (n_state_machine n)
    (n_last_snapshot_index n) (n_last_snapshot_term n) (n_snapshot_interval n) v
    (n_pending_config_changes n) (n_last_config_change_at n) (n_min_config_change_interval_ms
    n) (n_last_heartbeat_monotonic_ms n) (n_snapshot_chunk_buffers n) (n_recent_departed_peers
    n) (n_forged_reply_rejects n) (n_forged_snapshot_rejects n) (n_current_leader_hint n)
    (n_accept_legacy_reply_hmac_tags n) (n_legacy_reply_hmac_accepts n) (n_apply_halted n).
Definition set_pending_config_changes (v : gmap string PendingConfigChange) (n : RaftNode) : RaftNode :=
  mkNode (n_id n) (n_state n) (n_current_term n) (n_voted_for n) (n_log n) (n_peers n)
    (n_base_election_timeout_ms n) (n_election_timeout_ms n) (n_last_heartbeat_ms n)
    (n_cluster_secret n) (n_max_message_age_ms n) (n_max_future_skew_ms n) (n_next_index n)
    (n_match_index n) (n_replay_cache n) (n_storage n) (n_state_machine n)
    (n_last_snapshot_index n) (n_last_snapshot_term n) (n_snapshot_interval n)
    (n_vote_rate_limiter n) v (n_last_config_change_at n) (n_min_config_change_interval_ms n)
    (n_last_heartbeat_monotonic_ms n) (n_snapshot_chunk_buffers n) (n_recent_departed_peers n)
    (n_forged_reply_rejects n) (n_forged_snapshot_rejects n) (n_current_leader_hint n)
    (n_accept_legacy_reply_hmac_tags n) (n_legacy_reply_hmac_accepts n) (n_apply_halted n).
Definition set_last_config_change_at (v : gmap string Z) (n : RaftNode) : RaftNode :=
  mkNode (n_id n) (n_state n) (n_current_term n) (n_voted_for n) (n_log n) (n_peers n)
    (n_base_election_timeout_ms n) (n_election_timeout_ms n) (n_last_heartbeat_ms n)
    (n_cluster_secret n) (n_max_message_age_ms n) (n_max_future_skew_ms n) (n_next_index n)
    (n_match_index n) (n_replay_cache n) (n_storage n) (n_state_machine n)
    (n_last_snapshot_index n) (n_last_snapshot_term n) (n_snapshot_interval n)
    (n_vote_rate_limiter n) (n_pending_config_changes n) v (n_min_config_change_interval_ms n)
    (n_last_heartbeat_monotonic_ms n) (n_snapshot_chunk_buffers n) (n_recent_departed_peers n)
    (n_forged_reply_rejects n) (n_forged_snapshot_rejects n) (n_current_leader_hint n)
    (n_accept_legacy_reply_hmac_tags n) (n_legacy_reply_hmac_accepts n) (n_apply_halted n).
Definition set_last_heartbeat_monotonic_ms (v : Z) (n : RaftNode) : RaftNode :=
  mkNode (n_id n) (n_state n) (n_current_term n) (n_voted_for n) (n_log n) (n_peers n)
    (n_base_election_timeout_ms n) (n_election_timeout_ms n) (n_last_heartbeat_ms n)
    (n_cluster_secret n) (n_max_message_age_ms n) (n_max_future_skew_ms n) (n_next_index n)
    (n_match_index n) (n_replay_cache n) (n_storage n) (n_state_machine n)
    (n_last_snapshot_index n) (n_last_snapshot_term n) (n_snapshot_interval n)
    (n_vote_rate_limiter n) (n_pending_config_changes n) (n_last_config_change_at n)
    (n_min_config_change_interval_ms n) v (n_snapshot_chunk_buffers n) (n_recent_departed_peers
    n) (n_forged_reply_rejects n) (n_forged_snapshot_rejects n) (n_current_leader_hint n)
    (n_accept_legacy_reply_hmac_tags n) (n_legacy_reply_hmac_accepts n) (n_apply_halted n).
Definition set_recent_departed_peers (v : gmap string Z) (n : RaftNode) : RaftNode :=
  mkNode (n_id n) (n_state n) (n_current_term n) (n_voted_for n) (n_log n) (n_peers n)
    (n_base_election_timeout_ms n) (n_election_timeout_ms n) (n_last_heartbeat_ms n)
    (n_cluster_secret n) (n_max_message_age_ms n) (n_max_future_skew_ms n) (n_next_index n)
    (n_match_index n) (n_replay_cache n) (n_storage n) (n_state_machine n)
    (n_last_snapshot_index n) (n_last_snapshot_term n) (n_snapshot_interval n)
    (n_vote_rate_limiter n) (n_pending_config_changes n) (n_last_config_change_at n)
    (n_min_config_change_interval_ms n) (n_last_heartbeat_monotonic_ms n)
    (n_snapshot_chunk_buffers n) v (n_forged_reply_rejects n) (n_forged_snapshot_rejects n)
    (n_current_leader_hint n) (n_accept_legacy_reply_hmac_tags n) (n_legacy_reply_hmac_accepts
    n) (n_apply_halted n).
Definition set_snapshot_chunk_buffers (v : gmap string SnapshotChunkBuffer) (n : RaftNode) : RaftNode :=
  mkNode (n_id n) (n_state n) (n_current_term n) (n_voted_for n) (n_log n) (n_peers n)
    (n_base_election_timeout_ms n) (n_election_timeout_ms n) (n_last_heartbeat_ms n)
    (n_cluster_secret n) (n_max_message_age_ms n) (n_max_future_skew_ms n) (n_next_index n)
    (n_match_index n) (n_replay_cache n) (n_storage n) (n_state_machine n)
    (n_last_snapshot_index n) (n_last_snapshot_term n) (n_snapshot_interval n)
    (n_vote_rate_limiter n) (n_pending_config_changes n) (n_last_config_change_at n)
    (n_min_config_change_interval_ms n) (n_last_heartbeat_monotonic_ms n) v
    (n_recent_departed_peers n) (n_forged_reply_rejects n) (n_forged_snapshot_rejects n)
    (n_current_leader_hint n) (n_accept_legacy_reply_hmac_tags n) (n_legacy_reply_hmac_accepts
    n) (n_apply_halted n).
Definition set_forged_reply_rejects (v : Z) (n : RaftNode) : RaftNode :=
  mkNode (n_id n) (n_state n) (n_current_term n) (n_voted_for n) (n_log n) (n_peers n)
    (n_base_election_timeout_ms n) (n_election_timeout_ms n) (n_last_heartbeat_ms n)
    (n_cluster_secret n) (n_max_message_age_ms n) (n_max_future_skew_ms n) (n_next_index n)
    (n_match_index n) (n_replay_cache n) (n_storage n) (n_state_machine n)
    (n_last_snapshot_index n) (n_last_snapshot_term n) (n_snapshot_interval n)
    (n_vote_rate_limiter n) (n_pending_config_changes n) (n_last_config_change_at n)
    (n_min_config_change_interval_ms n) (n_last_heartbeat_monotonic_ms n)
    (n_snapshot_chunk_buffers n) (n_recent_departed_peers n) v (n_forged_snapshot_rejects n)
    (n_current_leader_hint n) (n_accept_legacy_reply_hmac_tags n) (n_legacy_reply_hmac_accepts
    n) (n_apply_halted n).
Definition set_forged_snapshot_rejects (v : Z) (n : RaftNode) : RaftNode :=
  mkNode (n_id n) (n_state n) (n_current_term n) (n_voted_for n) (n_log n) (n_peers n)
    (n_base_election_timeout_ms n) (n_election_timeout_ms n) (n_last_heartbeat_ms n)
    (n_cluster_secret n) (n_max_message_age_ms n) (n_max_future_skew_ms n) (n_next_index n)
    (n_match_index n) (n_replay_cache n) (n_storage n) (n_state_machine n)
    (n_last_snapshot_index n) (n_last_snapshot_term n) (n_snapshot_interval n)
    (n_vote_rate_limiter n) (n_pending_config_changes n) (n_last_config_change_at n)
    (n_min_config_change_interval_ms n) (n_last_heartbeat_monotonic_ms n)
    (n_snapshot_chunk_buffers n) (n_recent_departed_peers n) (n_forged_reply_rejects n) v
    (n_current_leader_hint n) (n_accept_legacy_reply_hmac_tags n) (n_legacy_reply_hmac_accepts
    n) (n_apply_halted n).
Definition set_current_leader_hint (v : option string) (n : RaftNode) : RaftNode :=
  mkNode (n_id n) (n_state n) (n_current_term n) (n_voted_for n) (n_log n) (n_peers n)
    (n_base_election_timeout_ms n) (n_election_timeout_ms n) (n_last_heartbeat_ms n)
    (n_cluster_secret n) (n_max_message_age_ms n) (n_max_future_skew_ms n) (n_next_index n)
    (n_match_index n) (n_replay_cache n) (n_storage n) (n_state_machine n)
    (n_last_snapshot_index n) (n_last_snapshot_term n) (n_snapshot_interval n)
    (n_vote_rate_limiter n) (n_pending_config_changes n) (n_last_config_change_at n)
    (n_min_config_change_interval_ms n) (n_last_heartbeat_monotonic_ms n)
    (n_snapshot_chunk_buffers n) (n_recent_departed_peers n) (n_forged_reply_rejects n)
    (n_forged_snapshot_rejects n) v (n_accept_legacy_reply_hmac_tags n)
    (n_legacy_reply_hmac_accepts n) (n_apply_halted n).
Definition set_legacy_reply_hmac_accepts (v : Z) (n : RaftNode) : RaftNode :=
  mkNode (n_id n) (n_state n) (n_current_term n) (n_voted_for n) (n_log n) (n_peers n)
    (n_base_election_timeout_ms n) (n_election_timeout_ms n) (n_last_heartbeat_ms n)
    (n_cluster_secret n) (n_max_message_age_ms n) (n_max_future_skew_ms n) (n_next_index n)
    (n_match_index n) (n_replay_cache n) (n_storage n) (n_state_machine n)
    (n_last_snapshot_index n) (n_last_snapshot_term n) (n_snapshot_interval n)
    (n_vote_rate_limiter n) (n_pending_config_changes n) (n_last_config_change_at n)
    (n_min_config_change_interval_ms n) (n_last_heartbeat_monotonic_ms n)
    (n_snapshot_chunk_buffers n) (n_recent_departed_peers n) (n_forged_reply_rejects n)
    (n_forged_snapshot_rejects n) (n_current_leader_hint n) (n_accept_legacy_reply_hmac_tags n)
    v (n_apply_halted n).
Definition set_apply_halted (v : bool) (n : RaftNode) : RaftNode :=
  mkNode (n_id n) (n_state n) (n_current_term n) (n_voted_for n) (n_log n) (n_peers n)
    (n_base_election_timeout_ms n) (n_election_timeout_ms n) (n_last_heartbeat_ms n)
    (n_cluster_secret n) (n_max_message_age_ms n) (n_max_future_skew_ms n) (n_next_index n)
    (n_match_index n) (n_replay_cache n) (n_storage n) (n_state_machine n)
    (n_last_snapshot_index n) (n_last_snapshot_term n) (n_snapshot_interval n)
    (n_vote_rate_limiter n) (n_pending_config_changes n) (n_last_config_change_at n)
    (n_min_config_change_interval_ms n) (n_last_heartbeat_monotonic_ms n)
    (n_snapshot_chunk_buffers n) (n_recent_departed_peers n) (n_forged_reply_rejects n)
    (n_forged_snapshot_rejects n) (n_current_leader_hint n) (n_accept_legacy_reply_hmac_tags n)
    (n_legacy_reply_hmac_accepts n) v.

(** [RaftNode::with_vote_rate_limiter_config]; [jitter] is the random draw. *)
Definition with_vote_rate_limiter_config (id : string) (peers : list string)
    (base_election_timeout_ms jitter : Z) (rl_cfg : Z * Z) : RaftNode :=
  mkNode id Follower 0 None RaftLog_new peers base_election_timeout_ms
    (base_election_timeout_ms + jitter) 0 None 30000 MAX_FUTURE_SKEW_MS ∅ ∅ ReplayCache_new
    None None 0 0 0 (VoteRateLimiter_new rl_cfg.1 rl_cfg.2) ∅ ∅ 500 0 ∅ ∅ 0 0 None true 0
    false.

Definition RaftNode_new (id : string) (peers : list string) (base_election_timeout_ms jitter : Z)
    : RaftNode :=
  with_vote_rate_limiter_config id peers base_election_timeout_ms jitter
    (adaptive_for_cluster_size (len peers + 1)).

Inductive RaftError : Set :=
| TermOverflow
| StaleSnapshotTermAtCommitted (last_included_index snapshot_term local_term : Z).

(** ** Persistence

    The result of the call is only logged. *)

Definition persist_hard_state (n : RaftNode) : RaftNode :=
  match n_storage n with
  | Some s => set_storage (Some (sto_save_hard_state (mkHard (n_current_term n) (n_voted_for n)) s).2) n
  | None => n
  end.
Definition persist_appended (es : list LogEntry) (n : RaftNode) : RaftNode :=
  match n_storage n with
  | Some s => set_storage (Some (sto_append_log es s).2) n
  | None => n
  end.
Definition persist_truncate (after : Z) (n : RaftNode) : RaftNode :=
  match n_storage n with
  | Some s => set_storage (Some (sto_truncate_log_after after s).2) n
  | None => n
  end.

(** ** Roles and elections *)

Definition is_leader (n : RaftNode) : bool := bool_decide (n_state n = Leader).

Definition quorum_size (n : RaftNode) : Z := (len (n_peers n) + 1) / 2 + 1.

Definition try_become_candidate (jitter : Z) (n : RaftNode) : result RaftNode RaftError :=
  match Term_checked_next (n_current_term n) with
  | None => Err TermOverflow
  | Some next =>
      let n := set_current_term next n in
      let n := set_state Candidate n in
      let n := set_voted_for (Some (n_id n)) n in
      let n := set_election_timeout_ms (n_base_election_timeout_ms n + jitter) n in
      Ok (persist_hard_state n)
  end.

Definition become_candidate (jitter : Z) (n : RaftNode) : RaftNode :=
  match try_become_candidate jitter n with Ok n' => n' | Err _ => n end.

Definition pre_vote_majority_reached (peer_replies : list PreVoteReply) (n : RaftNode) : bool :=
  let grants := 1 + len (filter (fun r => Is_true (rvr_vote_granted r)) peer_replies) in
  quorum_size n <=? grants.

Definition try_become_candidate_with_prevote (peer_replies : list PreVoteReply) (jitter : Z)
    (n : RaftNode) : result (bool * RaftNode) RaftError :=
  if negb (pre_vote_majority_reached peer_replies n) then Ok (false, n)
  else match try_become_candidate jitter n with
       | Ok n' => Ok (true, n')
       | Err e => Err e
       end.

Definition become_leader (n : RaftNode) : RaftNode :=
  let n := set_state Leader n in
  let last := last_index (n_log n) in
  let n := set_next_index
    (foldl (fun m p => <[p := u64_succ last]> m) ∅ (n_peers n)) n in
  set_match_index (foldl (fun m p => <[p := 0]> m) ∅ (n_peers n)) n.

Definition become_follower (term : Z) (n : RaftNode) : RaftNode :=
  let prior_term := n_current_term n in
  let n := set_state Follower n in
  let n := set_current_term term n in
  let n := if prior_term <? term
           then set_current_leader_hint None (set_voted_for None n) else n in
  persist_hard_state n.

Definition record_heartbeat (timestamp_ms mono : Z) (n : RaftNode) : RaftNode :=
  set_last_heartbeat_monotonic_ms mono (set_last_heartbeat_ms timestamp_ms n).

Definition leader_lease_is_valid (now : Z) (n : RaftNode) : bool :=
  if negb (is_leader n) then false
  else match checked_sub now (n_last_heartbeat_ms n) with
       | Some elapsed => elapsed <? n_election_timeout_ms n
       | None => false
       end.

Definition leader_lease_is_valid_monotonic (mono : Z) (n : RaftNode) : bool :=
  if negb (is_leader n) then false
  else match checked_sub mono (n_last_heartbeat_monotonic_ms n) with
       | Some elapsed => elapsed <? n_election_timeout_ms n
       | None => false
       end.

(** The up-to-date check of RequestVote and PreVote. *)
Definition log_up_to_date (last_log_index last_log_term : Z) (n : RaftNode) : bool :=
  if last_term (n_log n) <? last_log_term then true
  else if last_log_term =? last_term (n_log n) then last_index (n_log n) <=? last_log_index
  else false.

Definition should_grant_vote (candidate_id : string)
    (candidate_term candidate_last_log_index candidate_last_log_term : Z) (n : RaftNode) : bool :=
  if candidate_term <? n_current_term n then false
  else
    match n_voted_for n with
    | Some voted =>
        if negb (String.eqb voted candidate_id) then false
        else log_up_to_date candidate_last_log_index candidate_last_log_term n
    | None => log_up_to_date candidate_last_log_index candidate_last_log_term n
    end.

(** ** Message authentication *)

Definition MAX_WIRE_FRAME_BYTES : Z := 1024 * 1024.

Definition vote_mac_chunks (domain : byte) (args : RequestVoteArgs) : list (list byte) :=
  let mac := mac_update [] [domain] in
  let mac := mac_update mac (to_be_bytes 8 (rv_term args)) in
  let mac := push_lp_to_mac mac (as_bytes (rv_candidate_id args)) in
  let mac := mac_update mac (to_be_bytes 8 (rv_last_log_index args)) in
  let mac := mac_update mac (to_be_bytes 8 (rv_last_log_term args)) in
  mac_update mac (to_be_bytes 8 (rv_timestamp_ms args)).

Definition append_mac_chunks (args : AppendEntriesArgs) : list (list byte) :=
  let mac := mac_update [] [Byte.x02] in
  let mac := mac_update mac (to_be_bytes 8 (ae_term args)) in
  let mac := push_lp_to_mac mac (as_bytes (ae_leader_id args)) in
  let mac := mac_update mac (to_be_bytes 8 (ae_prev_log_index args)) in
  let mac := mac_update mac (to_be_bytes 8 (ae_prev_log_term args)) in
  let mac := mac_update mac (to_be_bytes 8 (ae_leader_commit args)) in
  let mac := mac_update mac (to_be_bytes 8 (ae_timestamp_ms args)) in
  let mac := mac_update mac (to_be_bytes 4 (len (ae_entries args))) in
  foldl (fun mac e =>
    let mac := mac_update mac (to_be_bytes 8 (le_index e)) in
    let mac := mac_update mac (to_be_bytes 8 (le_term e)) in
    let mac := mac_update mac (to_be_bytes 4 (canonical_byte_len (le_command e))) in
    canonical_into_mac (le_command e) mac) mac (ae_entries args).

Definition append_reply_mac_chunks (domain : list byte) (r : AppendEntriesReply)
    : list (list byte) :=
  let mac := mac_update [] domain in
  let mac := mac_update mac (to_be_bytes 8 (aer_term r)) in
  let mac := mac_update mac [if aer_success r then Byte.x01 else Byte.x00] in
  mac_update mac (to_be_bytes 8 (aer_timestamp_ms r)).

Definition approval_mac_chunks (p : ConfigChangeProposal) (approver_id : string) (timestamp_ms : Z)
    : list (list byte) :=
  let mac := mac_update [] [Byte.x04] in
  let mac := push_lp_to_mac mac (as_bytes (cp_proposal_id p)) in
  let mac := push_lp_to_mac mac (as_bytes (cp_node_id p)) in
  let mac := mac_update mac
    [match cp_action p with
     | AddNode => Byte.x01 | RemoveNode => Byte.x02
     | AddLearner => Byte.x03 | PromoteLearner => Byte.x04 end] in
  let mac := push_lp_to_mac mac (as_bytes approver_id) in
  mac_update mac (to_be_bytes 8 timestamp_ms).

Section Node.
Context (crates : RaftCrates).

Definition compute_request_vote_hmac (secret : list byte) (args : RequestVoteArgs) : list byte :=
  hmac_sha256 crates secret (concat (vote_mac_chunks Byte.x01 args)).
Definition compute_pre_vote_hmac (secret : list byte) (args : PreVoteArgs) : list byte :=
  hmac_sha256 crates secret (concat (vote_mac_chunks Byte.x05 args)).
Definition compute_append_entries_hmac (secret : list byte) (args : AppendEntriesArgs) : list byte :=
  hmac_sha256 crates secret (concat (append_mac_chunks args)).
Definition compute_append_entries_reply_hmac (secret : list byte) (r : AppendEntriesReply)
    : list byte :=
  hmac_sha256 crates secret (concat (append_reply_mac_chunks [Byte.x11] r)).
Definition compute_append_entries_reply_hmac_legacy (secret : list byte) (r : AppendEntriesReply)
    : list byte :=
  hmac_sha256 crates secret (concat (append_reply_mac_chunks [Byte.x06; Byte.x02] r)).
Definition compute_config_change_approval_hmac (secret : list byte) (p : ConfigChangeProposal)
    (approver_id : string) (timestamp_ms : Z) : list byte :=
  hmac_sha256 crates secret (concat (approval_mac_chunks p approver_id timestamp_ms)).

Definition verify_hmac (expected computed : list byte) : bool := bool_decide (expected = computed).

(** Record the MAC; [false] when it is a replay. *)
Definition admit_mac (computed : list byte) (now : Z) (n : RaftNode) : bool * RaftNode :=
  let '(replay, c) := check_and_insert computed now (n_max_message_age_ms n) (n_replay_cache n) in
  (negb replay, set_replay_cache c n).

Definition fresh (now timestamp_ms : Z) (n : RaftNode) : bool :=
  check_message_freshness now timestamp_ms (n_max_message_age_ms n) (n_max_future_skew_ms n).

Definition verify_request_vote (now : Z) (args : RequestVoteArgs) (n : RaftNode) : bool * RaftNode :=
  if MAX_WIRE_FRAME_BYTES <? len (as_bytes (rv_candidate_id args)) then (false, n)
  else match n_cluster_secret n with
  | None => (false, n)
  | Some secret =>
      if negb (fresh now (rv_timestamp_ms args) n) then (false, n)
      else match rv_hmac args with
      | None => (false, n)
      | Some provided =>
          let computed := compute_request_vote_hmac secret args in
          if negb (verify_hmac provided computed) then (false, n)
          else admit_mac computed now n
      end
  end.

Definition verify_pre_vote (now : Z) (args : PreVoteArgs) (n : RaftNode) : bool :=
  match n_cluster_secret n with
  | None => false
  | Some secret =>
      if negb (fresh now (rv_timestamp_ms args) n) then false
      else match rv_hmac args with
      | None => false
      | Some provided => verify_hmac provided (compute_pre_vote_hmac secret args)
      end
  end.

(** The size gate: [false] as soon as the running estimate exceeds the frame. *)
Fixpoint frame_fits (estimated : Z) (es : list LogEntry) : bool :=
  match es with
  | [] => true
  | e :: es =>
      let estimated := saturating_add estimated (len (canonical_bytes (le_command e))) in
      if MAX_WIRE_FRAME_BYTES <? estimated then false else frame_fits estimated es
  end.

Definition verify_append_entries (now : Z) (args : AppendEntriesArgs) (n : RaftNode)
    : bool * RaftNode :=
  if negb (frame_fits (len (as_bytes (ae_leader_id args))) (ae_entries args)) then (false, n)
  else match n_cluster_secret n with
  | None => (false, n)
  | Some secret =>
      if negb (fresh now (ae_timestamp_ms args) n) then (false, n)
      else match ae_hmac args with
      | None => (false, n)
      | Some provided =>
          let computed := compute_append_entries_hmac secret args in
          if negb (verify_hmac provided computed) then (false, n)
          else admit_mac computed now n
      end
  end.

Definition verify_append_entries_reply (now : Z) (r : AppendEntriesReply) (n : RaftNode)
    : bool * RaftNode :=
  match n_cluster_secret n with
  | None => (false, n)
  | Some secret =>
      if negb (fresh now (aer_timestamp_ms r) n) then (false, n)
      else match aer_hmac r with
      | None => (false, n)
      | Some provided =>
          if verify_hmac provided (compute_append_entries_reply_hmac secret r) then (true, n)
          else if n_accept_legacy_reply_hmac_tags n
                  && verify_hmac provided (compute_append_entries_reply_hmac_legacy secret r)
          then (true, set_legacy_reply_hmac_accepts (u64_succ (n_legacy_reply_hmac_accepts n)) n)
          else (false, n)
      end
  end.

(** ** Votes *)

Definition handle_request_vote (now : Z) (args : RequestVoteArgs) (n : RaftNode)
    : RequestVoteReply * RaftNode :=
  let '(verified, n) := verify_request_vote now args n in
  if negb verified then (mkVoteReply (n_current_term n) false 0 None, n)
  else
    let n := if n_current_term n <? rv_term args then become_follower (rv_term args) n else n in
    let grant := should_grant_vote (rv_candidate_id args) (rv_term args)
                   (rv_last_log_index args) (rv_last_log_term args) n in
    let n := if grant
             then persist_hard_state (set_voted_for (Some (rv_candidate_id args)) n) else n in
    (mkVoteReply (n_current_term n) grant 0 None, n).

Definition handle_request_vote_rpc (now : Z) (args : RequestVoteArgs) (n : RaftNode)
    : option RequestVoteReply * RaftNode :=
  let '(ok, rl) := try_consume (rv_candidate_id args) now (n_vote_rate_limiter n) in
  let n := set_vote_rate_limiter rl n in
  if negb ok then (None, n)
  else let '(reply, n) := handle_request_vote now args n in (Some reply, n).

Definition handle_pre_vote (now : Z) (args : PreVoteArgs) (n : RaftNode) : PreVoteReply :=
  if negb (verify_pre_vote now args n) then mkVoteReply 0 false 0 None
  else if rv_term args <? n_current_term n then mkVoteReply (n_current_term n) false 0 None
  else
    let heard_leader_recently :=
      match checked_add (n_last_heartbeat_ms n) (n_election_timeout_ms n) with
      | Some deadline => now <? deadline
      | None => false
      end in
    if heard_leader_recently then mkVoteReply (n_current_term n) false 0 None
    else mkVoteReply (n_current_term n)
           (log_up_to_date (rv_last_log_index args) (rv_last_log_term args) n) 0 None.

Definition prepare_pre_vote (now : Z) (n : RaftNode) : option PreVoteArgs :=
  match n_cluster_secret n with
  | None => None
  | Some secret =>
      match Term_checked_next (n_current_term n) with
      | None => None
      | Some prospective_term =>
          let args := mkVoteArgs prospective_term (n_id n) (last_index (n_log n))
                        (last_term (n_log n)) now None in
          Some (mkVoteArgs prospective_term (n_id n) (last_index (n_log n))
                  (last_term (n_log n)) now (Some (compute_pre_vote_hmac secret args)))
      end
  end.

(** ** Applying committed entries *)

Definition is_config_change (c : RaftCommand) : bool :=
  match c with ConfigChange _ _ => true | _ => false end.

Record ApplyState : Type := mkApply {
  as_log : RaftLog;
  as_sm : SM.Inner;
  as_saw_config_change : bool;
  as_halted : bool;
}.

(** The [while] loop; every iteration that does not leave it applies one entry,
    so [committed - applied] iterations are enough. *)
Fixpoint apply_loop (fuel : nat) (a : ApplyState) : ApplyState :=
  match fuel with
  | O => a
  | S fuel =>
      if committed (as_log a) <=? applied (as_log a) then a
      else
        let next := applied (as_log a) + 1 in
        match log_get next (as_log a) with
        | None => a
        | Some entry =>
            let cc := is_config_change (le_command entry) in
            if cc && as_saw_config_change a then a
            else
              let saw := as_saw_config_change a || cc in
              match SM.apply entry (as_sm a) with
              | (Ok _, sm) => apply_loop fuel (mkApply (log_apply next (as_log a)) sm saw (as_halted a))
              | (Err _, sm) => mkApply (as_log a) sm saw true
              end
        end
  end.

Definition apply_fuel (l : RaftLog) : nat := Z.to_nat (committed l - applied l).

Definition sync_peers_from_voters (voters : list string) (mono : Z) (n : RaftNode) : RaftNode :=
  let new_peers := filter (fun v => v <> n_id n) voters in
  let keep {A} (m : gmap string A) := filter (fun '(k, _) => k ∈ new_peers) m in
  let n := set_next_index (keep (n_next_index n)) n in
  let n := set_match_index (keep (n_match_index n)) n in
  let n := set_last_config_change_at (keep (n_last_config_change_at n)) n in
  let n :=
    if is_leader n then
      let next := u64_succ (last_index (n_log n)) in
      let or_insert (v : Z) (m : gmap string Z) (p : string) :=
        match m !! p with Some _ => m | None => <[p := v]> m end in
      let n := set_next_index (foldl (or_insert next) (n_next_index n) new_peers) n in
      set_match_index (foldl (or_insert 0) (n_match_index n) new_peers) n
    else n in
  let departed := foldl (fun m p => if bool_decide (p ∈ new_peers) then m else <[p := mono]> m)
                    (n_recent_departed_peers n) (n_peers n) in
  let departed := filter (fun '(_, ts) => saturating_sub mono ts < n_election_timeout_ms n) departed in
  let n := set_recent_departed_peers departed n in
  let allowed : gset string := list_to_set new_peers ∪ {[n_id n]} ∪ dom departed in
  let n := set_vote_rate_limiter (set_allowed_peers (Some allowed) (n_vote_rate_limiter n)) n in
  set_peers new_peers n.

Definition apply_committed (mono : Z) (n : RaftNode) : RaftNode :=
  match n_state_machine n with
  | None => n
  | Some sm =>
      let a := apply_loop (apply_fuel (n_log n)) (mkApply (n_log n) sm false (n_apply_halted n)) in
      let n := set_apply_halted (as_halted a)
                 (set_state_machine (Some (as_sm a)) (set_log (as_log a) n)) in
      if as_saw_config_change a then sync_peers_from_voters (SM.voters (as_sm a)) mono n else n
  end.

Definition maybe_snapshot (n : RaftNode) : RaftNode :=
  if n_snapshot_interval n =? 0 then n
  else
    let app := applied (n_log n) in
    if app <? (n_last_snapshot_index n + n_snapshot_interval n) mod 2 ^ 64 then n
    else match n_state_machine n with
    | None => n
    | Some sm =>
        match snapshot_to_vec crates (SM.snapshot sm) with
        | None => n
        | Some data =>
            let term := match log_get app (n_log n) with
                        | Some e => le_term e | None => n_last_snapshot_term n end in
            let '(saved, n) :=
              match n_storage n with
              | Some st =>
                  let '(ok, st) := sto_save_snapshot (mkPersisted app term (SM.voters sm) data) st in
                  if negb ok then (false, set_storage (Some st) n)
                  else (true, set_storage (Some (sto_truncate_log_after app st).2) n)
              | None => (true, n)
              end in
            if negb saved then n
            else
              let n := set_log (discard_through app (n_log n)) n in
              set_last_snapshot_term term (set_last_snapshot_index app n)
        end
    end.

(** ** AppendEntries *)

(** [windows(2)]: indices increase by one. *)
Fixpoint monotonic (es : list LogEntry) : bool :=
  match es with
  | e :: ((e' :: _) as r) => if le_index e' =? u64_succ (le_index e) then monotonic r else false
  | _ => true
  end.

(** The prev-log check: [Some n'] is the early return with [success: false]. *)
Definition prev_log_check (args : AppendEntriesArgs) (n : RaftNode) : option RaftNode :=
  let prev := ae_prev_log_index args in
  if 0 <? prev then
    if prev <? n_last_snapshot_index n then Some n
    else if prev =? n_last_snapshot_index n then
      if negb (ae_prev_log_term args =? n_last_snapshot_term n) then Some n else None
    else match log_get prev (n_log n) with
    | None => Some n
    | Some entry =>
        if negb (le_term entry =? ae_prev_log_term args) then
          match truncate_after (prev - 1) (n_log n) with
          | Err _ => Some n
          | Ok l => Some (persist_truncate (prev - 1) (set_log l n))
          end
        else None
    end
  else None.

(** The loop over the entries.  [Err n'] is the early return; [Ok (n', new)] carries
    the entries to persist. *)
Fixpoint append_loop (es : list LogEntry) (newly_appended : list LogEntry) (n : RaftNode)
    : result (RaftNode * list LogEntry) RaftNode :=
  match es with
  | [] => Ok (n, newly_appended)
  | e :: es =>
      match log_get (le_index e) (n_log n) with
      | Some existing =>
          if negb (le_term existing =? le_term e) then
            match truncate_after (le_index e - 1) (n_log n) with
            | Err _ => Err n
            | Ok l =>
                let n := persist_truncate (le_index e - 1) (set_log l n) in
                append_loop es (newly_appended ++ [e]) (set_log (append e (n_log n)) n)
            end
          else append_loop es newly_appended n
      | None => append_loop es (newly_appended ++ [e]) (set_log (append e (n_log n)) n)
      end
  end.

Definition last_new_index (args : AppendEntriesArgs) : Z :=
  match last (ae_entries args) with Some e => le_index e | None => ae_prev_log_index args end.

(** Everything after the entries were accepted: persist, commit, apply, compact. *)
Definition finish_append (args : AppendEntriesArgs) (mono : Z) (newly_appended : list LogEntry)
    (n : RaftNode) : RaftNode :=
  let n := if bool_decide (newly_appended = []) then n else persist_appended newly_appended n in
  let n :=
    if committed (n_log n) <? ae_leader_commit args
    then set_log (commit (Z.min (ae_leader_commit args) (last_new_index args)) (n_log n)) n
    else n in
  maybe_snapshot (apply_committed mono n).

Definition handle_append_entries (now mono : Z) (args : AppendEntriesArgs) (n : RaftNode)
    : AppendEntriesReply * RaftNode :=
  let failure n := (mkAppendReply (n_current_term n) false 0 None, n) in
  let '(verified, n) := verify_append_entries now args n in
  if negb verified then failure n
  else if ae_term args <? n_current_term n then failure n
  else
    let n := if (n_current_term n <? ae_term args) || negb (bool_decide (n_state n = Follower))
             then become_follower (ae_term args) n else n in
    let n := set_current_leader_hint (Some (ae_leader_id args)) n in
    let n := record_heartbeat now mono n in
    match prev_log_check args n with
    | Some n => failure n
    | None =>
        if negb (monotonic (ae_entries args)) then failure n
        else match append_loop (ae_entries args) [] n with
        | Err n => failure n
        | Ok (n, newly_appended) =>
            let n := finish_append args mono newly_appended n in
            (mkAppendReply (n_current_term n) true 0 None, n)
        end
    end.

(** ** Leader side *)

Definition advance_commit_index (n : RaftNode) : RaftNode :=
  let current_commit := committed (n_log n) in
  let match_indices :=
    map (fun p => default 0 (n_match_index n !! p)) (n_peers n) ++ [last_index (n_log n)] in
  let match_indices := merge_sort Z.le match_indices in
  let majority_idx := (length match_indices / 2)%nat in
  let new_commit := default 0 (match_indices !! majority_idx) in
  if current_commit <? new_commit then
    match log_get new_commit (n_log n) with
    | Some entry =>
        if le_term entry =? n_current_term n then set_log (commit new_commit (n_log n)) n else n
    | None =>
        if (new_commit <=? n_last_snapshot_index n) && (n_last_snapshot_term n =? n_current_term n)
        then set_log (commit new_commit (n_log n)) n else n
    end
  else n.

Definition submit_command (mono : Z) (command : RaftCommand) (n : RaftNode)
    : option Z * RaftNode :=
  if negb (is_leader n) then (None, n)
  else
    let index := u64_succ (last_index (n_log n)) in
    let entry := mkEntry (n_current_term n) index command in
    let n := set_log (append entry (n_log n)) n in
    let n := persist_appended [entry] n in
    let n := if bool_decide (n_peers n = []) then apply_committed mono (advance_commit_index n)
             else n in
    (Some index, n).

(** [backoff] is the random step, 1 or 2, used when the index exceeds 4. *)
Definition handle_append_entries_reply (now mono backoff : Z) (peer_id : string)
    (reply : AppendEntriesReply) (entries_sent : Z) (n : RaftNode) : RaftNode :=
  let '(verified, n) := verify_append_entries_reply now reply n in
  if negb verified then set_forged_reply_rejects (u64_succ (n_forged_reply_rejects n)) n
  else if n_current_term n <? aer_term reply then become_follower (aer_term reply) n
  else if aer_success reply then
    let n :=
      match n_next_index n !! peer_id with
      | Some ni =>
          let new_match := saturating_add (saturating_sub ni 1) entries_sent in
          set_match_index (<[peer_id := new_match]> (n_match_index n))
            (set_next_index (<[peer_id := saturating_add new_match 1]> (n_next_index n)) n)
      | None => n
      end in
    maybe_snapshot (apply_committed mono (advance_commit_index n))
  else
    match n_next_index n !! peer_id with
    | Some ni =>
        if 1 <? ni then
          let step := if 4 <? ni then backoff else 1 in
          set_next_index (<[peer_id := Z.max (saturating_sub ni step) 1]> (n_next_index n)) n
        else n
    | None => n
    end.

(** ** Membership proposals *)

(** The scan for an uncommitted membership change in the log. *)
Definition uncommitted_config_change (n : RaftNode) : bool :=
  let c := committed (n_log n) in
  existsb (fun i => match log_get (c + 1 + Z.of_nat i) (n_log n) with
                    | Some e => is_config_change (le_command e) | None => false end)
    (seq 0 (Z.to_nat (last_index (n_log n) - c))).

Definition propose_config_change (now : Z) (proposal_id node_id : string)
    (action : MembershipAction) (n : RaftNode) : option ConfigChangeProposal * RaftNode :=
  if negb (is_leader n) then (None, n)
  else if negb (bool_decide (is_Some (n_cluster_secret n))) then (None, n)
  else if negb (bool_decide (n_pending_config_changes n = ∅)) then (None, n)
  else if uncommitted_config_change n then (None, n)
  else
    let proposal := mkProposal proposal_id node_id action now in
    (Some proposal,
     set_pending_config_changes
       (<[proposal_id := mkPending proposal {[n_id n]}]> (n_pending_config_changes n)) n).

Definition record_config_change_approval (now : Z) (a : ConfigChangeApproval) (n : RaftNode)
    : bool * RaftNode :=
  match n_cluster_secret n, n_pending_config_changes n !! ca_proposal_id a with
  | Some secret, Some pending =>
      if negb (fresh now (ca_timestamp_ms a) n) then (false, n)
      else
        let is_voter :=
          match n_state_machine n with
          | Some sm => bool_decide (ca_approver_id a ∈ SM.voters sm)
          | None => String.eqb (ca_approver_id a) (n_id n)
                    || bool_decide (ca_approver_id a ∈ n_peers n)
          end in
        if negb is_voter then (false, n)
        else
          let expected := compute_config_change_approval_hmac secret (pc_proposal pending)
                            (ca_approver_id a) (ca_timestamp_ms a) in
          if negb (verify_hmac (ca_hmac a) expected) then (false, n)
          else
            (true, set_pending_config_changes
               (<[ca_proposal_id a :=
                    mkPending (pc_proposal pending) ({[ca_approver_id a]} ∪ pc_approvers pending)]>
                  (n_pending_config_changes n)) n)
  | _, _ => (false, n)
  end.

Definition commit_config_change_proposal (mono : Z) (proposal_id : string) (n : RaftNode)
    : option Z * RaftNode :=
  if negb (is_leader n) then (None, n)
  else match n_pending_config_changes n !! proposal_id with
  | None => (None, n)
  | Some pending =>
      if Z.of_nat (size (pc_approvers pending)) <? quorum_size n then (None, n)
      else
        let cmd := ConfigChange (cp_node_id (pc_proposal pending)) (cp_action (pc_proposal pending)) in
        match submit_command mono cmd n with
        | (None, n) => (None, n)
        | (Some idx, n) =>
            (Some idx,
             set_pending_config_changes (delete proposal_id (n_pending_config_changes n)) n)
        end
  end.

(** ** Restart *)

(** A restart: the contents are loaded; [st] is then attached, with the calls to come. *)
Definition attach_storage (attached : AttachedStorage) (mono : Z) (n : RaftNode) : RaftNode :=
  let st := sto_contents attached in
  let n := set_voted_for (hs_voted_for (st_hard st)) (set_current_term (hs_current_term (st_hard st)) n) in
  let n := set_log (foldl (fun l e => append e l) (n_log n) (st_log st)) n in
  let n :=
    match st_snapshot st with
    | None => n
    | Some snap =>
        let n := set_last_snapshot_term (ps_last_term snap)
                   (set_last_snapshot_index (ps_last_index snap) n) in
        let n := set_log (discard_through (ps_last_index snap) (n_log n)) n in
        let n :=
          match n_state_machine n, snapshot_from_slice crates (ps_data snap) with
          | Some sm, Some s => set_state_machine (Some (SM.restore_from_snapshot s sm)) n
          | _, _ => n
          end in
        if bool_decide (ps_voters snap = []) then n
        else sync_peers_from_voters (ps_voters snap) mono n
    end in
  set_storage (Some attached) n.

End Node.
