(* ===== verification/RaftReplicate.v ===== *)
(** * Messages a leader sends and replies a node signs ([craton-hsm-cluster/src/raft.rs])

    The construction of AppendEntries messages, for one peer and for all peers in
    one round over a shared log suffix, and the signing and verification of
    replies.  The shared suffix is an [Arc] slice in the code; sharing is not
    observable, so a prepared message is the wire message it converts to. *)

From coqutil Require Import Byte.
From stdpp Require Import prelude gmap strings list.
From Stdlib Require Import ZArith Lia.
From S2P Require Import Prelude RustStd RaftLog RaftStateMachine RaftGuard RaftNode.
Local Open Scope Z_scope.

(** [PreparedAppendEntries] has the fields of [AppendEntriesArgs]; [into_args]
    copies the shared entries. *)
Definition PreparedAppendEntries : Type := AppendEntriesArgs.
Definition into_args (p : PreparedAppendEntries) : AppendEntriesArgs :=
  mkAppendArgs (ae_term p) (ae_leader_id p) (ae_prev_log_index p) (ae_prev_log_term p)
    (ae_entries p) (ae_leader_commit p) (ae_timestamp_ms p) (ae_hmac p).

Definition has_config_change (es : list LogEntry) : bool :=
  existsb (fun e => is_config_change (le_command e)) es.

(** ** Replies *)

Definition vote_reply_mac_chunks (domain : list byte) (r : RequestVoteReply) : list (list byte) :=
  let mac := mac_update [] domain in
  let mac := mac_update mac (to_be_bytes 8 (rvr_term r)) in
  let mac := mac_update mac [if rvr_vote_granted r then Byte.x01 else Byte.x00] in
  mac_update mac (to_be_bytes 8 (rvr_timestamp_ms r)).

Section Messages.
Context (crates : RaftCrates).

Definition compute_request_vote_reply_hmac (secret : list byte) (r : RequestVoteReply) : list byte :=
  hmac_sha256 crates secret (concat (vote_reply_mac_chunks [Byte.x10] r)).
Definition compute_request_vote_reply_hmac_legacy (secret : list byte) (r : RequestVoteReply)
    : list byte :=
  hmac_sha256 crates secret (concat (vote_reply_mac_chunks [Byte.x06; Byte.x01] r)).
Definition compute_pre_vote_reply_hmac (secret : list byte) (r : PreVoteReply) : list byte :=
  hmac_sha256 crates secret (concat (vote_reply_mac_chunks [Byte.x13] r)).
Definition compute_pre_vote_reply_hmac_legacy (secret : list byte) (r : PreVoteReply) : list byte :=
  hmac_sha256 crates secret (concat (vote_reply_mac_chunks [Byte.x06; Byte.x05] r)).

Definition sign_request_vote_reply (now : Z) (r : RequestVoteReply) (n : RaftNode)
    : RequestVoteReply :=
  match n_cluster_secret n with
  | None => r
  | Some secret =>
      let r := mkVoteReply (rvr_term r) (rvr_vote_granted r) now (rvr_hmac r) in
      mkVoteReply (rvr_term r) (rvr_vote_granted r) (rvr_timestamp_ms r)
        (Some (compute_request_vote_reply_hmac secret r))
  end.

Definition sign_pre_vote_reply (now : Z) (r : PreVoteReply) (n : RaftNode) : PreVoteReply :=
  match n_cluster_secret n with
  | None => r
  | Some secret =>
      let r := mkVoteReply (rvr_term r) (rvr_vote_granted r) now (rvr_hmac r) in
      mkVoteReply (rvr_term r) (rvr_vote_granted r) (rvr_timestamp_ms r)
        (Some (compute_pre_vote_reply_hmac secret r))
  end.

Definition sign_append_entries_reply (now : Z) (r : AppendEntriesReply) (n : RaftNode)
    : AppendEntriesReply :=
  match n_cluster_secret n with
  | None => r
  | Some secret =>
      let r := mkAppendReply (aer_term r) (aer_success r) now (aer_hmac r) in
      mkAppendReply (aer_term r) (aer_success r) (aer_timestamp_ms r)
        (Some (compute_append_entries_reply_hmac crates secret r))
  end.

Definition record_legacy_reply_hmac_accept (n : RaftNode) : RaftNode :=
  set_legacy_reply_hmac_accepts (u64_succ (n_legacy_reply_hmac_accepts n)) n.

Definition verify_request_vote_reply (now : Z) (r : RequestVoteReply) (n : RaftNode)
    : bool * RaftNode :=
  match n_cluster_secret n with
  | None => (false, n)
  | Some secret =>
      if negb (fresh now (rvr_timestamp_ms r) n) then (false, n)
      else match rvr_hmac r with
      | None => (false, n)
      | Some provided =>
          if verify_hmac provided (compute_request_vote_reply_hmac secret r) then (true, n)
          else if n_accept_legacy_reply_hmac_tags n
                  && verify_hmac provided (compute_request_vote_reply_hmac_legacy secret r)
          then (true, record_legacy_reply_hmac_accept n)
          else (false, n)
      end
  end.

Definition verify_pre_vote_reply (now : Z) (r : PreVoteReply) (n : RaftNode) : bool * RaftNode :=
  match n_cluster_secret n with
  | None => (false, n)
  | Some secret =>
      if negb (fresh now (rvr_timestamp_ms r) n) then (false, n)
      else match rvr_hmac r with
      | None => (false, n)
      | Some provided =>
          if verify_hmac provided (compute_pre_vote_reply_hmac secret r) then (true, n)
          else if n_accept_legacy_reply_hmac_tags n
                  && verify_hmac provided (compute_pre_vote_reply_hmac_legacy secret r)
          then (true, record_legacy_reply_hmac_accept n)
          else (false, n)
      end
  end.

(** ** AppendEntries messages *)

(** [now] is the wall clock, [mono] the monotonic one. *)
Definition prepare_append_entries_shared (now mono : Z) (peer_id : string) (base_next_idx : Z)
    (shared : list LogEntry) (round_has_config_change : bool) (n : RaftNode)
    : option PreparedAppendEntries * RaftNode :=
  if negb (is_leader n) then (None, n)
  else match n_next_index n !! peer_id with
  | None => (None, n)
  | Some next_idx =>
      let prev_log_index := saturating_sub next_idx 1 in
      let prev_log_term :=
        if prev_log_index =? 0 then 0
        else if prev_log_index =? n_last_snapshot_index n then n_last_snapshot_term n
        else match log_get prev_log_index (n_log n) with Some e => le_term e | None => 0 end in
      let es :=
        if base_next_idx <=? next_idx then
          let offset := next_idx - base_next_idx in
          if offset =? 0 then shared
          else if len shared <=? offset then []
          else drop (Z.to_nat offset) shared
        else entries_slice_from next_idx (n_log n) in
      let cc := round_has_config_change && has_config_change es in
      let gated := cc && (0 <? n_min_config_change_interval_ms n) in
      let deferred :=
        match n_last_config_change_at n !! peer_id with
        | Some last => saturating_sub mono last <? n_min_config_change_interval_ms n
        | None => false
        end in
      if gated && deferred then (None, n)
      else
        let n := if gated
                 then set_last_config_change_at (<[peer_id := mono]> (n_last_config_change_at n)) n
                 else n in
        let unsigned := mkAppendArgs (n_current_term n) (n_id n) prev_log_index prev_log_term es
                          (committed (n_log n)) now None in
        let hmac := match n_cluster_secret n with
                    | Some secret => Some (compute_append_entries_hmac crates secret unsigned)
                    | None => None
                    end in
        (Some (mkAppendArgs (n_current_term n) (n_id n) prev_log_index prev_log_term es
                 (committed (n_log n)) now hmac), n)
  end.

Definition prepare_append_entries (now mono : Z) (peer_id : string) (n : RaftNode)
    : option AppendEntriesArgs * RaftNode :=
  if negb (is_leader n) then (None, n)
  else match n_next_index n !! peer_id with
  | None => (None, n)
  | Some next_idx =>
      let shared := entries_slice_from next_idx (n_log n) in
      let '(prepared, n) :=
        prepare_append_entries_shared now mono peer_id next_idx shared (has_config_change shared) n in
      (option_map into_args prepared, n)
  end.

Definition min_step (next_index : gmap string Z) (m : option Z) (p : string) : option Z :=
  match next_index !! p with
  | Some i => Some (match m with None => i | Some cur => Z.min cur i end)
  | None => m
  end.
Definition min_next_index (peers : list string) (next_index : gmap string Z) : option Z :=
  foldl (min_step next_index) None peers.

(** The loop over the peers; [clock p] is the pair of clock readings taken while
    the message for [p] is built. *)
Fixpoint prepare_loop (clock : string -> Z * Z) (base : Z) (shared : list LogEntry) (cc : bool)
    (peers : list string) (n : RaftNode) : list (string * PreparedAppendEntries) * RaftNode :=
  match peers with
  | [] => ([], n)
  | p :: peers =>
      let '(prepared, n) :=
        prepare_append_entries_shared (clock p).1 (clock p).2 p base shared cc n in
      let '(messages, n) := prepare_loop clock base shared cc peers n in
      (match prepared with Some m => (p, m) :: messages | None => messages end, n)
  end.

Definition replicate_to_all_prepared (clock : string -> Z * Z) (n : RaftNode)
    : list (string * PreparedAppendEntries) * RaftNode :=
  if negb (is_leader n) then ([], n)
  else
    let peer_list := n_peers n in
    let base_next_idx := default (saturating_add (last_index (n_log n)) 1)
                           (min_next_index peer_list (n_next_index n)) in
    let shared := entries_slice_from base_next_idx (n_log n) in
    prepare_loop clock base_next_idx shared (has_config_change shared) peer_list n.

Definition replicate_to_all (clock : string -> Z * Z) (n : RaftNode)
    : list (string * AppendEntriesArgs) * RaftNode :=
  let '(messages, n) := replicate_to_all_prepared clock n in
  (map (fun '(p, m) => (p, into_args m)) messages, n).

End Messages.
