(* ===== verification/RaftSnapshot.v ===== *)
(** * Snapshot transfer ([craton-hsm-cluster/src/raft.rs])

    Construction, authentication and installation of snapshots, with the
    reassembly of chunked transfers.  The handler returns the reply and the node;
    replies are unsigned until the transport signs them. *)

From coqutil Require Import Byte.
From stdpp Require Import prelude gmap strings list.
From Stdlib Require Import ZArith Lia.
From S2P Require Import Prelude RustStd RaftLog RaftStateMachine RaftGuard RaftNode RaftReplicate.
Local Open Scope Z_scope.

Definition MAX_INSTALL_SNAPSHOT_BYTES : Z := 64 * 1024 * 1024.

Record InstallSnapshotArgs : Type := mkInstallArgs {
  is_term : Z;
  is_leader_id : string;
  is_last_included_index : Z;
  is_last_included_term : Z;
  is_data : list byte;
  is_timestamp_ms : Z;
  is_hmac : option (list byte);
  is_offset : Z;
  is_total_size : Z;
  is_last_chunk : bool;
}.

Record InstallSnapshotReply : Type := mkInstallReply {
  isr_term : Z;
  isr_timestamp_ms : Z;
  isr_hmac : option (list byte);
}.

Definition install_mac_chunks (args : InstallSnapshotArgs) : list (list byte) :=
  let mac := mac_update [] [Byte.x03] in
  let mac := mac_update mac (to_be_bytes 8 (is_term args)) in
  let mac := push_lp_to_mac mac (as_bytes (is_leader_id args)) in
  let mac := mac_update mac (to_be_bytes 8 (is_last_included_index args)) in
  let mac := mac_update mac (to_be_bytes 8 (is_last_included_term args)) in
  let mac := mac_update mac (to_be_bytes 8 (is_timestamp_ms args)) in
  push_lp_to_mac mac (is_data args).

Definition install_reply_mac_chunks (domain : list byte) (r : InstallSnapshotReply)
    : list (list byte) :=
  let mac := mac_update [] domain in
  let mac := mac_update mac (to_be_bytes 8 (isr_term r)) in
  mac_update mac (to_be_bytes 8 (isr_timestamp_ms r)).

Definition count_forged_snapshot (n : RaftNode) : RaftNode :=
  set_forged_snapshot_rejects (u64_succ (n_forged_snapshot_rejects n)) n.

Section Install.
Context (crates : RaftCrates).

Definition compute_install_snapshot_hmac (secret : list byte) (args : InstallSnapshotArgs)
    : list byte :=
  hmac_sha256 crates secret (concat (install_mac_chunks args)).
Definition compute_install_snapshot_reply_hmac (secret : list byte) (r : InstallSnapshotReply)
    : list byte :=
  hmac_sha256 crates secret (concat (install_reply_mac_chunks [Byte.x12] r)).
Definition compute_install_snapshot_reply_hmac_legacy (secret : list byte)
    (r : InstallSnapshotReply) : list byte :=
  hmac_sha256 crates secret (concat (install_reply_mac_chunks [Byte.x06; Byte.x03] r)).

Definition sign_install_snapshot_reply (now : Z) (r : InstallSnapshotReply) (n : RaftNode)
    : InstallSnapshotReply :=
  match n_cluster_secret n with
  | None => r
  | Some secret =>
      let r := mkInstallReply (isr_term r) now (isr_hmac r) in
      mkInstallReply (isr_term r) (isr_timestamp_ms r)
        (Some (compute_install_snapshot_reply_hmac secret r))
  end.

Definition verify_install_snapshot_reply (now : Z) (r : InstallSnapshotReply) (n : RaftNode)
    : bool * RaftNode :=
  match n_cluster_secret n with
  | None => (false, n)
  | Some secret =>
      if negb (fresh now (isr_timestamp_ms r) n) then (false, n)
      else match isr_hmac r with
      | None => (false, n)
      | Some provided =>
          if verify_hmac provided (compute_install_snapshot_reply_hmac secret r) then (true, n)
          else if n_accept_legacy_reply_hmac_tags n
                  && verify_hmac provided (compute_install_snapshot_reply_hmac_legacy secret r)
          then (true, record_legacy_reply_hmac_accept n)
          else (false, n)
      end
  end.

Definition verify_install_snapshot (now : Z) (args : InstallSnapshotArgs) (n : RaftNode)
    : bool * RaftNode :=
  if MAX_INSTALL_SNAPSHOT_BYTES <? len (is_data args) then (false, n)
  else if MAX_INSTALL_SNAPSHOT_BYTES <? is_total_size args then (false, n)
  else match n_cluster_secret n with
  | None => (false, n)
  | Some secret =>
      if negb (fresh now (is_timestamp_ms args) n) then (false, n)
      else match is_hmac args with
      | None => (false, n)
      | Some provided =>
          let computed := compute_install_snapshot_hmac secret args in
          if negb (verify_hmac provided computed) then (false, n)
          else admit_mac computed now n
      end
  end.

Definition prepare_install_snapshot (now : Z) (n : RaftNode) : option InstallSnapshotArgs :=
  match n_state_machine n with
  | None => None
  | Some sm =>
      let snap := SM.snapshot sm in
      match snapshot_to_vec crates snap with
      | None => None
      | Some data =>
          let last_included_index := Z.max (n_last_snapshot_index n) (SM.snap_last_applied snap) in
          let last_included_term :=
            if last_included_index =? n_last_snapshot_index n then n_last_snapshot_term n
            else match log_get last_included_index (n_log n) with
                 | Some e => le_term e | None => n_last_snapshot_term n end in
          let args := mkInstallArgs (n_current_term n) (n_id n) last_included_index
                        last_included_term data now None 0 (len data) true in
          Some (match n_cluster_secret n with
                | Some secret =>
                    mkInstallArgs (n_current_term n) (n_id n) last_included_index
                      last_included_term data now
                      (Some (compute_install_snapshot_hmac secret args)) 0 (len data) true
                | None => args
                end)
      end
  end.

(** The guard of committed state: [Some n'] is an early return.  At the snapshot
    boundary, equal terms fall through to the fail-closed return. *)
Definition committed_guard (args : InstallSnapshotArgs) (n : RaftNode) : option RaftNode :=
  if is_last_included_index args <? committed (n_log n) then
    if is_last_included_index args =? n_last_snapshot_index n then
      if negb (is_last_included_term args =? n_last_snapshot_term n)
      then Some (count_forged_snapshot n)
      else Some (count_forged_snapshot n)
    else match log_get (is_last_included_index args) (n_log n) with
    | Some local =>
        if negb (le_term local =? is_last_included_term args)
        then Some (count_forged_snapshot n)
        else Some n
    | None => Some (count_forged_snapshot n)
    end
  else None.

(** The reassembly of chunks: [Ok (data, n')] when the whole snapshot is there,
    [Err n'] when the handler returns without installing. *)
Definition reassemble (args : InstallSnapshotArgs) (n : RaftNode)
    : result (list byte * RaftNode) RaftNode :=
  if (is_offset args =? 0) && is_last_chunk args then Ok (is_data args, n)
  else
    let key := is_leader_id args in
    let buf := match n_snapshot_chunk_buffers n !! key with
               | Some buf => buf
               | None => mkChunkBuffer [] (is_total_size args) (is_last_included_index args)
                           (is_last_included_term args)
               end in
    let n := set_snapshot_chunk_buffers (<[key := buf]> (n_snapshot_chunk_buffers n)) n in
    let drop_buffer n := set_snapshot_chunk_buffers (delete key (n_snapshot_chunk_buffers n)) n in
    if negb (cb_last_included_index buf =? is_last_included_index args)
       || negb (cb_last_included_term buf =? is_last_included_term args)
       || (negb (is_total_size args =? 0) && negb (cb_total_size buf =? 0)
           && negb (cb_total_size buf =? is_total_size args))
    then Err (drop_buffer (count_forged_snapshot n))
    else if MAX_INSTALL_SNAPSHOT_BYTES <? saturating_add (len (cb_data buf)) (len (is_data args))
    then Err (drop_buffer (count_forged_snapshot n))
    else
      let data := cb_data buf ++ is_data args in
      let n := set_snapshot_chunk_buffers
                 (<[key := mkChunkBuffer data (cb_total_size buf) (cb_last_included_index buf)
                             (cb_last_included_term buf)]> (n_snapshot_chunk_buffers n)) n in
      if negb (is_last_chunk args) then Err n else Ok (data, drop_buffer n).

(** [Err n'] is the early return after a failed save. *)
Definition persist_snapshot (snap : PersistedSnapshot) (n : RaftNode) : result RaftNode RaftNode :=
  match n_storage n with
  | Some st =>
      let '(ok, st) := sto_save_snapshot snap st in
      if ok then Ok (set_storage (Some st) n) else Err (set_storage (Some st) n)
  | None => Ok n
  end.
Definition restore_machine (snap : SM.StateMachineSnapshot) (n : RaftNode) : RaftNode :=
  match n_state_machine n with
  | Some sm => set_state_machine (Some (SM.restore_from_snapshot snap sm)) n
  | None => n
  end.
Definition compact_at (index term : Z) (n : RaftNode) : RaftNode :=
  set_last_snapshot_term term (set_last_snapshot_index index
    (set_log (discard_through index (n_log n)) n)).

(** Persist, parse, restore, compact, re-derive the peers, truncate the store. *)
Definition install (mono : Z) (args : InstallSnapshotArgs) (full_data : list byte) (n : RaftNode)
    : RaftNode :=
  let parsed := snapshot_from_slice crates full_data in
  let preview_voters := match parsed with Some s => SM.snap_voters s | None => [] end in
  match persist_snapshot (mkPersisted (is_last_included_index args) (is_last_included_term args)
          preview_voters full_data) n with
  | Err n => n
  | Ok n =>
      match parsed with
      | None => count_forged_snapshot n
      | Some snap =>
          let n := restore_machine snap n in
          let n := compact_at (is_last_included_index args) (is_last_included_term args) n in
          let n := sync_peers_from_voters (SM.snap_voters snap) mono n in
          persist_truncate (is_last_included_index args) n
      end
  end.

Definition handle_install_snapshot (now mono : Z) (args : InstallSnapshotArgs) (n : RaftNode)
    : InstallSnapshotReply * RaftNode :=
  let reply n := (mkInstallReply (n_current_term n) 0 None, n) in
  let '(verified, n) := verify_install_snapshot now args n in
  if negb verified then (mkInstallReply 0 0 None, count_forged_snapshot n)
  else if is_term args <? n_current_term n then reply (count_forged_snapshot n)
  else
    let n := if n_current_term n <? is_term args then become_follower (is_term args) n else n in
    let foreign := match n_current_leader_hint n with
                   | Some known => negb (String.eqb known (is_leader_id args))
                   | None => false
                   end in
    if foreign then reply (count_forged_snapshot n)
    else match committed_guard args n with
    | Some n => reply n
    | None =>
        match reassemble args n with
        | Err n => reply n
        | Ok (full_data, n) => reply (install mono args full_data n)
        end
    end.

End Install.
