(* ===== verification/RaftVoteProofs.v ===== *)
(** * Elections: a node votes once per term, also across restarts

    [node_step] is one call of a public operation of a node, or a crash followed by
    a restart from storage.  The hard state (term and vote) changes only as Raft
    allows and, as long as no save of it fails, is on disk whenever a step ends, so
    that no two candidates can collect a quorum of votes in one term.  The code only
    logs a failed save: [lost_vote_is_cast_again] in [RaftGaps] shows what follows. *)

From coqutil Require Import Byte.
From stdpp Require Import prelude gmap strings list sorting relations.
From Stdlib Require Import ZArith Lia.
From S2P Require Import Prelude RustStd RaftLog RaftStateMachine RaftGuard RaftNode.
From S2P Require Import RaftReplicate RaftSnapshot.
Local Open Scope Z_scope.

(** ** Parts of the node that an operation leaves alone *)

(** The hard state on disk and how the coming saves of it end. *)
Definition hard_view (s : AttachedStorage) : HardState * list SaveOutcome :=
  (st_hard (sto_contents s), sto_hard_io s).

Lemma append_log_view es s : hard_view (sto_append_log es s).2 = hard_view s.
Proof. unfold sto_append_log, sto_update_log. by destruct (next_outcome _) as [[|] ?]. Qed.
Lemma truncate_log_view a s : hard_view (sto_truncate_log_after a s).2 = hard_view s.
Proof. unfold sto_truncate_log_after, sto_update_log. by destruct (next_outcome _) as [[|] ?]. Qed.
Lemma save_snapshot_view p s : hard_view (sto_save_snapshot p s).2 = hard_view s.
Proof. unfold sto_save_snapshot. by destruct (next_outcome _) as [[|] ?]. Qed.

(** Identity, term, vote and the persisted hard state. *)
Definition same_vote (n n' : RaftNode) : Prop :=
  n_id n' = n_id n /\ n_current_term n' = n_current_term n /\ n_voted_for n' = n_voted_for n
  /\ (hard_view <$> n_storage n') = (hard_view <$> n_storage n).

#[global] Instance same_vote_preorder : PreOrder same_vote.
Proof. split; [done|]. intros a b c (? & ? & ? & ?) (? & ? & ? & ?). split_and!; congruence. Qed.

Section Frames.
Context (crates : RaftCrates).

Lemma same_vote_persist_appended es n : same_vote n (persist_appended es n).
Proof.
  unfold persist_appended. destruct (n_storage n) eqn:E; [|done]. repeat split; cbn. rewrite E. cbn. f_equal. apply append_log_view.
Qed.
Lemma same_vote_persist_truncate a n : same_vote n (persist_truncate a n).
Proof.
  unfold persist_truncate. destruct (n_storage n) eqn:E; [|done]. repeat split; cbn. rewrite E. cbn. f_equal. apply truncate_log_view.
Qed.
Lemma same_vote_set_log l n : same_vote n (set_log l n).
Proof. done. Qed.

Lemma same_vote_sync voters mono n : same_vote n (sync_peers_from_voters voters mono n).
Proof. unfold sync_peers_from_voters. cbv zeta. destruct (is_leader _); done. Qed.

Lemma same_vote_apply mono n : same_vote n (apply_committed mono n).
Proof.
  unfold apply_committed. destruct (n_state_machine n); [|done]. cbv zeta.
  destruct (as_saw_config_change _); [|done]. etransitivity; [|apply same_vote_sync]. done.
Qed.

Lemma same_vote_snapshot n : same_vote n (maybe_snapshot crates n).
Proof.
  unfold maybe_snapshot. case_if; [done|]. case_if; [done|]. destruct (n_state_machine n) as [sm|]; [|done].
  destruct (snapshot_to_vec crates _) as [data|]; [|done]. destruct (n_storage n) as [st|] eqn:Est; [|done].
  cbv zeta. match goal with |- context [sto_save_snapshot ?p st] => pose proof (save_snapshot_view p st) as Hs;
    destruct (sto_save_snapshot p st) as [[] st1] end; repeat split; cbn in *; rewrite Est; cbn; [|by rewrite Hs].
  by rewrite truncate_log_view, Hs.
Qed.

Lemma same_vote_advance n : same_vote n (advance_commit_index n).
Proof. unfold advance_commit_index. repeat case_match; done. Qed.

Lemma same_vote_submit mono c n : same_vote n (submit_command mono c n).2.
Proof.
  unfold submit_command. case_match; [done|]. cbn [snd].
  assert (same_vote n (persist_appended [mkEntry (n_current_term n) (u64_succ (last_index (n_log n))) c]
    (set_log (append (mkEntry (n_current_term n) (u64_succ (last_index (n_log n))) c) (n_log n)) n))) as H0.
  { etransitivity; [|apply same_vote_persist_appended]. done. }
  cbv zeta. case_match; [|done].
  etransitivity; [exact H0|]. etransitivity; [apply same_vote_advance|apply same_vote_apply].
Qed.

Lemma same_vote_append_loop es acc n :
  match append_loop es acc n with
  | Ok (n', _) => same_vote n n'
  | Err n' => same_vote n n'
  end.
Proof.
  revert acc n. induction es as [|e es IH]; intros acc n; [done|]. cbn [append_loop].
  destruct (log_get _ _) as [ex|].
  - case_if; [|apply IH]. destruct (truncate_after _ _) as [l|]; [|done]. cbv zeta.
    set (n1 := persist_truncate _ _).
    assert (same_vote n n1) as H1 by (etransitivity; [|apply same_vote_persist_truncate]; done).
    specialize (IH (acc ++ [e]) (set_log (append e (n_log n1)) n1)).
    destruct (append_loop es _ _) as [[n' ?]|n']; (etransitivity; [exact H1|exact IH]).
  - specialize (IH (acc ++ [e]) (set_log (append e (n_log n)) n)).
    by destruct (append_loop es _ _) as [[n' ?]|n'].
Qed.

Lemma same_vote_finish args mono new n : same_vote n (finish_append crates args mono new n).
Proof.
  unfold finish_append. cbv zeta. etransitivity; [|apply same_vote_snapshot].
  etransitivity; [|apply same_vote_apply].
  assert (same_vote n (if bool_decide (new = []) then n else persist_appended new n)) as H0
    by (case_match; [done|apply same_vote_persist_appended]).
  etransitivity; [exact H0|]. destruct (committed _ <? _); done.
Qed.

Lemma same_vote_prev_log args n n' : prev_log_check args n = Some n' -> same_vote n n'.
Proof.
  unfold prev_log_check. repeat case_match; intros; simplify_eq; try done.
  etransitivity; [|apply same_vote_persist_truncate]. done.
Qed.

(** Verification touches the replay cache or the legacy counter only. *)
Lemma verify_vote_same now args n : same_vote n (verify_request_vote crates now args n).2.
Proof. unfold verify_request_vote, admit_mac. repeat case_match; simplify_eq; done. Qed.
Lemma verify_append_same now args n : same_vote n (verify_append_entries crates now args n).2.
Proof. unfold verify_append_entries, admit_mac. repeat case_match; simplify_eq; done. Qed.
Lemma verify_reply_same now r n : same_vote n (verify_append_entries_reply crates now r n).2.
Proof. unfold verify_append_entries_reply. repeat case_match; simplify_eq; done. Qed.

Lemma verify_install_same now args n : same_vote n (verify_install_snapshot crates now args n).2.
Proof. unfold verify_install_snapshot, admit_mac. repeat case_match; simplify_eq; done. Qed.

Lemma same_vote_guard args n n' : committed_guard args n = Some n' -> same_vote n n'.
Proof. unfold committed_guard. repeat case_match; intros; simplify_eq; done. Qed.

Lemma same_vote_reassemble args n :
  match reassemble args n with Ok (_, m) => same_vote n m | Err m => same_vote n m end.
Proof. unfold reassemble. cbv zeta. by repeat case_if. Qed.

Lemma same_vote_persist_snapshot p n :
  match persist_snapshot p n with Ok m => same_vote n m | Err m => same_vote n m end.
Proof.
  unfold persist_snapshot. destruct (n_storage n) as [st|] eqn:E; [|done].
  pose proof (save_snapshot_view p st) as Hs. destruct (sto_save_snapshot p st) as [[] st1];
    repeat split; cbn; rewrite E; cbn; f_equal; exact Hs.
Qed.

Lemma same_vote_install mono args data n : same_vote n (install crates mono args data n).
Proof.
  unfold install. cbv zeta. match goal with |- context [persist_snapshot ?p n] =>
    pose proof (same_vote_persist_snapshot p n) as H1; destruct (persist_snapshot p n) as [n1|n1]; [|done] end.
  destruct (snapshot_from_slice crates data) as [snap|]; [|done].
  transitivity n1; [done|]. transitivity (restore_machine snap n1).
  { unfold restore_machine. by destruct (n_state_machine n1). }
  generalize (restore_machine snap n1). intros n2.
  transitivity (compact_at (is_last_included_index args) (is_last_included_term args) n2); [done|].
  generalize (compact_at (is_last_included_index args) (is_last_included_term args) n2). intros n3.
  transitivity (sync_peers_from_voters (SM.snap_voters snap) mono n3); [apply same_vote_sync|].
  apply same_vote_persist_truncate.
Qed.

Lemma same_vote_prepare now mono p base shared cc n :
  same_vote n (prepare_append_entries_shared crates now mono p base shared cc n).2.
Proof.
  unfold prepare_append_entries_shared. destruct (is_leader n); [|done]. cbn [negb].
  destruct (n_next_index n !! p); [|done]. cbv zeta.
  match goal with |- context [if ?g && ?d then _ else _] => destruct g, d end; done.
Qed.

Lemma same_vote_replicate clock n : same_vote n (replicate_to_all crates clock n).2.
Proof.
  unfold replicate_to_all, replicate_to_all_prepared. destruct (is_leader n); [|done]. cbn [negb].
  assert (forall base shared cc peers m,
    same_vote m (prepare_loop crates clock base shared cc peers m).2) as H.
  { induction peers as [|p peers IH]; intros m; [done|]. cbn [prepare_loop].
    pose proof (same_vote_prepare (clock p).1 (clock p).2 p base shared cc m) as Hp.
    destruct (prepare_append_entries_shared _ _ _ p base shared cc m) as [x m1]. specialize (IH m1).
    destruct (prepare_loop _ _ base shared cc peers m1) as [y m2]. by transitivity m1. }
  cbv zeta. match goal with |- context [prepare_loop crates clock ?b ?s ?c ?p n] =>
    specialize (H b s c p n); destruct (prepare_loop crates clock b s c p n) end. exact H.
Qed.

End Frames.

(** ** How the hard state moves *)

(** The term never decreases, and within a term a vote is never changed. *)
Definition vote_progress (n n' : RaftNode) : Prop :=
  n_id n' = n_id n /\ n_current_term n <= n_current_term n'
  /\ (n_current_term n' = n_current_term n ->
      n_voted_for n' = n_voted_for n \/ n_voted_for n = None).

(** The hard state on disk is the one in memory. *)
Definition persisted (n : RaftNode) : Prop :=
  forall st, n_storage n = Some st -> st_hard (sto_contents st) = mkHard (n_current_term n) (n_voted_for n).

(** No save of the hard state fails from here on; saves of the log and of snapshots may. *)
Definition hard_saves_succeed (n : RaftNode) : Prop :=
  forall st, n_storage n = Some st -> Forall (eq Saved) (sto_hard_io st).

Definition durable (n : RaftNode) : Prop := persisted n /\ hard_saves_succeed n.

Lemma same_vote_progress n n' : same_vote n n' -> vote_progress n n'.
Proof. intros (Hi & Ht & Hv & _). unfold vote_progress. rewrite Ht. split_and!; [done|lia|by left]. Qed.

Lemma same_vote_durable n n' : same_vote n n' -> durable n -> durable n'.
Proof.
  intros (_ & Et & Ev & Es) [Hp Hh]. split; intros st Hst; rewrite Hst in Es; cbn in Es;
    destruct (n_storage n) as [st0|] eqn:E; try done; apply (inj Some) in Es; injection Es as E1 E2.
  - rewrite E1, Et, Ev. by apply Hp.
  - rewrite E2. by apply Hh.
Qed.

Lemma persist_hard_durable n : hard_saves_succeed n -> durable (persist_hard_state n).
Proof.
  intros Hh. unfold persist_hard_state. destruct (n_storage n) as [s|] eqn:E; [|split; intros st; congruence].
  specialize (Hh s E). unfold sto_save_hard_state.
  destruct (sto_hard_io s) as [|o io]; [by split; intros st [= <-]|].
  apply Forall_cons in Hh as [<- Hio]. by split; intros st [= <-].
Qed.

Lemma persist_hard_vote n :
  n_id (persist_hard_state n) = n_id n /\ n_current_term (persist_hard_state n) = n_current_term n
  /\ n_voted_for (persist_hard_state n) = n_voted_for n.
Proof. unfold persist_hard_state. by destruct (n_storage n). Qed.

#[global] Instance vote_progress_preorder : PreOrder vote_progress.
Proof.
  split.
  - intros n. split_and!; [done|lia|by left].
  - intros a b c (I1 & T1 & V1) (I2 & T2 & V2). split_and!; [congruence|lia|]. intros E.
    assert (n_current_term b = n_current_term a) as Eb by lia.
    destruct (V1 Eb) as [E1|]; [|by right]. destruct V2 as [E2|E2]; [lia|left; congruence|].
    right. congruence.
Qed.

Lemma become_follower_vote term n :
  n_current_term n <= term ->
  vote_progress n (become_follower term n) /\ (durable n -> durable (become_follower term n))
  /\ n_current_term (become_follower term n) = term.
Proof.
  intros Ht. unfold become_follower. cbv zeta.
  set (m := if _ <? _ then _ else _).
  destruct (persist_hard_vote m) as (Ei & Et & Ev).
  split; [|split; [intros [_ Hh]; apply persist_hard_durable; unfold m; by case_if|rewrite Et; unfold m; by case_if]].
  assert (n_id m = n_id n /\ n_current_term m = term) as [Him Htm] by (unfold m; by case_if).
  split_and!; [congruence|lia|]. intros E. rewrite Et, Htm in E. rewrite Ev. left.
  unfold m. rewrite (proj2 (Z.ltb_ge (n_current_term n) term)) by lia. done.
Qed.

Section Steps.
Context (crates : RaftCrates).

(** A granted vote is for the voter's own term, and is remembered. *)
Lemma request_vote_effect now args n :
  let '(reply, n') := handle_request_vote crates now args n in
  vote_progress n n' /\ (durable n -> durable n')
  /\ (rvr_vote_granted reply = true ->
      n_current_term n' = rv_term args /\ n_voted_for n' = Some (rv_candidate_id args)).
Proof.
  unfold handle_request_vote.
  pose proof (verify_vote_same crates now args n) as Hv.
  destruct (verify_request_vote crates now args n) as [verified n1]. cbn [snd] in Hv.
  pose proof (same_vote_progress _ _ Hv) as Hp1. destruct verified; cbn [negb].
  2: { split; [done|]. split; [by apply same_vote_durable|]. done. }
  set (n2 := if _ <? _ then _ else _).
  assert (vote_progress n1 n2 /\ (durable n1 -> durable n2)
    /\ rv_term args <= n_current_term n2) as (Hp2 & Hs2 & Ht2).
  { unfold n2. case_if; bool_to_prop.
    - destruct (become_follower_vote (rv_term args) n1) as (? & ? & ->); [lia|]. done.
    - split; [reflexivity|]. done. }
  destruct (should_grant_vote _ _ _ _ n2) eqn:Eg.
  - destruct (persist_hard_vote (set_voted_for (Some (rv_candidate_id args)) n2)) as (Ei & Et & Ev).
    assert (n_current_term n2 = rv_term args) as Etm.
    { unfold should_grant_vote in Eg. case_if; [done|]. bool_to_prop. lia. }
    split_and!.
    + etransitivity; [exact Hp1|]. etransitivity; [exact Hp2|].
      split_and!; [by rewrite Ei|rewrite Et; cbn; lia|]. intros _. rewrite Ev. cbn.
      unfold should_grant_vote in Eg. case_if; [done|].
      destruct (n_voted_for n2) as [v|]; [|by right]. case_if; [done|]. bool_to_prop.
      apply String.eqb_eq in E0 as ->. by left.
    + intros Hd. apply persist_hard_durable. apply Hs2. by eapply same_vote_durable.
    + intros _. cbn [rvr_vote_granted]. rewrite Et, Ev. done.
  - split_and!; [by etransitivity| |done].
    intros Hper. apply Hs2. by eapply same_vote_durable.
Qed.

Lemma candidate_effect jitter n n' :
  try_become_candidate jitter n = Ok n' ->
  vote_progress n n' /\ (durable n -> durable n') /\ n_current_term n' = n_current_term n + 1
  /\ n_voted_for n' = Some (n_id n').
Proof.
  unfold try_become_candidate, Term_checked_next, checked_add.
  case_if; [|done]. cbv zeta. set (m := set_election_timeout_ms _ _).
  destruct (persist_hard_vote m) as (Ei & Et & Ev). intros [= <-].
  split_and!; [|intros [_ Hh]; by apply persist_hard_durable|by rewrite Et|by rewrite Ev, Ei].
  split_and!; [by rewrite Ei|rewrite Et; cbn; lia|]. rewrite Et. cbn. lia.
Qed.

Lemma append_entries_effect now mono args n :
  let n' := (handle_append_entries crates now mono args n).2 in
  vote_progress n n' /\ (durable n -> durable n').
Proof.
  unfold handle_append_entries.
  pose proof (verify_append_same crates now args n) as Hv.
  destruct (verify_append_entries crates now args n) as [verified n1]. cbn [snd] in Hv.
  assert (forall m, same_vote n1 m -> vote_progress n m /\ (durable n -> durable m)) as Hsame.
  { intros m Hm. assert (same_vote n m) by (by etransitivity).
    split; [by apply same_vote_progress|by apply same_vote_durable]. }
  destruct verified; cbn [negb]; [|by apply Hsame]. cbv zeta.
  case_if; [by apply Hsame|]. bool_to_prop.
  set (n2 := if _ || _ then _ else _).
  assert (vote_progress n n2 /\ (durable n -> durable n2)) as [Hp2 Hs2].
  { unfold n2. case_if; [|by apply Hsame].
    destruct (become_follower_vote (ae_term args) n1) as (H1 & H2 & _); [lia|].
    split; [|intros Hd; apply H2; by eapply same_vote_durable].
    etransitivity; [by apply same_vote_progress|done]. }
  set (n3 := record_heartbeat now mono (set_current_leader_hint (Some (ae_leader_id args)) n2)).
  assert (forall m, same_vote n3 m -> vote_progress n m /\ (durable n -> durable m)) as Hs3.
  { intros m Hm. assert (same_vote n2 m) by (etransitivity; [|exact Hm]; done). split.
    - etransitivity; [exact Hp2|by apply same_vote_progress].
    - intros Hper. eapply same_vote_durable; [done|auto]. }
  destruct (prev_log_check args n3) as [m|] eqn:E3; [apply Hs3; by eapply same_vote_prev_log|].
  case_if; [by apply Hs3|].
  pose proof (same_vote_append_loop (ae_entries args) [] n3) as Hl.
  destruct (append_loop (ae_entries args) [] n3) as [[m new]|m]; [|by apply Hs3].
  apply Hs3. etransitivity; [exact Hl|apply same_vote_finish].
Qed.

Lemma reply_effect now mono backoff peer reply sent n :
  let n' := handle_append_entries_reply crates now mono backoff peer reply sent n in
  vote_progress n n' /\ (durable n -> durable n').
Proof.
  cbv zeta. unfold handle_append_entries_reply.
  pose proof (verify_reply_same crates now reply n) as Hv.
  destruct (verify_append_entries_reply crates now reply n) as [verified n1]. cbn [snd] in Hv.
  assert (forall m, same_vote n1 m -> vote_progress n m /\ (durable n -> durable m)) as Hsame.
  { intros m Hm. assert (same_vote n m) by (by etransitivity).
    split; [by apply same_vote_progress|by apply same_vote_durable]. }
  destruct verified; cbn [negb]; [|by apply Hsame]. case_if; bool_to_prop.
  { destruct (become_follower_vote (aer_term reply) n1) as (H1 & H2 & _); [lia|].
    split; [|intros Hd; apply H2; by eapply same_vote_durable].
    etransitivity; [by apply same_vote_progress|done]. }
  apply Hsame. case_if.
  - etransitivity; [|apply same_vote_snapshot]. etransitivity; [|apply same_vote_apply].
    etransitivity; [|apply same_vote_advance]. by case_match.
  - repeat case_match; done.
Qed.

Lemma install_effect now mono args n :
  let n' := (handle_install_snapshot crates now mono args n).2 in
  vote_progress n n' /\ (durable n -> durable n').
Proof.
  cbv zeta. unfold handle_install_snapshot.
  pose proof (verify_install_same crates now args n) as Hv.
  destruct (verify_install_snapshot crates now args n) as [verified n1]. cbn [snd] in Hv.
  assert (forall m, same_vote n1 m -> vote_progress n m /\ (durable n -> durable m)) as Hsame.
  { intros m Hm. assert (same_vote n m) by (by etransitivity).
    split; [by apply same_vote_progress|by apply same_vote_durable]. }
  destruct verified; cbn [negb]; [|by apply Hsame]. case_if; [by apply Hsame|]. bool_to_prop.
  set (n2 := if n_current_term n1 <? is_term args then _ else _).
  assert (vote_progress n n2 /\ (durable n -> durable n2)) as [Hp2 Hs2].
  { unfold n2. case_if; [|by apply Hsame].
    destruct (become_follower_vote (is_term args) n1) as (H1 & H2 & _); [lia|].
    split; [|intros Hd; apply H2; by eapply same_vote_durable].
    etransitivity; [by apply same_vote_progress|done]. }
  assert (forall m, same_vote n2 m -> vote_progress n m /\ (durable n -> durable m)) as Hs3.
  { intros m Hm. split; [etransitivity; [exact Hp2|by apply same_vote_progress]|].
    intros Hper. eapply same_vote_durable; [done|auto]. }
  clearbody n2. case_if; [by apply Hs3|].
  destruct (committed_guard args n2) as [m|] eqn:Eg; [by apply Hs3, (same_vote_guard args)|].
  pose proof (same_vote_reassemble args n2) as Hr.
  destruct (reassemble args n2) as [[data n3]|m]; apply Hs3; [|done].
  transitivity n3; [done|apply same_vote_install].
Qed.

End Steps.

(** ** Runs of a node, with the votes it cast *)

Section Runs.
Context (crates : RaftCrates).

(** One operation; the label is the vote (term and candidate) it cast, if any.  A restart
    attaches the storage to whatever node the process has configured under the same name. *)
Inductive node_step : RaftNode -> option (Z * string) -> RaftNode -> Prop :=
| step_vote now args n reply n' :
    handle_request_vote crates now args n = (reply, n') ->
    node_step n (if rvr_vote_granted reply then Some (rv_term args, rv_candidate_id args) else None) n'
| step_vote_rpc now args n reply n' :
    handle_request_vote_rpc crates now args n = (Some reply, n') ->
    node_step n (if rvr_vote_granted reply then Some (rv_term args, rv_candidate_id args) else None) n'
| step_vote_limited now args n n' :
    handle_request_vote_rpc crates now args n = (None, n') -> node_step n None n'
| step_candidate jitter n n' :
    try_become_candidate jitter n = Ok n' -> node_step n (Some (n_current_term n', n_id n')) n'
| step_candidate_prevote replies jitter n b n' :
    try_become_candidate_with_prevote replies jitter n = Ok (b, n') ->
    node_step n (if b then Some (n_current_term n', n_id n') else None) n'
| step_leader n : node_step n None (become_leader n)
| step_append now mono args n : node_step n None (handle_append_entries crates now mono args n).2
| step_reply now mono backoff peer reply sent n :
    node_step n None (handle_append_entries_reply crates now mono backoff peer reply sent n)
| step_submit mono c n : node_step n None (submit_command mono c n).2
| step_propose now p i a n : node_step n None (propose_config_change now p i a n).2
| step_approve now a n : node_step n None (record_config_change_approval crates now a n).2
| step_commit_config mono p n : node_step n None (commit_config_change_proposal mono p n).2
| step_heartbeat t mono n : node_step n None (record_heartbeat t mono n)
| step_replicate clock n : node_step n None (replicate_to_all crates clock n).2
| step_install now mono args n : node_step n None (handle_install_snapshot crates now mono args n).2
| step_restart st configured mono n :
    n_storage n = Some st -> n_id configured = n_id n ->
    node_step n None (attach_storage crates st mono configured).

Inductive vote_run (n0 : RaftNode) : list (Z * string) -> RaftNode -> Prop :=
| run_start : vote_run n0 [] n0
| run_step gs n v n' : vote_run n0 gs n -> node_step n v n' -> vote_run n0 (option_list v ++ gs) n'.

Lemma attach_storage_vote st mono n :
  n_id (attach_storage crates st mono n) = n_id n
  /\ n_current_term (attach_storage crates st mono n) = hs_current_term (st_hard (sto_contents st))
  /\ n_voted_for (attach_storage crates st mono n) = hs_voted_for (st_hard (sto_contents st))
  /\ n_storage (attach_storage crates st mono n) = Some st.
Proof.
  unfold attach_storage. cbv zeta.
  destruct (st_snapshot (sto_contents st)) as [snap|]; [|done].
  match goal with |- context [if bool_decide _ then ?x else _] => set (m := x) end.
  assert (n_id m = n_id n /\ n_current_term m = hs_current_term (st_hard (sto_contents st))
    /\ n_voted_for m = hs_voted_for (st_hard (sto_contents st))) as (H1 & H2 & H3).
  { unfold m. repeat case_match; done. }
  case_match; [done|]. destruct (same_vote_sync (ps_voters snap) mono m) as (E1 & E2 & E3 & _).
  revert E1 E2 E3. generalize (sync_peers_from_voters (ps_voters snap) mono m) as k.
  intros k E1 E2 E3. cbn. split_and!; congruence.
Qed.

Lemma prevote_candidate replies jitter n b n' :
  try_become_candidate_with_prevote replies jitter n = Ok (b, n') ->
  if b then try_become_candidate jitter n = Ok n' else n' = n.
Proof.
  unfold try_become_candidate_with_prevote. case_if; [by intros [= <- <-]|].
  destruct (try_become_candidate jitter n); [by intros [= <- <-]|done].
Qed.

Lemma node_step_effect n v n' :
  node_step n v n' ->
  (durable n -> vote_progress n n' /\ durable n')
  /\ (forall t c, v = Some (t, c) -> n_current_term n' = t /\ n_voted_for n' = Some c).
Proof.
  assert (forall m, same_vote n m ->
    (durable n -> vote_progress n m /\ durable m)
    /\ (forall t c, None = Some (t, c) -> n_current_term m = t /\ n_voted_for m = Some c)) as Hsame.
  { intros m Hm. split; [|done]. intros Hp.
    split; [by apply same_vote_progress|by eapply same_vote_durable]. }
  intros Hs. destruct Hs as
    [now args n reply n' E|now args n reply n' E|now args n n' E|jitter n n' E
    |replies jitter n b n' E| | | | | | | | | | |st configured mono n Hst Hid].
  - pose proof (request_vote_effect crates now args n) as He. rewrite E in He.
    destruct He as (? & ? & Hg). split; [tauto|]. intros t c. destruct (rvr_vote_granted reply); [|done].
    intros [= <- <-]. by apply Hg.
  - unfold handle_request_vote_rpc in E. destruct (try_consume _ _ _) as [ok rl].
    destruct ok; cbn [negb] in E; [|done].
    pose proof (request_vote_effect crates now args (set_vote_rate_limiter rl n)) as He.
    destruct (handle_request_vote crates now args (set_vote_rate_limiter rl n)) as [r m]. simplify_eq.
    destruct He as (H1 & H2 & Hg). split; [intros Hp; split; [exact H1|by apply H2]|].
    intros t c. destruct (rvr_vote_granted reply); [|done]. intros [= <- <-]. by apply Hg.
  - unfold handle_request_vote_rpc in E. destruct (try_consume _ _ _) as [ok rl].
    destruct ok; cbn [negb] in E; [by destruct (handle_request_vote _ _ _ _)|]. simplify_eq.
    by apply Hsame.
  - destruct (candidate_effect _ _ _ E) as (? & ? & ? & Hv). split; [tauto|].
    intros t c [= <- <-]. done.
  - apply prevote_candidate in E. destruct b; [|subst; by apply Hsame].
    destruct (candidate_effect _ _ _ E) as (? & ? & ? & Hv). split; [tauto|].
    intros t c [= <- <-]. done.
  - by apply Hsame.
  - pose proof (append_entries_effect crates now mono args n) as [? ?]. split; [tauto|done].
  - pose proof (reply_effect crates now mono backoff peer reply sent n) as [? ?]. split; [tauto|done].
  - apply Hsame, same_vote_submit.
  - apply Hsame. unfold propose_config_change. by repeat case_match.
  - apply Hsame. unfold record_config_change_approval. by repeat case_match.
  - apply Hsame. unfold commit_config_change_proposal. case_match; [done|].
    case_match; [|done]. case_match; [done|].
    pose proof (same_vote_submit mono (ConfigChange (cp_node_id (pc_proposal p0))
      (cp_action (pc_proposal p0))) n) as Hsub.
    destruct (submit_command _ _ _) as [[i|] m]; exact Hsub.
  - by apply Hsame.
  - apply Hsame, same_vote_replicate.
  - pose proof (install_effect crates now mono args n) as [? ?]. split; [tauto|done].
  - split; [|done]. intros [Hp Hh]. specialize (Hp st Hst). specialize (Hh st Hst).
    pose proof (attach_storage_vote st mono configured) as Hat.
    revert Hat. generalize (attach_storage crates st mono configured) as k.
    intros k (Ei & Et & Ev & Es). rewrite Hp in Et, Ev. cbn in Ei, Et, Ev. split.
    + split_and!; [congruence|lia|by left].
    + split; intros st' E; rewrite Es in E; simplify_eq; [by rewrite Et, Ev|done].
Qed.

(** What a run knows about the votes cast so far. *)
Definition votes_ok (gs : list (Z * string)) (n : RaftNode) : Prop :=
  (forall t c, (t, c) ∈ gs -> t <= n_current_term n
     /\ (t = n_current_term n -> n_voted_for n = Some c))
  /\ (forall t c1 c2, (t, c1) ∈ gs -> (t, c2) ∈ gs -> c1 = c2).

Lemma votes_ok_step gs n v n' :
  durable n -> votes_ok gs n -> node_step n v n' -> votes_ok (option_list v ++ gs) n'.
Proof.
  intros Hp [Hv Hf] Hs. destruct (node_step_effect _ _ _ Hs) as [He Hl].
  destruct (He Hp) as [(Hid & Ht & Hvote) _].
  assert (forall t c, (t, c) ∈ gs -> t <= n_current_term n'
    /\ (t = n_current_term n' -> n_voted_for n' = Some c)) as Hold.
  { intros t c Hin. destruct (Hv t c Hin) as [Hle Heq]. split; [lia|]. intros ->.
    assert (n_current_term n' = n_current_term n) as E by lia.
    rewrite <- Heq by lia. destruct (Hvote E) as [|Hn]; [done|]. rewrite Heq in Hn by lia. done. }
  destruct v as [[t c]|]; [|by split]. cbn [option_list app].
  destruct (Hl t c eq_refl) as [Et Ev]. split.
  - intros t1 c1 [E|Hin]%elem_of_cons; [simplify_eq; split; [lia|done]|by apply Hold].
  - assert (forall c1, (t, c1) ∈ gs -> c1 = c) as Hnew.
    { intros c1 Hin. destruct (Hold t c1 Hin) as [_ Heq]. specialize (Heq (eq_sym Et)). congruence. }
    intros t1 c1 c2 [E1|H1]%elem_of_cons [E2|H2]%elem_of_cons; simplify_eq; try done.
    + symmetry. by apply Hnew.
    + by apply Hnew.
    + by eapply Hf.
Qed.

Lemma vote_run_ok n0 gs n : durable n0 -> vote_run n0 gs n -> durable n /\ votes_ok gs n.
Proof.
  intros Hp. induction 1 as [|gs n v n' _ IH Hs].
  - split; [done|]. split; [intros t c Hin|intros t c1 c2 Hin]; by apply elem_of_nil in Hin.
  - destruct IH as [Hpn Hok]. destruct (node_step_effect _ _ _ Hs) as [He _].
    destruct (He Hpn). split; [done|]. exact (votes_ok_step _ _ _ _ Hpn Hok Hs).
Qed.

(** A node whose saves of the hard state succeed casts at most one vote per term, over any
    sequence of operations and of crashes and restarts from its storage. *)
Theorem one_vote_per_term n0 gs n t c1 c2 :
  durable n0 -> vote_run n0 gs n -> (t, c1) ∈ gs -> (t, c2) ∈ gs -> c1 = c2.
Proof. intros Hp Hr. destruct (vote_run_ok _ _ _ Hp Hr) as [_ [_ Hf]]. apply Hf. Qed.

(** As long as saves of the hard state succeed, the term of a node never decreases and the
    hard state in its storage is always the current term and vote, so that a restart resumes
    with both. *)
Theorem hard_state_durable n0 gs n st peers base jitter mono sm :
  durable n0 -> vote_run n0 gs n -> n_storage n = Some st ->
  let n' := attach_storage crates st mono (set_state_machine sm (RaftNode_new (n_id n) peers base jitter)) in
  n_current_term n0 <= n_current_term n
  /\ n_current_term n' = n_current_term n /\ n_voted_for n' = n_voted_for n.
Proof.
  intros Hp Hr Hst n'.
  assert (n_current_term n0 <= n_current_term n) as Hmono.
  { clear Hst n'. induction Hr as [|gs n v n' Hr IH Hs]; [lia|].
    destruct (vote_run_ok _ _ _ Hp Hr) as [Hpn _].
    destruct (node_step_effect _ _ _ Hs) as [He _]. destruct (He Hpn) as [(_ & ? & _) _]. lia. }
  split; [done|]. destruct (vote_run_ok _ _ _ Hp Hr) as [Hpn _].
  destruct (attach_storage_vote st mono (set_state_machine sm (RaftNode_new (n_id n) peers base jitter)))
    as (_ & Et & Ev & _).
  unfold n'. rewrite Et, Ev, (proj1 Hpn st Hst). done.
Qed.

(** ** Elections *)

Lemma quorums_intersect (M Q1 Q2 : gset string) :
  Q1 ⊆ M -> Q2 ⊆ M -> (size M < size Q1 + size Q2)%nat -> exists i, i ∈ Q1 /\ i ∈ Q2.
Proof.
  intros H1 H2 Hs. destruct (decide (Q1 ## Q2)) as [Hd|Hn].
  - pose proof (size_union _ _ Hd) as Hu.
    pose proof (subseteq_size (Q1 ∪ Q2) M ltac:(set_solver)). lia.
  - assert (Q1 ∩ Q2 <> ∅) as Hne by set_solver.
    apply set_choose_L in Hne as [i Hi]. exists i. set_solver.
Qed.

(** The cluster: every member has a run from its initial state. *)
Definition elected (M : gset string) (votes : string -> list (Z * string)) (n : RaftNode)
    (t : Z) (c : string) : Prop :=
  exists Q : gset string, Q ⊆ M /\ quorum_size n <= Z.of_nat (size Q)
    /\ forall i, i ∈ Q -> (t, c) ∈ votes i.

(** C3: election safety, as long as the hard state gets to disk.  In a cluster whose
    members run any operations, messages, crashes and restarts from storage, where every
    member starts with its term and vote on disk and no save of the hard state fails (saves
    of the log and of snapshots may), two candidates that have each collected votes of
    quorum_size members in the same term are the same candidate. *)
Theorem election_safety (M : gset string) (init final : string -> RaftNode)
    (votes : string -> list (Z * string)) n t c1 c2 :
  (forall i, i ∈ M ->
    persisted (init i) /\ hard_saves_succeed (init i) /\ vote_run (init i) (votes i) (final i)) ->
  len (n_peers n) + 1 = Z.of_nat (size M) ->
  elected M votes n t c1 -> elected M votes n t c2 -> c1 = c2.
Proof.
  intros Hrun Hsize (Q1 & Hs1 & Hq1 & Hv1) (Q2 & Hs2 & Hq2 & Hv2).
  destruct (quorums_intersect M Q1 Q2 Hs1 Hs2) as (i & Hi1 & Hi2).
  { unfold quorum_size in *. rewrite Hsize in *.
    pose proof (Z.div_mod (Z.of_nat (size M)) 2). pose proof (Z.mod_pos_bound (Z.of_nat (size M)) 2). lia. }
  destruct (Hrun i) as (Hp & Hh & Hr); [set_solver|].
  destruct (vote_run_ok _ _ _ (conj Hp Hh) Hr) as [_ [_ Hf]]. eapply Hf; [by apply Hv1|by apply Hv2].
Qed.

End Runs.

(** ** Witnesses: one election in a cluster of three *)

Definition demo_crates : RaftCrates :=
  mkCrates (fun key msg => (key ++ msg)%list) (fun s => Some (map (fun _ => Byte.x00) (SM.snap_voters s)))
    (fun _ => None).
Definition demo_secret : list byte := replicate 32 Byte.x5a.

Definition demo_node (id : string) : RaftNode :=
  set_cluster_secret (Some demo_secret) (set_storage (Some (reliable InMemoryStorage_new))
    (RaftNode_new id (filter (fun p => p <> id) ["n1"; "n2"; "n3"]) 300 0)).

Lemma demo_durable id : durable (demo_node id).
Proof. split; intros st [= <-]; [done|constructor]. Qed.

Definition demo_candidate : RaftNode := become_candidate 0 (demo_node "n1").
Definition demo_vote_args : RequestVoteArgs :=
  let args := mkVoteArgs 1 "n1" 0 0 5000 None in
  mkVoteArgs 1 "n1" 0 0 5000 (Some (compute_request_vote_hmac demo_crates demo_secret args)).
Definition demo_voter : RaftNode :=
  (handle_request_vote demo_crates 5001 demo_vote_args (demo_node "n2")).2.

Lemma demo_candidate_run : vote_run demo_crates (demo_node "n1") [(1, "n1")] demo_candidate.
Proof.
  apply (run_step _ _ [] (demo_node "n1") (Some (1, "n1"))); [apply run_start|].
  exact (step_candidate demo_crates 0 (demo_node "n1") demo_candidate eq_refl).
Qed.

Lemma demo_voter_run : vote_run demo_crates (demo_node "n2") [(1, "n1")] demo_voter.
Proof.
  apply (run_step _ _ [] (demo_node "n2") (Some (1, "n1"))); [apply run_start|].
  unfold demo_voter.
  destruct (handle_request_vote demo_crates 5001 demo_vote_args (demo_node "n2")) as [reply n'] eqn:E.
  assert (rvr_vote_granted (handle_request_vote demo_crates 5001 demo_vote_args (demo_node "n2")).1
    = true) as Hg by (vm_compute; reflexivity).
  rewrite E in Hg. pose proof (step_vote demo_crates _ _ _ _ _ E) as Hs. cbn [fst] in Hg.
  by rewrite Hg in Hs.
Qed.

Lemma one_vote_per_term_witness :
  vote_run demo_crates (demo_node "n2") [(1, "n1")] demo_voter
  /\ forall c, (1, c) ∈ [(1, "n1")] -> c = "n1".
Proof.
  split; [apply demo_voter_run|]. intros c Hc.
  apply (one_vote_per_term demo_crates (demo_node "n2") [(1, "n1")] demo_voter 1);
    [apply demo_durable|apply demo_voter_run|exact Hc|apply list_elem_of_here].
Defined.

Lemma hard_state_durable_witness :
  exists st, n_storage demo_voter = Some st
    /\ n_voted_for (attach_storage demo_crates st 0
         (set_state_machine None (RaftNode_new (n_id demo_voter) [] 300 0))) = Some "n1".
Proof.
  destruct (n_storage demo_voter) as [st|] eqn:E; [|vm_compute in E; discriminate E].
  exists st. split; [done|].
  destruct (hard_state_durable demo_crates (demo_node "n2") _ demo_voter st [] 300 0 0 None
    (demo_durable "n2") demo_voter_run E) as (_ & _ & Hv).
  rewrite Hv. vm_compute. reflexivity.
Defined.

Definition demo_votes (i : string) : list (Z * string) :=
  if String.eqb i "n3" then [] else [(1, "n1")].
Definition demo_final (i : string) : RaftNode :=
  if String.eqb i "n1" then demo_candidate else if String.eqb i "n2" then demo_voter else demo_node i.

Lemma demo_elected : elected {["n1"; "n2"; "n3"]} demo_votes (demo_node "n1") 1 "n1".
Proof.
  exists {["n1"; "n2"]}. split; [set_solver|]. split; [by vm_compute|].
  intros i [->%elem_of_singleton| ->%elem_of_singleton]%elem_of_union; apply list_elem_of_here.
Qed.

Lemma election_safety_witness :
  elected {["n1"; "n2"; "n3"]} demo_votes (demo_node "n1") 1 "n1"
  /\ forall c, elected {["n1"; "n2"; "n3"]} demo_votes (demo_node "n1") 1 c -> c = "n1".
Proof.
  split; [apply demo_elected|]. intros c Hc.
  apply (election_safety demo_crates {["n1"; "n2"; "n3"]} demo_node demo_final demo_votes
    (demo_node "n1") 1); [|by vm_compute|exact Hc|apply demo_elected].
  intros i Hi. split; [apply demo_durable|]. split; [apply demo_durable|].
  rewrite !elem_of_union, !elem_of_singleton in Hi. destruct Hi as [[->| ->]| ->].
  - exact demo_candidate_run.
  - exact demo_voter_run.
  - apply run_start.
Defined.
