(* ===== verification/RaftReplProofs.v ===== *)
(** * Replication: committed entries survive, commitment needs replicas

    [node_wf] is the log invariant of a node, relative to its last snapshot.
    AppendEntries preserves it, never changes a committed entry, and a successful
    call leaves every entry of the message in the log; the commit index of a
    leader advances only to an entry of its term that at least half of the
    cluster holds. *)

From coqutil Require Import Byte.
From stdpp Require Import prelude gmap strings list sorting relations.
From Stdlib Require Import ZArith Lia.
From S2P Require Import Prelude RustStd RaftLog RaftLogProofs RaftStateMachine RaftGuard RaftNode RaftVoteProofs.
Local Open Scope Z_scope.

Definition node_wf (n : RaftNode) : Prop := log_wf (n_last_snapshot_index n) (n_log n).

(** ** The apply loop *)

Lemma log_apply_entries i l : entries (log_apply i l) = entries l /\ committed (log_apply i l) = committed l.
Proof. unfold log_apply. by case_if. Qed.

Lemma log_apply_next l :
  applied l < committed l -> applied (log_apply (applied l + 1) l) = applied l + 1.
Proof.
  intros H. unfold log_apply. by rewrite (proj2 (Z.ltb_lt _ _)), (proj2 (Z.leb_le _ _)) by lia.
Qed.

Lemma apply_loop_log fuel a :
  entries (as_log (apply_loop fuel a)) = entries (as_log a)
  /\ committed (as_log (apply_loop fuel a)) = committed (as_log a)
  /\ (forall base, log_wf base (as_log a) -> log_wf base (as_log (apply_loop fuel a))).
Proof.
  revert a. induction fuel as [|fuel IH]; intros a; [done|]. cbn [apply_loop].
  case_if; [done|]. case_match; [|done]. case_if; [done|].
  destruct (SM.apply _ _) as [[o|e] sm]; [|done].
  match goal with |- context [apply_loop fuel ?x] => destruct (IH x) as (He & Hc & Hw) end.
  cbn [as_log] in *. destruct (log_apply_entries (applied (as_log a) + 1) (as_log a)) as [E1 E2].
  split_and!; [congruence..|]. intros base Hwf. apply Hw. by apply log_apply_wf.
Qed.

(** The apply loop needs at most committed - applied iterations: with more
    fuel it computes the same state, so the while loop of apply_committed
    terminates on every state. *)
Theorem apply_loop_terminates fuel a :
  (apply_fuel (as_log a) <= fuel)%nat ->
  apply_loop fuel a = apply_loop (apply_fuel (as_log a)) a.
Proof.
  remember (apply_fuel (as_log a)) as k eqn:Ek. revert a fuel Ek.
  induction k as [|k IH]; intros a fuel Ek Hf.
  - destruct fuel as [|fuel]; [done|]. cbn [apply_loop].
    unfold apply_fuel in Ek. by rewrite (proj2 (Z.leb_le _ _)) by lia.
  - destruct fuel as [|fuel]; [lia|]. cbn [apply_loop].
    destruct (Z.leb_spec (committed (as_log a)) (applied (as_log a))); [done|].
    case_match; [|done]. case_if; [done|].
    destruct (SM.apply _ _) as [[o|e] sm]; [|done]. apply IH; [|lia]. cbn [as_log].
    unfold apply_fuel in *. destruct (log_apply_entries (applied (as_log a) + 1) (as_log a)) as [_ ->].
    rewrite log_apply_next by done. lia.
Qed.

Lemma apply_loop_terminates_witness :
  let a := mkApply (mkLog [mkEntry 1 1 Noop] 1 0) (SM.new []) false false in
  apply_loop 100 a = apply_loop 1 a.
Proof. intros a. apply (apply_loop_terminates 100 a). vm_compute. lia. Defined.

(** ** What the later phases do to the log *)

(** [log_ext n n']: the log of [n'] is that of [n] with compaction and application
    moved forward; no entry and no commit index changes. *)
Definition log_ext (n n' : RaftNode) : Prop :=
  node_wf n' /\ n_last_snapshot_index n <= n_last_snapshot_index n'
  /\ committed (n_log n') = committed (n_log n)
  /\ last_index (n_log n') <= n_last_snapshot_index n + len (entries (n_log n))
  /\ forall i, n_last_snapshot_index n' < i -> log_get i (n_log n') = log_get i (n_log n).

Lemma log_get_entries i l l' : entries l = entries l' -> log_get i l = log_get i l'.
Proof. unfold log_get. by intros ->. Qed.

Lemma log_ext_same n n' :
  node_wf n' -> n_last_snapshot_index n' = n_last_snapshot_index n ->
  entries (n_log n') = entries (n_log n) -> committed (n_log n') = committed (n_log n) ->
  log_ext n n'.
Proof.
  intros Hwf Es Ee Hc. split_and!; [done|lia|done| |].
  - rewrite <- Es, <- Ee. apply last_index_le; apply Hwf.
  - intros i _. by apply log_get_entries.
Qed.

Lemma sync_log voters mono n :
  n_log (sync_peers_from_voters voters mono n) = n_log n
  /\ n_last_snapshot_index (sync_peers_from_voters voters mono n) = n_last_snapshot_index n.
Proof. unfold sync_peers_from_voters. cbv zeta. by destruct (is_leader _). Qed.

Lemma apply_committed_log mono n :
  n_last_snapshot_index (apply_committed mono n) = n_last_snapshot_index n
  /\ entries (n_log (apply_committed mono n)) = entries (n_log n)
  /\ committed (n_log (apply_committed mono n)) = committed (n_log n)
  /\ (node_wf n -> node_wf (apply_committed mono n)).
Proof.
  unfold apply_committed, node_wf. destruct (n_state_machine n) as [sm|]; [|done]. cbv zeta.
  set (a := apply_loop _ _).
  destruct (apply_loop_log (apply_fuel (n_log n)) (mkApply (n_log n) sm false (n_apply_halted n)))
    as (He & Hc & Hw). fold a in He, Hc, Hw. cbn [as_log] in *.
  destruct (as_saw_config_change a); [|split_and!; try done; apply Hw].
  match goal with |- context [sync_peers_from_voters ?v mono ?m] =>
    destruct (sync_log v mono m) as [El Es]; rewrite El, Es end.
  split_and!; try done. apply Hw.
Qed.

(** Compaction hides the entries up to [up_to] and keeps the others. *)
Lemma discard_through_get base up_to l i :
  log_wf base l -> base <= up_to <= applied l -> up_to < i ->
  log_get i (discard_through up_to l) = log_get i l.
Proof.
  intros Hwf Hu Hi. destruct (discard_through_wf base up_to l Hwf Hu) as (Hw & Ee & _).
  pose proof (wf_base _ _ Hwf). pose proof (wf_committed _ _ Hwf). pose proof (wf_applied _ _ Hwf).
  rewrite (log_get_wf up_to), (log_get_wf base l) by (apply Hw || apply Hwf || lia).
  rewrite Ee. unfold len in *. rewrite length_drop.
  rewrite (proj2 (Z.ltb_lt up_to i)), (proj2 (Z.ltb_lt base i)) by lia. cbn [andb].
  rewrite lookup_drop.
  replace (Z.to_nat (up_to - base) + Z.to_nat (i - up_to - 1))%nat with (Z.to_nat (i - base - 1)) by lia.
  destruct (Z.leb_spec i (base + Z.of_nat (length (entries l)))).
  - by rewrite (proj2 (Z.leb_le _ _)) by lia.
  - by rewrite (proj2 (Z.leb_gt _ _)) by lia.
Qed.

Definition same_log (n n' : RaftNode) : Prop :=
  n_log n' = n_log n /\ n_last_snapshot_index n' = n_last_snapshot_index n.

#[global] Instance same_log_preorder : PreOrder same_log.
Proof. split; [done|]. intros a b c [? ?] [? ?]. split; congruence. Qed.

Lemma maybe_snapshot_cases crates n :
  same_log n (maybe_snapshot crates n)
  \/ (n_log (maybe_snapshot crates n) = discard_through (applied (n_log n)) (n_log n)
      /\ n_last_snapshot_index (maybe_snapshot crates n) = applied (n_log n)).
Proof.
  unfold maybe_snapshot. case_if; [by left|]. case_if; [by left|]. destruct (n_state_machine n); [|by left].
  destruct (snapshot_to_vec _ _); [|by left]. destruct (n_storage n) as [st|]; [|by right].
  cbv zeta. destruct (sto_save_snapshot _ st) as [[] ?]; [by right|by left].
Qed.

Lemma maybe_snapshot_ext crates n : node_wf n -> log_ext n (maybe_snapshot crates n).
Proof.
  intros Hwf. destruct (maybe_snapshot_cases crates n) as [[El Es]|[El Es]].
  { apply log_ext_same; [|done|by rewrite El..]. unfold node_wf. by rewrite El, Es. }
  pose proof (wf_base _ _ Hwf) as Hb.
  destruct (discard_through_wf (n_last_snapshot_index n) (applied (n_log n)) (n_log n) Hwf)
    as (Hw & Ee & Ec & Ea); [lia|].
  unfold log_ext, node_wf. rewrite El, Es. split_and!; [done|lia|lia| |].
  - etransitivity; [apply (last_index_le (applied (n_log n))); [apply Hw|lia]|].
    rewrite Ee. pose proof (wf_committed _ _ Hwf). pose proof (wf_applied _ _ Hwf).
    unfold len in *. rewrite length_drop. lia.
  - intros i Hi. apply (discard_through_get (n_last_snapshot_index n)); [done|lia|done].
Qed.

(** ** The append loop *)

Lemma truncate_get base after l l' i :
  log_wf base l -> truncate_after after l = Ok l' -> i <= after -> log_get i l' = log_get i l.
Proof.
  intros Hwf Ht Hi. pose proof (truncate_spec base after l Hwf) as H. rewrite Ht in H.
  destruct H as (_ & _ & _ & _ & H). by rewrite H, (proj2 (Z.leb_le _ _)).
Qed.

Lemma append_get base e l i :
  log_wf base l -> le_index e = base + len (entries l) + 1 ->
  log_get i (append e l) = if i =? le_index e then Some e else log_get i l.
Proof.
  intros Hwf He. pose proof (wf_base _ _ Hwf).
  rewrite (log_get_wf base) by (apply append_wf || lia; done).
  rewrite (log_get_wf base l) by (apply Hwf || lia). cbn [append entries].
  unfold len in *. rewrite length_app. cbn [length].
  destruct (Z.eqb_spec i (le_index e)) as [->|Hne].
  - rewrite (proj2 (Z.ltb_lt _ _)), (proj2 (Z.leb_le _ _)) by lia. cbn [andb].
    rewrite lookup_app_r by lia.
    by replace (Z.to_nat (le_index e - base - 1) - length (entries l))%nat with 0%nat by lia.
  - destruct (Z.ltb_spec base i); cbn [andb]; [|done].
    destruct (Z.leb_spec i (base + Z.of_nat (length (entries l)))).
    + rewrite (proj2 (Z.leb_le _ _)) by lia. by rewrite lookup_app_l by lia.
    + by rewrite (proj2 (Z.leb_gt _ _)) by lia.
Qed.

(** [l'] holds the entry [e] itself, or the entry of its index and term that [l] held. *)
Definition holds_entry (e : LogEntry) (l l' : RaftLog) : Prop :=
  exists e', log_get (le_index e) l' = Some e' /\ le_term e' = le_term e
    /\ (e' = e \/ log_get (le_index e) l = Some e').

(** One entry [e] of the message, at the position after [k], changes the log as
    follows: it is well-formed, holds an entry of the term of [e] at its index,
    is unchanged up to [k] and up to its commit index, which it keeps, and has nothing new
    beyond [e]. *)
Definition accepted (base k : Z) (e : LogEntry) (l l' : RaftLog) : Prop :=
  log_wf base l' /\ committed l' = committed l
  /\ k + 1 <= base + len (entries l')
  /\ (forall i, i <= Z.max k (committed l) -> log_get i l' = log_get i l)
  /\ (forall i x, k + 1 < i -> log_get i l' = Some x -> log_get i l = Some x)
  /\ holds_entry e l l'.

Lemma accept_append base k e l :
  log_wf base l -> base <= k -> le_index e = k + 1 -> base + len (entries l) = k ->
  accepted base k e l (append e l).
Proof.
  intros Hwf Hk He Hl. pose proof (append_wf base e l Hwf ltac:(lia)) as Hwf'.
  split_and!; [done|done| | | |].
  - cbn. rewrite len_app, len_cons, len_nil. lia.
  - intros i Hi. pose proof (wf_committed _ _ Hwf). rewrite (append_get base) by (done || lia).
    by rewrite (proj2 (Z.eqb_neq _ _)) by lia.
  - intros i x Hi. rewrite (append_get base) by (done || lia). by rewrite (proj2 (Z.eqb_neq _ _)) by lia.
  - exists e. split; [|by split; [|left]]. rewrite (append_get base) by (done || lia).
    by rewrite Z.eqb_refl.
Qed.

Lemma persist_truncate_log a n :
  n_log (persist_truncate a n) = n_log n
  /\ n_last_snapshot_index (persist_truncate a n) = n_last_snapshot_index n.
Proof. unfold persist_truncate. by destruct (n_storage n). Qed.
Lemma persist_appended_log es n :
  n_log (persist_appended es n) = n_log n
  /\ n_last_snapshot_index (persist_appended es n) = n_last_snapshot_index n.
Proof. unfold persist_appended. by destruct (n_storage n). Qed.

Lemma append_loop_step base k e es acc n :
  node_wf n -> n_last_snapshot_index n = base ->
  base <= k <= base + len (entries (n_log n)) -> le_index e = k + 1 ->
  (append_loop (e :: es) acc n = Err n /\ le_index e <= committed (n_log n)
   /\ exists ex, log_get (le_index e) (n_log n) = Some ex /\ le_term ex <> le_term e) \/
  exists n1 acc1, append_loop (e :: es) acc n = append_loop es acc1 n1
    /\ n_last_snapshot_index n1 = base /\ accepted base k e (n_log n) (n_log n1).
Proof.
  intros Hwf Hb Hk He. unfold node_wf in Hwf. rewrite Hb in Hwf. cbn [append_loop].
  pose proof (wf_base _ _ Hwf) as Hb0.
  destruct (log_get (le_index e) (n_log n)) as [ex|] eqn:Eg.
  - apply (log_get_Some base) in Eg as Hex; [|apply Hwf|lia]. destruct Hex as [Hr _].
    case_if; bool_to_prop.
    + destruct (truncate_after (le_index e - 1) (n_log n)) as [l|] eqn:Et.
      2: { left. split_and!; [done| |by exists ex]. unfold truncate_after in Et.
           pose proof (wf_applied _ _ Hwf). repeat case_if; bool_to_prop; done || lia. }
      right. destruct (truncate_after_Ok _ _ _ _ Hwf Et) as (Hc & El & Hwl). cbv zeta.
      set (n1 := persist_truncate (le_index e - 1) (set_log l n)).
      destruct (persist_truncate_log (le_index e - 1) (set_log l n)) as [E1 E2]. fold n1 in E1, E2.
      cbn in E1, E2. eexists _, _. split; [reflexivity|]. split; [by rewrite <- Hb, <- E2|].
      cbn [n_log set_log]. rewrite E1.
      assert (base + len (entries l) = k) as Hlen.
      { rewrite El. unfold len in *. cbn. rewrite length_take. lia. }
      destruct (accept_append base k e l Hwl ltac:(lia) He Hlen) as (? & Hcm & ? & Hpre & Hpost & Hin).
      assert (forall i x, k + 1 < i -> log_get i (append e l) = Some x -> False) as Hnone.
      { intros i x Hi Hx%Hpost; [|done]. apply (log_get_Some base) in Hx as [? _]; [lia|apply Hwl|lia]. }
      split_and!; [done|rewrite Hcm, El; done|done| |intros i x Hi Hx; by destruct (Hnone i x)|].
      2: { exists e. split; [|by split; [|left]]. rewrite (append_get base) by (done || lia). by rewrite Z.eqb_refl. }
      assert (committed l = committed (n_log n)) as Ecl by (by rewrite El).
      intros i Hi. rewrite Hpre by lia. apply (truncate_get base (le_index e - 1)); done || lia.
    + right. eexists n, acc. split; [done|]. split; [done|]. split_and!; [done|done|lia|done|done|].
      exists ex. split_and!; [done|done|by right].
  - right. eexists _, _. split; [reflexivity|]. split; [done|]. cbn.
    apply accept_append; try done; [lia|].
    rewrite (log_get_wf base) in Eg by (apply Hwf || lia).
    destruct (Z.leb_spec (le_index e) (base + len (entries (n_log n)))); [|lia].
    rewrite (proj2 (Z.ltb_lt _ _)) in Eg by lia. cbn in Eg.
    apply lookup_ge_None in Eg. unfold len in *. lia.
Qed.

(** The whole message: entries consecutive after [k]. *)
Lemma append_loop_spec base k es acc n n' acc' :
  node_wf n -> n_last_snapshot_index n = base ->
  base <= k <= base + len (entries (n_log n)) -> contig k es ->
  append_loop es acc n = Ok (n', acc') ->
  node_wf n' /\ n_last_snapshot_index n' = base /\ committed (n_log n') = committed (n_log n)
  /\ (forall i, i <= Z.max k (committed (n_log n)) -> log_get i (n_log n') = log_get i (n_log n))
  /\ k + len es <= base + len (entries (n_log n'))
  /\ Forall (fun e => holds_entry e (n_log n) (n_log n')) es.
Proof.
  revert k acc n. induction es as [|e es IH]; intros k acc n Hwf Hb Hk Hc.
  - cbn. intros; simplify_eq. rewrite len_nil. split_and!; try done. lia.
  - apply contig_cons in Hc as [He Hc]. intros Hl.
    destruct (append_loop_step base k e es acc n Hwf Hb Hk He)
      as [[E _]|(n1 & acc1 & E & Hb1 & Hw1 & Hc1 & Hk1 & Hpre1 & Hpost1 & e1 & Hg1 & Ht1)]; [congruence|].
    rewrite E in Hl.
    destruct (IH (k + 1) acc1 n1) as (Hw & Hbn & Hcn & Hpre & Hlen & Hall); [..|exact Hl|].
    + unfold node_wf. by rewrite Hb1.
    + done.
    + lia.
    + done.
    + rewrite len_cons. split_and!; [done|done|congruence| |lia|].
      * intros i Hi. rewrite Hpre by lia. by apply Hpre1.
      * constructor; [exists e1; by rewrite Hpre by lia|]. apply Forall_lookup. intros j x Hx.
        apply Hc in Hx as Hj. pose proof (proj1 (Forall_lookup _ _) Hall j x Hx) as (y & Hy & Hty & Hor).
        exists y. split_and!; [done|done|]. destruct Hor as [|Hor]; [by left|right]. apply Hpost1; [lia|done].
Qed.

Lemma append_loop_fail base k es acc n n' :
  node_wf n -> n_last_snapshot_index n = base ->
  base <= k <= base + len (entries (n_log n)) -> contig k es ->
  append_loop es acc n = Err n' ->
  node_wf n' /\ n_last_snapshot_index n' = base /\ committed (n_log n') = committed (n_log n)
  /\ (forall i, i <= Z.max k (committed (n_log n)) -> log_get i (n_log n') = log_get i (n_log n)).
Proof.
  revert k acc n. induction es as [|e es IH]; intros k acc n Hwf Hb Hk Hc; [done|].
  apply contig_cons in Hc as [He Hc]. intros Hl.
  destruct (append_loop_step base k e es acc n Hwf Hb Hk He)
    as [[E _]|(n1 & acc1 & E & Hb1 & Hw1 & Hc1 & Hk1 & Hpre1 & _)].
  - rewrite E in Hl. simplify_eq. done.
  - rewrite E in Hl. destruct (IH (k + 1) acc1 n1) as (Hw & Hbn & Hcn & Hpre); [..|exact Hl|].
    + unfold node_wf. by rewrite Hb1.
    + done.
    + lia.
    + done.
    + split_and!; [done|done|congruence|]. intros i Hi. rewrite Hpre by lia. by apply Hpre1.
Qed.

(** ** AppendEntries *)


Lemma same_log_wf n n' : same_log n n' -> node_wf n -> node_wf n'.
Proof. intros [E1 E2]. unfold node_wf. by rewrite E1, E2. Qed.

Lemma verify_append_log crates now args n : same_log n (verify_append_entries crates now args n).2.
Proof. unfold verify_append_entries, admit_mac. repeat case_match; simplify_eq; done. Qed.

Lemma become_follower_log t n : same_log n (become_follower t n).
Proof.
  unfold become_follower, persist_hard_state. cbv zeta.
  destruct (_ <? _); cbn; destruct (n_storage n); done.
Qed.

Lemma monotonic_contig k es :
  monotonic es = true -> 0 <= k -> k + len es <= u64_max ->
  match es with [] => True | e :: _ => le_index e = k + 1 end -> contig k es.
Proof.
  revert k. induction es as [|e es IH]; intros k Hm Hk Hmax He; [apply contig_nil|].
  apply contig_cons. split; [done|]. rewrite len_cons in Hmax.
  destruct es as [|e' es]; [apply contig_nil|]. cbn [monotonic] in Hm.
  destruct (Z.eqb_spec (le_index e') (u64_succ (le_index e))) as [E|]; [|done].
  rewrite len_cons in Hmax. pose proof (len_nonneg es).
  apply IH; [done|lia|rewrite len_cons; lia|]. rewrite E, He, u64_succ_small; lia.
Qed.

(** What the handler does not check of a message: that its entries follow the previous
    index, and that entries from index 1 on are not sent to a follower that has compacted its
    log ([zero_prev_appends_below_snapshot] in [RaftGaps] says what it does with those). *)
Record args_wf (args : AppendEntriesArgs) (n : RaftNode) : Prop := {
  aw_next : match ae_entries args with
            | [] => True | e :: _ => le_index e = ae_prev_log_index args + 1 end;
  aw_range : 0 <= ae_prev_log_index args /\ ae_prev_log_index args + len (ae_entries args) <= u64_max;
  aw_base : ae_prev_log_index args = 0 -> ae_entries args <> [] -> n_last_snapshot_index n = 0;
}.

Lemma prev_log_check_pass args n :
  node_wf n -> args_wf args n -> ae_entries args <> [] -> prev_log_check args n = None ->
  n_last_snapshot_index n <= ae_prev_log_index args
    <= n_last_snapshot_index n + len (entries (n_log n)).
Proof.
  intros Hwf [_ [H0 _] Hbase] Hne. unfold prev_log_check. pose proof (wf_base _ _ Hwf).
  pose proof (len_nonneg (entries (n_log n))).
  destruct (Z.ltb_spec 0 (ae_prev_log_index args)) as [Hp|Hp].
  - destruct (Z.ltb_spec (ae_prev_log_index args) (n_last_snapshot_index n)); [done|].
    destruct (Z.eqb_spec (ae_prev_log_index args) (n_last_snapshot_index n)) as [E|]; [lia|].
    destruct (log_get (ae_prev_log_index args) (n_log n)) as [e|] eqn:Eg; [|done]. intros _.
    apply (log_get_Some (n_last_snapshot_index n)) in Eg as [? _]; [lia|apply Hwf|lia].
  - intros _. rewrite Hbase by (done || lia). lia.
Qed.

Lemma prev_log_check_fail args n n' :
  node_wf n -> prev_log_check args n = Some n' ->
  node_wf n' /\ n_last_snapshot_index n' = n_last_snapshot_index n
  /\ committed (n_log n') = committed (n_log n)
  /\ forall i, i <= committed (n_log n) -> log_get i (n_log n') = log_get i (n_log n).
Proof.
  intros Hwf. unfold prev_log_check.
  destruct (0 <? _); [|done]. repeat (case_match; try (by intros; simplify_eq)).
  intros [= <-].
  match goal with Ht : truncate_after ?a _ = Ok ?l |- _ =>
    destruct (truncate_after_Ok _ _ _ _ Hwf Ht) as (Hc & El & Hwl);
    destruct (persist_truncate_log a (set_log l n)) as [E1 E2];
    unfold node_wf; rewrite E1, E2; cbn; split_and!; [done|done|by rewrite El|];
    intros i Hi; apply (truncate_get (n_last_snapshot_index n) a); done || lia end.
Qed.

(** The last phase: commit, apply and compact. *)
Lemma finish_append_spec crates args mono new n :
  node_wf n ->
  let n' := finish_append crates args mono new n in
  node_wf n' /\ n_last_snapshot_index n <= n_last_snapshot_index n'
  /\ committed (n_log n) <= committed (n_log n')
     <= Z.max (committed (n_log n)) (Z.min (ae_leader_commit args) (last_new_index args))
  /\ forall i, n_last_snapshot_index n' < i -> log_get i (n_log n') = log_get i (n_log n).
Proof.
  intros Hwf. unfold finish_append. cbv zeta.
  set (n1 := if bool_decide (new = []) then n else persist_appended new n).
  assert (same_log n n1) as [El Es].
  { unfold n1. case_bool_decide; [done|]. apply persist_appended_log. }
  set (n2 := if committed (n_log n1) <? ae_leader_commit args then _ else n1).
  assert (node_wf n2 /\ n_last_snapshot_index n2 = n_last_snapshot_index n
    /\ entries (n_log n2) = entries (n_log n)
    /\ committed (n_log n) <= committed (n_log n2)
       <= Z.max (committed (n_log n)) (Z.min (ae_leader_commit args) (last_new_index args)))
    as (Hw2 & Es2 & Ee2 & Hc2).
  { unfold n2, node_wf. destruct (_ <? ae_leader_commit args); cbn; rewrite El, Es.
    - split_and!; [by apply commit_wf|done|unfold commit; by case_if| |];
        unfold commit; case_if; bool_to_prop; cbn; lia.
    - split_and!; try done; lia. }
  destruct (apply_committed_log mono n2) as (Es3 & Ee3 & Ec3 & Hw3). specialize (Hw3 Hw2).
  destruct (maybe_snapshot_ext crates (apply_committed mono n2) Hw3) as (Hw4 & Hs4 & Ec4 & _ & Hg4).
  split_and!; [done|lia|lia|lia|]. intros i Hi. rewrite Hg4 by done.
  apply log_get_entries. congruence.
Qed.

(** What [handle_append_entries] guarantees for the message of a correct leader. *)
Lemma append_entries_spec crates now mono args n :
  node_wf n -> args_wf args n ->
  let '(reply, n') := handle_append_entries crates now mono args n in
  node_wf n' /\ n_last_snapshot_index n <= n_last_snapshot_index n'
  /\ committed (n_log n) <= committed (n_log n')
     <= Z.max (committed (n_log n)) (ae_leader_commit args)
  /\ (forall i, n_last_snapshot_index n' < i <= committed (n_log n) ->
        log_get i (n_log n') = log_get i (n_log n))
  /\ (aer_success reply = true ->
        Forall (fun e => n_last_snapshot_index n' < le_index e ->
          holds_entry e (n_log n) (n_log n')) (ae_entries args)).
Proof.
  intros Hwf Hargs. unfold handle_append_entries.
  pose proof (verify_append_log crates now args n) as Hv.
  destruct (verify_append_entries crates now args n) as [verified n1]. cbn [snd] in Hv.
  assert (forall m, same_log n m ->
    node_wf m /\ n_last_snapshot_index n <= n_last_snapshot_index m
    /\ committed (n_log n) <= committed (n_log m)
       <= Z.max (committed (n_log n)) (ae_leader_commit args)
    /\ (forall i, n_last_snapshot_index m < i <= committed (n_log n) ->
          log_get i (n_log m) = log_get i (n_log n)) /\ (false = true -> False)) as Hsame.
  { intros m Hm. pose proof (same_log_wf _ _ Hm Hwf). destruct Hm as [-> ->].
    split_and!; try done; lia. }
  destruct verified; cbn [negb]; [|destruct (Hsame n1 Hv) as (? & ? & ? & ? & _); by split_and!; try lia].
  cbv zeta. case_if; [destruct (Hsame n1 Hv) as (? & ? & ? & ? & _); by split_and!; try lia|].
  set (n2 := if _ || _ then _ else _).
  set (n3 := record_heartbeat now mono (set_current_leader_hint (Some (ae_leader_id args)) n2)).
  assert (same_log n n3) as H3.
  { etransitivity; [exact Hv|]. transitivity n2; [|done]. unfold n2.
    destruct (_ || _); [apply become_follower_log|done]. }
  pose proof (same_log_wf _ _ H3 Hwf) as Hw3. destruct H3 as [El3 Es3].
  assert (args_wf args n3) as Ha3 by (destruct Hargs; split; try done; by rewrite Es3).
  destruct (prev_log_check args n3) as [m|] eqn:Ep.
  { destruct (prev_log_check_fail _ _ _ Hw3 Ep) as (? & ? & Hc & Hg). rewrite El3 in *.
    split_and!; try done; try lia. intros i [_ Hi]. by apply Hg. }
  destruct (monotonic (ae_entries args)) eqn:Em; cbn [negb].
  2: { destruct (Hsame n3) as (? & ? & ? & ? & _); [done|]. by split_and!; try lia. }
  destruct (decide (ae_entries args = [])) as [He|Hne].
  { rewrite He. cbn [append_loop]. destruct (finish_append_spec crates args mono [] n3 Hw3) as (Hf & Hs' & Hc' & Hg).
    rewrite El3 in *. split_and!; [done|lia|lia|lia| |by constructor]. intros i Hi. by rewrite Hg by lia. }
  pose proof (prev_log_check_pass _ _ Hw3 Ha3 Hne Ep) as Hk. destruct Ha3 as [Hnext [Hr1 Hr2] _].
  pose proof (monotonic_contig _ _ Em Hr1 Hr2 Hnext) as Hc.
  destruct (append_loop (ae_entries args) [] n3) as [[m new]|m] eqn:Ea.
  - destruct (append_loop_spec _ _ _ _ _ _ _ Hw3 eq_refl Hk Hc Ea) as (Hm & Hs & Hcm & Hpre & _ & Hall).
    destruct (finish_append_spec crates args mono new m Hm) as (Hf & Hs' & Hc' & Hg).
    rewrite El3 in *. split_and!; [done|lia|lia|lia| |].
    + intros i Hi. rewrite Hg by lia. apply Hpre. lia.
    + intros _. eapply Forall_impl; [exact Hall|]. intros e (e' & He' & Ht) Hi.
      exists e'. by rewrite Hg.
  - destruct (append_loop_fail _ _ _ _ _ _ Hw3 eq_refl Hk Hc Ea) as (Hm & Hs & Hcm & Hpre).
    rewrite El3 in *. split_and!; try done; try lia. intros i Hi. apply Hpre. lia.
Qed.

(** C4: AppendEntries is safe.  For a message whose entries follow its previous index, and
    which is not a message with entries from index 1 on to a follower that has compacted its
    log, the handler keeps the log well-formed, never changes or loses a committed entry,
    never moves the commit index back, and moves it forward at most to the leader's commit
    index; when it reports success, every entry of the message that is not already compacted
    is in the log, either the entry itself with its command or the entry of the same index and
    term that the log held before. *)
Theorem append_entries_safe crates now mono args n :
  node_wf n -> args_wf args n ->
  let '(reply, n') := handle_append_entries crates now mono args n in
  node_wf n' /\ n_last_snapshot_index n <= n_last_snapshot_index n'
  /\ committed (n_log n) <= committed (n_log n')
     <= Z.max (committed (n_log n)) (ae_leader_commit args)
  /\ (forall i, n_last_snapshot_index n' < i <= committed (n_log n) ->
        log_get i (n_log n') = log_get i (n_log n))
  /\ (aer_success reply = true ->
        Forall (fun e => n_last_snapshot_index n' < le_index e ->
          holds_entry e (n_log n) (n_log n')) (ae_entries args)).
Proof. exact (append_entries_spec crates now mono args n). Qed.

(** ** Commitment by the leader *)

(** How many members hold the entry at [i], by the leader's bookkeeping. *)
Definition replicas (i : Z) (n : RaftNode) : Z :=
  len (filter (fun m => i <= m)
    (map (fun p => default 0 (n_match_index n !! p)) (n_peers n) ++ [last_index (n_log n)])).

Lemma sorted_suffix_count (l : list Z) (k : nat) (v : Z) :
  Sorted Z.le l -> l !! k = Some v ->
  (length l - k <= length (filter (fun m : Z => (v <= m)%Z) l))%nat.
Proof.
  intros Hs%Sorted_StronglySorted; [|intros ? ? ?; lia]. revert k.
  induction Hs as [|x l Hs IH Hx]; intros k Hk; [done|].
  assert (length (filter (fun m : Z => (v <= m)%Z) l)
    <= length (filter (fun m : Z => (v <= m)%Z) (x :: l)))%nat as Hc.
  { rewrite filter_cons. case_decide; cbn; lia. }
  destruct k as [|k]; cbn in Hk; [|specialize (IH k Hk); cbn [length]; lia].
  simplify_eq. clear IH Hc. cbn [length]. rewrite filter_cons_True by lia. cbn [length].
  assert (filter (fun m : Z => (v <= m)%Z) l = l) as ->; [|lia].
  induction Hx as [|y l Hy Hx IH]; [done|]. rewrite filter_cons_True by done. f_equal. apply IH.
  by inversion Hs.
Qed.

Lemma advance_cases n :
  advance_commit_index n = n
  \/ exists i, advance_commit_index n = set_log (commit i (n_log n)) n
       /\ committed (n_log n) < i /\ len (n_peers n) + 1 <= 2 * replicas i n
       /\ (Z.odd (len (n_peers n) + 1) = true -> quorum_size n <= replicas i n)
       /\ ((exists e, log_get i (n_log n) = Some e /\ le_term e = n_current_term n)
           \/ i <= n_last_snapshot_index n).
Proof.
  unfold advance_commit_index. cbv zeta.
  set (ms := map _ _ ++ _). set (sorted := merge_sort Z.le ms).
  set (i := default 0 (sorted !! (length sorted / 2)%nat)).
  assert (length sorted = S (length (n_peers n))) as Hlen.
  { unfold sorted, ms. rewrite merge_sort_Permutation, length_app, length_map. cbn. lia. }
  assert (sorted !! (length sorted / 2)%nat = Some i) as Hi.
  { unfold i. destruct (lookup_lt_is_Some_2 sorted (length sorted / 2)) as [x Hx].
    - apply Nat.div_lt; lia.
    - by rewrite Hx. }
  assert (Z.of_nat (length sorted - length sorted / 2) <= replicas i n) as Hrep.
  { unfold replicas, len. fold ms. apply inj_le.
    rewrite <- (Permutation_length (filter_Permutation (fun m => i <= m) _ _ (merge_sort_Permutation Z.le ms))).
    apply sorted_suffix_count; [apply Sorted_merge_sort; intros ? ?; lia|done]. }
  assert (len (n_peers n) + 1 <= 2 * replicas i n
    /\ (Z.odd (len (n_peers n) + 1) = true -> quorum_size n <= replicas i n)) as [H2 Hq].
  { rewrite Hlen in Hrep. unfold quorum_size, len in *.
    pose proof (Nat.div_mod_eq (S (length (n_peers n))) 2).
    pose proof (Nat.mod_upper_bound (S (length (n_peers n))) 2 ltac:(done)).
    split; [lia|]. rewrite Z.odd_spec. intros [k Hk].
    replace ((Z.of_nat (length (n_peers n)) + 1) / 2) with k by (rewrite Hk; apply (Z.div_unique _ 2 k 1); lia).
    lia. }
  case_if; bool_to_prop; [|by left]. destruct (log_get i (n_log n)) as [e|] eqn:Eg.
  - case_if; bool_to_prop; [|by left]. right. exists i. split_and!; try done. left. eauto.
  - case_if; bool_to_prop; [|by left]. right. exists i. split_and!; try done. by right.
Qed.

(** C37: a leader advances its commit index only to an entry of its current term
    (Raft's rule against committing entries of earlier terms by counting), and only when its
    match index records count at least half of the members, itself included, at or above
    that entry: a quorum when the cluster size is odd.  What the members hold is another
    matter: a reply counted twice puts a record ahead of its member
    ([duplicate_reply_counts_twice] in [RaftGaps]). *)
Theorem commit_needs_replicas n :
  node_wf n ->
  let n' := advance_commit_index n in
  node_wf n' /\ committed (n_log n) <= committed (n_log n')
  /\ (committed (n_log n) < committed (n_log n') ->
       let i := committed (n_log n') in
       (exists e, log_get i (n_log n) = Some e /\ le_term e = n_current_term n)
       /\ len (n_peers n) + 1 <= 2 * replicas i n
       /\ (Z.odd (len (n_peers n) + 1) = true -> quorum_size n <= replicas i n)).
Proof.
  intros Hwf n'. unfold n'.
  destruct (advance_cases n) as [->|(i & E & Hi & H2 & Hq & Hterm)]; [split_and!; done || lia|].
  rewrite E. pose proof (commit_wf _ i _ Hwf) as Hw. cbn. unfold commit in *.
  destruct ((committed (n_log n) <? i) && (i <=? last_index (n_log n))); cbn.
  - split_and!; [exact Hw|lia|]. intros _. split_and!; try done.
    destruct Hterm as [?|Hs]; [done|]. pose proof (wf_base _ _ Hwf). pose proof (wf_applied _ _ Hwf). lia.
  - split_and!; [exact Hw|lia|lia].
Qed.

(** ** Witnesses *)

Definition demo_append_args : AppendEntriesArgs :=
  let args := mkAppendArgs 1 "n1" 0 0 [mkEntry 1 1 (KeySync "k" [Byte.x01]); mkEntry 1 2 Noop] 1 5000 None in
  mkAppendArgs 1 "n1" 0 0 (ae_entries args) 1 5000
    (Some (compute_append_entries_hmac demo_crates demo_secret args)).

Lemma demo_node_wf id : node_wf (demo_node id).
Proof. by split. Qed.

Lemma append_entries_safe_witness :
  let '(reply, n') := handle_append_entries demo_crates 5001 1 demo_append_args (demo_node "n2") in
  aer_success reply = true /\ committed (n_log n') = 1
  /\ Forall (fun e => n_last_snapshot_index n' < le_index e ->
       holds_entry e (n_log (demo_node "n2")) (n_log n')) (ae_entries demo_append_args).
Proof.
  pose proof (append_entries_safe demo_crates 5001 1 demo_append_args (demo_node "n2")
    (demo_node_wf "n2")) as H.
  assert (aer_success (handle_append_entries demo_crates 5001 1 demo_append_args (demo_node "n2")).1 = true
    /\ committed (n_log (handle_append_entries demo_crates 5001 1 demo_append_args (demo_node "n2")).2) = 1)
    as [Hs Hc] by (split; vm_compute; reflexivity).
  destruct (handle_append_entries demo_crates 5001 1 demo_append_args (demo_node "n2")) as [reply n'].
  cbn [fst snd] in Hs, Hc. destruct H as (_ & _ & _ & _ & H); [by split; vm_compute|].
  split_and!; [done|done|exact (H Hs)].
Defined.

(** A leader of three that holds two entries of its term; one peer has both. *)
Definition demo_leader : RaftNode :=
  set_match_index {["n2" := 2; "n3" := 0]}
    (set_log (mkLog [mkEntry 1 1 Noop; mkEntry 1 2 Noop] 0 0) (become_leader demo_candidate)).

Lemma demo_leader_wf : node_wf demo_leader.
Proof.
  split; try done. cbn. apply contig_cons. split; [done|]. apply contig_cons. split; [done|].
  apply contig_nil.
Qed.

Lemma commit_needs_replicas_witness :
  committed (n_log (advance_commit_index demo_leader)) = 2
  /\ quorum_size demo_leader <= replicas 2 demo_leader.
Proof.
  destruct (commit_needs_replicas demo_leader demo_leader_wf) as (_ & _ & H).
  assert (committed (n_log (advance_commit_index demo_leader)) = 2) as E by by vm_compute.
  rewrite E in H. split; [done|]. by destruct H as (_ & _ & Hq); [by vm_compute|apply Hq].
Defined.
