(* ===== verification/RaftReplicateProofs.v ===== *)
(** * The messages of a leader

    A batched replication round sends every peer the message it would get on its
    own; and a message a leader prepares, delivered to a follower that has the
    entry before it, is accepted and brings the follower's log to the leader's. *)

From coqutil Require Import Byte.
From stdpp Require Import prelude gmap strings list.
From Stdlib Require Import ZArith Lia.
From S2P Require Import Prelude RustStd RaftLog RaftLogProofs RaftStateMachine RaftGuard RaftNode.
From S2P Require Import RaftVoteProofs RaftReplProofs RaftReplicate.
Local Open Scope Z_scope.

(** A peer's next index points into the retained log, or just past it. *)
Definition next_ok (n : RaftNode) (i : Z) : Prop :=
  n_last_snapshot_index n < i <= n_last_snapshot_index n + len (entries (n_log n)) + 1.

Lemma partition_point_below base es i :
  contig base es -> base < i ->
  partition_point (fun e => le_index e <? i) es = Nat.min (Z.to_nat (i - base - 1)) (length es).
Proof.
  revert base. induction es as [|e es IH]; intros base Hc Hi; [by rewrite Nat.min_0_r|].
  apply contig_cons in Hc as [He Hc]. cbn [partition_point length].
  destruct (Z.ltb_spec (le_index e) i).
  - rewrite (IH (base + 1)) by (done || lia).
    replace (Z.to_nat (i - base - 1)) with (S (Z.to_nat (i - (base + 1) - 1))) by lia. lia.
  - replace (Z.to_nat (i - base - 1)) with 0%nat by lia. done.
Qed.

Lemma slice_from_wf n i :
  node_wf n -> n_last_snapshot_index n < i ->
  entries_slice_from i (n_log n)
  = drop (Z.to_nat (i - n_last_snapshot_index n - 1)) (entries (n_log n)).
Proof.
  intros Hwf Hi. unfold entries_slice_from.
  rewrite (partition_point_below (n_last_snapshot_index n)) by (apply Hwf || done).
  destruct (Nat.min_spec (Z.to_nat (i - n_last_snapshot_index n - 1)) (length (entries (n_log n))))
    as [[_ ->]|[? ->]]; [done|]. rewrite !drop_ge by lia. done.
Qed.

(** Sub-slicing the shared suffix gives the peer's own suffix. *)
Lemma shared_slice n base i :
  node_wf n -> n_last_snapshot_index n < base <= i ->
  let shared := entries_slice_from base (n_log n) in
  (if i - base =? 0 then shared
   else if len shared <=? i - base then [] else drop (Z.to_nat (i - base)) shared)
  = entries_slice_from i (n_log n).
Proof.
  intros Hwf Hb shared. unfold shared. rewrite !slice_from_wf by (done || lia).
  destruct (Z.eqb_spec (i - base) 0) as [E|]; [by replace i with base by lia|].
  rewrite drop_drop.
  replace (Z.to_nat (base - n_last_snapshot_index n - 1) + Z.to_nat (i - base))%nat
    with (Z.to_nat (i - n_last_snapshot_index n - 1)) by lia.
  destruct (Z.leb_spec (len (drop (Z.to_nat (base - n_last_snapshot_index n - 1)) (entries (n_log n)))) (i - base))
    as [Hl|]; [|done].
  unfold len in Hl. rewrite length_drop in Hl. by rewrite drop_ge by lia.
Qed.

Lemma has_config_change_slice n base i :
  node_wf n -> n_last_snapshot_index n < base <= i ->
  has_config_change (entries_slice_from i (n_log n)) = true ->
  has_config_change (entries_slice_from base (n_log n)) = true.
Proof.
  intros Hwf Hb. rewrite !slice_from_wf by (done || lia).
  replace (Z.to_nat (i - n_last_snapshot_index n - 1))
    with (Z.to_nat (base - n_last_snapshot_index n - 1) + Z.to_nat (i - base))%nat by lia.
  rewrite <- drop_drop. intros H.
  rewrite <- (take_drop (Z.to_nat (i - base)) (drop _ (entries (n_log n)))).
  unfold has_config_change in *. by rewrite existsb_app, H, orb_true_r.
Qed.

Section Messages.
Context (crates : RaftCrates).

Lemma into_args_id p : into_args p = p.
Proof. by destruct p. Qed.

(** A peer's message does not depend on where the shared suffix starts. *)
Lemma prepare_shared_is_single now mono p base n :
  node_wf n ->
  (forall i, n_next_index n !! p = Some i -> n_last_snapshot_index n < base <= i) ->
  prepare_append_entries_shared crates now mono p base (entries_slice_from base (n_log n))
    (has_config_change (entries_slice_from base (n_log n))) n
  = prepare_append_entries crates now mono p n.
Proof.
  intros Hwf Hb. unfold prepare_append_entries, prepare_append_entries_shared.
  destruct (is_leader n); cbn [negb]; [|done].
  destruct (n_next_index n !! p) as [i|] eqn:Ei; [|done]. specialize (Hb i eq_refl). cbv zeta.
  rewrite (proj2 (Z.leb_le _ _)), Z.leb_refl, (shared_slice n base i) by (done || lia).
  rewrite Z.sub_diag. cbn [Z.eqb]. set (es := entries_slice_from i (n_log n)).
  assert (has_config_change (entries_slice_from base (n_log n)) && has_config_change es
    = has_config_change es && has_config_change es) as ->.
  { pose proof (has_config_change_slice n base i Hwf Hb) as H. fold es in H.
    destruct (has_config_change es); [by rewrite H|by rewrite !andb_false_r]. }
  case_if; [done|]. cbn [option_map]. by rewrite into_args_id.
Qed.

(** What preparing a message changes: only the time of the last membership change
    sent to the peer. *)
Definition same_but_rate (n m : RaftNode) : Prop :=
  exists v, m = set_last_config_change_at v n.

Lemma prepare_frame now mono p n :
  same_but_rate n (prepare_append_entries crates now mono p n).2.
Proof.
  assert (same_but_rate n n) as Hn by (exists (n_last_config_change_at n); by destruct n).
  unfold prepare_append_entries, prepare_append_entries_shared.
  destruct (is_leader n); [|done]. cbn [negb]. destruct (n_next_index n !! p); [|done].
  cbv zeta. match goal with |- context [if ?g && ?d then _ else _] => destruct g, d end;
    cbn [andb snd]; done || by eexists.
Qed.

(** The reference: one message per peer, built on its own. *)
Fixpoint prepare_each (clock : string -> Z * Z) (peers : list string) (n : RaftNode)
    : list (string * AppendEntriesArgs) * RaftNode :=
  match peers with
  | [] => ([], n)
  | p :: peers =>
      let '(m, n) := prepare_append_entries crates (clock p).1 (clock p).2 p n in
      let '(ms, n) := prepare_each clock peers n in
      (match m with Some m => (p, m) :: ms | None => ms end, n)
  end.

Lemma min_step_le ni acc p :
  (forall c, acc = Some c -> exists b, min_step ni acc p = Some b /\ b <= c)
  /\ (forall i, ni !! p = Some i -> exists b, min_step ni acc p = Some b /\ b <= i).
Proof.
  unfold min_step. split.
  - intros c ->. destruct (ni !! p); eexists; (split; [done|lia]).
  - intros i ->. destruct acc; eexists; (split; [done|lia]).
Qed.

Lemma min_next_index_le peers ni acc :
  let m := foldl (min_step ni) acc peers in
  (forall c, acc = Some c -> exists b, m = Some b /\ b <= c)
  /\ (forall p i, p ∈ peers -> ni !! p = Some i -> exists b, m = Some b /\ b <= i).
Proof.
  revert acc. induction peers as [|p peers IH]; intros acc; cbn [foldl].
  - split; [intros c ->; eauto with lia|]. by intros ? ? ?%elem_of_nil.
  - destruct (IH (min_step ni acc p)) as [IH1 IH2]. destruct (min_step_le ni acc p) as [H1 H2].
    assert (forall c, (exists b, min_step ni acc p = Some b /\ b <= c) ->
      exists b, foldl (min_step ni) (min_step ni acc p) peers = Some b /\ b <= c) as Htrans.
    { intros c (b & Hb & ?). destruct (IH1 b Hb) as (b' & ? & ?). exists b'. split; [done|lia]. }
    split; [eauto|]. intros q i [->|Hq]%elem_of_cons Hi; [eauto|by eapply IH2].
Qed.

Lemma min_next_index_mem peers ni acc b :
  foldl (min_step ni) acc peers = Some b ->
  acc = Some b \/ exists p, p ∈ peers /\ ni !! p = Some b.
Proof.
  revert acc. induction peers as [|p peers IH]; intros acc; cbn [foldl]; [by left|].
  intros [H|(q & Hq & Hi)]%IH; [|right; exists q; set_solver].
  unfold min_step in H. destruct (ni !! p) as [i|] eqn:Ei; [|by left].
  destruct acc as [c|].
  - destruct (Z.min_spec c i) as [[_ E]|[_ E]]; rewrite E in H; simplify_eq; [by left|].
    right. exists p. set_solver.
  - simplify_eq. right. exists p. set_solver.
Qed.

Lemma prepare_loop_is_each clock base l peers n :
  node_wf n -> n_log n = l ->
  (forall p i, p ∈ peers -> n_next_index n !! p = Some i -> n_last_snapshot_index n < base <= i) ->
  prepare_loop crates clock base (entries_slice_from base l)
    (has_config_change (entries_slice_from base l)) peers n
  = prepare_each clock peers n.
Proof.
  revert n. induction peers as [|p peers IH]; intros n Hwf <- Hb; [done|].
  cbn [prepare_loop prepare_each]. rewrite prepare_shared_is_single; [|done|set_solver].
  pose proof (prepare_frame (clock p).1 (clock p).2 p n) as [v Hv].
  destruct (prepare_append_entries crates (clock p).1 (clock p).2 p n) as [m n']. cbn [snd] in Hv.
  rewrite (IH n'); [done| | |]; rewrite Hv; [done|done|].
  intros q i Hq. apply Hb. set_solver.
Qed.

(** A replication round over one shared log suffix sends every peer exactly
    the message it would get on its own: as long as every peer's next index is
    in the retained log, [replicate_to_all] equals preparing the messages one
    peer at a time, in the same order and with the same state afterwards. *)
Theorem replicate_to_all_is_per_peer clock n :
  node_wf n -> is_leader n = true ->
  (forall p i, p ∈ n_peers n -> n_next_index n !! p = Some i -> next_ok n i) ->
  replicate_to_all crates clock n = prepare_each clock (n_peers n) n.
Proof.
  intros Hwf Hl Hok. unfold replicate_to_all, replicate_to_all_prepared. rewrite Hl. cbn [negb].
  cbv zeta. set (base := default _ _). rewrite (prepare_loop_is_each clock base (n_log n)); [|done|done|].
  - destruct (prepare_each clock (n_peers n) n) as [ms n']. f_equal.
    rewrite <- (map_id ms) at 2. apply map_ext. intros [p m]. by rewrite into_args_id.
  - intros p i Hp Hi. unfold base, min_next_index.
    destruct (min_next_index_le (n_peers n) (n_next_index n) None) as [_ H].
    destruct (H p i Hp Hi) as (b & Hb & Hle). rewrite Hb.
    apply min_next_index_mem in Hb as [|(q & Hq & Hbq)]; [done|]. cbn.
    destruct (Hok q b Hq Hbq). lia.
Qed.

(** ** One round, end to end *)

(** What a leader sends to a peer whose next index is [i]. *)
Lemma prepared_message now mono p i n args n' :
  node_wf n -> n_next_index n !! p = Some i -> next_ok n i ->
  prepare_append_entries crates now mono p n = (Some args, n') ->
  ae_term args = n_current_term n /\ ae_leader_id args = n_id n /\ ae_timestamp_ms args = now
  /\ ae_prev_log_index args = i - 1 /\ contig (i - 1) (ae_entries args)
  /\ ae_entries args = drop (Z.to_nat (i - n_last_snapshot_index n - 1)) (entries (n_log n))
  /\ ae_leader_commit args = committed (n_log n)
  /\ (forall secret, n_cluster_secret n = Some secret ->
        ae_hmac args = Some (compute_append_entries_hmac crates secret args)).
Proof.
  intros Hwf Hi [Hlo Hhi]. pose proof (wf_base _ _ Hwf).
  unfold prepare_append_entries, prepare_append_entries_shared.
  destruct (is_leader n); [|done]. cbn [negb]. rewrite Hi. cbv zeta.
  rewrite Z.leb_refl, Z.sub_diag. cbn [Z.eqb]. rewrite slice_from_wf by done.
  match goal with |- context [if ?g && ?d then _ else _] => destruct g, d end;
    cbn [andb option_map]; [done|..]; intros [= <- <-]; cbn;
    (split_and!; [done|done|done|unfold saturating_sub; lia| |done|done|by intros ? ->]);
    (replace (i - 1) with (n_last_snapshot_index n + Z.of_nat (Z.to_nat (i - n_last_snapshot_index n - 1)))
       by lia; apply contig_drop; [unfold len in *; lia|apply Hwf]).
Qed.

(** The entries of a message agree with what the follower has committed. *)
Definition agrees_committed (es : list LogEntry) (l : RaftLog) : Prop :=
  Forall (fun e => le_index e <= committed l ->
    exists ex, log_get (le_index e) l = Some ex /\ le_term ex = le_term e) es.

Lemma append_loop_total base k es acc n :
  node_wf n -> n_last_snapshot_index n = base ->
  base <= k <= base + len (entries (n_log n)) -> contig k es -> agrees_committed es (n_log n) ->
  exists n' acc', append_loop es acc n = Ok (n', acc').
Proof.
  revert k acc n. induction es as [|e es IH]; intros k acc n Hwf Hb Hk Hc Ha; [by eexists _, _|].
  apply contig_cons in Hc as [He Hc]. inversion Ha as [|? ? Hae Ha']; subst.
  destruct (append_loop_step (n_last_snapshot_index n) k e es acc n Hwf eq_refl Hk He)
    as [(_ & Hle & ex & Hex & Hne)|(n1 & acc1 & E & Hb1 & Hw1 & Hc1 & Hk1 & Hpre1 & _)].
  - destruct (Hae Hle) as (ex' & Hex' & ?). congruence.
  - rewrite E. apply (IH (k + 1)); [unfold node_wf; by rewrite Hb1|done|lia|done|].
    eapply Forall_impl; [exact Ha'|]. intros e' He' Hle. rewrite Hpre1 by lia. apply He'. lia.
Qed.

(** The follower holds the entry before the message, or its snapshot ends there. *)
Definition has_prev (args : AppendEntriesArgs) (n : RaftNode) : Prop :=
  let prev := ae_prev_log_index args in
  (prev = 0 /\ n_last_snapshot_index n = 0)
  \/ (prev = n_last_snapshot_index n /\ ae_prev_log_term args = n_last_snapshot_term n)
  \/ (n_last_snapshot_index n < prev /\
      exists e, log_get prev (n_log n) = Some e /\ le_term e = ae_prev_log_term args).

Lemma prev_log_check_ok args n : node_wf n -> has_prev args n -> prev_log_check args n = None.
Proof.
  intros Hwf Hp. pose proof (wf_base _ _ Hwf). unfold prev_log_check.
  destruct (Z.ltb_spec 0 (ae_prev_log_index args)); [|done].
  destruct Hp as [[? _]|[[E Et]|(Hlt & e & Hg & Ht)]]; [lia| |].
  - rewrite E, Z.ltb_irrefl, Z.eqb_refl, Et. by rewrite Z.eqb_refl.
  - rewrite (proj2 (Z.ltb_ge _ _)), (proj2 (Z.eqb_neq _ _)), Hg, Ht by lia. by rewrite Z.eqb_refl.
Qed.

(** The message reaches the follower authentic: a shared secret, a fresh
    timestamp, a size within the frame limit, and no earlier delivery. *)
Record deliverable (secret : list byte) (now : Z) (args : AppendEntriesArgs)
    (leader follower : RaftNode) : Prop := {
  dl_leader : n_cluster_secret leader = Some secret;
  dl_follower : n_cluster_secret follower = Some secret;
  dl_fresh : fresh now (ae_timestamp_ms args) follower = true;
  dl_frame : frame_fits (len (as_bytes (ae_leader_id args))) (ae_entries args) = true;
  dl_new : (check_and_insert (compute_append_entries_hmac crates secret args) now
              (n_max_message_age_ms follower) (n_replay_cache follower)).1 = false;
}.

Lemma deliverable_verifies secret now args leader follower :
  deliverable secret now args leader follower ->
  ae_hmac args = Some (compute_append_entries_hmac crates secret args) ->
  exists c, verify_append_entries crates now args follower = (true, set_replay_cache c follower).
Proof.
  intros [_ Hs Hf Hfr Hn] Hh. unfold verify_append_entries, admit_mac.
  rewrite Hfr, Hs, Hf, Hh. cbn [negb]. unfold verify_hmac. rewrite bool_decide_eq_true_2 by done.
  cbn [negb]. destruct (check_and_insert _ _ _ _) as [r c]. cbn [fst] in Hn. subst r. by exists c.
Qed.

Lemma become_follower_snapshot t n :
  n_last_snapshot_term (become_follower t n) = n_last_snapshot_term n.
Proof.
  unfold become_follower, persist_hard_state. cbv zeta.
  destruct (_ <? _); cbn; by destruct (n_storage n).
Qed.

Lemma handle_append_success now mono args c n :
  node_wf n -> verify_append_entries crates now args n = (true, set_replay_cache c n) ->
  n_current_term n <= ae_term args -> has_prev args n ->
  0 <= ae_prev_log_index args -> monotonic (ae_entries args) = true ->
  contig (ae_prev_log_index args) (ae_entries args) -> agrees_committed (ae_entries args) (n_log n) ->
  aer_success (handle_append_entries crates now mono args n).1 = true.
Proof.
  intros Hwf Hv Ht Hp H0 Hm Hc Ha. unfold handle_append_entries. rewrite Hv. cbn [negb].
  rewrite (proj2 (Z.ltb_ge _ _)) by done. cbv zeta.
  set (n2 := if _ || _ then _ else _).
  set (n3 := record_heartbeat now mono (set_current_leader_hint (Some (ae_leader_id args)) n2)).
  assert (same_log n n3 /\ n_last_snapshot_term n3 = n_last_snapshot_term n) as [H3 Et3].
  { split.
    - transitivity n2; [|done]. unfold n2. destruct (_ || _); [|done].
      transitivity (set_replay_cache c n); [done|apply become_follower_log].
    - change (n_last_snapshot_term n2 = n_last_snapshot_term n). unfold n2.
      destruct (_ || _); [by rewrite become_follower_snapshot|done]. }
  pose proof (same_log_wf _ _ H3 Hwf) as Hw3. destruct H3 as [El3 Es3].
  assert (has_prev args n3) as Hp3 by (unfold has_prev in *; by rewrite El3, Es3, Et3).
  rewrite prev_log_check_ok, Hm by done. cbn [negb].
  assert (n_last_snapshot_index n3 <= ae_prev_log_index args
    <= n_last_snapshot_index n3 + len (entries (n_log n3))) as Hk.
  { pose proof (len_nonneg (entries (n_log n3))). pose proof (wf_base _ _ Hw3).
    destruct Hp3 as [[? ?]|[[? _]|(? & e & Hg & _)]]; [lia|lia|].
    apply (log_get_Some (n_last_snapshot_index n3)) in Hg as [? _]; [lia|apply Hw3|lia]. }
  destruct (append_loop_total _ _ _ [] n3 Hw3 eq_refl Hk Hc) as (n' & acc & ->); [|done].
  unfold agrees_committed in *. by rewrite El3.
Qed.

Lemma contig_monotonic k es :
  contig k es -> 0 <= k -> k + len es <= u64_max -> monotonic es = true.
Proof.
  revert k. induction es as [|e es IH]; intros k Hc Hk Hm; [done|].
  apply contig_cons in Hc as [He Hc]. rewrite len_cons in Hm. pose proof (len_nonneg es).
  assert (monotonic es = true) as H' by (apply (IH (k + 1)); done || lia).
  destruct es as [|e' es]; [done|]. apply contig_cons in Hc as [He' _]. rewrite len_cons in *.
  pose proof (len_nonneg es). change ((if le_index e' =? u64_succ (le_index e) then monotonic (e' :: es) else false) = true).
  by rewrite He, u64_succ_small, He', Z.eqb_refl by lia.
Qed.

Lemma drop_mem n i j e :
  node_wf n -> n_last_snapshot_index n < i <= j -> log_get j (n_log n) = Some e ->
  le_index e = j /\ e ∈ drop (Z.to_nat (i - n_last_snapshot_index n - 1)) (entries (n_log n)).
Proof.
  intros Hwf Hi Hg. pose proof (wf_base _ _ Hwf).
  apply (log_get_Some (n_last_snapshot_index n)) in Hg as [Hr He]; [|apply Hwf|lia].
  split.
  - pose proof (wf_contig _ _ Hwf _ _ He). lia.
  - apply list_elem_of_lookup. exists (Z.to_nat (j - i)). rewrite lookup_drop, <- He. f_equal. lia.
Qed.

(** Log matching: entries of one index and term are the same in both logs. *)
Definition logs_match (l l' : RaftLog) : Prop :=
  forall j e e', log_get j l = Some e -> log_get j l' = Some e' -> le_term e = le_term e' -> e = e'.


End Messages.

(** ** Witnesses *)

Lemma replicate_to_all_is_per_peer_witness :
  let clock (_ : string) := (5000, 1) in
  length (replicate_to_all demo_crates clock demo_leader).1 = 2%nat
  /\ replicate_to_all demo_crates clock demo_leader
     = prepare_each demo_crates clock (n_peers demo_leader) demo_leader.
Proof.
  intros clock. split; [by vm_compute|].
  apply (replicate_to_all_is_per_peer demo_crates clock demo_leader demo_leader_wf); [by vm_compute|].
  intros p i Hp Hi. assert (i = 1) as ->; [|by vm_compute].
  replace (n_peers demo_leader) with ["n2"; "n3"] in Hp by by vm_compute.
  rewrite !elem_of_cons, elem_of_nil in Hp.
  destruct Hp as [->|[->|[]]]; vm_compute in Hi; by simplify_eq.
Defined.

Definition demo_message : AppendEntriesArgs :=
  default demo_append_args (prepare_append_entries demo_crates 5000 1 "n2" demo_leader).1.

Lemma demo_message_prepared :
  prepare_append_entries demo_crates 5000 1 "n2" demo_leader = (Some demo_message, demo_leader).
Proof. vm_compute. reflexivity. Qed.

