(* ===== verification/RaftSnapshotProofs.v ===== *)
(** * Snapshot installation is safe

    Installing a snapshot keeps the log invariant, moves the snapshot, commit and
    apply indices only forward, and replaces the replicated state only by a
    snapshot at or above the commit index; reassembly buffers stay within the
    size limit; and a snapshot a leader prepares makes a follower's state machine
    equal to the leader's.  Signed replies verify. *)

From coqutil Require Import Byte.
From stdpp Require Import prelude gmap strings list.
From Stdlib Require Import ZArith Lia.
From S2P Require Import Prelude RustStd RaftLog RaftLogProofs RaftStateMachine RaftGuard RaftNode.
From S2P Require Import RaftVoteProofs RaftReplProofs RaftReplicate RaftSnapshot.
Local Open Scope Z_scope.

Lemma discard_beyond_wf base up_to l :
  log_wf base l -> committed l <= up_to ->
  log_wf up_to (discard_through up_to l)
  /\ committed (discard_through up_to l) = up_to /\ applied (discard_through up_to l) = up_to.
Proof.
  intros [Hc Hb Ha Hm] Hu. unfold discard_through.
  assert (forall x, x <= up_to -> (if x <? up_to then up_to else x) = up_to) as E.
  { intros x Hx. destruct (Z.ltb_spec x up_to); lia. }
  rewrite !E by lia. cbn. split; [|done]. split; cbn; [|lia|lia|].
  - rewrite (filter_contig base) by done. unfold len in *.
    destruct (decide (Z.to_nat (up_to - base) <= length (entries l))%nat) as [Hle|Hgt].
    + replace up_to with (base + Z.of_nat (Z.to_nat (up_to - base))) at 1 by lia. by apply contig_drop.
    + rewrite drop_ge by lia. apply contig_nil.
  - pose proof (len_nonneg (filter (fun e => Is_true (up_to <? le_index e)) (entries l))). lia.
Qed.

(** The replicated state: what a snapshot installation may change. *)
Definition same_data (n m : RaftNode) : Prop :=
  same_log n m /\ n_state_machine m = n_state_machine n.

#[global] Instance same_data_preorder : PreOrder same_data.
Proof.
  split; [done|]. intros a b c [? E1] [? E2]. split; [by transitivity b|congruence].
Qed.

Lemma verify_install_data crates now args n :
  same_data n (verify_install_snapshot crates now args n).2.
Proof. unfold verify_install_snapshot, admit_mac. repeat case_match; simplify_eq; done. Qed.

Lemma become_follower_data t n : same_data n (become_follower t n).
Proof.
  unfold become_follower, persist_hard_state. cbv zeta.
  destruct (_ <? _); cbn; by destruct (n_storage n).
Qed.

Lemma committed_guard_data args n m :
  committed_guard args n = Some m -> same_data n m.
Proof. unfold committed_guard. repeat case_match; intros; simplify_eq; done. Qed.

Lemma committed_guard_pass args n :
  committed_guard args n = None -> committed (n_log n) <= is_last_included_index args.
Proof. unfold committed_guard. case_if; bool_to_prop; [|lia]. repeat case_match; done. Qed.

Lemma reassemble_data args n :
  match reassemble args n with Ok (_, m) => same_data n m | Err m => same_data n m end.
Proof. unfold reassemble. cbv zeta. by repeat case_if. Qed.

Lemma sync_machine voters mono n :
  n_state_machine (sync_peers_from_voters voters mono n) = n_state_machine n.
Proof. unfold sync_peers_from_voters. cbv zeta. by destruct (is_leader _). Qed.

(** What [install] does when the bytes parse: [installed snap args n m]. *)
Definition installed (snap : SM.StateMachineSnapshot) (args : InstallSnapshotArgs) (n m : RaftNode)
    : Prop :=
  n_log m = discard_through (is_last_included_index args) (n_log n)
  /\ n_last_snapshot_index m = is_last_included_index args
  /\ n_state_machine m = option_map (SM.restore_from_snapshot snap) (n_state_machine n).

Lemma persist_snapshot_data p n :
  match persist_snapshot p n with Ok m => same_data n m | Err m => same_data n m end.
Proof. unfold persist_snapshot. destruct (n_storage n) as [st|]; [|done]. by destruct (sto_save_snapshot p st) as [[] ?]. Qed.

Lemma restore_machine_data snap n :
  same_log n (restore_machine snap n)
  /\ n_state_machine (restore_machine snap n)
     = option_map (SM.restore_from_snapshot snap) (n_state_machine n).
Proof. unfold restore_machine. by destruct (n_state_machine n) eqn:E; rewrite ?E. Qed.

Lemma persist_truncate_machine a n : n_state_machine (persist_truncate a n) = n_state_machine n.
Proof. unfold persist_truncate. by destruct (n_storage n). Qed.

Lemma compact_restored snap args n :
  installed snap args n (compact_at (is_last_included_index args) (is_last_included_term args)
    (restore_machine snap n)).
Proof. destruct (restore_machine_data snap n) as [[El _] Em]. unfold installed. cbn. by rewrite El. Qed.

Lemma installed_data snap args n n' m :
  same_data n n' -> installed snap args n' m -> installed snap args n m.
Proof. intros [[El _] Em] H. unfold installed in *. by rewrite El, Em in H. Qed.

(** No save of a snapshot fails from here on. *)
Definition snapshot_saves_succeed (n : RaftNode) : Prop :=
  forall st, n_storage n = Some st -> Forall (eq Saved) (sto_snapshot_io st).

Lemma persist_snapshot_failed p n m : persist_snapshot p n = Err m -> ~ snapshot_saves_succeed n.
Proof.
  unfold persist_snapshot, snapshot_saves_succeed. destruct (n_storage n) as [st|]; [|done]. intros E Hs.
  specialize (Hs st eq_refl). unfold sto_save_snapshot in E. destruct (sto_snapshot_io st) as [|o io]; [done|].
  apply Forall_cons in Hs as [<- _]. done.
Qed.

Lemma persist_hard_snapshots n : snapshot_saves_succeed n -> snapshot_saves_succeed (persist_hard_state n).
Proof.
  unfold persist_hard_state, snapshot_saves_succeed. destruct (n_storage n) as [s|] eqn:E; [|by rewrite E].
  intros Hs st [= <-]. specialize (Hs s eq_refl). unfold sto_save_hard_state.
  by destruct (next_outcome (sto_hard_io s)) as [[|] ?].
Qed.

Lemma install_cases crates mono args data n :
  (same_data n (install crates mono args data n)
   /\ (snapshot_from_slice crates data = None \/ ~ snapshot_saves_succeed n))
  \/ exists snap, snapshot_from_slice crates data = Some snap
       /\ installed snap args n (install crates mono args data n).
Proof.
  unfold install. cbv zeta. match goal with |- context [persist_snapshot ?p n] =>
    pose proof (persist_snapshot_data p n) as H1; destruct (persist_snapshot p n) as [n1|n1] eqn:Ep;
      [|apply persist_snapshot_failed in Ep; by left; split; [|right]] end.
  destruct (snapshot_from_slice crates data) as [snap|]; [right|left; by split; [|left]].
  exists snap. split; [done|]. pose proof (compact_restored snap args n1) as Hc.
  set (n2 := compact_at _ _ _) in *. clearbody n2.
  pose proof (sync_log (SM.snap_voters snap) mono n2) as [El Es].
  pose proof (sync_machine (SM.snap_voters snap) mono n2) as Em.
  set (n3 := sync_peers_from_voters _ mono n2) in *. clearbody n3.
  destruct (persist_truncate_log (is_last_included_index args) n3) as [El' Es'].
  pose proof (persist_truncate_machine (is_last_included_index args) n3) as Em'.
  apply (installed_data snap args n n1); [done|]. unfold installed in *.
  by rewrite El', Es', Em', El, Es, Em.
Qed.

(** C31: installing a snapshot is safe.  Whatever the message, the log stays
    well-formed and the snapshot, commit and apply indices never move back; and
    either the log and the state machine are untouched, or the message verified,
    its index is at or above the commit index, and the node now has the log
    compacted at that index and the state machine restored from the bytes. *)
Theorem install_snapshot_safe crates now mono args n :
  node_wf n ->
  let n' := (handle_install_snapshot crates now mono args n).2 in
  node_wf n' /\ n_last_snapshot_index n <= n_last_snapshot_index n'
  /\ committed (n_log n) <= committed (n_log n') /\ applied (n_log n) <= applied (n_log n')
  /\ (same_data n n'
      \/ (verify_install_snapshot crates now args n).1 = true
         /\ committed (n_log n) <= is_last_included_index args
         /\ exists data snap, snapshot_from_slice crates data = Some snap /\ installed snap args n n').
Proof.
  intros Hwf. unfold handle_install_snapshot.
  assert (forall m, same_data n m -> node_wf m /\ n_last_snapshot_index n <= n_last_snapshot_index m
    /\ committed (n_log n) <= committed (n_log m) /\ applied (n_log n) <= applied (n_log m)) as Hsame.
  { intros m [Hm _]. split; [by eapply same_log_wf|]. destruct Hm as [-> ->]. lia. }
  assert (forall m P, same_data n m -> node_wf m /\ n_last_snapshot_index n <= n_last_snapshot_index m
    /\ committed (n_log n) <= committed (n_log m) /\ applied (n_log n) <= applied (n_log m)
    /\ (same_data n m \/ P)) as Hleft.
  { intros m P Hm. destruct (Hsame m Hm) as (? & ? & ? & ?). split_and!; try done. by left. }
  clear Hsame. pose proof (verify_install_data crates now args n) as Hv.
  destruct (verify_install_snapshot crates now args n) as [verified n1]. cbn [snd fst] in *.
  destruct verified; cbn [negb snd]; [|by apply Hleft; transitivity n1].
  case_if; [by apply Hleft; transitivity n1|]. cbv zeta.
  set (n2 := if n_current_term n1 <? is_term args then become_follower (is_term args) n1 else n1).
  assert (same_data n n2) as H2.
  { transitivity n1; [done|]. unfold n2. case_if; [apply become_follower_data|done]. }
  clearbody n2. case_if; [by apply Hleft; transitivity n2|].
  destruct (committed_guard args n2) as [m|] eqn:Eg.
  { cbn [snd]. apply Hleft. transitivity n2; [done|]. by eapply committed_guard_data. }
  apply committed_guard_pass in Eg. pose proof (reassemble_data args n2) as Hr.
  destruct (reassemble args n2) as [[data n3]|m]; cbn [snd]; [|by apply Hleft; transitivity n2].
  assert (same_data n n3) as H3 by by transitivity n2.
  assert (n_log n2 = n_log n) as E2 by apply H2. rewrite E2 in Eg.
  destruct (install_cases crates mono args data n3) as [[Hi _]|(snap & Ep & Hi)].
  { apply Hleft. by transitivity n3. }
  destruct H3 as [[El3 Es3] Em3]. unfold installed in Hi. rewrite El3, Em3 in Hi.
  destruct Hi as (El & Es & Em).
  destruct (discard_beyond_wf _ _ _ Hwf Eg) as (Hw & Hc & Ha).
  pose proof (wf_base _ _ Hwf). pose proof (wf_applied _ _ Hwf).
  unfold node_wf. rewrite El, Es, Hc, Ha. split_and!; [done|lia|lia|lia|].
  right. split_and!; [done|done|]. exists data, snap. unfold installed. by rewrite El.
Qed.

(** ** Reassembly buffers *)

Definition buffers_bounded (n : RaftNode) : Prop :=
  map_Forall (fun _ b => len (cb_data b) <= MAX_INSTALL_SNAPSHOT_BYTES) (n_snapshot_chunk_buffers n).

Lemma reassemble_bounded args n :
  buffers_bounded n ->
  match reassemble args n with
  | Ok (data, m) => buffers_bounded m
      /\ (len (is_data args) <= MAX_INSTALL_SNAPSHOT_BYTES -> len data <= MAX_INSTALL_SNAPSHOT_BYTES)
  | Err m => buffers_bounded m
  end.
Proof.
  intros Hn. unfold reassemble. case_if; [by split|]. cbv zeta.
  match goal with |- context [<[_ := ?b]> _] => set (buf := b) end.
  set (n1 := set_snapshot_chunk_buffers (<[is_leader_id args := buf]> (n_snapshot_chunk_buffers n)) n).
  assert (forall m, n_snapshot_chunk_buffers m = n_snapshot_chunk_buffers n1 ->
    buffers_bounded (set_snapshot_chunk_buffers
      (delete (is_leader_id args) (n_snapshot_chunk_buffers m)) m)) as Hdel.
  { intros m Em. unfold buffers_bounded. cbn. rewrite Em. cbn. rewrite delete_insert_eq.
    by apply map_Forall_delete. }
  case_if; [by apply Hdel|].
  destruct (Z.ltb_spec MAX_INSTALL_SNAPSHOT_BYTES
    (saturating_add (len (cb_data buf)) (len (is_data args)))) as [|Hle]; [by apply Hdel|].
  assert (len (cb_data buf ++ is_data args) <= MAX_INSTALL_SNAPSHOT_BYTES) as Hl.
  { rewrite len_app. unfold saturating_add, u64_max, MAX_INSTALL_SNAPSHOT_BYTES in *. lia. }
  case_if; [|split; [|done]]; unfold buffers_bounded; cbn; rewrite insert_insert_eq.
  - by apply map_Forall_insert_2.
  - rewrite delete_insert_eq. by apply map_Forall_delete.
Qed.

(** The other steps leave the buffers alone. *)
Definition same_buffers (n m : RaftNode) : Prop :=
  n_snapshot_chunk_buffers m = n_snapshot_chunk_buffers n.

Lemma same_buffers_bounded n m : same_buffers n m -> buffers_bounded n -> buffers_bounded m.
Proof. unfold same_buffers, buffers_bounded. by intros ->. Qed.

Lemma verify_install_buffers crates now args n :
  same_buffers n (verify_install_snapshot crates now args n).2.
Proof. unfold verify_install_snapshot, admit_mac. repeat case_match; simplify_eq; done. Qed.

Lemma become_follower_buffers t n : same_buffers n (become_follower t n).
Proof.
  unfold become_follower, persist_hard_state. cbv zeta.
  destruct (_ <? _); cbn; by destruct (n_storage n).
Qed.

Lemma sync_buffers voters mono n : same_buffers n (sync_peers_from_voters voters mono n).
Proof. unfold sync_peers_from_voters. cbv zeta. by destruct (is_leader _). Qed.

Lemma persist_snapshot_buffers p n :
  match persist_snapshot p n with Ok m => same_buffers n m | Err m => same_buffers n m end.
Proof. unfold persist_snapshot. destruct (n_storage n) as [st|]; [|done]. by destruct (sto_save_snapshot p st) as [[] ?]. Qed.

Lemma restore_machine_buffers snap n : same_buffers n (restore_machine snap n).
Proof. unfold restore_machine. by destruct (n_state_machine n). Qed.

Lemma persist_truncate_buffers a n : same_buffers n (persist_truncate a n).
Proof. unfold persist_truncate. by destruct (n_storage n). Qed.

#[global] Instance same_buffers_preorder : PreOrder same_buffers.
Proof. unfold same_buffers. split; [done|]. intros a b c ? ?. congruence. Qed.

Lemma install_buffers crates mono args data n :
  same_buffers n (install crates mono args data n).
Proof.
  unfold install. cbv zeta.
  match goal with |- context [persist_snapshot ?p n] =>
    pose proof (persist_snapshot_buffers p n) as H1; destruct (persist_snapshot p n) as [n1|n1]; [|done] end.
  destruct (snapshot_from_slice crates data) as [snap|]; [|done].
  transitivity n1; [done|]. transitivity (restore_machine snap n1); [apply restore_machine_buffers|].
  generalize (restore_machine snap n1). intros n2.
  transitivity (compact_at (is_last_included_index args) (is_last_included_term args) n2); [done|].
  generalize (compact_at (is_last_included_index args) (is_last_included_term args) n2). intros n3.
  transitivity (sync_peers_from_voters (SM.snap_voters snap) mono n3); [apply sync_buffers|].
  apply persist_truncate_buffers.
Qed.

(** The memory held for chunked snapshots stays bounded: every reassembly
    buffer is at most MAX_INSTALL_SNAPSHOT_BYTES long after any message, if it
    was before. *)
Theorem snapshot_buffers_bounded crates now mono args n :
  buffers_bounded n -> buffers_bounded (handle_install_snapshot crates now mono args n).2.
Proof.
  intros Hn. unfold handle_install_snapshot.
  pose proof (same_buffers_bounded _ _ (verify_install_buffers crates now args n) Hn) as Hv.
  destruct (verify_install_snapshot crates now args n) as [[] n1]; cbn [snd negb] in *; [|done].
  case_if; [done|]. cbv zeta. set (n2 := if n_current_term n1 <? is_term args then _ else _).
  assert (buffers_bounded n2) as H2.
  { unfold n2. case_if; [|done]. by apply (same_buffers_bounded n1), Hv; apply become_follower_buffers. }
  clearbody n2. case_if; [done|]. unfold committed_guard.
  pose proof (reassemble_bounded args n2 H2) as Hr.
  destruct (reassemble args n2) as [[data n3]|m]; repeat case_match; simplify_eq; try done;
    cbn [snd]; eapply same_buffers_bounded, Hr; apply install_buffers.
Qed.

(** ** Transfer of the state *)

(** A prepared snapshot reaches the follower authentic and acceptable. *)
Record snapshot_deliverable (crates : RaftCrates) (secret : list byte) (now : Z)
    (args : InstallSnapshotArgs) (leader follower : RaftNode) : Prop := {
  sdl_leader : n_cluster_secret leader = Some secret;
  sdl_follower : n_cluster_secret follower = Some secret;
  sdl_fresh : fresh now (is_timestamp_ms args) follower = true;
  sdl_size : len (is_data args) <= MAX_INSTALL_SNAPSHOT_BYTES;
  sdl_new : (check_and_insert (compute_install_snapshot_hmac crates secret args) now
               (n_max_message_age_ms follower) (n_replay_cache follower)).1 = false;
  sdl_term : n_current_term follower <= n_current_term leader;
  sdl_hint : n_current_leader_hint follower = None
             \/ n_current_leader_hint follower = Some (n_id leader);
  sdl_ahead : committed (n_log follower) <= is_last_included_index args;
  sdl_saves : snapshot_saves_succeed follower;
}.

Lemma prepared_snapshot crates now n args :
  prepare_install_snapshot crates now n = Some args ->
  exists sm, n_state_machine n = Some sm
    /\ snapshot_to_vec crates (SM.snapshot sm) = Some (is_data args)
    /\ is_term args = n_current_term n /\ is_leader_id args = n_id n
    /\ is_offset args = 0 /\ is_last_chunk args = true /\ is_total_size args = len (is_data args)
    /\ (forall secret, n_cluster_secret n = Some secret ->
          is_hmac args = Some (compute_install_snapshot_hmac crates secret args)).
Proof.
  unfold prepare_install_snapshot. destruct (n_state_machine n) as [sm|]; [|done].
  destruct (snapshot_to_vec crates (SM.snapshot sm)) as [data|] eqn:Ed; [|done]. cbv zeta.
  intros [= <-]. exists sm. destruct (n_cluster_secret n); (split_and!; try done; by intros ? [= <-]).
Qed.

Lemma snapshot_verifies crates secret now args leader follower :
  snapshot_deliverable crates secret now args leader follower ->
  is_hmac args = Some (compute_install_snapshot_hmac crates secret args) ->
  is_total_size args = len (is_data args) ->
  exists c, verify_install_snapshot crates now args follower = (true, set_replay_cache c follower).
Proof.
  intros [_ Hs Hf Hl Hn _ _ _ _] Hh Ht. unfold verify_install_snapshot, admit_mac.
  rewrite Ht, (proj2 (Z.ltb_ge _ _)), Hs, Hf, Hh by done. cbn [negb]. unfold verify_hmac.
  rewrite bool_decide_eq_true_2 by done. cbn [negb].
  destruct (check_and_insert _ _ _ _) as [r c]. cbn [fst] in Hn. subst r. by exists c.
Qed.

Lemma become_follower_hint t n :
  n_current_leader_hint (become_follower t n)
  = if n_current_term n <? t then None else n_current_leader_hint n.
Proof.
  unfold become_follower, persist_hard_state. cbv zeta.
  destruct (_ <? _); cbn; by destruct (n_storage n).
Qed.

(** A snapshot transfer makes the follower's replicated state the leader's.
    When a snapshot the leader prepares reaches a follower authentic, with a term
    that is not older, from the leader the follower knows, and not below its
    commit index, and the follower can save it, then the follower's state machine afterwards equals the
    leader's and its log starts after the snapshot; the JSON encoding is assumed
    to decode to what was encoded. *)
Theorem snapshot_transfer_installs crates secret now now' mono leader follower args sm0 :
  (forall s data, snapshot_to_vec crates s = Some data -> snapshot_from_slice crates data = Some s) ->
  node_wf follower -> n_state_machine follower = Some sm0 ->
  prepare_install_snapshot crates now leader = Some args ->
  snapshot_deliverable crates secret now' args leader follower ->
  let f := (handle_install_snapshot crates now' mono args follower).2 in
  n_state_machine f = n_state_machine leader /\ node_wf f
  /\ n_last_snapshot_index f = is_last_included_index args
  /\ committed (n_log f) = is_last_included_index args.
Proof.
  intros Hjson Hwf Hsm Hprep Hd.
  destruct (prepared_snapshot _ _ _ _ Hprep) as (sm & El & Ed & Et & Eid & Eo & Elc & Ets & Hh).
  destruct (snapshot_verifies _ _ _ _ _ _ Hd (Hh _ (sdl_leader _ _ _ _ _ _ Hd)) Ets) as [c Hv].
  destruct Hd as [_ _ _ _ _ Ht Hhint Hahead Hsv]. unfold handle_install_snapshot. rewrite Hv. cbn [negb].
  change (n_current_term (set_replay_cache c follower)) with (n_current_term follower).
  rewrite (proj2 (Z.ltb_ge _ _)) by lia. cbv zeta.
  set (n2 := if n_current_term follower <? is_term args then _ else _).
  assert (same_data follower n2 /\ (n_current_leader_hint n2 = None
    \/ n_current_leader_hint n2 = Some (n_id leader)) /\ snapshot_saves_succeed n2) as (H2 & Hn2 & Hsv2).
  { unfold n2. case_if; [|done]. split_and!; cycle 2.
    { apply persist_hard_snapshots. by case_if. }
    - transitivity (set_replay_cache c follower); [done|apply become_follower_data].
    - rewrite become_follower_hint. by case_if; [left|]. }
  clearbody n2. replace (match n_current_leader_hint n2 with
    | Some known => negb (String.eqb known (is_leader_id args)) | None => false end) with false.
  2: { destruct Hn2 as [-> | ->]; [done|]. by rewrite Eid, String.eqb_refl. }
  destruct H2 as [[El2 Es2] Em2]. unfold committed_guard. rewrite El2, (proj2 (Z.ltb_ge _ _)) by done.
  unfold reassemble. rewrite Eo, Elc. cbn [andb Z.eqb snd].
  destruct (install_cases crates mono args (is_data args) n2) as [[_ [Hn|Hn]]|(snap & Hp & Hi)].
  { by rewrite (Hjson _ _ Ed) in Hn. }
  { done. }
  rewrite (Hjson _ _ Ed) in Hp. simplify_eq. destruct Hi as (Hlog & Hidx & Hm).
  rewrite El2 in Hlog. rewrite Em2, Hsm in Hm. cbn in Hm. rewrite SM.restore_snapshot in Hm.
  destruct (discard_beyond_wf _ _ _ Hwf Hahead) as (Hw & Hc & _).
  unfold node_wf. rewrite Hlog, Hidx, Hm, Hc. by split_and!.
Qed.

(** ** Witnesses *)

#[global] Instance StateMachineSnapshot_eq_dec : EqDecision SM.StateMachineSnapshot.
Proof. solve_decision. Defined.

Definition demo_sm : SM.Inner := SM.mkInner 2 {["n1"; "n2"; "n3"]} {["k" := [Byte.x01]]}.

(** A codec for one snapshot. *)
Definition demo_codec : RaftCrates :=
  mkCrates (hmac_sha256 demo_crates)
    (fun s => if decide (s = SM.snapshot demo_sm) then Some [Byte.x01] else None)
    (fun d => if decide (d = [Byte.x01]) then Some (SM.snapshot demo_sm) else None).

Definition demo_sender : RaftNode :=
  set_state_machine (Some demo_sm)
    (set_log (mkLog [mkEntry 1 1 Noop; mkEntry 1 2 Noop] 2 2) demo_leader).
Definition demo_receiver : RaftNode := set_state_machine (Some (SM.new [])) (demo_node "n2").
Definition demo_snapshot : InstallSnapshotArgs :=
  default (mkInstallArgs 0 "" 0 0 [] 0 None 0 0 true)
    (prepare_install_snapshot demo_codec 5000 demo_sender).

Lemma install_snapshot_safe_witness :
  committed (n_log (handle_install_snapshot demo_codec 5001 1 demo_snapshot demo_receiver).2) = 2
  /\ node_wf (handle_install_snapshot demo_codec 5001 1 demo_snapshot demo_receiver).2.
Proof.
  split; [by vm_compute|].
  apply (install_snapshot_safe demo_codec 5001 1 demo_snapshot demo_receiver). exact (demo_node_wf "n2").
Defined.

Lemma snapshot_buffers_bounded_witness :
  let chunk := mkInstallArgs 1 "n1" 2 1 [Byte.x01] 5000 None 0 2 false in
  let signed := mkInstallArgs 1 "n1" 2 1 [Byte.x01] 5000
    (Some (compute_install_snapshot_hmac demo_codec demo_secret chunk)) 0 2 false in
  n_snapshot_chunk_buffers (handle_install_snapshot demo_codec 5001 1 signed demo_receiver).2 !! "n1"
    = Some (mkChunkBuffer [Byte.x01] 2 2 1)
  /\ buffers_bounded (handle_install_snapshot demo_codec 5001 1 signed demo_receiver).2.
Proof.
  intros chunk signed. split; [by vm_compute|].
  apply (snapshot_buffers_bounded demo_codec 5001 1 signed demo_receiver). intros k b Hb.
  vm_compute in Hb. discriminate Hb.
Defined.

Lemma snapshot_transfer_installs_witness :
  n_state_machine (handle_install_snapshot demo_codec 5001 1 demo_snapshot demo_receiver).2
  = Some demo_sm.
Proof.
  apply (snapshot_transfer_installs demo_codec demo_secret 5000 5001 1 demo_sender demo_receiver
    demo_snapshot (SM.new [])); [|exact (demo_node_wf "n2")|done|by vm_compute|split; try by vm_compute].
  - intros s data. cbn. case_decide; intros; simplify_eq. by rewrite decide_True.
  - by left.
  - intros st [= <-]. constructor.
Defined.

(** ** Signed replies *)

(** A reply one node signs is accepted by every node with the same cluster
    secret while its timestamp is fresh, for all four kinds of reply, without
    counting as a legacy tag; a node without a secret signs nothing and accepts
    nothing. *)
Theorem signed_replies_verify crates now now' signer verifier :
  n_cluster_secret signer = n_cluster_secret verifier ->
  fresh now' now verifier = true ->
  (is_Some (n_cluster_secret signer) ->
     (forall r, verify_request_vote_reply crates now'
        (sign_request_vote_reply crates now r signer) verifier = (true, verifier))
     /\ (forall r, verify_pre_vote_reply crates now'
        (sign_pre_vote_reply crates now r signer) verifier = (true, verifier))
     /\ (forall r, verify_append_entries_reply crates now'
        (sign_append_entries_reply crates now r signer) verifier = (true, verifier))
     /\ (forall r, verify_install_snapshot_reply crates now'
        (sign_install_snapshot_reply crates now r signer) verifier = (true, verifier)))
  /\ (n_cluster_secret signer = None ->
       (forall r, sign_append_entries_reply crates now r signer = r)
       /\ (forall r, verify_append_entries_reply crates now' r verifier = (false, verifier))).
Proof.
  intros Hs Hf. split.
  - intros [secret E]. rewrite Hs in E.
    unfold verify_request_vote_reply, sign_request_vote_reply, verify_pre_vote_reply,
      sign_pre_vote_reply, verify_append_entries_reply, sign_append_entries_reply,
      verify_install_snapshot_reply, sign_install_snapshot_reply.
    rewrite Hs, E. cbn. rewrite Hf. cbn. unfold verify_hmac.
    by split_and!; intros r; rewrite bool_decide_eq_true_2.
  - intros E. unfold sign_append_entries_reply, verify_append_entries_reply. rewrite <- Hs, E. done.
Qed.

Lemma signed_replies_verify_witness :
  (verify_append_entries_reply demo_crates 5001
     (sign_append_entries_reply demo_crates 5000 (mkAppendReply 1 true 0 None) (demo_node "n2"))
     (demo_node "n1")).1 = true.
Proof.
  destruct (signed_replies_verify demo_crates 5000 5001 (demo_node "n2") (demo_node "n1"))
    as [H _]; [done|by vm_compute|].
  destruct H as (_ & _ & H & _); [by eexists|]. by rewrite H.
Defined.
