(* ===== verification/RaftMacProofs.v ===== *)
(** * What the message authentication codes authenticate

    [mac_input] is the byte string a node authenticates for each kind of message.
    Two messages with the same input are the same message in every field that is
    meant to be authenticated: fields cannot be moved across their boundaries, and
    no message of one kind can be presented as one of another kind. *)

From coqutil Require Import Byte.
From stdpp Require Import prelude gmap strings list.
From Stdlib Require Import ZArith Lia.
From S2P Require Import Prelude RustStd RaftLog RaftLogProofs RaftStateMachine RaftGuard RaftNode.
From S2P Require Import RaftReplicate RaftSnapshot.
Local Open Scope Z_scope.

Inductive RaftMessage : Type :=
| MRequestVote (a : RequestVoteArgs)
| MPreVote (a : PreVoteArgs)
| MAppendEntries (a : AppendEntriesArgs)
| MInstallSnapshot (a : InstallSnapshotArgs)
| MApproval (p : ConfigChangeProposal) (approver_id : string) (timestamp_ms : Z)
| MVoteReply (legacy : bool) (r : RequestVoteReply)
| MPreVoteReply (legacy : bool) (r : PreVoteReply)
| MAppendReply (legacy : bool) (r : AppendEntriesReply)
| MInstallReply (legacy : bool) (r : InstallSnapshotReply).

Definition reply_domain (legacy : bool) (tag sub : byte) : list byte :=
  if legacy then [Byte.x06; sub] else [tag].

(** The input of the HMAC, as the [compute_*_hmac] functions build it. *)
Definition mac_input (m : RaftMessage) : list byte :=
  concat
    match m with
    | MRequestVote a => vote_mac_chunks Byte.x01 a
    | MPreVote a => vote_mac_chunks Byte.x05 a
    | MAppendEntries a => append_mac_chunks a
    | MInstallSnapshot a => install_mac_chunks a
    | MApproval p approver ts => approval_mac_chunks p approver ts
    | MVoteReply legacy r => vote_reply_mac_chunks (reply_domain legacy Byte.x10 Byte.x01) r
    | MPreVoteReply legacy r => vote_reply_mac_chunks (reply_domain legacy Byte.x13 Byte.x05) r
    | MAppendReply legacy r => append_reply_mac_chunks (reply_domain legacy Byte.x11 Byte.x02) r
    | MInstallReply legacy r => install_reply_mac_chunks (reply_domain legacy Byte.x12 Byte.x03) r
    end.

(** The authenticated part of a message: without the tag itself, without the chunk
    descriptor of a snapshot and without the time of a proposal. *)
Definition authenticated (m : RaftMessage) : RaftMessage :=
  match m with
  | MRequestVote a => MRequestVote (mkVoteArgs (rv_term a) (rv_candidate_id a) (rv_last_log_index a)
      (rv_last_log_term a) (rv_timestamp_ms a) None)
  | MPreVote a => MPreVote (mkVoteArgs (rv_term a) (rv_candidate_id a) (rv_last_log_index a)
      (rv_last_log_term a) (rv_timestamp_ms a) None)
  | MAppendEntries a => MAppendEntries (mkAppendArgs (ae_term a) (ae_leader_id a)
      (ae_prev_log_index a) (ae_prev_log_term a) (ae_entries a) (ae_leader_commit a)
      (ae_timestamp_ms a) None)
  | MInstallSnapshot a => MInstallSnapshot (mkInstallArgs (is_term a) (is_leader_id a)
      (is_last_included_index a) (is_last_included_term a) (is_data a) (is_timestamp_ms a) None
      0 0 true)
  | MApproval p approver ts =>
      MApproval (mkProposal (cp_proposal_id p) (cp_node_id p) (cp_action p) 0) approver ts
  | MVoteReply legacy r =>
      MVoteReply legacy (mkVoteReply (rvr_term r) (rvr_vote_granted r) (rvr_timestamp_ms r) None)
  | MPreVoteReply legacy r =>
      MPreVoteReply legacy (mkVoteReply (rvr_term r) (rvr_vote_granted r) (rvr_timestamp_ms r) None)
  | MAppendReply legacy r =>
      MAppendReply legacy (mkAppendReply (aer_term r) (aer_success r) (aer_timestamp_ms r) None)
  | MInstallReply legacy r =>
      MInstallReply legacy (mkInstallReply (isr_term r) (isr_timestamp_ms r) None)
  end.

(** The ranges of the Rust types, and strings whose length prefix does not wrap. *)
Definition fits_string (s : string) : Prop := fits_u32 (as_bytes s).
Definition entry_in_range (e : LogEntry) : Prop :=
  in_u64 (le_index e) /\ in_u64 (le_term e) /\ command_fits (le_command e)
  /\ canonical_byte_len (le_command e) < 2 ^ 32.
Definition in_range (m : RaftMessage) : Prop :=
  match m with
  | MRequestVote a | MPreVote a =>
      in_u64 (rv_term a) /\ fits_string (rv_candidate_id a) /\ in_u64 (rv_last_log_index a)
      /\ in_u64 (rv_last_log_term a) /\ in_u64 (rv_timestamp_ms a)
  | MAppendEntries a =>
      in_u64 (ae_term a) /\ fits_string (ae_leader_id a) /\ in_u64 (ae_prev_log_index a)
      /\ in_u64 (ae_prev_log_term a) /\ in_u64 (ae_leader_commit a) /\ in_u64 (ae_timestamp_ms a)
      /\ len (ae_entries a) < 2 ^ 32 /\ Forall entry_in_range (ae_entries a)
  | MInstallSnapshot a =>
      in_u64 (is_term a) /\ fits_string (is_leader_id a) /\ in_u64 (is_last_included_index a)
      /\ in_u64 (is_last_included_term a) /\ in_u64 (is_timestamp_ms a) /\ fits_u32 (is_data a)
  | MApproval p approver ts =>
      fits_string (cp_proposal_id p) /\ fits_string (cp_node_id p) /\ fits_string approver /\ in_u64 ts
  | MVoteReply _ r | MPreVoteReply _ r => in_u64 (rvr_term r) /\ in_u64 (rvr_timestamp_ms r)
  | MAppendReply _ r => in_u64 (aer_term r) /\ in_u64 (aer_timestamp_ms r)
  | MInstallReply _ r => in_u64 (isr_term r) /\ in_u64 (isr_timestamp_ms r)
  end.

(** ** Splitting fields off a byte stream *)

Lemma be_prefix_free n a b x y :
  0 <= a < 2 ^ (Z.of_nat n * 8) -> 0 <= b < 2 ^ (Z.of_nat n * 8) ->
  to_be_bytes n a ++ x = to_be_bytes n b ++ y -> a = b /\ x = y.
Proof.
  intros Ha Hb E. apply app_inj_1 in E as [El ->]; [|by rewrite !to_be_bytes_length].
  split; [|done]. by apply to_be_bytes_inj in El.
Qed.

Lemma u64_prefix_free a b x y :
  in_u64 a -> in_u64 b -> to_be_bytes 8 a ++ x = to_be_bytes 8 b ++ y -> a = b /\ x = y.
Proof. unfold in_u64. intros. by apply (be_prefix_free 8). Qed.

Lemma string_prefix_free a b x y :
  fits_string a -> fits_string b ->
  to_be_bytes 4 (len (as_bytes a)) ++ as_bytes a ++ x
  = to_be_bytes 4 (len (as_bytes b)) ++ as_bytes b ++ y -> a = b /\ x = y.
Proof. intros Ha Hb E. apply lp_prefix_free in E as [E ->]; [|done..]. by apply as_bytes_inj in E. Qed.

Lemma byte_prefix_free (a b : byte) (x y : list byte) : [a] ++ x = [b] ++ y -> a = b /\ x = y.
Proof. cbn. intros [=]. done. Qed.

(** One entry of a message, and all of them. *)
Definition entry_bytes (e : LogEntry) : list byte :=
  to_be_bytes 8 (le_index e) ++ to_be_bytes 8 (le_term e)
  ++ to_be_bytes 4 (canonical_byte_len (le_command e)) ++ canonical_bytes (le_command e).

Lemma entry_prefix_free a b x y :
  entry_in_range a -> entry_in_range b -> entry_bytes a ++ x = entry_bytes b ++ y -> a = b /\ x = y.
Proof.
  intros (Ha1 & Ha2 & Ha3 & Ha4) (Hb1 & Hb2 & Hb3 & Hb4). unfold entry_bytes.
  rewrite <- !(assoc_L (++)). intros E.
  apply u64_prefix_free in E as [E1 E]; [|done..]. apply u64_prefix_free in E as [E2 E]; [|done..].
  rewrite <- !canonical_bytes_len in *.
  apply (be_prefix_free 4) in E as [_ E];
    [|split; [apply len_nonneg|done]|split; [apply len_nonneg|done]].
  apply canonical_prefix_free in E as [E3 ->]; [|done..]. split; [|done].
  destruct a, b. cbn in *. by subst.
Qed.

Lemma entries_prefix_free es es' x y :
  length es = length es' -> Forall entry_in_range es -> Forall entry_in_range es' ->
  concat (map entry_bytes es) ++ x = concat (map entry_bytes es') ++ y -> es = es' /\ x = y.
Proof.
  revert es'. induction es as [|e es IH]; intros [|e' es'] Hl H H'; [done|done|done|]. cbn.
  inversion H; inversion H'; subst. rewrite <- !(assoc_L (++)). intros E.
  apply entry_prefix_free in E as [-> E]; [|done..].
  apply IH in E as [-> ->]; [done|by injection Hl|done|done].
Qed.

(** ** The inputs as concatenations of fields *)

Lemma concat_mac_update mac c : concat (mac_update mac c) = concat mac ++ c.
Proof. unfold mac_update. rewrite concat_app. cbn. by rewrite app_nil_r. Qed.

Lemma append_mac_bytes a :
  concat (append_mac_chunks a)
  = [Byte.x02] ++ to_be_bytes 8 (ae_term a)
    ++ (to_be_bytes 4 (len (as_bytes (ae_leader_id a))) ++ as_bytes (ae_leader_id a)
    ++ to_be_bytes 8 (ae_prev_log_index a) ++ to_be_bytes 8 (ae_prev_log_term a)
    ++ to_be_bytes 8 (ae_leader_commit a) ++ to_be_bytes 8 (ae_timestamp_ms a)
    ++ to_be_bytes 4 (len (ae_entries a)) ++ concat (map entry_bytes (ae_entries a)) ++ []).
Proof.
  assert (forall es mac,
    concat (foldl (fun mac e =>
      let mac := mac_update mac (to_be_bytes 8 (le_index e)) in
      let mac := mac_update mac (to_be_bytes 8 (le_term e)) in
      let mac := mac_update mac (to_be_bytes 4 (canonical_byte_len (le_command e))) in
      canonical_into_mac (le_command e) mac) mac es)
    = concat mac ++ concat (map entry_bytes es)) as Hfold.
  { induction es as [|e es IH]; intros mac; cbn [foldl map concat]; [by rewrite app_nil_r|].
    rewrite IH. cbv zeta. rewrite canonical_into_mac_bytes, !concat_mac_update. unfold entry_bytes.
    by rewrite <- !(assoc_L (++)). }
  unfold append_mac_chunks. cbv zeta. rewrite Hfold.
  rewrite !concat_mac_update, concat_push_lp_to_mac, !concat_mac_update. unfold push_lp.
  cbn [concat]. rewrite app_nil_r, <- !(assoc_L (++)). done.
Qed.

Definition domain_bytes (m : RaftMessage) : list byte :=
  match m with
  | MRequestVote _ => [Byte.x01]
  | MPreVote _ => [Byte.x05]
  | MAppendEntries _ => [Byte.x02]
  | MInstallSnapshot _ => [Byte.x03]
  | MApproval _ _ _ => [Byte.x04]
  | MVoteReply legacy _ => reply_domain legacy Byte.x10 Byte.x01
  | MPreVoteReply legacy _ => reply_domain legacy Byte.x13 Byte.x05
  | MAppendReply legacy _ => reply_domain legacy Byte.x11 Byte.x02
  | MInstallReply legacy _ => reply_domain legacy Byte.x12 Byte.x03
  end.

Definition lp_bytes (s : string) : list byte := to_be_bytes 4 (len (as_bytes s)) ++ as_bytes s.
Definition bool_byte (b : bool) : byte := if b then Byte.x01 else Byte.x00.
Definition action_byte (a : MembershipAction) : byte :=
  match a with
  | AddNode => Byte.x01 | RemoveNode => Byte.x02 | AddLearner => Byte.x03 | PromoteLearner => Byte.x04
  end.

Definition vote_fields (a : RequestVoteArgs) : list byte :=
  to_be_bytes 8 (rv_term a) ++ lp_bytes (rv_candidate_id a) ++ to_be_bytes 8 (rv_last_log_index a)
  ++ to_be_bytes 8 (rv_last_log_term a) ++ to_be_bytes 8 (rv_timestamp_ms a) ++ [].
Definition reply_fields (term ts : Z) (b : bool) : list byte :=
  to_be_bytes 8 term ++ [bool_byte b] ++ to_be_bytes 8 ts ++ [].

Definition field_bytes (m : RaftMessage) : list byte :=
  match m with
  | MRequestVote a | MPreVote a => vote_fields a
  | MAppendEntries a =>
      to_be_bytes 8 (ae_term a) ++ lp_bytes (ae_leader_id a) ++ to_be_bytes 8 (ae_prev_log_index a)
      ++ to_be_bytes 8 (ae_prev_log_term a) ++ to_be_bytes 8 (ae_leader_commit a)
      ++ to_be_bytes 8 (ae_timestamp_ms a) ++ to_be_bytes 4 (len (ae_entries a))
      ++ concat (map entry_bytes (ae_entries a)) ++ []
  | MInstallSnapshot a =>
      to_be_bytes 8 (is_term a) ++ lp_bytes (is_leader_id a) ++ to_be_bytes 8 (is_last_included_index a)
      ++ to_be_bytes 8 (is_last_included_term a) ++ to_be_bytes 8 (is_timestamp_ms a)
      ++ to_be_bytes 4 (len (is_data a)) ++ is_data a ++ []
  | MApproval p approver ts =>
      lp_bytes (cp_proposal_id p) ++ lp_bytes (cp_node_id p) ++ [action_byte (cp_action p)]
      ++ lp_bytes approver ++ to_be_bytes 8 ts ++ []
  | MVoteReply _ r | MPreVoteReply _ r =>
      reply_fields (rvr_term r) (rvr_timestamp_ms r) (rvr_vote_granted r)
  | MAppendReply _ r => reply_fields (aer_term r) (aer_timestamp_ms r) (aer_success r)
  | MInstallReply _ r => to_be_bytes 8 (isr_term r) ++ to_be_bytes 8 (isr_timestamp_ms r) ++ []
  end.

Lemma mac_input_split m : mac_input m = domain_bytes m ++ field_bytes m.
Proof.
  unfold mac_input. destruct m; cbn [domain_bytes field_bytes];
    [| |rewrite append_mac_bytes; unfold lp_bytes; by rewrite <- !(assoc_L (++))|..];
    unfold vote_mac_chunks, install_mac_chunks, approval_mac_chunks, vote_reply_mac_chunks,
      append_reply_mac_chunks, install_reply_mac_chunks, vote_fields, reply_fields, lp_bytes; cbv zeta;
    repeat (rewrite concat_mac_update || rewrite concat_push_lp_to_mac); unfold push_lp;
    cbn [concat]; rewrite ?app_nil_r, ?app_nil_l, <- ?(assoc_L (++)); done.
Qed.

Lemma domain_separates m1 m2 x y :
  domain_bytes m1 ++ x = domain_bytes m2 ++ y -> domain_bytes m1 = domain_bytes m2 /\ x = y.
Proof.
  destruct m1 as [| | | | |[]|[]|[]|[]], m2 as [| | | | |[]|[]|[]|[]]; cbn;
    intros E; first [discriminate E | by injection E].
Qed.

(** ** The fields determine the message *)

(** Split the leading field off both sides of an equality of field sequences. *)
Ltac peel E :=
  unfold lp_bytes in E; rewrite <- ?(assoc_L (++)) in E;
  repeat lazymatch type of E with
    | to_be_bytes 8 _ ++ _ = to_be_bytes 8 _ ++ _ =>
        apply u64_prefix_free in E as [? E]; [|assumption..]
    | to_be_bytes 4 (len (as_bytes _)) ++ as_bytes _ ++ _ = _ =>
        apply string_prefix_free in E as [? E]; [|assumption..]
    | [_] ++ _ = [_] ++ _ => apply byte_prefix_free in E as [? E]
    end.

Lemma vote_fields_inj a b :
  in_range (MRequestVote a) -> in_range (MRequestVote b) -> vote_fields a = vote_fields b ->
  authenticated (MRequestVote a) = authenticated (MRequestVote b).
Proof.
  intros (? & ? & ? & ? & ?) (? & ? & ? & ? & ?) E. unfold vote_fields in E. peel E. cbn. congruence.
Qed.

Lemma bool_byte_inj a b : bool_byte a = bool_byte b -> a = b.
Proof. by destruct a, b. Qed.
Lemma action_byte_inj a b : action_byte a = action_byte b -> a = b.
Proof. by destruct a, b. Qed.

Lemma reply_fields_inj t t' ts ts' b b' :
  in_u64 t -> in_u64 t' -> in_u64 ts -> in_u64 ts' ->
  reply_fields t ts b = reply_fields t' ts' b' -> t = t' /\ ts = ts' /\ b = b'.
Proof. intros ? ? ? ? E. unfold reply_fields in E. peel E. split_and!; [done..|by apply bool_byte_inj]. Qed.

Lemma append_fields_inj a b :
  in_range (MAppendEntries a) -> in_range (MAppendEntries b) ->
  field_bytes (MAppendEntries a) = field_bytes (MAppendEntries b) ->
  authenticated (MAppendEntries a) = authenticated (MAppendEntries b).
Proof.
  intros (? & ? & ? & ? & ? & ? & Hl & He) (? & ? & ? & ? & ? & ? & Hl' & He') E.
  cbn [field_bytes] in E. peel E.
  apply (be_prefix_free 4) in E as [El E]; [|by split; [apply len_nonneg|]..].
  apply entries_prefix_free in E as [Ee _]; [|unfold len in El; lia|done|done].
  cbn. congruence.
Qed.

Lemma install_fields_inj a b :
  in_range (MInstallSnapshot a) -> in_range (MInstallSnapshot b) ->
  field_bytes (MInstallSnapshot a) = field_bytes (MInstallSnapshot b) ->
  authenticated (MInstallSnapshot a) = authenticated (MInstallSnapshot b).
Proof.
  intros (? & ? & ? & ? & ? & ?) (? & ? & ? & ? & ? & ?) E. cbn [field_bytes] in E. peel E.
  apply lp_prefix_free in E as [Ed _]; [|done..]. cbn. congruence.
Qed.

Lemma approval_fields_inj p ap ts p' ap' ts' :
  in_range (MApproval p ap ts) -> in_range (MApproval p' ap' ts') ->
  field_bytes (MApproval p ap ts) = field_bytes (MApproval p' ap' ts') ->
  authenticated (MApproval p ap ts) = authenticated (MApproval p' ap' ts').
Proof.
  intros (? & ? & ? & ?) (? & ? & ? & ?) E. cbn [field_bytes] in E. peel E.
  assert (cp_action p = cp_action p') by by apply action_byte_inj. cbn. congruence.
Qed.

(** C30: the MAC input determines the message.  Two messages with the same HMAC
    input are of the same kind and agree in every authenticated field: requests,
    replies (current and legacy tags) and approvals cannot be confused with each
    other, and no field or log entry can be re-split.  Not covered: the chunk
    descriptor of a snapshot and the time of a proposal, which are outside the
    input. *)
Theorem mac_input_determines_message m1 m2 :
  in_range m1 -> in_range m2 -> mac_input m1 = mac_input m2 -> authenticated m1 = authenticated m2.
Proof.
  intros H1 H2 E. rewrite !mac_input_split in E. apply domain_separates in E as [Ed E].
  destruct m1 as [| | | | |[]|[]|[]|[]], m2 as [| | | | |[]|[]|[]|[]]; try discriminate Ed; clear Ed;
    cbn [field_bytes] in E.
  6-11: destruct H1, H2; apply reply_fields_inj in E as (? & ? & ?); [|done..]; cbn; congruence.
  6-7: destruct H1, H2; peel E; cbn; congruence.
  - by apply vote_fields_inj.
  - assert (authenticated (MRequestVote a) = authenticated (MRequestVote a0)) as Ea
      by by apply vote_fields_inj. cbn in *. congruence.
  - by apply append_fields_inj.
  - by apply install_fields_inj.
  - by apply approval_fields_inj.
Qed.

Lemma mac_input_determines_message_witness :
  let a := mkVoteArgs 1 "n1" 7 1 5000 None in
  let b := mkVoteArgs 1 "n1" 7 1 5000 (Some [Byte.x00]) in
  authenticated (MRequestVote a) = authenticated (MRequestVote b).
Proof.
  intros a b. apply mac_input_determines_message; [by vm_compute|by vm_compute|by vm_compute].
Defined.
