(* ===== verification/RaftGaps.v ===== *)
(** * Where the replication code departs from Raft

    Behaviours of [raft.rs] that the replication theorems have to exclude by a
    hypothesis, or that weaken what they say: the commit rule in clusters of even
    size, what compaction does to the numbering of new entries and to the
    persisted log, a message that starts before a compacted prefix, and replies
    that are counted twice; and what snapshot transfer leaves unauthenticated or
    persists too early.  Each is stated for every node that meets the listed
    conditions, not only for one example. *)

From coqutil Require Import Byte.
From stdpp Require Import prelude gmap strings list sorting.
From Stdlib Require Import ZArith Lia.
From S2P Require Import Prelude RustStd RaftLog RaftLogProofs RaftStateMachine RaftGuard RaftNode.
From S2P Require Import RaftVoteProofs RaftReplProofs RaftReplicate RaftReplicateProofs.
From S2P Require Import RaftSnapshot RaftSnapshotProofs.
Local Open Scope Z_scope.

(** In a cluster of two the median of the match indices is the leader's own last
    index: the leader commits an entry that no other member holds. *)
Theorem two_node_leader_commits_alone n p e :
  n_peers n = [p] -> default 0 (n_match_index n !! p) = 0 ->
  log_get (last_index (n_log n)) (n_log n) = Some e -> le_term e = n_current_term n ->
  0 <= committed (n_log n) < last_index (n_log n) ->
  committed (n_log (advance_commit_index n)) = last_index (n_log n)
  /\ replicas (last_index (n_log n)) n = 1 /\ quorum_size n = 2.
Proof.
  intros Hp Hm Hg Ht Hc. unfold advance_commit_index, replicas, quorum_size, len.
  rewrite Hp. cbn [map app]. rewrite Hm. set (last := last_index (n_log n)) in *.
  assert (merge_sort Z.le [0; last] = [0; last]) as ->.
  { unfold merge_sort. cbn. by rewrite decide_True by lia. }
  cbv zeta. cbn [length Nat.div Nat.divmod fst]. change ([0; last] !! 1%nat) with (Some last).
  unfold default, id, from_option.
  rewrite (proj2 (Z.ltb_lt (committed (n_log n)) last)), Hg by lia.
  rewrite Ht, Z.eqb_refl. unfold commit. fold last. cbn [n_log set_log].
  rewrite (proj2 (Z.ltb_lt _ _)), Z.leb_refl by lia. cbn [andb committed].
  rewrite filter_cons_False, filter_cons_True, filter_nil by lia. done.
Qed.

Lemma two_node_leader_commits_alone_witness :
  let n := set_peers ["n2"] (set_match_index ∅ demo_leader) in
  committed (n_log (advance_commit_index n)) = 2 /\ replicas 2 n < quorum_size n.
Proof.
  intros n. destruct (two_node_leader_commits_alone n "n2" (mkEntry 1 2 Noop)) as (Hc & Hr & Hq);
    [by vm_compute..|]. split; [exact Hc|]. change 2 with (last_index (n_log n)). rewrite Hr, Hq. done.
Defined.

(** ** Compaction *)

Record snapshot_due (crates : RaftCrates) (n : RaftNode) : Prop := {
  sd_wf : node_wf n;
  sd_interval : 0 < n_snapshot_interval n;
  sd_due : (n_last_snapshot_index n + n_snapshot_interval n) mod 2 ^ 64 <= applied (n_log n);
  sd_saves : snapshot_saves_succeed n;
  sd_machine : exists sm data, n_state_machine n = Some sm
                 /\ snapshot_to_vec crates (SM.snapshot sm) = Some data;
}.

Lemma maybe_snapshot_due crates n :
  snapshot_due crates n ->
  let n' := maybe_snapshot crates n in
  n_log n' = discard_through (applied (n_log n)) (n_log n)
  /\ n_last_snapshot_index n' = applied (n_log n)
  /\ is_leader n' = is_leader n /\ n_peers n' = n_peers n
  /\ (n_storage n = None -> n_storage n' = None)
  /\ (forall st, n_storage n = Some st -> exists p,
        n_storage n' = Some (sto_truncate_log_after (applied (n_log n)) (sto_save_snapshot p st).2).2).
Proof.
  intros [_ Hi Hd Hsv (sm & data & Em & Ed)]. unfold maybe_snapshot.
  rewrite (proj2 (Z.eqb_neq _ _)), (proj2 (Z.ltb_ge _ _)), Em, Ed by lia.
  destruct (n_storage n) as [st|] eqn:Es; [|by split_and!]. cbv zeta. specialize (Hsv st Es).
  match goal with |- context [sto_save_snapshot ?p st] => set (q := p);
    destruct (sto_save_snapshot q st) as [ok st1] eqn:E1 end.
  assert (ok = true) as ->.
  { unfold sto_save_snapshot in E1. destruct (sto_snapshot_io st) as [|o io]; cbn in E1; [by simplify_eq|].
    apply Forall_cons in Hsv as [<- _]. by simplify_eq. }
  split_and!; try done. intros st' [= <-]. exists q. by rewrite E1.
Qed.

(** After a compaction that leaves the log empty, the next command a leader
    accepts gets index 1: [last_index] forgets the snapshot.  The index was
    used before, it is at or below the commit index, and the log is no longer
    contiguous with the snapshot. *)
Theorem compaction_restarts_numbering crates mono c n :
  snapshot_due crates n -> is_leader n = true -> n_peers n <> [] ->
  0 < applied (n_log n) -> applied (n_log n) = n_last_snapshot_index n + len (entries (n_log n)) ->
  let n' := submit_command mono c (maybe_snapshot crates n) in
  n'.1 = Some 1 /\ log_get 1 (n_log n'.2) = Some (mkEntry (n_current_term (maybe_snapshot crates n)) 1 c)
  /\ 1 <= committed (n_log n'.2) /\ ~ node_wf n'.2.
Proof.
  intros Hd Hl Hp H0 Happ n'. destruct (maybe_snapshot_due crates n Hd) as (El & Es & Hl' & Hp' & _).
  destruct Hd as [Hwf _ _ _ _]. pose proof (wf_base _ _ Hwf). pose proof (wf_applied _ _ Hwf).
  destruct (discard_through_wf _ (applied (n_log n)) _ Hwf) as (_ & Ee & Ec & _); [lia|].
  unfold len in *. rewrite drop_ge in Ee by lia.
  unfold n', submit_command. set (m := maybe_snapshot crates n) in *. clearbody m.
  rewrite Hl', Hl. cbn [negb]. cbv zeta.
  assert (u64_succ (last_index (n_log m)) = 1) as ->. { unfold last_index. by rewrite El, Ee. }
  set (e := mkEntry _ _ _).
  set (m' := persist_appended [e] (set_log (append e (n_log m)) m)).
  assert (n_peers m' = n_peers m /\ n_log m' = append e (n_log m)
    /\ n_last_snapshot_index m' = n_last_snapshot_index m) as (Epe & Elo & Esn).
  { unfold m', persist_appended. by destruct (n_storage _). }
  rewrite bool_decide_eq_false_2 by (rewrite Epe, Hp'; done). cbn [fst snd].
  rewrite Elo, El. unfold append, log_get. rewrite Ee. cbn [entries app committed].
  split_and!; [done|done|lia|].
  intros [Hc _ _ _]. rewrite Elo, Esn, El, Es in Hc. unfold append in Hc. rewrite Ee in Hc.
  cbn [entries app] in Hc. apply contig_cons in Hc as [Hc _]. cbn in Hc. lia.
Qed.

Definition demo_compacting : RaftNode :=
  set_snapshot_interval 1 (set_state_machine (Some (SM.mkInner 1 {["n1"]} ∅))
    (set_log (mkLog [mkEntry 1 1 Noop] 1 1) demo_leader)).

Lemma demo_compacting_due : snapshot_due demo_crates demo_compacting.
Proof.
  split; [|done|by vm_compute|by intros st [= <-]|].
  - split; try done. cbn. apply contig_cons. split; [done|]. apply contig_nil.
  - eexists _, _. by split.
Qed.

Lemma compaction_restarts_numbering_witness :
  (submit_command 0 Noop (maybe_snapshot demo_crates demo_compacting)).1 = Some 1.
Proof.
  apply (compaction_restarts_numbering demo_crates 0 Noop demo_compacting demo_compacting_due);
    by vm_compute.
Defined.

(** Taking a snapshot deletes from the store every entry above the snapshot
    ([truncate_log_after] keeps the indices at or below its argument), while the
    node keeps them in memory: an entry that was persisted and acknowledged is
    gone after a restart. *)
Theorem snapshot_drops_persisted_tail crates n st i e :
  snapshot_due crates n -> n_storage n = Some st -> st_log (sto_contents st) = entries (n_log n) ->
  sto_log_io st = [] ->
  applied (n_log n) < i -> log_get i (n_log n) = Some e ->
  let n' := maybe_snapshot crates n in
  e ∈ st_log (sto_contents st) /\ log_get i (n_log n') = Some e
  /\ exists st', n_storage n' = Some st' /\ Forall (fun e' => le_index e' < i) (st_log (sto_contents st')).
Proof.
  intros Hd Es Hsync Hio Hi Hg n'. destruct (maybe_snapshot_due crates n Hd) as (El & _ & _ & _ & _ & Hst).
  destruct Hd as [Hwf _ _ _ _]. pose proof (wf_base _ _ Hwf).
  split_and!.
  - rewrite Hsync. rewrite (log_get_wf (n_last_snapshot_index n)) in Hg by (apply Hwf || lia).
    case_match; [|done]. by eapply list_elem_of_lookup_2.
  - unfold n'. rewrite El. rewrite (discard_through_get (n_last_snapshot_index n)); try done; lia.
  - destruct (Hst st Es) as [p Ep]. eexists. split; [exact Ep|].
    assert (sto_log_io (sto_save_snapshot p st).2 = []) as E.
    { unfold sto_save_snapshot. by destruct (next_outcome _) as [[|] ?]. }
    unfold sto_truncate_log_after, sto_update_log. rewrite E. cbn [next_outcome snd sto_contents st_log truncate_log_after].
    apply Forall_forall. intros e' [He%Is_true_true _]%list_elem_of_filter. apply Z.leb_le in He. lia.
Qed.

(** A message whose prev_log_index is 0 skips the consistency check even on a
    node that has compacted its log; the entries below the snapshot are not
    found and are appended after the newer ones. *)
Theorem zero_prev_appends_below_snapshot args e n :
  node_wf n -> 0 < n_last_snapshot_index n -> ae_prev_log_index args = 0 ->
  ae_entries args = [e] -> le_index e = 1 ->
  prev_log_check args n = None
  /\ exists n', append_loop (ae_entries args) [] n = Ok (n', [e])
       /\ entries (n_log n') = entries (n_log n) ++ [e] /\ ~ node_wf n'.
Proof.
  intros Hwf Hs Hp He Hi. split; [unfold prev_log_check; by rewrite Hp|].
  rewrite He. cbn [append_loop]. rewrite Hi.
  rewrite (log_get_wf (n_last_snapshot_index n)) by (apply Hwf || lia).
  rewrite (proj2 (Z.ltb_ge _ _)) by lia. cbn [andb]. eexists. split_and!; [done|done|].
  intros [Hc _ _ _]. cbn in Hc. apply contig_app in Hc as [_ [Hc _]%contig_cons].
  pose proof (len_nonneg (entries (n_log n))). lia.
Qed.

(** ** Replies *)

(** The fields that decide what a reply does. *)
Record reply_view (n m : RaftNode) : Prop := {
  rw_secret : n_cluster_secret m = n_cluster_secret n;
  rw_age : n_max_message_age_ms m = n_max_message_age_ms n;
  rw_skew : n_max_future_skew_ms m = n_max_future_skew_ms n;
  rw_legacy : n_accept_legacy_reply_hmac_tags m = n_accept_legacy_reply_hmac_tags n;
  rw_term : n_current_term m = n_current_term n;
  rw_machine : n_state_machine m = n_state_machine n;
}.

Lemma verify_reply_frame crates now r n :
  let m := (verify_append_entries_reply crates now r n).2 in
  reply_view n m /\ n_next_index m = n_next_index n /\ n_match_index m = n_match_index n.
Proof. unfold verify_append_entries_reply. by repeat case_match. Qed.

Lemma verify_reply_view crates now r n m :
  reply_view n m ->
  (verify_append_entries_reply crates now r m).1 = (verify_append_entries_reply crates now r n).1.
Proof.
  intros [E1 E2 E3 E4 _ _]. unfold verify_append_entries_reply, fresh. rewrite E1, E2, E3, E4.
  by repeat case_match.
Qed.

Lemma advance_view n :
  reply_view n (advance_commit_index n) /\ n_next_index (advance_commit_index n) = n_next_index n
  /\ n_match_index (advance_commit_index n) = n_match_index n.
Proof. by destruct (advance_cases n) as [->|(i & -> & _)]. Qed.

Lemma reply_success_step crates now mono backoff p reply k ni n :
  (verify_append_entries_reply crates now reply n).1 = true ->
  n_state_machine n = None -> aer_success reply = true -> aer_term reply <= n_current_term n ->
  n_next_index n !! p = Some ni -> 1 <= ni -> 0 <= k -> ni + k <= u64_max ->
  let m := handle_append_entries_reply crates now mono backoff p reply k n in
  reply_view n m /\ n_next_index m !! p = Some (ni + k) /\ n_match_index m !! p = Some (ni - 1 + k).
Proof.
  intros Hv Hsm Hok Ht Hni H1 Hk Hmax. unfold handle_append_entries_reply.
  pose proof (verify_reply_frame crates now reply n) as Hf.
  destruct (verify_append_entries_reply crates now reply n) as [b n1]. cbn [fst snd] in Hv, Hf.
  destruct Hf as ([] & En & _). subst b. cbn [negb].
  rewrite rw_term0, (proj2 (Z.ltb_ge _ _)), Hok, En, Hni by lia.
  replace (saturating_add (saturating_sub ni 1) k) with (ni - 1 + k)
    by (unfold saturating_add, saturating_sub; lia).
  replace (saturating_add (ni - 1 + k) 1) with (ni + k) by (unfold saturating_add; lia).
  match goal with |- context [advance_commit_index ?x] => set (n2 := x) end.
  destruct (advance_view n2) as ([] & En2 & Em2). set (n3 := advance_commit_index n2) in *.
  assert (n_state_machine n3 = None) as Hn3 by (rewrite rw_machine1; cbn; congruence).
  assert (maybe_snapshot crates (apply_committed mono n3) = n3) as ->.
  { unfold apply_committed. rewrite Hn3. unfold maybe_snapshot. rewrite Hn3. by repeat case_if. }
  rewrite En2, Em2. cbn [n_next_index n_match_index n2 set_match_index set_next_index].
  rewrite !lookup_insert_eq. split_and!; [|done|done]. split; cbn in *; congruence.
Qed.

(** Replies are not matched with requests and not deduplicated: the same verified
    reply, processed twice, counts its entries twice. *)
Theorem duplicate_reply_counts_twice crates now mono backoff p reply k ni n :
  (verify_append_entries_reply crates now reply n).1 = true ->
  n_state_machine n = None -> aer_success reply = true -> aer_term reply <= n_current_term n ->
  n_next_index n !! p = Some ni -> 1 <= ni -> 0 <= k -> ni + 2 * k <= u64_max ->
  let handle := handle_append_entries_reply crates now mono backoff p reply k in
  n_match_index (handle n) !! p = Some (ni - 1 + k)
  /\ n_match_index (handle (handle n)) !! p = Some (ni - 1 + 2 * k).
Proof.
  intros Hv Hsm Hok Ht Hni H1 Hk Hmax handle.
  destruct (reply_success_step crates now mono backoff p reply k ni n) as (Hw & Hn & Hm); try done; [lia|].
  split; [exact Hm|].
  destruct (reply_success_step crates now mono backoff p reply k (ni + k) (handle n)) as (_ & _ & Hm');
    [by rewrite (verify_reply_view _ _ _ _ _ Hw)|by etransitivity; [exact (rw_machine _ _ Hw)|]|done
    |pose proof (rw_term _ _ Hw) as E; fold handle in E; lia|exact Hn|lia|lia|lia|].
  etransitivity; [exact Hm'|]. f_equal. lia.
Qed.

(** ** The shared suffix *)

(** When one peer has fallen behind the leader's snapshot, the shared suffix of a
    replication round starts later than its nominal base, and the offsets of the
    other peers are taken from the wrong place: the message for a peer that is
    inside the log skips entries, its first entry does not follow prev_log_index. *)
Theorem lagging_peer_shifts_batch crates now mono p base i cc n m n' :
  node_wf n -> n_next_index n !! p = Some i -> base <= n_last_snapshot_index n < i ->
  prepare_append_entries_shared crates now mono p base (entries_slice_from base (n_log n)) cc n
    = (Some m, n') ->
  ae_prev_log_index m = i - 1
  /\ ae_entries m = drop (Z.to_nat (i - base)) (entries (n_log n))
  /\ (forall e, head (ae_entries m) = Some e -> i < le_index e).
Proof.
  intros Hwf Hi Hb. pose proof (wf_base _ _ Hwf).
  assert (entries_slice_from base (n_log n) = entries (n_log n)) as ->.
  { unfold entries_slice_from. destruct (entries (n_log n)) as [|e es] eqn:Ee; [done|].
    pose proof (wf_contig _ _ Hwf) as Hc. rewrite Ee in Hc. apply contig_cons in Hc as [He _].
    cbn [partition_point]. by rewrite (proj2 (Z.ltb_ge _ _)) by lia. }
  unfold prepare_append_entries_shared. destruct (is_leader n); [|done]. cbn [negb]. rewrite Hi.
  cbv zeta. rewrite (proj2 (Z.leb_le _ _)), (proj2 (Z.eqb_neq _ _)) by lia.
  assert ((if len (entries (n_log n)) <=? i - base then []
           else drop (Z.to_nat (i - base)) (entries (n_log n)))
          = drop (Z.to_nat (i - base)) (entries (n_log n))) as ->.
  { destruct (Z.leb_spec (len (entries (n_log n))) (i - base)); [|done].
    unfold len in *. by rewrite drop_ge by lia. }
  assert (forall e, head (drop (Z.to_nat (i - base)) (entries (n_log n))) = Some e -> i < le_index e) as Hhd.
  { intros e. rewrite head_lookup, lookup_drop. intros He.
    rewrite (wf_contig _ _ Hwf _ _ He). lia. }
  match goal with |- context [if ?g && ?d then _ else _] => destruct g, d end;
    cbn [andb]; [done|..]; intros [= <- <-]; cbn [ae_prev_log_index ae_entries];
    (split_and!; [unfold saturating_sub; lia|done|exact Hhd]).
Qed.

(** ** Snapshot transfer *)

(** Bytes that do not parse are written to the store before they are parsed: the
    node refuses them and keeps its state, but the persisted snapshot it would
    restart from is now the unusable one. *)
Theorem unparsable_snapshot_is_persisted crates mono args data n st :
  snapshot_from_slice crates data = None -> n_storage n = Some st -> sto_snapshot_io st = [] ->
  let n' := install crates mono args data n in
  same_data n n'
  /\ option_map (fun s => st_snapshot (sto_contents s)) (n_storage n')
     = Some (Some (mkPersisted (is_last_included_index args) (is_last_included_term args) [] data)).
Proof.
  intros Hp Hs Hio n'. split.
  - destruct (install_cases crates mono args data n) as [[H _]|(? & H & _)]; [done|congruence].
  - unfold n', install. rewrite Hp. unfold persist_snapshot, sto_save_snapshot. by rewrite Hs, Hio.
Qed.

(** The chunk descriptor is outside the MAC, and the offset of a chunk is only
    compared with zero: messages that differ in the descriptor carry the same
    tag, and chunks are concatenated in the order they arrive. *)
Theorem chunk_descriptor_unauthenticated crates secret args offset total last :
  compute_install_snapshot_hmac crates secret args
  = compute_install_snapshot_hmac crates secret
      (mkInstallArgs (is_term args) (is_leader_id args) (is_last_included_index args)
         (is_last_included_term args) (is_data args) (is_timestamp_ms args) (is_hmac args)
         offset total last)
  /\ forall n, is_offset args <> 0 -> offset <> 0 ->
       reassemble args n
       = reassemble (mkInstallArgs (is_term args) (is_leader_id args) (is_last_included_index args)
           (is_last_included_term args) (is_data args) (is_timestamp_ms args) (is_hmac args)
           offset (is_total_size args) (is_last_chunk args)) n.
Proof.
  split; [done|]. intros n H1 H2. unfold reassemble. cbn [is_offset is_last_chunk is_data is_leader_id
    is_total_size is_last_included_index is_last_included_term].
  by rewrite (proj2 (Z.eqb_neq _ _) H1), (proj2 (Z.eqb_neq _ _) H2).
Qed.

(** ** Saves that fail *)

(** A voter whose saves of the hard state fail and leave the file as it was. *)
Definition lossy_voter : RaftNode :=
  set_storage (Some (mkAttached InMemoryStorage_new
    [SaveFailed InMemoryStorage_new; SaveFailed InMemoryStorage_new] [] [])) (demo_node "n2").

Definition signed_vote_args (candidate : string) : RequestVoteArgs :=
  let args := mkVoteArgs 1 candidate 0 0 5000 None in
  mkVoteArgs 1 candidate 0 0 5000 (Some (compute_request_vote_hmac demo_crates demo_secret args)).

Definition lossy_voted : RaftNode := (handle_request_vote demo_crates 5001 (signed_vote_args "n1") lossy_voter).2.
Definition lossy_restarted : RaftNode :=
  attach_storage demo_crates (mkAttached InMemoryStorage_new [] [] []) 0 (demo_node "n2").

Lemma granted_step n args n' :
  (handle_request_vote demo_crates 5001 args n).2 = n' ->
  rvr_vote_granted (handle_request_vote demo_crates 5001 args n).1 = true ->
  node_step demo_crates n (Some (rv_term args, rv_candidate_id args)) n'.
Proof.
  destruct (handle_request_vote demo_crates 5001 args n) as [reply m] eqn:E. cbn [fst snd]. intros <- Hg.
  pose proof (step_vote demo_crates _ _ _ _ _ E) as Hs. by rewrite Hg in Hs.
Qed.

(** A failed save of the hard state is only logged, and the vote is granted all the same:
    after a restart the node votes for another candidate in the same term. *)
Theorem lost_vote_is_cast_again :
  persisted lossy_voter /\ exists n, vote_run demo_crates lossy_voter [(1, "n3"); (1, "n1")] n.
Proof.
  split; [by intros st [= <-]|].
  exists (handle_request_vote demo_crates 5001 (signed_vote_args "n3") lossy_restarted).2.
  apply (run_step _ _ [(1, "n1")] lossy_restarted (Some (1, "n3"))).
  2: { apply (granted_step _ (signed_vote_args "n3")); [done|by vm_compute]. }
  apply (run_step _ _ [(1, "n1")] lossy_voted None).
  2: { unfold lossy_restarted. apply step_restart; by vm_compute. }
  apply (run_step _ _ [] lossy_voter (Some (1, "n1"))); [apply run_start|].
  apply (granted_step _ (signed_vote_args "n1")); [done|by vm_compute].
Qed.
