(* ===== verification/RaftFile.v ===== *)
(** * The file backend of the Raft storage ([craton-hsm-cluster/src/storage.rs])

    [FileStorage] keeps the hard state, the log (one JSON document per line), an index of
    the log's byte offsets and the snapshot with its authentication footer.  A file is
    its bytes, a directory the record [Disk]; a file that does not exist is [None].
    Every call of the operating system can fail where its [..Io] argument says so, and a
    write can stop after any number of bytes, so that the disk after a failed call is
    also the disk after a crash at that point.  Writes reach the disk in the order of the
    calls.  [serde_json] and HMAC-SHA256 are [StorageCrates]. *)

From stdpp Require Import prelude strings list.
From Stdlib Require Import ZArith Lia.
From coqutil Require Import Byte Word.LittleEndianList.
From S2P Require Import Prelude RustStd RaftLog RaftStateMachine.
Local Open Scope rust_scope.
Local Open Scope string_scope.
Local Open Scope list_scope.
Local Open Scope Z_scope.

Class StorageCrates := {
  entry_to_json : LogEntry -> option (list byte);
  entry_from_json : list byte -> option LogEntry;
  entries_from_json : list byte -> option (list LogEntry);
  hard_to_json : HardState -> option (list byte);
  hard_from_json : list byte -> option HardState;
  snapshot_to_json : PersistedSnapshot -> option (list byte);
  snapshot_from_json : list byte -> option PersistedSnapshot;
  hmac_sha256 : list byte -> list byte -> list byte;
}.

(** The texts of I/O and codec errors come from outside and are left out. *)
Inductive StorageError : Type := Io | Codec | SnapshotIntegrityFailure (msg : string).

Record Disk : Type := mkDisk {
  d_hard : option (list byte);
  d_log : option (list byte);
  d_idx : option (list byte);
  d_snap : option (list byte);
  d_legacy : option (list byte);
}.

Definition put_hard (x : list byte) (d : Disk) : Disk :=
  mkDisk (Some x) (d_log d) (d_idx d) (d_snap d) (d_legacy d).
Definition put_log (x : list byte) (d : Disk) : Disk :=
  mkDisk (d_hard d) (Some x) (d_idx d) (d_snap d) (d_legacy d).
Definition put_idx (x : list byte) (d : Disk) : Disk :=
  mkDisk (d_hard d) (d_log d) (Some x) (d_snap d) (d_legacy d).
Definition put_snap (x : list byte) (d : Disk) : Disk :=
  mkDisk (d_hard d) (d_log d) (d_idx d) (Some x) (d_legacy d).
Definition remove_legacy (d : Disk) : Disk :=
  mkDisk (d_hard d) (d_log d) (d_idx d) (d_snap d) None.

(** The fields of [FileStorage] besides the directory and the lock. *)
Record FileStorage : Type := mkFile {
  fs_snapshot_key : option (list byte);
  fs_allow_insecure : bool;
}.

Definition MAX_LOG_ENTRY_BYTES : Z := 16 * 1024 * 1024.
Definition MAX_SNAPSHOT_BYTES : Z := 1024 * 1024 * 1024.
Definition LOG_INDEX_RECORD_LEN : Z := 24.
Definition SNAPSHOT_MAGIC : list byte := as_bytes "CRATON-SNAP-v1" ++ [Byte.x00; Byte.x00].
Definition SNAPSHOT_FOOTER_LEN : Z := 16 + 8 + 8 + 8 + 32.
Definition SNAPSHOT_DOMAIN_TAG : list byte := as_bytes "snapshot-v1".

Definition NEWLINE : byte := Byte.x0a.

(** [str::lines] and [BufRead::lines]: a line ends at a newline, without a carriage return
    before it; what follows the last newline is a line if it is not empty. *)
Fixpoint file_lines (bs : list byte) : list (list byte) :=
  match bs with
  | [] => []
  | b :: r =>
      if bool_decide (b = NEWLINE) then [] :: file_lines r
      else if bool_decide (b = Byte.x0d /\ head r = Some NEWLINE) then file_lines r
      else match file_lines r with
           | l :: ls => (b :: l) :: ls
           | [] => [[b]]
           end
  end.

Definition u64_bytes (z : Z) : list byte := le_split 8 z.
Definition u64_at (bs : list byte) (off : Z) : Z := le_combine (take 8 (drop (Z.to_nat off) bs)).

(** One record of the sidecar index. *)
Definition idx_record (e : LogEntry) (off : Z) : list byte :=
  u64_bytes (le_index e) ++ u64_bytes (le_term e) ++ u64_bytes off.

(** [File::set_len] *)
Definition set_len (n : Z) (bs : list byte) : list byte :=
  take (Z.to_nat n) bs ++ replicate (Z.to_nat n - length bs) Byte.x00.

(** [write_atomic]: the new contents, or an error and the old contents. *)
Definition write_atomic (ok : bool) (bytes : list byte) (set : list byte -> Disk -> Disk) (d : Disk)
    : result unit StorageError * Disk :=
  if ok then (Ok tt, set bytes d) else (Err Io, d).

Section Storage.
Context {SC : StorageCrates}.

Definition derive_snapshot_key (cluster_secret : list byte) : list byte :=
  hmac_sha256 cluster_secret SNAPSHOT_DOMAIN_TAG.

Definition compute_snapshot_tag (key payload : list byte) (index term : Z) : list byte :=
  hmac_sha256 key (SNAPSHOT_MAGIC ++ u64_bytes (len payload) ++ u64_bytes index ++ u64_bytes term ++ payload).

(** [read_to_string] and the lines of the result. *)
Definition read_lines (ok : bool) (content : list byte) : result (list (list byte)) StorageError :=
  if ok && utf8_valid content then Ok (file_lines content) else Err Io.

Definition count_log_entries (opened : bool) (log : list byte) : result Z StorageError :=
  if negb opened then Ok 0
  else try ls := read_lines true log in Ok (len (filter (fun l => l <> []) ls)).

(** A line of the log: [None] for an empty one. *)
Definition parse_entry_line (line : list byte) : result (option LogEntry) StorageError :=
  if bool_decide (line = []) then Ok None
  else if MAX_LOG_ENTRY_BYTES <? len line then Err Codec
  else match entry_from_json line with Some e => Ok (Some e) | None => Err Codec end.

(** ** Opening *)

(** The scan of [reconcile_log_index]: offset and index so far. *)
Fixpoint rebuild_loop (ls : list (list byte)) (cur_offset : Z) (idx_buf : list byte)
    : result (list byte) StorageError :=
  match ls with
  | [] => Ok idx_buf
  | line :: rest =>
      try parsed := parse_entry_line line in
      match parsed with
      | None => rebuild_loop rest (saturating_add cur_offset 1) idx_buf
      | Some e =>
          rebuild_loop rest (saturating_add (saturating_add cur_offset (len line)) 1)
            (idx_buf ++ idx_record e cur_offset)
      end
  end.

(** Whether each system call of [open] succeeds; a torn [write] stops after so many bytes. *)
Record OpenIo : Type := mkOpenIo {
  oi_create_dir : bool;
  oi_legacy_read : bool;
  oi_legacy_write : option nat;
  oi_legacy_remove : bool;
  oi_log_meta : bool;
  oi_idx_meta : bool;
  oi_idx_read : bool;
  oi_count_open : bool;
  oi_idx_meta2 : bool;
  oi_log_open : bool;
  oi_idx_write : bool;
}.

Definition idx_last_offset (idx : list byte) : Z := u64_at idx (len idx - LOG_INDEX_RECORD_LEN + 16).

(** The cheap consistency check of the index. *)
Definition idx_looks_ok (io : OpenIo) (log_len : Z) (d : Disk) : bool :=
  match d_idx d with
  | Some idx =>
      oi_idx_meta io && negb (len idx =? 0) && (len idx mod LOG_INDEX_RECORD_LEN =? 0)
      && oi_idx_read io && (idx_last_offset idx <? log_len)
  | None => false
  end.

(** The log is decoded as a whole; where the count could not open the file, an invalid byte
    after a malformed line is [Io] here and [Codec] in the line-by-line reader. *)
Definition reconcile_log_index (io : OpenIo) (d : Disk) : result unit StorageError * Disk :=
  match d_log d with
  | None => (Ok tt, d)
  | Some log =>
      if negb (oi_log_meta io) then (Err Io, d)
      else
        match count_log_entries (oi_count_open io) log with
        | Err e => (Err e, d)
        | Ok actual_entry_count =>
            if idx_looks_ok io (len log) d && oi_idx_meta2 io
               && (len (default [] (d_idx d)) / LOG_INDEX_RECORD_LEN =? actual_entry_count)
            then (Ok tt, d)
            else if negb (oi_log_open io) then (Err Io, d)
            else
              match (try ls := read_lines true log in rebuild_loop ls 0 []) with
              | Err e => (Err e, d)
              | Ok idx_buf => write_atomic (oi_idx_write io) idx_buf put_idx d
              end
        end
  end.

(** The lines of a list of entries; [None] if one is not serialised. *)
Fixpoint render_entries (es : list LogEntry) : option (list byte) :=
  match es with
  | [] => Some []
  | e :: es =>
      line ← entry_to_json e;
      rest ← render_entries es;
      Some (line ++ [NEWLINE] ++ rest)
  end.

Definition migrate_legacy_log (io : OpenIo) (d : Disk) : result unit StorageError * Disk :=
  match d_legacy d, d_log d with
  | Some bytes, None =>
      if negb (oi_legacy_read io) then (Err Io, d)
      else match entries_from_json bytes with
           | None => (Err Codec, d)
           | Some entries =>
               match render_entries entries with
               | None => (Err Codec, d)
               | Some buf =>
                   match oi_legacy_write io with
                   | Some n => (Err Io, put_log (take n buf) d)
                   | None =>
                       let d := put_log buf d in
                       (Ok tt, if oi_legacy_remove io then remove_legacy d else d)
                   end
               end
           end
  | _, _ => (Ok tt, d)
  end.

Definition open_storage (io : OpenIo) (d : Disk) : result FileStorage StorageError * Disk :=
  if negb (oi_create_dir io) then (Err Io, d)
  else
    match migrate_legacy_log io d with
    | (Err e, d) => (Err e, d)
    | (Ok _, d) =>
        match reconcile_log_index io d with
        | (Err e, d) => (Err e, d)
        | (Ok _, d) => (Ok (mkFile None false), d)
        end
    end.

Definition with_cluster_secret (cluster_secret : list byte) (s : FileStorage) : FileStorage :=
  mkFile (Some (derive_snapshot_key cluster_secret)) (fs_allow_insecure s).

Definition allow_insecure (yes : bool) (s : FileStorage) : FileStorage :=
  mkFile (fs_snapshot_key s) yes.

(** ** Hard state *)

Definition load_hard_state_file (read_ok : bool) (d : Disk) : result HardState StorageError :=
  match d_hard d with
  | None => Ok (mkHard 0 None)
  | Some bytes =>
      if negb read_ok then Err Io
      else match hard_from_json bytes with Some h => Ok h | None => Err Codec end
  end.

Definition save_hard_state_file (ok : bool) (state : HardState) (d : Disk) : result unit StorageError * Disk :=
  match hard_to_json state with
  | None => (Err Codec, d)
  | Some bytes => write_atomic ok bytes put_hard d
  end.

(** ** Log *)

(** The loop of [load_log]. *)
Fixpoint parse_lines (ls : list (list byte)) : result (list LogEntry) StorageError :=
  match ls with
  | [] => Ok []
  | line :: rest =>
      try parsed := parse_entry_line line in
      try entries := parse_lines rest in
      Ok (option_list parsed ++ entries)
  end.

Definition load_log_file (read_ok : bool) (d : Disk) : result (list LogEntry) StorageError :=
  match d_log d with
  | None => Ok []
  | Some content => try ls := read_lines read_ok content in parse_lines ls
  end.

(** System calls of [append_log]: [ap_write k] is [Some n] if the write of the [k]th entry
    fails after [n] bytes. *)
Record AppendIo : Type := mkAppendIo {
  ap_open : bool;
  ap_seek : bool;
  ap_idx_open : bool;
  ap_write : nat -> option nat;
  ap_sync : bool;
  ap_idx_write : option nat;
  ap_idx_sync : bool;
}.

(** The loop over the entries: the log so far and the records for the index. *)
Fixpoint append_entries (write : nat -> option nat) (indexed : bool) (es : list LogEntry)
    (cur_offset : Z) (log idx_records : list byte) : result (list byte) StorageError * list byte :=
  match es with
  | [] => (Ok idx_records, log)
  | e :: es =>
      match entry_to_json e with
      | None => (Err Codec, log)
      | Some line =>
          if MAX_LOG_ENTRY_BYTES <? len line then (Err Codec, log)
          else
            let idx_records := if indexed then idx_records ++ idx_record e cur_offset else idx_records in
            match write O with
            | Some n => (Err Io, log ++ take n (line ++ [NEWLINE]))
            | None =>
                append_entries (fun k => write (S k)) indexed es
                  (saturating_add (saturating_add cur_offset (len line)) 1)
                  (log ++ line ++ [NEWLINE]) idx_records
            end
      end
  end.

Definition append_log_file (io : AppendIo) (entries : list LogEntry) (d : Disk)
    : result unit StorageError * Disk :=
  match entries with
  | [] => (Ok tt, d)
  | _ :: _ =>
      if negb (ap_open io) then (Err Io, d)
      else
        let log := default [] (d_log d) in
        let d := put_log log d in
        if negb (ap_seek io) then (Err Io, d)
        else
          let d := if ap_idx_open io then put_idx (default [] (d_idx d)) d else d in
          match append_entries (ap_write io) (ap_idx_open io) entries (len log) log [] with
          | (Err e, log) => (Err e, put_log log d)
          | (Ok idx_records, log) =>
              let d := put_log log d in
              if negb (ap_sync io) then (Err Io, d)
              else if ap_idx_open io && negb (bool_decide (idx_records = [])) then
                let idx := default [] (d_idx d) in
                match ap_idx_write io with
                | Some n => (Err Io, put_idx (idx ++ take n idx_records) d)
                | None =>
                    let d := put_idx (idx ++ idx_records) d in
                    if ap_idx_sync io then (Ok tt, d) else (Err Io, d)
                end
              else (Ok tt, d)
          end
  end.

(** The walk over the records: the first one beyond [after]. *)
Fixpoint find_record (idx : list byte) (after : Z) (i : Z) (num_records : nat) : option (Z * Z) :=
  match num_records with
  | O => None
  | S n =>
      let off := i * LOG_INDEX_RECORD_LEN in
      if after <? u64_at idx off then Some (u64_at idx (off + 16), off)
      else find_record idx after (i + 1) n
  end.

Definition lookup_truncate_offsets (idx_read_ok log_meta_ok : bool) (after : Z) (d : Disk) : option (Z * Z) :=
  match d_idx d, d_log d with
  | Some idx, Some log =>
      if negb idx_read_ok then None
      else if (len idx =? 0) || negb (len idx mod LOG_INDEX_RECORD_LEN =? 0) then None
      else if negb log_meta_ok then None
      else if len log <=? idx_last_offset idx then None
      else match find_record idx after 0 (Z.to_nat (len idx / LOG_INDEX_RECORD_LEN)) with
           | Some cuts => Some cuts
           | None => Some (len log, len idx)
           end
  | _, _ => None
  end.

Record TruncateIo : Type := mkTruncateIo {
  tr_idx_read : bool;
  tr_log_meta : bool;
  tr_log_open : bool;
  tr_log_set_len : bool;
  tr_log_sync : bool;
  tr_idx_open : bool;
  tr_idx_set_len : bool;
  tr_idx_sync : bool;
  tr_read : bool;
  tr_log_write : bool;
  tr_idx_write : bool;
}.

(** Both files cut at the given lengths. *)
Definition truncate_fast (io : TruncateIo) (log_cut_off idx_cut_off : Z) (log : list byte) (d : Disk)
    : result unit StorageError * Disk :=
  if negb (tr_log_open io && tr_log_set_len io) then (Err Io, d)
  else
    let d := put_log (set_len log_cut_off log) d in
    if negb (tr_log_sync io) then (Err Io, d)
    else match d_idx d with
         | None => (Ok tt, d)
         | Some idx =>
             if negb (tr_idx_open io && tr_idx_set_len io) then (Err Io, d)
             else
               let d := put_idx (set_len idx_cut_off idx) d in
               if tr_idx_sync io then (Ok tt, d) else (Err Io, d)
         end.

(** The new log and index of the slow path. *)
Fixpoint render_with_index (es : list LogEntry) (buf idx_buf : list byte) : option (list byte * list byte) :=
  match es with
  | [] => Some (buf, idx_buf)
  | e :: es =>
      line ← entry_to_json e;
      render_with_index es (buf ++ line ++ [NEWLINE]) (idx_buf ++ idx_record e (len buf))
  end.

Definition truncate_slow (io : TruncateIo) (after : Z) (log : list byte) (d : Disk)
    : result unit StorageError * Disk :=
  match (try ls := read_lines (tr_read io) log in parse_lines ls) with
  | Err e => (Err e, d)
  | Ok entries =>
      match render_with_index (filter (fun e => Is_true (le_index e <=? after)) entries) [] [] with
      | None => (Err Codec, d)
      | Some (buf, idx_buf) =>
          match write_atomic (tr_log_write io) buf put_log d with
          | (Err e, d) => (Err e, d)
          | (Ok _, d) => write_atomic (tr_idx_write io) idx_buf put_idx d
          end
      end
  end.

Definition truncate_log_after_file (io : TruncateIo) (after : Z) (d : Disk) : result unit StorageError * Disk :=
  match d_log d with
  | None => (Ok tt, d)
  | Some log =>
      match lookup_truncate_offsets (tr_idx_read io) (tr_log_meta io) after d with
      | Some (log_cut_off, idx_cut_off) => truncate_fast io log_cut_off idx_cut_off log d
      | None => truncate_slow io after log d
      end
  end.

(** ** Snapshots *)

Definition unauthenticated_refusal (verb : string) : StorageError :=
  SnapshotIntegrityFailure ("no cluster_secret configured and allow_insecure=false — refusing to " +:+ verb).

Definition save_snapshot_file (ok : bool) (snapshot : PersistedSnapshot) (s : FileStorage) (d : Disk)
    : result unit StorageError * Disk :=
  match snapshot_to_json snapshot with
  | None => (Err Codec, d)
  | Some payload =>
      if MAX_SNAPSHOT_BYTES <? saturating_add (len payload) SNAPSHOT_FOOTER_LEN then (Err Codec, d)
      else
        let index := ps_last_index snapshot in
        let term := ps_last_term snapshot in
        let tag :=
          match fs_snapshot_key s, fs_allow_insecure s with
          | Some k, _ => Ok (compute_snapshot_tag k payload index term)
          | None, true => Ok (replicate 32 Byte.x00)
          | None, false => Err (unauthenticated_refusal "persist an unauthenticated snapshot")
          end in
        match tag with
        | Err e => (Err e, d)
        | Ok tag =>
            write_atomic ok
              (payload ++ SNAPSHOT_MAGIC ++ u64_bytes (len payload) ++ u64_bytes index ++ u64_bytes term ++ tag)
              put_snap d
        end
  end.

(** The authentication of a footer. *)
Definition check_snapshot_tag (s : FileStorage) (payload file_tag : list byte) (decl_index decl_term : Z)
    : result unit StorageError :=
  match fs_snapshot_key s, fs_allow_insecure s with
  | Some k, _ =>
      if bool_decide (compute_snapshot_tag k payload decl_index decl_term = file_tag) then Ok tt
      else Err (SnapshotIntegrityFailure "snapshot HMAC tag mismatch")
  | None, true =>
      if forallb (fun b => bool_decide (b = Byte.x00)) file_tag then Ok tt
      else Err (SnapshotIntegrityFailure "authenticated snapshot rejected by insecure loader")
  | None, false => Err (unauthenticated_refusal "load snapshot")
  end.

Definition load_snapshot_file (meta_ok read_ok : bool) (s : FileStorage) (d : Disk)
    : result (option PersistedSnapshot) StorageError :=
  match d_snap d with
  | None => Ok None
  | Some bytes =>
      if negb meta_ok then Err Io
      else if MAX_SNAPSHOT_BYTES <? len bytes then Err Codec
      else if negb read_ok then Err Io
      else if len bytes <? SNAPSHOT_FOOTER_LEN then
        Err (SnapshotIntegrityFailure "snapshot file truncated or missing authentication footer")
      else
        let footer_start := Z.to_nat (len bytes - SNAPSHOT_FOOTER_LEN) in
        let footer := drop footer_start bytes in
        let payload := take footer_start bytes in
        let decl_len := u64_at footer 16 in
        let decl_index := u64_at footer 24 in
        let decl_term := u64_at footer 32 in
        let file_tag := take 32 (drop 40 footer) in
        if negb (bool_decide (take 16 footer = SNAPSHOT_MAGIC)) then
          Err (SnapshotIntegrityFailure "snapshot magic mismatch (legacy or cross-version file?)")
        else if negb (decl_len =? len payload) then
          Err (SnapshotIntegrityFailure "snapshot footer length does not match payload length")
        else
          try _ := check_snapshot_tag s payload file_tag decl_index decl_term in
          match snapshot_from_json payload with
          | None => Err Codec
          | Some snap =>
              if negb (ps_last_index snap =? decl_index) || negb (ps_last_term snap =? decl_term) then
                Err (SnapshotIntegrityFailure "footer index/term disagrees with payload")
              else Ok (Some snap)
          end
  end.

End Storage.
