(* ===== verification/RaftFileProofs.v ===== *)
(** * The file backend: correctness

    [FileStorage] implements the in-memory storage; failed and interrupted calls leave a disk
    from which [open] recovers, except for a torn line; snapshots load only with
    the tag of their own contents. *)

From stdpp Require Import prelude strings list sorting.
From Stdlib Require Import ZArith Lia Sorted.
From coqutil Require Import Byte Word.LittleEndianList.
From S2P Require Import Prelude RustStd RaftLog RaftStateMachine RaftFile.
Local Open Scope rust_scope.
Local Open Scope string_scope.
Local Open Scope list_scope.
Local Open Scope Z_scope.

(** ** Text *)

Lemma utf8_chars_app_some n a b :
  (length a <= n)%nat -> is_Some (utf8_chars a) -> is_Some (utf8_chars b) -> is_Some (utf8_chars (a ++ b)).
Proof.
  revert a. induction n as [|n IH]; intros a Hl Ha Hb; [by destruct a; [|simpl in Hl; lia]|].
  assert (forall (x : Z) r, (length r <= n)%nat -> is_Some (cons x <$> utf8_chars r) ->
    is_Some (cons x <$> utf8_chars (r ++ b))) as Hrec.
  { intros x r Hr Hs. apply fmap_is_Some. apply fmap_is_Some in Hs. by apply IH. }
  assert (forall P : Prop, is_Some (@None (list Z)) -> P) as Hno by (intros P [? ?]; done).
  destruct a as [|b0 r0]; [done|]. cbn [utf8_chars app length] in *.
  case_match; [apply Hrec; [lia|done]|]. destruct r0 as [|b1 r1]; [by apply Hno|]. cbn [app length] in *.
  case_match; [case_match; [apply Hrec; [lia|done]|by apply Hno]|].
  destruct r1 as [|b2 r2]; [by apply Hno|]. cbn [app length] in *.
  case_match; [case_match; [apply Hrec; [lia|done]|by apply Hno]|].
  destruct r2 as [|b3 r3]; [by apply Hno|]. cbn [app length] in *.
  case_match; [apply Hrec; [lia|done]|by apply Hno].
Qed.

Lemma utf8_valid_app a b : utf8_valid a = true -> utf8_valid b = true -> utf8_valid (a ++ b) = true.
Proof.
  unfold utf8_valid. intros Ha Hb.
  destruct (utf8_chars_app_some (length a) a b) as [x ->]; [done|..|done];
    [by destruct (utf8_chars a)|by destruct (utf8_chars b)].
Qed.

(** A line without line breaks, followed by a newline. *)
Lemma file_lines_cons line rest :
  NEWLINE ∉ line -> Byte.x0d ∉ line -> file_lines (line ++ NEWLINE :: rest) = line :: file_lines rest.
Proof.
  induction line as [|b line IH]; intros Hn Hc; cbn [app file_lines]; [done|].
  rewrite bool_decide_eq_false_2 by set_solver. rewrite bool_decide_eq_false_2 by set_solver.
  by rewrite IH by set_solver.
Qed.

Lemma file_lines_last line : NEWLINE ∉ line -> line <> [] -> file_lines line = [line].
Proof.
  induction line as [|b line IH]; intros Hn Hne; [done|]. cbn [file_lines].
  rewrite bool_decide_eq_false_2 by set_solver.
  rewrite bool_decide_eq_false_2 by (intros [_ Hh]; destruct line; [done|]; simplify_eq/=; set_solver).
  destruct line as [|c line]; [done|]. by rewrite IH by set_solver.
Qed.

(** ** Machine words *)

Lemma u64_bytes_len v : len (u64_bytes v) = 8.
Proof. unfold len, u64_bytes. by rewrite length_le_split. Qed.

Lemma u64_at_app pre v post :
  in_u64 v -> u64_at (pre ++ u64_bytes v ++ post) (len pre) = v.
Proof.
  intros Hv. unfold u64_at, len. rewrite Nat2Z.id, drop_app_length.
  rewrite take_app_le by (unfold u64_bytes; by rewrite length_le_split).
  rewrite take_ge by (unfold u64_bytes; by rewrite length_le_split).
  unfold u64_bytes. rewrite le_combine_split. by apply Z.mod_small.
Qed.

Section Files.
Context {SC : StorageCrates}.

(** ** What the files hold *)

Definition line_of (e : LogEntry) : list byte := default [] (entry_to_json e).

(** An entry that the codec writes as one line and reads back, within the limits. *)
Record codec_ok (e : LogEntry) : Prop := {
  co_json : entry_to_json e = Some (line_of e);
  co_back : entry_from_json (line_of e) = Some e;
  co_nonempty : line_of e <> [];
  co_newline : NEWLINE ∉ line_of e;
  co_return : Byte.x0d ∉ line_of e;
  co_utf8 : utf8_valid (line_of e) = true;
  co_len : len (line_of e) <= MAX_LOG_ENTRY_BYTES;
  co_index : in_u64 (le_index e);
  co_term : in_u64 (le_term e);
}.

Definition log_text (es : list LogEntry) : list byte := concat (map (fun e => line_of e ++ [NEWLINE]) es).

Fixpoint idx_text (es : list LogEntry) (off : Z) : list byte :=
  match es with
  | [] => []
  | e :: es => idx_record e off ++ idx_text es (off + len (line_of e) + 1)
  end.

Lemma log_text_app es es' : log_text (es ++ es') = log_text es ++ log_text es'.
Proof. unfold log_text. by rewrite map_app, concat_app. Qed.

Lemma log_text_cons e es : log_text (e :: es) = line_of e ++ NEWLINE :: log_text es.
Proof. unfold log_text. cbn. by rewrite <- app_assoc. Qed.

Lemma log_text_snoc_len es e : len (log_text (es ++ [e])) = len (log_text es) + len (line_of e) + 1.
Proof. rewrite log_text_app, len_app, log_text_cons, len_app, len_cons. cbn. change (len []) with 0. lia. Qed.

Lemma idx_text_app es es' off :
  idx_text (es ++ es') off = idx_text es off ++ idx_text es' (off + len (log_text es)).
Proof.
  revert off. induction es as [|e es IH]; intros off; cbn [app idx_text].
  { change (len (log_text [])) with 0. by rewrite Z.add_0_r. }
  rewrite IH, log_text_cons, len_app, len_cons, <- app_assoc. do 3 f_equal. lia.
Qed.

Lemma idx_record_len e off : len (idx_record e off) = LOG_INDEX_RECORD_LEN.
Proof. unfold idx_record. by rewrite !len_app, !u64_bytes_len. Qed.

Lemma idx_text_len es off : len (idx_text es off) = LOG_INDEX_RECORD_LEN * len es.
Proof.
  revert off. induction es as [|e es IH]; intros off; cbn [idx_text]; [done|].
  rewrite len_app, idx_record_len, IH, len_cons. unfold LOG_INDEX_RECORD_LEN. lia.
Qed.

Lemma file_lines_text es rest :
  Forall codec_ok es -> file_lines (log_text es ++ rest) = map line_of es ++ file_lines rest.
Proof.
  induction 1 as [|e es He _ IH]; [done|]. rewrite log_text_cons. cbn [map app].
  rewrite <- app_assoc, <- app_comm_cons, file_lines_cons, IH by apply He. done.
Qed.

Lemma file_lines_all es : Forall codec_ok es -> file_lines (log_text es) = map line_of es.
Proof. intros H. rewrite <- (app_nil_r (log_text es)), file_lines_text by done. apply app_nil_r. Qed.

Lemma utf8_text es : Forall codec_ok es -> utf8_valid (log_text es) = true.
Proof.
  induction 1 as [|e es He _ IH]; [done|]. rewrite log_text_cons. apply utf8_valid_app; [apply He|].
  change (NEWLINE :: log_text es) with ([NEWLINE] ++ log_text es). by apply utf8_valid_app.
Qed.

Lemma parse_line_ok e : codec_ok e -> parse_entry_line (line_of e) = Ok (Some e).
Proof.
  intros He. unfold parse_entry_line. rewrite bool_decide_eq_false_2 by apply He.
  destruct (Z.ltb_spec MAX_LOG_ENTRY_BYTES (len (line_of e))); [pose proof (co_len e He); lia|].
  by rewrite (co_back e He).
Qed.

Lemma parse_lines_app es ls :
  Forall codec_ok es -> parse_lines (map line_of es ++ ls) = (try rest := parse_lines ls in Ok (es ++ rest)).
Proof.
  induction 1 as [|e es He _ IH]; cbn [map app parse_lines]; [by destruct (parse_lines ls)|].
  rewrite (parse_line_ok e He). cbn [result_bind]. rewrite IH. by destruct (parse_lines ls).
Qed.

Lemma count_text es rest :
  Forall codec_ok es -> utf8_valid rest = true ->
  count_log_entries true (log_text es ++ rest) = Ok (len es + len (filter (fun l => l <> []) (file_lines rest))).
Proof.
  intros H Hu. unfold count_log_entries, read_lines. rewrite utf8_valid_app by (by try apply utf8_text). cbn.
  rewrite file_lines_text, filter_app, len_app by done. do 2 f_equal. unfold len. f_equal. clear Hu.
  induction H as [|e es He _ IH]; [done|]. cbn [map]. rewrite filter_cons_True by apply He. cbn. by rewrite IH.
Qed.

Lemma rebuild_text es ls off buf :
  Forall codec_ok es -> 0 <= off -> off + len (log_text es) <= u64_max ->
  rebuild_loop (map line_of es ++ ls) off buf = rebuild_loop ls (off + len (log_text es)) (buf ++ idx_text es off).
Proof.
  intros H. revert off buf. induction H as [|e es He _ IH]; intros off buf Hoff Hmax; cbn [map app rebuild_loop idx_text].
  { change (len (log_text [])) with 0. by rewrite app_nil_r, Z.add_0_r. }
  rewrite (parse_line_ok e He). cbn [result_bind]. rewrite log_text_cons, len_app, len_cons in *.
  pose proof (len_nonneg (line_of e)). pose proof (len_nonneg (log_text es)).
  unfold saturating_add at 2. rewrite Z.min_l by lia. unfold saturating_add. rewrite Z.min_l by lia.
  rewrite IH by lia. rewrite <- app_assoc. f_equal. lia.
Qed.

(** The disk holds the entries [es]: the log is their lines, the index their offsets. *)
Record represents (es : list LogEntry) (d : Disk) : Prop := {
  rp_log : default [] (d_log d) = log_text es;
  rp_idx : default [] (d_idx d) = idx_text es 0;
  rp_codec : Forall codec_ok es;
  rp_sorted : StronglySorted (fun a b => le_index a < le_index b) es;
  rp_max : len (log_text es) <= u64_max;
}.

Lemma load_text es rest d :
  d_log d = Some (log_text es ++ rest) -> Forall codec_ok es -> utf8_valid rest = true ->
  load_log_file true d = (try r := parse_lines (file_lines rest) in Ok (es ++ r)).
Proof.
  intros Hl Hc Hu. unfold load_log_file, read_lines. rewrite Hl, utf8_valid_app by (by try apply utf8_text).
  cbn. by rewrite file_lines_text, parse_lines_app.
Qed.

Lemma log_text_nil es : log_text es = [] -> es = [].
Proof. destruct es as [|e es]; [done|]. rewrite log_text_cons. by destruct (line_of e). Qed.

Lemma load_represents es d : represents es d -> load_log_file true d = Ok es.
Proof.
  intros [Hl Hi Hc Hs _]. destruct (d_log d) as [log|] eqn:E; cbn in Hl.
  - rewrite (load_text es [] d); [cbn; by rewrite app_nil_r|by rewrite app_nil_r, E, Hl|done|done].
  - unfold load_log_file. rewrite E. by rewrite (log_text_nil es).
Qed.

(** ** Appending, with faults anywhere *)

(** What an interrupted write left of the next line. *)
Definition torn_line (es : list LogEntry) (k : nat) (torn : list byte) : Prop :=
  torn = [] \/ exists e, es !! k = Some e /\ torn `prefix_of` line_of e ++ [NEWLINE].

Lemma append_text_spec write indexed es off log recs r log' :
  append_entries write indexed es off log recs = (r, log') ->
  Forall codec_ok es -> 0 <= off -> off + len (log_text es) <= u64_max ->
  exists k torn, (k <= length es)%nat /\ log' = log ++ log_text (take k es) ++ torn /\ torn_line es k torn /\
    (forall recs', r = Ok recs' -> k = length es /\ torn = [] /\
       recs' = recs ++ (if indexed then idx_text es off else [])) /\
    ((forall i, write i = None) -> exists recs', r = Ok recs').
Proof.
  intros H Hc. revert write off log recs H. induction Hc as [|e es He Hc IH]; intros write off log recs H Hoff Hmax;
    cbn [append_entries] in H.
  { injection H as <- <-. exists 0%nat, []. cbn. rewrite app_nil_r. split; [lia|]. split; [done|]. split; [by left|].
    split; [|eauto]. intros recs' [= <-]. destruct indexed; by rewrite app_nil_r. }
  rewrite (co_json e He) in H. pose proof (co_len e He).
  rewrite log_text_cons, len_app, len_cons in Hmax. pose proof (len_nonneg (line_of e)). pose proof (len_nonneg (log_text es)).
  destruct (Z.ltb_spec MAX_LOG_ENTRY_BYTES (len (line_of e))); [lia|].
  destruct (write 0%nat) as [n|] eqn:Hw.
  - injection H as <- <-. exists 0%nat, (take n (line_of e ++ [NEWLINE])). cbn [take log_text map concat app].
    split; [lia|]. split; [done|]. split; [right; exists e; split; [done|apply prefix_take]|].
    split; [done|]. intros Hall. by rewrite Hall in Hw.
  - unfold saturating_add in H. rewrite !Z.min_l in H by lia.
    apply IH in H as (k & torn & Hk & -> & Ht & Hok & Hall); [|lia|lia].
    exists (S k), torn. cbn [take length]. split; [lia|].
    split; [rewrite log_text_cons, <- !app_assoc; by cbn [app]|]. split; [done|]. split.
    + intros recs' E. destruct (Hok recs' E) as (-> & -> & ->). split; [done|]. split; [done|].
      destruct indexed; [|by rewrite !app_nil_r]. cbn [idx_text]. by rewrite <- app_assoc.
    + intros Hn. apply Hall. intros i. apply (Hn (S i)).
Qed.

(** The disk after an append of [new] that may have stopped anywhere. *)
Record interrupted (es new : list LogEntry) (d d' : Disk) : Prop := {
  in_state : exists k torn m, (k <= length new)%nat /\
    default [] (d_log d') = log_text (es ++ take k new) ++ torn /\ torn_line new k torn /\
    default [] (d_idx d') = take m (idx_text (es ++ take k new) 0);
  in_log : d_log d' = None -> default [] (d_idx d') = [];
  in_rest : d_hard d' = d_hard d /\ d_snap d' = d_snap d /\ d_legacy d' = d_legacy d;
}.

Lemma take_idx_text es new off :
  take (length (idx_text es off)) (idx_text (es ++ new) off) = idx_text es off.
Proof. rewrite idx_text_app, take_app_le by done. by apply take_ge. Qed.

(** The log grew by some entries, the index by at most their records. *)
Lemma interrupted_intro es new d d2 k torn n :
  (k <= length new)%nat -> d_log d2 = Some (log_text es ++ log_text (take k new) ++ torn) -> torn_line new k torn ->
  default [] (d_idx d2) = idx_text es 0 ++ take n (idx_text (take k new) (len (log_text es))) ->
  d_hard d2 = d_hard d -> d_snap d2 = d_snap d -> d_legacy d2 = d_legacy d -> interrupted es new d d2.
Proof.
  intros Hk Hlog Ht Hidx H1 H2 H3. split; [|by rewrite Hlog|done].
  exists k, torn, (length (idx_text es 0) + n)%nat. split; [done|].
  split; [rewrite Hlog, log_text_app; cbn; by rewrite <- app_assoc|]. split; [done|].
  by rewrite Hidx, idx_text_app, take_app_add.
Qed.

Lemma interrupted_unchanged es new d d2 :
  represents es d -> default [] (d_log d2) = default [] (d_log d) -> d_idx d2 = d_idx d ->
  (d_log d2 = None -> d_log d = None) -> d_hard d2 = d_hard d -> d_snap d2 = d_snap d -> d_legacy d2 = d_legacy d ->
  interrupted es new d d2.
Proof.
  intros [Hl Hi _ _ _] H1 H2 H3 H4 H5 H6. split; [|intros E|done].
  - exists 0%nat, [], (length (idx_text es 0)). cbn [take]. rewrite !app_nil_r. split; [lia|].
    split; [by rewrite H1|]. split; [by left|]. rewrite H2, Hi. symmetry. by apply take_ge.
  - apply H3 in E. rewrite E in Hl. cbn in Hl. by rewrite H2, Hi, (log_text_nil es).
Qed.

Lemma append_log_interrupted io new es d r d' :
  append_log_file io new d = (r, d') -> represents es d -> Forall codec_ok new ->
  len (log_text (es ++ new)) <= u64_max -> interrupted es new d d'.
Proof.
  intros H Hrep Hn Hmaxn. pose proof Hrep as [Hl Hi Hc Hs Hmax].
  unfold append_log_file in H. destruct new as [|e new0] eqn:Hnew; [injection H as <- <-; by apply interrupted_unchanged|].
  rewrite <- Hnew in *. clear e new0 Hnew.
  destruct (ap_open io); cbn [negb] in H; [|injection H as <- <-; by apply interrupted_unchanged].
  destruct (ap_seek io); cbn [negb] in H; [|injection H as <- <-; by apply interrupted_unchanged].
  rewrite Hl in H. rewrite log_text_app, len_app in Hmaxn. pose proof (len_nonneg (log_text es)).
  destruct (append_entries _ _ _ _ _ _) as [r1 log'] eqn:Ha.
  apply append_text_spec in Ha as (k & torn & Hk & -> & Ht & Hok & _); [|done|lia|lia].
  set (d1 := if ap_idx_open io then _ else _) in H.
  assert (default [] (d_idx d1) = idx_text es 0 /\ d_hard d1 = d_hard d /\ d_snap d1 = d_snap d /\ d_legacy d1 = d_legacy d)
    as (Hi1 & H1 & H2 & H3) by (subst d1; by destruct (ap_idx_open io)).
  clearbody d1.
  assert (forall n x, n = 0%nat \/ r1 = Ok x /\ idx_text (take k new) (len (log_text es)) = x -> forall d2,
    d_log d2 = Some (log_text es ++ log_text (take k new) ++ torn) -> default [] (d_idx d2) = idx_text es 0 ++ take n x ->
    d_hard d2 = d_hard d1 -> d_snap d2 = d_snap d1 -> d_legacy d2 = d_legacy d1 -> interrupted es new d d2) as Hin.
  { intros n x Hx d2 E1 E2 E3 E4 E5. apply (interrupted_intro es new d d2 k torn n); try congruence.
    rewrite E2. destruct Hx as [->|[_ <-]]; by rewrite ?take_0. }
  assert (forall d2, d_log d2 = Some (log_text es ++ log_text (take k new) ++ torn) -> d_idx d2 = d_idx d1 ->
    d_hard d2 = d_hard d1 -> d_snap d2 = d_snap d1 -> d_legacy d2 = d_legacy d1 -> interrupted es new d d2) as Hold.
  { intros d2 E1 E2. apply (Hin 0%nat []); auto. by rewrite E2, app_nil_r. }
  destruct r1 as [recs|e]; [|injection H as <- <-; by apply Hold].
  destruct (Hok recs eq_refl) as (-> & -> & Hrecs). rewrite firstn_all in *.
  destruct (ap_sync io); cbn [negb] in H; [|injection H as <- <-; by apply Hold].
  destruct (ap_idx_open io) eqn:Hio; cbn [andb] in H; [|injection H as <- <-; by apply Hold].
  destruct (negb _) in H; [|injection H as <- <-; by apply Hold].
  cbn [app] in Hrecs. destruct (ap_idx_write io) as [n|].
  - injection H as <- <-. by apply (Hin n recs); auto; cbn; rewrite Hi1.
  - assert (d' = put_idx (idx_text es 0 ++ recs) (put_log (log_text es ++ log_text new ++ []) d1)) as ->.
    { cbn [put_log d_idx] in H. rewrite Hi1 in H. by destruct (ap_idx_sync io); injection H as _ <-. }
    apply (Hin (length recs) recs); auto. cbn. by rewrite firstn_all.
Qed.

Definition append_io_ok : AppendIo := mkAppendIo true true true (fun _ => None) true None true.

Lemma append_represents new es d :
  represents es d -> Forall codec_ok new ->
  StronglySorted (fun a b => le_index a < le_index b) (es ++ new) -> len (log_text (es ++ new)) <= u64_max ->
  exists d', append_log_file append_io_ok new d = (Ok tt, d') /\ represents (es ++ new) d' /\
    d_hard d' = d_hard d /\ d_snap d' = d_snap d /\ d_legacy d' = d_legacy d.
Proof.
  intros Hrep Hn Hsn Hmaxn. pose proof Hrep as [Hl Hi Hc Hs Hmax]. unfold append_log_file.
  destruct new as [|e new0] eqn:Hnew; [exists d; by rewrite app_nil_r|].
  rewrite <- Hnew in *. assert (idx_text new (len (log_text es)) <> []) as Hne.
  { rewrite Hnew. cbn. unfold idx_record, u64_bytes. by destruct (le_index e). }
  clear e new0 Hnew. cbn [append_io_ok ap_open ap_seek ap_idx_open ap_write ap_sync ap_idx_write ap_idx_sync negb].
  rewrite Hl. pose proof Hmaxn as Hm2. rewrite log_text_app, len_app in Hm2. pose proof (len_nonneg (log_text es)).
  destruct (append_entries _ _ _ _ _ _) as [r1 log'] eqn:Ha.
  apply append_text_spec in Ha as (k & torn & Hk & -> & Ht & Hok & Hall); [|done|lia|lia].
  destruct Hall as [recs ->]; [done|]. destruct (Hok recs eq_refl) as (-> & -> & ->).
  rewrite firstn_all, app_nil_r. cbn [app andb]. rewrite bool_decide_eq_false_2 by done. cbn.
  eexists. split; [done|]. split; [|done]. split; cbn; [by rewrite log_text_app| |by apply Forall_app|done|done].
  by rewrite Hi, idx_text_app.
Qed.

(** ** Opening *)

Definition open_io_ok : OpenIo :=
  mkOpenIo true true None true true true true true true true true.

Lemma idx_last_text es e off :
  in_u64 (off + len (log_text es)) -> idx_last_offset (idx_text (es ++ [e]) off) = off + len (log_text es).
Proof.
  intros Hu. unfold idx_last_offset. rewrite idx_text_app. cbn [idx_text]. rewrite app_nil_r. unfold idx_record.
  set (o := off + len (log_text es)) in *.
  etransitivity; [|apply (u64_at_app (idx_text es off ++ u64_bytes (le_index e) ++ u64_bytes (le_term e)) o []); done].
  f_equal; [by rewrite app_nil_r, <- !app_assoc|]. rewrite !len_app, !u64_bytes_len. unfold LOG_INDEX_RECORD_LEN. lia.
Qed.

(** Whatever prefix of the index of a longer log is on disk, opening restores the
    representation. *)
Lemma reconcile_restores es full m d :
  default [] (d_log d) = log_text es -> (d_log d = None -> default [] (d_idx d) = []) ->
  default [] (d_idx d) = take m (idx_text (es ++ full) 0) ->
  Forall codec_ok es -> StronglySorted (fun a b => le_index a < le_index b) es -> len (log_text es) <= u64_max ->
  exists d', reconcile_log_index open_io_ok d = (Ok tt, d') /\ represents es d' /\
    d_hard d' = d_hard d /\ d_snap d' = d_snap d /\ d_legacy d' = d_legacy d.
Proof.
  intros Hl Hnone Hi Hc Hs Hmax. unfold reconcile_log_index.
  destruct (d_log d) as [log|] eqn:Elog; cbn in Hl.
  2:{ exists d. split; [done|]. symmetry in Hl. apply log_text_nil in Hl as ->. split; [|done].
      split; try done; [by rewrite Elog|]. by rewrite Hnone. }
  subst log. cbn [open_io_ok oi_log_meta oi_count_open oi_idx_meta2 oi_log_open oi_idx_write negb].
  rewrite <- (app_nil_r (log_text es)), count_text, Z.add_0_r by done. rewrite (app_nil_r (log_text es)).
  assert (exists d', (match (try ls := read_lines true (log_text es) in rebuild_loop ls 0 []) with
      | Err e => (Err e, d) | Ok idx_buf => write_atomic true idx_buf put_idx d end) = (Ok tt, d') /\ represents es d' /\
    d_hard d' = d_hard d /\ d_snap d' = d_snap d /\ d_legacy d' = d_legacy d) as Hre.
  { unfold read_lines. rewrite utf8_text by done. cbn [andb result_bind].
    rewrite file_lines_all, <- (app_nil_r (map line_of es)), rebuild_text by (done || lia). eexists. split; [done|]. split; [|done]. split; try done. cbn. by rewrite Elog. }
  case_if; [|exact Hre]. apply andb_true_iff in E as [E Hcount]. apply andb_true_iff in E as [E _].
  unfold idx_looks_ok in E. destruct (d_idx d) as [idx|] eqn:Eidx; [|done]. cbn in Hi, Hcount. bool_to_prop.
  exists d. split; [done|]. split; [|done]. split; try done; [by rewrite Elog|]. rewrite Eidx. cbn.
  pose proof (Z.div_mod (len idx) LOG_INDEX_RECORD_LEN ltac:(done)).
  assert (length idx = length (idx_text es 0)) as Hlen.
  { pose proof (idx_text_len es 0). unfold len in *. lia. }
  rewrite <- (take_idx_text es full 0), <- Hlen, Hi, length_take. symmetry.
  destruct (Nat.min_spec m (length (idx_text (es ++ full) 0))) as [[_ ->]|[Hm ->]]; [done|].
  rewrite firstn_all. by rewrite take_ge.
Qed.

Lemma open_restores es full m d :
  default [] (d_log d) = log_text es -> (d_log d = None -> default [] (d_idx d) = []) ->
  default [] (d_idx d) = take m (idx_text (es ++ full) 0) -> d_legacy d = None ->
  Forall codec_ok es -> StronglySorted (fun a b => le_index a < le_index b) es -> len (log_text es) <= u64_max ->
  exists d', open_storage open_io_ok d = (Ok (mkFile None false), d') /\ represents es d' /\
    d_hard d' = d_hard d /\ d_snap d' = d_snap d /\ d_legacy d' = None.
Proof.
  intros Hl Hnone Hi Hleg Hc Hs Hmax.
  destruct (reconcile_restores es full m d) as (d' & Hr & Hrep & H1 & H2 & H3); try done.
  exists d'. unfold open_storage, migrate_legacy_log. rewrite Hleg. cbn [open_io_ok oi_create_dir negb].
  rewrite Hr. repeat split; congruence || apply Hrep.
Qed.

Lemma open_represents es d :
  represents es d -> d_legacy d = None ->
  exists d', open_storage open_io_ok d = (Ok (mkFile None false), d') /\ represents es d' /\
    d_hard d' = d_hard d /\ d_snap d' = d_snap d /\ d_legacy d' = None.
Proof.
  intros [Hl Hi Hc Hs Hmax] Hleg. apply (open_restores es [] (length (idx_text es 0))); try done.
  - intros E. rewrite E in Hl. cbn in Hl. by rewrite Hi, (log_text_nil es).
  - rewrite app_nil_r, Hi. symmetry. by apply take_ge.
Qed.

(** The log ends with a complete line. *)
Definition complete (d : Disk) : Prop := default [] (d_log d) = [] \/ last (default [] (d_log d)) = Some NEWLINE.

Lemma torn_complete text new k torn :
  torn_line new k torn -> Forall codec_ok new -> (torn = [] \/ last (text ++ torn) = Some NEWLINE) ->
  torn = [] \/ exists e, new !! k = Some e /\ torn = line_of e ++ [NEWLINE].
Proof.
  intros [->|(e & He & Hp)] Hc Hlast; [by left|]. destruct Hlast as [->|Hlast]; [by left|].
  destruct (decide (torn = [])) as [->|Hne]; [by left|]. right. exists e. split; [done|].
  destruct torn as [|b torn] using rev_ind; [done|]. rewrite app_assoc, last_snoc in Hlast. injection Hlast as ->.
  destruct Hp as [z Hz]. destruct z as [|x z _] using rev_ind; [by rewrite app_nil_r in Hz|]. exfalso.
  rewrite app_assoc in Hz. apply app_inj_tail in Hz as [Hz _].
  rewrite Forall_lookup in Hc. apply (co_newline e (Hc k e He)). rewrite Hz. set_solver.
Qed.

Lemma take_idx_longer es new off m : exists m', take m (idx_text es off) = take m' (idx_text (es ++ new) off).
Proof.
  exists (Nat.min m (length (idx_text es off))). rewrite idx_text_app, take_app_le by lia.
  destruct (Nat.min_spec m (length (idx_text es off))) as [[_ ->]|[? ->]]; [done|]. by rewrite !take_ge by lia.
Qed.

Lemma log_text_inj es es' : Forall codec_ok es -> Forall codec_ok es' -> log_text es = log_text es' -> es = es'.
Proof.
  intros H H' E. apply (f_equal file_lines) in E. rewrite !file_lines_all in E by done.
  apply (f_equal parse_lines) in E. rewrite <- (app_nil_r (map line_of es)), <- (app_nil_r (map line_of es')) in E.
  rewrite !parse_lines_app in E by done. cbn in E. rewrite !app_nil_r in E. by injection E.
Qed.

Lemma append_ok_log io new es d d' :
  append_log_file io new d = (Ok tt, d') -> represents es d -> Forall codec_ok new ->
  len (log_text (es ++ new)) <= u64_max -> default [] (d_log d') = log_text (es ++ new).
Proof.
  intros H [Hl _ _ _ _] Hn Hmaxn. unfold append_log_file in H.
  destruct new as [|e new0] eqn:Hnew; [injection H as <-; by rewrite app_nil_r|].
  rewrite <- Hnew in *. clear e new0 Hnew. destruct (ap_open io); [|done]. destruct (ap_seek io); [|done]. cbn [negb] in H.
  rewrite Hl in H. rewrite log_text_app, len_app in Hmaxn. pose proof (len_nonneg (log_text es)).
  destruct (append_entries _ _ _ _ _ _) as [[recs|] log'] eqn:Ha; [|done].
  apply append_text_spec in Ha as (k & torn & Hk & -> & Ht & Hok & _); [|done|lia|lia].
  destruct (Hok recs eq_refl) as (-> & -> & _). rewrite firstn_all, app_nil_r in H. rewrite log_text_app.
  repeat (case_match || case_if); by simplify_eq.
Qed.

(** C32: interrupted appends are recovered: whatever system calls of an append fail, or wherever it
    is cut off, if the log still ends with a complete line then opening the
    directory succeeds, and it holds the old entries and a prefix of the new ones; when
    the append had reported success, all of them. *)
Theorem append_recovers io es new d r d' :
  represents es d -> d_legacy d = None -> Forall codec_ok new ->
  StronglySorted (fun a b => le_index a < le_index b) (es ++ new) -> len (log_text (es ++ new)) <= u64_max ->
  append_log_file io new d = (r, d') -> complete d' ->
  exists k d'', open_storage open_io_ok d' = (Ok (mkFile None false), d'') /\
    represents (es ++ take k new) d'' /\ load_log_file true d'' = Ok (es ++ take k new) /\
    (r = Ok tt -> es ++ take k new = es ++ new).
Proof.
  intros Hrep Hleg Hn Hs Hmax Ha Hcomp.
  pose proof (append_log_interrupted _ _ _ _ _ _ Ha Hrep Hn Hmax) as [(k & torn & m & Hk & Hlog & Ht & Hidx) Hnone (_ & _ & Hleg')].
  assert (exists k' m', default [] (d_log d') = log_text (es ++ take k' new) /\
    default [] (d_idx d') = take m' (idx_text ((es ++ take k' new) ++ []) 0)) as (k' & m' & Hlog' & Hidx').
  { destruct (torn_complete (log_text (es ++ take k new)) new k torn) as [->|(e & He & ->)]; [done|done| | |].
    - unfold complete in Hcomp. rewrite Hlog in Hcomp. destruct Hcomp as [E|?]; [apply app_nil in E as [_ ->]; by left|by right].
    - exists k, m. by rewrite Hlog, !app_nil_r.
    - destruct (take_idx_longer (es ++ take k new) [e] 0 m) as [m' Hm'].
      exists (S k), m'. replace (es ++ take (S k) new) with ((es ++ take k new) ++ [e])
        by (by rewrite (take_S_r new k e He), app_assoc).
      rewrite Hlog, (log_text_app (es ++ take k new)), app_nil_r, Hidx.
      split; [unfold log_text; cbn; by rewrite app_nil_r|done]. }
  assert (Forall codec_ok (es ++ take k' new)) as Hc.
  { apply Forall_app. split; [apply Hrep|]. by apply Forall_take. }
  assert (len (log_text (es ++ take k' new)) <= u64_max) as Hm.
  { rewrite <- (take_drop k' new), app_assoc, log_text_app, len_app in Hmax.
    pose proof (len_nonneg (log_text (drop k' new))). lia. }
  destruct (open_restores (es ++ take k' new) [] m' d') as (d'' & Ho & Hr & _); try done; [congruence| |].
  { apply (StronglySorted_app_1_l _ _ (drop k' new)). by rewrite <- app_assoc, take_drop. }
  exists k', d''. split; [done|]. split; [done|]. split; [by apply load_represents|]. intros ->.
  apply log_text_inj; [done|by apply Forall_app; split; [apply Hrep|]|].
  rewrite <- Hlog'. by eapply append_ok_log.
Qed.

(** ** Truncating *)

Lemma record_at pre e post :
  in_u64 (le_index e) -> in_u64 (len (log_text pre)) ->
  u64_at (idx_text (pre ++ e :: post) 0) (len pre * LOG_INDEX_RECORD_LEN) = le_index e /\
  u64_at (idx_text (pre ++ e :: post) 0) (len pre * LOG_INDEX_RECORD_LEN + 16) = len (log_text pre).
Proof.
  intros Hi Ho. rewrite idx_text_app. cbn [idx_text]. rewrite Z.add_0_l. unfold idx_record. rewrite <- !app_assoc.
  pose proof (idx_text_len pre 0) as Hl. split.
  - etransitivity; [|apply (u64_at_app (idx_text pre 0) (le_index e)); done]. f_equal. unfold LOG_INDEX_RECORD_LEN in *. lia.
  - etransitivity; [|apply (u64_at_app (idx_text pre 0 ++ u64_bytes (le_index e) ++ u64_bytes (le_term e)) (len (log_text pre))); done].
    f_equal; [by rewrite <- !app_assoc|]. rewrite !len_app, !u64_bytes_len. unfold LOG_INDEX_RECORD_LEN in *. lia.
Qed.

Lemma text_prefix_max pre post : len (log_text (pre ++ post)) <= u64_max -> in_u64 (len (log_text pre)).
Proof.
  rewrite log_text_app, len_app. pose proof (len_nonneg (log_text pre)). pose proof (len_nonneg (log_text post)).
  unfold in_u64, u64_max. lia.
Qed.

Lemma find_record_text pre es rest after :
  Forall codec_ok (es ++ rest) -> len (log_text (pre ++ es ++ rest)) <= u64_max ->
  Forall (fun e => le_index e <= after) es -> Forall (fun e => after < le_index e) rest ->
  find_record (idx_text (pre ++ es ++ rest) 0) after (len pre) (length (es ++ rest)) =
  match rest with
  | [] => None
  | _ :: _ => Some (len (log_text (pre ++ es)), len (pre ++ es) * LOG_INDEX_RECORD_LEN)
  end.
Proof.
  intros Hc Hmax Hle Hgt. revert pre Hmax. induction Hle as [|e es He _ IH]; intros pre Hmax.
  - destruct Hgt as [|e rest He _]; [done|]. cbn [app length find_record].
    apply Forall_cons in Hc as [Hce _].
    destruct (record_at pre e rest) as [H1 H2]; [apply Hce|by eapply text_prefix_max|].
    cbn [app] in *. rewrite H1, H2. destruct (Z.ltb_spec after (le_index e)); [|lia]. by rewrite app_nil_r.
  - cbn [app length find_record] in *. apply Forall_cons in Hc as [Hce Hc].
    destruct (record_at pre e (es ++ rest)) as [H1 _]; [apply Hce|by eapply text_prefix_max|].
    rewrite H1. destruct (Z.ltb_spec after (le_index e)); [lia|].
    specialize (IH Hc (pre ++ [e])). rewrite <- !app_assoc in IH. cbn [app] in IH.
    rewrite len_app in IH. change (len [e]) with 1 in IH. by apply IH.
Qed.

(** A sorted log is cut in two at [after]. *)
Lemma sorted_split es after :
  StronglySorted (fun a b => le_index a < le_index b) es ->
  exists es1 es2, es = es1 ++ es2 /\ filter (fun e => Is_true (le_index e <=? after)) es = es1 /\
    Forall (fun e => le_index e <= after) es1 /\ Forall (fun e => after < le_index e) es2.
Proof.
  induction 1 as [|e es Hs IH Hall]; [by exists [], []|]. destruct (Z.leb_spec (le_index e) after) as [Hle|Hgt].
  - destruct IH as (es1 & es2 & -> & Hf & H1 & H2). exists (e :: es1), es2. split; [done|].
    rewrite filter_cons_True by (by apply Is_true_true, Z.leb_le). rewrite Hf. split; [done|]. split; [by constructor|done].
  - exists [], (e :: es). split; [done|]. assert (Forall (fun e => after < le_index e) (e :: es)) as Hgts.
    { constructor; [done|]. eapply Forall_impl; [done|]. cbn. lia. }
    split; [|done]. clear -Hgts. induction Hgts as [|x l Hx _ IH]; [done|].
    rewrite filter_cons_False; [done|]. rewrite Is_true_true, Z.leb_le. lia.
Qed.

Lemma set_len_prefix a b : set_len (len a) (a ++ b) = a.
Proof.
  unfold set_len, len. rewrite Nat2Z.id, take_app_le, take_ge by done.
  rewrite length_app. replace (length a - (length a + length b))%nat with 0%nat by lia. apply app_nil_r.
Qed.

Lemma render_text es buf idx :
  Forall codec_ok es -> render_with_index es buf idx = Some (buf ++ log_text es, idx ++ idx_text es (len buf)).
Proof.
  intros H. revert buf idx. induction H as [|e es He _ IH]; intros buf idx; cbn [render_with_index idx_text].
  { by rewrite !app_nil_r. }
  rewrite (co_json e He). cbn [mbind option_bind]. rewrite IH, log_text_cons, !len_app, <- !app_assoc.
  change (len [NEWLINE]) with 1. cbn [app]. do 3 f_equal. by rewrite Z.add_assoc.
Qed.

(** The log was cut at [after] or not, the index was cut at most as far. *)
Record cut (es1 es2 : list LogEntry) (d d' : Disk) : Prop := {
  ct_state : exists es' es'', es1 ++ es2 = es' ++ es'' /\ (es' = es1 \/ es' = es1 ++ es2) /\
    default [] (d_log d') = log_text es' /\
    (default [] (d_idx d') = idx_text (es1 ++ es2) 0 \/ default [] (d_idx d') = idx_text es' 0);
  ct_log : d_log d' = None -> default [] (d_idx d') = [];
  ct_rest : d_hard d' = d_hard d /\ d_snap d' = d_snap d /\ d_legacy d' = d_legacy d;
}.

Lemma cut_none es1 es2 d : represents (es1 ++ es2) d -> cut es1 es2 d d.
Proof.
  intros [Hl Hi _ _ _]. split; [|intros E|done].
  - exists (es1 ++ es2), []. rewrite app_nil_r. auto.
  - rewrite E in Hl. cbn in Hl. rewrite Hi. symmetry in Hl. by apply log_text_nil in Hl as ->.
Qed.

Lemma cut_log es1 es2 d d' :
  d_log d' = Some (log_text es1) ->
  default [] (d_idx d') = idx_text (es1 ++ es2) 0 \/ default [] (d_idx d') = idx_text es1 0 ->
  d_hard d' = d_hard d -> d_snap d' = d_snap d -> d_legacy d' = d_legacy d -> cut es1 es2 d d'.
Proof. intros Hl Hi H1 H2 H3. split; [|congruence|done]. exists es1, es2. rewrite Hl. auto. Qed.

Definition truncate_io_ok : TruncateIo := mkTruncateIo true true true true true true true true true true true.

Lemma truncate_fast_spec io es1 es2 d r d' idx :
  represents (es1 ++ es2) d -> d_idx d = Some idx ->
  truncate_fast io (len (log_text es1)) (len es1 * LOG_INDEX_RECORD_LEN) (log_text (es1 ++ es2)) d = (r, d') ->
  cut es1 es2 d d' /\ (r = Ok tt -> default [] (d_log d') = log_text es1 /\ default [] (d_idx d') = idx_text es1 0) /\
  (io = truncate_io_ok -> r = Ok tt).
Proof.
  intros Hrep Hidx H. pose proof Hrep as [_ Hi _ _ _]. rewrite Hidx in Hi. cbn in Hi. unfold truncate_fast in H.
  destruct (tr_log_open io && tr_log_set_len io) eqn:E1; cbn [negb] in H;
    [|injection H as <- <-; split; [by apply cut_none|]; split; [done|by intros ->]].
  rewrite log_text_app, set_len_prefix in H.
  assert (forall d2, d_log d2 = Some (log_text es1) -> d_idx d2 = d_idx d \/ d_idx d2 = Some (idx_text es1 0) ->
    d_hard d2 = d_hard d -> d_snap d2 = d_snap d -> d_legacy d2 = d_legacy d -> cut es1 es2 d d2) as Hcut.
  { intros d2 Hl Hi2 H1 H2 H3. apply cut_log; try done. destruct Hi2 as [->| ->]; [left|by right]. by rewrite Hidx. }
  destruct (tr_log_sync io) eqn:E2; cbn [negb] in H;
    [|injection H as <- <-; split; [apply Hcut; auto|]; split; [done|by intros ->]].
  cbn [put_log d_idx] in H. rewrite Hidx in H.
  destruct (tr_idx_open io && tr_idx_set_len io) eqn:E3; cbn [negb] in H;
    [|injection H as <- <-; split; [apply Hcut; auto|]; split; [done|by intros ->]].
  rewrite Hi, idx_text_app in H. replace (len es1 * LOG_INDEX_RECORD_LEN) with (len (idx_text es1 0)) in H
    by (rewrite idx_text_len; lia). rewrite set_len_prefix in H.
  destruct (tr_idx_sync io) eqn:E4; injection H as <- <-; (split; [apply Hcut; auto|]); (split; [done|by intros ->]).
Qed.

Lemma truncate_slow_spec io after es1 es2 d r d' :
  represents (es1 ++ es2) d -> d_log d <> None ->
  filter (fun e => Is_true (le_index e <=? after)) (es1 ++ es2) = es1 ->
  truncate_slow io after (log_text (es1 ++ es2)) d = (r, d') ->
  cut es1 es2 d d' /\ (r = Ok tt -> default [] (d_log d') = log_text es1 /\ default [] (d_idx d') = idx_text es1 0) /\
  (io = truncate_io_ok -> r = Ok tt).
Proof.
  intros Hrep Hne Hf H. pose proof Hrep as [Hl Hi Hc _ _]. unfold truncate_slow, read_lines in H.
  rewrite (utf8_text _ Hc), andb_true_r in H. destruct (tr_read io) eqn:E1; cbn [result_bind] in H;
    [|injection H as <- <-; split; [by apply cut_none|]; split; [done|by intros ->]].
  rewrite file_lines_all, <- (app_nil_r (map line_of (es1 ++ es2))), parse_lines_app in H by done.
  cbn [parse_lines result_bind] in H. rewrite app_nil_r, Hf, render_text in H by (by apply Forall_app in Hc as [? _]).
  cbn [app] in H. unfold write_atomic in H.
  destruct (tr_log_write io) eqn:E2; [|injection H as <- <-; split; [by apply cut_none|]; split; [done|by intros ->]].
  destruct (tr_idx_write io) eqn:E3; injection H as <- <-; (split; [apply cut_log; auto|]); (split; [done|by intros ->]).
Qed.

Lemma lookup_text io1 io2 after es1 es2 d log idx :
  represents (es1 ++ es2) d -> d_log d = Some log -> d_idx d = Some idx -> es1 ++ es2 <> [] ->
  Forall (fun e => le_index e <= after) es1 -> Forall (fun e => after < le_index e) es2 ->
  io1 = true -> io2 = true ->
  lookup_truncate_offsets io1 io2 after d = Some (len (log_text es1), len es1 * LOG_INDEX_RECORD_LEN).
Proof.
  intros [Hl Hi Hc Hs Hmax] Elog Eidx Hne H1 H2 -> ->. unfold lookup_truncate_offsets. rewrite Elog, Eidx in *. cbn in Hl, Hi. subst log idx.
  cbn [negb]. rewrite idx_text_len.
  assert (0 < len (es1 ++ es2)) by (destruct (es1 ++ es2) as [|x l]; [done|rewrite len_cons; pose proof (len_nonneg l); lia]).
  destruct (Z.eqb_spec (LOG_INDEX_RECORD_LEN * len (es1 ++ es2)) 0); [unfold LOG_INDEX_RECORD_LEN in *; lia|].
  rewrite Z.mul_comm, Z.mod_mul, Z.eqb_refl by done. cbn [negb orb].
  destruct (exists_last Hne) as (init & e & E).
  assert (in_u64 (len (log_text init))) as Hu by (rewrite E in Hmax; by eapply text_prefix_max).
  assert (idx_last_offset (idx_text (es1 ++ es2) 0) = len (log_text init)) as -> by (rewrite E; by apply (idx_last_text init e 0)).
  destruct (Z.leb_spec (len (log_text (es1 ++ es2))) (len (log_text init))) as [Hle|_].
  { rewrite E, log_text_snoc_len in Hle. pose proof (len_nonneg (line_of e)). lia. }
  rewrite Z.div_mul by done. pose proof (find_record_text [] es1 es2 after Hc Hmax H1 H2) as Hfind.
  cbn [app] in Hfind. change (len []) with 0 in Hfind. 
  replace (Z.to_nat (len (es1 ++ es2))) with (length (es1 ++ es2)) by (unfold len; lia). rewrite Hfind.
  destruct es2; [|done]. by rewrite app_nil_r.
Qed.

Lemma truncate_file_spec io after es d r d' :
  represents es d -> truncate_log_after_file io after d = (r, d') ->
  exists es1 es2, es = es1 ++ es2 /\ filter (fun e => Is_true (le_index e <=? after)) es = es1 /\
    cut es1 es2 d d' /\ (r = Ok tt -> default [] (d_log d') = log_text es1 /\ default [] (d_idx d') = idx_text es1 0) /\
    (io = truncate_io_ok -> r = Ok tt).
Proof.
  intros Hrep H. pose proof Hrep as [Hl Hi Hc Hs Hmax].
  destruct (sorted_split es after Hs) as (es1 & es2 & -> & Hf & H1 & H2). exists es1, es2. split; [done|]. split; [done|].
  unfold truncate_log_after_file in H. destruct (d_log d) as [log|] eqn:Elog; cbn in Hl.
  2:{ injection H as <- <-. split; [by apply cut_none|]. split; [|done]. intros _.
      symmetry in Hl. apply log_text_nil in Hl. rewrite Hi, Elog, Hl. by apply app_nil in Hl as [-> ->]. }
  subst log. destruct (lookup_truncate_offsets _ _ after d) as [[lc ic]|] eqn:Hlook;
    [|by apply (truncate_slow_spec _ _ es1 es2) in H; rewrite ?Elog].
  pose proof Hlook as Hlook2. unfold lookup_truncate_offsets in Hlook2. rewrite Elog in Hlook2.
  destruct (d_idx d) as [idx|] eqn:Eidx; [|done]. cbn in Hi. subst idx.
  destruct (tr_idx_read io) eqn:Er; cbn [negb] in Hlook2; [|done].
  destruct (decide (es1 ++ es2 = [])) as [E|Hne]; [by rewrite E in Hlook2|].
  destruct (_ || _) in Hlook2; [done|]. destruct (tr_log_meta io) eqn:Em; cbn [negb] in Hlook2; [|done].
  rewrite (lookup_text true true after es1 es2 d _ _ Hrep Elog Eidx Hne) in Hlook by done. injection Hlook as <- <-.
  by eapply truncate_fast_spec.
Qed.

Lemma truncate_represents after es d :
  represents es d ->
  exists d', truncate_log_after_file truncate_io_ok after d = (Ok tt, d') /\
    represents (filter (fun e => Is_true (le_index e <=? after)) es) d' /\
    d_hard d' = d_hard d /\ d_snap d' = d_snap d /\ d_legacy d' = d_legacy d.
Proof.
  intros Hrep. destruct (truncate_log_after_file truncate_io_ok after d) as [r d'] eqn:H.
  apply (truncate_file_spec _ _ es) in H as (es1 & es2 & -> & -> & Hcut & Hok & Hr); [|done].
  rewrite (Hr eq_refl) in *. destruct (Hok eq_refl) as [Hl Hi]. pose proof Hrep as [_ _ Hc Hs Hmax].
  exists d'. split; [done|]. destruct Hcut as [_ _ (? & ? & ?)]. split; [|done].
  split; [done|done|by apply Forall_app in Hc as [? _]|by eapply StronglySorted_app_1_l|].
  apply text_prefix_max in Hmax. unfold in_u64, u64_max in *. lia.
Qed.

(** Interrupted truncations are recovered: whatever system calls of a truncation fail, or
    wherever it is cut off, opening the directory afterwards succeeds, and it holds either all
    entries or exactly those up to [after]; the latter when the truncation had reported
    success. *)
Theorem truncate_recovers io after es d r d' :
  represents es d -> d_legacy d = None -> truncate_log_after_file io after d = (r, d') ->
  exists es' d'', open_storage open_io_ok d' = (Ok (mkFile None false), d'') /\
    represents es' d'' /\ load_log_file true d'' = Ok es' /\
    (es' = es \/ es' = filter (fun e => Is_true (le_index e <=? after)) es) /\
    (r = Ok tt -> es' = filter (fun e => Is_true (le_index e <=? after)) es).
Proof.
  intros Hrep Hleg H. apply (truncate_file_spec _ _ es) in H as (es1 & es2 & -> & -> & Hcut & Hok & _); [|done].
  destruct Hcut as [(es' & es'' & Heq & Hwhich & Hlog & Hidx) Hnone (_ & _ & Hleg')].
  pose proof Hrep as [_ _ Hc Hs Hmax].
  assert (exists m, default [] (d_idx d') = take m (idx_text (es' ++ es'') 0)) as [m Hm].
  { destruct Hidx as [Hidx|Hidx]; rewrite Hidx; [exists (length (idx_text (es1 ++ es2) 0)); rewrite <- Heq; symmetry; by apply take_ge|].
    exists (length (idx_text es' 0)). symmetry. apply take_idx_text. }
  rewrite Heq in Hc, Hs, Hmax. destruct (open_restores es' es'' m d') as (d'' & Ho & Hr & _); try done;
    [congruence|by apply Forall_app in Hc as [? _]|by eapply StronglySorted_app_1_l| |].
  { apply text_prefix_max in Hmax. unfold in_u64, u64_max in *. lia. }
  exists es', d''. split; [done|]. split; [done|]. split; [by apply load_represents|].
  split; [destruct Hwhich as [->| ->]; auto|]. intros E. destruct (Hok E) as [Hl _].
  rewrite <- Heq in Hc. apply Forall_app in Hc as [Hc1 Hc2].
  apply log_text_inj; [destruct Hwhich as [->| ->]; [done|by apply Forall_app]|done|congruence].
Qed.

(** ** Snapshots *)

(** The bytes of a snapshot file. *)
Definition snapshot_bytes (payload : list byte) (index term : Z) (tag : list byte) : list byte :=
  payload ++ SNAPSHOT_MAGIC ++ u64_bytes (len payload) ++ u64_bytes index ++ u64_bytes term ++ tag.

(** A snapshot that the codec reads back and that fits into a file. *)
Record snapshot_ok (p : PersistedSnapshot) (payload : list byte) : Prop := {
  so_json : snapshot_to_json p = Some payload;
  so_back : snapshot_from_json payload = Some p;
  so_len : len payload + SNAPSHOT_FOOTER_LEN <= MAX_SNAPSHOT_BYTES;
  so_index : in_u64 (ps_last_index p);
  so_term : in_u64 (ps_last_term p);
}.

Lemma footer_fields payload index term tag :
  in_u64 (len payload) -> in_u64 index -> in_u64 term -> length tag = 32%nat ->
  let footer := drop (length payload) (snapshot_bytes payload index term tag) in
  take (length payload) (snapshot_bytes payload index term tag) = payload /\
  take 16 footer = SNAPSHOT_MAGIC /\ u64_at footer 16 = len payload /\ u64_at footer 24 = index /\
  u64_at footer 32 = term /\ take 32 (drop 40 footer) = tag.
Proof.
  intros H1 H2 H3 H4. unfold snapshot_bytes. cbn zeta. rewrite drop_app_length, take_app_length.
  assert (forall z, length (u64_bytes z) = 8%nat) as H8 by (intros z; apply length_le_split).
  split; [done|]. split; [done|]. split; [by apply (u64_at_app SNAPSHOT_MAGIC)|].
  assert (forall pre, len (SNAPSHOT_MAGIC ++ pre) = 16 + len pre) as Hm by (intros; by rewrite len_app).
  split; [|split].
  - etransitivity; [|apply (u64_at_app (SNAPSHOT_MAGIC ++ u64_bytes (len payload)) index); exact H2].
    by f_equal.
  - etransitivity; [|apply (u64_at_app (SNAPSHOT_MAGIC ++ u64_bytes (len payload) ++ u64_bytes index) term); exact H3].
    by f_equal.
  - replace (SNAPSHOT_MAGIC ++ u64_bytes (len payload) ++ u64_bytes index ++ u64_bytes term ++ tag)
      with ((SNAPSHOT_MAGIC ++ u64_bytes (len payload) ++ u64_bytes index ++ u64_bytes term) ++ tag) by (by rewrite <- !app_assoc).
    rewrite drop_app_ge; rewrite !length_app, !H8; [|cbn; lia]. change (40 - _)%nat with 0%nat.
    rewrite drop_0. apply take_ge. lia.
Qed.

(** A key, and tags of 32 bytes. *)
Definition keyed (s : FileStorage) : Prop :=
  exists k, fs_snapshot_key s = Some k /\ forall msg, length (hmac_sha256 k msg) = 32%nat.

Lemma snapshot_roundtrip s p payload d :
  keyed s -> snapshot_ok p payload ->
  exists d', save_snapshot_file true p s d = (Ok tt, d') /\ load_snapshot_file true true s d' = Ok (Some p) /\
    d_log d' = d_log d /\ d_idx d' = d_idx d /\ d_hard d' = d_hard d /\ d_legacy d' = d_legacy d.
Proof.
  intros (k & Hk & Htag) [Hj Hb Hl Hi Ht]. unfold save_snapshot_file. rewrite Hj, Hk.
  pose proof (len_nonneg payload). unfold saturating_add. unfold SNAPSHOT_FOOTER_LEN, MAX_SNAPSHOT_BYTES in Hl.
  rewrite Z.min_l by (unfold u64_max, SNAPSHOT_FOOTER_LEN; lia).
  destruct (Z.ltb_spec MAX_SNAPSHOT_BYTES (len payload + SNAPSHOT_FOOTER_LEN)) as [E|_];
    [unfold MAX_SNAPSHOT_BYTES, SNAPSHOT_FOOTER_LEN in E; lia|].
  set (tag := compute_snapshot_tag k payload (ps_last_index p) (ps_last_term p)).
  change (payload ++ SNAPSHOT_MAGIC ++ _) with (snapshot_bytes payload (ps_last_index p) (ps_last_term p) tag).
  eexists. split; [done|]. split; [|done]. unfold load_snapshot_file. cbn [put_snap d_snap negb].
  assert (len (snapshot_bytes payload (ps_last_index p) (ps_last_term p) tag) = len payload + SNAPSHOT_FOOTER_LEN) as Hlen.
  { unfold snapshot_bytes. rewrite !len_app, !u64_bytes_len. replace (len tag) with 32 by (unfold len; subst tag; unfold compute_snapshot_tag; by rewrite Htag). done. }
  rewrite Hlen. destruct (Z.ltb_spec MAX_SNAPSHOT_BYTES (len payload + SNAPSHOT_FOOTER_LEN)) as [E|_];
    [unfold MAX_SNAPSHOT_BYTES, SNAPSHOT_FOOTER_LEN in E; lia|].
  destruct (Z.ltb_spec (len payload + SNAPSHOT_FOOTER_LEN) SNAPSHOT_FOOTER_LEN); [lia|].
  replace (Z.to_nat (len payload + SNAPSHOT_FOOTER_LEN - SNAPSHOT_FOOTER_LEN)) with (length payload) by (unfold len; lia).
  destruct (footer_fields payload (ps_last_index p) (ps_last_term p) tag) as (-> & -> & -> & -> & -> & ->);
    [unfold in_u64; lia|done|done|apply Htag|].
  rewrite bool_decide_eq_true_2, Z.eqb_refl by done. cbn [negb]. unfold check_snapshot_tag. rewrite Hk.
  rewrite bool_decide_eq_true_2 by done. cbn [result_bind]. rewrite Hb, !Z.eqb_refl. done.
Qed.

Lemma u64_bytes_at bs off : (8 <= length (drop (Z.to_nat off) bs))%nat -> u64_bytes (u64_at bs off) = take 8 (drop (Z.to_nat off) bs).
Proof.
  intros H. unfold u64_bytes, u64_at. rewrite <- (split_le_combine (take 8 (drop (Z.to_nat off) bs))) at 2.
  by rewrite length_take_le.
Qed.

(** Only authenticated snapshots are loaded: when a storage with a key returns a snapshot, the
    file consists of its JSON text and a footer that carries the length, the index and
    the term of this snapshot and the HMAC, under that key, of the footer fields and the text. *)
Theorem snapshot_authentic k insecure d snap :
  load_snapshot_file true true (mkFile (Some k) insecure) d = Ok (Some snap) ->
  exists payload, snapshot_from_json payload = Some snap /\
    d_snap d = Some (snapshot_bytes payload (ps_last_index snap) (ps_last_term snap)
      (compute_snapshot_tag k payload (ps_last_index snap) (ps_last_term snap))).
Proof.
  unfold load_snapshot_file. destruct (d_snap d) as [bytes|]; [|done]. cbn [negb].
  destruct (MAX_SNAPSHOT_BYTES <? len bytes); [done|].
  destruct (Z.ltb_spec (len bytes) SNAPSHOT_FOOTER_LEN) as [|Hlen]; [done|].
  set (n := Z.to_nat (len bytes - SNAPSHOT_FOOTER_LEN)). set (footer := drop n bytes). set (payload := take n bytes).
  assert (length footer = 72%nat) as Hf.
  { subst footer. rewrite length_drop. subst n. unfold len, SNAPSHOT_FOOTER_LEN in *. lia. }
  case_bool_decide as Hmagic; [|done]. cbn [negb]. destruct (Z.eqb_spec (u64_at footer 16) (len payload)) as [Hl|]; [|done]. cbn [negb].
  unfold check_snapshot_tag. cbn [fs_snapshot_key]. case_bool_decide as Htag; [|done]. cbn [result_bind].
  destruct (snapshot_from_json payload) as [snap'|] eqn:Hs; [|done]. case_if; [done|]. intros [= ->].
  apply orb_false_iff in E as [Ei Et]. bool_to_prop. exists payload. split; [done|]. f_equal.
  unfold snapshot_bytes. rewrite Ei, Et, Htag, <- Hl, <- Hmagic, !u64_bytes_at by (rewrite length_drop, Hf; cbn; lia).
  rewrite <- (take_drop n bytes) at 1. fold payload footer. f_equal.
  rewrite <- (take_drop 16 footer) at 1. f_equal. rewrite <- (take_drop 8 (drop 16 footer)) at 1. f_equal.
  rewrite drop_drop, <- (take_drop 8 (drop _ footer)). f_equal. rewrite drop_drop, <- (take_drop 8 (drop _ footer)). f_equal.
  rewrite drop_drop. symmetry. apply take_ge. rewrite length_drop, Hf. cbn. lia.
Qed.

(** ** Refinement of the in-memory storage *)

Inductive storage_op : Type :=
| OpHard (h : HardState)
| OpAppend (es : list LogEntry)
| OpTruncate (after : Z)
| OpSnapshot (p : PersistedSnapshot)
| OpReopen.

Definition mem_op (m : InMemoryInner) (op : storage_op) : InMemoryInner :=
  match op with
  | OpHard h => save_hard_state h m
  | OpAppend es => append_log es m
  | OpTruncate after => truncate_log_after after m
  | OpSnapshot p => save_snapshot p m
  | OpReopen => m
  end.

(** The operation on the files, when no system call fails. *)
Definition file_op (s : FileStorage) (op : storage_op) (d : Disk) : result unit StorageError * Disk :=
  match op with
  | OpHard h => save_hard_state_file true h d
  | OpAppend es => append_log_file append_io_ok es d
  | OpTruncate after => truncate_log_after_file truncate_io_ok after d
  | OpSnapshot p => save_snapshot_file true p s d
  | OpReopen =>
      match open_storage open_io_ok d with
      | (Ok _, d) => (Ok tt, d)
      | (Err e, d) => (Err e, d)
      end
  end.

Fixpoint file_run (s : FileStorage) (ops : list storage_op) (d : Disk) : result unit StorageError * Disk :=
  match ops with
  | [] => (Ok tt, d)
  | op :: ops => match file_op s op d with (Ok _, d) => file_run s ops d | (Err e, d) => (Err e, d) end
  end.

(** What an operation needs: values the codec reads back, and appends that keep the indices
    increasing and the file below 2^64 bytes. *)
Definition op_ok (m : InMemoryInner) (op : storage_op) : Prop :=
  match op with
  | OpHard h => exists bytes, hard_to_json h = Some bytes /\ hard_from_json bytes = Some h
  | OpAppend es => Forall codec_ok es /\
      StronglySorted (fun a b => le_index a < le_index b) (st_log m ++ es) /\ len (log_text (st_log m ++ es)) <= u64_max
  | OpSnapshot p => exists payload, snapshot_ok p payload
  | OpTruncate _ | OpReopen => True
  end.

Fixpoint ops_ok (m : InMemoryInner) (ops : list storage_op) : Prop :=
  match ops with
  | [] => True
  | op :: ops => op_ok m op /\ ops_ok (mem_op m op) ops
  end.

(** The disk and the in-memory storage hold the same. *)
Record same_contents (s : FileStorage) (m : InMemoryInner) (d : Disk) : Prop := {
  sc_log : represents (st_log m) d;
  sc_hard : load_hard_state_file true d = Ok (st_hard m);
  sc_snapshot : load_snapshot_file true true s d = Ok (st_snapshot m);
  sc_legacy : d_legacy d = None;
}.

Lemma same_contents_log s m d es d' :
  same_contents s m d -> represents es d' -> d_hard d' = d_hard d -> d_snap d' = d_snap d -> d_legacy d' = None ->
  same_contents s (mkStorage (st_hard m) es (st_snapshot m)) d'.
Proof.
  intros [_ Hh Hs _] Hrep H1 H2 H3. split; [done| | |done].
  - unfold load_hard_state_file in *. by rewrite H1.
  - unfold load_snapshot_file in *. by rewrite H2.
Qed.

Lemma file_op_refines s m d op :
  keyed s -> same_contents s m d -> op_ok m op ->
  exists d', file_op s op d = (Ok tt, d') /\ same_contents s (mem_op m op) d'.
Proof.
  intros Hkey Hsame Hok. pose proof Hsame as [Hrep Hh Hsn Hleg].
  destruct op as [h|es|after|p|]; cbn [file_op mem_op op_ok] in *.
  - destruct Hok as (bytes & Hj & Hb). unfold save_hard_state_file. rewrite Hj. eexists. split; [done|].
    split; [by destruct Hrep; split| |done|done]. unfold load_hard_state_file. cbn. by rewrite Hb.
  - destruct Hok as (Hc & Hs & Hm). destruct (append_represents es (st_log m) d) as (d' & Ha & Hr & H1 & H2 & H3); try done.
    exists d'. split; [done|]. apply (same_contents_log s m d); congruence.
  - destruct (truncate_represents after (st_log m) d Hrep) as (d' & Ha & Hr & H1 & H2 & H3).
    exists d'. split; [done|]. apply (same_contents_log s m d); congruence.
  - destruct Hok as (payload & Hp). destruct (snapshot_roundtrip s p payload d Hkey Hp) as (d' & Ha & Hl & H1 & H2 & H3 & H4).
    exists d'. split; [done|]. split; [|unfold load_hard_state_file in *; by rewrite H3|done|congruence].
    destruct Hrep. split; rewrite ?H1, ?H2; done.
  - destruct (open_represents (st_log m) d Hrep Hleg) as (d' & Ho & Hr & H1 & H2 & H3).
    exists d'. rewrite Ho. split; [done|]. destruct m as [hd lg sn]. by apply (same_contents_log s (mkStorage hd lg sn) d).
Qed.

Definition empty_disk : Disk := mkDisk None None None None None.

(** C9: the file backend implements the storage when it has a snapshot key and no system call
    fails: from an empty directory every sequence of saves, appends, truncations and restarts,
    in which every value is one the codec reads back, every append keeps the indices of the
    log strictly increasing and the log file stays below 2^64 bytes, succeeds, and what is loaded
    afterwards (log, hard state, snapshot) is what the in-memory storage holds after the same
    operations. *)
Theorem file_storage_refines s ops :
  keyed s -> ops_ok InMemoryStorage_new ops ->
  let m := foldl mem_op InMemoryStorage_new ops in
  exists d, file_run s ops empty_disk = (Ok tt, d) /\ load_log_file true d = Ok (st_log m) /\
    load_hard_state_file true d = Ok (st_hard m) /\ load_snapshot_file true true s d = Ok (st_snapshot m).
Proof.
  intros Hkey Hok m. enough (exists d, file_run s ops empty_disk = (Ok tt, d) /\ same_contents s m d) as (d & Hr & [Hrep Hh Hs _]).
  { exists d. split; [done|]. split; [by apply load_represents|done]. }
  assert (same_contents s InMemoryStorage_new empty_disk) as Hsame by (by split; [split; try done; constructor|..]).
  subst m. revert Hok Hsame. generalize InMemoryStorage_new, empty_disk.
  induction ops as [|op ops IH]; intros m d Hok Hsame; cbn [file_run foldl]; [eauto|].
  destruct Hok as [H1 H2]. destruct (file_op_refines s m d op) as (d' & -> & Hs'); [done..|]. by apply IH.
Qed.

(** ** What is not recovered *)

(** A torn line stops the node: when the write of an entry is cut off inside the line, the
    entries before it are intact, but neither loading the log nor opening the directory succeeds
    any more (the index is not extended, so that opening has to parse the torn line). *)
Theorem torn_append_refused io e n es d :
  represents es d -> d_legacy d = None -> codec_ok e -> len (log_text es) + len (line_of e) + 1 <= u64_max ->
  ap_open io = true -> ap_seek io = true -> ap_write io 0 = Some n ->
  take n (line_of e) <> [] -> (n <= length (line_of e))%nat ->
  utf8_valid (take n (line_of e)) = true -> entry_from_json (take n (line_of e)) = None ->
  exists d', append_log_file io [e] d = (Err Io, d') /\
    load_log_file true d' = Err Codec /\ open_storage open_io_ok d' = (Err Codec, d').
Proof.
  intros [Hl Hi Hc Hs Hmax] Hleg He Hm Hop Hsk Hw Hne Hn Hu Hbad.
  set (torn := take n (line_of e)) in *.
  assert (NEWLINE ∉ torn) as Hnl.
  { intros Hin. apply (co_newline e He). subst torn. rewrite <- (take_drop n (line_of e)). set_solver. }
  assert (file_lines torn = [torn]) as Hlines by (by apply file_lines_last).
  assert (parse_entry_line torn = Err Codec) as Hparse.
  { unfold parse_entry_line. rewrite bool_decide_eq_false_2 by done. rewrite Hbad. by case_if. }
  pose proof (co_len e He). exists (put_log (log_text es ++ torn) (if ap_idx_open io then put_idx (idx_text es 0) d else d)).
  assert (append_log_file io [e] d = (Err Io, put_log (log_text es ++ torn) (if ap_idx_open io then put_idx (idx_text es 0) d else d))) as Ha.
  { unfold append_log_file. rewrite Hop, Hsk. cbn [negb append_entries]. rewrite Hl, (co_json e He).
    destruct (Z.ltb_spec MAX_LOG_ENTRY_BYTES (len (line_of e))); [lia|]. rewrite Hw, take_app_le by lia.
    fold torn. destruct (ap_idx_open io); [|done]. cbn [put_log d_idx]. by rewrite Hi. }
  split; [done|]. set (d' := put_log _ _). assert (d_log d' = Some (log_text es ++ torn)) as Hlog by done.
  assert (default [] (d_idx d') = idx_text es 0) as Hidx by (subst d'; cbn; by destruct (ap_idx_open io)).
  assert (d_legacy d' = None) as Hleg' by (subst d'; cbn; by destruct (ap_idx_open io)). clearbody d'.
  split.
  { rewrite (load_text es torn d') by done. rewrite Hlines. cbn [parse_lines]. by rewrite Hparse. }
  unfold open_storage, migrate_legacy_log. rewrite Hleg'. cbn [open_io_ok oi_create_dir negb].
  unfold reconcile_log_index. rewrite Hlog. cbn [open_io_ok oi_log_meta oi_count_open oi_idx_meta2 oi_log_open negb].
  rewrite count_text, Hlines, filter_cons_True by done. cbn [filter list_filter]. change (len [torn]) with 1.
  rewrite Hidx, idx_text_len, Z.mul_comm, Z.div_mul by done.
  destruct (Z.eqb_spec (len es) (len es + 1)); [lia|]. rewrite andb_false_r.
  unfold read_lines. rewrite utf8_valid_app by (by try apply utf8_text). cbn [andb result_bind].
  rewrite file_lines_text, Hlines, rebuild_text by (done || lia). cbn [rebuild_loop]. by rewrite Hparse.
Qed.

Lemma set_len_all bs : set_len (len bs) bs = bs.
Proof. rewrite <- (app_nil_r bs) at 2. apply set_len_prefix. Qed.

(** An index that is shorter than the log and has no record beyond [after]: nothing is cut. *)
Lemma lookup_past_index es extra after d :
  d_idx d = Some (idx_text es 0) -> d_log d = Some extra -> log_text es `prefix_of` extra -> es <> [] ->
  Forall codec_ok es -> len (log_text es) <= u64_max -> Forall (fun e => le_index e <= after) es ->
  lookup_truncate_offsets true true after d = Some (len extra, len (idx_text es 0)).
Proof.
  intros Hidx Hlog [more ->] Hne Hc Hmax Hle. unfold lookup_truncate_offsets. rewrite Hidx, Hlog. cbn [negb].
  pose proof (idx_text_len es 0) as Hil.
  assert (0 < len es) by (destruct es as [|x l]; [done|rewrite len_cons; pose proof (len_nonneg l); lia]).
  destruct (Z.eqb_spec (len (idx_text es 0)) 0); [unfold LOG_INDEX_RECORD_LEN in *; lia|].
  rewrite Hil at 1. rewrite Z.mul_comm, Z.mod_mul, Z.eqb_refl by done. cbn [negb orb].
  destruct (exists_last Hne) as (init & e & E).
  assert (in_u64 (len (log_text init))) as Hu by (rewrite E in Hmax; by eapply text_prefix_max).
  assert (idx_last_offset (idx_text es 0) = len (log_text init)) as -> by (rewrite E; by apply (idx_last_text init e 0)).
  assert (len (log_text es) = len (log_text init) + len (line_of e) + 1) as Hlen by (by rewrite E, log_text_snoc_len).
  rewrite len_app. pose proof (len_nonneg (line_of e)). pose proof (len_nonneg more).
  destruct (Z.leb_spec (len (log_text es) + len more) (len (log_text init))); [lia|].
  rewrite Hil at 1. rewrite Z.mul_comm, Z.div_mul by done.
  replace (Z.to_nat (len es)) with (length (es ++ [])) by (rewrite app_nil_r; unfold len; lia).
  pose proof (find_record_text [] es [] after) as Hfind. cbn [app] in Hfind. rewrite app_nil_r in *.
  change (len []) with 0 in Hfind. by rewrite Hfind.
Qed.

(** A refused batch is half kept, and truncation does not remove it: when the second entry of a
    batch exceeds the size limit, the append is refused but its first entry stays in the log without
    an index record.  A truncation that should remove this entry then takes the fast path, finds no
    record beyond the cut, reports success and leaves the entry in the log. *)
Theorem truncate_misses_unindexed es e1 e2 line2 after d :
  represents es d -> es <> [] -> codec_ok e1 -> len (log_text (es ++ [e1])) <= u64_max ->
  entry_to_json e2 = Some line2 -> MAX_LOG_ENTRY_BYTES < len line2 ->
  Forall (fun e => le_index e <= after) es -> after < le_index e1 ->
  exists d' d'', append_log_file append_io_ok [e1; e2] d = (Err Codec, d') /\
    truncate_log_after_file truncate_io_ok after d' = (Ok tt, d'') /\
    load_log_file true d'' = Ok (es ++ [e1]).
Proof.
  intros [Hl Hi Hc Hs Hmax] Hne He1 Hm Hj2 Hbig Hle Hgt. pose proof (co_len e1 He1).
  set (d' := put_log (log_text (es ++ [e1])) (put_idx (idx_text es 0) d)). exists d', d'.
  split.
  { unfold append_log_file. cbn [append_io_ok ap_open ap_seek ap_idx_open ap_write negb append_entries].
    rewrite Hl, (co_json e1 He1), Hj2. destruct (Z.ltb_spec MAX_LOG_ENTRY_BYTES (len (line_of e1))); [lia|].
    destruct (Z.ltb_spec MAX_LOG_ENTRY_BYTES (len line2)); [|lia]. cbn [put_log d_idx]. rewrite Hi.
    subst d'. rewrite log_text_app, log_text_cons. done. }
  assert (lookup_truncate_offsets true true after d' = Some (len (log_text (es ++ [e1])), len (idx_text es 0))) as Hlook
    by (apply lookup_past_index; try done; rewrite log_text_app; by apply prefix_app_r).
  split.
  - unfold truncate_log_after_file. cbn [d' put_log d_log truncate_io_ok tr_idx_read tr_log_meta]. fold d'. rewrite Hlook.
    unfold truncate_fast. cbn. by rewrite !set_len_all.
  - rewrite (load_text (es ++ [e1]) [] d'); [cbn; by rewrite app_nil_r|by rewrite app_nil_r|by apply Forall_app; auto|done].
Qed.

End Files.

(** ** Concrete files *)

Definition file_entry (i : Z) : LogEntry := mkEntry 1 i Noop.
Definition file_demo_hard : HardState := mkHard 3 (Some "n1").
Definition file_demo_snapshot : PersistedSnapshot := mkPersisted 2 1 ["n1"] [Byte.x07].

(** A codec for small entries; entry 9 has an oversized text. *)
#[local] Instance file_demo_crates : StorageCrates := {|
  entry_to_json e :=
    if le_index e =? 9 then Some (replicate (Z.to_nat (MAX_LOG_ENTRY_BYTES + 1)) Byte.x61)
    else Some (as_bytes "{e" ++ [byte.of_Z (0x30 + le_index e)] ++ as_bytes "}");
  entry_from_json bs :=
    match bs with
    | [_; _; b; Byte.x7d] => Some (file_entry (byte.unsigned b - 0x30))
    | _ => None
    end;
  entries_from_json _ := None;
  hard_to_json _ := Some (as_bytes "h");
  hard_from_json _ := Some file_demo_hard;
  snapshot_to_json _ := Some (as_bytes "s");
  snapshot_from_json _ := Some file_demo_snapshot;
  hmac_sha256 _ _ := replicate 32 Byte.x05;
|}.

Lemma file_entry_ok i : 1 <= i <= 8 -> codec_ok (file_entry i).
Proof.
  intros Hi. assert (exists n : nat, (n < 8)%nat /\ i = Z.of_nat (S n)) as (n & Hn & ->) by (exists (Z.to_nat (i - 1)); lia).
  do 8 (destruct n as [|n]; [by split; [..|apply (bool_decide_unpack _)|apply (bool_decide_unpack _)| | | |]; vm_compute|]). lia.
Qed.

Definition two_entries : list LogEntry := [file_entry 1; file_entry 2].
Definition two_disk : Disk := (append_log_file append_io_ok two_entries empty_disk).2.

Lemma two_represents : represents two_entries two_disk.
Proof.
  split; [by vm_compute|by vm_compute|by repeat constructor; apply file_entry_ok| |by vm_compute].
  repeat constructor; cbn; lia.
Qed.

(** The second write of the batch fails before its first byte. *)
Definition second_write_fails : AppendIo :=
  mkAppendIo true true true (fun k => match k with O => None | _ => Some O end) true None true.

Lemma append_recovers_witness :
  exists d', (append_log_file second_write_fails [file_entry 3; file_entry 4] two_disk) = (Err Io, d') /\
    exists k d'', open_storage open_io_ok d' = (Ok (mkFile None false), d'') /\
      load_log_file true d'' = Ok (two_entries ++ take k [file_entry 3; file_entry 4]).
Proof.
  destruct (append_log_file second_write_fails [file_entry 3; file_entry 4] two_disk) as [r d'] eqn:E.
  destruct (append_recovers second_write_fails two_entries [file_entry 3; file_entry 4] two_disk r d')
    as (k & d'' & Ho & _ & Hl & _); [apply two_represents|done|by repeat constructor; apply file_entry_ok| |by vm_compute|done| |].
  - repeat constructor; cbn; lia.
  - vm_compute in E. injection E as _ <-. right. by vm_compute.
  - assert (r = Err Io) as -> by (by vm_compute in E; injection E as <- _). exists d'. split; [done|]. by exists k, d''.
Defined.

(** The log was cut, the index was not. *)
Definition index_not_cut : TruncateIo := mkTruncateIo true true true true true false true true true true true.

Lemma truncate_recovers_witness :
  exists es' d'', open_storage open_io_ok (truncate_log_after_file index_not_cut 1 two_disk).2 = (Ok (mkFile None false), d'') /\
    load_log_file true d'' = Ok es' /\ (es' = two_entries \/ es' = [file_entry 1]).
Proof.
  destruct (truncate_log_after_file index_not_cut 1 two_disk) as [r d'] eqn:E.
  destruct (truncate_recovers index_not_cut 1 two_entries two_disk r d') as (es' & d'' & Ho & _ & Hl & Hw & _);
    [apply two_represents|done|done|]. by exists es', d''.
Defined.

Definition demo_storage : FileStorage := with_cluster_secret [] (mkFile None false).

Lemma demo_keyed : keyed demo_storage.
Proof. by eexists. Qed.

Lemma demo_snapshot_ok : snapshot_ok file_demo_snapshot (as_bytes "s").
Proof. by split. Qed.

Lemma snapshot_authentic_witness :
  exists payload, snapshot_from_json payload = Some file_demo_snapshot /\
    d_snap (save_snapshot_file true file_demo_snapshot demo_storage empty_disk).2 =
      Some (snapshot_bytes payload 2 1 (replicate 32 Byte.x05)).
Proof.
  destruct (snapshot_authentic (replicate 32 Byte.x05) false (save_snapshot_file true file_demo_snapshot demo_storage empty_disk).2
    file_demo_snapshot) as (payload & H1 & H2); [by vm_compute|]. by exists payload.
Defined.

Definition demo_ops : list storage_op :=
  [OpHard file_demo_hard; OpAppend two_entries; OpAppend [file_entry 3; file_entry 4]; OpTruncate 3; OpReopen;
   OpSnapshot file_demo_snapshot; OpAppend [file_entry 5]; OpTruncate 0; OpAppend [file_entry 1]].

Lemma file_storage_refines_witness :
  exists d, file_run demo_storage demo_ops empty_disk = (Ok tt, d) /\
    load_log_file true d = Ok [file_entry 1] /\ load_hard_state_file true d = Ok file_demo_hard /\
    load_snapshot_file true true demo_storage d = Ok (Some file_demo_snapshot).
Proof.
  apply (file_storage_refines demo_storage demo_ops demo_keyed). cbn [demo_ops ops_ok op_ok].
  repeat (split; [first [done | by eexists | by exists (as_bytes "s")
    | split; [by repeat constructor; apply file_entry_ok|split; [cbn; repeat constructor; cbn; lia|by vm_compute]]]|]). done.
Defined.

(** Without increasing indices the backends differ: the in-memory storage drops every entry
    above the cut, the file everything from the first such entry on. *)
Example unordered_appends_differ :
  let ops := [OpAppend [file_entry 5]; OpAppend [file_entry 3; file_entry 6]; OpTruncate 4] in
  st_log (foldl mem_op InMemoryStorage_new ops) = [file_entry 3] /\
  exists d, file_run demo_storage ops empty_disk = (Ok tt, d) /\ load_log_file true d = Ok [].
Proof. split; [by vm_compute|]. eexists. split; vm_compute; reflexivity. Qed.

(** Without a key and without permission to do without one, snapshots are refused. *)
Example unkeyed_storage_refuses_snapshots :
  exists e, (save_snapshot_file true file_demo_snapshot (mkFile None false) empty_disk).1 = Err e.
Proof. eexists. vm_compute. reflexivity. Qed.

Lemma torn_append_refused_witness :
  exists d', append_log_file (mkAppendIo true true true (fun _ => Some 2%nat) true None true) [file_entry 3] two_disk = (Err Io, d') /\
    load_log_file true d' = Err Codec /\ open_storage open_io_ok d' = (Err Codec, d').
Proof.
  apply (torn_append_refused _ (file_entry 3) 2 two_entries two_disk); try done;
    [apply two_represents|by apply file_entry_ok|cbn; lia].
Defined.

Lemma truncate_misses_unindexed_witness :
  exists d' d'', append_log_file append_io_ok [file_entry 3; file_entry 9] two_disk = (Err Codec, d') /\
    truncate_log_after_file truncate_io_ok 2 d' = (Ok tt, d'') /\
    load_log_file true d'' = Ok (two_entries ++ [file_entry 3]).
Proof.
  apply (truncate_misses_unindexed two_entries (file_entry 3) (file_entry 9) (replicate (Z.to_nat (MAX_LOG_ENTRY_BYTES + 1)) Byte.x61) 2 two_disk);
    [apply two_represents|done|by apply file_entry_ok|by vm_compute|reflexivity| |by repeat constructor|done].
  unfold len. rewrite length_replicate, Z2Nat.id; unfold MAX_LOG_ENTRY_BYTES; lia.
Defined.
