(* ===== verification/RaftConfig.v ===== *)
(** * Cluster configuration, health reports and the replication log
      ([craton-hsm-cluster/src/config.rs], [health.rs], [replication.rs], [from_config] of [raft.rs])

    The configuration with its defaults, its validation and the sources of the cluster
    secret; the node that is built from it; health reports over nodes and the detection of
    two leaders; the bounded log of replication events with its checksums.  The file system
    and the process environment are [ConfigEnv], SHA-256 and HMAC [ReplCrates]; uptimes are
    arguments.  Error messages are the constructors of [ConfigError].  The secure channels
    and transports of [replication.rs] are input and output. *)

From coqutil Require Import Byte.
From stdpp Require Import prelude gmap strings list sorting.
From Stdlib Require Import ZArith Lia.
From S2P Require Import Prelude RustStd RaftLog RaftStateMachine RaftGuard RaftNode.
Local Open Scope string_scope.
Local Open Scope list_scope.
Local Open Scope Z_scope.
Local Open Scope rust_scope.

Module Config.

Inductive ReplicationMode : Type := Synchronous | Asynchronous | SemiSynchronous.

Record PeerConfig : Type := mkPeer { pc_node_id : string; pc_addr : string }.

Record ClusterConfig : Type := mkConfig {
  cc_node_id : string;
  cc_listen_addr : string;
  cc_peers : list PeerConfig;
  cc_replication_mode : ReplicationMode;
  cc_election_timeout_ms : Z;
  cc_heartbeat_interval_ms : Z;
  cc_snapshot_interval : Z;
  cc_max_log_entries : Z;
  cc_max_message_age_ms : Z;
  cc_max_future_skew_ms : Z;
  cc_cluster_secret_hex : option string;
  cc_cluster_secret_file : option string;
  cc_cluster_secret_env : option string;
  cc_allow_insecure : bool;
  cc_vote_rate_limit_capacity : Z;
  cc_vote_rate_limit_refill_interval_ms : Z;
  cc_min_config_change_interval_ms : Z;
  cc_legacy_reply_hmac_tags : bool;
}.

Definition default_listen_addr : string := "127.0.0.1:9443".
Definition default_election_timeout_ms : Z := 1000.
Definition default_heartbeat_interval_ms : Z := 300.
Definition default_snapshot_interval : Z := 10000.
Definition default_max_log_entries : Z := 100000.
Definition default_max_future_skew_ms : Z := 1000.
Definition default_max_message_age_ms : Z := 30000.
Definition default_vote_rate_limit_capacity : Z := 3.
Definition default_vote_rate_limit_refill_ms : Z := 5000.
Definition default_min_config_change_interval_ms : Z := 500.
Definition default_legacy_reply_hmac_tags : bool := true.

Definition ClusterConfig_default : ClusterConfig :=
  mkConfig "" default_listen_addr [] Synchronous default_election_timeout_ms default_heartbeat_interval_ms
    default_snapshot_interval default_max_log_entries default_max_message_age_ms default_max_future_skew_ms
    None None None false default_vote_rate_limit_capacity default_vote_rate_limit_refill_ms
    default_min_config_change_interval_ms default_legacy_reply_hmac_tags.

(** Where the secret is said to be. *)
Inductive SecretSource : Type := FromFile | FromEnv | FromHex.

Inductive ConfigError : Type :=
| EmptyNodeId | BadListenAddr | ZeroElectionTimeout | ZeroHeartbeat | HeartbeatTooLong | ZeroMaxLogEntries
| ZeroSnapshotInterval | ZeroMaxMessageAge | ZeroMaxFutureSkew | SkewTooLarge
| EmptyPeerId | PeerIsSelf (id : string) | DuplicatePeer (id : string) | BadPeerAddr (id : string)
| OddHex (src : SecretSource) | BadHexChar (src : SecretSource) | SecretLength (src : SecretSource) (got : Z)
| EmptyEnvName | NoSecretConfigured
| CannotStat | NotRegularFile | FilePermissions (mode : Z) | CannotReadFile | CannotReadEnv
| NodeWithoutSecret.

(** ** Hexadecimal secrets *)

Definition hex_nibble (b : byte) : option Z :=
  if byte_in b 0x30 0x39 then Some (byte.unsigned b - 0x30)
  else if byte_in b 0x61 0x66 then Some (byte.unsigned b - 0x61 + 10)
  else if byte_in b 0x41 0x46 then Some (byte.unsigned b - 0x41 + 10)
  else None.

(** The loop by steps of two, on a slice of even length. *)
Fixpoint decode_hex_loop (bytes : list byte) : option (list byte) :=
  match bytes with
  | b0 :: b1 :: r =>
      hi ← hex_nibble b0; lo ← hex_nibble b1; rest ← decode_hex_loop r;
      Some (byte.of_Z (Z.lor (Z.shiftl hi 4) lo) :: rest)
  | _ => Some []
  end.

Definition decode_hex (src : SecretSource) (s : string) : result (list byte) ConfigError :=
  if negb (len (as_bytes s) mod 2 =? 0) then Err (OddHex src)
  else match decode_hex_loop (as_bytes s) with Some bs => Ok bs | None => Err (BadHexChar src) end.

Definition decode_32 (src : SecretSource) (bytes : list byte) : result (option (list byte)) ConfigError :=
  if negb (len bytes =? 32) then Err (SecretLength src (len bytes)) else Ok (Some bytes).

(** ** Validation *)

Definition has_colon (s : string) : bool := bool_decide (Byte.x3a ∈ as_bytes s).

Definition has_any_cluster_secret (c : ClusterConfig) : bool :=
  bool_decide (is_Some (cc_cluster_secret_hex c)) || bool_decide (is_Some (cc_cluster_secret_file c))
  || bool_decide (is_Some (cc_cluster_secret_env c)).

Fixpoint validate_peers (node_id : string) (seen : gset string) (ps : list PeerConfig) : result unit ConfigError :=
  match ps with
  | [] => Ok tt
  | p :: ps =>
      let id := pc_node_id p in
      if String.eqb id "" then Err EmptyPeerId
      else if String.eqb id node_id then Err (PeerIsSelf id)
      else if bool_decide (id ∈ seen) then Err (DuplicatePeer id)
      else if negb (has_colon (pc_addr p)) then Err (BadPeerAddr id)
      else validate_peers node_id ({[ id ]} ∪ seen) ps
  end.

(** [max_future_skew_ms * 2] wraps around at 64 bits. *)
Definition config_validate (c : ClusterConfig) : result unit ConfigError :=
  if String.eqb (cc_node_id c) "" then Err EmptyNodeId
  else if negb (has_colon (cc_listen_addr c)) then Err BadListenAddr
  else if cc_election_timeout_ms c =? 0 then Err ZeroElectionTimeout
  else if cc_heartbeat_interval_ms c =? 0 then Err ZeroHeartbeat
  else if cc_election_timeout_ms c <=? cc_heartbeat_interval_ms c then Err HeartbeatTooLong
  else if cc_max_log_entries c =? 0 then Err ZeroMaxLogEntries
  else if cc_snapshot_interval c =? 0 then Err ZeroSnapshotInterval
  else if cc_max_message_age_ms c =? 0 then Err ZeroMaxMessageAge
  else if cc_max_future_skew_ms c =? 0 then Err ZeroMaxFutureSkew
  else if cc_max_message_age_ms c <=? (cc_max_future_skew_ms c * 2) mod 2 ^ 64 then Err SkewTooLarge
  else
    try _ := validate_peers (cc_node_id c) ∅ (cc_peers c) in
    try _ :=
      match cc_cluster_secret_hex c with
      | Some hex =>
          try bytes := decode_hex FromHex hex in
          if negb (len bytes =? 32) then Err (SecretLength FromHex (len bytes)) else Ok tt
      | None => Ok tt
      end in
    try _ :=
      match cc_cluster_secret_env c with
      | Some var => if String.eqb var "" then Err EmptyEnvName else Ok tt
      | None => Ok tt
      end in
    if negb (has_any_cluster_secret c) && negb (cc_allow_insecure c) then Err NoSecretConfigured else Ok tt.

(** ** The secret *)

(** The file system and the environment: type and mode of a path, text of a file, value of
    a variable. *)
Record ConfigEnv : Type := mkConfigEnv {
  ce_stat : string -> option (bool * Z);
  ce_read : string -> option string;
  ce_var : string -> option string;
}.

Definition check_secret_file_permissions (env : ConfigEnv) (path : string) : result unit ConfigError :=
  match ce_stat env path with
  | None => Err CannotStat
  | Some (is_file, mode) =>
      if negb is_file then Err NotRegularFile
      else if negb (Z.land mode 0x3F =? 0) then Err (FilePermissions mode)
      else Ok tt
  end.

Definition decoded_cluster_secret (env : ConfigEnv) (c : ClusterConfig) : result (option (list byte)) ConfigError :=
  match cc_cluster_secret_file c with
  | Some path =>
      try _ := check_secret_file_permissions env path in
      match ce_read env path with
      | None => Err CannotReadFile
      | Some raw => try bytes := decode_hex FromFile (trim_str raw) in decode_32 FromFile bytes
      end
  | None =>
      match cc_cluster_secret_env c with
      | Some var =>
          match ce_var env var with
          | None => Err CannotReadEnv
          | Some raw => try bytes := decode_hex FromEnv (trim_str raw) in decode_32 FromEnv bytes
          end
      | None =>
          match cc_cluster_secret_hex c with
          | None => Ok None
          | Some hex => try bytes := decode_hex FromHex hex in decode_32 FromHex bytes
          end
      end
  end.

(** ** The configured node *)

(** [insecure] tells whether the crate is compiled with the feature
    [insecure-no-cluster-secret]. *)
Definition require_cluster_secret_for_production (insecure : bool) (n : RaftNode) : result unit ConfigError :=
  if insecure then Ok tt
  else match n_cluster_secret n with None => Err NodeWithoutSecret | Some _ => Ok tt end.

(** The assignments of [from_config] to the fields of a new node. *)
Definition configure (c : ClusterConfig) (secret : option (list byte)) (n : RaftNode) : RaftNode :=
  let allowed := {[ n_id n ]} ∪ list_to_set (n_peers n) : gset string in
  mkNode (n_id n) (n_state n) (n_current_term n) (n_voted_for n) (n_log n) (n_peers n)
    (n_base_election_timeout_ms n) (n_election_timeout_ms n) (n_last_heartbeat_ms n)
    (match secret with Some s => Some s | None => n_cluster_secret n end)
    (cc_max_message_age_ms c) (cc_max_future_skew_ms c) (n_next_index n)
    (n_match_index n) (n_replay_cache n) (n_storage n) (n_state_machine n)
    (n_last_snapshot_index n) (n_last_snapshot_term n) (cc_snapshot_interval c)
    (set_allowed_peers (Some allowed)
       (VoteRateLimiter_new (cc_vote_rate_limit_capacity c) (cc_vote_rate_limit_refill_interval_ms c)))
    (n_pending_config_changes n) (n_last_config_change_at n) (cc_min_config_change_interval_ms c)
    (n_last_heartbeat_monotonic_ms n) (n_snapshot_chunk_buffers n) (n_recent_departed_peers n)
    (n_forged_reply_rejects n) (n_forged_snapshot_rejects n) (n_current_leader_hint n)
    (cc_legacy_reply_hmac_tags c) (n_legacy_reply_hmac_accepts n) (n_apply_halted n).

Definition from_config (insecure : bool) (env : ConfigEnv) (jitter : Z) (c : ClusterConfig) : result RaftNode ConfigError :=
  try _ := config_validate c in
  let node := RaftNode_new (cc_node_id c) (map pc_node_id (cc_peers c)) (cc_election_timeout_ms c) jitter in
  try secret := decoded_cluster_secret env c in
  let node := configure c secret node in
  try _ := require_cluster_secret_for_production insecure node in
  Ok node.

(** ** Health *)

Record NodeHealth : Type := mkNodeHealth {
  nh_node_id : string;
  nh_state : RaftState;
  nh_term : Z;
  nh_last_heartbeat : Z;
  nh_log_index : Z;
  nh_uptime_secs : Z;
}.

Record ClusterHealth : Type := mkClusterHealth {
  ch_nodes : list NodeHealth;
  ch_leader_id : option string;
  ch_healthy : bool;
  ch_quorum_met : bool;
}.

Definition quorum_met (reachable total : Z) : bool := if total =? 0 then false else total / 2 <? reachable.

(** A node with its uptime. *)
Definition check_node (n : RaftNode * Z) : NodeHealth :=
  mkNodeHealth (n_id n.1) (n_state n.1) (n_current_term n.1) (n_last_heartbeat_ms n.1) (last_index (n_log n.1)) n.2.

Definition leads (h : NodeHealth) : bool := bool_decide (nh_state h = Leader).

(** [max_by_key]: the last of the elements with the greatest key. *)
Fixpoint max_by_term (best : option NodeHealth) (hs : list NodeHealth) : option NodeHealth :=
  match hs with
  | [] => best
  | h :: hs =>
      max_by_term (match best with
                   | Some b => if nh_term h <? nh_term b then Some b else Some h
                   | None => Some h
                   end) hs
  end.

Definition check_cluster_with_total (nodes : list (RaftNode * Z)) (total : Z) : ClusterHealth :=
  let total := Z.max total (len nodes) in
  let node_healths := map check_node nodes in
  let leaders := filter (fun h => leads h = true) node_healths in
  let leader_terms := map nh_term leaders in
  let canonical_leader := max_by_term None leaders in
  let same_term_count :=
    match canonical_leader with
    | Some h => len (filter (fun x => x = nh_term h) leader_terms)
    | None => 0
    end in
  let leader_id :=
    match canonical_leader with
    | Some h => if same_term_count =? 1 then Some (nh_node_id h) else None
    | None => None
    end in
  let quorum := quorum_met (len nodes) total in
  mkClusterHealth node_healths leader_id (bool_decide (is_Some leader_id) && quorum) quorum.

Definition check_cluster (nodes : list (RaftNode * Z)) : ClusterHealth := check_cluster_with_total nodes (len nodes).

Fixpoint equal_neighbours (ts : list Z) : bool :=
  match ts with
  | a :: (b :: _) as r => (a =? b) || equal_neighbours r
  | _ => false
  end.

Definition is_split_brain (nodes : list RaftNode) : bool :=
  let terms := map n_current_term (filter (fun n => n_state n = Leader) nodes) in
  if len terms <? 2 then false else equal_neighbours (merge_sort Z.le terms).

(** ** The replication log *)

Inductive ReplicationEvent : Type := KeyCreated | KeyUpdated | KeyDeleted | KeyRotated | ConfigChanged.

Definition event_tag (e : ReplicationEvent) : byte :=
  match e with
  | KeyCreated => Byte.x01 | KeyUpdated => Byte.x02 | KeyDeleted => Byte.x03 | KeyRotated => Byte.x04
  | ConfigChanged => Byte.x05
  end.

Record ReplicationEntry : Type := mkReplEntry {
  re_sequence : Z;
  re_timestamp : Z;
  re_event : ReplicationEvent;
  re_payload : list byte;
  re_checksum : list byte;
}.

Class ReplCrates := {
  sha256 : list byte -> list byte;
  repl_hmac : list byte -> list byte -> list byte;
}.

Definition DEFAULT_MAX_PAYLOAD_BYTES : Z := 1048576.
Definition DEFAULT_MAX_LOG_ENTRIES : Z := 100000.

Record ReplicationLog : Type := mkReplLog {
  rl_entries : list ReplicationEntry;
  rl_next_sequence : Z;
  rl_max_payload_bytes : Z;
  rl_max_log_entries : Z;
  rl_cluster_secret : option (list byte);
  rl_require_cluster_secret : bool;
  rl_allow_insecure : bool;
}.

(** [assert!(max_log_entries > 0)] *)
Definition with_limits (max_payload_bytes max_log_entries : Z) : comp ReplicationLog Empty_set :=
  if 0 <? max_log_entries then COk (mkReplLog [] 1 max_payload_bytes max_log_entries None false false) else CPanic.

Definition ReplicationLog_new : comp ReplicationLog Empty_set := with_limits DEFAULT_MAX_PAYLOAD_BYTES DEFAULT_MAX_LOG_ENTRIES.

Definition set_repl_secret (secret : list byte) (l : ReplicationLog) : ReplicationLog :=
  mkReplLog (rl_entries l) (rl_next_sequence l) (rl_max_payload_bytes l) (rl_max_log_entries l) (Some secret)
    (rl_require_cluster_secret l) (rl_allow_insecure l).

Definition is_authenticated (l : ReplicationLog) : bool := bool_decide (is_Some (rl_cluster_secret l)).

Inductive AppendError : Type := PayloadTooLarge | NoClusterSecret.

Section Repl.

Context `{ReplCrates}.

Definition checksum_input (event : ReplicationEvent) (payload : list byte) : list byte :=
  [event_tag event] ++ to_be_bytes 4 (len payload mod 2 ^ 32) ++ payload.

Definition compute_checksum (event : ReplicationEvent) (payload : list byte) (secret : option (list byte)) : list byte :=
  match secret with
  | Some key => repl_hmac key (checksum_input event payload)
  | None => sha256 (checksum_input event payload)
  end.

Definition verify_checksum (e : ReplicationEntry) : bool :=
  bool_decide (compute_checksum (re_event e) (re_payload e) None = re_checksum e).
Definition verify_checksum_with_secret (secret : list byte) (e : ReplicationEntry) : bool :=
  bool_decide (compute_checksum (re_event e) (re_payload e) (Some secret) = re_checksum e).

Definition repl_append (event : ReplicationEvent) (payload : list byte) (timestamp : Z) (l : ReplicationLog)
    : result Z AppendError * ReplicationLog :=
  if rl_max_payload_bytes l <? len payload then (Err PayloadTooLarge, l)
  else if negb (is_authenticated l) && (rl_require_cluster_secret l || negb (rl_allow_insecure l)) then (Err NoClusterSecret, l)
  else
    let seq := rl_next_sequence l in
    let entry := mkReplEntry seq timestamp event payload (compute_checksum event payload (rl_cluster_secret l)) in
    let entries := if rl_max_log_entries l <=? len (rl_entries l) then drop 1 (rl_entries l) else rl_entries l in
    (Ok seq, mkReplLog (entries ++ [entry]) (u64_succ seq) (rl_max_payload_bytes l) (rl_max_log_entries l)
               (rl_cluster_secret l) (rl_require_cluster_secret l) (rl_allow_insecure l)).

End Repl.

(** [binary_search_by_key] on increasing sequence numbers: the entry with the number. *)
Definition repl_get (sequence : Z) (l : ReplicationLog) : option ReplicationEntry :=
  List.find (fun e => re_sequence e =? sequence) (rl_entries l).

Definition entries_since (since : Z) (l : ReplicationLog) : list ReplicationEntry :=
  drop (partition_point (fun e => re_sequence e <? since) (rl_entries l)) (rl_entries l).

Definition latest_sequence (l : ReplicationLog) : Z := saturating_sub (rl_next_sequence l) 1.

End Config.
