(* ===== verification/RaftConfigProofs.v ===== *)
(** * Configuration, health and the replication log: correctness

    What an accepted configuration guarantees and the node built from it; what a healthy
    report and a split brain mean; the bounded log as a window on the history of its
    entries. *)

From coqutil Require Import Byte.
From stdpp Require Import prelude gmap strings list sorting.
From Stdlib Require Import ZArith Lia.
From S2P Require Import Prelude RustStd RaftLog RaftStateMachine RaftGuard RaftNode RaftConfig.
Import Config.
Local Open Scope string_scope.
Local Open Scope list_scope.
Local Open Scope Z_scope.
Local Open Scope rust_scope.

(** ** Validation *)

Definition peers_ok (node_id : string) (seen : gset string) (ps : list PeerConfig) : Prop :=
  Forall (fun p => pc_node_id p <> "" /\ pc_node_id p <> node_id /\ pc_node_id p ∉ seen /\ has_colon (pc_addr p) = true) ps /\
  NoDup (map pc_node_id ps).

Lemma validate_peers_ok node_id seen ps : validate_peers node_id seen ps = Ok tt <-> peers_ok node_id seen ps.
Proof.
  revert seen. induction ps as [|p ps IH]; intros seen; cbn [validate_peers map].
  { split; [split; constructor|done]. }
  unfold peers_ok. cbn [map]. rewrite Forall_cons, NoDup_cons.
  destruct (String.eqb (pc_node_id p) "") eqn:E1; [apply String.eqb_eq in E1; naive_solver|].
  destruct (String.eqb (pc_node_id p) node_id) eqn:E2; [apply String.eqb_eq in E2; naive_solver|].
  apply String.eqb_neq in E1, E2. case_bool_decide as E3; [naive_solver|].
  destruct (has_colon (pc_addr p)) eqn:E4; cbn [negb]; [|naive_solver].
  rewrite IH. unfold peers_ok. split.
  - intros [Hf Hn]. split_and!; try done.
    + eapply Forall_impl; [exact Hf|]. set_solver.
    + rewrite list_elem_of_fmap. intros (q & Hq & Hin). rewrite Forall_forall in Hf. specialize (Hf q Hin). set_solver.
  - intros [[_ Hf] [Hn Hnd]]. split; [|done]. apply Forall_forall. intros q Hq. rewrite Forall_forall in Hf.
    destruct (Hf q Hq) as (? & ? & ? & ?). split_and!; try done.
    assert (pc_node_id q <> pc_node_id p); [|set_solver]. intros E. apply Hn. rewrite <- E. by apply list_elem_of_fmap_2.
Qed.

Definition hex_secret (src : SecretSource) (hex : string) (secret : list byte) : Prop :=
  decode_hex src hex = Ok secret /\ len secret = 32.

(** The documented requirements. *)
Record config_ok (c : ClusterConfig) : Prop := {
  co_node_id : cc_node_id c <> "";
  co_listen : has_colon (cc_listen_addr c) = true;
  co_timeouts : cc_heartbeat_interval_ms c <> 0 /\ cc_heartbeat_interval_ms c < cc_election_timeout_ms c /\ cc_election_timeout_ms c <> 0;
  co_limits : cc_max_log_entries c <> 0 /\ cc_snapshot_interval c <> 0 /\ cc_max_message_age_ms c <> 0;
  co_skew : cc_max_future_skew_ms c <> 0 /\ (cc_max_future_skew_ms c * 2) mod 2 ^ 64 < cc_max_message_age_ms c;
  co_peers : Forall (fun p => pc_node_id p <> "" /\ pc_node_id p <> cc_node_id c /\ has_colon (pc_addr p) = true) (cc_peers c);
  co_distinct : NoDup (map pc_node_id (cc_peers c));
  co_hex : forall hex, cc_cluster_secret_hex c = Some hex -> exists secret, hex_secret FromHex hex secret;
  co_env : cc_cluster_secret_env c <> Some "";
  co_secret : has_any_cluster_secret c = true \/ cc_allow_insecure c = true;
}.

Lemma result_bind_Ok {A X E} (m : result A E) (k : A -> result X E) x :
  result_bind m k = Ok x <-> exists a, m = Ok a /\ k a = Ok x.
Proof. destruct m; cbn; naive_solver. Qed.

Lemma hex_checked c :
  match cc_cluster_secret_hex c with
  | Some hex => try bytes := decode_hex FromHex hex in
      if negb (len bytes =? 32) then Err (SecretLength FromHex (len bytes)) else Ok tt
  | None => Ok tt
  end = Ok tt <-> forall hex, cc_cluster_secret_hex c = Some hex -> exists secret, hex_secret FromHex hex secret.
Proof.
  destruct (cc_cluster_secret_hex c) as [hex|]; [|naive_solver]. unfold hex_secret. rewrite result_bind_Ok. split.
  - intros (bs & Hd & Hl) ? [= <-]. exists bs. case_if; [done|]. bool_to_prop. done.
  - intros Hh. destruct (Hh hex eq_refl) as (bs & Hd & Hl). exists bs. split; [done|]. by rewrite Hl.
Qed.

Lemma config_validate_ok c : config_validate c = Ok tt <-> config_ok c.
Proof.
  unfold config_validate. split.
  - repeat (case_if; [done|]). intros Hr. apply result_bind_Ok in Hr as ([] & Hp & Hr).
    apply result_bind_Ok in Hr as ([] & Hh & Hr). pose proof (proj1 (hex_checked c) Hh) as Hx. apply result_bind_Ok in Hr as ([] & He & Hs).
    apply validate_peers_ok in Hp as [Hf Hn]. rewrite !negb_false_iff in *. bool_to_prop.
    repeat match goal with E : String.eqb _ _ = false |- _ => apply String.eqb_neq in E end.
    split; try done; try lia.
    + eapply Forall_impl; [exact Hf|]. naive_solver.
    + intros Ev. by rewrite Ev in He.
    + destruct (has_any_cluster_secret c), (cc_allow_insecure c); naive_solver.
  - intros [H1 H2 (H3 & H4 & H5) (H6 & H7 & H8) [H9 H10] Hp Hn Hh He Hs].
    rewrite (proj2 (String.eqb_neq _ _) H1), H2. cbn [negb].
    repeat (rewrite (proj2 (Z.eqb_neq _ _)) by done). rewrite !(proj2 (Z.leb_gt _ _)) by done.
    assert (Hv : validate_peers (cc_node_id c) ∅ (cc_peers c) = Ok tt).
    { apply validate_peers_ok. split; [|done]. eapply Forall_impl; [exact Hp|]. set_solver. }
    rewrite Hv. cbn [result_bind]. rewrite (proj2 (hex_checked c) Hh). cbn [result_bind].
    destruct (cc_cluster_secret_env c) as [var|]; [rewrite (proj2 (String.eqb_neq _ _)) by naive_solver|];
      cbn [result_bind]; destruct Hs as [-> | ->]; cbn; by rewrite ?andb_false_r.
Qed.

(** The validator accepts exactly the configurations that meet the documented
    requirements: a name, addresses with a port, positive intervals with heartbeats shorter
    than elections, a freshness window of more than twice the skew (computed at 64 bits),
    distinct named peers other than the node, a hexadecimal secret of 32 bytes, and some
    source of a secret unless insecure operation is allowed. *)
Theorem config_validate_exact c : config_validate c = Ok tt <-> config_ok c.
Proof. exact (config_validate_ok c). Qed.

(** ** The configured node *)

Lemma decode_32_Ok src bytes o : decode_32 src bytes = Ok o <-> o = Some bytes /\ len bytes = 32.
Proof. unfold decode_32. destruct (len bytes =? 32) eqn:E; cbn; bool_to_prop; naive_solver. Qed.

(** The source of the secret: the file, if one is named, when nobody but its owner has access
    to it; else the variable, if one is named; else the text in the configuration. *)
Inductive secret_from (env : ConfigEnv) (c : ClusterConfig) (secret : list byte) : Prop :=
| from_file path mode raw :
    cc_cluster_secret_file c = Some path -> ce_stat env path = Some (true, mode) -> Z.land mode 0x3F = 0 ->
    ce_read env path = Some raw -> hex_secret FromFile (trim_str raw) secret -> secret_from env c secret
| from_env var raw :
    cc_cluster_secret_file c = None -> cc_cluster_secret_env c = Some var -> ce_var env var = Some raw ->
    hex_secret FromEnv (trim_str raw) secret -> secret_from env c secret
| from_hex hex :
    cc_cluster_secret_file c = None -> cc_cluster_secret_env c = None -> cc_cluster_secret_hex c = Some hex ->
    hex_secret FromHex hex secret -> secret_from env c secret.

Lemma decoded_secret_from env c secret : decoded_cluster_secret env c = Ok (Some secret) -> secret_from env c secret.
Proof.
  unfold decoded_cluster_secret.
  assert (Hd : forall src s, (try bytes := decode_hex src s in decode_32 src bytes) = Ok (Some secret) -> hex_secret src s secret).
  { intros src s (bs & Hb & [[= ->] Hl]%decode_32_Ok)%result_bind_Ok. by split. }
  destruct (cc_cluster_secret_file c) as [path|] eqn:Ef.
  { intros ([] & Hp & Hr)%result_bind_Ok. unfold check_secret_file_permissions in Hp.
    destruct (ce_stat env path) as [[[] mode]|] eqn:Es; cbn [negb] in Hp; [|done..].
    destruct (Z.land mode 0x3F =? 0) eqn:Em; [|done]. bool_to_prop.
    destruct (ce_read env path) as [raw|] eqn:Er; [|done]. eapply from_file; eauto. }
  destruct (cc_cluster_secret_env c) as [var|] eqn:Ev.
  { destruct (ce_var env var) as [raw|] eqn:Er; [|done]. intros ?. eapply from_env; eauto. }
  destruct (cc_cluster_secret_hex c) as [hex|] eqn:Eh; [|done]. intros ?. eapply from_hex; eauto.
Qed.

Lemma no_secret_sources env c :
  decoded_cluster_secret env c = Ok None -> has_any_cluster_secret c = false.
Proof.
  unfold decoded_cluster_secret, has_any_cluster_secret.
  assert (Hd : forall src s, (try bytes := decode_hex src s in decode_32 src bytes) <> Ok None).
  { intros src s (bs & Hb & Hx)%result_bind_Ok. unfold decode_32 in Hx. by case_match. }
  destruct (cc_cluster_secret_file c) as [path|]; [intros ([] & _ & Hr)%result_bind_Ok; destruct (ce_read env path); [by apply Hd in Hr|done]|].
  destruct (cc_cluster_secret_env c) as [var|]; [destruct (ce_var env var); [by intros ?%Hd|done]|].
  destruct (cc_cluster_secret_hex c) as [hex|]; [by intros ?%Hd|done].
Qed.

(** C33: a configured node is authenticated and knows its members. A node that is built from
    a configuration comes from one that meets the requirements, starts as a follower of
    term 0, has distinct peers other than itself, and its vote limiter admits exactly these
    and itself. It has a secret of 32 bytes from the first configured source; in a crate
    compiled with the feature insecure-no-cluster-secret it may have none, but then no source
    is configured and the configuration allows insecure operation. *)
Theorem from_config_sound insecure env jitter c n :
  from_config insecure env jitter c = Ok n ->
  config_ok c /\
  match n_cluster_secret n with
  | Some secret => len secret = 32 /\ secret_from env c secret
  | None => insecure = true /\ has_any_cluster_secret c = false /\ cc_allow_insecure c = true
  end /\
  n_id n = cc_node_id c /\ n_state n = Follower /\ n_current_term n = 0 /\ n_voted_for n = None /\
  NoDup (n_peers n) /\ n_id n ∉ n_peers n /\
  (forall id, (exists s, allowed_peers (n_vote_rate_limiter n) = Some s /\ id ∈ s) <-> id = n_id n \/ id ∈ n_peers n) /\
  n_max_message_age_ms n = cc_max_message_age_ms c /\ n_max_future_skew_ms n = cc_max_future_skew_ms c.
Proof.
  unfold from_config. intros ([] & Hv & (secret & Hs & ([] & Hr & [= <-])%result_bind_Ok)%result_bind_Ok)%result_bind_Ok.
  assert (Hok : config_ok c) by (by apply config_validate_ok). split; [done|]. split.
  { cbn. destruct secret as [secret|].
    - pose proof (decoded_secret_from _ _ _ Hs) as Hf. split; [|done]. by destruct Hf as [? ? ? ? ? ? ? [_ ?]|? ? ? ? ? [_ ?]|? ? ? ? [_ ?]].
    - cbn in Hr. destruct insecure; [|done]. apply no_secret_sources in Hs. split; [done|]. split; [done|].
      destruct (co_secret _ Hok); congruence. }
  destruct Hok as [_ _ _ _ _ Hp Hn _ _ _]. cbn. split_and!; try done.
  - rewrite list_elem_of_fmap. intros (p & Hid & Hin). rewrite Forall_forall in Hp. destruct (Hp p Hin) as (_ & Hne & _). congruence.
  - intros id. split; [intros (s & [= <-] & Hin); set_solver|]. intros Hin. eexists. split; [done|]. set_solver.
Qed.

(** ** Health *)

Lemma equal_neighbours_sorted ts : Sorted Z.le ts -> equal_neighbours ts = false <-> NoDup ts.
Proof.
  induction ts as [|a [|b ts] IH]; intros Hs; [by split; constructor|split; [repeat constructor; set_solver|done]|].
  apply Sorted_inv in Hs as [Hs Hab]. apply HdRel_inv in Hab. cbn [equal_neighbours]. rewrite orb_false_iff, Z.eqb_neq, (IH Hs), (NoDup_cons a (b :: ts)).
  split; [|set_solver]. intros [Hne Hn]. split; [|done]. intros Hin.
  assert (Hb : Forall (Z.le b) ts) by (apply Sorted_StronglySorted in Hs; [|intros ???; lia]; by apply StronglySorted_inv in Hs as [_ ?]).
  apply elem_of_cons in Hin as [->|Hin]; [done|]. rewrite Forall_forall in Hb. specialize (Hb a Hin). lia.
Qed.

(** Two positions with the same image under [f] among the elements with [P]. *)
Definition collide {A X} (f : A -> X) (P : A -> Prop) (l : list A) : Prop :=
  exists i j x y, i <> j /\ l !! i = Some x /\ l !! j = Some y /\ P x /\ P y /\ f x = f y.

Lemma collide_cons {A X} (f : A -> X) (P : A -> Prop) a l :
  collide f P (a :: l) <-> (P a /\ exists j y, l !! j = Some y /\ P y /\ f a = f y) \/ collide f P l.
Proof.
  split.
  - intros ([|i] & [|j] & x & y & Hij & Hi & Hj & HPx & HPy & Hf); cbn in *; simplify_eq; [naive_solver..|].
    right. exists i, j, x, y. naive_solver.
  - intros [(HP & j & y & ? & ? & ?)|(i & j & x & y & ? & ? & ? & ?)]; [by exists 0%nat, (S j), a, y|].
    exists (S i), (S j), x, y. naive_solver.
Qed.

Lemma collide_dup {A X} `{EqDecision X} (f : A -> X) (P : A -> Prop) `{forall x, Decision (P x)} (l : list A) :
  collide f P l <-> ~ NoDup (map f (filter P l)).
Proof.
  induction l as [|a l IH]; [split; [intros (? & ? & ? & ? & _ & [=] & _)|intros []; constructor]|].
  rewrite filter_cons, collide_cons, IH.
  assert (Hin : f a ∈ map f (filter P l) <-> exists j y, l !! j = Some y /\ P y /\ f a = f y).
  { rewrite list_elem_of_fmap. setoid_rewrite list_elem_of_filter. setoid_rewrite list_elem_of_lookup. naive_solver. }
  destruct (decide (P a)) as [Ha|Ha]; [|naive_solver]. cbn [map]. rewrite NoDup_cons, <- Hin.
  destruct (decide (f a ∈ map f (filter P l))); naive_solver.
Qed.

(** A split brain is reported exactly if two of the nodes claim to lead in the same
    term. *)
Theorem split_brain_exact nodes :
  is_split_brain nodes = true <->
  exists i j x y, i <> j /\ nodes !! i = Some x /\ nodes !! j = Some y /\
    n_state x = Leader /\ n_state y = Leader /\ n_current_term x = n_current_term y.
Proof.
  change (is_split_brain nodes = true <-> collide n_current_term (fun n => n_state n = Leader) nodes).
  unfold is_split_brain. set (terms := map n_current_term _).
  assert (Hc : collide n_current_term (fun n => n_state n = Leader) nodes <-> ~ NoDup terms) by apply collide_dup.
  rewrite Hc. clearbody terms. clear Hc.
  assert (Hs : NoDup terms <-> equal_neighbours (merge_sort Z.le terms) = false).
  { rewrite equal_neighbours_sorted by (apply Sorted_merge_sort; intros ??; lia). by rewrite merge_sort_Permutation. }
  case_if; bool_to_prop.
  - split; [done|]. intros []. destruct terms as [|t [|]]; [constructor|repeat constructor; set_solver|unfold len in *; cbn in *; lia].
  - rewrite Hs. by destruct (equal_neighbours _).
Qed.

Lemma max_by_term_spec best hs h : max_by_term best hs = Some h ->
  (best = Some h \/ h ∈ hs) /\ (forall b, best = Some b -> nh_term b <= nh_term h) /\ Forall (fun x => nh_term x <= nh_term h) hs.
Proof.
  revert best. induction hs as [|x hs IH]; intros best; cbn [max_by_term].
  { intros ->. split_and!; [by left|intros b [= <-]; lia|constructor]. }
  intros (Hin & Hb & Hf)%IH. destruct best as [b|]; [case_if; bool_to_prop|];
    (split_and!; [|intros ? [= <-]|constructor; [|exact Hf]]); try (specialize (Hb _ eq_refl)); set_solver by lia.
Qed.

(** Filtering keeps two positions apart. *)
Lemma filter_two {A} (P : A -> Prop) `{forall x, Decision (P x)} (l : list A) i j x y :
  i <> j -> l !! i = Some x -> l !! j = Some y -> P x -> P y ->
  exists i' j', i' <> j' /\ filter P l !! i' = Some x /\ filter P l !! j' = Some y.
Proof.
  revert i j. induction l as [|a l IH]; intros i j Hij Hi Hj HP HQ; [done|]. rewrite filter_cons.
  assert (Hin : forall k z, l !! k = Some z -> P z -> exists k', filter P l !! k' = Some z).
  { intros k z Hk Hz. apply list_elem_of_lookup, list_elem_of_filter. split; [done|]. by eapply list_elem_of_lookup_2. }
  destruct i as [|i], j as [|j]; cbn in Hi, Hj; simplify_eq.
  - rewrite decide_True by done. destruct (Hin j y) as [k ?]; [done..|]. by exists 0%nat, (S k).
  - rewrite decide_True by done. destruct (Hin i x) as [k ?]; [done..|]. by exists (S k), 0%nat.
  - destruct (IH i j) as (i' & j' & Hne & ? & ?); [lia|done..|]. case_decide; [exists (S i'), (S j')|by exists i', j']. naive_solver.
Qed.

(** A cluster is reported healthy only with one leader and a majority. If the report is
    healthy, the named leader is one of the nodes, no other of them leads in its term or a
    later one, and more than half of the members are among the nodes. *)
Theorem healthy_has_one_leader nodes total :
  ch_healthy (check_cluster_with_total nodes total) = true ->
  Z.max total (len nodes) < 2 * len nodes /\
  exists i n up, nodes !! i = Some (n, up) /\ n_state n = Leader /\
    ch_leader_id (check_cluster_with_total nodes total) = Some (n_id n) /\
    forall j m up', j <> i -> nodes !! j = Some (m, up') -> n_state m = Leader -> n_current_term m < n_current_term n.
Proof.
  unfold check_cluster_with_total. cbn [ch_healthy ch_leader_id].
  set (leaders := filter _ _). set (tot := Z.max total (len nodes)).
  intros [Hl Hq]%andb_true_iff. apply bool_decide_eq_true in Hl as [id Hid].
  split. { unfold quorum_met in Hq. case_if; [done|]. bool_to_prop. pose proof (Z.div_mod tot 2). pose proof (Z.mod_pos_bound tot 2). lia. }
  destruct (max_by_term None leaders) as [h|] eqn:Eh; [|done]. case_if; [|done]. injection Hid as <-. bool_to_prop.
  apply max_by_term_spec in Eh as ([?|Hin] & _ & Hmax); [done|].
  assert (Hlead : forall x, x ∈ leaders <-> exists k n up, nodes !! k = Some (n, up) /\ x = check_node (n, up) /\ n_state n = Leader).
  { intros x. unfold leaders, leads. rewrite list_elem_of_filter, list_elem_of_fmap, bool_decide_eq_true.
    setoid_rewrite list_elem_of_lookup. split; [intros (? & [n up] & -> & k & ?); eauto 8|intros (k & n & up & ? & -> & ?); eauto 8]. }
  pose proof (proj1 (Hlead h) Hin) as (i & n & up & Hi & -> & Hn). exists i, n, up. split_and!; [done..|].
  intros j m up' Hji Hj Hm.
  assert (Hle : n_current_term m <= n_current_term n).
  { rewrite Forall_forall in Hmax. apply (Hmax (check_node (m, up'))), Hlead. by exists j, m, up'. }
  apply Z.le_neq. split; [done|]. intros Heq.
  destruct (filter_two (fun h => leads h = true) (map check_node nodes) j i (check_node (m, up')) (check_node (n, up)))
    as (j1 & i1 & Hne & Hj1 & Hi1);
    [done|by rewrite list_lookup_fmap, Hj|by rewrite list_lookup_fmap, Hi|by apply bool_decide_eq_true..|].
  fold leaders in Hj1, Hi1.
  destruct (filter_two (fun x => x = nh_term (check_node (n, up))) (map nh_term leaders) j1 i1 (n_current_term m) (n_current_term n))
    as (j2 & i2 & Hne2 & Hj2%lookup_lt_Some & Hi2%lookup_lt_Some);
    [done|by rewrite list_lookup_fmap, Hj1|by rewrite list_lookup_fmap, Hi1|done|done|]. unfold len in E. lia.
Qed.

(** ** The replication log *)

(** Numbers that count on from [base]. *)
Definition counts_from (base : Z) (es : list ReplicationEntry) : Prop :=
  forall j e, es !! j = Some e -> re_sequence e = base + Z.of_nat j + 1.

Lemma counts_from_cons base e es : counts_from base (e :: es) <-> re_sequence e = base + 1 /\ counts_from (base + 1) es.
Proof.
  split.
  - intros Hc. split; [rewrite (Hc 0%nat e eq_refl); lia|]. intros j x Hx. rewrite (Hc (S j) x Hx). lia.
  - intros [He Hc] [|j] x Hx; cbn in Hx; [simplify_eq; lia|]. rewrite (Hc j x Hx). lia.
Qed.

Lemma counts_from_drop base es k : counts_from base es -> counts_from (base + Z.of_nat k) (drop k es).
Proof. intros Hc j e. rewrite lookup_drop. intros He. rewrite (Hc _ _ He). lia. Qed.

Lemma find_counts base es seq : counts_from base es ->
  List.find (fun e => re_sequence e =? seq) es = if base <? seq then es !! Z.to_nat (seq - base - 1) else None.
Proof.
  revert base. induction es as [|e es IH]; intros base Hc; cbn [List.find]; [by case_if|].
  apply counts_from_cons in Hc as [He Hc]. rewrite (IH _ Hc), He. destruct (base + 1 =? seq) eqn:E; bool_to_prop.
  - rewrite (proj2 (Z.ltb_lt _ _)) by lia. by replace (Z.to_nat (seq - base - 1)) with 0%nat by lia.
  - destruct (base <? seq) eqn:E2; bool_to_prop; [|by rewrite (proj2 (Z.ltb_ge _ _)) by lia].
    rewrite (proj2 (Z.ltb_lt _ _)) by lia. by replace (Z.to_nat (seq - base - 1)) with (S (Z.to_nat (seq - (base + 1) - 1))) by lia.
Qed.

Lemma list_filter_all {A} (P : A -> Prop) `{forall x, Decision (P x)} (l : list A) : Forall P l -> filter P l = l.
Proof. induction 1 as [|x l Hx _ IH]; [done|]. by rewrite filter_cons, decide_True, IH. Qed.

Lemma since_counts base es since : counts_from base es ->
  drop (partition_point (fun e => re_sequence e <? since) es) es = filter (fun e => since <= re_sequence e) es.
Proof.
  revert base. induction es as [|e es IH]; intros base Hc; [done|]. apply counts_from_cons in Hc as [He Hc].
  cbn [partition_point]. rewrite filter_cons. destruct (re_sequence e <? since) eqn:E; bool_to_prop.
  - rewrite decide_False by lia. by apply (IH (base + 1)).
  - rewrite decide_True by done. cbn [drop]. f_equal. symmetry. apply list_filter_all.
    apply Forall_lookup. intros j x Hx. rewrite (Hc _ _ Hx). lia.
Qed.

Section Repl.

Context `{ReplCrates}.

Abbreviation repl_op := (ReplicationEvent * list byte * Z)%type.

Definition append_op (l : ReplicationLog) (op : repl_op) : ReplicationLog := (repl_append op.1.1 op.1.2 op.2 l).2.
Definition repl_run (ops : list repl_op) (l : ReplicationLog) : ReplicationLog := fold_left append_op ops l.

(** The entry that the [n]-th accepted operation makes, and all of them. *)
Definition entry_of (secret : option (list byte)) (n : nat) (op : repl_op) : ReplicationEntry :=
  mkReplEntry (Z.of_nat n + 1) op.2 op.1.1 op.1.2 (compute_checksum op.1.1 op.1.2 secret).
Definition history (l : ReplicationLog) (ops : list repl_op) : list ReplicationEntry :=
  imap (entry_of (rl_cluster_secret l)) (filter (fun op => len op.1.2 <= rl_max_payload_bytes l) ops).

Definition window (l0 l : ReplicationLog) (hist : list ReplicationEntry) : Prop :=
  l = mkReplLog (drop (length hist - Z.to_nat (rl_max_log_entries l0)) hist) (len hist + 1) (rl_max_payload_bytes l0)
        (rl_max_log_entries l0) (rl_cluster_secret l0) (rl_require_cluster_secret l0) (rl_allow_insecure l0).

(** A new log that may be written. *)
Definition writable (l : ReplicationLog) : Prop :=
  rl_entries l = [] /\ rl_next_sequence l = 1 /\ 0 < rl_max_log_entries l /\
  (is_authenticated l || (rl_allow_insecure l && negb (rl_require_cluster_secret l))) = true.

Lemma history_snoc l ops op : history l (ops ++ [op]) =
  history l ops ++ (if decide (len op.1.2 <= rl_max_payload_bytes l) then [entry_of (rl_cluster_secret l) (length (history l ops)) op] else []).
Proof.
  unfold history. rewrite filter_app, imap_app, length_imap. f_equal. rewrite filter_cons, filter_nil. case_decide; [|done].
  cbn. by rewrite Nat.add_0_r.
Qed.

Lemma history_counts l ops : counts_from 0 (history l ops).
Proof. intros j e. unfold history. rewrite list_lookup_imap. intros (op & _ & ->)%fmap_Some. cbn. lia. Qed.

Lemma append_window l0 l hist op : writable l0 -> window l0 l hist -> len hist < u64_max - 1 ->
  window l0 (append_op l op)
    (hist ++ if decide (len op.1.2 <= rl_max_payload_bytes l0) then [entry_of (rl_cluster_secret l0) (length hist) op] else []).
Proof.
  intros (_ & _ & Hm & Hw) -> Hlen. unfold append_op, repl_append, window, is_authenticated in *.
  cbn [rl_entries rl_next_sequence rl_max_payload_bytes rl_max_log_entries rl_cluster_secret rl_require_cluster_secret rl_allow_insecure].
  case_decide as Hp.
  - rewrite (proj2 (Z.ltb_ge _ _)) by lia.
    replace (_ && (_ || _)) with false
      by (destruct (bool_decide _), (rl_allow_insecure l0), (rl_require_cluster_secret l0); cbn in *; congruence).
    cbn [snd]. rewrite length_app. cbn [length]. f_equal.
    + set (m := Z.to_nat (rl_max_log_entries l0)). assert (0 < m)%nat by (unfold m; lia).
      rewrite drop_app_le by lia. f_equal.
      unfold len. rewrite length_drop. case_if; bool_to_prop.
      * rewrite drop_drop. f_equal. lia.
      * f_equal. lia.
    + unfold len in *. rewrite length_app. cbn [length]. rewrite u64_succ_small by (unfold u64_max in *; lia). lia.
  - rewrite (proj2 (Z.ltb_lt _ _)) by lia. cbn [snd]. by rewrite app_nil_r.
Qed.

(** The log is a window on its history. After any sequence of appends to a new log that
    may be written, with fewer than 2^64 - 2 appends, the log holds the newest entries up to
    its limit, numbered without gaps in the order of the appends and with their checksums; a number
    finds its entry exactly while it is held, and the entries from a number on are those of
    the log with at least this number, in order. *)
Theorem replication_log_window l0 ops :
  writable l0 -> len ops < u64_max - 1 ->
  let hist := history l0 ops in
  let l := repl_run ops l0 in
  let dropped := Z.of_nat (length hist - Z.to_nat (rl_max_log_entries l0)) in
  rl_entries l = drop (Z.to_nat dropped) hist /\ latest_sequence l = len hist /\
  (forall seq, repl_get seq l = if dropped <? seq then hist !! Z.to_nat (seq - 1) else None) /\
  (forall since, entries_since since l = filter (fun e => since <= re_sequence e) (rl_entries l)).
Proof.
  intros Hw Hlen hist l dropped.
  assert (Hwin : window l0 l hist /\ len hist <= len ops).
  { subst hist l dropped. revert Hlen. induction ops as [|op ops IH] using rev_ind; intros Hlen.
    - split; [|done]. destruct Hw as (He & Hn & _). unfold window, repl_run, history. cbn. destruct l0; cbn in *. by subst.
    - rewrite len_app, len_cons, len_nil in Hlen. destruct IH as [IH Hl]; [lia|]. unfold repl_run in *. rewrite fold_left_app, history_snoc.
      cbn [fold_left]. split; [apply append_window; [done|done|lia]|].
      case_decide; autorewrite with rust_len; lia. }
  destruct Hwin as [Hwin Hh]. clearbody l. unfold window in Hwin. subst l. cbn [rl_entries].
  assert (Hc : counts_from dropped (drop (Z.to_nat dropped) hist)).
  { pose proof (counts_from_drop 0 hist (Z.to_nat dropped) (history_counts l0 ops)) as Hc. by rewrite Z2Nat.id in Hc by lia. }
  unfold dropped in Hc |- *. rewrite !Nat2Z.id in *. split_and!; [done| | |].
  - unfold latest_sequence, saturating_sub. cbn [rl_next_sequence]. pose proof (len_nonneg hist). lia.
  - intros seq. unfold repl_get. cbn [rl_entries]. rewrite (find_counts _ _ _ Hc). case_if; bool_to_prop; [|done].
    rewrite lookup_drop. f_equal. lia.
  - intros since. unfold entries_since. cbn [rl_entries]. by apply (since_counts _ _ _ Hc).
Qed.

(** The checksum covers neither the number nor the time: an entry moved to another place in
    the log still verifies. *)
Lemma checksum_ignores_sequence secret e seq ts :
  verify_checksum_with_secret secret (mkReplEntry seq ts (re_event e) (re_payload e) (re_checksum e)) = verify_checksum_with_secret secret e.
Proof. done. Qed.

End Repl.

(** ** Gaps, and concrete configurations *)

Definition demo_cluster (peers : list PeerConfig) (skew : Z) (hex : option string) (insecure : bool) : ClusterConfig :=
  mkConfig "n1" default_listen_addr peers Synchronous default_election_timeout_ms default_heartbeat_interval_ms
    default_snapshot_interval default_max_log_entries default_max_message_age_ms skew
    hex None None insecure default_vote_rate_limit_capacity default_vote_rate_limit_refill_ms
    default_min_config_change_interval_ms default_legacy_reply_hmac_tags.

Definition two_peers : list PeerConfig := [mkPeer "n2" "h2:9443"; mkPeer "n3" "h3:9443"].
Definition demo_hex : string := "0123456789abcdef0123456789ABCDEF0123456789abcdef0123456789ABCDEF".
Definition no_env : ConfigEnv := mkConfigEnv (fun _ => None) (fun _ => None) (fun _ => None).

(** The check of the skew wraps around: a tolerance of 2^63 ms passes for a window of thirty
    seconds. *)
Example skew_check_wraps : config_validate (demo_cluster two_peers (2 ^ 63) (Some demo_hex) false) = Ok tt.
Proof. vm_compute. reflexivity. Qed.

(** Insecure operation is accepted by the validator; whether the node is built depends on the
    features of the crate. *)
Example insecure_config_needs_feature :
  config_validate (demo_cluster two_peers 1000 None true) = Ok tt /\
  from_config false no_env 0 (demo_cluster two_peers 1000 None true) = Err NodeWithoutSecret /\
  n_cluster_secret <$> (match from_config true no_env 0 (demo_cluster two_peers 1000 None true) with Ok n => Some n | Err _ => None end) = Some None.
Proof. vm_compute. auto. Qed.

Lemma from_config_sound_witness :
  exists n secret, from_config false no_env 0 (demo_cluster two_peers 1000 (Some demo_hex) false) = Ok n /\
    n_id n ∉ n_peers n /\ n_cluster_secret n = Some secret /\ len secret = 32.
Proof.
  destruct (from_config false no_env 0 (demo_cluster two_peers 1000 (Some demo_hex) false)) as [n|e] eqn:E;
    [|vm_compute in E; discriminate E].
  destruct (from_config_sound false no_env 0 (demo_cluster two_peers 1000 (Some demo_hex) false) n E)
    as (_ & Hs & _ & _ & _ & _ & _ & Hn & _).
  exists n. destruct (n_cluster_secret n) as [secret|]; [|by destruct Hs].
  exists secret. split; [reflexivity|]. split; [exact Hn|]. split; [reflexivity|apply Hs].
Defined.

Definition health_node (id : string) (st : RaftState) (t : Z) : RaftNode * Z :=
  (set_current_term t (set_state st (RaftNode_new id [] 1000 0)), 60).

(** Two of three nodes, and a leader of an earlier term. *)
Lemma healthy_has_one_leader_witness :
  exists i n up, [health_node "n1" Leader 4; health_node "n2" Leader 5] !! i = Some (n, up) /\ n_id n = "n2".
Proof.
  destruct (healthy_has_one_leader [health_node "n1" Leader 4; health_node "n2" Leader 5] 3)
    as (_ & i & n & up & Hi & _ & Hid & _); [vm_compute; reflexivity|].
  exists i, n, up. split; [exact Hi|].
  assert (Hc : ch_leader_id (check_cluster_with_total [health_node "n1" Leader 4; health_node "n2" Leader 5] 3) = Some "n2")
    by (vm_compute; reflexivity).
  rewrite Hc in Hid. congruence.
Defined.

#[local] Instance demo_repl : ReplCrates := {| sha256 d := d; repl_hmac k d := k ++ d |}.

Definition demo_log : ReplicationLog := mkReplLog [] 1 8 2 (Some [Byte.x2a]) false false.
Definition demo_ops : list (ReplicationEvent * list byte * Z) :=
  [(KeyCreated, [Byte.x01], 10); (KeyUpdated, replicate 9 Byte.x00, 11); (KeyRotated, [Byte.x02], 12); (KeyDeleted, [], 13)].

(** Three of four appends are accepted; the log keeps the last two. *)
Lemma replication_log_window_witness :
  repl_get 1 (repl_run demo_ops demo_log) = None /\ latest_sequence (repl_run demo_ops demo_log) = 3 /\
  repl_get 3 (repl_run demo_ops demo_log) = Some (mkReplEntry 3 13 KeyDeleted [] [Byte.x2a; Byte.x03; Byte.x00; Byte.x00; Byte.x00; Byte.x00]).
Proof.
  destruct (replication_log_window demo_log demo_ops) as (_ & Hl & Hg & _).
  - split; [reflexivity|]. split; [reflexivity|]. split; vm_compute; reflexivity.
  - vm_compute; reflexivity.
  - split; [rewrite (Hg 1); vm_compute; reflexivity|]. split; [rewrite Hl; vm_compute; reflexivity|].
    rewrite (Hg 3); vm_compute; reflexivity.
Defined.
