(* ===== verification/AuthRbac.v ===== *)
(** * Roles, policies and dual control ([craton-hsm-auth/src/rbac])

    The roles and operations of [role.rs], the per-key lists of [acl.rs], the
    engine of [policy.rs], the session identities of [identity.rs] and the queue
    of [approval.rs].

    Sets of roles and operations are [gset]s, the [DashMap] of pending requests a
    [gmap].  Clock readings are arguments: [now] is the wall clock in seconds,
    [mono] the monotonic clock in nanoseconds.  The hexadecimal encoder of the
    [hex] crate and the bytes of the operating system's generator are arguments as
    well.  An [Arc] that is shared with a reader is copied on write
    ([Arc::make_mut]), so a pending request is a plain value. *)

From coqutil Require Import Byte.
From stdpp Require Import prelude gmap finite strings list pretty.
From Stdlib Require Import ZArith Lia.
From S2P Require Import Prelude RustStd.
Local Open Scope string_scope.
Local Open Scope list_scope.
Local Open Scope Z_scope.

(** ** Errors ([error.rs])

    The variants of the parent crate's [HsmError] that this crate returns, and the
    helpers that choose one. *)

Inductive HsmError : Type :=
| UserNotLoggedIn
| PinIncorrect
| PinLocked
| KeyFunctionNotPermitted
| ArgumentsBad
| HostMemory
| GeneralError
| FunctionNotSupported
| SignatureInvalid
| UserTypeInvalid
| ConfigError (msg : string).

#[global] Instance HsmError_eq_dec : EqDecision HsmError.
Proof. solve_decision. Defined.

Definition mfa_required : HsmError := UserNotLoggedIn.
Definition mfa_challenge_invalid : HsmError := PinIncorrect.
Definition operation_denied : HsmError := KeyFunctionNotPermitted.
Definition dual_control_not_found : HsmError := ArgumentsBad.
Definition dual_control_expired : HsmError := ArgumentsBad.
Definition dual_control_required : HsmError := KeyFunctionNotPermitted.
Definition tenant_quota_exceeded : HsmError := HostMemory.
Definition connection_pool_exhausted : HsmError := GeneralError.

(** ** Roles and operations ([role.rs]) *)

Inductive HsmRole : Type := User | So | Auditor | KeyManager | Operator.

#[global] Instance HsmRole_eq_dec : EqDecision HsmRole.
Proof. solve_decision. Defined.
#[global] Program Instance HsmRole_finite : Finite HsmRole :=
  {| enum := [User; So; Auditor; KeyManager; Operator] |}.
Next Obligation. repeat (constructor; [set_solver|]); constructor. Qed.
Next Obligation. intros []; set_solver. Qed.

Definition HsmRole_as_str (r : HsmRole) : string :=
  match r with
  | User => "User" | So => "SO" | Auditor => "Auditor"
  | KeyManager => "KeyManager" | Operator => "Operator"
  end.

Inductive HsmOperation : Type :=
| Sign | Verify | Encrypt | Decrypt | Digest
| GenerateKey | GenerateKeyPair | DestroyObject | WrapKey | UnwrapKey | DeriveKey
| ImportKey | ExportKey | CreateObject | CopyObject | SetAttribute
| InitToken | InitPin | SetPin
| ReadAuditLog
| GenerateRandom.

#[global] Instance HsmOperation_eq_dec : EqDecision HsmOperation.
Proof. solve_decision. Defined.
#[global] Program Instance HsmOperation_finite : Finite HsmOperation :=
  {| enum := [Sign; Verify; Encrypt; Decrypt; Digest; GenerateKey; GenerateKeyPair;
              DestroyObject; WrapKey; UnwrapKey; DeriveKey; ImportKey; ExportKey;
              CreateObject; CopyObject; SetAttribute; InitToken; InitPin; SetPin;
              ReadAuditLog; GenerateRandom] |}.
Next Obligation. repeat (constructor; [set_solver|]); constructor. Qed.
Next Obligation. intros []; set_solver. Qed.

Definition HsmOperation_as_str (op : HsmOperation) : string :=
  match op with
  | Sign => "Sign" | Verify => "Verify" | Encrypt => "Encrypt" | Decrypt => "Decrypt"
  | Digest => "Digest" | GenerateKey => "GenerateKey" | GenerateKeyPair => "GenerateKeyPair"
  | DestroyObject => "DestroyObject" | WrapKey => "WrapKey" | UnwrapKey => "UnwrapKey"
  | DeriveKey => "DeriveKey" | ImportKey => "ImportKey" | ExportKey => "ExportKey"
  | CreateObject => "CreateObject" | CopyObject => "CopyObject"
  | SetAttribute => "SetAttribute" | InitToken => "InitToken" | InitPin => "InitPin"
  | SetPin => "SetPin" | ReadAuditLog => "ReadAuditLog" | GenerateRandom => "GenerateRandom"
  end.

Definition default_permissions (role : HsmRole) : gset HsmOperation :=
  list_to_set
    match role with
    | User => [Sign; Verify; Encrypt; Decrypt; Digest; GenerateKey; GenerateKeyPair;
               DestroyObject; WrapKey; UnwrapKey; DeriveKey; ImportKey; ExportKey;
               CreateObject; CopyObject; SetAttribute; GenerateRandom]
    | So => [InitToken; InitPin; SetPin; ReadAuditLog]
    | Auditor => [ReadAuditLog]
    | KeyManager => [GenerateKey; GenerateKeyPair; DestroyObject; WrapKey; UnwrapKey;
                     DeriveKey; ImportKey; ExportKey; CreateObject; CopyObject; SetAttribute]
    | Operator => [Sign; Verify; Encrypt; Decrypt; Digest; GenerateRandom]
    end.

(** ** Per-key access control lists ([acl.rs]) *)

Record AclEntry : Type := mkAclEntry {
  ae_role : HsmRole;
  ae_allowed_operations : gset HsmOperation;
}.

Record KeyAcl : Type := mkKeyAcl { acl_entries : list AclEntry }.

Definition is_allowed (acl : KeyAcl) (role : HsmRole) (operation : HsmOperation) : bool :=
  existsb (fun entry => bool_decide (ae_role entry = role)
                        && bool_decide (operation ∈ ae_allowed_operations entry))
    (acl_entries acl).

Definition default_key_acl : KeyAcl :=
  let user_ops := default_permissions User in
  let km_ops := default_permissions KeyManager in
  let op_ops := default_permissions Operator in
  mkKeyAcl [mkAclEntry User user_ops; mkAclEntry KeyManager km_ops; mkAclEntry Operator op_ops].

(** ** Session identities ([identity.rs]) *)

Inductive AuthMethod : Type := Pin | Ldap | Oidc | Certificate.

#[global] Instance AuthMethod_eq_dec : EqDecision AuthMethod.
Proof. solve_decision. Defined.

Record SessionIdentity : Type := mkIdentity {
  id_role : HsmRole;
  id_user_id : option string;
  id_tenant_id : option string;
  id_auth_method : AuthMethod;
}.

(** [hex::encode] of the [hex] crate. *)
Class HexCrate := { hex_encode : list byte -> string }.

(** Its documented behaviour, as far as it is needed: distinct inputs have distinct
    encodings. *)
Class HexCrateLaws `{HexCrate} := {
  hex_encode_inj : forall a b, hex_encode a = hex_encode b -> a = b;
}.

Section Identity.
Context `{HexCrate}.

Definition from_session_token (handle : Z) (token : list byte) : SessionIdentity :=
  mkIdentity User (Some ("pkcs11:user:" +:+ pretty handle +:+ ":" +:+ hex_encode token))
    None Pin.

(** [bytes] is what the system generator fills in. *)
Definition new_with_random_token (bytes : list byte) (handle : Z) : SessionIdentity :=
  from_session_token handle bytes.

(** The process-wide cache of suffixes. *)
Abbreviation SuffixCache := (gmap Z (list byte)).

(** The two accesses to the cache, which two threads may interleave. *)
Definition suffix_get (handle : Z) (cache : SuffixCache) : option string :=
  hex_encode <$> cache !! handle.

Definition suffix_put (bytes : list byte) (handle : Z) (cache : SuffixCache)
    : string * SuffixCache :=
  (hex_encode bytes, <[handle := bytes]> cache).

Definition pkcs11_random_suffix_for (bytes : list byte) (handle : Z) (cache : SuffixCache)
    : string * SuffixCache :=
  match suffix_get handle cache with
  | Some existing => (existing, cache)
  | None => suffix_put bytes handle cache
  end.

Definition user_identity (session_handle : Z) (suffix : string) : SessionIdentity :=
  mkIdentity User (Some ("pkcs11:user:" +:+ pretty session_handle +:+ ":" +:+ suffix)) None Pin.

Definition so_identity (session_handle : Z) (suffix : string) : SessionIdentity :=
  mkIdentity So (Some ("pkcs11:so:" +:+ pretty session_handle +:+ ":" +:+ suffix)) None Pin.

Definition pkcs11_user (bytes : list byte) (session_handle : Z) (cache : SuffixCache)
    : SessionIdentity * SuffixCache :=
  let '(suffix, cache) := pkcs11_random_suffix_for bytes session_handle cache in
  (user_identity session_handle suffix, cache).

Definition pkcs11_so (bytes : list byte) (session_handle : Z) (cache : SuffixCache)
    : SessionIdentity * SuffixCache :=
  let '(suffix, cache) := pkcs11_random_suffix_for bytes session_handle cache in
  (so_identity session_handle suffix, cache).

End Identity.

(** ** The policy engine ([policy.rs]) *)

Record PolicyEngine : Type := mkPolicy {
  pe_enabled : bool;
  pe_default_permissions : gmap HsmRole (gset HsmOperation);
  pe_dual_control_operations : gset HsmOperation;
  pe_required_approvals : Z;
}.

Definition PolicyEngine_new (enabled : bool) : PolicyEngine :=
  let perms :=
    foldl (fun perms role => <[role := default_permissions role]> perms) ∅
      [User; So; Auditor; KeyManager; Operator] in
  mkPolicy enabled perms ∅ 2.

Definition PolicyEngine_disabled : PolicyEngine := PolicyEngine_new false.

Definition check_permission (identity : option SessionIdentity) (operation : HsmOperation)
    (acl : option KeyAcl) (e : PolicyEngine) : result unit HsmError :=
  if negb (pe_enabled e) then Ok tt
  else match identity with
  | None => Err UserNotLoggedIn
  | Some identity =>
      let role := id_role identity in
      match acl with
      | Some acl => if is_allowed acl role operation then Ok tt else Err operation_denied
      | None =>
          let allowed :=
            match pe_default_permissions e !! role with
            | Some perms => bool_decide (operation ∈ perms)
            | None => false
            end in
          if allowed then Ok tt else Err operation_denied
      end
  end.

Definition requires_dual_control (operation : HsmOperation) (e : PolicyEngine) : bool :=
  pe_enabled e && bool_decide (operation ∈ pe_dual_control_operations e).

Definition configure_dual_control (operations : gset HsmOperation) (required_approvals : Z)
    (e : PolicyEngine) : PolicyEngine :=
  mkPolicy (pe_enabled e) (pe_default_permissions e) operations (Z.max required_approvals 2).

(** ** The approval queue ([approval.rs]) *)

Record ApprovalVote : Type := mkVote {
  av_approver_user_id : option string;
  av_timestamp : Z;
}.

Record ApprovalRequest : Type := mkRequest {
  ar_id : string;
  ar_operation : HsmOperation;
  ar_object_handle : option Z;
  ar_requester_user_id : option string;
  ar_requester_tenant_id : option string;
  ar_created_at : Z;
  ar_expires_at : Z;
  ar_expires_at_mono : Z;
  ar_approvals : list ApprovalVote;
  ar_required_approvals : Z;
}.

(** [self.approvals.len() as u32 >= self.required_approvals] *)
Definition is_fully_approved (r : ApprovalRequest) : bool :=
  ar_required_approvals r <=? len (ar_approvals r) mod 2 ^ 32.

Definition is_expired (mono : Z) (r : ApprovalRequest) : bool := ar_expires_at_mono r <=? mono.

Definition push_vote (v : ApprovalVote) (r : ApprovalRequest) : ApprovalRequest :=
  mkRequest (ar_id r) (ar_operation r) (ar_object_handle r) (ar_requester_user_id r)
    (ar_requester_tenant_id r) (ar_created_at r) (ar_expires_at r) (ar_expires_at_mono r)
    (ar_approvals r ++ [v]) (ar_required_approvals r).

Record ApprovalQueue : Type := mkQueue {
  aq_pending : gmap string ApprovalRequest;
  aq_dual_control_operations : gset HsmOperation;
  aq_required_approvals : Z;
  aq_timeout_secs : Z;
  aq_allowed_approver_roles : gset HsmRole;
}.

Definition set_pending (p : gmap string ApprovalRequest) (q : ApprovalQueue) : ApprovalQueue :=
  mkQueue p (aq_dual_control_operations q) (aq_required_approvals q) (aq_timeout_secs q)
    (aq_allowed_approver_roles q).

Definition default_approver_roles : gset HsmRole := list_to_set [User; So; KeyManager].

Definition ApprovalQueue_new (dual_control_operations : gset HsmOperation)
    (required_approvals timeout_secs : Z) : ApprovalQueue :=
  mkQueue ∅ dual_control_operations (Z.max required_approvals 2) timeout_secs
    default_approver_roles.

Definition ApprovalQueue_disabled : ApprovalQueue := ApprovalQueue_new ∅ 2 300.

Definition requires_approval (operation : HsmOperation) (q : ApprovalQueue) : bool :=
  bool_decide (operation ∈ aq_dual_control_operations q).

(** [id.as_deref().map(|s| s.trim().is_empty()).unwrap_or(true)] *)
Definition id_missing (user_id : option string) : bool :=
  match user_id with
  | Some s => bool_decide (trim (chars s) = [])
  | None => true
  end.

Definition evict_expired_requests (now : Z) (q : ApprovalQueue) : ApprovalQueue :=
  set_pending (filter (fun kv => now < ar_expires_at kv.2) (aq_pending q)) q.

(** [bytes] is what the system generator fills in. *)
Definition generate_id `{HexCrate} (bytes : list byte) : string := hex_encode bytes.

(** What a call of [request_approval] reads from outside: the wall clock in
    [evict_expired_requests], the 16 random bytes, the wall clock again and the monotonic
    clock. *)
Record RequestEnv : Type := mkRequestEnv {
  re_evict_now : Z;
  re_bytes : list byte;
  re_now : Z;
  re_mono : Z;
}.

Definition request_approval `{HexCrate} (env : RequestEnv) (operation : HsmOperation)
    (object_handle : option Z) (requester : SessionIdentity) (q : ApprovalQueue)
    : comp string HsmError * ApprovalQueue :=
  if negb (bool_decide (operation ∈ aq_dual_control_operations q)) then
    (CErr operation_denied, q)
  else if id_missing (id_user_id requester) then (CErr operation_denied, q)
  else
    let q := evict_expired_requests (re_evict_now env) q in
    let id := generate_id (re_bytes env) in
    match instant_add_secs (re_mono env) (aq_timeout_secs q) with
    | None => (CPanic, q)
    | Some expires_at_mono =>
        let request :=
          mkRequest id operation object_handle (id_user_id requester) (id_tenant_id requester)
            (re_now env) (u64_add (re_now env) (aq_timeout_secs q)) expires_at_mono []
            (aq_required_approvals q) in
        (COk id, set_pending (<[id := request]> (aq_pending q)) q)
    end.

(** The refusals of [approve] for a request that has not expired, in the order of
    the code. *)
Definition approve_refused (request : ApprovalRequest) (approver : SessionIdentity)
    (q : ApprovalQueue) : bool :=
  negb (bool_decide (id_role approver ∈ aq_allowed_approver_roles q))
  || (id_missing (ar_requester_user_id request) || id_missing (id_user_id approver))
  || bool_decide (ar_requester_user_id request = id_user_id approver)
  || negb (bool_decide (ar_requester_tenant_id request = id_tenant_id approver))
  || (bool_decide (is_Some (id_user_id approver))
      && existsb (fun v => bool_decide (av_approver_user_id v = id_user_id approver))
           (ar_approvals request)).

(** The part of [approve] that runs under the entry's lock.  [Ok None] means that
    the request was found expired: the lock is dropped and [pending.remove] follows. *)
Definition approve_locked (mono now : Z) (request_id : string) (approver : SessionIdentity)
    (q : ApprovalQueue) : result (option bool) HsmError * ApprovalQueue :=
  match aq_pending q !! request_id with
  | None => (Err dual_control_not_found, q)
  | Some request =>
      if is_expired mono request then (Ok None, q)
      else if approve_refused request approver q then (Err operation_denied, q)
      else
        let request := push_vote (mkVote (id_user_id approver) now) request in
        (Ok (Some (is_fully_approved request)),
         set_pending (<[request_id := request]> (aq_pending q)) q)
  end.

Definition remove_pending (request_id : string) (q : ApprovalQueue) : ApprovalQueue :=
  set_pending (delete request_id (aq_pending q)) q.

Definition approve (mono now : Z) (request_id : string) (approver : SessionIdentity)
    (q : ApprovalQueue) : result bool HsmError * ApprovalQueue :=
  match approve_locked mono now request_id approver q with
  | (Err e, q) => (Err e, q)
  | (Ok (Some fully_approved), q) => (Ok fully_approved, q)
  | (Ok None, q) => (Err dual_control_expired, remove_pending request_id q)
  end.

(** The two halves of [consume_approved]: the peek under the read lock, and the
    removal. *)
Definition consume_peek (mono : Z) (request_id : string) (q : ApprovalQueue)
    : result unit HsmError :=
  match aq_pending q !! request_id with
  | None => Err dual_control_not_found
  | Some request =>
      if is_expired mono request then Err dual_control_expired
      else if negb (is_fully_approved request) then Err dual_control_required
      else Ok tt
  end.

Definition consume_remove (request_id : string) (q : ApprovalQueue)
    : result ApprovalRequest HsmError * ApprovalQueue :=
  match aq_pending q !! request_id with
  | None => (Err dual_control_not_found, q)
  | Some request => (Ok request, remove_pending request_id q)
  end.

Definition consume_approved (mono : Z) (request_id : string) (q : ApprovalQueue)
    : result ApprovalRequest HsmError * ApprovalQueue :=
  match consume_peek mono request_id q with
  | Err e => (Err e, q)
  | Ok _ => consume_remove request_id q
  end.

Definition list_pending `{MapIter} (now : Z) (q : ApprovalQueue)
    : list ApprovalRequest * ApprovalQueue :=
  let q := evict_expired_requests now q in
  ((iter (aq_pending q)).*2, q).
