(* ===== verification/AuthRbacProofs.v ===== *)
(** * Correctness of policies and dual control

    Decisions of the policy engine; identities of PKCS#11 sessions; dual control
    over every interleaving of the threads that use one approval queue. *)

From coqutil Require Import Byte.
From stdpp Require Import prelude gmap finite strings list pretty relations.
From Stdlib Require Import ZArith Lia Ascii.
From S2P Require Import Prelude RustStd AuthRbac.
Local Open Scope string_scope.
Local Open Scope list_scope.
Local Open Scope Z_scope.

(** ** The policy engine *)

(** The engines a program can build. *)
Inductive engine_reach : PolicyEngine -> Prop :=
| engine_new enabled : engine_reach (PolicyEngine_new enabled)
| engine_configure e ops n : engine_reach e -> engine_reach (configure_dual_control ops n e).

Lemma new_permissions enabled role :
  pe_default_permissions (PolicyEngine_new enabled) !! role = Some (default_permissions role).
Proof. by destruct role. Qed.

Lemma engine_permissions e role :
  engine_reach e -> pe_default_permissions e !! role = Some (default_permissions role).
Proof. induction 1; [apply new_permissions|done]. Qed.

Lemma engine_approvals e : engine_reach e -> 2 <= pe_required_approvals e.
Proof. induction 1; simpl; lia. Qed.

Lemma is_allowed_spec acl role op :
  is_allowed acl role op = true <->
  exists entry, entry ∈ acl_entries acl /\ ae_role entry = role
    /\ op ∈ ae_allowed_operations entry.
Proof.
  unfold is_allowed. rewrite existsb_exists. setoid_rewrite <- list_elem_of_In.
  split; intros (en & Hin & H); exists en; (split; [done|]).
  - by bool_to_prop.
  - destruct H. by rewrite !bool_decide_eq_true_2.
Qed.

(** The rule the documentation of [check_permission] states. *)
Definition may_perform (identity : option SessionIdentity) (op : HsmOperation)
    (acl : option KeyAcl) : Prop :=
  exists i, identity = Some i /\
    match acl with
    | Some acl => exists entry, entry ∈ acl_entries acl /\ ae_role entry = id_role i
                    /\ op ∈ ae_allowed_operations entry
    | None => op ∈ default_permissions (id_role i)
    end.

Lemma check_permission_ok e identity op acl :
  engine_reach e -> pe_enabled e = true ->
  check_permission identity op acl e = Ok tt <-> may_perform identity op acl.
Proof.
  intros He En. unfold check_permission, may_perform. rewrite En. simpl.
  destruct identity as [i|]; [|split; [done|by intros (? & ? & _)]].
  rewrite (engine_permissions e _ He).
  destruct acl as [acl|].
  - setoid_rewrite <- is_allowed_spec.
    case_if; split; try done; [by eexists|]. intros (? & [= <-] & H). congruence.
  - case_if; bool_to_prop; split; try done; [by eexists|]. by intros (? & [= <-] & H).
Qed.

Lemma may_perform_entries i op acl :
  may_perform (Some i) op acl <->
  Exists (fun entry => ae_role entry = id_role i /\ op ∈ ae_allowed_operations entry)
    (match acl with
     | Some acl => acl_entries acl
     | None => [mkAclEntry (id_role i) (default_permissions (id_role i))]
     end).
Proof.
  unfold may_perform. rewrite Exists_exists. split.
  - intros (? & [= <-] & Hm). destruct acl; [naive_solver|].
    eexists. split; [by apply list_elem_of_singleton|done].
  - intros (en & Hin & ? & ?). exists i. split; [done|]. destruct acl; [by exists en|].
    by apply list_elem_of_singleton in Hin as ->.
Qed.

Lemma check_permission_total i op acl e :
  pe_enabled e = true ->
  check_permission (Some i) op acl e = Ok tt \/
  check_permission (Some i) op acl e = Err KeyFunctionNotPermitted.
Proof. intros En. unfold check_permission. rewrite En. simpl. repeat case_match; auto. Qed.

(** Who holds which default permission: key management, use of keys, administration and
    audit are separated, except that [User] both manages and uses keys. *)
Lemma default_permissions_separated op :
  (op ∈ default_permissions Auditor -> op = ReadAuditLog) /\
  (op ∈ default_permissions So -> op ∉ default_permissions User) /\
  (op ∈ default_permissions KeyManager -> op ∉ default_permissions Operator) /\
  (op ∈ default_permissions User <->
   op ∈ default_permissions KeyManager \/ op ∈ default_permissions Operator).
Proof. by destruct op; vm_compute; intuition. Qed.

(** ** The approval queue under concurrency

    Several threads share one queue.  Each locked section of the code is one step:
    [request_approval] is the eviction and the insertion, [approve] its locked part
    and, when the request was found expired, a later removal, [consume_approved] its
    peek and a later removal.  The history remembers, besides the effects, which
    sections a thread has finished: a removal may follow at any later time, and as
    often as it likes, the peek that allows it.  Newly drawn identifiers have not
    been drawn before (they are 128 random bits). *)

Inductive QEvent : Type :=
| EvRequested (id : string)
| EvApproved (id : string) (approver : SessionIdentity) (mono : Z)
| EvFoundExpired (id : string)
| EvPeeked (id : string) (mono : Z)
| EvConsumed (r : ApprovalRequest).

Section Queue.
Context `{HexCrate}.

Abbreviation sys := (ApprovalQueue * list QEvent)%type.

Inductive queue_step : sys -> sys -> Prop :=
| step_requested env op handle requester id q q' h :
    request_approval env op handle requester q = (COk id, q') ->
    EvRequested id ∉ h ->
    queue_step (q, h) (q', EvRequested id :: h)
| step_request_refused env op handle requester res q q' h :
    request_approval env op handle requester q = (res, q') ->
    (forall id, res <> COk id) ->
    queue_step (q, h) (q', h)
| step_approved mono now id approver b q q' h :
    approve_locked mono now id approver q = (Ok (Some b), q') ->
    queue_step (q, h) (q', EvApproved id approver mono :: h)
| step_found_expired mono now id approver q q' h :
    approve_locked mono now id approver q = (Ok None, q') ->
    queue_step (q, h) (q', EvFoundExpired id :: h)
| step_remove_expired id q h :
    EvFoundExpired id ∈ h -> queue_step (q, h) (remove_pending id q, h)
| step_peeked mono id q h :
    consume_peek mono id q = Ok tt -> queue_step (q, h) (q, EvPeeked id mono :: h)
| step_consumed mono id r q q' h :
    EvPeeked id mono ∈ h ->
    consume_remove id q = (Ok r, q') ->
    queue_step (q, h) (q', EvConsumed r :: h)
| step_listed now q h : queue_step (q, h) (evict_expired_requests now q, h).

(** A vote stands for an approval by an authorised person of the same tenant, other
    than the requester, given before the deadline. *)
Definition valid_approver (h : list QEvent) (r : ApprovalRequest) (a : SessionIdentity) : Prop :=
  (exists mono, EvApproved (ar_id r) a mono ∈ h /\ mono < ar_expires_at_mono r) /\
  id_role a ∈ default_approver_roles /\
  id_missing (id_user_id a) = false /\
  id_user_id a <> ar_requester_user_id r /\
  id_tenant_id a = ar_requester_tenant_id r.

Record request_ok (ops : gset HsmOperation) (required : Z) (h : list QEvent)
    (r : ApprovalRequest) : Prop := {
  rok_requested : EvRequested (ar_id r) ∈ h;
  rok_operation : ar_operation r ∈ ops;
  rok_requester : id_missing (ar_requester_user_id r) = false;
  rok_required : ar_required_approvals r = required;
  rok_votes : Forall (fun v => exists a, id_user_id a = av_approver_user_id v
                                         /\ valid_approver h r a) (ar_approvals r);
  rok_distinct : NoDup (av_approver_user_id <$> ar_approvals r);
}.

Definition enough (required mono : Z) (r : ApprovalRequest) : Prop :=
  required <= len (ar_approvals r) /\ mono < ar_expires_at_mono r.

Definition consumed_ids (h : list QEvent) : list string :=
  omap (fun e => match e with EvConsumed r => Some (ar_id r) | _ => None end) h.

Record queue_inv (ops : gset HsmOperation) (required : Z) (s : sys) : Prop := {
  qi_ops : aq_dual_control_operations s.1 = ops;
  qi_required : aq_required_approvals s.1 = required;
  qi_roles : aq_allowed_approver_roles s.1 = default_approver_roles;
  qi_pending : map_Forall (fun id r => ar_id r = id /\ request_ok ops required s.2 r)
                 (aq_pending s.1);
  qi_peeked : forall id mono r, EvPeeked id mono ∈ s.2 -> aq_pending s.1 !! id = Some r ->
    enough required mono r;
  qi_peeked_requested : forall id mono, EvPeeked id mono ∈ s.2 -> EvRequested id ∈ s.2;
  qi_consumed : forall r, EvConsumed r ∈ s.2 ->
    request_ok ops required s.2 r /\
    exists mono, EvPeeked (ar_id r) mono ∈ s.2 /\ enough required mono r;
  qi_gone : forall r, EvConsumed r ∈ s.2 -> aq_pending s.1 !! ar_id r = None;
  qi_once : NoDup (consumed_ids s.2);
}.

Lemma valid_approver_mono h h' r a :
  h ⊆ h' -> valid_approver h r a -> valid_approver h' r a.
Proof. intros Hs [(m & Hm & Hd) ?]. split; [exists m; auto|done]. Qed.

Lemma request_ok_mono ops n h h' r :
  h ⊆ h' -> request_ok ops n h r -> request_ok ops n h' r.
Proof.
  intros Hs [? ? ? ? Hv ?]. split; auto.
  eapply Forall_impl; [exact Hv|]. intros v (a & ? & ?). eauto using valid_approver_mono.
Qed.

Lemma elem_of_consumed_ids h id :
  id ∈ consumed_ids h <-> exists r, EvConsumed r ∈ h /\ ar_id r = id.
Proof.
  unfold consumed_ids. rewrite list_elem_of_omap. split.
  - intros (e & He & Hid). destruct e; simplify_eq. eauto.
  - intros (r & Hr & <-). by exists (EvConsumed r).
Qed.

(** The pending map shrinks and nothing else happens. *)
Lemma inv_shrink ops n q p h :
  p ⊆ aq_pending q -> queue_inv ops n (q, h) -> queue_inv ops n (set_pending p q, h).
Proof.
  intros Hp [? ? ? Hpend Hpeek ? ? Hgone ?]. split; simpl in *; auto.
  - intros id r Hr. apply Hpend. by eapply lookup_weaken.
  - intros id mono r Hin Hr. eapply Hpeek; [done|]. by eapply lookup_weaken.
  - intros r Hr. eapply lookup_weaken_None; [|done]. by apply Hgone.
Qed.

(** An event that only records a finished section. *)
Lemma inv_note ops n q h e :
  match e with EvRequested _ | EvApproved _ _ _ | EvFoundExpired _ => True | _ => False end ->
  queue_inv ops n (q, h) -> queue_inv ops n (q, e :: h).
Proof.
  intros He [? ? ? Hpend Hpeek Hpr Hcons Hgone Honce].
  assert (h ⊆ e :: h) as Hs by set_solver.
  split; simpl in *; auto.
  - intros id r Hr. destruct (Hpend id r Hr). eauto using request_ok_mono.
  - intros id mono r [<-|]%elem_of_cons; [done|]. eauto.
  - intros id mono [<-|]%elem_of_cons; [done|]. eauto.
  - intros r [<-|Hr]%elem_of_cons; [done|]. destruct (Hcons r Hr) as (? & m & ? & ?).
    split; [by eapply request_ok_mono|]. exists m. split; [by apply Hs|done].
  - intros r [<-|Hr]%elem_of_cons; [done|]. auto.
  - by destruct e.
Qed.

Lemma inv_evict ops n now q h :
  queue_inv ops n (q, h) -> queue_inv ops n (evict_expired_requests now q, h).
Proof. apply inv_shrink. apply map_filter_subseteq. Qed.

Lemma inv_insert ops n q h r :
  EvRequested (ar_id r) ∉ h -> request_ok ops n (EvRequested (ar_id r) :: h) r ->
  queue_inv ops n (q, h) ->
  queue_inv ops n (set_pending (<[ar_id r := r]> (aq_pending q)) q, EvRequested (ar_id r) :: h).
Proof.
  intros Hnew Hr Inv.
  pose proof (qi_peeked_requested _ _ _ Inv) as Hpr. pose proof (qi_consumed _ _ _ Inv) as Hco.
  simpl in Hpr, Hco.
  apply (inv_note _ _ _ _ (EvRequested (ar_id r)) I) in Inv.
  destruct Inv as [? ? ? Hpend Hpeek Hpr' Hcons Hgone Honce]. split; simpl in *; auto.
  - by apply map_Forall_insert_2.
  - intros id mono r' Hin. rewrite lookup_insert_Some. intros [[<- <-]|[? ?]]; [|eauto].
    apply elem_of_cons in Hin as [|Hin]; [done|]. by apply Hpr in Hin.
  - intros r' Hin. rewrite lookup_insert_None. split; [auto|]. intros E.
    apply elem_of_cons in Hin as [|Hin]; [done|].
    apply Hco in Hin as [Hk _]. apply rok_requested in Hk. by rewrite E in Hnew.
Qed.

Lemma inv_requested ops n env op handle requester id q q' h :
  request_approval env op handle requester q = (COk id, q') -> EvRequested id ∉ h ->
  queue_inv ops n (q, h) -> queue_inv ops n (q', EvRequested id :: h).
Proof.
  unfold request_approval. intros Hreq Hnew Inv.
  repeat (case_match; simplify_eq; try done).
  apply (inv_evict _ _ (re_evict_now env)) in Inv. bool_to_prop.
  match goal with |- queue_inv _ _ (set_pending (<[_ := ?r]> _) _, _) => set (r0 := r) end.
  apply (inv_insert _ _ _ _ r0); [done| |done].
  split; simpl; auto using NoDup_nil_2; try set_solver.
  - by rewrite <- (qi_ops _ _ _ Inv).
  - apply (qi_required _ _ _ Inv).
Qed.

Lemma inv_request_refused ops n env op handle requester res q q' h :
  request_approval env op handle requester q = (res, q') -> (forall id, res <> COk id) ->
  queue_inv ops n (q, h) -> queue_inv ops n (q', h).
Proof.
  unfold request_approval. intros Hreq Hno Inv.
  repeat (case_match; simplify_eq; auto using inv_evict). naive_solver.
Qed.

(** What the guards of [approve] establish. *)
Lemma approve_refused_false r a q :
  approve_refused r a q = false ->
  id_role a ∈ aq_allowed_approver_roles q /\ id_missing (id_user_id a) = false /\
  ar_requester_user_id r <> id_user_id a /\ ar_requester_tenant_id r = id_tenant_id a /\
  id_user_id a ∉ (av_approver_user_id <$> ar_approvals r).
Proof.
  unfold approve_refused. intros H0. bool_to_prop. split_and!; try done.
  intros (v & Ev & Hv)%list_elem_of_fmap. destruct (id_user_id a) as [u|] eqn:Eu; [|done].
  rewrite bool_decide_eq_true_2 in * by done. simpl in *.
  match goal with H : existsb _ _ = false |- _ =>
    apply not_true_iff_false in H; apply H, existsb_exists end.
  exists v. split; [by apply list_elem_of_In|]. by apply bool_decide_eq_true_2.
Qed.

Lemma push_vote_ok ops n h q r a mono now :
  aq_allowed_approver_roles q = default_approver_roles ->
  approve_refused r a q = false -> mono < ar_expires_at_mono r ->
  request_ok ops n h r ->
  request_ok ops n (EvApproved (ar_id r) a mono :: h) (push_vote (mkVote (id_user_id a) now) r).
Proof.
  intros Hroles Href Hm Hok.
  apply approve_refused_false in Href as (Hrole & Hid & Hself & Hten & Hdup).
  eapply (request_ok_mono _ _ _ (EvApproved (ar_id r) a mono :: h)) in Hok; [|set_solver].
  destruct Hok as [? ? ? ? Hv Hnd]. split; simpl; auto.
  - apply Forall_app. split; [exact Hv|]. apply Forall_singleton. exists a. split; [done|].
    split; [exists mono; set_solver|]. rewrite <- Hroles. auto.
  - rewrite fmap_app. apply NoDup_app. split; [done|]. split; [|apply NoDup_singleton].
    intros x Hx ->%list_elem_of_singleton. done.
Qed.

Lemma inv_approved ops n mono now id a b q q' h :
  approve_locked mono now id a q = (Ok (Some b), q') ->
  queue_inv ops n (q, h) -> queue_inv ops n (q', EvApproved id a mono :: h).
Proof.
  unfold approve_locked. intros Ha Inv. repeat (case_match; simplify_eq; try done).
  match goal with H : aq_pending q !! id = Some ?x |- _ => rename x into r; rename H into Hr end.
  assert (mono < ar_expires_at_mono r) by (unfold is_expired in *; bool_to_prop; lia).
  destruct (qi_pending _ _ _ Inv id r Hr) as [Eid Hok]. simpl in Hok.
  pose proof (inv_note _ _ _ _ (EvApproved id a mono) I Inv) as Inv'.
  destruct Inv' as [? ? ? Hpend Hpeek Hpr Hcons Hgone Honce]. split; simpl in *; auto.
  - apply map_Forall_insert_2; [|done]. split; [done|]. rewrite <- Eid.
    eapply push_vote_ok; eauto.
  - intros id' m r' Hin. rewrite lookup_insert_Some. intros [[<- <-]|[? ?]]; [|eauto].
    destruct (Hpeek _ _ _ Hin Hr) as [He1 He2]. split; [|done]. simpl. rewrite len_app.
    pose proof (len_nonneg [mkVote (id_user_id a) now]). lia.
  - intros r' Hin. apply Hgone in Hin. rewrite lookup_insert_None. split; [done|congruence].
Qed.

Lemma inv_peeked ops n mono id q h :
  consume_peek mono id q = Ok tt ->
  queue_inv ops n (q, h) -> queue_inv ops n (q, EvPeeked id mono :: h).
Proof.
  unfold consume_peek. intros Hp Inv. repeat (case_match; simplify_eq; try done).
  match goal with H : aq_pending q !! id = Some ?x |- _ => rename x into r; rename H into Hr end.
  destruct (qi_pending _ _ _ Inv id r Hr) as [Eid Hok]. simpl in Hok.
  assert (enough n mono r) as Hen.
  { unfold is_expired, is_fully_approved in *. bool_to_prop. rewrite (rok_required _ _ _ _ Hok) in *.
    split; [|lia]. pose proof (Z.mod_le (len (ar_approvals r)) (2 ^ 32) (len_nonneg _)). lia. }
  destruct Inv as [? ? ? Hpend Hpeek Hpr Hcons Hgone Honce].
  assert (h ⊆ EvPeeked id mono :: h) as Hs by set_solver. split; simpl in *; auto.
  - intros i r' Hr'. destruct (Hpend i r' Hr'). eauto using request_ok_mono.
  - intros i m r' [[= -> ->]|]%elem_of_cons; [|eauto]. by rewrite Hr; intros [= <-].
  - intros i m [[= -> ->]|Hin]%elem_of_cons; apply Hs; [|eauto].
    rewrite <- Eid. apply Hok.
  - intros r' [|Hin]%elem_of_cons; [done|]. destruct (Hcons r' Hin) as (? & m & ? & ?).
    split; [by eapply request_ok_mono|]. exists m. split; [by apply Hs|done].
  - intros r' [|Hin]%elem_of_cons; [done|]. auto.
Qed.

Lemma inv_consumed ops n mono id r q q' h :
  EvPeeked id mono ∈ h -> consume_remove id q = (Ok r, q') ->
  queue_inv ops n (q, h) -> queue_inv ops n (q', EvConsumed r :: h).
Proof.
  unfold consume_remove. intros Hpk Hc Inv. repeat (case_match; simplify_eq; try done).
  match goal with H : aq_pending q !! id = Some _ |- _ => rename H into Hr end.
  destruct (qi_pending _ _ _ Inv id r Hr) as [Eid Hok]. simpl in Hok.
  pose proof (qi_peeked _ _ _ Inv _ _ _ Hpk Hr) as Hen.
  pose proof (qi_gone _ _ _ Inv) as Hold. simpl in Hold.
  assert (h ⊆ EvConsumed r :: h) as Hs by set_solver.
  assert (id ∉ consumed_ids h) as Hfresh.
  { intros (r' & Hr' & E)%elem_of_consumed_ids. apply Hold in Hr'. congruence. }
  eapply (inv_shrink _ _ _ (delete id (aq_pending q))) in Inv; [|apply delete_subseteq].
  destruct Inv as [? ? ? Hpend Hpeek Hpr Hcons Hgone Honce]. split; simpl in *; auto.
  - intros i r' Hr'. destruct (Hpend i r' Hr'). eauto using request_ok_mono.
  - intros i m r' [|]%elem_of_cons; [done|]. eauto.
  - intros i m [|]%elem_of_cons; [done|]. eauto.
  - intros r' [[= ->]|Hin]%elem_of_cons.
    + split; [by eapply request_ok_mono|]. exists mono. split; [|done]. apply Hs. by rewrite Eid.
    + destruct (Hcons r' Hin) as (? & m & ? & ?).
      split; [by eapply request_ok_mono|]. exists m. split; [by apply Hs|done].
  - intros r' [[= ->]|Hin]%elem_of_cons; [|auto]. rewrite Eid. apply lookup_delete_eq.
  - rewrite Eid. by apply NoDup_cons.
Qed.

Lemma inv_queue_step ops n s s' : queue_inv ops n s -> queue_step s s' -> queue_inv ops n s'.
Proof.
  intros Inv Hs. destruct Hs.
  - by eapply inv_requested.
  - by eapply inv_request_refused.
  - by eapply inv_approved.
  - unfold approve_locked in *. repeat (case_match; simplify_eq; try done). by apply inv_note.
  - apply inv_shrink; [apply delete_subseteq|done].
  - by apply inv_peeked.
  - by eapply inv_consumed.
  - by apply inv_evict.
Qed.

Lemma inv_queue_new ops n timeout :
  queue_inv ops (Z.max n 2) (ApprovalQueue_new ops n timeout, []).
Proof.
  split; simpl; try done; try (intros; by match goal with H : _ ∈ [] |- _ => apply elem_of_nil in H end).
  apply NoDup_nil_2.
Qed.

Lemma inv_queue_rtc ops n s s' : queue_inv ops n s -> rtc queue_step s s' -> queue_inv ops n s'.
Proof. apply rtc_invariant, inv_queue_step. Qed.

(** One approver per vote. *)
Lemma votes_approvers h r vs :
  Forall (fun v => exists a, id_user_id a = av_approver_user_id v /\ valid_approver h r a) vs ->
  exists approvers, id_user_id <$> approvers = av_approver_user_id <$> vs
    /\ Forall (valid_approver h r) approvers.
Proof.
  induction 1 as [|v vs (a & Ha & Hv) _ (l & Hl & Hf)]; [by exists []|].
  exists (a :: l). split; [|by constructor]. rewrite !fmap_cons. by f_equal.
Qed.

(** C6: dual control holds under every interleaving of the threads that share an
    approval queue.  A request that any of them consumed is for an operation under
    dual control, was requested by an identified user, and was approved, before its
    deadline, by at least two (and at least the configured number of) users with
    pairwise distinct identifiers, none of them the requester, all with an approving
    role and of the requester's tenant; it was found approved before its deadline;
    and no request is consumed twice. *)
Theorem dual_control ops n timeout q h :
  rtc queue_step (ApprovalQueue_new ops n timeout, []) (q, h) ->
  NoDup (consumed_ids h) /\
  forall r, EvConsumed r ∈ h ->
    ar_operation r ∈ ops /\ id_missing (ar_requester_user_id r) = false /\
    (exists mono, EvPeeked (ar_id r) mono ∈ h /\ mono < ar_expires_at_mono r) /\
    exists approvers, Z.max n 2 <= len approvers /\ NoDup (id_user_id <$> approvers)
      /\ Forall (valid_approver h r) approvers.
Proof.
  intros Hrun. apply (inv_queue_rtc _ _ _ _ (inv_queue_new ops n timeout)) in Hrun as Inv.
  split; [apply (qi_once _ _ _ Inv)|]. intros r Hr.
  destruct (qi_consumed _ _ _ Inv r Hr) as (Hok & m & Hm & Hen & Hd).
  destruct (votes_approvers _ _ _ (rok_votes _ _ _ _ Hok)) as (l & Hl & Hf).
  split_and!; [apply Hok|apply Hok|by exists m|]. exists l. split_and!; [|rewrite Hl; apply Hok|done].
  apply (f_equal len) in Hl. unfold len in *. rewrite !length_fmap in Hl. lia.
Qed.

End Queue.

(** ** The workflow completes *)

Section Completion.
Context `{HexCrate}.

(** Approvals one after the other: clock readings and the approver of each. *)
Definition approve_all (id : string) (votes : list (Z * Z * SessionIdentity))
    (q : ApprovalQueue) : ApprovalQueue :=
  foldl (fun q '(mono, now, a) => (approve mono now id a q).2) q votes.

Definition acceptable (roles : gset HsmRole) (requester : SessionIdentity) (deadline : Z)
    (vote : Z * Z * SessionIdentity) : Prop :=
  let '(mono, _, a) := vote in
  mono < deadline /\ id_role a ∈ roles /\ id_missing (id_user_id a) = false /\
  id_user_id a <> id_user_id requester /\ id_tenant_id a = id_tenant_id requester.

Definition vote_of (vote : Z * Z * SessionIdentity) : ApprovalVote :=
  mkVote (id_user_id vote.2) vote.1.2.

Definition with_votes (vs : list ApprovalVote) (r : ApprovalRequest) : ApprovalRequest :=
  foldl (fun r v => push_vote v r) r vs.

Lemma with_votes_approvals vs r : ar_approvals (with_votes vs r) = ar_approvals r ++ vs.
Proof.
  revert r. induction vs as [|v vs IH]; intros r; [by rewrite app_nil_r|].
  change (with_votes (v :: vs) r) with (with_votes vs (push_vote v r)).
  rewrite IH. simpl. by rewrite <- app_assoc.
Qed.

Lemma with_votes_fields vs r :
  ar_operation (with_votes vs r) = ar_operation r /\
  ar_object_handle (with_votes vs r) = ar_object_handle r /\
  ar_expires_at_mono (with_votes vs r) = ar_expires_at_mono r /\
  ar_required_approvals (with_votes vs r) = ar_required_approvals r.
Proof.
  revert r. induction vs as [|v vs IH]; intros r; [done|].
  destruct (IH (push_vote v r)) as (? & ? & ? & ?). done.
Qed.

Lemma acceptable_not_refused roles requester deadline q r vote :
  aq_allowed_approver_roles q = roles ->
  ar_requester_user_id r = id_user_id requester ->
  ar_requester_tenant_id r = id_tenant_id requester ->
  id_missing (id_user_id requester) = false ->
  id_user_id vote.2 ∉ (av_approver_user_id <$> ar_approvals r) ->
  acceptable roles requester deadline vote -> approve_refused r vote.2 q = false.
Proof.
  destruct vote as [[m t] a]. intros Er Eu Et Hmiss Hdup (_ & Hrole & Hid & Hne & Hten).
  simpl in *. unfold approve_refused. rewrite Er, Eu, Et, Hmiss, Hid.
  rewrite (bool_decide_eq_true_2 (id_role a ∈ _)) by done.
  rewrite (bool_decide_eq_false_2 (id_user_id requester = _)) by done.
  rewrite (bool_decide_eq_true_2 (id_tenant_id requester = _)) by done. simpl.
  apply andb_false_intro2, not_true_iff_false. rewrite existsb_exists.
  intros (v & Hv%list_elem_of_In & Ev). bool_to_prop. apply Hdup. rewrite <- Ev.
  by apply list_elem_of_fmap_2.
Qed.

Lemma approve_all_votes requester votes r id q :
  aq_pending q !! id = Some r ->
  ar_requester_user_id r = id_user_id requester ->
  ar_requester_tenant_id r = id_tenant_id requester ->
  id_missing (id_user_id requester) = false ->
  NoDup ((av_approver_user_id <$> ar_approvals r) ++ (id_user_id ∘ snd <$> votes)) ->
  Forall (acceptable (aq_allowed_approver_roles q) requester (ar_expires_at_mono r)) votes ->
  aq_pending (approve_all id votes q) !! id = Some (with_votes (vote_of <$> votes) r).
Proof.
  revert q r. induction votes as [|vote votes IH]; intros q r Hr Eu Et Hmiss Hnd Hf; [done|].
  apply Forall_cons in Hf as [Hv Hf]. rewrite fmap_cons in Hnd.
  assert (approve_refused r vote.2 q = false) as Href.
  { eapply acceptable_not_refused; eauto. apply NoDup_app in Hnd as (_ & Hd & _).
    intros Hin. apply (Hd _ Hin). left. }
  destruct vote as [[m t] a]. simpl in *.
  unfold approve, approve_locked at 1. rewrite Hr.
  assert (is_expired m r = false) as -> by (unfold is_expired; apply Z.leb_gt, Hv).
  rewrite Href. simpl.
  apply IH; simpl; auto.
  - apply lookup_insert_eq.
  - rewrite fmap_app. simpl. by rewrite <- app_assoc.
Qed.

(** C40: the approval workflow completes: once a request was accepted, approvals before
    its deadline by enough users who are authorised, identified, distinct, not the
    requester and of the requester's tenant make the request consumable, and
    consuming it returns the requested operation and object with exactly those
    votes and removes it from the queue. *)
Theorem approval_completes env op handle requester q id q1 votes mono :
  let deadline := re_mono env + aq_timeout_secs q * nanos in
  request_approval env op handle requester q = (COk id, q1) ->
  NoDup (id_user_id ∘ snd <$> votes) ->
  Forall (acceptable (aq_allowed_approver_roles q) requester deadline) votes ->
  aq_required_approvals q <= len votes < 2 ^ 32 ->
  mono < deadline ->
  exists r, consume_approved mono id (approve_all id votes q1)
            = (Ok r, remove_pending id (approve_all id votes q1)) /\
    ar_operation r = op /\ ar_object_handle r = handle /\ ar_approvals r = vote_of <$> votes.
Proof.
  intros deadline Hreq Hnd Hf Hlen Hm. unfold request_approval in Hreq.
  repeat (case_match; simplify_eq; try done).
  match goal with H : instant_add_secs _ _ = Some ?d |- _ =>
    apply instant_add_secs_Some in H as ->; fold deadline
  end.
  match goal with |- context [set_pending (<[_ := ?r]> _) ?q'] =>
    set (r0 := r); set (q1 := set_pending (<[_ := r0]> _) _) end.
  assert (aq_pending (approve_all (generate_id (re_bytes env)) votes q1)
            !! generate_id (re_bytes env) = Some (with_votes (vote_of <$> votes) r0)) as Hp.
  { apply (approve_all_votes requester); auto. apply lookup_insert_eq. }
  destruct (with_votes_fields (vote_of <$> votes) r0) as (Eop & Eh & Ed & En).
  exists (with_votes (vote_of <$> votes) r0).
  rewrite with_votes_approvals. split_and!; [|done..].
  unfold consume_approved, consume_peek, consume_remove, is_expired, is_fully_approved.
  rewrite Hp, Ed, En, with_votes_approvals. simpl.
  unfold len in *. rewrite length_fmap, Z.mod_small by lia.
  rewrite (proj2 (Z.leb_gt _ _)) by done. by rewrite (proj2 (Z.leb_le _ _)) by lia.
Qed.

End Completion.

(** ** Identities of PKCS#11 sessions *)

Section Identities.
Context `{HexCrate}.

Fixpoint no_colon (s : string) : bool :=
  match s with
  | EmptyString => true
  | String c s => negb (bool_decide (c = ":"%char)) && no_colon s
  end.

Lemma no_colon_split a b s t :
  no_colon a = true -> no_colon b = true -> a +:+ ":" +:+ s = b +:+ ":" +:+ t -> a = b /\ s = t.
Proof.
  revert b. induction a as [|c a IH]; intros [|d b] Ha Hb E; simpl in *; simplify_eq; bool_to_prop;
    try done.
  edestruct IH; [done|done|done|]. by subst.
Qed.

Lemma no_colon_pretty_N_go x s : no_colon s = true -> no_colon (pretty_N_go x s) = true.
Proof.
  revert s. induction (N.lt_wf_0 x) as [x _ IH]; intros s Hs.
  assert (x = 0 \/ 0 < x)%N as [->|Hx] by lia; [by rewrite pretty_N_go_0|].
  rewrite pretty_N_go_step by done. apply IH; [apply N.div_lt; lia|]. simpl. rewrite Hs.
  unfold pretty_N_char. by repeat case_match.
Qed.

Lemma no_colon_pretty z : 0 <= z -> no_colon (pretty z) = true.
Proof.
  intros Hz. destruct z as [|z|z]; [done| |lia].
  by apply (no_colon_pretty_N_go (N.pos z)).
Qed.

Lemma session_id_inj handle handle' suffix suffix' :
  0 <= handle -> 0 <= handle' ->
  pretty handle +:+ ":" +:+ suffix = pretty handle' +:+ ":" +:+ suffix' ->
  handle = handle' /\ suffix = suffix'.
Proof.
  intros H1 H2 E. apply no_colon_split in E as [E1%(inj pretty) E2]; auto using no_colon_pretty.
Qed.

(** The sequential behaviour of the cache: the first call for a handle fixes its
    suffix. *)
Lemma suffix_stable bytes bytes' handle cache :
  let '(s, cache') := pkcs11_random_suffix_for bytes handle cache in
  pkcs11_random_suffix_for bytes' handle cache' = (s, cache').
Proof.
  unfold pkcs11_random_suffix_for, suffix_get, suffix_put.
  destruct (cache !! handle) as [b|] eqn:E; simpl; [by rewrite E|].
  by rewrite lookup_insert_eq.
Qed.

(** Two PKCS#11 sessions never share a user identifier, whatever random bytes
    they drew, so that dual control tells them apart; and as long as the calls for
    one session do not overlap, the session keeps the identifier it got first. *)
Theorem pkcs11_identities bytes bytes' handle handle' cache cache' :
  0 <= handle -> 0 <= handle' ->
  (handle <> handle' ->
   id_user_id (pkcs11_user bytes handle cache).1
     <> id_user_id (pkcs11_user bytes' handle' cache').1 /\
   id_user_id (pkcs11_so bytes handle cache).1
     <> id_user_id (pkcs11_so bytes' handle' cache').1) /\
  id_user_id (pkcs11_user bytes handle cache).1
    <> id_user_id (pkcs11_so bytes' handle' cache').1 /\
  pkcs11_user bytes' handle (pkcs11_user bytes handle cache).2 = pkcs11_user bytes handle cache.
Proof.
  intros H1 H2. unfold pkcs11_user, pkcs11_so.
  pose proof (suffix_stable bytes bytes' handle cache) as Hs.
  destruct (pkcs11_random_suffix_for bytes handle cache) as [s c].
  destruct (pkcs11_random_suffix_for bytes' handle' cache') as [s' c'].
  split_and!.
  - intros Hne. split; simpl; intros [= E]; by apply session_id_inj in E as [? ?].
  - by simpl; intros [=].
  - simpl. by rewrite Hs.
Qed.

Lemma user_identity_inj `{!HexCrateLaws} handle b1 b2 :
  b1 <> b2 ->
  id_user_id (user_identity handle (hex_encode b1)) <> id_user_id (user_identity handle (hex_encode b2)).
Proof.
  intros Hb [= E]. do 2 apply (inj (String.append _)) in E. injection E as E.
  by apply hex_encode_inj in E.
Qed.

(** The guards of [approve] for the first vote, given that tenants agree. *)
Lemma first_vote_guards r i1 i2 q :
  id_role i2 ∈ aq_allowed_approver_roles q -> id_tenant_id i1 = id_tenant_id i2 ->
  id_user_id i1 <> id_user_id i2 ->
  ar_requester_user_id r = id_user_id i1 -> ar_requester_tenant_id r = id_tenant_id i1 ->
  ar_approvals r = [] ->
  approve_refused r i2 q = id_missing (id_user_id i1) || id_missing (id_user_id i2).
Proof.
  intros Hu Ht Hne E1 E2 E3. unfold approve_refused. rewrite E1, E2, E3.
  rewrite (bool_decide_eq_true_2 (id_role i2 ∈ _)) by exact Hu.
  rewrite (bool_decide_eq_false_2 (id_user_id i1 = _)) by exact Hne.
  rewrite (bool_decide_eq_true_2 (id_tenant_id i1 = _)) by exact Ht.
  cbn [negb orb existsb]. by rewrite andb_false_r, !orb_false_r.
Qed.

(** Two overlapping first calls for one handle both miss the cache and give the
    session two identifiers; nothing but the (false) claim that one of them is blank
    keeps the session from approving under the second what it requested under the
    first. *)
Theorem suffix_race `{!HexCrateLaws} b1 b2 handle cache r q :
  cache !! handle = None -> b1 <> b2 -> User ∈ aq_allowed_approver_roles q ->
  let '(s1, cache1) := suffix_put b1 handle cache in
  let '(s2, _) := suffix_put b2 handle cache1 in
  let i1 := user_identity handle s1 in
  let i2 := user_identity handle s2 in
  suffix_get handle cache = None /\ id_user_id i1 <> id_user_id i2 /\
  (ar_requester_user_id r = id_user_id i1 -> ar_requester_tenant_id r = id_tenant_id i1 ->
   ar_approvals r = [] ->
   approve_refused r i2 q = id_missing (id_user_id i1) || id_missing (id_user_id i2)).
Proof.
  intros Hc Hb Hu. unfold suffix_put. cbv beta iota zeta. unfold suffix_get. rewrite Hc.
  split; [done|]. pose proof (user_identity_inj handle b1 b2 Hb) as Hne. split; [exact Hne|].
  intros. by apply first_vote_guards.
Qed.

End Identities.

(** ** Decisions, and the two clocks of the queue *)

(** The decision of the policy engine, on every branch: an engine that the
    program can build permits everything when it is disabled; when it is enabled it
    refuses a missing identity as not logged in, and otherwise permits exactly what
    the object's access list, or without one the role's default permissions, grant;
    and it never accepts fewer than two approvals. *)
Theorem permission_decision e identity op acl :
  engine_reach e ->
  check_permission identity op acl e =
    (if negb (pe_enabled e) then Ok tt
     else match identity with
     | None => Err UserNotLoggedIn
     | Some i =>
         if bool_decide (Exists (fun entry => ae_role entry = id_role i /\ op ∈ ae_allowed_operations entry)
              (match acl with
               | Some acl => acl_entries acl
               | None => [mkAclEntry (id_role i) (default_permissions (id_role i))]
               end))
         then Ok tt else Err KeyFunctionNotPermitted
     end) /\
  2 <= pe_required_approvals e.
Proof.
  intros He. split; [|by apply engine_approvals].
  destruct (pe_enabled e) eqn:En; [|unfold check_permission; by rewrite En].
  destruct identity as [i|]; [|unfold check_permission; by rewrite En].
  pose proof (check_permission_ok e (Some i) op acl He En) as Hok.
  rewrite may_perform_entries in Hok. simpl negb. cbv iota.
  destruct (check_permission_total i op acl e En) as [H|H]; rewrite H in *.
  - by rewrite bool_decide_eq_true_2 by (by apply Hok).
  - by rewrite bool_decide_eq_false_2 by (by intros ?%Hok).
Qed.

(** A wall-clock step retires a request that the monotonic deadline still
    admits, and a wall clock that stands still keeps one that it does not. *)
Theorem eviction_uses_wall_clock now mono id r q :
  aq_pending q !! id = Some r ->
  aq_pending (evict_expired_requests now q) !! id = (if now <? ar_expires_at r then Some r else None) /\
  (ar_expires_at r <= now -> is_expired mono r = false ->
   (approve mono now id (mkIdentity User (Some "bob") None Pin) (evict_expired_requests now q)).1
   = Err dual_control_not_found).
Proof.
  intros Hr.
  assert (aq_pending (evict_expired_requests now q) !! id
          = if now <? ar_expires_at r then Some r else None) as Hl.
  { unfold evict_expired_requests. simpl. case_if; bool_to_prop.
    - by apply map_lookup_filter_Some_2.
    - apply map_lookup_filter_None_2. right. intros ? ?. simplify_eq. simpl. lia. }
  split; [done|]. intros Hex _. unfold approve, approve_locked. rewrite Hl.
  by rewrite (proj2 (Z.ltb_ge _ _)) by done.
Qed.

(** ** Witnesses *)

(** A hexadecimal encoder of the documented form. *)
Definition demo_hex : HexCrate :=
  {| hex_encode := fun bs => from_bytes (concat (map (fun b => as_bytes (fmt_hex 2 (byte.unsigned b))) bs)) |}.

Definition alice : SessionIdentity := mkIdentity User (Some "alice") (Some "t1") Pin.
Definition bob : SessionIdentity := mkIdentity So (Some "bob") (Some "t1") Ldap.
Definition carol : SessionIdentity := mkIdentity KeyManager (Some "carol") (Some "t1") Oidc.

Definition demo_queue : ApprovalQueue := ApprovalQueue_new {[ DestroyObject ]} 1 300.
Definition demo_request_env : RequestEnv := mkRequestEnv 1000 [Byte.x0a; Byte.xff] 1000 5.
Definition demo_req := request_approval (H := demo_hex) demo_request_env DestroyObject (Some 42) alice demo_queue.
Definition demo_q1 : ApprovalQueue := demo_req.2.
Definition demo_q2 : ApprovalQueue := (approve_locked 6 1001 "0aff" bob demo_q1).2.
Definition demo_q3 : ApprovalQueue := (approve_locked 7 1002 "0aff" carol demo_q2).2.
Definition demo_r : ApprovalRequest :=
  mkRequest "0aff" DestroyObject (Some 42) (Some "alice") (Some "t1") 1000 1300 300000000005
    [mkVote (Some "bob") 1001; mkVote (Some "carol") 1002] 2.
Definition demo_history : list QEvent :=
  [EvConsumed demo_r; EvPeeked "0aff" 8; EvApproved "0aff" carol 7; EvApproved "0aff" bob 6;
   EvRequested "0aff"].

Lemma demo_requested : demo_req = (COk "0aff", demo_q1).
Proof. vm_compute. reflexivity. Qed.
Lemma demo_bob : approve_locked 6 1001 "0aff" bob demo_q1 = (Ok (Some false), demo_q2).
Proof. vm_compute. reflexivity. Qed.
Lemma demo_carol : approve_locked 7 1002 "0aff" carol demo_q2 = (Ok (Some true), demo_q3).
Proof. vm_compute. reflexivity. Qed.
Lemma demo_peek : consume_peek 8 "0aff" demo_q3 = Ok tt.
Proof. vm_compute. reflexivity. Qed.
Lemma demo_consume : consume_remove "0aff" demo_q3 = (Ok demo_r, remove_pending "0aff" demo_q3).
Proof. vm_compute. reflexivity. Qed.

Lemma demo_queue_run :
  rtc (queue_step (H := demo_hex)) (demo_queue, []) (remove_pending "0aff" demo_q3, demo_history).
Proof.
  eapply rtc_l; [eapply step_requested; [exact demo_requested|apply not_elem_of_nil]|].
  eapply rtc_l; [exact (step_approved _ _ _ _ _ _ _ _ demo_bob)|].
  eapply rtc_l; [exact (step_approved _ _ _ _ _ _ _ _ demo_carol)|].
  eapply rtc_l; [exact (step_peeked _ _ _ _ demo_peek)|].
  apply rtc_once. eapply (step_consumed 8); [left|exact demo_consume].
Qed.

Lemma dual_control_witness :
  EvConsumed demo_r ∈ demo_history /\ 2 <= len [bob; carol] /\
  (exists approvers, Z.max 1 2 <= len approvers /\ NoDup (id_user_id <$> approvers)
      /\ Forall (valid_approver demo_history demo_r) approvers).
Proof.
  assert (EvConsumed demo_r ∈ demo_history) as Hin by left.
  split; [exact Hin|]. split; [vm_compute; discriminate|].
  exact (proj2 (proj2 (proj2 (proj2 (@dual_control demo_hex {[ DestroyObject ]} 1 300 _ _ demo_queue_run) _ Hin)))).
Defined.

Lemma approval_completes_witness :
  demo_req = (COk "0aff", demo_q1) /\
  exists r, (consume_approved 8 "0aff" (approve_all "0aff" [(6, 1001, bob); (7, 1002, carol)] demo_q1)).1
            = Ok r /\ ar_operation r = DestroyObject.
Proof.
  split; [exact demo_requested|].
  destruct (@approval_completes demo_hex demo_request_env DestroyObject (Some 42) alice demo_queue "0aff" demo_q1
              [(6, 1001, bob); (7, 1002, carol)] 8 demo_requested) as (r & Hr & Hop & _).
  - repeat constructor; set_solver.
  - repeat (constructor; [by vm_compute; repeat split|]). constructor.
  - by vm_compute.
  - by vm_compute.
  - exists r. rewrite Hr. exact (conj eq_refl Hop).
Defined.

Lemma pkcs11_identities_witness :
  id_user_id (@pkcs11_user demo_hex [Byte.x01] 7 ∅).1
    <> id_user_id (@pkcs11_user demo_hex [Byte.x01] 8 ∅).1 /\
  id_user_id (@pkcs11_user demo_hex [Byte.x01] 7 ∅).1 = Some "pkcs11:user:7:01".
Proof.
  split; [|vm_compute; reflexivity].
  apply (@pkcs11_identities demo_hex [Byte.x01] [Byte.x01] 7 8 ∅ ∅); lia.
Defined.

Lemma permission_decision_witness :
  check_permission (Some bob) ReadAuditLog None
    (configure_dual_control {[ DestroyObject ]} 0 (PolicyEngine_new true)) = Ok tt.
Proof.
  destruct (permission_decision (configure_dual_control {[ DestroyObject ]} 0 (PolicyEngine_new true))
    (Some bob) ReadAuditLog None (engine_configure _ _ _ (engine_new true))) as [-> _].
  vm_compute. reflexivity.
Defined.

Lemma eviction_uses_wall_clock_witness :
  is_expired 9 demo_r = false /\
  (approve 9 2000 "0aff" (mkIdentity User (Some "bob") None Pin) (evict_expired_requests 2000 demo_q3)).1
   = Err dual_control_not_found.
Proof.
  assert (is_expired 9 demo_r = false) as He by (vm_compute; reflexivity).
  split; [exact He|].
  apply (eviction_uses_wall_clock 2000 9 "0aff" demo_r demo_q3); [by vm_compute|by vm_compute|exact He].
Defined.
