(* ===== verification/AuthTenant.v ===== *)
(** * Tenants and quotas ([craton-hsm-auth/src/tenant])

    Tenant identifiers, configurations and records ([tenant.rs]) and the manager
    with its quota counters ([manager.rs]).  A [TenantId] is its string.  The
    [DashMap]s are [gmap]s, the atomic counters fields of [TenantUsage].  Operations
    that take more than one lock in turn are split at the point where the first is
    released; the operation composes its sections. *)

From coqutil Require Import Byte.
From stdpp Require Import prelude gmap strings list.
From Stdlib Require Import ZArith Lia.
From S2P Require Import Prelude RustStd AuthRbac.
Local Open Scope string_scope.
Local Open Scope list_scope.
Local Open Scope Z_scope.

(** ** Identifiers ([tenant.rs]) *)

Definition MAX_TENANT_ID_LEN : Z := 64.

(** The reasons of a refusal; the code formats a message from each. *)
Inductive TenantIdError : Type :=
| IdEmpty
| IdTooLong (n : Z)
| IdBadStart
| IdBadChar (c : Z)
| IdConsecutiveDots.

Definition char_in (c lo hi : Z) : bool := (lo <=? c) && (c <=? hi).

Definition is_ascii_alphanumeric (c : Z) : bool :=
  char_in c 0x41 0x5A || char_in c 0x61 0x7A || char_in c 0x30 0x39.

(** ['A'..='Z' | 'a'..='z' | '0'..='9' | '-' | '_' | '.'] *)
Definition tenant_char (c : Z) : bool :=
  char_in c 0x41 0x5A || char_in c 0x61 0x7A || char_in c 0x30 0x39
  || (c =? 0x2D) || (c =? 0x5F) || (c =? 0x2E).

(** [s.contains("..")] *)
Fixpoint contains_dot_dot (cs : list Z) : bool :=
  match cs with
  | c :: ((d :: _) as r) => ((c =? 0x2E) && (d =? 0x2E)) || contains_dot_dot r
  | _ => false
  end.

Definition validate_str (s : string) : result unit TenantIdError :=
  if String.eqb s "" then Err IdEmpty
  else if MAX_TENANT_ID_LEN <? len (as_bytes s) then Err (IdTooLong (len (as_bytes s)))
  else if negb (match chars s with c :: _ => is_ascii_alphanumeric c | [] => false end)
  then Err IdBadStart
  else match find (fun c => negb (tenant_char c)) (chars s) with
  | Some bad => Err (IdBadChar bad)
  | None => if contains_dot_dot (chars s) then Err IdConsecutiveDots else Ok tt
  end.

Definition TenantId_new (id : string) : result string TenantIdError :=
  match validate_str id with Ok _ => Ok id | Err e => Err e end.

Definition TenantId_try_new (id : string) : result string TenantIdError :=
  match validate_str id with Ok _ => Ok id | Err e => Err e end.

Inductive AllowedAlgorithm : Type :=
| Aes256Gcm | Aes256Cbc | Aes256Ctr | Rsa | Ecdsa | Ed25519 | HmacSha256.

Definition AllowedAlgorithm_fmt (a : AllowedAlgorithm) : string :=
  match a with
  | Aes256Gcm => "AES-256-GCM" | Aes256Cbc => "AES-256-CBC" | Aes256Ctr => "AES-256-CTR"
  | Rsa => "RSA" | Ecdsa => "ECDSA" | Ed25519 => "ED25519" | HmacSha256 => "HMAC-SHA256"
  end.

Record TenantConfig : Type := mkTenantConfig {
  max_keys : Z;
  max_sessions : Z;
  allowed_algorithms : option (list AllowedAlgorithm);
}.

Definition TenantConfig_default : TenantConfig := mkTenantConfig 10000 100 None.

Record Tenant : Type := mkTenant {
  t_id : string;
  t_name : string;
  t_config : TenantConfig;
  t_enabled : bool;
  t_created_at : Z;
}.

(** ** The manager ([manager.rs]) *)

Record TenantUsage : Type := mkUsage {
  key_count : Z;
  session_count : Z;
}.

Definition TenantUsage_new : TenantUsage := mkUsage 0 0.

Record TenantManager : Type := mkTenantManager {
  tenants : gmap string Tenant;
  usage : gmap string TenantUsage;
}.

Definition set_tenants (t : gmap string Tenant) (m : TenantManager) : TenantManager :=
  mkTenantManager t (usage m).
Definition set_usage (u : gmap string TenantUsage) (m : TenantManager) : TenantManager :=
  mkTenantManager (tenants m) u.

Definition TenantManager_new : TenantManager := mkTenantManager ∅ ∅.

(** [create_tenant]: the entry of [tenants], then the record of [usage]. *)
Definition create_insert (now : Z) (id name : string) (config : TenantConfig) (m : TenantManager)
    : result unit HsmError * TenantManager :=
  let tenant := mkTenant id name config true now in
  match tenants m !! id with
  | Some _ => (Err GeneralError, m)
  | None => (Ok tt, set_tenants (<[id := tenant]> (tenants m)) m)
  end.

Definition create_usage (id : string) (m : TenantManager) : TenantManager :=
  set_usage (<[id := TenantUsage_new]> (usage m)) m.

Definition create_tenant (now : Z) (id name : string) (config : TenantConfig) (m : TenantManager)
    : result unit HsmError * TenantManager :=
  match create_insert now id name config m with
  | (Err e, m) => (Err e, m)
  | (Ok _, m) => (Ok tt, create_usage id m)
  end.

(** [delete_tenant]: the section that holds the tenant's entry, then the removal of
    the usage record.  Under the lock the flag goes down and, when keys remain,
    up again. *)
Definition with_enabled (b : bool) (t : Tenant) : Tenant :=
  mkTenant (t_id t) (t_name t) (t_config t) b (t_created_at t).

Definition delete_locked (id : string) (m : TenantManager)
    : result unit HsmError * TenantManager :=
  match tenants m !! id with
  | None => (Err GeneralError, m)
  | Some t =>
      let t := with_enabled false t in
      let key_count := match usage m !! id with Some u => key_count u | None => 0 end in
      if 0 <? key_count then
        (Err GeneralError, set_tenants (<[id := with_enabled true t]> (tenants m)) m)
      else (Ok tt, set_tenants (delete id (tenants m)) m)
  end.

Definition delete_usage (id : string) (m : TenantManager) : TenantManager :=
  set_usage (delete id (usage m)) m.

Definition delete_tenant (id : string) (m : TenantManager)
    : result unit HsmError * TenantManager :=
  match delete_locked id m with
  | (Err e, m) => (Err e, m)
  | (Ok _, m) => (Ok tt, delete_usage id m)
  end.

Definition get_tenant (id : string) (m : TenantManager) : option Tenant := tenants m !! id.

Definition list_tenants `{MapIter} (m : TenantManager) : list string := keys (tenants m).

Definition list_tenant_ids_into `{MapIter} (m : TenantManager) (out : list string) : list string :=
  foldl (fun out id => out ++ [id]) out (keys (tenants m)).

Definition decrement_key_count (tenant_id : string) (m : TenantManager) : TenantManager :=
  match usage m !! tenant_id with
  | Some u =>
      set_usage (<[tenant_id := mkUsage (saturating_sub (key_count u) 1) (session_count u)]> (usage m)) m
  | None => m
  end.

Definition decrement_session_count (tenant_id : string) (m : TenantManager) : TenantManager :=
  match usage m !! tenant_id with
  | Some u =>
      set_usage (<[tenant_id := mkUsage (key_count u) (saturating_sub (session_count u) 1)]> (usage m)) m
  | None => m
  end.

(** [try_reserve_key]: read the quota under the tenant's lock, then update the counter
    atomically. *)
Definition reserve_read (quota : TenantConfig -> Z) (tenant_id : string) (m : TenantManager)
    : result Z HsmError :=
  match tenants m !! tenant_id with
  | None => Err GeneralError
  | Some tenant => if negb (t_enabled tenant) then Err GeneralError else Ok (quota (t_config tenant))
  end.

Definition reserve_key_update (tenant_id : string) (max : Z) (m : TenantManager)
    : result unit HsmError * TenantManager :=
  match usage m !! tenant_id with
  | None => (Err GeneralError, m)
  | Some u =>
      if key_count u <? max
      then (Ok tt, set_usage (<[tenant_id := mkUsage (key_count u + 1) (session_count u)]> (usage m)) m)
      else (Err tenant_quota_exceeded, m)
  end.

Definition try_reserve_key (tenant_id : string) (m : TenantManager)
    : result unit HsmError * TenantManager :=
  match reserve_read max_keys tenant_id m with
  | Err e => (Err e, m)
  | Ok max => reserve_key_update tenant_id max m
  end.

Definition reserve_session_update (tenant_id : string) (max : Z) (m : TenantManager)
    : result unit HsmError * TenantManager :=
  match usage m !! tenant_id with
  | None => (Err GeneralError, m)
  | Some u =>
      if session_count u <? max
      then (Ok tt, set_usage (<[tenant_id := mkUsage (key_count u) (session_count u + 1)]> (usage m)) m)
      else (Err tenant_quota_exceeded, m)
  end.

Definition try_reserve_session (tenant_id : string) (m : TenantManager)
    : result unit HsmError * TenantManager :=
  match reserve_read max_sessions tenant_id m with
  | Err e => (Err e, m)
  | Ok max => reserve_session_update tenant_id max m
  end.
