(* ===== verification/AuthTenantProofs.v ===== *)
(** * Correctness of tenant quotas

    Accepted identifiers; quotas and the agreement of the two maps when operations
    run one after the other; quotas when they interleave; what the interleaving of
    deletions breaks. *)

From coqutil Require Import Byte.
From stdpp Require Import prelude gmap strings list relations.
From Stdlib Require Import ZArith Lia.
From S2P Require Import Prelude RustStd AuthRbac AuthTenant.
Local Open Scope string_scope.
Local Open Scope list_scope.
Local Open Scope Z_scope.

(** ** Identifiers *)

Lemma contains_dot_dot_spec cs :
  contains_dot_dot cs = true <-> exists i, cs !! i = Some 0x2E /\ cs !! S i = Some 0x2E.
Proof.
  induction cs as [|c [|d r] IH].
  - split; [done|]. intros (i & Hi & _). by rewrite lookup_nil in Hi.
  - split; [done|]. intros (i & _ & Hi). simpl in Hi. by rewrite lookup_nil in Hi.
  - change (contains_dot_dot (c :: d :: r))
      with (((c =? 0x2E) && (d =? 0x2E)) || contains_dot_dot (d :: r)).
    rewrite orb_true_iff, IH. split.
    + intros [Hd|(i & ? & ?)]; [bool_to_prop; subst; by exists 0%nat|by exists (S i)].
    + intros ([|i] & H1 & H2); [left; simpl in *; by simplify_eq|right; by exists i].
Qed.

(** The rule that the documentation of [TenantId] states, on the code points. *)
Record tenant_id_rule (s : string) : Prop := {
  rule_length : 1 <= len (as_bytes s) <= 64;
  rule_start : exists c r, chars s = c :: r /\ is_ascii_alphanumeric c = true;
  rule_chars : Forall (fun c => tenant_char c = true) (chars s);
  rule_dots : ~ exists i, chars s !! i = Some 0x2E /\ chars s !! S i = Some 0x2E;
}.

Lemma find_none_Forall {A} (f : A -> bool) l :
  find f l = None <-> Forall (fun x => f x = false) l.
Proof.
  split; [intros Hf; apply Forall_forall; intros x Hx; by eapply find_none, list_elem_of_In|].
  induction 1 as [|x l Hx _ IH]; simpl; [done|]. by rewrite Hx.
Qed.

Lemma tenant_id_accepted s : TenantId_new s = Ok s <-> tenant_id_rule s.
Proof.
  unfold TenantId_new, validate_str, MAX_TENANT_ID_LEN. split.
  - intros H. repeat (case_match; try done). bool_to_prop.
    match goal with H : find _ _ = None |- _ => apply find_none_Forall in H as Hf end.
    match goal with H : chars s = ?c :: ?r |- _ => rewrite <- H in *; rename H into Hs; rename c into c0, r into r0 end.
    split.
    + split; [|lia]. destruct s; [done|]. unfold len. simpl. lia.
    + by exists c0, r0.
    + eapply Forall_impl; [exact Hf|]. intros c Hc. by apply negb_false_iff in Hc.
    + rewrite <- contains_dot_dot_spec. by rewrite not_true_iff_false.
  - intros [Hl (c & r & Hs & Hc) Hf Hd]. rewrite <- contains_dot_dot_spec, not_true_iff_false in Hd.
    destruct (String.eqb_spec s "") as [->|_]; [by unfold len in Hl; simpl in Hl|].
    rewrite (proj2 (Z.ltb_ge _ _)) by lia. rewrite Hs in *. rewrite Hc. simpl negb. cbv iota.
    rewrite (proj2 (find_none_Forall _ _)); [by rewrite Hd|].
    eapply Forall_impl; [exact Hf|]. intros x Hx. simpl. by rewrite Hx.
Qed.

(** ** One operation after the other *)

Definition usage_ok (t : Tenant) (u : TenantUsage) : Prop :=
  0 <= key_count u <= max_keys (t_config t) /\ 0 <= session_count u <= max_sessions (t_config t).

Record tenants_inv (m : TenantManager) : Prop := {
  ti_dom : dom (tenants m) = dom (usage m);
  ti_usage : forall id t u, tenants m !! id = Some t -> usage m !! id = Some u -> usage_ok t u;
  ti_enabled : map_Forall (fun id t => t_id t = id /\ t_enabled t = true) (tenants m);
}.

(** The calls a client makes, each run to its end. *)
Inductive tenant_call : TenantManager -> TenantManager -> Prop :=
| call_create now id name config m :
    0 <= max_keys config -> 0 <= max_sessions config ->
    tenant_call m (create_tenant now id name config m).2
| call_delete id m : tenant_call m (delete_tenant id m).2
| call_reserve_key id m : tenant_call m (try_reserve_key id m).2
| call_reserve_session id m : tenant_call m (try_reserve_session id m).2
| call_release_key id m : tenant_call m (decrement_key_count id m)
| call_release_session id m : tenant_call m (decrement_session_count id m).

(** Replacing the counters of one tenant. *)
Lemma inv_set_usage m id t u u' :
  tenants_inv m -> tenants m !! id = Some t -> usage m !! id = Some u -> usage_ok t u' ->
  tenants_inv (set_usage (<[id := u']> (usage m)) m).
Proof.
  intros [Hd Hu He] Ht Hl Hok. split; simpl; [|intros i t' v Ht'|done].
  - rewrite dom_insert_L, Hd. apply elem_of_dom_2 in Hl. set_solver.
  - rewrite lookup_insert_Some. intros [[<- <-]|[_ ?]]; [by simplify_eq|eauto].
Qed.

Lemma inv_tenant_of m id u :
  tenants_inv m -> usage m !! id = Some u -> exists t, tenants m !! id = Some t /\ usage_ok t u.
Proof.
  intros Inv Hu. assert (id ∈ dom (tenants m)) as [t Ht]%elem_of_dom.
  { rewrite (ti_dom _ Inv). by eapply elem_of_dom_2. }
  exists t. split; [done|]. by eapply (ti_usage _ Inv).
Qed.

Lemma inv_create_tenant now id name config m :
  0 <= max_keys config -> 0 <= max_sessions config ->
  tenants_inv m -> tenants_inv (create_tenant now id name config m).2.
Proof.
  intros Hk Hs Inv. unfold create_tenant, create_insert.
  destruct (tenants m !! id) eqn:Ht; [done|]. destruct Inv as [Hd Hu He]. split; simpl.
  - by rewrite !dom_insert_L, Hd.
  - intros i t u. rewrite !lookup_insert_Some. intros [[<- <-]|[? ?]] [[? <-]|[? ?]]; try done.
    eauto.
  - by apply map_Forall_insert_2.
Qed.

Lemma with_enabled_same t b : t_enabled t = true -> with_enabled true (with_enabled b t) = t.
Proof. intros E. destruct t. simpl in *. by rewrite <- E. Qed.

(** A refused deletion changes nothing: the flag is restored. *)
Lemma delete_refused id m e m' :
  tenants_inv m -> delete_tenant id m = (Err e, m') -> m' = m /\ e = GeneralError.
Proof.
  intros Inv. unfold delete_tenant, delete_locked.
  destruct (tenants m !! id) as [t|] eqn:Ht; [|by intros [= <- <-]].
  destruct (ti_enabled _ Inv id t Ht) as [_ He]. case_if; intros [= <- <-]. split; [|done].
  rewrite with_enabled_same by done. unfold set_tenants. rewrite insert_id by done. by destruct m.
Qed.

Lemma inv_delete id m : tenants_inv m -> tenants_inv (delete_tenant id m).2.
Proof.
  intros Inv. destruct (delete_tenant id m) as [[[]|e] m'] eqn:E; simpl.
  - unfold delete_tenant, delete_locked in E.
    destruct (tenants m !! id); [|done]. case_if; [done|]. injection E as <-.
    destruct Inv as [Hd Hu He]. split; simpl.
    + by rewrite !dom_delete_L, Hd.
    + intros i t' u. rewrite !lookup_delete_Some. intros [? ?] [? ?]. eauto.
    + by apply map_Forall_delete.
  - by apply delete_refused in E as [-> _].
Qed.

Lemma inv_reserve_key id m : tenants_inv m -> tenants_inv (try_reserve_key id m).2.
Proof.
  intros Inv. unfold try_reserve_key, reserve_read, reserve_key_update.
  destruct (tenants m !! id) as [t|] eqn:Ht; [|done].
  destruct (t_enabled t); [|done]. simpl. destruct (usage m !! id) as [u|] eqn:Hu; [|done].
  case_if; [|done]. destruct (ti_usage _ Inv _ _ _ Ht Hu). bool_to_prop.
  eapply inv_set_usage; eauto. split; simpl; lia.
Qed.

Lemma inv_reserve_session id m : tenants_inv m -> tenants_inv (try_reserve_session id m).2.
Proof.
  intros Inv. unfold try_reserve_session, reserve_read, reserve_session_update.
  destruct (tenants m !! id) as [t|] eqn:Ht; [|done].
  destruct (t_enabled t); [|done]. simpl. destruct (usage m !! id) as [u|] eqn:Hu; [|done].
  case_if; [|done]. destruct (ti_usage _ Inv _ _ _ Ht Hu). bool_to_prop.
  eapply inv_set_usage; eauto. split; simpl; lia.
Qed.

Lemma inv_release id m :
  tenants_inv m ->
  tenants_inv (decrement_key_count id m) /\ tenants_inv (decrement_session_count id m).
Proof.
  intros Inv. unfold decrement_key_count, decrement_session_count.
  destruct (usage m !! id) as [u|] eqn:Hu; [|done].
  destruct (inv_tenant_of _ _ _ Inv Hu) as (t & Ht & Hk & Hs).
  split; (eapply inv_set_usage; eauto; split; simpl; unfold saturating_sub; lia).
Qed.

Lemma inv_tenant_call m m' : tenants_inv m -> tenant_call m m' -> tenants_inv m'.
Proof.
  intros Inv Hc. destruct Hc;
    auto using inv_create_tenant, inv_delete, inv_reserve_key, inv_reserve_session; by apply inv_release.
Qed.

Lemma inv_tenant_calls m : rtc tenant_call TenantManager_new m -> tenants_inv m.
Proof.
  apply rtc_invariant; [apply inv_tenant_call|]. done.
Qed.

(** When the operations of a tenant manager run one after the other, every tenant
    has its usage record and every usage record its tenant, no counter exceeds the
    tenant's quota, and every tenant is enabled; a reservation succeeds exactly
    when the tenant exists and has quota left, and a deletion exactly when the
    tenant exists and has no keys, a refused one changing nothing. *)
Theorem tenant_quotas m id :
  rtc tenant_call TenantManager_new m ->
  tenants_inv m /\
  ((try_reserve_key id m).1 = Ok tt <->
   exists t u, tenants m !! id = Some t /\ usage m !! id = Some u
     /\ key_count u < max_keys (t_config t)) /\
  ((delete_tenant id m).1 = Ok tt <->
   exists t u, tenants m !! id = Some t /\ usage m !! id = Some u /\ key_count u = 0) /\
  ((delete_tenant id m).1 <> Ok tt -> (delete_tenant id m).2 = m).
Proof.
  intros Inv%inv_tenant_calls. split; [done|].
  assert (tenants m !! id = None /\ usage m !! id = None \/
    exists t u, tenants m !! id = Some t /\ t_enabled t = true /\ usage m !! id = Some u /\ usage_ok t u)
    as [[Ht Hu]|(t & u & Ht & He & Hu & Hok & _)].
  { destruct (usage m !! id) as [u|] eqn:Hu.
    - right. destruct (inv_tenant_of _ _ _ Inv Hu) as (t & Ht & Hok).
      exists t, u. split_and!; try done. by apply (ti_enabled _ Inv id).
    - left. split; [|done]. apply not_elem_of_dom. rewrite (ti_dom _ Inv). by apply not_elem_of_dom. }
  - unfold try_reserve_key, reserve_read, delete_tenant, delete_locked. rewrite Ht. simpl.
    split_and!; [split; [done|naive_solver]..|done].
  - split_and!.
    + unfold try_reserve_key, reserve_read, reserve_key_update. rewrite Ht, He, Hu. simpl.
      case_if; bool_to_prop; (split; [intros; try done; eauto|intros (? & ? & ? & ? & ?); simplify_eq; lia || done]).
    + unfold delete_tenant, delete_locked. rewrite Ht, Hu.
      case_if; bool_to_prop; simpl; (split; [intros; try done; exists t, u; split_and!; try done; lia
        |intros (? & ? & ? & ? & ?); simplify_eq; lia || done]).
    + destruct (delete_tenant id m) as [[[]|e] m'] eqn:E; [done|]. intros _.
      by apply delete_refused in E as [-> _].
Qed.

(** ** Interleaved operations

    Between its two sections an operation is a continuation; any continuation may
    run next.  The history records what the callers were told. *)

Inductive Cont : Type :=
| KCreate (id : string)
| KDelete (id : string)
| KKey (id : string) (max : Z)
| KSession (id : string) (max : Z).

Inductive TEvent : Type :=
| TDeleted (id : string)
| TKeyReserved (id : string)
| TKeyReleased (id : string).

#[global] Instance TEvent_eq_dec : EqDecision TEvent.
Proof. solve_decision. Defined.

Record TSys : Type := mkTSys {
  ts_mgr : TenantManager;
  ts_conts : list Cont;
  ts_hist : list TEvent;
}.

Inductive tenant_step : TSys -> TSys -> Prop :=
| t_create now id name config m m' k h :
    0 <= max_keys config -> 0 <= max_sessions config ->
    create_insert now id name config m = (Ok tt, m') ->
    tenant_step (mkTSys m k h) (mkTSys m' (KCreate id :: k) h)
| t_create_usage id m k k' h :
    k ≡ₚ KCreate id :: k' -> tenant_step (mkTSys m k h) (mkTSys (create_usage id m) k' h)
| t_delete id m m' k h :
    delete_locked id m = (Ok tt, m') ->
    tenant_step (mkTSys m k h) (mkTSys m' (KDelete id :: k) (TDeleted id :: h))
| t_delete_refused id e m m' k h :
    delete_locked id m = (Err e, m') -> tenant_step (mkTSys m k h) (mkTSys m' k h)
| t_delete_usage id m k k' h :
    k ≡ₚ KDelete id :: k' -> tenant_step (mkTSys m k h) (mkTSys (delete_usage id m) k' h)
| t_key_read id max m k h :
    reserve_read max_keys id m = Ok max -> tenant_step (mkTSys m k h) (mkTSys m (KKey id max :: k) h)
| t_key_ok id max m m' k k' h :
    k ≡ₚ KKey id max :: k' -> reserve_key_update id max m = (Ok tt, m') ->
    tenant_step (mkTSys m k h) (mkTSys m' k' (TKeyReserved id :: h))
| t_key_refused id max e m m' k k' h :
    k ≡ₚ KKey id max :: k' -> reserve_key_update id max m = (Err e, m') ->
    tenant_step (mkTSys m k h) (mkTSys m' k' h)
| t_key_release id m k h :
    tenant_step (mkTSys m k h) (mkTSys (decrement_key_count id m) k (TKeyReleased id :: h))
| t_session_read id max m k h :
    reserve_read max_sessions id m = Ok max ->
    tenant_step (mkTSys m k h) (mkTSys m (KSession id max :: k) h)
| t_session_update id max m k k' h :
    k ≡ₚ KSession id max :: k' ->
    tenant_step (mkTSys m k h) (mkTSys (reserve_session_update id max m).2 k' h)
| t_session_release id m k h :
    tenant_step (mkTSys m k h) (mkTSys (decrement_session_count id m) k h).

(** How often an event occurred. *)
Definition count (e : TEvent) (h : list TEvent) : Z := len (filter (fun x => x = e) h).

Lemma count_cons e x h : count e (x :: h) = (if decide (x = e) then 1 else 0) + count e h.
Proof. unfold count. rewrite filter_cons. case_decide; autorewrite with rust_len; lia. Qed.

Lemma count_nonneg e h : 0 <= count e h.
Proof. apply len_nonneg. Qed.

(** What concerns one tenant: its usage record and configuration, its pending
    continuations, and the balance of its key reservations.  While it is not
    deleted, the continuations carry its quotas, the counters are within them, and
    the counter covers the balance. *)
Definition cont_id (k : Cont) : string :=
  match k with KCreate id | KDelete id | KKey id _ | KSession id _ => id end.

Definition within (c : TenantConfig) (u : TenantUsage) : Prop :=
  0 <= key_count u <= max_keys c /\ 0 <= session_count u <= max_sessions c.

Record local_ok (id : string) (u : option TenantUsage) (c : option TenantConfig)
    (ks : list Cont) (reserved released : Z) : Prop := {
  lo_usage : forall u', u = Some u' ->
    exists c', c = Some c' /\ within c' u' /\ reserved - released <= key_count u';
  lo_fresh : u = None -> reserved <= released;
  lo_create : KCreate id ∈ ks ->
    u = None /\ exists c', c = Some c' /\ 0 <= max_keys c' /\ 0 <= max_sessions c';
  lo_once : forall ks', ks ≡ₚ KCreate id :: ks' -> KCreate id ∉ ks';
  lo_delete : KDelete id ∉ ks;
  lo_key : forall max, KKey id max ∈ ks -> exists c', c = Some c' /\ max = max_keys c';
  lo_session : forall max, KSession id max ∈ ks -> exists c', c = Some c' /\ max = max_sessions c';
}.

Definition tenant_view (id : string) (s : TSys) : Prop :=
  local_ok id (usage (ts_mgr s) !! id) (t_config <$> tenants (ts_mgr s) !! id)
    (filter (fun k => cont_id k = id) (ts_conts s))
    (count (TKeyReserved id) (ts_hist s)) (count (TKeyReleased id) (ts_hist s)).

Lemma local_ok_perm id u c ks ks' res rel :
  ks ≡ₚ ks' -> local_ok id u c ks res rel -> local_ok id u c ks' res rel.
Proof.
  intros Hp [H1 H2 H3 H4 H5 H6 H7]. split; auto.
  - rewrite <- Hp. exact H3.
  - intros l Hl. apply H4. by rewrite Hp.
  - rewrite <- Hp. exact H5.
  - intros max. rewrite <- Hp. apply H6.
  - intros max. rewrite <- Hp. apply H7.
Qed.

(** Removing a continuation keeps the rest in order. *)
Lemma local_ok_drop id u c k ks res rel :
  local_ok id u c (k :: ks) res rel -> local_ok id u c ks res rel.
Proof.
  intros [H1 H2 H3 H4 H5 H6 H7]. split; auto.
  - intros Hin. apply H3. by right.
  - intros ks' Hp Hin. apply (H4 (k :: ks')); [etrans; [apply perm_skip, Hp|apply perm_swap]|by right].
  - intros Hin. apply H5. by right.
  - intros max Hin. apply H6. by right.
  - intros max Hin. apply H7. by right.
Qed.

(** Adding the continuation of a reservation that read the quota. *)
Lemma local_ok_read id u c ks res rel k :
  (exists c', c = Some c' /\ (k = KKey id (max_keys c') \/ k = KSession id (max_sessions c'))) ->
  local_ok id u c ks res rel -> local_ok id u c (k :: ks) res rel.
Proof.
  intros (c' & Hc & Hk) [H1 H2 H3 H4 H5 H6 H7]. split; auto.
  - intros [<-|Hin]%elem_of_cons; [by destruct Hk|auto].
  - intros ks' Hp.
    assert (k ∈ ks') as (l1 & l2 & ->)%list_elem_of_split.
    { assert (k ∈ KCreate id :: ks') as [->|]%elem_of_cons by (rewrite <- Hp; left); [by destruct Hk|done]. }
    assert (ks ≡ₚ KCreate id :: l1 ++ l2) as Hp'.
    { apply (Permutation_cons_inv (a := k)). etrans; [exact Hp|].
      etrans; [apply perm_skip; symmetry; apply Permutation_middle|apply perm_swap]. }
    apply H4 in Hp'. rewrite elem_of_app, elem_of_cons in *. naive_solver.
  - intros [<-|Hin]%elem_of_cons; [by destruct Hk|done].
  - intros max [<-|Hin]%elem_of_cons; [|auto]. destruct Hk; naive_solver.
  - intros max [<-|Hin]%elem_of_cons; [|auto]. destruct Hk; naive_solver.
Qed.

(** The continuations of tenant [id] after one was taken. *)
Abbreviation conts_of id k := (filter (fun c => cont_id c = id) k).

Lemma conts_taken id k c k' :
  k ≡ₚ c :: k' ->
  conts_of id k ≡ₚ (if decide (cont_id c = id) then c :: conts_of id k' else conts_of id k').
Proof. intros Hp. etrans; [by apply filter_Permutation, Hp|]. by rewrite filter_cons. Qed.

Lemma view_take id m k c k' h :
  k ≡ₚ c :: k' -> tenant_view id (mkTSys m k h) -> tenant_view id (mkTSys m k' h).
Proof.
  intros Hp Hv. apply (local_ok_perm _ _ _ _ _ _ _ (conts_taken id k c k' Hp)) in Hv.
  simpl in Hv. case_decide; [by apply local_ok_drop in Hv|done].
Qed.

Lemma view_taken_in id m k c k' h :
  k ≡ₚ c :: k' -> cont_id c = id -> tenant_view id (mkTSys m k h) ->
  local_ok id (usage m !! id) (t_config <$> tenants m !! id) (c :: conts_of id k')
    (count (TKeyReserved id) h) (count (TKeyReleased id) h).
Proof.
  intros Hp Hc Hv. apply (local_ok_perm _ _ _ _ _ _ _ (conts_taken id k c k' Hp)) in Hv.
  simpl in Hv. by rewrite decide_True in Hv.
Qed.

(** Steps of another tenant. *)
Lemma view_frame id m m' k h h' :
  usage m' !! id = usage m !! id -> t_config <$> tenants m' !! id = t_config <$> tenants m !! id ->
  count (TKeyReserved id) h' = count (TKeyReserved id) h ->
  count (TKeyReleased id) h' = count (TKeyReleased id) h ->
  tenant_view id (mkTSys m k h) -> tenant_view id (mkTSys m' k h').
Proof. unfold tenant_view. simpl. by intros -> -> -> ->. Qed.

Lemma view_add id m k c h :
  cont_id c <> id -> tenant_view id (mkTSys m k h) -> tenant_view id (mkTSys m (c :: k) h).
Proof. intros Hc Hv. unfold tenant_view. simpl. by rewrite filter_cons, decide_False by done. Qed.

(** A new usage record for the tenant, with the balance [res - rel]. *)
Lemma local_ok_set id u c ks res rel u' c' res' rel' :
  local_ok id (Some u) c ks res rel -> c = Some c' -> within c' u' -> res' - rel' <= key_count u' ->
  local_ok id (Some u') c ks res' rel'.
Proof.
  intros [H1 H2 H3 H4 H5 H6 H7] Hc Hw Hb. split; auto; try done.
  - intros ? [= <-]. eauto.
  - intros Hin. by apply H3 in Hin as [? _].
Qed.

Lemma view_created id m k h now name config m' :
  0 <= max_keys config -> 0 <= max_sessions config ->
  create_insert now id name config m = (Ok tt, m') ->
  tenant_view id (mkTSys m k h) -> tenant_view id (mkTSys m' (KCreate id :: k) h).
Proof.
  unfold create_insert. intros Hk Hs E Hv. destruct (tenants m !! id) eqn:Ht; [done|].
  injection E as <-. unfold tenant_view in *. simpl in *. rewrite Ht in Hv.
  rewrite lookup_insert_eq, filter_cons, decide_True by done. simpl in *.
  destruct Hv as [H1 H2 H3 H4 H5 H6 H7].
  assert (usage m !! id = None) as Hu.
  { destruct (usage m !! id) as [u|]; [|done]. by destruct (H1 u eq_refl) as (? & ? & _). }
  rewrite Hu in *. split; auto; try done.
  - intros _. split; [done|]. by exists config.
  - intros ks' Hp%Permutation_cons_inv. rewrite <- Hp. intros [_ (? & ? & _)]%H3. done.
  - intros [|]%elem_of_cons; done.
  - intros max [|Hin]%elem_of_cons; [done|]. by apply H6 in Hin as (? & ? & _).
  - intros max [|Hin]%elem_of_cons; [done|]. by apply H7 in Hin as (? & ? & _).
Qed.

Lemma view_create_usage id m k k' h :
  k ≡ₚ KCreate id :: k' -> tenant_view id (mkTSys m k h) ->
  tenant_view id (mkTSys (create_usage id m) k' h).
Proof.
  intros Hp Hv. apply (view_taken_in id m k (KCreate id) k' h Hp eq_refl) in Hv.
  pose proof (lo_once _ _ _ _ _ _ Hv _ (reflexivity _)) as Honce.
  destruct (lo_create _ _ _ _ _ _ Hv) as (Hu & c' & Hc & Hk & Hs); [left|].
  pose proof (lo_fresh _ _ _ _ _ _ Hv Hu) as Hf.
  apply local_ok_drop in Hv. unfold tenant_view. simpl. rewrite lookup_insert_eq.
  destruct Hv as [H1 H2 H3 H4 H5 H6 H7]. split; auto; try done.
  intros u [= <-]. exists c'. split; [done|]. unfold within, TenantUsage_new. simpl. lia.
Qed.

Lemma view_key_ok id max m m' k k' h :
  k ≡ₚ KKey id max :: k' -> reserve_key_update id max m = (Ok tt, m') ->
  tenant_view id (mkTSys m k h) -> tenant_view id (mkTSys m' k' (TKeyReserved id :: h)).
Proof.
  unfold reserve_key_update. intros Hp E Hv.
  destruct (usage m !! id) as [u|] eqn:Hu; [|done]. case_if; [|done]. injection E as <-.
  apply (view_taken_in id m k _ k' h Hp eq_refl) in Hv. rewrite Hu in Hv. bool_to_prop.
  destruct (lo_key _ _ _ _ _ _ Hv max) as (c' & Hc & ->); [left|].
  destruct (lo_usage _ _ _ _ _ _ Hv u eq_refl) as (? & Hc' & [? ?] & ?).
  apply local_ok_drop in Hv. unfold tenant_view. simpl. rewrite lookup_insert_eq.
  rewrite !count_cons, decide_True, decide_False by done.
  eapply local_ok_set; [exact Hv|done| |]; simplify_eq; unfold within; simpl; lia.
Qed.

Lemma view_session id max m k k' h :
  k ≡ₚ KSession id max :: k' ->
  tenant_view id (mkTSys m k h) ->
  tenant_view id (mkTSys (reserve_session_update id max m).2 k' h).
Proof.
  unfold reserve_session_update. intros Hp Hv.
  destruct (usage m !! id) as [u|] eqn:Hu; [|by eapply view_take].
  case_if; [|by eapply view_take].
  apply (view_taken_in id m k _ k' h Hp eq_refl) in Hv. rewrite Hu in Hv. bool_to_prop.
  destruct (lo_session _ _ _ _ _ _ Hv max) as (c' & Hc & ->); [left|].
  destruct (lo_usage _ _ _ _ _ _ Hv u eq_refl) as (? & Hc' & [? ?] & ?).
  apply local_ok_drop in Hv. unfold tenant_view. simpl. rewrite lookup_insert_eq.
  eapply local_ok_set; [exact Hv|done| |]; simplify_eq; unfold within; simpl; lia.
Qed.

Lemma view_release id m k h :
  tenant_view id (mkTSys m k h) ->
  tenant_view id (mkTSys (decrement_key_count id m) k (TKeyReleased id :: h)) /\
  tenant_view id (mkTSys (decrement_session_count id m) k h).
Proof.
  intros Hv. unfold decrement_key_count, decrement_session_count, tenant_view in *. simpl in *.
  rewrite !count_cons, (decide_True _ _ (eq_refl (TKeyReleased id))), decide_False by done.
  destruct (usage m !! id) as [u|] eqn:Hu; simpl.
  - rewrite !lookup_insert_eq.
    destruct (lo_usage _ _ _ _ _ _ Hv u eq_refl) as (c' & Hc' & [? ?] & ?).
    split; (eapply local_ok_set; [exact Hv|done|unfold within|]); simpl; unfold saturating_sub; lia.
  - rewrite Hu. split; [|done]. destruct Hv as [H1 H2 H3 H4 H5 H6 H7]. split; auto; try done.
    intros _. specialize (H2 eq_refl). lia.
Qed.

Lemma delete_refused_config id i e m m' :
  delete_locked id m = (Err e, m') ->
  usage m' = usage m /\ t_config <$> tenants m' !! i = t_config <$> tenants m !! i.
Proof.
  unfold delete_locked. destruct (tenants m !! id) as [t|] eqn:Ht; [|by intros [= <- <-]].
  case_if; intros [= <- <-]. split; [done|]. simpl.
  destruct (decide (i = id)) as [->|]; [by rewrite lookup_insert_eq, Ht|by rewrite lookup_insert_ne].
Qed.

(** The maps and counts of another tenant are untouched. *)
Ltac other_tenant :=
  apply view_frame; simpl; rewrite ?lookup_insert_ne, ?lookup_delete_ne by done;
  rewrite ?count_cons, ?decide_False by congruence; try done.

Lemma view_step id s s' :
  tenant_view id s -> tenant_step s s' -> TDeleted id ∉ ts_hist s' -> tenant_view id s'.
Proof.
  intros Hv Hs Hd. destruct Hs as
    [now i name config m m' k h ? ? E|i m k k' h Hp|i m m' k h E|i e m m' k h E|i m k k' h Hp
    |i max m k h E|i max m m' k k' h Hp E|i max e m m' k k' h Hp E|i m k h|i max m k h E
    |i max m k k' h Hp|i m k h]; destruct (decide (i = id)) as [->|Hne].
  - by eapply view_created.
  - apply view_add; [done|]. revert Hv. unfold create_insert in E. repeat (case_match; simplify_eq); other_tenant.
  - by eapply view_create_usage.
  - apply (view_take _ _ _ _ _ _ Hp) in Hv. revert Hv. other_tenant.
  - exfalso. apply Hd. left.
  - apply view_add; [done|]. revert Hv. unfold delete_locked in E. repeat (case_match; simplify_eq); other_tenant.
  - revert Hv. destruct (delete_refused_config _ id _ _ _ E). apply view_frame; congruence.
  - revert Hv. destruct (delete_refused_config _ id _ _ _ E). apply view_frame; congruence.
  - apply (view_taken_in _ _ _ _ _ _ Hp eq_refl) in Hv. by destruct (lo_delete _ _ _ _ _ _ Hv); left.
  - apply (view_take _ _ _ _ _ _ Hp) in Hv. revert Hv. other_tenant.
  - unfold tenant_view, reserve_read in *. simpl. rewrite filter_cons, decide_True by done.
    apply local_ok_read; [|done]. repeat case_match; simplify_eq. simpl. eauto.
  - by apply view_add.
  - by eapply view_key_ok.
  - apply (view_take _ _ _ _ _ _ Hp) in Hv. revert Hv. unfold reserve_key_update in E.
    repeat (case_match; simplify_eq); other_tenant.
  - apply (view_take _ _ _ _ _ _ Hp) in Hv. unfold reserve_key_update in E. by repeat case_match; simplify_eq.
  - apply (view_take _ _ _ _ _ _ Hp) in Hv. unfold reserve_key_update in E. by repeat case_match; simplify_eq.
  - by apply view_release.
  - revert Hv. unfold decrement_key_count. case_match; other_tenant.
  - unfold tenant_view, reserve_read in *. simpl. rewrite filter_cons, decide_True by done.
    apply local_ok_read; [|done]. repeat case_match; simplify_eq. simpl. eauto.
  - by apply view_add.
  - by eapply view_session.
  - apply (view_take _ _ _ _ _ _ Hp) in Hv. revert Hv. unfold reserve_session_update.
    repeat case_match; try done; other_tenant.
  - by apply (view_release id m k h) in Hv as [_ ?].
  - revert Hv. unfold decrement_session_count. case_match; other_tenant.
Qed.

Lemma hist_grows s s' e : tenant_step s s' -> e ∈ ts_hist s -> e ∈ ts_hist s'.
Proof. destruct 1; simpl; intros; auto; by right. Qed.

Lemma view_run id s s' :
  rtc tenant_step s s' -> TDeleted id ∉ ts_hist s' -> tenant_view id s -> tenant_view id s'.
Proof.
  induction 1 as [|s1 s2 s3 Hs Hr IH]; [done|]. intros Hd Hv. apply IH; [done|].
  eapply view_step; [done..|]. intros Hin. apply Hd. clear -Hin Hr.
  induction Hr; eauto using hist_grows.
Qed.

Definition TSys_new : TSys := mkTSys TenantManager_new [] [].

(** C14: under every interleaving of creations, reservations, releases and deletions,
    the quotas of a tenant that is not deleted during the run hold: its counters
    stay within its configured limits, and the reservations of keys that succeeded
    exceed the releases by at most the limit. *)
Theorem quota_under_concurrency id s u :
  rtc tenant_step TSys_new s -> TDeleted id ∉ ts_hist s -> usage (ts_mgr s) !! id = Some u ->
  exists t, tenants (ts_mgr s) !! id = Some t /\ usage_ok t u /\
    count (TKeyReserved id) (ts_hist s) - count (TKeyReleased id) (ts_hist s) <= max_keys (t_config t).
Proof.
  intros Hr Hd Hu. assert (tenant_view id s) as Hv.
  { eapply view_run; [done..|]. 
    split; simpl; try done; try (by intros ? ?%elem_of_nil); try (by intros ?%elem_of_nil).
    intros ks' Hp. by apply Permutation_nil_cons in Hp. }
  destruct (lo_usage _ _ _ _ _ _ Hv u Hu) as (c & Hc & Hw & Hb).
  destruct (tenants (ts_mgr s) !! id) as [t|]; simplify_eq/=. exists t. split; [done|].
  unfold within, usage_ok in *. split; [done|]. lia.
Qed.

(** ** Deletions that interleave *)

Definition cfg1 : TenantConfig := mkTenantConfig 1 1 None.
Definition acme : Tenant := mkTenant "acme" "Acme" cfg1 true 0.

Lemma acme_created :
  rtc tenant_step TSys_new (mkTSys (create_tenant 0 "acme" "Acme" cfg1 TenantManager_new).2 [] []).
Proof.
  eapply rtc_l; [by apply (t_create 0 "acme" "Acme" cfg1)|].
  by apply rtc_once, (t_create_usage "acme").
Qed.

(** Deletion is not atomic.  A reservation that read its tenant before
    the deletion can succeed after it, for a tenant that no longer exists; and a
    deletion that overlaps the re-creation of the tenant leaves it without a usage
    record, after which every reservation for it fails. *)
Theorem delete_races :
  (exists s, rtc tenant_step TSys_new s /\
     ts_hist s = [TKeyReserved "acme"; TDeleted "acme"] /\ tenants (ts_mgr s) !! "acme" = None) /\
  (exists s, rtc tenant_step TSys_new s /\ ts_conts s = [] /\
     tenants (ts_mgr s) !! "acme" = Some acme /\ usage (ts_mgr s) !! "acme" = None /\
     (try_reserve_key "acme" (ts_mgr s)).1 = Err GeneralError).
Proof.
  split.
  - eexists. split.
    { etrans; [apply acme_created|].
      eapply rtc_l; [by apply (t_key_read "acme" 1)|].
      eapply rtc_l; [by apply (t_delete "acme")|].
      apply rtc_once. by eapply (t_key_ok "acme" 1); [apply perm_swap|]. }
    done.
  - eexists. split.
    { etrans; [apply acme_created|].
      eapply rtc_l; [by apply (t_delete "acme")|].
      eapply rtc_l; [by apply (t_create 0 "acme" "Acme" cfg1)|].
      eapply rtc_l; [by apply (t_create_usage "acme")|].
      by apply rtc_once, (t_delete_usage "acme"). }
    done.
Qed.

(** ** Witnesses *)

Lemma tenant_quotas_witness :
  let m := (create_tenant 0 "acme" "Acme" cfg1 TenantManager_new).2 in
  (try_reserve_key "acme" m).1 = Ok tt /\ (delete_tenant "acme" m).1 = Ok tt.
Proof.
  assert (rtc tenant_call TenantManager_new (create_tenant 0 "acme" "Acme" cfg1 TenantManager_new).2)
    as Hr by (apply rtc_once, call_create; vm_compute; discriminate).
  destruct (tenant_quotas _ "acme" Hr) as (_ & Hk & Hd & _).
  split; [apply Hk|apply Hd]; exists acme, (mkUsage 0 0); split_and!; vm_compute; reflexivity.
Defined.

(** Two reservations read the quota of one key before either counts: one succeeds. *)
Definition acme_raced : TSys :=
  mkTSys (reserve_key_update "acme" 1 (create_tenant 0 "acme" "Acme" cfg1 TenantManager_new).2).2 [] [TKeyReserved "acme"].

Lemma acme_race : rtc tenant_step TSys_new acme_raced.
Proof.
  etrans; [apply acme_created|].
  eapply rtc_l; [by apply (t_key_read "acme" 1)|]. eapply rtc_l; [by apply (t_key_read "acme" 1)|].
  eapply rtc_l; [by eapply (t_key_ok "acme" 1)|]. apply rtc_once. by eapply (t_key_refused "acme" 1).
Qed.

Lemma quota_under_concurrency_witness :
  exists t, tenants (ts_mgr acme_raced) !! "acme" = Some t /\ usage_ok t (mkUsage 1 0) /\
    count (TKeyReserved "acme") (ts_hist acme_raced) = 1 /\ 1 <= max_keys (t_config t).
Proof.
  destruct (quota_under_concurrency "acme" acme_raced (mkUsage 1 0) acme_race) as (t & Ht & Hok & Hc).
  - vm_compute. intros H. inversion H as [|? ? ? H']. inversion H'.
  - vm_compute. reflexivity.
  - exists t. split; [exact Ht|]. split; [exact Hok|]. split; [vm_compute; reflexivity|exact Hc].
Defined.
