(* ===== verification/AuthRateLimit.v ===== *)
(** * Rate limiting of authentication ([craton-hsm-auth/src/auth/rate_limit.rs])

    Failed attempts per key, lockouts, the bounded sweep of stale entries and the
    capacity policy.  An [Instant] is a number of nanoseconds and every reading of
    the clock an argument.  The map is a [gmap]; the order in which the sweep meets
    its entries is [MapIter].  [None] stands for the panic of [Instant + Duration]
    when a lockout reaches beyond what an [Instant] can represent. *)

From stdpp Require Import prelude gmap strings list.
From Stdlib Require Import ZArith Lia.
From S2P Require Import Prelude RustStd AuthRbac.
Local Open Scope string_scope.
Local Open Scope list_scope.
Local Open Scope Z_scope.

Inductive RateLimitPolicy : Type := FailOpen | FailClosed.

#[global] Instance RateLimitPolicy_eq_dec : EqDecision RateLimitPolicy.
Proof. solve_decision. Defined.

Record RateLimitConfig : Type := mkRateConfig {
  max_attempts : Z;
  window_secs : Z;
  lockout_secs : Z;
  policy : RateLimitPolicy;
}.

Definition RateLimitConfig_default : RateLimitConfig := mkRateConfig 5 300 900 FailOpen.

Record RateLimitEntry : Type := mkRateEntry {
  failed_count : Z;
  window_start : Z;
  locked_until : option Z;
}.

Definition CLEANUP_INTERVAL : Z := 128.
Definition MAX_ENTRIES : Z := 100000.
Definition SOFT_CAP_ENTRIES : Z := MAX_ENTRIES / 10 * 9.
Definition BUDGET : nat := 256.

(** [str::is_char_boundary]: the ends, and every byte that does not continue a
    character. *)
Definition is_char_boundary (bs : list Byte.byte) (i : nat) : bool :=
  match i with
  | O => true
  | _ => match bs !! i with
         | Some b => negb (is_cont b)
         | None => Nat.eqb i (length bs)
         end
  end.

Fixpoint walk_back (bs : list Byte.byte) (e : nat) : nat :=
  match e with
  | O => O
  | S e' => if is_char_boundary bs e then e else walk_back bs e'
  end.

(** [None] is the panic of slicing inside a character. *)
Definition safe_prefix (key : string) (max_bytes : nat) : option (list Byte.byte) :=
  let bs := as_bytes key in
  let limit := Nat.min (length bs) max_bytes in
  let e := walk_back bs limit in
  if is_char_boundary bs e then Some (take e bs) else None.

Record AuthRateLimiter : Type := mkLimiter {
  entries : gmap string RateLimitEntry;
  config : RateLimitConfig;
  check_count : Z;
  capacity_exhausted_count : Z;
}.

Definition AuthRateLimiter_new (config : RateLimitConfig) : AuthRateLimiter :=
  mkLimiter ∅ config 0 0.

Definition set_entries (m : gmap string RateLimitEntry) (l : AuthRateLimiter) : AuthRateLimiter :=
  mkLimiter m (config l) (check_count l) (capacity_exhausted_count l).
Definition tick_check (l : AuthRateLimiter) : AuthRateLimiter :=
  mkLimiter (entries l) (config l) (u64_succ (check_count l)) (capacity_exhausted_count l).
Definition count_exhausted (l : AuthRateLimiter) : AuthRateLimiter :=
  mkLimiter (entries l) (config l) (check_count l) (u64_succ (capacity_exhausted_count l)).

Definition entry_count (l : AuthRateLimiter) : Z := Z.of_nat (size (entries l)).

(** [now.duration_since(start)], which saturates at zero, and its whole seconds. *)
Definition duration_since (now start : Z) : Z := Z.max (now - start) 0.
Definition as_secs (d : Z) : Z := d / nanos.

(** The condition of the sweep, written twice in the code. *)
Definition stale (now max_age : Z) (v : RateLimitEntry) : bool :=
  let still_locked := match locked_until v with Some until => now <? until | None => false end in
  let in_window := duration_since now (window_start v) <? max_age in
  negb still_locked && negb in_window.

Definition remove_if {A} (p : A -> bool) (k : string) (m : gmap string A) : gmap string A :=
  match m !! k with
  | Some v => if p v then delete k m else m
  | None => m
  end.

Definition cleanup_stale_entries `{MapIter} (now : Z) (l : AuthRateLimiter) : AuthRateLimiter :=
  let max_age := saturating_add (window_secs (config l)) (lockout_secs (config l)) * nanos in
  let total := entry_count l in
  if total =? 0 then l
  else
    let start := Z.to_nat (check_count l mod total) in
    let victims :=
      fst <$> filter (fun kv => stale now max_age kv.2) (take BUDGET (drop start (iter (entries l)))) in
    set_entries (foldl (fun m k => remove_if (stale now max_age) k m) (entries l) victims) l.

(** [cleanup_now] is the reading that [cleanup_stale_entries] takes. *)
Definition check_rate_limit `{MapIter} (cleanup_now now : Z) (key : string) (l : AuthRateLimiter)
    : result unit HsmError * AuthRateLimiter :=
  let tick := check_count l in
  let l := tick_check l in
  let l :=
    if (tick mod CLEANUP_INTERVAL =? 0) || (SOFT_CAP_ENTRIES <=? entry_count l)
    then cleanup_stale_entries cleanup_now l else l in
  match entries l !! key with
  | None =>
      if bool_decide (policy (config l) = FailClosed) && (MAX_ENTRIES <=? entry_count l)
      then (Err PinLocked, count_exhausted l)
      else (Ok tt, l)
  | Some entry =>
      if match locked_until entry with Some until => now <? until | None => false end
      then (Err PinLocked, l)
      else if window_secs (config l) <=? as_secs (duration_since now (window_start entry))
      then (Ok tt, l)
      else if max_attempts (config l) <=? failed_count entry then (Err PinLocked, l)
      else (Ok tt, l)
  end.

(** What [record_failure] does to the entry of the key. *)
Definition fail_entry (c : RateLimitConfig) (now : Z) (e : RateLimitEntry) : option RateLimitEntry :=
  let e :=
    if window_secs c <=? as_secs (duration_since now (window_start e))
    then mkRateEntry 0 now None else e in
  let e := mkRateEntry (Z.min (failed_count e + 1) (2 ^ 32 - 1)) (window_start e) (locked_until e) in
  if max_attempts c <=? failed_count e then
    match instant_add_secs now (lockout_secs c) with
    | Some until => Some (mkRateEntry (failed_count e) (window_start e) (Some until))
    | None => None
    end
  else Some e.

Definition record_failure `{MapIter} (now cleanup_now : Z) (key : string) (l : AuthRateLimiter)
    : option AuthRateLimiter :=
  let known := bool_decide (is_Some (entries l !! key)) in
  let l :=
    if negb known && (SOFT_CAP_ENTRIES <=? entry_count l)
    then cleanup_stale_entries cleanup_now l else l in
  if negb known && (MAX_ENTRIES <=? entry_count l) then Some (count_exhausted l)
  else
    let e := default (mkRateEntry 0 now None) (entries l !! key) in
    match fail_entry (config l) now e with
    | Some e => Some (set_entries (<[key := e]> (entries l)) l)
    | None => None
    end.

Definition record_success (key : string) (l : AuthRateLimiter) : AuthRateLimiter :=
  set_entries (delete key (entries l)) l.
