(* ===== verification/AuthRateLimitProofs.v ===== *)
(** * Correctness of the authentication rate limiter

    A lockout refuses every attempt until it ends; the number of admitted guesses is
    bounded by the windows that fit into the elapsed time; the map is bounded.  Then
    the cases in which lockouts are weaker than documented. *)

From stdpp Require Import prelude gmap strings list relations.
From Stdlib Require Import ZArith Lia.
From S2P Require Import Prelude RustStd AuthRbac AuthRateLimit.
Local Open Scope string_scope.
Local Open Scope list_scope.
Local Open Scope Z_scope.

(** ** Logging a key never panics *)

Lemma walk_back_boundary bs e :
  is_char_boundary bs (walk_back bs e) = true /\ (walk_back bs e <= e)%nat.
Proof.
  induction e as [|e [IH1 IH2]]; [done|]. cbn [walk_back].
  destruct (is_char_boundary bs (S e)) eqn:E; [split; [exact E|lia]|split; [exact IH1|lia]].
Qed.

Lemma safe_prefix_total key n :
  exists p, safe_prefix key n = Some p /\ p `prefix_of` as_bytes key /\ (length p <= n)%nat.
Proof.
  unfold safe_prefix. destruct (walk_back_boundary (as_bytes key) (Nat.min (length (as_bytes key)) n))
    as [Hb Hle]. rewrite Hb. eexists. split; [done|]. split; [apply prefix_take|].
  rewrite length_take. lia.
Qed.

(** ** The sweep *)

Section Limiter.
Context `{MapIter}.

Definition max_age (c : RateLimitConfig) : Z :=
  saturating_add (window_secs c) (lockout_secs c) * nanos.

Lemma sweep_lookup now age ks m k :
  foldl (fun m k => remove_if (stale now age) k m) m ks !! k = m !! k \/
  foldl (fun m k => remove_if (stale now age) k m) m ks !! k = None /\
    exists e, m !! k = Some e /\ stale now age e = true.
Proof.
  revert m. induction ks as [|k0 ks IH]; intros m; simpl; [by left|].
  destruct (IH (remove_if (stale now age) k0 m)) as [->|(-> & e & He & Hs)].
  - unfold remove_if. destruct (m !! k0) as [e|] eqn:E; [|by left].
    destruct (stale now age e) eqn:Es; [|by left].
    destruct (decide (k = k0)) as [->|]; [right|left; by rewrite lookup_delete_ne].
    split; [apply lookup_delete_eq|eauto].
  - right. split; [done|]. exists e. split; [|done]. revert He. unfold remove_if.
    repeat case_match; try done. rewrite lookup_delete_Some. tauto.
Qed.

Lemma sweep_subseteq now age ks m :
  foldl (fun m k => remove_if (stale now age) k m) m ks ⊆ m.
Proof.
  apply map_subseteq_spec. intros k e Hk.
  destruct (sweep_lookup now age ks m k) as [E|(E & _)]; congruence.
Qed.

Lemma cleanup_lookup now l k :
  entries (cleanup_stale_entries now l) !! k = entries l !! k \/
  entries (cleanup_stale_entries now l) !! k = None /\
    exists e, entries l !! k = Some e /\ stale now (max_age (config l)) e = true.
Proof. unfold cleanup_stale_entries. case_if; [by left|]. apply sweep_lookup. Qed.

Lemma cleanup_config now l : config (cleanup_stale_entries now l) = config l.
Proof. unfold cleanup_stale_entries. by case_if. Qed.

Lemma cleanup_size now l : entry_count (cleanup_stale_entries now l) <= entry_count l.
Proof.
  unfold cleanup_stale_entries. case_if; [done|]. unfold entry_count at 1. simpl.
  apply inj_le, map_subseteq_size, sweep_subseteq.
Qed.

(** ** Attempts

    A client checks the limiter and, when admitted, authenticates and records the
    outcome.  The readings of the clock are those that the two calls take. *)

Record Attempt : Type := mkAttempt {
  at_key : string;
  at_cleanup : Z;
  at_check : Z;
  at_fail : Z;
  at_fail_cleanup : Z;
  at_success : bool;
}.

Definition attempt (a : Attempt) (l : AuthRateLimiter) : option (bool * AuthRateLimiter) :=
  match check_rate_limit (at_cleanup a) (at_check a) (at_key a) l with
  | (Err _, l) => Some (false, l)
  | (Ok _, l) =>
      if at_success a then Some (true, record_success (at_key a) l)
      else match record_failure (at_fail a) (at_fail_cleanup a) (at_key a) l with
           | Some l => Some (true, l)
           | None => None
           end
  end.

Fixpoint attempts (l : AuthRateLimiter) (as_ : list Attempt) : option (list bool * AuthRateLimiter) :=
  match as_ with
  | [] => Some ([], l)
  | a :: as_ =>
      match attempt a l with
      | None => None
      | Some (b, l) =>
          match attempts l as_ with
          | None => None
          | Some (bs, l) => Some (b :: bs, l)
          end
      end
  end.

(** Clock readings in the order in which they are taken, from [t] to [t']. *)
Fixpoint ordered (t : Z) (as_ : list Attempt) (t' : Z) : Prop :=
  match as_ with
  | [] => t <= t'
  | a :: as_ =>
      t <= at_cleanup a /\ at_cleanup a <= at_check a /\ at_check a <= at_fail a /\
      at_fail a <= at_fail_cleanup a /\ ordered (at_fail_cleanup a) as_ t'
  end.

(** How many attempts on [key] were admitted. *)
Fixpoint admitted (key : string) (as_ : list Attempt) (bs : list bool) : Z :=
  match as_, bs with
  | a :: as_, b :: bs =>
      (if bool_decide (at_key a = key) && b then 1 else 0) + admitted key as_ bs
  | _, _ => 0
  end.

(** *** What a call leaves behind *)

Lemma check_config c n key l : config (check_rate_limit c n key l).2 = config l.
Proof.
  unfold check_rate_limit. repeat case_match; simpl; rewrite ?cleanup_config; done.
Qed.

(** The state that the decision is taken in. *)
Definition swept (c : Z) (l : AuthRateLimiter) : AuthRateLimiter :=
  if (check_count l mod CLEANUP_INTERVAL =? 0) || (SOFT_CAP_ENTRIES <=? entry_count (tick_check l))
  then cleanup_stale_entries c (tick_check l) else tick_check l.

Lemma swept_lookup c l k :
  entries (swept c l) !! k = entries l !! k \/
  entries (swept c l) !! k = None /\
    exists e, entries l !! k = Some e /\ stale c (max_age (config l)) e = true.
Proof. unfold swept. case_if; [|by left]. apply (cleanup_lookup c (tick_check l)). Qed.

Lemma swept_config c l : config (swept c l) = config l.
Proof. unfold swept. case_if; [by rewrite cleanup_config|done]. Qed.

Lemma swept_size c l : entry_count (swept c l) <= entry_count l.
Proof. unfold swept. case_if; [apply (cleanup_size c (tick_check l))|done]. Qed.

Lemma check_swept c n key l :
  check_rate_limit c n key l =
  match entries (swept c l) !! key with
  | None =>
      if bool_decide (policy (config l) = FailClosed) && (MAX_ENTRIES <=? entry_count (swept c l))
      then (Err PinLocked, count_exhausted (swept c l))
      else (Ok tt, swept c l)
  | Some e =>
      if match locked_until e with Some until => n <? until | None => false end
      then (Err PinLocked, swept c l)
      else if window_secs (config l) <=? as_secs (duration_since n (window_start e))
      then (Ok tt, swept c l)
      else if max_attempts (config l) <=? failed_count e then (Err PinLocked, swept c l)
      else (Ok tt, swept c l)
  end.
Proof. unfold check_rate_limit. fold (swept c l). by rewrite !swept_config. Qed.

Lemma check_entries c n key l : entries (check_rate_limit c n key l).2 = entries (swept c l).
Proof. rewrite check_swept. by repeat case_match. Qed.

(** [record_failure] on another key, on the key itself, and in size. *)
Definition after_cap (fc : Z) (key : string) (l : AuthRateLimiter) : AuthRateLimiter :=
  if negb (bool_decide (is_Some (entries l !! key))) && (SOFT_CAP_ENTRIES <=? entry_count l)
  then cleanup_stale_entries fc l else l.

Lemma after_cap_lookup fc key l k :
  entries (after_cap fc key l) !! k = entries l !! k \/
  entries (after_cap fc key l) !! k = None /\
    exists e, entries l !! k = Some e /\ stale fc (max_age (config l)) e = true.
Proof. unfold after_cap. case_if; [apply cleanup_lookup|by left]. Qed.

Lemma after_cap_config fc key l : config (after_cap fc key l) = config l.
Proof. unfold after_cap. case_if; [apply cleanup_config|done]. Qed.

Lemma after_cap_size fc key l : entry_count (after_cap fc key l) <= entry_count l.
Proof. unfold after_cap. case_if; [apply cleanup_size|done]. Qed.

Lemma after_cap_key fc key l : entries (after_cap fc key l) !! key = entries l !! key.
Proof.
  unfold after_cap. case_if; [|done]. bool_to_prop.
  destruct (cleanup_lookup fc l key) as [->|(_ & e & He & _)]; [done|].
  match goal with Hn : ~ is_Some _ |- _ => destruct Hn; eauto end.
Qed.

Lemma record_failure_inv now fc key l l' :
  record_failure now fc key l = Some l' ->
  (entries l !! key = None /\ MAX_ENTRIES <= entry_count (after_cap fc key l) /\
   l' = count_exhausted (after_cap fc key l)) \/
  (exists e, fail_entry (config l) now (default (mkRateEntry 0 now None) (entries l !! key)) = Some e /\
   l' = set_entries (<[key := e]> (entries (after_cap fc key l))) (after_cap fc key l) /\
   (entries l !! key = None -> entry_count (after_cap fc key l) < MAX_ENTRIES)).
Proof.
  unfold record_failure. fold (after_cap fc key l). rewrite after_cap_config, after_cap_key.
  destruct (entries l !! key) as [e0|] eqn:E; cbn [is_Some bool_decide negb andb].
  - rewrite bool_decide_eq_true_2 by done. simpl.
    destruct (fail_entry _ _ _) as [e|]; intros [= <-]. right. by exists e.
  - rewrite bool_decide_eq_false_2 by (by intros [? ?]). simpl.
    case_if; bool_to_prop; [intros [= <-]; by left|].
    destruct (fail_entry _ _ _) as [e|]; intros [= <-]. right. by exists e.
Qed.

(** *** Lockout *)

(** A locked entry is not stale before the lockout ends. *)
Lemma locked_not_stale now age e until :
  locked_until e = Some until -> now < until -> stale now age e = false.
Proof. intros Hu Hn. unfold stale. rewrite Hu, (proj2 (Z.ltb_lt _ _) Hn). done. Qed.

Lemma keep_unless_stale (o o' : option RateLimitEntry) now age e :
  o' = o \/ o' = None /\ (exists e, o = Some e /\ stale now age e = true) ->
  o = Some e -> stale now age e = false -> o' = Some e.
Proof. intros [->|(_ & e' & He' & Hs)] He Hn; [done|]. simplify_eq. congruence. Qed.

Definition readings_below (until : Z) (a : Attempt) : Prop :=
  at_cleanup a < until /\ at_check a < until /\ at_fail_cleanup a < until.

Lemma attempt_locked key e until a l b l' :
  entries l !! key = Some e -> locked_until e = Some until -> readings_below until a ->
  attempt a l = Some (b, l') ->
  entries l' !! key = Some e /\ (at_key a = key -> b = false).
Proof.
  intros He Hu (Hc & Hn & Hf). unfold attempt.
  assert (entries (swept (at_cleanup a) l) !! key = Some e) as Hs.
  { eapply keep_unless_stale; [apply swept_lookup|done|by eapply locked_not_stale]. }
  pose proof (check_entries (at_cleanup a) (at_check a) (at_key a) l) as Hent.
  destruct (decide (at_key a = key)) as [Hk|Hk].
  - rewrite Hk, check_swept, Hs, Hu, (proj2 (Z.ltb_lt _ _) Hn). by intros [= <- <-].
  - destruct (check_rate_limit _ _ _ l) as [[] l1]; simpl in Hent; rewrite <- Hent in Hs;
      [|by intros [= <- <-]].
    destruct (at_success a).
    + intros [= <- <-]. simpl. by rewrite lookup_delete_ne.
    + destruct (record_failure _ _ _ l1) as [l2|] eqn:Ef; [|done]. intros [= <- <-].
      assert (entries (after_cap (at_fail_cleanup a) (at_key a) l1) !! key = Some e) as Ha.
      { eapply keep_unless_stale; [apply after_cap_lookup|done|by eapply locked_not_stale]. }
      apply record_failure_inv in Ef as [(_ & _ & ->)|(e1 & _ & -> & _)]; [done|].
      simpl. by rewrite lookup_insert_ne.
Qed.

Lemma attempts_locked key e until as_ l bs l' :
  entries l !! key = Some e -> locked_until e = Some until -> Forall (readings_below until) as_ ->
  attempts l as_ = Some (bs, l') ->
  admitted key as_ bs = 0 /\ entries l' !! key = Some e.
Proof.
  intros He Hu Hf. revert l bs l' He. induction Hf as [|a as_ Ha _ IH]; intros l bs l' He; simpl.
  - by intros [= <- <-].
  - destruct (attempt a l) as [[b l1]|] eqn:E; [|done].
    destruct (attempt_locked key e until a l b l1 He Hu Ha E) as [He1 Hb].
    destruct (attempts l1 as_) as [[bs' l2]|] eqn:E2; [|done]. intros [= <- <-].
    destruct (IH _ _ _ He1 E2) as [Hz He2]. split; [|done]. simpl. rewrite Hz.
    case_bool_decide; [by rewrite Hb|done].
Qed.

Lemma fail_entry_locks c now e e' :
  fail_entry c now e = Some e' -> max_attempts c <= failed_count e' ->
  locked_until e' = Some (now + lockout_secs c * nanos).
Proof.
  unfold fail_entry. intros Hf Hm.
  destruct (max_attempts c <=? _) eqn:E in Hf; bool_to_prop.
  - destruct (instant_add_secs _ _) as [u|] eqn:Ei; [|done]. injection Hf as <-. simpl.
    by rewrite (instant_add_secs_Some _ _ _ Ei).
  - injection Hf as <-. simpl in *. lia.
Qed.

(** A lockout holds for its whole duration: once a failure brings a key to the
    limit, no attempt on that key is admitted before [lockout_secs] have passed,
    whatever attempts on this and other keys, successes, failures and sweeps come
    in between, and the entry of the key stays as it is. *)
Theorem lockout_enforced now fc key l l1 e as_ bs l2 :
  record_failure now fc key l = Some l1 -> entries l1 !! key = Some e ->
  max_attempts (config l) <= failed_count e ->
  Forall (readings_below (now + lockout_secs (config l) * nanos)) as_ ->
  attempts l1 as_ = Some (bs, l2) ->
  admitted key as_ bs = 0 /\ entries l2 !! key = Some e.
Proof.
  intros Hr He Hm Hf Ha. eapply attempts_locked; [done| |done|done].
  apply record_failure_inv in Hr as [(Hn & _ & ->)|(e1 & Hfe & -> & _)].
  - simpl in He. by rewrite after_cap_key, Hn in He.
  - simpl in He. rewrite lookup_insert_eq in He. injection He as <-. by eapply fail_entry_locks.
Qed.

(** *** The number of guesses *)

Section Guesses.
Variable c : RateLimitConfig.
Hypothesis c_attempts : 1 <= max_attempts c < 2 ^ 32.
Hypothesis c_window : 0 < window_secs c < 2 ^ 64.
Hypothesis c_lockout : 0 <= lockout_secs c.

Definition window : Z := window_secs c * nanos.

(** At time [t], after [n] admitted guesses since [t0]: [w] full windows have passed
    before the current one. *)
Definition guesses_in (t0 t n w : Z) (o : option RateLimitEntry) : Prop :=
  0 <= w /\
  match o with
  | None => n <= max_attempts c * w /\ t0 + w * window <= t
  | Some e => n <= max_attempts c * w + failed_count e /\ 0 <= failed_count e <= max_attempts c /\
      t0 + w * window <= window_start e <= t
  end.

Definition guesses (t0 t n : Z) (o : option RateLimitEntry) : Prop :=
  exists w, guesses_in t0 t n w o.

Lemma window_pos : 0 < window.
Proof. unfold window, nanos. lia. Qed.

Lemma guesses_later t0 t t' n o : t <= t' -> guesses t0 t n o -> guesses t0 t' n o.
Proof. intros Ht (w & Hw & Ho). exists w. split; [done|]. destruct o; intuition lia. Qed.

Lemma expired_iff now e :
  (window_secs c <=? as_secs (duration_since now (window_start e))) = true <->
  window <= now - window_start e.
Proof.
  unfold as_secs, duration_since, window, nanos. rewrite Z.leb_le. split; intros Hx.
  - pose proof (Z.mul_div_le (Z.max (now - window_start e) 0) (10 ^ 9) ltac:(lia)). nia.
  - apply Z.div_le_lower_bound; lia.
Qed.

Lemma stale_expired now e : stale now (max_age c) e = true -> window <= now - window_start e.
Proof.
  unfold stale, max_age, saturating_add, duration_since. intros Hs. bool_to_prop.
  assert (window <= Z.min (window_secs c + lockout_secs c) u64_max * nanos).
  { unfold window, nanos, u64_max in *. nia. }
  pose proof window_pos. lia.
Qed.

Lemma guesses_swept t0 t now n (o o' : option RateLimitEntry) :
  t <= now ->
  o' = o \/ o' = None /\ (exists e, o = Some e /\ stale now (max_age c) e = true) ->
  guesses t0 t n o -> guesses t0 now n o'.
Proof.
  intros Ht [->|(-> & e & -> & Hs)] Hg; [by eapply guesses_later|].
  destruct Hg as (w & Hw & Hn & Hf & Hst). apply stale_expired in Hs.
  exists (w + 1). split; [lia|]. split; lia.
Qed.

(** An entry that the check admits, when a failure is recorded on it. *)
Lemma guesses_failed t0 t n o now e' :
  t <= now ->
  guesses t0 t n o ->
  (forall e, o = Some e -> window <= now - window_start e \/ failed_count e < max_attempts c) ->
  fail_entry c now (default (mkRateEntry 0 now None) o) = Some e' ->
  guesses t0 now (n + 1) (Some e').
Proof.
  intros Ht (w & Hw & Ho) Hadm Hf.
  assert (exists f ws, failed_count e' = f + 1 /\ window_start e' = ws /\
    ((f = 0 /\ ws = now /\ n <= max_attempts c * (w + 1) /\ t0 + (w + 1) * window <= now) \/
     (0 <= f < max_attempts c /\ n <= max_attempts c * w + f /\ t0 + w * window <= ws <= now)))
    as (f & ws & Hfc & Hws & Hcase).
  { unfold fail_entry in Hf. pose proof window_pos.
    set (e0 := default (mkRateEntry 0 now None) o) in *.
    destruct (window_secs c <=? as_secs (duration_since now (window_start e0))) eqn:Ex in Hf.
    - apply expired_iff in Ex. exists 0, now.
      assert (failed_count e' = 1 /\ window_start e' = now) as [-> ->].
      { revert Hf. cbn [failed_count window_start locked_until]. repeat case_match; intros [= <-]; done. }
      split_and!; [done..|]. left. destruct o as [e|]; simpl in e0; subst e0; simpl in Ex; [|lia].
      split_and!; [done..|lia|lia].
    - assert (window <= now - window_start e0 -> False) as Hnex.
      { intros Hx%expired_iff. congruence. }
      exists (failed_count e0), (window_start e0).
      assert (0 <= failed_count e0 < max_attempts c) as Hlt.
      { destruct o as [e|]; subst e0; simpl in *; [|lia]. destruct (Hadm e eq_refl); [tauto|lia]. }
      assert (failed_count e' = failed_count e0 + 1 /\ window_start e' = window_start e0) as [-> ->].
      { revert Hf. cbn [failed_count window_start locked_until]. rewrite Z.min_l by lia.
        repeat case_match; intros [= <-]; done. }
      split_and!; [done..|]. right. destruct o as [e|]; subst e0; simpl in *; lia. }
  destruct Hcase as [(-> & -> & ? & ?)|(? & ? & ?)].
  - exists (w + 1). split; [lia|]. rewrite Hfc, Hws. lia.
  - exists w. split; [lia|]. rewrite Hfc, Hws. lia.
Qed.

Section Closed.
Hypothesis c_closed : policy c = FailClosed.

(** What an admission says about the entry. *)
Lemma check_admits cl now key l l1 :
  config l = c -> check_rate_limit cl now key l = (Ok tt, l1) ->
  l1 = swept cl l /\
  (entries l1 !! key = None -> entry_count l1 < MAX_ENTRIES) /\
  (forall e, entries l1 !! key = Some e -> window <= now - window_start e \/ failed_count e < max_attempts c).
Proof.
  intros Hc. rewrite check_swept, Hc, c_closed.
  destruct (entries (swept cl l) !! key) as [e|] eqn:E.
  - destruct (match locked_until e with Some u => now <? u | None => false end); [done|].
    destruct (window_secs c <=? _) eqn:Ex.
    + intros [= <-]. rewrite E. split_and!; [done..|]. intros ? [= <-]. left. by apply expired_iff.
    + destruct (max_attempts c <=? failed_count e) eqn:Em; [done|]. bool_to_prop.
      intros [= <-]. rewrite E. split_and!; [done..|]. intros ? [= <-]. by right.
  - rewrite bool_decide_eq_true_2 by done. cbn [andb].
    destruct (MAX_ENTRIES <=? _) eqn:Em; [done|]. bool_to_prop.
    intros [= <-]. rewrite E. split_and!; [done..|]. by intros ? [=].
Qed.

Lemma attempt_config a l b l' : attempt a l = Some (b, l') -> config l' = config l.
Proof.
  unfold attempt. pose proof (check_config (at_cleanup a) (at_check a) (at_key a) l) as Hc.
  destruct (check_rate_limit _ _ _ l) as [[] l1]; simpl in Hc; [|by intros [= <- <-]].
  destruct (at_success a); [by intros [= <- <-]|].
  destruct (record_failure _ _ _ l1) as [l2|] eqn:Ef; [|done]. intros [= <- <-].
  apply record_failure_inv in Ef as [(_ & _ & ->)|(e1 & _ & -> & _)]; simpl;
    by rewrite after_cap_config.
Qed.

Lemma attempt_guesses t0 t n key a l b l' :
  config l = c -> guesses t0 t n (entries l !! key) ->
  ordered t [a] (at_fail_cleanup a) -> (at_key a = key -> at_success a = false) ->
  attempt a l = Some (b, l') ->
  guesses t0 (at_fail_cleanup a)
    (n + if bool_decide (at_key a = key) && b then 1 else 0) (entries l' !! key).
Proof.
  intros Hc Hg (H1 & H2 & H3 & H4 & _) Hs. unfold attempt.
  assert (guesses t0 (at_check a) n (entries (swept (at_cleanup a) l) !! key)) as Hg1.
  { eapply guesses_later, guesses_swept; [exact H2|exact H1| |exact Hg].
    rewrite <- Hc. apply swept_lookup. }
  pose proof (check_entries (at_cleanup a) (at_check a) (at_key a) l) as Hent.
  destruct (check_rate_limit _ _ _ l) as [[[]|e] l1] eqn:Hck; simpl in Hent.
  2:{ intros [= <- <-]. rewrite andb_false_r, Z.add_0_r, Hent. eapply guesses_later; [|exact Hg1]. lia. }
  rewrite <- Hent in Hg1.
  pose proof (check_config (at_cleanup a) (at_check a) (at_key a) l) as Hc1.
  rewrite Hck, Hc in Hc1. simpl in Hc1.
  destruct (check_admits _ _ _ _ _ Hc Hck) as (_ & Hcap & Hadm).
  destruct (decide (at_key a = key)) as [Hk|Hk].
  - rewrite (Hs Hk), bool_decide_eq_true_2 by done. rewrite Hk in *.
    destruct (record_failure _ _ _ l1) as [l2|] eqn:Ef; [|done]. intros [= <- <-].
    apply record_failure_inv in Ef as [(Hn & Hfull & _)|(e1 & Hfe & -> & _)].
    { pose proof (after_cap_size (at_fail_cleanup a) key l1). specialize (Hcap Hn). lia. }
    simpl. rewrite lookup_insert_eq, Hc1 in *. eapply guesses_later, (guesses_failed t0); [exact H4|exact H3|exact Hg1| |exact Hfe].
    intros e He. destruct (Hadm e He); [left; lia|by right].
  - rewrite bool_decide_eq_false_2 by done. simpl. rewrite Z.add_0_r.
    destruct (at_success a).
    { intros [= <- <-]. simpl. rewrite lookup_delete_ne by done. eapply guesses_later; [|exact Hg1]. lia. }
    destruct (record_failure _ _ _ l1) as [l2|] eqn:Ef; [|done]. intros [= <- <-].
    assert (guesses t0 (at_fail_cleanup a) n (entries (after_cap (at_fail_cleanup a) (at_key a) l1) !! key)) as Hg2.
    { eapply guesses_swept; [|rewrite <- Hc1; apply after_cap_lookup|exact Hg1]. lia. }
    apply record_failure_inv in Ef as [(_ & _ & ->)|(e1 & _ & -> & _)]; [done|].
    simpl. by rewrite lookup_insert_ne.
Qed.

Lemma attempts_guesses t0 t t' n key as_ l bs l' :
  config l = c -> guesses t0 t n (entries l !! key) -> ordered t as_ t' ->
  Forall (fun a => at_key a = key -> at_success a = false) as_ ->
  attempts l as_ = Some (bs, l') ->
  guesses t0 t' (n + admitted key as_ bs) (entries l' !! key).
Proof.
  intros Hc Hg Ho Hs. revert t n l bs l' Hc Hg Ho.
  induction Hs as [|a as_ Ha _ IH]; intros t n l bs l' Hc Hg Ho; simpl.
  - intros [= <- <-]. simpl. rewrite Z.add_0_r. by eapply guesses_later.
  - destruct (attempt a l) as [[b l1]|] eqn:E; [|done].
    destruct (attempts l1 as_) as [[bs' l2]|] eqn:E2; [|done]. intros [= <- <-].
    simpl. rewrite Z.add_assoc. destruct Ho as (? & ? & ? & ? & Ho).
    eapply IH; [rewrite (attempt_config _ _ _ _ E); exact Hc| |exact Ho|exact E2].
    eapply attempt_guesses; [done|exact Hg| |done|done]. simpl. lia.
Qed.

(** For a limiter that fails closed, in any sequence of attempts one after another on this and
    any number of other keys, the wrong guesses on one key that are admitted between the
    times [t0] and [t] number at most the limit times one plus the number of windows that fit
    into that time. *)
Theorem sequential_guesses_bounded t0 t key as_ bs l :
  ordered t0 as_ t ->
  Forall (fun a => at_key a = key -> at_success a = false) as_ ->
  attempts (AuthRateLimiter_new c) as_ = Some (bs, l) ->
  admitted key as_ bs <= max_attempts c * (1 + (t - t0) / (window_secs c * nanos)).
Proof.
  intros Ho Hs Ha. fold window.
  assert (guesses t0 t (0 + admitted key as_ bs) (entries l !! key)) as (w & Hw & Hg).
  { eapply attempts_guesses; [|  |exact Ho|exact Hs|exact Ha]; [done|]. exists 0. simpl. rewrite lookup_empty. unfold guesses_in. simpl. lia. }
  pose proof window_pos as Hpos. simpl in Hg.
  assert (admitted key as_ bs <= max_attempts c * (1 + w) /\ t0 + w * window <= t) as [Hn Ht]
    by (destruct (entries l !! key); lia).
  assert (w <= (t - t0) / window) by (apply Z.div_le_lower_bound; lia).
  etrans; [exact Hn|]. apply Z.mul_le_mono_nonneg_l; lia.
Qed.

End Closed.

(** *** Guesses in flight *)

(** [check_rate_limit], [record_failure] and [record_success] are separate calls: threads
    interleave them. *)
Inductive RateCall : Type :=
| CallCheck (cleanup_now now : Z) (key : string)
| CallFail (now cleanup_now : Z) (key : string)
| CallSuccess (key : string).

Definition call_key (call : RateCall) : string :=
  match call with CallCheck _ _ key | CallFail _ _ key | CallSuccess key => key end.

(** Whether the call was a check that admitted. *)
Definition rate_call (call : RateCall) (l : AuthRateLimiter) : option (bool * AuthRateLimiter) :=
  match call with
  | CallCheck cl now key => let '(r, l) := check_rate_limit cl now key l in Some (is_ok r, l)
  | CallFail now cl key => l ← record_failure now cl key l; Some (false, l)
  | CallSuccess key => Some (false, record_success key l)
  end.

Fixpoint rate_calls (l : AuthRateLimiter) (calls : list RateCall) : option (list bool * AuthRateLimiter) :=
  match calls with
  | [] => Some ([], l)
  | call :: calls => '(b, l) ← rate_call call l; '(bs, l) ← rate_calls l calls; Some (b :: bs, l)
  end.

(** The readings of the clock do not decrease, from [t] to [t']. *)
Fixpoint readings (t : Z) (calls : list RateCall) (t' : Z) : Prop :=
  match calls with
  | [] => t <= t'
  | CallCheck cl now _ :: calls => t <= cl /\ cl <= now /\ readings now calls t'
  | CallFail now cl _ :: calls => t <= now /\ now <= cl /\ readings cl calls t'
  | CallSuccess _ :: calls => readings t calls t'
  end.

Fixpoint checks_admitted (key : string) (calls : list RateCall) (bs : list bool) : Z :=
  match calls, bs with
  | call :: calls, b :: bs => (if bool_decide (call_key call = key) && b then 1 else 0) + checks_admitted key calls bs
  | _, _ => 0
  end.

(** Every failure on the key answers an admitted check, at most [k] of which are open at a
    time, [p] of them now; none of the guesses is right. *)
Fixpoint in_flight (key : string) (k p : Z) (calls : list RateCall) (bs : list bool) : Prop :=
  match calls, bs with
  | call :: calls, b :: bs =>
      if bool_decide (call_key call = key) then
        match call with
        | CallCheck _ _ _ => let p := if b : bool then p + 1 else p in p <= k /\ in_flight key k p calls bs
        | CallFail _ _ _ => 1 <= p /\ in_flight key k (p - 1) calls bs
        | CallSuccess _ => False
        end
      else in_flight key k p calls bs
  | _, _ => True
  end.

Section Flight.
Variable k : Z.
Hypothesis k_pos : 1 <= k.
Hypothesis k_max : max_attempts c + k <= 2 ^ 32.

(** The admissions that one window can see. *)
Definition per_window : Z := max_attempts c + k - 1.

(** At time [t], after [n] admissions since [t0], [p] of them open: [w] full windows have
    passed before the current one, or before now if the current one is over. *)
Definition flying (t0 t n p : Z) (o : option RateLimitEntry) : Prop :=
  0 <= p <= k /\ exists w, 0 <= w /\
  match o with
  | None => n <= per_window * w + p /\ t0 + w * window <= t
  | Some e => window_start e <= t /\ 0 <= failed_count e /\
      (n <= per_window * w + failed_count e + p /\ failed_count e + p <= per_window /\ t0 + w * window <= window_start e \/
       n <= per_window * w + p /\ t0 + w * window <= t /\ window <= t - window_start e)
  end.

Lemma flying_later t0 t t' n p o : t <= t' -> flying t0 t n p o -> flying t0 t' n p o.
Proof. intros Ht (Hp & w & Hw & Ho). split; [done|]. exists w. split; [done|]. destruct o; intuition lia. Qed.

(** Once its window is over an entry counts for a full one. *)
Lemma flying_expired t0 t n p e :
  window <= t - window_start e -> flying t0 t n p (Some e) ->
  0 <= p <= k /\ exists w, 0 <= w /\ n <= per_window * w + p /\ t0 + w * window <= t.
Proof.
  intros Hx (Hp & w & Hw & Hs & Hf & [(Hn & Hm & Ht)|(Hn & Ht & _)]); (split; [done|]).
  - exists (w + 1). unfold per_window in *. split; [lia|]. split; nia.
  - by exists w.
Qed.

Lemma flying_swept t0 t now n p (o o' : option RateLimitEntry) :
  t <= now -> o' = o \/ o' = None /\ (exists e, o = Some e /\ stale now (max_age c) e = true) ->
  flying t0 t n p o -> flying t0 now n p o'.
Proof.
  intros Ht [->|(-> & e & -> & Hs)] Hg; [by eapply flying_later|]. apply stale_expired in Hs.
  apply (flying_later _ _ now) in Hg; [|done]. by apply flying_expired in Hg.
Qed.

Lemma flying_admitted t0 t n p o :
  flying t0 t n p o -> p + 1 <= k ->
  (forall e, o = Some e -> window <= t - window_start e \/ failed_count e < max_attempts c) ->
  flying t0 t (n + 1) (p + 1) o.
Proof.
  intros Hf Hk Hadm. destruct o as [e|].
  - destruct (decide (window <= t - window_start e)) as [Hx|Hx].
    + pose proof Hf as (_ & _ & _ & Hst & Hfc & _). destruct (flying_expired _ _ _ _ _ Hx Hf) as (Hp & w & Hw & Hn & Ht).
      split; [lia|]. exists w. split; [done|]. split; [done|]. split; [done|]. right. lia.
    + destruct (Hadm e eq_refl) as [|Hlt]; [done|]. destruct Hf as (Hp & w & Hw & Hst & Hfc & [(Hn & Hm & Ht)|(_ & _ & Hw')]); [|done].
      split; [lia|]. exists w. split; [done|]. split; [done|]. split; [done|]. left. unfold per_window in *. lia.
  - destruct Hf as (Hp & w & Hw & Hn & Ht). split; [lia|]. exists w. lia.
Qed.

Lemma flying_failed t0 t n p o now e' :
  t <= now -> flying t0 t n p o -> 1 <= p ->
  fail_entry c now (default (mkRateEntry 0 now None) o) = Some e' -> flying t0 now n (p - 1) (Some e').
Proof.
  intros Ht Hf Hp He. apply (flying_later _ _ now) in Hf; [|done].
  set (e0 := default (mkRateEntry 0 now None) o) in *.
  assert (exists f ws, failed_count e' = Z.min (f + 1) (2 ^ 32 - 1) /\ window_start e' = ws /\
    (f = 0 /\ ws = now /\ (o = None \/ window <= now - window_start e0) \/
     f = failed_count e0 /\ ws = window_start e0 /\ o = Some e0 /\ now - window_start e0 < window)) as (f & ws & Hfc & Hws & Hc).
  { pose proof window_pos. unfold fail_entry in He. destruct (window_secs c <=? as_secs (duration_since now (window_start e0))) eqn:Ex in He.
    - apply expired_iff in Ex. exists 0, now.
      assert (failed_count e' = Z.min 1 (2 ^ 32 - 1) /\ window_start e' = now) as [-> ->].
      { revert He. cbn [failed_count window_start locked_until]. repeat case_match; intros [= <-]; done. }
      split; [done|]. split; [done|]. left. auto.
    - assert (~ window <= now - window_start e0) by (intros Hx%expired_iff; congruence).
      exists (failed_count e0), (window_start e0).
      assert (failed_count e' = Z.min (failed_count e0 + 1) (2 ^ 32 - 1) /\ window_start e' = window_start e0) as [-> ->].
      { revert He. cbn [failed_count window_start locked_until]. repeat case_match; intros [= <-]; done. }
      split; [done|]. split; [done|]. destruct o as [e|]; [right; split_and!; [done..|subst e0; simpl in *; lia]|left; subst e0; auto]. }
  destruct Hc as [(-> & -> & Hc)|(-> & -> & Ho & Hc)].
  - assert (0 <= p <= k /\ exists w, 0 <= w /\ n <= per_window * w + p /\ t0 + w * window <= now) as (Hpk & w & Hw & Hn & Hl).
    { destruct o as [e|]; [|by destruct Hf]. destruct Hc as [|Hc]; [done|]. by apply flying_expired in Hf. }
    split; [lia|]. exists w. split; [done|]. rewrite Hfc, Hws. split; [lia|]. split; [lia|]. left. unfold per_window in *. lia.
  - rewrite Ho in Hf. destruct Hf as (Hpk & w & Hw & Hs & Hf & [(Hn & Hm & Hl)|(_ & _ & Hx)]); [|lia].
    split; [lia|]. exists w. split; [done|]. rewrite Hfc, Hws. unfold per_window in *. rewrite Z.min_l by lia. split; [lia|]. split; [lia|]. left. lia.
Qed.

(** What an admission says about the entry, under either policy. *)
Lemma check_admits_entry cl now key l l1 :
  config l = c -> check_rate_limit cl now key l = (Ok tt, l1) ->
  forall e, entries l1 !! key = Some e -> window <= now - window_start e \/ failed_count e < max_attempts c.
Proof.
  intros Hc. rewrite check_swept, Hc. intros Hck e He.
  assert (l1 = swept cl l) as -> by (revert Hck; repeat case_match; by intros [= <-]). rewrite He in Hck.
  destruct (match locked_until e with Some u => now <? u | None => false end); [done|].
  destruct (window_secs c <=? _) eqn:Ex; [left; by apply expired_iff|].
  destruct (max_attempts c <=? failed_count e) eqn:Em; [done|]. bool_to_prop. by right.
Qed.

(** All entries are of the keys [K], which are fewer than the map holds. *)
Variable K : gset string.
Hypothesis K_size : Z.of_nat (size K) < MAX_ENTRIES.

Lemma sweep_dom now l : dom (entries l) ⊆ K -> dom (entries (swept now l)) ⊆ K.
Proof.
  intros Hd x. rewrite !elem_of_dom. intros Hx. apply Hd, elem_of_dom.
  destruct (swept_lookup now l x) as [E|(E & _)]; rewrite E in Hx; [done|by destruct Hx].
Qed.

Lemma after_cap_dom fc key l : dom (entries l) ⊆ K -> dom (entries (after_cap fc key l)) ⊆ K.
Proof.
  intros Hd x. rewrite !elem_of_dom. intros Hx. apply Hd, elem_of_dom.
  destruct (after_cap_lookup fc key l x) as [E|(E & _)]; rewrite E in Hx; [done|by destruct Hx].
Qed.

Lemma dom_below l : dom (entries l) ⊆ K -> entry_count l < MAX_ENTRIES.
Proof. intros Hd%subseteq_size. rewrite size_dom in Hd. unfold entry_count. lia. Qed.

Lemma call_effect t0 t n p key call l b l' bs calls t' :
  config l = c -> dom (entries l) ⊆ K -> flying t0 t n p (entries l !! key) -> call_key call ∈ K ->
  readings t (call :: calls) t' -> in_flight key k p (call :: calls) (b :: bs) -> rate_call call l = Some (b, l') ->
  config l' = c /\ dom (entries l') ⊆ K /\ exists t1 p1, t <= t1 /\ readings t1 calls t' /\ in_flight key k p1 calls bs /\
    flying t0 t1 (n + if bool_decide (call_key call = key) && b then 1 else 0) p1 (entries l' !! key).
Proof.
  intros Hc Hd Hf HK Ho Hi Hr. destruct call as [cl now key'|now cl key'|key']; cbn [call_key rate_call readings in_flight] in *.
  - destruct Ho as (H1 & H2 & Ho). pose proof (check_entries cl now key' l) as Hent. pose proof (check_config cl now key' l) as Hc1.
    assert (flying t0 now n p (entries (swept cl l) !! key)) as Hg.
    { eapply flying_later, flying_swept; [exact H2|exact H1| |exact Hf]. rewrite <- Hc. apply swept_lookup. }
    destruct (check_rate_limit cl now key' l) as [res l1] eqn:Hck. cbn in Hent, Hc1. injection Hr as <- <-.
    split; [congruence|]. split; [rewrite Hent; by apply sweep_dom|]. rewrite <- Hent in Hg.
    destruct (decide (key' = key)) as [->|Hne]; [rewrite bool_decide_true in * by done|rewrite bool_decide_false in * by done].
    + destruct res as [[]|e]; cbn [is_ok andb] in *; destruct Hi as [Hp Hi].
      * exists now, (p + 1). split; [lia|]. split; [done|]. split; [done|]. apply flying_admitted; [done|done|]. by eapply check_admits_entry.
      * exists now, p. rewrite Z.add_0_r. by split; [lia|].
    + exists now, p. cbn. rewrite Z.add_0_r. by split; [lia|].
  - destruct Ho as (H1 & H2 & Ho). destruct (record_failure now cl key' l) as [l1|] eqn:Er; [|done]. cbn in Hr. injection Hr as <- <-.
    rewrite andb_false_r, Z.add_0_r.
    assert (flying t0 cl n p (entries (after_cap cl key' l) !! key)) as Hg.
    { eapply flying_swept; [|rewrite <- Hc; apply after_cap_lookup|exact Hf]. lia. }
    apply record_failure_inv in Er as [(_ & Hfull & _)|(e1 & Hfe & -> & _)].
    { pose proof (dom_below _ (after_cap_dom cl key' l Hd)). lia. }
    split; [cbn; by rewrite after_cap_config|]. split; [cbn; rewrite dom_insert; pose proof (after_cap_dom cl key' l Hd); set_solver|].
    destruct (decide (key' = key)) as [->|Hne]; [rewrite bool_decide_true in * by done|rewrite bool_decide_false in * by done].
    + destruct Hi as [Hp Hi]. exists cl, (p - 1). split; [lia|]. split; [done|]. split; [done|]. cbn. rewrite lookup_insert_eq.
      eapply flying_later; [exact H2|]. rewrite Hc in Hfe. by eapply flying_failed.
    + exists cl, p. split; [lia|]. split; [done|]. split; [done|]. cbn. by rewrite lookup_insert_ne.
  - injection Hr as <- <-. rewrite andb_false_r, Z.add_0_r. case_bool_decide as Hk; [done|].
    split; [done|]. split; [cbn; rewrite dom_delete; set_solver|]. exists t, p. split; [lia|]. split; [done|]. split; [done|].
    cbn. by rewrite lookup_delete_ne.
Qed.

Lemma calls_effect t0 key calls : forall t t' n p l bs l',
  config l = c -> dom (entries l) ⊆ K -> flying t0 t n p (entries l !! key) -> Forall (fun call => call_key call ∈ K) calls ->
  readings t calls t' -> in_flight key k p calls bs -> rate_calls l calls = Some (bs, l') ->
  exists p', flying t0 t' (n + checks_admitted key calls bs) p' (entries l' !! key).
Proof.
  induction calls as [|call calls IH]; intros t t' n p l bs l' Hc Hd Hf HK Ho Hi Hr.
  - injection Hr as <- <-. exists p. cbn. rewrite Z.add_0_r. by eapply flying_later.
  - cbn [rate_calls] in Hr. destruct (rate_call call l) as [[b l1]|] eqn:E1; [|done]. cbn in Hr.
    destruct (rate_calls l1 calls) as [[bs' l2]|] eqn:E2; [|done]. cbn in Hr. injection Hr as <- <-. apply Forall_cons in HK as [HK HKs].
    destruct (call_effect _ _ _ _ _ _ _ _ _ _ _ _ Hc Hd Hf HK Ho Hi E1) as (Hc1 & Hd1 & t1 & p1 & Ht & Ho1 & Hi1 & Hf1).
    cbn [checks_admitted]. rewrite Z.add_assoc. by eapply IH.
Qed.

End Flight.

(** C38: guessing is slow, also with many threads. Take any interleaving of the calls of the
    limiter on fewer than 100 000 distinct keys, under either policy, in which the wrong
    guesses on one key are checked first, at most [k] of them are open at a time, and none
    is right. The guesses on this key that are admitted between the times [t0] and [t] are
    at most the limit plus [k] minus one, times one plus the number of windows that fit into
    that time. *)
Theorem guesses_bounded k t0 t key calls bs l :
  1 <= k -> max_attempts c + k <= 2 ^ 32 ->
  Z.of_nat (size (list_to_set (call_key <$> calls) : gset string)) < MAX_ENTRIES ->
  readings t0 calls t -> in_flight key k 0 calls bs ->
  rate_calls (AuthRateLimiter_new c) calls = Some (bs, l) ->
  checks_admitted key calls bs <= (max_attempts c + k - 1) * (1 + (t - t0) / (window_secs c * nanos)).
Proof.
  intros Hk Hm HK Ho Hi Hr. fold window. fold (per_window k).
  destruct (calls_effect k Hk Hm _ HK t0 key calls t0 t 0 0 (AuthRateLimiter_new c) bs l) as (p & Hp & w & Hw & Hf); try done.
  - cbn. rewrite lookup_empty. split; [lia|]. exists 0. lia.
  - apply Forall_forall. intros call Hin. apply elem_of_list_to_set, list_elem_of_fmap. eauto.
  - rewrite Z.add_0_l in Hf. pose proof window_pos as Hpos.
    assert (checks_admitted key calls bs <= per_window k * (1 + w) /\ t0 + w * window <= t) as [Hn Ht].
    { unfold per_window in *. destruct (entries l !! key); intuition nia. }
    assert (w <= (t - t0) / window) by (apply Z.div_le_lower_bound; lia).
    etrans; [exact Hn|]. apply Z.mul_le_mono_nonneg_l; unfold per_window; lia.
Qed.

End Guesses.

(** *** Memory *)

Lemma insert_count key e l :
  entry_count (set_entries (<[key := e]> (entries l)) l) <=
  entry_count l + (if decide (is_Some (entries l !! key)) then 0 else 1).
Proof.
  unfold entry_count. simpl. rewrite map_size_insert. case_decide as Hd.
  - destruct Hd as [? E]. rewrite E. simpl. lia.
  - apply eq_None_not_Some in Hd as E. rewrite E. simpl. lia.
Qed.

Lemma attempt_count a l b l' :
  entry_count l <= MAX_ENTRIES -> attempt a l = Some (b, l') -> entry_count l' <= MAX_ENTRIES.
Proof.
  intros Hl. unfold attempt. pose proof (check_entries (at_cleanup a) (at_check a) (at_key a) l) as Hent.
  pose proof (swept_size (at_cleanup a) l) as Hsz.
  destruct (check_rate_limit _ _ _ l) as [r l1]; simpl in Hent.
  assert (entry_count l1 <= MAX_ENTRIES) as Hl1 by (unfold entry_count in *; rewrite Hent; lia).
  destruct r; [|by intros [= <- <-]]. destruct (at_success a).
  - intros [= <- <-]. unfold entry_count in *. simpl.
    pose proof (map_subseteq_size _ _ (delete_subseteq (entries l1) (at_key a))). lia.
  - destruct (record_failure _ _ _ l1) as [l2|] eqn:Ef; [|done]. intros [= <- <-].
    pose proof (after_cap_size (at_fail_cleanup a) (at_key a) l1) as Hac.
    apply record_failure_inv in Ef as [(_ & _ & ->)|(e1 & _ & -> & Hlt)]; [unfold entry_count in *; simpl; lia|].
    etrans; [apply insert_count|]. rewrite after_cap_key. case_decide as Hd; [lia|].
    apply eq_None_not_Some in Hd. specialize (Hlt Hd). lia.
Qed.

(** The limiter never tracks more than [MAX_ENTRIES] keys, whatever keys are
    tried. *)
Theorem rate_map_bounded c as_ bs l :
  attempts (AuthRateLimiter_new c) as_ = Some (bs, l) -> entry_count l <= MAX_ENTRIES.
Proof.
  assert (entry_count (AuthRateLimiter_new c) <= MAX_ENTRIES) as H0 by done. revert H0.
  generalize (AuthRateLimiter_new c) as l0. revert bs.
  induction as_ as [|a as_ IH]; intros bs l0 H0; simpl; [by intros [= <- <-]|].
  destruct (attempt a l0) as [[b l1]|] eqn:E; [|done].
  destruct (attempts l1 as_) as [[bs' l2]|] eqn:E2; [|done]. intros [= <- <-].
  eapply IH; [|exact E2]. by eapply attempt_count.
Qed.

End Limiter.

(** ** Where lockouts are weaker than documented *)

Section Gaps.
Context `{MapIter}.

(** A failure that is recorded after the counting window has ended removes
    an active lockout, if the limit is above one: the key, refused just before, is
    admitted again although its lockout lasts.  (An authentication that was admitted
    before the lockout and answers late records such a failure.) *)
Theorem late_failure_ends_lockout now fc key l e until :
  2 <= max_attempts (config l) ->
  0 < window_secs (config l) < 2 ^ 64 -> 0 <= lockout_secs (config l) ->
  entries l !! key = Some e -> locked_until e = Some until -> now < until ->
  window_secs (config l) * nanos <= now - window_start e ->
  (check_rate_limit now now key l).1 = Err PinLocked /\
  exists l', record_failure now fc key l = Some l' /\
    entries l' !! key = Some (mkRateEntry 1 now None) /\
    (check_rate_limit now now key l').1 = Ok tt.
Proof.
  intros Hm Hw Hlo He Hu Hn Hx. split.
  { assert (entries (swept now l) !! key = Some e) as Hs.
    { eapply keep_unless_stale; [apply swept_lookup|exact He|by eapply locked_not_stale]. }
    by rewrite check_swept, Hs, Hu, (proj2 (Z.ltb_lt _ _) Hn). }
  assert (fail_entry (config l) now e = Some (mkRateEntry 1 now None)) as Hf.
  { unfold fail_entry. rewrite (proj2 (expired_iff (config l) Hw _ _)) by done.
    cbn [failed_count window_start locked_until]. rewrite Z.min_l by lia.
    by rewrite (proj2 (Z.leb_gt _ _)) by lia. }
  unfold record_failure. rewrite bool_decide_eq_true_2 by (rewrite He; done).
  cbn [negb andb]. rewrite He. simpl default. rewrite Hf.
  set (l' := set_entries (<[key := mkRateEntry 1 now None]> (entries l)) l).
  exists l'. split; [done|]. split; [apply lookup_insert_eq|].
  assert (entries (swept now l') !! key = Some (mkRateEntry 1 now None)) as Hs.
  2:{ rewrite check_swept, Hs. cbn [locked_until window_start failed_count config l' set_entries].
    rewrite (proj2 (Z.leb_gt _ _)), (proj2 (Z.leb_gt _ _)); [done|lia|].
    unfold as_secs, duration_since. rewrite Z.sub_diag. change (Z.max 0 0 / nanos) with 0. apply Hw. }
  eapply keep_unless_stale; [apply swept_lookup|apply lookup_insert_eq|].
  - unfold stale, duration_since, max_age. cbn [locked_until window_start config set_entries].
    rewrite Z.sub_diag, (proj2 (Z.ltb_lt _ _)); [done|].
    unfold saturating_add, nanos, u64_max. simpl. lia.
Qed.

End Gaps.

(** ** Witnesses *)

Definition closed_cfg : RateLimitConfig := mkRateConfig 2 300 900 FailClosed.

Definition guess (key : string) (secs : Z) (ok : bool) : Attempt :=
  mkAttempt key (secs * nanos) (secs * nanos) (secs * nanos) (secs * nanos) ok.

Definition demo_attempts : list Attempt :=
  [guess "eve" 1 false; guess "bob" 2 true; guess "eve" 3 false; guess "eve" 4 false;
   guess "eve" 902 false; guess "eve" 904 false].

Lemma demo_attempts_result :
  fst <$> attempts (H := key_order) (AuthRateLimiter_new closed_cfg) demo_attempts
  = Some [true; true; true; false; false; true].
Proof. vm_compute. reflexivity. Qed.

Lemma sequential_guesses_bounded_witness :
  exists l, attempts (H := key_order) (AuthRateLimiter_new closed_cfg) demo_attempts
    = Some ([true; true; true; false; false; true], l) /\
    admitted "eve" demo_attempts [true; true; true; false; false; true] = 3 /\
    3 <= 2 * (1 + (904 * nanos - 1 * nanos) / (300 * nanos)).
Proof.
  pose proof demo_attempts_result as Hr.
  destruct (attempts (AuthRateLimiter_new closed_cfg) demo_attempts) as [[bs l]|] eqn:E; [|done].
  simpl in Hr. injection Hr as ->. exists l. split; [reflexivity|]. split; [reflexivity|].
  assert (ordered (1 * nanos) demo_attempts (904 * nanos)) as Ho by (vm_compute; intuition congruence).
  apply (@sequential_guesses_bounded key_order closed_cfg) with (t0 := 1 * nanos) (t := 904 * nanos)
    (key := "eve") (as_ := demo_attempts) (bs := [true; true; true; false; false; true]) (l := l);
    [split; [discriminate|reflexivity]|split; reflexivity|discriminate|reflexivity|exact Ho| |exact E].
  repeat constructor; vm_compute; congruence.
Defined.

(** Two threads on one key, with the default policy and a limit of two: three guesses. *)
Definition open_cfg : RateLimitConfig := mkRateConfig 2 300 900 FailOpen.
Definition demo_calls : list RateCall :=
  let check key s := CallCheck (s * nanos) (s * nanos) key in
  let fail key s := CallFail (s * nanos) (s * nanos) key in
  [check "eve" 1; check "bob" 1; check "eve" 2; fail "eve" 3; CallSuccess "bob"; check "eve" 4; fail "eve" 5; check "eve" 6; fail "eve" 7].

Lemma guesses_bounded_witness :
  exists bs l, rate_calls (H := key_order) (AuthRateLimiter_new open_cfg) demo_calls = Some (bs, l) /\
    checks_admitted "eve" demo_calls bs = 3 /\ 3 <= (2 + 2 - 1) * (1 + (7 * nanos - 1 * nanos) / (300 * nanos)).
Proof.
  assert (exists bs l, rate_calls (H := key_order) (AuthRateLimiter_new open_cfg) demo_calls = Some (bs, l) /\
    bs = [true; true; true; false; false; true; false; false; false]) as (bs & l & E & ->) by (eexists _, _; split; [vm_compute; reflexivity|reflexivity]).
  eexists _, l. split; [exact E|]. split; [reflexivity|].
  apply (@guesses_bounded key_order open_cfg) with (k := 2) (t0 := 1 * nanos) (t := 7 * nanos) (key := "eve") (calls := demo_calls)
    (bs := [true; true; true; false; false; true; false; false; false]) (l := l);
    [split; [discriminate|reflexivity]|split; reflexivity|discriminate|lia|discriminate|vm_compute; reflexivity|vm_compute; intuition congruence|vm_compute; intuition congruence|exact E].
Defined.

Lemma rate_map_bounded_witness :
  exists bs l, attempts (H := key_order) (AuthRateLimiter_new closed_cfg) demo_attempts = Some (bs, l)
    /\ entry_count l <= MAX_ENTRIES.
Proof.
  pose proof demo_attempts_result as Hr.
  destruct (attempts (AuthRateLimiter_new closed_cfg) demo_attempts) as [[bs l]|] eqn:E; [|done].
  exists bs, l. split; [reflexivity|]. exact (@rate_map_bounded key_order closed_cfg _ _ _ E).
Defined.

(** A limiter in which one more failure of [eve] reaches the limit. *)
Definition eve_limiter : AuthRateLimiter :=
  mkLimiter {[ "eve" := mkRateEntry 1 (1 * nanos) None ]} closed_cfg 7 0.
Definition eve_locked : RateLimitEntry := mkRateEntry 2 (1 * nanos) (Some (903 * nanos)).

Lemma lockout_enforced_witness :
  exists bs l2, attempts (H := key_order)
      (set_entries {[ "eve" := eve_locked ]} eve_limiter) [guess "eve" 4 false; guess "bob" 5 false]
    = Some (bs, l2) /\ admitted "eve" [guess "eve" 4 false; guess "bob" 5 false] bs = 0.
Proof.
  assert (record_failure (H := key_order) (3 * nanos) (3 * nanos) "eve" eve_limiter
          = Some (set_entries {[ "eve" := eve_locked ]} eve_limiter)) as Hr by (vm_compute; reflexivity).
  destruct (attempts (H := key_order) (set_entries {[ "eve" := eve_locked ]} eve_limiter)
     [guess "eve" 4 false; guess "bob" 5 false]) as [[bs l2]|] eqn:E; [|by vm_compute in E].
  exists bs, l2. split; [reflexivity|].
  apply (@lockout_enforced key_order (3 * nanos) (3 * nanos) "eve" eve_limiter _ eve_locked _ bs l2 Hr);
    [vm_compute; reflexivity|vm_compute; discriminate| |exact E].
  repeat constructor; vm_compute; reflexivity.
Defined.

Lemma late_failure_ends_lockout_witness :
  let l := set_entries {[ "eve" := eve_locked ]} eve_limiter in
  exists l', record_failure (H := key_order) (301 * nanos) (301 * nanos) "eve" l = Some l' /\
    entries l' !! "eve" = Some (mkRateEntry 1 (301 * nanos) None).
Proof.
  destruct (@late_failure_ends_lockout key_order (301 * nanos) (301 * nanos) "eve"
    (set_entries {[ "eve" := eve_locked ]} eve_limiter) eve_locked (903 * nanos))
    as (_ & l' & Hr & He & _);
    [vm_compute; try split; try discriminate; try reflexivity..|].
  exists l'. exact (conj Hr He).
Defined.

(** The window is fixed, not sliding: with the default limit of five, seven failures
    of one key within three seconds are admitted. *)
Example fixed_window_burst :
  fst <$> attempts (H := key_order) (AuthRateLimiter_new RateLimitConfig_default)
    [guess "eve" 0 false; guess "eve" 298 false; guess "eve" 299 false; guess "eve" 299 false;
     guess "eve" 300 false; guess "eve" 300 false; guess "eve" 301 false; guess "eve" 301 false]
  = Some [true; true; true; true; true; true; true; true].
Proof. vm_compute. reflexivity. Qed.
