(* ===== verification/AuthMfa.v ===== *)
(** * Multi-factor authentication ([craton-hsm-auth/src/auth/mfa.rs])

    Base32 secrets, TOTP codes (RFC 6238), the challenges of the manager and the two
    indices that answer whether a session completed one.  Clock readings, random bytes and
    the environment variable are arguments; HMAC and PBKDF2 are [MfaCrates].  The binary
    heap of expiries is the sorted list of its entries, which is what [peek] and [pop]
    observe of it.  [CPanic] stands for a division by zero and for the overflow of
    [Instant + Duration]. *)

From stdpp Require Import prelude gmap strings list.
From Stdlib Require Import ZArith Lia.
From coqutil Require Import Byte.
From S2P Require Import Prelude RustStd AuthRbac.
Local Open Scope rust_scope.
Local Open Scope string_scope.
Local Open Scope list_scope.
Local Open Scope Z_scope.

(** The constructors of HMAC return a [Result]; PBKDF2 takes password, salt and
    iteration count. *)
Class MfaCrates := {
  hmac_sha1 : list byte -> list byte -> option (list byte);
  hmac_sha256_totp : list byte -> list byte -> option (list byte);
  pbkdf2_hmac_sha256 : list byte -> list byte -> Z -> list byte;
}.

Inductive TotpHashAlgorithm : Type := Sha1 | Sha256.

#[global] Instance TotpHashAlgorithm_eq_dec : EqDecision TotpHashAlgorithm.
Proof. solve_decision. Defined.

Definition TotpHashAlgorithm_default : TotpHashAlgorithm := Sha1.

(** ** Base32 *)

Definition MAX_BASE32_INPUT : Z := 512.

Definition base32_value (b : byte) : option Z :=
  let v := byte.unsigned b in
  if byte_in b 0x41 0x5A then Some (v - 0x41)
  else if byte_in b 0x61 0x7A then Some (v - 0x61)
  else if byte_in b 0x32 0x37 then Some (v - 0x32 + 26)
  else None.

(** One character: the buffer, the number of its bits, the output. *)
Definition base32_push (val : Z) (st : Z * Z * list byte) : Z * Z * list byte :=
  let '(buf, bits, out) := st in
  let buf := Z.lor (Z.shiftl buf 5 mod 2 ^ 64) val in
  let bits := bits + 5 in
  if 8 <=? bits then
    let bits := bits - 8 in
    (Z.land buf (Z.shiftl 1 bits - 1), bits, out ++ [byte.of_Z (Z.shiftr buf bits)])
  else (buf, bits, out).

Fixpoint base32_loop (input : list byte) (st : Z * Z * list byte) : option (list byte) :=
  match input with
  | [] => Some st.2
  | b :: rest =>
      if bool_decide (b = Byte.x3d) then base32_loop rest st
      else match base32_value b with
           | Some val => base32_loop rest (base32_push val st)
           | None => None
           end
  end.

Definition base32_decode (input : string) : option (list byte) :=
  if MAX_BASE32_INPUT <? len (as_bytes input) then None
  else base32_loop (as_bytes input) (0, 0, []).

(** ** TOTP *)

Definition MAX_TOTP_SKEW : Z := 5.

Record TotpConfig : Type := mkTotp {
  tc_secret : string;
  tc_raw_secret : list byte;
  tc_digits : Z;
  tc_period : Z;
  tc_skew : Z;
  tc_hash_algorithm : TotpHashAlgorithm;
}.

Definition TotpConfig_new (secret : string) : option TotpConfig :=
  raw ← base32_decode secret;
  Some (mkTotp secret raw 6 30 0 TotpHashAlgorithm_default).

Definition with_skew (skew : Z) (c : TotpConfig) : option TotpConfig :=
  if MAX_TOTP_SKEW <? skew then None
  else Some (mkTotp (tc_secret c) (tc_raw_secret c) (tc_digits c) (tc_period c) skew (tc_hash_algorithm c)).

Definition dynamic_truncate (result : list byte) : comp Z HsmError :=
  match last result with
  | None => CErr GeneralError
  | Some b =>
      let offset := Z.to_nat (Z.land (byte.unsigned b) 0x0f) in
      match take 4 (drop offset result) with
      | [b0; b1; b2; b3] =>
          COk (from_be_bytes [byte.of_Z (Z.land (byte.unsigned b0) 0x7f); b1; b2; b3])
      | _ => CErr GeneralError
      end
  end.

(** [10u32.pow(digits)] wraps; the remainder by zero panics. *)
Definition code_of (truncated digits : Z) : comp Z HsmError :=
  let modulus := 10 ^ digits mod 2 ^ 32 in
  if modulus =? 0 then CPanic else COk (truncated mod modulus).

Section Codes.
Context {MC : MfaCrates}.

Definition generate_totp_code_with_alg (secret : list byte) (time period digits : Z)
    (algorithm : TotpHashAlgorithm) : comp Z HsmError :=
  if period =? 0 then CPanic
  else
    let counter_bytes := to_be_bytes 8 (time / period) in
    let mac := match algorithm with Sha1 => hmac_sha1 | Sha256 => hmac_sha256_totp end in
    let? result := ok_or (mac secret counter_bytes) GeneralError in
    let? truncated := dynamic_truncate result in
    code_of truncated digits.

Definition generate_totp_code (secret : list byte) (time period digits : Z) : comp Z HsmError :=
  generate_totp_code_with_alg secret time period digits Sha1.

Definition generate_totp_code_base32 (base32_secret : string) (time period digits : Z)
    : comp (option Z) Empty_set :=
  match base32_decode base32_secret with
  | None => COk None
  | Some raw =>
      match generate_totp_code raw time period digits with
      | COk code => COk (Some code)
      | CErr _ => COk None
      | CPanic => CPanic
      | CDiverge => CDiverge
      end
  end.

(** The loop over the accepted steps: whether a step matched, and the last that did. *)
Fixpoint match_steps (config : TotpConfig) (code : Z) (steps : list Z) (acc : bool * Z)
    : comp (bool * Z) HsmError :=
  match steps with
  | [] => COk acc
  | step :: rest =>
      let t := step * tc_period config mod 2 ^ 64 in
      let? expected := generate_totp_code_with_alg (tc_raw_secret config) t (tc_period config)
                         (tc_digits config) (tc_hash_algorithm config) in
      let this_eq := expected =? code in
      match_steps config code rest (acc.1 || this_eq, if this_eq then step else acc.2)
  end.

(** The step a code belongs to at time [now]. *)
Definition matched_step (config : TotpConfig) (code now : Z) : comp (option Z) HsmError :=
  if tc_period config =? 0 then CPanic
  else
    let current_step := now / tc_period config in
    let start := saturating_sub current_step (tc_skew config) in
    let end_ := u64_add current_step (tc_skew config) in
    let? r := match_steps config code (seqZ start (end_ - start + 1)) (false, saturating_add end_ 1) in
    COk (if r.1 then Some r.2 else None).

(** ** PINs *)

Definition DEFAULT_PBKDF2_ITERATIONS : Z := 600000.
Definition MIN_PBKDF2_ITERATIONS : Z := 100000.

(** [cached] is the process-wide cell, [var] is [CRATON_HSM_PBKDF2_ITERATIONS]. *)
Definition pbkdf2_iterations (var : option string) (cached : Z) : Z * Z :=
  if negb (cached =? 0) then (cached, cached)
  else
    let value :=
      match var with
      | Some s =>
          match parse_u32 (as_bytes s) with
          | Some n => if MIN_PBKDF2_ITERATIONS <=? n then n else DEFAULT_PBKDF2_ITERATIONS
          | None => DEFAULT_PBKDF2_ITERATIONS
          end
      | None => DEFAULT_PBKDF2_ITERATIONS
      end in
    (value, value).

Definition hash_pin (var : option string) (pin salt : list byte) (cached : Z) : list byte * Z :=
  let '(iterations, cached) := pbkdf2_iterations var cached in
  (pbkdf2_hmac_sha256 pin salt iterations, cached).

End Codes.

(** ** Challenges *)

Inductive MfaChallengeType : Type := Totp | ReenterPin.

Record MfaChallenge : Type := mkChallenge {
  ch_id : string;
  ch_session_handle : Z;
  ch_user_id : string;
  ch_challenge_type : MfaChallengeType;
  ch_created_at : Z;
  ch_expires_at : Z;
  ch_expires_at_mono : Z;
  ch_completed : bool;
  ch_expected_pin_hash : option (list byte);
  ch_salt : list byte;
  ch_bound_operation : option string;
}.

Definition set_completed (c : MfaChallenge) : MfaChallenge :=
  mkChallenge (ch_id c) (ch_session_handle c) (ch_user_id c) (ch_challenge_type c) (ch_created_at c)
    (ch_expires_at c) (ch_expires_at_mono c) true (ch_expected_pin_hash c) (ch_salt c)
    (ch_bound_operation c).

(** The manager, with the cell of [pbkdf2_iterations]. *)
Record MfaManager : Type := mkMfa {
  mf_challenges : gmap string MfaChallenge;
  mf_completed_sessions : gset Z;
  mf_completed_ops : gset (Z * string);
  mf_timeout_secs : Z;
  mf_totp_secrets : gmap string TotpConfig;
  mf_used_totp_steps : gset (string * Z);
  mf_totp_verify_count : Z;
  mf_expiry_heap : list (Z * string);
  mf_cached_iterations : Z;
}.

Definition MfaManager_new (timeout_secs cached : Z) : MfaManager :=
  mkMfa ∅ ∅ ∅ timeout_secs ∅ ∅ 0 [] cached.

Definition set_challenges (x : gmap string MfaChallenge) (m : MfaManager) : MfaManager :=
  mkMfa x (mf_completed_sessions m) (mf_completed_ops m) (mf_timeout_secs m) (mf_totp_secrets m)
    (mf_used_totp_steps m) (mf_totp_verify_count m) (mf_expiry_heap m) (mf_cached_iterations m).
Definition set_indices (s : gset Z) (o : gset (Z * string)) (m : MfaManager) : MfaManager :=
  mkMfa (mf_challenges m) s o (mf_timeout_secs m) (mf_totp_secrets m)
    (mf_used_totp_steps m) (mf_totp_verify_count m) (mf_expiry_heap m) (mf_cached_iterations m).
Definition set_secrets (x : gmap string TotpConfig) (m : MfaManager) : MfaManager :=
  mkMfa (mf_challenges m) (mf_completed_sessions m) (mf_completed_ops m) (mf_timeout_secs m) x
    (mf_used_totp_steps m) (mf_totp_verify_count m) (mf_expiry_heap m) (mf_cached_iterations m).
Definition set_used (x : gset (string * Z)) (count : Z) (m : MfaManager) : MfaManager :=
  mkMfa (mf_challenges m) (mf_completed_sessions m) (mf_completed_ops m) (mf_timeout_secs m)
    (mf_totp_secrets m) x count (mf_expiry_heap m) (mf_cached_iterations m).
Definition set_heap (x : list (Z * string)) (m : MfaManager) : MfaManager :=
  mkMfa (mf_challenges m) (mf_completed_sessions m) (mf_completed_ops m) (mf_timeout_secs m)
    (mf_totp_secrets m) (mf_used_totp_steps m) (mf_totp_verify_count m) x (mf_cached_iterations m).
Definition set_cached (x : Z) (m : MfaManager) : MfaManager :=
  mkMfa (mf_challenges m) (mf_completed_sessions m) (mf_completed_ops m) (mf_timeout_secs m)
    (mf_totp_secrets m) (mf_used_totp_steps m) (mf_totp_verify_count m) (mf_expiry_heap m) x.

Definition register_totp_secret (user_id base32_secret : string) (m : MfaManager)
    : result unit HsmError * MfaManager :=
  match TotpConfig_new base32_secret with
  | None => (Err ArgumentsBad, m)
  | Some cfg => (Ok tt, set_secrets (<[user_id := cfg]> (mf_totp_secrets m)) m)
  end.

Definition register_totp_config (user_id : string) (config : TotpConfig) (m : MfaManager)
    : result unit HsmError * MfaManager :=
  if bool_decide (tc_raw_secret config = []) then (Err ArgumentsBad, m)
  else (Ok tt, set_secrets (<[user_id := config]> (mf_totp_secrets m)) m).

(** [BinaryHeap::push] of a [Reverse] pair: pairs are compared by expiry, then by the
    bytes of the identifier. *)
Definition heap_before (a b : Z * string) : bool :=
  (a.1 <? b.1) || ((a.1 =? b.1) && String.leb a.2 b.2).

Fixpoint heap_push (x : Z * string) (heap : list (Z * string)) : list (Z * string) :=
  match heap with
  | [] => [x]
  | y :: r => if heap_before x y then x :: heap else y :: heap_push x r
  end.

(** What [issue_challenge_for] reads: identifier and salt from the system generator, both
    clocks, the environment variable. *)
Record IssueEnv : Type := mkIssueEnv {
  ie_id_bytes : list byte;
  ie_salt : list byte;
  ie_now : Z;
  ie_mono : Z;
  ie_var : option string;
}.

(** What [verify] reads: both clocks, the clock of a sweep, the environment variable. *)
Record VerifyEnv : Type := mkVerifyEnv {
  ve_now : Z;
  ve_mono : Z;
  ve_prune_now : Z;
  ve_var : option string;
}.

Section Manager.
Context {MC : MfaCrates} {HC : HexCrate}.

Definition generate_challenge_id (bytes : list byte) : string := hex_encode bytes.

Definition issue_challenge_for (env : IssueEnv) (session_handle : Z) (user_id : string)
    (challenge_type : MfaChallengeType) (expected_pin : option (list byte))
    (bound_operation : option string) (m : MfaManager) : comp (MfaChallenge * MfaManager) HsmError :=
  let id := generate_challenge_id (ie_id_bytes env) in
  let '(expected_pin_hash, cached) :=
    match challenge_type, expected_pin with
    | ReenterPin, Some p =>
        let '(h, cached) := hash_pin (ie_var env) p (ie_salt env) (mf_cached_iterations m) in
        (Some h, cached)
    | _, _ => (None, mf_cached_iterations m)
    end in
  let m := set_cached cached m in
  let? expires_at_mono := or_panic (instant_add_secs (ie_mono env) (mf_timeout_secs m)) in
  let challenge :=
    mkChallenge id session_handle user_id challenge_type (ie_now env)
      (u64_add (ie_now env) (mf_timeout_secs m)) expires_at_mono false expected_pin_hash
      (ie_salt env) bound_operation in
  let m := set_heap (heap_push (ch_expires_at challenge, id) (mf_expiry_heap m)) m in
  COk (challenge, set_challenges (<[id := challenge]> (mf_challenges m)) m).

Definition issue_challenge (env : IssueEnv) (session_handle : Z) (user_id : string)
    (challenge_type : MfaChallengeType) (expected_pin : option (list byte)) (m : MfaManager) :=
  issue_challenge_for env session_handle user_id challenge_type expected_pin None m.

(** The cutoff below which a step is out of every acceptance window. *)
Definition prune_cutoff (config : TotpConfig) (now : Z) : Z :=
  saturating_sub (now / tc_period config) ((2 * tc_skew config + 1) mod 2 ^ 64).

(** Steps of a user without a configuration are dropped. *)
Definition keep_step (secrets : gmap string TotpConfig) (now : Z) (key : string * Z) : bool :=
  match secrets !! key.1 with
  | Some config => prune_cutoff config now <=? key.2
  | None => u64_max <=? key.2
  end.

(** The closure divides by the period of every user it meets. *)
Definition prune_expired_totp_steps (now : Z) (m : MfaManager) : comp MfaManager HsmError :=
  if existsb (fun key => match mf_totp_secrets m !! key.1 with
                         | Some config => tc_period config =? 0
                         | None => false
                         end) (elements (mf_used_totp_steps m))
  then CPanic
  else COk (set_used (filter (fun key => keep_step (mf_totp_secrets m) now key = true)
                        (mf_used_totp_steps m)) (mf_totp_verify_count m) m).

(** The replay check and the sweeps that follow it. *)
Definition consume_step (env : VerifyEnv) (user_id : string) (config : TotpConfig) (step : Z)
    (m : MfaManager) : comp MfaManager HsmError :=
  let key := (user_id, step) in
  if bool_decide (key ∈ mf_used_totp_steps m) then CErr SignatureInvalid
  else
    let used := {[key]} ∪ mf_used_totp_steps m in
    let cutoff := prune_cutoff config (ve_now env) in
    let used := filter (fun k => (cutoff <=? k.2) = true) used in
    let count := mf_totp_verify_count m in
    let m := set_used used (u64_add count 1) m in
    if count mod 64 =? 0 then prune_expired_totp_steps (ve_prune_now env) m else COk m.

Definition verify_totp_response (env : VerifyEnv) (challenge : MfaChallenge) (response : list byte)
    (m : MfaManager) : comp MfaManager HsmError :=
  if ch_session_handle challenge =? 0 then CErr ArgumentsBad
  else if negb (utf8_valid response) then CErr SignatureInvalid
  else
    let? code := ok_or (parse_u32 response) SignatureInvalid in
    let? config := ok_or (mf_totp_secrets m !! ch_user_id challenge) mfa_challenge_invalid in
    let? found := matched_step config code (ve_now env) in
    match found with
    | None => CErr SignatureInvalid
    | Some step => consume_step env (ch_user_id challenge) config step m
    end.

Definition verify_pin_response (env : VerifyEnv) (challenge : MfaChallenge) (response : list byte)
    (m : MfaManager) : result unit HsmError * MfaManager :=
  match ch_expected_pin_hash challenge with
  | Some expected =>
      let '(actual, cached) := hash_pin (ve_var env) response (ch_salt challenge) (mf_cached_iterations m) in
      (if bool_decide (expected = actual) then Ok tt else Err PinIncorrect, set_cached cached m)
  | None => (Err GeneralError, m)
  end.

(** What a correct response changes. *)
Definition mark_completed (challenge_id : string) (challenge : MfaChallenge) (m : MfaManager) : MfaManager :=
  let session := ch_session_handle challenge in
  let m := set_challenges (<[challenge_id := set_completed challenge]> (mf_challenges m)) m in
  set_indices ({[session]} ∪ mf_completed_sessions m)
    (match ch_bound_operation challenge with
     | Some op => {[(session, op)]} ∪ mf_completed_ops m
     | None => mf_completed_ops m
     end) m.

Definition verify (env : VerifyEnv) (challenge_id : string) (session_handle : Z) (response : list byte)
    (m : MfaManager) : comp (result unit HsmError * MfaManager) Empty_set :=
  match mf_challenges m !! challenge_id with
  | None => COk (Err mfa_challenge_invalid, m)
  | Some challenge =>
      if negb (ch_session_handle challenge =? session_handle) then COk (Err mfa_challenge_invalid, m)
      else if ch_expires_at_mono challenge <=? ve_mono env then
        COk (Err mfa_challenge_invalid, set_challenges (delete challenge_id (mf_challenges m)) m)
      else
        match ch_challenge_type challenge with
        | Totp =>
            match verify_totp_response env challenge response m with
            | COk m => COk (Ok tt, mark_completed challenge_id challenge m)
            | CErr e => COk (Err e, m)
            | CPanic => CPanic
            | CDiverge => CDiverge
            end
        | ReenterPin =>
            match verify_pin_response env challenge response m with
            | (Ok _, m) => COk (Ok tt, mark_completed challenge_id challenge m)
            | (Err e, m) => COk (Err e, m)
            end
        end
  end.

(** ** Eviction and the gates *)

(** The loop over the heap: remaining heap and challenges, the sessions and the pairs
    of session and operation that lost a completed challenge. *)
Fixpoint evict_pop (now : Z) (heap : list (Z * string)) (chs : gmap string MfaChallenge)
    (sessions : list Z) (ops : list (Z * string))
    : list (Z * string) * gmap string MfaChallenge * list Z * list (Z * string) :=
  match heap with
  | [] => ([], chs, sessions, ops)
  | (expiry, id) :: rest =>
      if now <? expiry then (heap, chs, sessions, ops)
      else
        match chs !! id with
        | Some c =>
            if ch_expires_at c <=? now then
              if ch_completed c then
                evict_pop now rest (delete id chs) (sessions ++ [ch_session_handle c])
                  (match ch_bound_operation c with
                   | Some op => ops ++ [(ch_session_handle c, op)]
                   | None => ops
                   end)
              else evict_pop now rest (delete id chs) sessions ops
            else evict_pop now rest chs sessions ops
        | None => evict_pop now rest chs sessions ops
        end
  end.

Definition active_session (now session : Z) (c : MfaChallenge) : bool :=
  (ch_session_handle c =? session) && ch_completed c && (now <? ch_expires_at c).

Definition active_op (now : Z) (so : Z * string) (c : MfaChallenge) : bool :=
  active_session now so.1 c && bool_decide (ch_bound_operation c = Some so.2).

Definition any_challenge (p : MfaChallenge -> bool) (chs : gmap string MfaChallenge) : bool :=
  existsb (fun kv => p kv.2) (map_to_list chs).

Definition evict_expired_challenges (now : Z) (m : MfaManager) : MfaManager :=
  let '(heap, chs, sessions, ops) := evict_pop now (mf_expiry_heap m) (mf_challenges m) [] [] in
  let m := set_heap heap (set_challenges chs m) in
  set_indices
    (foldl (fun s session => if any_challenge (active_session now session) chs then s else s ∖ {[session]})
       (mf_completed_sessions m) sessions)
    (foldl (fun o so => if any_challenge (active_op now so) chs then o else o ∖ {[so]})
       (mf_completed_ops m) ops) m.

Definition has_completed_challenge (now session_handle : Z) (m : MfaManager) : bool * MfaManager :=
  let m := evict_expired_challenges now m in
  (bool_decide (session_handle ∈ mf_completed_sessions m), m).

Definition has_completed_challenge_for (now session_handle : Z) (operation : string) (m : MfaManager)
    : bool * MfaManager :=
  let m := evict_expired_challenges now m in
  (bool_decide ((session_handle, operation) ∈ mf_completed_ops m), m).

End Manager.
