(* ===== verification/AuthMfaProofs.v ===== *)
(** * Multi-factor authentication: correctness

    The base32 decoder inverts the encoding of RFC 4648; over every run of the manager a
    time step of a user is accepted at most once (as long as all users share period and
    skew, and not otherwise), the gates open only for sessions and operations whose challenge was
    answered correctly, and an approval ends with its challenge (unless the
    challenge is answered again after its deadline). *)

From stdpp Require Import prelude gmap strings list.
From Stdlib Require Import ZArith Lia Sorted.
From coqutil Require Import Byte Word.LittleEndianList.
From S2P Require Import Prelude RustStd AuthRbac AuthMfa.
Local Open Scope rust_scope.
Local Open Scope string_scope.
Local Open Scope list_scope.
Local Open Scope Z_scope.

(** ** Base32 *)

(** The [n] digits of [v] in base 32, most significant first. *)
Fixpoint digits32 (n : nat) (v : Z) : list Z :=
  match n with
  | O => []
  | S n => digits32 n (v / 32) ++ [v mod 32]
  end.

Definition base32_char (d : Z) : byte := byte.of_Z (if d <? 26 then 0x41 + d else 0x32 + (d - 26)).

(** RFC 4648: the bytes as one number, filled up with zero bits to a multiple of five,
    its digits, and padding to a multiple of eight characters. *)
Definition base32_encode (bs : list byte) : string :=
  let n := (8 * len bs + 4) / 5 in
  from_bytes
    (map base32_char (digits32 (Z.to_nat n) (from_be_bytes bs * 2 ^ (5 * n - 8 * len bs)))
     ++ replicate (Z.to_nat ((- n) mod 8)) Byte.x3d).

(** The state after [n] digits whose number is [v]. *)
Definition base32_state (n v : Z) (st : Z * Z * list byte) : Prop :=
  let '(buf, bits, out) := st in
  bits = 5 * n - 8 * len out /\ 0 <= bits < 8 /\ 0 <= buf < 2 ^ bits /\
  v = from_be_bytes out * 2 ^ bits + buf.

Lemma base32_push_state n v val st :
  0 <= val < 32 -> base32_state n v st -> base32_state (n + 1) (v * 32 + val) (base32_push val st).
Proof.
  destruct st as [[buf bits] out]. intros Hval (Hbits & Hb & Hbuf & ->). cbn [base32_push].
  assert (2 ^ bits <= 2 ^ 7) by (apply Z.pow_le_mono_r; lia).
  assert (Z.shiftl buf 5 mod 2 ^ 64 = Z.shiftl buf 5) as ->.
  { rewrite Z.shiftl_mul_pow2 by lia. apply Z.mod_small. lia. }
  rewrite (lor_shiftl_low val buf 5) by lia. change (2 ^ 5) with 32.
  assert (2 ^ (bits + 5) = 32 * 2 ^ bits) as H5 by (rewrite Z.pow_add_r; lia).
  destruct (Z.leb_spec 8 (bits + 5)); unfold base32_state; rewrite ?len_app; cbn [len length].
  - replace (Z.shiftl 1 (bits + 5 - 8) - 1) with (Z.ones (bits + 5 - 8)) by (rewrite Z.ones_equiv, Z.shiftl_1_l; lia).
    rewrite Z.land_ones, Z.shiftr_div_pow2 by lia.
    assert (2 ^ (bits + 5) = 256 * 2 ^ (bits + 5 - 8)) as H8.
    { change 256 with (2 ^ 8). rewrite <- Z.pow_add_r by lia. f_equal. lia. }
    pose proof (Z.pow_pos_nonneg 2 (bits + 5 - 8)) as Hp.
    pose proof (Z.div_mod (buf * 32 + val) (2 ^ (bits + 5 - 8)) ltac:(lia)) as Hd.
    pose proof (Z.mod_pos_bound (buf * 32 + val) (2 ^ (bits + 5 - 8)) ltac:(lia)).
    rewrite from_be_bytes_snoc, byte.unsigned_of_Z. unfold byte.wrap.
    rewrite (Z.mod_small (_ / _) (2 ^ 8)) by (split; [apply Z.div_pos|apply Z.div_lt_upper_bound]; lia).
    change (len [byte.of_Z ((buf * 32 + val) / 2 ^ (bits + 5 - 8))]) with 1. repeat split; nia.
  - rewrite H5. repeat split; lia.
Qed.

Lemma base32_char_value d : 0 <= d < 32 -> base32_value (base32_char d) = Some d /\ base32_char d <> Byte.x3d.
Proof.
  intros Hd. assert (exists n : nat, (n < 32)%nat /\ d = Z.of_nat n) as (n & Hn & ->) by (exists (Z.to_nat d); lia).
  do 32 (destruct n as [|n]; [by vm_compute|]). lia.
Qed.

Lemma base32_loop_digits ds st n v rest :
  Forall (fun d => 0 <= d < 32) ds -> base32_state n v st ->
  exists st', base32_loop (map base32_char ds ++ rest) st = base32_loop rest st' /\
    base32_state (n + len ds) (foldl (fun v d => v * 32 + d) v ds) st'.
Proof.
  intros Hds. revert st n v. induction Hds as [|d ds Hd _ IH]; intros st n v Hst.
  { exists st. split; [done|]. by rewrite len_nil, Z.add_0_r. }
  destruct (base32_char_value d Hd) as [Hv Hne]. cbn [map app base32_loop].
  rewrite bool_decide_eq_false_2, Hv by done.
  destruct (IH (base32_push d st) (n + 1) (v * 32 + d)) as (st' & He & Hs'); [by apply base32_push_state|].
  exists st'. split; [done|]. rewrite len_cons. cbn [foldl]. by rewrite Z.add_assoc.
Qed.

Lemma base32_loop_padding k st : base32_loop (replicate k Byte.x3d) st = Some st.2.
Proof. by induction k. Qed.

Lemma digits32_spec n v :
  0 <= v < 32 ^ Z.of_nat n ->
  Forall (fun d => 0 <= d < 32) (digits32 n v) /\ length (digits32 n v) = n /\
  foldl (fun v d => v * 32 + d) 0 (digits32 n v) = v.
Proof.
  revert v. induction n as [|n IH]; intros v Hv; cbn [digits32].
  { simpl in Hv. split; [done|]. split; [done|]. cbn. lia. }
  rewrite Nat2Z.inj_succ, Z.pow_succ_r in Hv by lia.
  pose proof (Z.div_mod v 32 ltac:(lia)). pose proof (Z.mod_pos_bound v 32 ltac:(lia)).
  destruct (IH (v / 32)) as (Hf & Hl & Hval); [lia|].
  rewrite Forall_app, length_app, Hl, foldl_app, Hval. cbn. split; [|lia]. split; [done|]. by constructor.
Qed.

(** Secrets survive their text form: every secret of at most 320 bytes, encoded as RFC
    4648 prescribes (upper case, padded), is decoded to itself. *)
Theorem base32_roundtrip bs : len bs <= 320 -> base32_decode (base32_encode bs) = Some bs.
Proof.
  intros Hlen. pose proof (len_nonneg bs). unfold base32_decode, base32_encode. rewrite as_from_bytes.
  set (n := (8 * len bs + 4) / 5). set (v := from_be_bytes bs * 2 ^ (5 * n - 8 * len bs)).
  assert (0 <= 5 * n - 8 * len bs < 5) as Hpad 
    by (pose proof (Z.div_mod (8 * len bs + 4) 5); pose proof (Z.mod_pos_bound (8 * len bs + 4) 5); subst n; lia).
  assert (0 <= v < 32 ^ Z.of_nat (Z.to_nat n)) as Hv.
  { rewrite Z2Nat.id by lia. change 32 with (2 ^ 5). rewrite <- Z.pow_mul_r by lia.
    replace (5 * n) with (8 * len bs + (5 * n - 8 * len bs)) by lia.
    rewrite Z.pow_add_r by lia. pose proof (from_be_bytes_bound bs).
    pose proof (Z.pow_pos_nonneg 2 (5 * n - 8 * len bs)). subst v. nia. }
  destruct (digits32_spec _ _ Hv) as (Hd & Hdl & Hdv).
  assert (len (map base32_char (digits32 (Z.to_nat n) v) ++ replicate (Z.to_nat ((- n) mod 8)) Byte.x3d) <= 512) as Hmax.
  { rewrite len_app. unfold len. rewrite length_map, Hdl, length_replicate.
    pose proof (Z.div_mod (- n) 8). pose proof (Z.mod_pos_bound (- n) 8). lia. }
  destruct (Z.ltb_spec MAX_BASE32_INPUT (len (map base32_char (digits32 (Z.to_nat n) v) ++ replicate (Z.to_nat ((- n) mod 8)) Byte.x3d)));
    [unfold MAX_BASE32_INPUT in *; lia|].
  destruct (base32_loop_digits (digits32 (Z.to_nat n) v) (0, 0, []) 0 0
    (replicate (Z.to_nat ((- n) mod 8)) Byte.x3d) Hd) as ([[buf bits] out] & He & Hbits & Hb & Hbuf & Hval); [by cbn|].
  rewrite He, base32_loop_padding. cbn [snd]. f_equal. rewrite Hdv in Hval.
  unfold len in Hbits at 1. rewrite Hdl, Z2Nat.id in Hbits by lia.
  assert (len out = len bs) as Hl by lia. apply from_be_bytes_inj; [unfold len in Hl; lia|].
  subst v. rewrite Hl in Hbits. replace (5 * n - 8 * len bs) with bits in Hval by lia. nia.
Qed.

(** ** Runs of the manager *)

Inductive mfa_event : Type :=
| RegisterSecret (user secret : string)
| RegisterConfig (user : string) (config : TotpConfig)
| Issue (env : IssueEnv) (session : Z) (user : string) (type : MfaChallengeType)
    (pin : option (list byte)) (op : option string)
| Answer (env : VerifyEnv) (id : string) (session : Z) (response : list byte)
| Gate (now session : Z)
| GateFor (now session : Z) (op : string)
| Sweep (now : Z).

Section Runs.
Context {MC : MfaCrates} {HC : HexCrate}.

(** The state after an event; [None] after a panic. *)
Definition exec (e : mfa_event) (m : MfaManager) : option MfaManager :=
  match e with
  | RegisterSecret user secret => Some (register_totp_secret user secret m).2
  | RegisterConfig user config => Some (register_totp_config user config m).2
  | Issue env session user type pin op =>
      match issue_challenge_for env session user type pin op m with
      | COk (_, m) => Some m
      | _ => None
      end
  | Answer env id session response =>
      match verify env id session response m with
      | COk (_, m) => Some m
      | _ => None
      end
  | Gate now session => Some (has_completed_challenge now session m).2
  | GateFor now session op => Some (has_completed_challenge_for now session op m).2
  | Sweep now => match prune_expired_totp_steps now m with COk m => Some m | _ => None end
  end.

(** A run, with every event next to the state it started from. *)
Inductive mfa_run : MfaManager -> list (mfa_event * MfaManager) -> Prop :=
| run_new timeout cached : mfa_run (MfaManager_new timeout cached) []
| run_event m h e m' : mfa_run m h -> exec e m = Some m' -> mfa_run m' (h ++ [(e, m)]).

(** The wall clock does not run backwards. *)
Definition in_window (T T' : Z) (e : mfa_event) : Prop :=
  match e with
  | Issue env _ _ _ _ _ => T <= ie_now env <= T'
  | Answer env _ _ _ => T <= ve_now env <= ve_prune_now env /\ ve_prune_now env <= T'
  | Gate now _ | GateFor now _ _ | Sweep now => T <= now <= T'
  | RegisterSecret _ _ | RegisterConfig _ _ => T <= T'
  end.

Inductive in_order : list (mfa_event * MfaManager) -> Z -> Prop :=
| io_nil : in_order [] 0
| io_snoc h T T' e m : in_order h T -> in_window T T' e -> in_order (h ++ [(e, m)]) T'.

Lemma in_order_snoc_inv h e m T' :
  in_order (h ++ [(e, m)]) T' -> exists T, in_order h T /\ in_window T T' e.
Proof.
  intros H. inversion H as [E|h0 T T'' e0 m0 H1 H2 E]; [by destruct h|].
  apply app_inj_tail in E as [-> E]. injection E as -> ->. eauto.
Qed.

(** ** Codes and steps *)

(** What the loop over the window finds. *)
Lemma match_steps_spec config code steps b x y :
  match_steps config code steps (b, x) = COk (true, y) ->
  (b = true /\ y = x) \/
  (y ∈ steps /\ generate_totp_code_with_alg (tc_raw_secret config) (y * tc_period config mod 2 ^ 64)
     (tc_period config) (tc_digits config) (tc_hash_algorithm config) = COk code).
Proof.
  revert b x. induction steps as [|s steps IH]; intros b x H; cbn [match_steps] in H.
  { injection H as -> ->. by left. }
  inv_comp. cbn [fst snd] in H. destruct (Z.eqb_spec a code) as [->|].
  - apply IH in H as [[_ ->]|[Hin Hc]]; right; (split; [set_solver|done]).
  - rewrite orb_false_r in H. apply IH in H as [[-> ->]|[Hin Hc]]; [by left|].
    right. split; [set_solver|done].
Qed.

(** A step of the acceptance window whose code is [code]. *)
Definition step_matches (config : TotpConfig) (code now step : Z) : Prop :=
  saturating_sub (now / tc_period config) (tc_skew config) <= step <=
    u64_add (now / tc_period config) (tc_skew config) /\
  generate_totp_code_with_alg (tc_raw_secret config) (step * tc_period config mod 2 ^ 64)
    (tc_period config) (tc_digits config) (tc_hash_algorithm config) = COk code.

Lemma matched_step_spec config code now step :
  matched_step config code now = COk (Some step) -> step_matches config code now step.
Proof.
  unfold matched_step. case_if; [done|]. intros H. inv_comp.
  destruct a as [[] y]; cbn in H; [|done]. injection H as ->.
  apply match_steps_spec in E0 as [[? ?]|[Hin Hc]]; [done|].
  apply elem_of_seqZ in Hin. split; [lia|done].
Qed.

(** The step an answer consumed, if it did. *)
Definition accepted_step (em : mfa_event * MfaManager) : option (string * Z) :=
  match em with
  | (Answer env id session response, m) =>
      match verify env id session response m, mf_challenges m !! id with
      | COk (Ok _, _), Some c =>
          match ch_challenge_type c, parse_u32 response, mf_totp_secrets m !! ch_user_id c with
          | Totp, Some code, Some config =>
              match matched_step config code (ve_now env) with
              | COk (Some step) => Some (ch_user_id c, step)
              | _ => None
              end
          | _, _, _ => None
          end
      | _, _ => None
      end
  | _ => None
  end.

Lemma prune_spec now m m' :
  prune_expired_totp_steps now m = COk m' ->
  m' = set_used (filter (fun key => keep_step (mf_totp_secrets m) now key = true) (mf_used_totp_steps m))
         (mf_totp_verify_count m) m.
Proof. unfold prune_expired_totp_steps. case_if; [done|]. by intros [= <-]. Qed.

(** [m'] differs from [m] at most in the used steps and the counter. *)
Definition same_but_steps (m m' : MfaManager) : Prop :=
  mf_challenges m' = mf_challenges m /\ mf_completed_sessions m' = mf_completed_sessions m /\
  mf_completed_ops m' = mf_completed_ops m /\ mf_totp_secrets m' = mf_totp_secrets m /\
  mf_expiry_heap m' = mf_expiry_heap m /\ mf_cached_iterations m' = mf_cached_iterations m.

Lemma consume_spec env user config step m m' :
  consume_step env user config step m = COk m' ->
  (user, step) ∉ mf_used_totp_steps m /\ same_but_steps m m' /\
  (forall k, k ∈ mf_used_totp_steps m' -> k ∈ {[(user, step)]} ∪ mf_used_totp_steps m /\
     prune_cutoff config (ve_now env) <= k.2) /\
  (forall k, k ∈ {[(user, step)]} ∪ mf_used_totp_steps m -> prune_cutoff config (ve_now env) <= k.2 ->
     keep_step (mf_totp_secrets m) (ve_prune_now env) k = true -> k ∈ mf_used_totp_steps m').
Proof.
  unfold consume_step. case_bool_decide as Hu; [done|]. intros H.
  assert (same_but_steps m m' /\ exists keep, mf_used_totp_steps m' =
    filter (fun k => keep k = true) (filter (fun k => (prune_cutoff config (ve_now env) <=? k.2) = true)
      ({[(user, step)]} ∪ mf_used_totp_steps m)) /\
    forall k, keep_step (mf_totp_secrets m) (ve_prune_now env) k = true -> keep k = true) as (Hs & keep & Hk & Hkeep).
  { case_if.
    - apply prune_spec in H as ->. split; [done|]. eexists. split; [reflexivity|]. by intros k.
    - injection H as <-. split; [done|]. exists (fun _ => true). split; [|done].
      cbn. apply set_eq. intros k. rewrite (elem_of_filter (fun _ => true = true)). tauto. }
  split; [done|]. split; [done|]. rewrite Hk. split.
  - intros k. rewrite !elem_of_filter, Z.leb_le. tauto.
  - intros k. rewrite !elem_of_filter, Z.leb_le. auto.
Qed.

(** The outcomes of [verify]. *)
Inductive outcome (env : VerifyEnv) (id : string) (session : Z) (response : list byte) (m : MfaManager)
    : result unit HsmError -> MfaManager -> Prop :=
| out_refused e m' :
    m' = m \/ m' = set_cached (pbkdf2_iterations (ve_var env) (mf_cached_iterations m)).2 m ->
    outcome env id session response m (Err e) m'
| out_expired c :
    mf_challenges m !! id = Some c -> ch_session_handle c = session ->
    ch_expires_at_mono c <= ve_mono env ->
    outcome env id session response m (Err mfa_challenge_invalid)
      (set_challenges (delete id (mf_challenges m)) m)
| out_totp c code config step m1 :
    mf_challenges m !! id = Some c -> ch_session_handle c = session ->
    ve_mono env < ch_expires_at_mono c -> ch_challenge_type c = Totp ->
    parse_u32 response = Some code -> mf_totp_secrets m !! ch_user_id c = Some config ->
    matched_step config code (ve_now env) = COk (Some step) ->
    consume_step env (ch_user_id c) config step m = COk m1 ->
    outcome env id session response m (Ok tt) (mark_completed id c m1)
| out_pin c h :
    mf_challenges m !! id = Some c -> ch_session_handle c = session ->
    ve_mono env < ch_expires_at_mono c -> ch_challenge_type c = ReenterPin ->
    ch_expected_pin_hash c = Some h ->
    h = (hash_pin (ve_var env) response (ch_salt c) (mf_cached_iterations m)).1 ->
    outcome env id session response m (Ok tt)
      (mark_completed id c (set_cached (pbkdf2_iterations (ve_var env) (mf_cached_iterations m)).2 m)).

Lemma verify_outcome env id session response m res m' :
  verify env id session response m = COk (res, m') -> outcome env id session response m res m'.
Proof.
  unfold verify. destruct (mf_challenges m !! id) as [c|] eqn:Hc; [|intros [= <- <-]; by constructor; left].
  destruct (Z.eqb_spec (ch_session_handle c) session) as [Hs|]; cbn [negb];
    [|intros [= <- <-]; by constructor; left].
  destruct (Z.leb_spec (ch_expires_at_mono c) (ve_mono env)) as [Hm|Hm];
    [intros [= <- <-]; by eapply out_expired|].
  destruct (ch_challenge_type c) eqn:Ht.
  - destruct (verify_totp_response env c response m) as [m1|e| |] eqn:Hv; intros [= <- <-]; [|by constructor; left].
    unfold verify_totp_response in Hv. repeat (case_if; [done|]). inv_comp.
    destruct (parse_u32 response) as [code|] eqn:Hp; [|done].
    destruct (mf_totp_secrets m !! ch_user_id c) as [config|] eqn:Hk; [|done].
    cbn in E1, E2. injection E1 as <-. injection E2 as <-. destruct a1 as [step|]; [|done].
    by eapply out_totp.
  - unfold verify_pin_response. destruct (ch_expected_pin_hash c) as [h|] eqn:Hh;
      [|intros [= <- <-]; by constructor; left].
    unfold hash_pin. destruct (pbkdf2_iterations (ve_var env) (mf_cached_iterations m)) as [it cached] eqn:Hit.
    case_bool_decide as Hb; intros [= <- <-].
    + replace cached with (pbkdf2_iterations (ve_var env) (mf_cached_iterations m)).2 by (by rewrite Hit).
      eapply out_pin; try done. unfold hash_pin. by rewrite Hit.
    + constructor. right. by rewrite Hit.
Qed.

Lemma evict_challenges_frame now m :
  let m' := evict_expired_challenges now m in
  mf_used_totp_steps m' = mf_used_totp_steps m /\ mf_totp_secrets m' = mf_totp_secrets m /\
  mf_cached_iterations m' = mf_cached_iterations m.
Proof. unfold evict_expired_challenges. by destruct (evict_pop _ _ _ _ _) as [[[? ?] ?] ?]. Qed.

(** The challenge an [Issue] creates. *)
Definition issued (env : IssueEnv) (session : Z) (user : string) (type : MfaChallengeType)
    (pin : option (list byte)) (op : option string) (m : MfaManager) (mono : Z) : MfaChallenge :=
  mkChallenge (hex_encode (ie_id_bytes env)) session user type (ie_now env)
    (u64_add (ie_now env) (mf_timeout_secs m)) mono false
    (match type, pin with
     | ReenterPin, Some p => Some (hash_pin (ie_var env) p (ie_salt env) (mf_cached_iterations m)).1
     | _, _ => None
     end) (ie_salt env) op.

(** The cell of the iteration count after an [Issue]. *)
Definition issue_cached (env : IssueEnv) (type : MfaChallengeType) (pin : option (list byte)) (m : MfaManager) : Z :=
  match type, pin with
  | ReenterPin, Some _ => (pbkdf2_iterations (ie_var env) (mf_cached_iterations m)).2
  | _, _ => mf_cached_iterations m
  end.

Lemma issue_spec env session user type pin op m c m' :
  issue_challenge_for env session user type pin op m = COk (c, m') ->
  exists mono, instant_add_secs (ie_mono env) (mf_timeout_secs m) = Some mono /\
    c = issued env session user type pin op m mono /\
    m' = set_challenges (<[ch_id c := c]> (mf_challenges m))
           (set_heap (heap_push (ch_expires_at c, ch_id c) (mf_expiry_heap m))
              (set_cached (issue_cached env type pin m) m)).
Proof.
  unfold issue_challenge_for, hash_pin. intros H.
  destruct type, pin as [p|];
    try destruct (pbkdf2_iterations (ie_var env) (mf_cached_iterations m)) as [it cached] eqn:Hit;
    cbn [mf_timeout_secs set_cached] in H;
    destruct (instant_add_secs (ie_mono env) (mf_timeout_secs m)) as [mono|] eqn:Hm; try done;
    injection H as <- <-; exists mono; (split; [done|]); unfold issued, issue_cached, hash_pin; by rewrite ?Hit.
Qed.

(** ** Every time step at most once *)

Section SingleUse.
Variables (P K : Z).
Hypothesis HP : 0 < P.
Hypothesis HK : 0 <= K < 2 ^ 62.

(** All users have the period [P] and the skew [K]. *)
Definition uniform_event (e : mfa_event) : Prop :=
  match e with
  | RegisterSecret _ _ => P = 30 /\ K = 0
  | RegisterConfig _ c => tc_period c = P /\ tc_skew c = K
  | _ => True
  end.

Definition cutoff (T : Z) : Z := Z.max (T / P - (2 * K + 1)) 0.

Lemma cutoff_mono T T' : T <= T' -> cutoff T <= cutoff T'.
Proof. intros H. pose proof (Z.div_le_mono T T' P ltac:(lia) H). unfold cutoff. lia. Qed.

Lemma prune_cutoff_uniform c now : tc_period c = P -> tc_skew c = K -> prune_cutoff c now = cutoff now.
Proof. unfold prune_cutoff, saturating_sub, cutoff. intros Hp Hk. by rewrite Hp, Hk, (Z.mod_small (2 * K + 1)) by lia. Qed.

(** Of the accepted steps every one is remembered, or too old to be accepted again. *)
Definition steps_inv (T : Z) (m : MfaManager) (acc : list (string * Z)) : Prop :=
  (forall u c, mf_totp_secrets m !! u = Some c -> tc_period c = P /\ tc_skew c = K) /\
  NoDup acc /\
  forall u s, (u, s) ∈ acc -> is_Some (mf_totp_secrets m !! u) /\
    ((u, s) ∈ mf_used_totp_steps m \/ s < cutoff T).

Lemma steps_inv_later T T' m m' acc :
  steps_inv T m acc -> T <= T' -> mf_totp_secrets m' = mf_totp_secrets m ->
  (forall u s, (u, s) ∈ mf_used_totp_steps m -> is_Some (mf_totp_secrets m !! u) ->
     (u, s) ∈ mf_used_totp_steps m' \/ s < cutoff T') ->
  steps_inv T' m' acc.
Proof.
  intros (Hu & Hn & Ha) HT Hs Hused. pose proof (cutoff_mono T T' HT).
  split; [by rewrite Hs|]. split; [done|]. intros u s Hin. rewrite Hs.
  destruct (Ha u s Hin) as [Hsome [Hd|Hd]]; (split; [done|]); [auto|right; lia].
Qed.

Lemma steps_inv_register T T' u c m acc :
  steps_inv T m acc -> T <= T' -> tc_period c = P -> tc_skew c = K ->
  steps_inv T' (set_secrets (<[u := c]> (mf_totp_secrets m)) m) acc.
Proof.
  intros (Hu & Hn & Ha) HT Hp Hk. pose proof (cutoff_mono T T' HT).
  split; [|split; [done|]].
  - intros u' c'. cbn. rewrite lookup_insert_Some. intros [[_ <-]|[_ ?]]; eauto.
  - intros u' s Hin. destruct (Ha u' s Hin) as [Hsome Hd]. cbn. split; [rewrite lookup_insert_is_Some'; tauto|].
    destruct Hd; [by left|right; lia].
Qed.

Lemma kept m now u s :
  (forall u c, mf_totp_secrets m !! u = Some c -> tc_period c = P /\ tc_skew c = K) ->
  is_Some (mf_totp_secrets m !! u) -> cutoff now <= s -> keep_step (mf_totp_secrets m) now (u, s) = true.
Proof.
  intros Hu [c Hc] Hs. destruct (Hu u c Hc). unfold keep_step. cbn. rewrite Hc.
  apply Z.leb_le. by rewrite prune_cutoff_uniform.
Qed.

Lemma steps_inv_sweep T now T' m m' acc :
  steps_inv T m acc -> T <= now <= T' -> prune_expired_totp_steps now m = COk m' -> steps_inv T' m' acc.
Proof.
  intros Hi Ht ->%prune_spec. pose proof Hi as (Hu & _). apply (steps_inv_later T T' m); [done|lia|done|].
  intros u s Hin Hsome. pose proof (cutoff_mono now T' ltac:(lia)). cbn.
  destruct (Z.le_gt_cases (cutoff now) s); [left|right; lia].
  apply elem_of_filter. auto using kept.
Qed.

Lemma steps_inv_consume T T' env user config code step m m1 acc :
  steps_inv T m acc -> T <= ve_now env <= ve_prune_now env -> ve_prune_now env <= T' ->
  mf_totp_secrets m !! user = Some config -> step_matches config code (ve_now env) step ->
  consume_step env user config step m = COk m1 -> steps_inv T' m1 (acc ++ [(user, step)]).
Proof.
  intros Hi Ht Ht' Hc [Hrange _] (Hfresh & (_ & _ & _ & Hsec & _) & _ & Hkeep)%consume_spec.
  pose proof Hi as (Hu & Hn & Ha). destruct (Hu user config Hc) as [Hp Hk].
  rewrite Hp, Hk in Hrange. unfold saturating_sub in Hrange. rewrite (prune_cutoff_uniform config) in Hkeep by done.
  pose proof (cutoff_mono (ve_now env) (ve_prune_now env) ltac:(lia)).
  pose proof (cutoff_mono (ve_prune_now env) T' ltac:(lia)).
  assert (steps_inv T' m1 acc) as (Hu' & _ & Ha').
  { apply (steps_inv_later T T' m); [done|lia|done|]. intros u s Hin Hsome.
    destruct (Z.le_gt_cases (cutoff (ve_prune_now env)) s); [left|right; lia].
    apply Hkeep; [set_solver|cbn; lia|by apply kept]. }
  split; [done|]. split.
  - apply NoDup_app. split; [done|]. split; [|apply NoDup_singleton].
    intros x Hin ->%list_elem_of_singleton. destruct (Ha _ _ Hin) as [_ [?|Hold]]; [done|].
    pose proof (cutoff_mono T (ve_now env) ltac:(lia)). unfold cutoff in *. lia.
  - intros u s [Hin|E%list_elem_of_singleton]%elem_of_app; [auto|]. injection E as -> ->.
    rewrite Hsec. split; [eauto|]. destruct (Z.le_gt_cases (cutoff (ve_prune_now env)) step); [left|right; lia].
    apply Hkeep; [set_solver|cbn; lia|apply kept; eauto].
Qed.

Lemma steps_inv_answer T T' env id session response m m' acc :
  steps_inv T m acc -> in_window T T' (Answer env id session response) ->
  exec (Answer env id session response) m = Some m' ->
  steps_inv T' m' (acc ++ option_list (accepted_step (Answer env id session response, m))).
Proof.
  intros Hi [Ht Ht'] He. cbn [exec] in He. unfold accepted_step.
  destruct (verify env id session response m) as [[res m1]| | |] eqn:Hv; try done. injection He as ->.
  apply verify_outcome in Hv. destruct Hv as [e m1 Hm|c Hc Hs Hx|c code config step m1 Hc Hs Hx Hty Hpa Hk Hst Hcs
    |c h Hc Hs Hx Hty Hh Heq]; cbn [option_list]; rewrite ?app_nil_r.
  - apply (steps_inv_later T T' m); [done|lia|by destruct Hm as [->| ->]|]. intros. left. by destruct Hm as [->| ->].
  - apply (steps_inv_later T T' m); [done|lia|done|]. auto.
  - rewrite Hc, Hty, Hpa, Hk, Hst. cbn [option_list].
    eapply (steps_inv_later T'); [eapply (steps_inv_consume T T'); eauto using matched_step_spec|lia|done|auto].
  - rewrite Hc, Hty. cbn [option_list]. rewrite app_nil_r. apply (steps_inv_later T T' m); [done|lia|done|]. auto.
Qed.

Lemma steps_inv_event T T' e m m' acc :
  steps_inv T m acc -> in_window T T' e -> uniform_event e -> exec e m = Some m' ->
  steps_inv T' m' (acc ++ option_list (accepted_step (e, m))).
Proof.
  intros Hi Ht Hue He.
  destruct e as [u sec|u c|env s u ty pin op|env id s r|now s|now s op|now];
    [..|by eapply steps_inv_answer| | |]; cbn [accepted_step option_list]; rewrite app_nil_r; cbn [in_window uniform_event exec] in Ht, Hue, He.
  - injection He as <-. unfold register_totp_secret, TotpConfig_new.
    destruct (base32_decode sec); cbn; [|by apply (steps_inv_later T T' m); auto].
    destruct Hue. by apply (steps_inv_register T).
  - injection He as <-. unfold register_totp_config. case_if; cbn; [by apply (steps_inv_later T T' m); auto|].
    destruct Hue. by apply (steps_inv_register T).
  - destruct (issue_challenge_for _ _ _ _ _ _ _) as [[c m1]| | |] eqn:Hiss; try done. injection He as <-.
    apply issue_spec in Hiss as (mono & _ & _ & ->). apply (steps_inv_later T T' m); [done|lia|done|]. auto.
  - injection He as <-. destruct (evict_challenges_frame now m) as (Hu & Hs & _).
    apply (steps_inv_later T T' m); [done|lia|done|]. intros. left. cbn. by rewrite Hu.
  - injection He as <-. destruct (evict_challenges_frame now m) as (Hu & Hs & _).
    apply (steps_inv_later T T' m); [done|lia|done|]. intros. left. cbn. by rewrite Hu.
  - destruct (prune_expired_totp_steps now m) as [m1| | |] eqn:Hp; try done. injection He as <-.
    by eapply steps_inv_sweep.
Qed.

(** C25: no code is accepted twice: over every run in which all users have the same period and
    skew and the wall clock does not run backwards, no time step of a user is accepted
    twice, whatever sessions present it and however the used steps are pruned. *)
Theorem totp_single_use m h T :
  mfa_run m h -> in_order h T -> Forall (fun em => uniform_event em.1) h -> NoDup (omap accepted_step h).
Proof.
  intros Hr Ho Hu. enough (steps_inv T m (omap accepted_step h)) as (_ & ? & _) by done.
  revert T Ho Hu. induction Hr as [timeout cached|m h e m' Hr IH He]; intros T Ho Hu.
  { split; [by intros u c|]. split; [constructor|]. by intros u s ?%elem_of_nil. }
  apply in_order_snoc_inv in Ho as (T0 & Ho & Hw). apply Forall_app in Hu as [Hu [Hue _]%Forall_cons].
  rewrite omap_app. change (omap accepted_step [(e, m)]) with (match accepted_step (e, m) with Some x => [x] | None => [] end).
  replace (match accepted_step (e, m) with Some x => [x] | None => [] end) with (option_list (accepted_step (e, m)))
    by (by destruct (accepted_step (e, m))).
  eapply steps_inv_event; eauto.
Qed.

End SingleUse.

(** ** The gates open only after a correct answer *)

Lemma foldl_remove_subseteq {A} `{Countable A} (keep : A -> bool) (l : list A) (X : gset A) :
  foldl (fun s x => if keep x then s else s ∖ {[x]}) X l ⊆ X.
Proof.
  revert X. induction l as [|x l IH]; intros X; [done|]. cbn [foldl].
  etrans; [apply IH|]. destruct (keep x); set_solver.
Qed.

Lemma evict_pop_subseteq now heap chs ss os heap' chs' ss' os' :
  evict_pop now heap chs ss os = (heap', chs', ss', os') -> chs' ⊆ chs.
Proof.
  revert chs ss os. induction heap as [|[e id] heap IH]; intros chs ss os H; cbn [evict_pop] in H.
  { by injection H as <- <- <- <-. }
  repeat (case_if || case_match); try (by injection H as <- <- <- <-); apply IH in H; try done;
    (etrans; [done|apply delete_subseteq]).
Qed.

Lemma evict_subseteq now m :
  let m' := evict_expired_challenges now m in
  mf_challenges m' ⊆ mf_challenges m /\ mf_completed_sessions m' ⊆ mf_completed_sessions m /\
  mf_completed_ops m' ⊆ mf_completed_ops m.
Proof.
  unfold evict_expired_challenges. destruct (evict_pop _ _ _ _ _) as [[[heap chs] ss] os] eqn:E.
  apply evict_pop_subseteq in E. split; [done|]. split; apply foldl_remove_subseteq.
Qed.

(** A challenge before it was answered. *)
Definition unanswered (c : MfaChallenge) : MfaChallenge :=
  mkChallenge (ch_id c) (ch_session_handle c) (ch_user_id c) (ch_challenge_type c) (ch_created_at c)
    (ch_expires_at c) (ch_expires_at_mono c) false (ch_expected_pin_hash c) (ch_salt c)
    (ch_bound_operation c).

(** The response to a challenge is right: a fresh code of the acceptance window of the
    user's secret, or the PIN (up to a collision of PBKDF2). *)
Definition correct_response (env : VerifyEnv) (response : list byte) (m : MfaManager)
    (user : string) (type : MfaChallengeType) (pin : option (list byte)) (salt : list byte) : Prop :=
  match type with
  | Totp => exists code config step, parse_u32 response = Some code /\
      mf_totp_secrets m !! user = Some config /\ step_matches config code (ve_now env) step /\
      (user, step) ∉ mf_used_totp_steps m
  | ReenterPin => exists p iterations, pin = Some p /\ iterations <> 0 /\
      pbkdf2_hmac_sha256 response salt iterations = pbkdf2_hmac_sha256 p salt iterations
  end.

(** In the history [h] a challenge for the session and the operation was issued and
    answered correctly, in that session and before its deadline. *)
Definition answered (h : list (mfa_event * MfaManager)) (session : Z) (op : option string) : Prop :=
  exists env response m0 ienv user type pin m1 mono,
    (Issue ienv session user type pin op, m1) ∈ h /\
    (Answer env (hex_encode (ie_id_bytes ienv)) session response, m0) ∈ h /\
    instant_add_secs (ie_mono ienv) (mf_timeout_secs m1) = Some mono /\ ve_mono env < mono /\
    correct_response env response m0 user type pin (ie_salt ienv).

Lemma answered_later h x session op : answered h session op -> answered (h ++ [x]) session op.
Proof.
  intros (env & r & m0 & ienv & u & ty & pin & m1 & mono & H1 & H2 & H3).
  exists env, r, m0, ienv, u, ty, pin, m1, mono. rewrite !elem_of_app. tauto.
Qed.

Record gate_inv (m : MfaManager) (h : list (mfa_event * MfaManager)) : Prop := {
  gi_issued : forall id c, mf_challenges m !! id = Some c ->
    id = ch_id c /\ exists env session user type pin op m1 mono,
      (Issue env session user type pin op, m1) ∈ h /\
      instant_add_secs (ie_mono env) (mf_timeout_secs m1) = Some mono /\
      unanswered c = issued env session user type pin op m1 mono;
  gi_iterations : forall env session user p op m1,
    (Issue env session user ReenterPin (Some p) op, m1) ∈ h ->
    mf_cached_iterations m <> 0 /\
    (pbkdf2_iterations (ie_var env) (mf_cached_iterations m1)).1 = mf_cached_iterations m;
  gi_ops : forall session op, (session, op) ∈ mf_completed_ops m -> answered h session (Some op);
  gi_sessions : forall session, session ∈ mf_completed_sessions m -> exists op, answered h session op;
}.

Lemma iterations_nonzero var cached : (pbkdf2_iterations var cached).1 <> 0.
Proof.
  unfold pbkdf2_iterations. destruct (Z.eqb_spec cached 0); [|done]. cbn.
  destruct var as [s|]; [|done]. destruct (parse_u32 _) as [n|]; [|done].
  destruct (Z.leb_spec MIN_PBKDF2_ITERATIONS n); [|done]. unfold MIN_PBKDF2_ITERATIONS in *. lia.
Qed.

Lemma iterations_cached var cached : cached <> 0 -> pbkdf2_iterations var cached = (cached, cached).
Proof. intros H. unfold pbkdf2_iterations. by apply Z.eqb_neq in H as ->. Qed.

Lemma iterations_same var cached :
  (pbkdf2_iterations var cached).1 = (pbkdf2_iterations var cached).2.
Proof. unfold pbkdf2_iterations. by destruct (cached =? 0). Qed.

(** A later state with no new challenges, completions or iteration count. *)
Lemma gate_inv_shrink m m' h x :
  gate_inv m h -> mf_challenges m' ⊆ mf_challenges m -> mf_completed_sessions m' ⊆ mf_completed_sessions m ->
  mf_completed_ops m' ⊆ mf_completed_ops m ->
  (mf_cached_iterations m <> 0 -> mf_cached_iterations m' = mf_cached_iterations m) ->
  (forall env session user p op, x.1 <> Issue env session user ReenterPin (Some p) op) ->
  gate_inv m' (h ++ [x]).
Proof.
  intros [Hi Hit Ho Hs] Hc Hcs Hco Hcached Hx. split.
  - intros id c Hl. destruct (Hi id c) as (-> & env & s & u & ty & pin & op & m1 & mono & H1 & H2);
      [by eapply lookup_weaken|]. split; [done|]. exists env, s, u, ty, pin, op, m1, mono. rewrite elem_of_app. tauto.
  - intros env s u p op m1 [Hin|E%list_elem_of_singleton]%elem_of_app; [|by destruct (Hx env s u p op); rewrite <- E].
    destruct (Hit _ _ _ _ _ _ Hin) as [Hne He]. rewrite Hcached by done. done.
  - intros s op Hin. apply answered_later. auto.
  - intros s Hin. destruct (Hs s) as [op Hop]; [auto|]. exists op. by apply answered_later.
Qed.

Lemma gate_inv_issue env s u ty pin op m h c m' :
  gate_inv m h -> issue_challenge_for env s u ty pin op m = COk (c, m') ->
  gate_inv m' (h ++ [(Issue env s u ty pin op, m)]).
Proof.
  intros [Hi Hit Ho Hs] (mono & Hm & -> & ->)%issue_spec. split; cbn.
  - intros id c. rewrite lookup_insert_Some. intros [[<- <-]|[_ Hl]].
    + split; [done|]. exists env, s, u, ty, pin, op, m, mono. rewrite elem_of_app, list_elem_of_singleton. auto.
    + destruct (Hi id c Hl) as (-> & env0 & s0 & u0 & ty0 & pin0 & op0 & m1 & mono0 & H1 & H2). split; [done|].
      exists env0, s0, u0, ty0, pin0, op0, m1, mono0. rewrite elem_of_app. tauto.
  - intros env0 s0 u0 p op0 m1 [Hin|E%list_elem_of_singleton]%elem_of_app.
    + destruct (Hit _ _ _ _ _ _ Hin) as [Hne He]. unfold issue_cached.
      destruct ty, pin; try done. by rewrite iterations_cached.
    + injection E as ? ? ? ? ? ? ?; subst. cbn. rewrite <- iterations_same. split; [apply iterations_nonzero|done].
  - intros s0 op0 Hin. apply answered_later. auto.
  - intros s0 Hin. destruct (Hs s0 Hin) as [op0 ?]. exists op0. by apply answered_later.
Qed.

(** Marking a challenge whose answer, the last event, was correct. *)
Lemma gate_inv_complete env id response m h c m1 :
  gate_inv m h -> mf_challenges m !! id = Some c -> ve_mono env < ch_expires_at_mono c ->
  mf_challenges m1 = mf_challenges m -> mf_completed_sessions m1 = mf_completed_sessions m ->
  mf_completed_ops m1 = mf_completed_ops m ->
  (mf_cached_iterations m <> 0 -> mf_cached_iterations m1 = mf_cached_iterations m) ->
  (forall ienv s u ty pin op m0 mono, (Issue ienv s u ty pin op, m0) ∈ h ->
     unanswered c = issued ienv s u ty pin op m0 mono ->
     correct_response env response m u ty pin (ie_salt ienv)) ->
  gate_inv (mark_completed id c m1) (h ++ [(Answer env id (ch_session_handle c) response, m)]).
Proof.
  intros Hg Hc Hx Hcs Hss Hos Hcached Hok. set (x := (Answer env id (ch_session_handle c) response, m)).
  assert (gate_inv m1 (h ++ [x])) as [Hi Hit Ho Hs].
  { apply (gate_inv_shrink m); rewrite ?Hcs, ?Hss, ?Hos; done. }
  destruct (gi_issued _ _ Hg id c Hc) as (Hid & ienv & s & u & ty & pin & op & m0 & mono & Hin & Hmono & Heq).
  assert (answered (h ++ [x]) (ch_session_handle c) (ch_bound_operation c)) as Hans.
  { exists env, response, m, ienv, u, ty, pin, m0, mono.
    pose proof (Hok _ _ _ _ _ _ _ _ Hin Heq).
    injection Heq as He1 He2 He3 He4 He5 He6 He7 He8 He9 He10.
    rewrite He2, He10, !elem_of_app, !list_elem_of_singleton. subst x. split; [by left|]. split; [right; congruence|].
    split; [done|]. split; [lia|done]. }
  split; cbn.
  - intros id' c'. rewrite lookup_insert_Some. intros [[<- <-]|[_ Hl]]; [|auto].
    destruct (Hi id c) as [_ Hrest]; [by rewrite Hcs|]. auto.
  - done.
  - intros s' op'. destruct (ch_bound_operation c) as [op0|]; [|auto].
    intros [E%elem_of_singleton|?]%elem_of_union; [|auto]. by injection E as -> ->.
  - intros s' [->%elem_of_singleton|?]%elem_of_union; eauto.
Qed.

Lemma gate_inv_answer env id s response m h m' :
  gate_inv m h -> exec (Answer env id s response) m = Some m' ->
  gate_inv m' (h ++ [(Answer env id s response, m)]).
Proof.
  intros Hg He. cbn [exec] in He. destruct (verify env id s response m) as [[res m2]| | |] eqn:Hv; try done.
  injection He as ->. apply verify_outcome in Hv.
  destruct Hv as [e m2 Hm|c Hc <- Hx|c code config step m1 Hc <- Hx Hty Hpa Hk Hst Hcs|c ph Hc <- Hx Hty Hh Heq].
  - apply (gate_inv_shrink m); try done; destruct Hm as [->| ->]; try done. cbn. intros. by rewrite iterations_cached.
  - apply (gate_inv_shrink m); try done. apply delete_subseteq.
  - apply consume_spec in Hcs as (Hfresh & (H1 & H2 & H3 & _ & _ & H6) & _).
    apply gate_inv_complete; try done. intros ienv s u ty pin op m0 mono _ E.
    injection E as E1 E2 E3 E4. rewrite Hty in E4. subst ty. rewrite <- E3.
    exists code, config, step. auto using matched_step_spec.
  - apply gate_inv_complete; try done; [cbn; intros; by rewrite iterations_cached|].
    intros ienv s u ty pin op m0 mono Hin E. injection E as E1 E2 E3 E4 E5 E6 E7 E8 E9 E10.
    rewrite Hty in E4. subst ty. rewrite Hh in E8. destruct pin as [p|]; [|done].
    destruct (gi_iterations _ _ Hg _ _ _ _ _ _ Hin) as [Hne Hit].
    exists p, (mf_cached_iterations m). split; [done|]. split; [done|].
    injection E8 as E8. unfold hash_pin in E8, Heq. rewrite iterations_cached in Heq by done. cbn in Heq.
    destruct (pbkdf2_iterations (ie_var ienv) (mf_cached_iterations m0)) as [it x]. cbn in E8, Hit. congruence.
Qed.

Lemma gate_inv_run m h : mfa_run m h -> gate_inv m h.
Proof.
  induction 1 as [timeout cached|m h e m' Hr IH He].
  { split; [by intros id c|by intros ? ? ? ? ? ? ?%elem_of_nil|set_solver|set_solver]. }
  destruct e as [u sec|u c|env s u ty pin op|env id s r|now s|now s op|now];
    [| | |by eapply gate_inv_answer| | |]; cbn [exec] in He.
  - injection He as <-. unfold register_totp_secret. destruct (TotpConfig_new sec); by apply (gate_inv_shrink m).
  - injection He as <-. unfold register_totp_config. case_if; by apply (gate_inv_shrink m).
  - destruct (issue_challenge_for _ _ _ _ _ _ _) as [[c m1]| | |] eqn:Hiss; try done. injection He as <-.
    by eapply gate_inv_issue.
  - injection He as <-. destruct (evict_subseteq now m) as (? & ? & ?). destruct (evict_challenges_frame now m) as (_ & _ & ?).
    by apply (gate_inv_shrink m).
  - injection He as <-. destruct (evict_subseteq now m) as (? & ? & ?). destruct (evict_challenges_frame now m) as (_ & _ & ?).
    by apply (gate_inv_shrink m).
  - destruct (prune_expired_totp_steps now m) as [m1| | |] eqn:Hp; try done. injection He as <-.
    apply prune_spec in Hp as ->. by apply (gate_inv_shrink m).
Qed.

Lemma gate_session_sound m h now session :
  mfa_run m h -> (has_completed_challenge now session m).1 = true -> exists op, answered h session op.
Proof.
  intros [_ _ Ho Hs]%gate_inv_run. destruct (evict_subseteq now m) as (_ & Hes & Heo).
  cbn. intros H%bool_decide_eq_true. auto.
Qed.

(** C10: the gates are sound: over every run, a session is reported to have completed a
    challenge for an operation only if a challenge for exactly this session and operation was
    issued and answered in this session before its deadline, with a fresh code of the
    user's secret or with the PIN; and a session is reported to have completed some challenge
    only if one of its challenges was answered so. *)
Theorem mfa_gate_sound m h now session op :
  mfa_run m h ->
  ((has_completed_challenge_for now session op m).1 = true -> answered h session (Some op)) /\
  ((has_completed_challenge now session m).1 = true -> exists op', answered h session op').
Proof.
  intros Hrun. split; [|by apply gate_session_sound]. apply gate_inv_run in Hrun as [_ _ Ho Hs].
  destruct (evict_subseteq now m) as (_ & Hes & Heo). cbn. intros H%bool_decide_eq_true. auto.
Qed.

(** ** Approvals end *)

Definition heap_sorted (heap : list (Z * string)) : Prop := StronglySorted (fun a b => a.1 <= b.1) heap.

Lemma elem_of_heap_push x y heap : y ∈ heap_push x heap <-> y = x \/ y ∈ heap.
Proof.
  induction heap as [|z heap IH]; cbn [heap_push]; [set_solver|].
  case_if; [set_solver|]. rewrite !elem_of_cons, IH. tauto.
Qed.

Lemma heap_push_sorted x heap : heap_sorted heap -> heap_sorted (heap_push x heap).
Proof.
  unfold heap_sorted. induction 1 as [|y heap Hs IH Hy]; cbn [heap_push]; [repeat constructor|].
  unfold heap_before. case_if.
  - assert (x.1 <= y.1) by (apply orb_true_iff in E as [?|?]; bool_to_prop; lia).
    constructor; [by constructor|]. constructor; [done|]. eapply Forall_impl; [done|]. cbn. lia.
  - constructor; [done|]. apply Forall_forall. intros z [->|Hz]%elem_of_heap_push; [bool_to_prop; lia|].
    rewrite Forall_forall in Hy. auto.
Qed.

(** What happens to a challenge in the loop: it stays, or it is removed and, if it was
    completed, its session and operation are collected. *)
Definition collected (ss : list Z) (os : list (Z * string)) (c : MfaChallenge) : Prop :=
  ch_completed c = true -> ch_session_handle c ∈ ss /\
    forall op, ch_bound_operation c = Some op -> (ch_session_handle c, op) ∈ os.

Definition fate (now : Z) (heap : list (Z * string)) (chs' : gmap string MfaChallenge) (ss' : list Z)
    (os' : list (Z * string)) (id : string) (c : MfaChallenge) : Prop :=
  (chs' !! id = Some c /\ ((ch_expires_at c, id) ∈ heap -> now < ch_expires_at c)) \/
  (chs' !! id = None /\ collected ss' os' c).

Definition evict_result (now : Z) (heap : list (Z * string)) (chs : gmap string MfaChallenge)
    (ss : list Z) (os : list (Z * string))
    (r : list (Z * string) * gmap string MfaChallenge * list Z * list (Z * string)) : Prop :=
  let '(heap', chs', ss', os') := r in
  heap_sorted heap' /\ (forall x, x ∈ heap -> now < x.1 -> x ∈ heap') /\ ss ⊆ ss' /\ os ⊆ os' /\ chs' ⊆ chs /\
  forall id c, chs !! id = Some c -> fate now heap chs' ss' os' id c.

(** One entry popped: its challenge stays because it expires later, or is removed. *)
Lemma evict_result_pop now e id0 heap chs ss os chs1 ss1 os1 r :
  evict_result now heap chs1 ss1 os1 r -> e <= now -> ss ⊆ ss1 -> os ⊆ os1 -> chs1 ⊆ chs ->
  (forall id c, chs !! id = Some c -> id <> id0 -> chs1 !! id = Some c) ->
  (forall c, chs !! id0 = Some c -> (chs1 !! id0 = Some c /\ now < ch_expires_at c) \/
     (chs1 !! id0 = None /\ collected ss1 os1 c)) ->
  evict_result now ((e, id0) :: heap) chs ss os r.
Proof.
  destruct r as [[[heap' chs'] ss'] os']. intros (Hs' & Hk & Hss' & Hos' & Hsub & Hall) He Hss Hos Hchs Hother Hid0.
  split; [done|]. split; [intros x [->|?]%elem_of_cons; [cbn; lia|auto]|].
  split; [by etrans|]. split; [by etrans|]. split; [by etrans|]. intros id c Hc. destruct (decide (id = id0)) as [->|Hne].
  - destruct (Hid0 c Hc) as [[H1 Hnow]|[H1 Hcol]].
    + destruct (Hall id0 c H1) as [[? _]|?]; [by left|by right].
    + right. split; [by eapply lookup_weaken_None|]. intros Hcp. destruct (Hcol Hcp) as [? Hop].
      split; [by apply Hss'|]. intros op Hb. by apply Hos', Hop.
  - destruct (Hall id c (Hother id c Hc Hne)) as [[? Hh]|?]; [left|by right].
    split; [done|]. intros [E|?]%elem_of_cons; [by injection E as _ ->|auto].
Qed.

Lemma evict_pop_spec now heap chs ss os :
  heap_sorted heap -> evict_result now heap chs ss os (evict_pop now heap chs ss os).
Proof.
  intros Hsort. revert chs ss os. induction Hsort as [|[e id0] heap Hsort IH Hhd]; intros chs ss os; cbn [evict_pop].
  { repeat split; try done; [constructor|]. intros id c Hc. left. split; [done|]. by intros ?%elem_of_nil. }
  destruct (Z.ltb_spec now e) as [He|He].
  { rewrite Forall_forall in Hhd. repeat split; try done; [by constructor; [|apply Forall_forall]|].
    intros id c Hc. left. split; [done|]. intros [E|Hin]%elem_of_cons; [injection E as <- <-; lia|].
    apply Hhd in Hin. cbn in Hin. lia. }
  destruct (chs !! id0) as [c0|] eqn:Hc0; [|by eapply evict_result_pop; eauto; intros c ?; simplify_eq].
  destruct (Z.leb_spec (ch_expires_at c0) now) as [Hx|Hx];
    [|eapply evict_result_pop; eauto; intros c ?; simplify_eq; by left].
  assert (forall id c, chs !! id = Some c -> id <> id0 -> delete id0 chs !! id = Some c) as Hother
    by (intros id c Hc Hne; by rewrite lookup_delete_ne).
  destruct (ch_completed c0) eqn:Hcp;
    (eapply evict_result_pop; [by apply IH|lia|try done|try done|apply delete_subseteq|done|]); [set_solver|destruct (ch_bound_operation c0); set_solver|..].
  - intros c ?. simplify_eq. right. rewrite lookup_delete_eq. split; [done|]. intros _. split; [set_solver|].
    intros op ->. set_solver.
  - intros c ?. simplify_eq. right. rewrite lookup_delete_eq. split; [done|]. intros ?. congruence.
Qed.

(** Every approval is backed by a completed challenge, and every challenge by an entry of
    the heap. *)
Record expiry_inv (m : MfaManager) : Prop := {
  xi_sorted : heap_sorted (mf_expiry_heap m);
  xi_heap : forall id c, mf_challenges m !! id = Some c -> (ch_expires_at c, id) ∈ mf_expiry_heap m;
  xi_sessions : forall s, s ∈ mf_completed_sessions m -> exists id c,
    mf_challenges m !! id = Some c /\ ch_session_handle c = s /\ ch_completed c = true;
  xi_ops : forall s op, (s, op) ∈ mf_completed_ops m -> exists id c,
    mf_challenges m !! id = Some c /\ ch_session_handle c = s /\ ch_completed c = true /\
    ch_bound_operation c = Some op;
}.

Lemma any_challenge_true p chs :
  any_challenge p chs = true <-> exists id c, chs !! id = Some c /\ p c = true.
Proof.
  unfold any_challenge. rewrite existsb_exists. split.
  - intros ([id c] & Hin & Hp). exists id, c. split; [|done]. by apply elem_of_map_to_list, list_elem_of_In.
  - intros (id & c & Hc & Hp). exists (id, c). split; [|done]. by apply list_elem_of_In, elem_of_map_to_list.
Qed.

Lemma foldl_remove_spec {A} `{Countable A} (keep : A -> bool) (l : list A) (X : gset A) x :
  x ∈ foldl (fun s y => if keep y then s else s ∖ {[y]}) X l -> x ∈ X /\ (x ∈ l -> keep x = true).
Proof.
  revert X. induction l as [|y l IH]; intros X Hx; cbn [foldl] in Hx; [set_solver|].
  apply IH in Hx as [Hx Hl]. destruct (keep y) eqn:Hk; [|set_solver].
  split; [done|]. intros [->|?]%elem_of_cons; auto.
Qed.

(** A challenge that justifies an approval at time [now]. *)
Definition live (now s : Z) (op : option string) (m : MfaManager) : Prop :=
  exists id c, mf_challenges m !! id = Some c /\ ch_session_handle c = s /\ ch_completed c = true /\
    now < ch_expires_at c /\ (forall o, op = Some o -> ch_bound_operation c = Some o).

Lemma evict_live now m :
  expiry_inv m -> let m' := evict_expired_challenges now m in
  expiry_inv m' /\ (forall s, s ∈ mf_completed_sessions m' -> live now s None m') /\
  (forall s op, (s, op) ∈ mf_completed_ops m' -> live now s (Some op) m').
Proof.
  intros [Hsort Hheap Hses Hops] m'.
  assert ((forall s, s ∈ mf_completed_sessions m' -> live now s None m') /\
    (forall s op, (s, op) ∈ mf_completed_ops m' -> live now s (Some op) m') /\
    heap_sorted (mf_expiry_heap m') /\
    (forall id c, mf_challenges m' !! id = Some c -> (ch_expires_at c, id) ∈ mf_expiry_heap m')) as (H1 & H2 & H3 & H4).
  { subst m'. unfold evict_expired_challenges.
    pose proof (evict_pop_spec now (mf_expiry_heap m) (mf_challenges m) [] [] Hsort) as Hr.
    destruct (evict_pop _ _ _ _ _) as [[[heap chs] ss] os]. destruct Hr as (Hs' & Hk & _ & _ & Hsub & Hfate).
    repeat split; cbn; [| |done|].
    - intros s [(id & c & Hc & <- & Hcp)%Hses Hkeep]%foldl_remove_spec.
      destruct (Hfate id c Hc) as [[Hin Hnow]|[_ Hcol]]; [exists id, c; cbn; repeat split; auto; by intros o|].
      destruct (Hcol Hcp) as [Hin _]. apply Hkeep, any_challenge_true in Hin as (id' & c' & Hc' & Ha).
      unfold active_session in Ha. bool_to_prop. exists id', c'. cbn. repeat split; auto. by intros o.
    - intros s op [(id & c & Hc & <- & Hcp & Hb)%Hops Hkeep]%foldl_remove_spec.
      destruct (Hfate id c Hc) as [[Hin Hnow]|[_ Hcol]].
      { exists id, c. cbn. repeat split; auto. by intros o [= <-]. }
      destruct (Hcol Hcp) as [_ Hin]. specialize (Hin op Hb).
      apply Hkeep, any_challenge_true in Hin as (id' & c' & Hc' & Ha).
      unfold active_op, active_session in Ha. bool_to_prop. exists id', c'. cbn. repeat split; auto. by intros o [= <-].
    - intros id c Hc. pose proof (lookup_weaken _ _ _ _ Hc Hsub) as Hc0.
      destruct (Hfate id c Hc0) as [[_ Hnow]|[Hn _]]; [|congruence]. apply Hk; [by apply Hheap|by apply Hnow, Hheap]. }
  split; [|done]. split; [done|done| |].
  - intros s Hs. destruct (H1 s Hs) as (id & c & ? & ? & ? & _). eauto.
  - intros s op Hs. destruct (H2 s op Hs) as (id & c & ? & ? & ? & _ & Hb). exists id, c. auto.
Qed.

(** The identifier of a new challenge is not in use, and no completed challenge is answered
    again after its deadline. *)
Definition careful (em : mfa_event * MfaManager) : Prop :=
  match em with
  | (Issue env _ _ _ _ _, m) => mf_challenges m !! hex_encode (ie_id_bytes env) = None
  | (Answer env id _ _, m) => forall c, mf_challenges m !! id = Some c -> ch_completed c = true ->
      ve_mono env < ch_expires_at_mono c
  | _ => True
  end.

Lemma expiry_inv_map m m' :
  expiry_inv m -> heap_sorted (mf_expiry_heap m') ->
  (forall id c, mf_challenges m' !! id = Some c -> (ch_expires_at c, id) ∈ mf_expiry_heap m') ->
  (forall id c, mf_challenges m !! id = Some c -> ch_completed c = true -> exists c',
     mf_challenges m' !! id = Some c' /\ ch_session_handle c' = ch_session_handle c /\
     ch_completed c' = true /\ ch_bound_operation c' = ch_bound_operation c) ->
  mf_completed_sessions m' = mf_completed_sessions m -> mf_completed_ops m' = mf_completed_ops m ->
  expiry_inv m'.
Proof.
  intros [_ _ Hses Hops] Hs Hheap Hkeep Es Eo. split; [done|done| |].
  - rewrite Es. intros s Hin. destruct (Hses s Hin) as (id & c & Hc & <- & Hcp).
    destruct (Hkeep id c Hc Hcp) as (c' & ? & ? & ? & ?). eauto.
  - rewrite Eo. intros s op Hin. destruct (Hops s op Hin) as (id & c & Hc & <- & Hcp & Hb).
    destruct (Hkeep id c Hc Hcp) as (c' & ? & ? & ? & ?). exists id, c'. repeat split; congruence.
Qed.

Lemma expiry_inv_complete m id c :
  expiry_inv m -> mf_challenges m !! id = Some c -> expiry_inv (mark_completed id c m).
Proof.
  intros Hi Hc. pose proof Hi as [Hs Hh Hses Hops].
  set (m1 := set_challenges (<[id := set_completed c]> (mf_challenges m)) m).
  assert (expiry_inv m1) as [_ Hh1 Hses1 Hops1].
  { apply (expiry_inv_map m); try done; cbn.
    - intros id' c'. rewrite lookup_insert_Some. intros [[<- <-]|[_ ?]]; [exact (Hh id c Hc)|auto].
    - intros id' c' Hc' Hcp. destruct (decide (id = id')) as [<-|Hne];
        [rewrite lookup_insert_eq; simplify_eq; eauto 6|].
      rewrite lookup_insert_ne by done. eauto. }
  assert (mf_challenges m1 !! id = Some (set_completed c)) as Hid by (cbn; by rewrite lookup_insert_eq).
  split; [done|done| |].
  - intros s [->%elem_of_singleton|?]%elem_of_union; [by exists id, (set_completed c)|]. auto.
  - intros s op. cbn. destruct (ch_bound_operation c) as [op0|] eqn:Hb; [|apply Hops1].
    intros [E%elem_of_singleton|?]%elem_of_union; [|auto]. injection E as -> ->. exists id, (set_completed c). auto.
Qed.

Lemma expiry_inv_event e m m' :
  expiry_inv m -> careful (e, m) -> exec e m = Some m' -> expiry_inv m'.
Proof.
  intros Hi Hcare He. pose proof Hi as [Hs Hh _ _].
  assert (forall m2, mf_challenges m2 = mf_challenges m -> mf_expiry_heap m2 = mf_expiry_heap m ->
    mf_completed_sessions m2 = mf_completed_sessions m -> mf_completed_ops m2 = mf_completed_ops m ->
    expiry_inv m2) as Hsame.
  { intros m2 H1 H2 H3 H4. apply (expiry_inv_map m); rewrite ?H1, ?H2; eauto. }
  destruct e as [u sec|u c|env s u ty pin op|env id s r|now s|now s op|now]; cbn [exec careful] in He, Hcare.
  - injection He as <-. unfold register_totp_secret. destruct (TotpConfig_new sec); by apply Hsame.
  - injection He as <-. unfold register_totp_config. case_if; by apply Hsame.
  - destruct (issue_challenge_for _ _ _ _ _ _ _) as [[c m1]| | |] eqn:Hiss; try done. injection He as <-.
    apply issue_spec in Hiss as (mono & _ & -> & ->). apply (expiry_inv_map m); try done; cbn.
    + by apply heap_push_sorted.
    + intros id c. rewrite elem_of_heap_push, lookup_insert_Some. intros [[<- <-]|[_ ?]]; auto.
    + intros id c Hc Hcp. rewrite lookup_insert_ne by congruence. eauto.
  - destruct (verify env id s r m) as [[res m2]| | |] eqn:Hv; try done. injection He as ->. apply verify_outcome in Hv.
    destruct Hv as [e m2 Hm|c Hc <- Hx|c code config step m1 Hc <- Hx Hty Hpa Hk Hst Hcs|c ph Hc <- Hx Hty Hhash Heq].
    + destruct Hm as [->| ->]; by apply Hsame.
    + apply (expiry_inv_map m); try done; cbn.
      * intros id' c'. rewrite lookup_delete_Some. intros [_ ?]. auto.
      * intros id' c' Hc' Hcp. rewrite lookup_delete_ne; [eauto|]. intros <-. pose proof (Hcare c' Hc' Hcp).
        simplify_eq. lia.
    + apply consume_spec in Hcs as (_ & (H1 & H2 & H3 & _ & H5 & _) & _).
      apply expiry_inv_complete; [by apply Hsame|by rewrite H1].
    + apply expiry_inv_complete; [by apply Hsame|done].
  - injection He as <-. by apply evict_live.
  - injection He as <-. by apply evict_live.
  - destruct (prune_expired_totp_steps now m) as [m1| | |] eqn:Hp; try done. injection He as <-.
    apply prune_spec in Hp as ->. by apply Hsame.
Qed.

(** An approval ends with its challenge: over every run in which identifiers are not reused
    and no completed challenge is answered after its deadline, a session is reported to have
    completed a challenge (for an operation) at a time only if it has a completed challenge (for
    that operation) that expires later than that time. *)
Theorem approval_ends m h now session op :
  mfa_run m h -> Forall careful h ->
  ((has_completed_challenge now session m).1 = true -> live now session None m) /\
  ((has_completed_challenge_for now session op m).1 = true -> live now session (Some op) m).
Proof.
  intros Hr Hc.
  assert (expiry_inv m) as Hi.
  { induction Hr as [timeout cached|m h e m' Hr IH He]; [by split; [constructor|intros id c; done|set_solver..]|].
    apply Forall_app in Hc as [Hc [Hce _]%Forall_cons]. by eapply expiry_inv_event; eauto. }
  destruct (evict_live now m Hi) as (_ & H1 & H2). destruct (evict_subseteq now m) as (Hsub & _).
  split; cbn; intros H%bool_decide_eq_true; [apply H1 in H|apply H2 in H];
    destruct H as (id & c & Hl & ?); exists id, c; (split; [by eapply lookup_weaken|done]).
Qed.

(** ** An approval that does not end *)

Lemma evict_pop_sessions now heap chs ss os heap' chs' ss' os' s :
  evict_pop now heap chs ss os = (heap', chs', ss', os') -> s ∈ ss' ->
  s ∈ ss \/ exists id c, chs !! id = Some c /\ ch_session_handle c = s.
Proof.
  revert chs ss os. induction heap as [|[e id0] heap IH]; intros chs ss os H Hs; cbn [evict_pop] in H.
  { injection H as <- <- <- <-. by left. }
  destruct (now <? e); [injection H as <- <- <- <-; by left|].
  destruct (chs !! id0) as [c0|] eqn:Hc0; [|by eapply IH].
  assert (forall P : Prop, (exists id c, delete id0 chs !! id = Some c /\ ch_session_handle c = s) ->
    P \/ exists id c, chs !! id = Some c /\ ch_session_handle c = s) as Hdel.
  { intros P (id & c & [_ Hc]%lookup_delete_Some & Hses). eauto. }
  destruct (ch_expires_at c0 <=? now); [|by eapply IH].
  destruct (ch_completed c0); apply IH in H as [Hin|?]; auto.
  apply elem_of_app in Hin as [?| ->%list_elem_of_singleton]; eauto.
Qed.

Lemma foldl_remove_keeps {A} `{Countable A} (keep : A -> bool) (l : list A) (X : gset A) x :
  x ∈ X -> x ∉ l -> x ∈ foldl (fun s y => if keep y then s else s ∖ {[y]}) X l.
Proof.
  revert X. induction l as [|y l IH]; intros X Hx Hl; cbn [foldl]; [done|].
  apply IH; [destruct (keep y)|]; set_solver.
Qed.

(** An approved session without challenges. *)
Definition orphaned (s : Z) (m : MfaManager) : Prop :=
  s ∈ mf_completed_sessions m /\ forall id c, mf_challenges m !! id = Some c -> ch_session_handle c <> s.

Lemma orphaned_evict s now m : orphaned s m -> orphaned s (evict_expired_challenges now m).
Proof.
  intros [Hs Hno]. destruct (evict_subseteq now m) as (Hsub & _). split.
  - unfold evict_expired_challenges. destruct (evict_pop _ _ _ _ _) as [[[heap chs] ss] os] eqn:E. cbn.
    apply foldl_remove_keeps; [done|]. intros Hin.
    apply (evict_pop_sessions _ _ _ _ _ _ _ _ _ s E) in Hin as [?%elem_of_nil|(id & c & Hc & Hses)]; [done|].
    by apply (Hno id c).
  - intros id c Hc. apply (Hno id). by eapply lookup_weaken.
Qed.

(** An approval can outlive its challenge: when a completed challenge, the only one of its
    session, is answered once more after its deadline, the answer is refused and the challenge
    is forgotten, but the approval of the session is not: at every later check, however late,
    the session is reported to have completed a challenge. *)
Theorem late_answer_keeps_approval env id session response c m :
  mf_challenges m !! id = Some c -> ch_session_handle c = session -> session ∈ mf_completed_sessions m ->
  ch_expires_at_mono c <= ve_mono env ->
  (forall id' c', mf_challenges m !! id' = Some c' -> ch_session_handle c' = session -> id' = id) ->
  exists m', verify env id session response m = COk (Err mfa_challenge_invalid, m') /\
    forall checks now, (has_completed_challenge now session
      (foldl (fun m t => evict_expired_challenges t m) m' checks)).1 = true.
Proof.
  intros Hc Hs Hin Hx Honly. exists (set_challenges (delete id (mf_challenges m)) m). split.
  { unfold verify. rewrite Hc, Hs, Z.eqb_refl. cbn. by apply Z.leb_le in Hx as ->. }
  intros checks now. assert (orphaned session (set_challenges (delete id (mf_challenges m)) m)) as Ho.
  { split; [done|]. cbn. intros id' c' [Hne Hc']%lookup_delete_Some E. by rewrite (Honly id' c') in Hne. }
  revert Ho. generalize (set_challenges (delete id (mf_challenges m)) m).
  induction checks as [|t checks IH]; intros m0 Ho; cbn [foldl]; [|by apply IH, orphaned_evict].
  apply bool_decide_eq_true. by apply (orphaned_evict session now).
Qed.

(** ** A code that is accepted twice *)

(** With different windows a code can be accepted twice: the answer of one user prunes the
    used steps of all users by that user's own cutoff.  Whenever a step of [user_b] lies below the
    cutoff of [user_a] (another period, or a smaller skew), a successful answer of [user_a] makes
    [user_b]'s code of that step acceptable again, even if it was used before. *)
Theorem foreign_cutoff_reopens_step env_a id_a session_a response_a ca config_a m m'
    env_b id_b session_b response_b cb config_b code step :
  verify env_a id_a session_a response_a m = COk (Ok tt, m') ->
  mf_challenges m !! id_a = Some ca -> ch_challenge_type ca = Totp ->
  mf_totp_secrets m !! ch_user_id ca = Some config_a ->
  mf_challenges m !! id_b = Some cb -> id_a <> id_b -> ch_challenge_type cb = Totp ->
  ch_session_handle cb = session_b -> session_b <> 0 -> ve_mono env_b < ch_expires_at_mono cb ->
  utf8_valid response_b = true -> parse_u32 response_b = Some code ->
  mf_totp_secrets m !! ch_user_id cb = Some config_b ->
  matched_step config_b code (ve_now env_b) = COk (Some step) ->
  step < prune_cutoff config_a (ve_now env_a) ->
  mf_totp_verify_count m' mod 64 <> 0 ->
  exists m'', verify env_b id_b session_b response_b m' = COk (Ok tt, m'').
Proof.
  intros Ha Hca Hta Hka Hcb Hne Htb Hsb Hs0 Hxb Hu Hp Hkb Hmb Hlow Hcount.
  apply verify_outcome in Ha. inversion Ha as [| |c code_a config_a' step_a m1 Hc _ _ _ _ Hk _ Hcs|c ph Hc _ _ Hty]; simplify_eq; [|congruence].
  apply consume_spec in Hcs as (_ & (H1 & _ & _ & H4 & _) & Hin & _).
  assert ((ch_user_id cb, step) ∉ mf_used_totp_steps m1) as Hfresh
    by (intros [_ Hk']%Hin; cbn in Hk'; lia).
  unfold verify. cbn [mark_completed mf_challenges set_challenges set_indices].
  rewrite lookup_insert_ne, H1, Hcb, Z.eqb_refl by done. cbn [negb].
  rewrite (proj2 (Z.leb_gt _ _) Hxb), Htb. unfold verify_totp_response.
  rewrite (proj2 (Z.eqb_neq _ _) Hs0), Hu. cbn [negb ok_or comp_bind].
  rewrite Hp. cbn [ok_or comp_bind]. cbn [mark_completed mf_totp_secrets set_challenges set_indices].
  rewrite H4, Hkb. cbn [ok_or comp_bind]. rewrite Hmb. cbn [comp_bind]. unfold consume_step.
  cbn [mark_completed mf_used_totp_steps mf_totp_verify_count set_challenges set_indices] in *.
  rewrite bool_decide_eq_false_2 by done. rewrite (proj2 (Z.eqb_neq _ _) Hcount). by eexists.
Qed.

End Runs.

(** ** Concrete runs *)

(** Running a list of events, with the history. *)
Fixpoint run_all `{MfaCrates, HexCrate} (es : list mfa_event) (m : MfaManager)
    (h : list (mfa_event * MfaManager)) : option (MfaManager * list (mfa_event * MfaManager)) :=
  match es with
  | [] => Some (m, h)
  | e :: es => match exec e m with Some m' => run_all es m' (h ++ [(e, m)]) | None => None end
  end.

Fixpoint ordered (T : Z) (es : list mfa_event) (T' : Z) : Prop :=
  match es with
  | [] => T = T'
  | e :: es => exists T1, in_window T T1 e /\ ordered T1 es T'
  end.

Lemma run_all_run `{MfaCrates, HexCrate} es m h m' h' :
  mfa_run m h -> run_all es m h = Some (m', h') ->
  mfa_run m' h' /\ forall T T', in_order h T -> ordered T es T' -> in_order h' T'.
Proof.
  revert m h. induction es as [|e es IH]; intros m h Hr He; cbn [run_all] in He.
  { injection He as <- <-. split; [done|]. intros T T' Ho E. cbn in E. by subst. }
  destruct (exec e m) as [m1|] eqn:Hex; [|done]. apply IH in He as [Hr' Ho']; [|by econstructor].
  split; [done|]. intros T T' Ho (T1 & Hw & Hrest). eapply Ho'; [by econstructor|done].
Qed.

#[local] Instance mfa_demo_crates : MfaCrates := {|
  hmac_sha1 := fun _ msg => Some (msg ++ replicate 11 Byte.x00 ++ [Byte.x04]);
  hmac_sha256_totp := fun _ msg => Some (msg ++ replicate 23 Byte.x00 ++ [Byte.x04]);
  pbkdf2_hmac_sha256 := fun pin salt _ => pin ++ salt;
|}.

#[local] Instance mfa_demo_hex : HexCrate := {| hex_encode := from_bytes |}.

Definition text (s : string) : list byte := as_bytes s.
Definition demo_issue (id : string) (session : Z) (user : string) (ty : MfaChallengeType) : mfa_event :=
  Issue (mkIssueEnv (text id) (text "salt") 100 0 None) session user ty (Some (text "1234")) (Some "destroy").
Definition demo_answer_at (now mono : Z) (id : string) (session : Z) (response : string) : mfa_event :=
  Answer (mkVerifyEnv now mono now None) id session (text response).

Definition demo_events : list mfa_event :=
  [RegisterSecret "alice" "JBSWY3DPEHPK3PXP";
   demo_issue "c1" 7 "alice" Totp; demo_issue "c2" 8 "alice" Totp; demo_issue "c3" 9 "bob" ReenterPin;
   demo_answer_at 120 5 "c1" 7 "4"; demo_answer_at 121 5 "c2" 8 "4";
   demo_answer_at 150 5 "c2" 8 "000005"; demo_answer_at 151 5 "c3" 9 "1234"].

Definition demo_run : MfaManager * list (mfa_event * MfaManager) :=
  default (MfaManager_new 60 0, []) (run_all demo_events (MfaManager_new 60 0) []).

Lemma demo_run_ok :
  mfa_run demo_run.1 demo_run.2 /\ in_order demo_run.2 151.
Proof.
  destruct (run_all_run demo_events (MfaManager_new 60 0) [] demo_run.1 demo_run.2) as [Hr Ho];
    [constructor|by vm_compute|].
  split; [done|]. apply (Ho 0); [constructor|]. exists 0. split; [done|].
  do 3 (exists 100; split; [done|]). exists 120. split; [done|]. exists 121. split; [done|].
  exists 150. split; [done|]. exists 151. split; [done|]. done.
Qed.

(** Two steps of [alice] were accepted; the code of the first was refused the second time. *)
Lemma totp_single_use_witness :
  NoDup (omap accepted_step demo_run.2) /\ omap accepted_step demo_run.2 = [("alice", 4); ("alice", 5)].
Proof.
  split; [|by vm_compute].
  apply (totp_single_use 30 0 ltac:(lia) ltac:(lia) demo_run.1 demo_run.2 151); [apply demo_run_ok..|].
  apply Forall_forall. intros [e m] Hin. assert (e ∈ demo_events) as He.
  { apply (list_elem_of_fmap_2 fst) in Hin. replace (demo_run.2.*1) with demo_events in Hin by (by vm_compute). done. }
  unfold demo_events in He. repeat (apply elem_of_cons in He as [->|He]; [done|]). by apply elem_of_nil in He.
Defined.

Lemma mfa_gate_sound_witness :
  (has_completed_challenge_for 155 9 "destroy" demo_run.1).1 = true /\
  answered demo_run.2 9 (Some "destroy").
Proof.
  split; [by vm_compute|].
  apply (mfa_gate_sound demo_run.1 demo_run.2 155 9 "destroy"); [apply demo_run_ok|by vm_compute].
Defined.

Lemma base32_roundtrip_witness :
  base32_encode (text "Hello!") = "JBSWY3DPEE======" /\ base32_decode "JBSWY3DPEE======" = Some (text "Hello!").
Proof.
  split; [by vm_compute|]. change "JBSWY3DPEE======" with (base32_encode (text "Hello!")).
  apply base32_roundtrip. by vm_compute.
Defined.

Definition careful_b (em : mfa_event * MfaManager) : bool :=
  match em with
  | (Issue env _ _ _ _ _, m) => bool_decide (mf_challenges m !! hex_encode (ie_id_bytes env) = None)
  | (Answer env id _ _, m) =>
      match mf_challenges m !! id with
      | Some c => negb (ch_completed c) || (ve_mono env <? ch_expires_at_mono c)
      | None => true
      end
  | _ => true
  end.

Lemma careful_b_spec em : careful_b em = true -> careful em.
Proof.
  destruct em as [[] m]; cbn; try done; [apply bool_decide_eq_true|].
  intros H c Hc Hcp. rewrite Hc, Hcp in H. by apply Z.ltb_lt in H.
Qed.

Lemma approval_ends_witness :
  (has_completed_challenge 159 7 demo_run.1).1 = true /\ live 159 7 None demo_run.1 /\
  (has_completed_challenge 160 7 demo_run.1).1 = false.
Proof.
  split; [by vm_compute|]. split; [|by vm_compute].
  apply (approval_ends demo_run.1 demo_run.2 159 7 "destroy"); [apply demo_run_ok| |by vm_compute].
  apply Forall_forall. intros em Hin. apply careful_b_spec.
  assert (forallb careful_b demo_run.2 = true) as H by (by vm_compute).
  rewrite forallb_forall in H. by apply H, list_elem_of_In.
Defined.

(** The deadline of session 7 has passed on both clocks, and the session stays approved. *)
Lemma late_answer_keeps_approval_witness :
  exists m', verify (mkVerifyEnv 200 (100 * nanos) 200 None) "c1" 7 [] demo_run.1 = COk (Err mfa_challenge_invalid, m') /\
    (has_completed_challenge 1000000 7 m').1 = true.
Proof.
  destruct (mf_challenges demo_run.1 !! "c1") as [c|] eqn:Hc; [|by vm_compute in Hc].
  assert (ch_session_handle c = 7 /\ ch_expires_at_mono c <= 100 * nanos) as [Hs Hx].
  { vm_compute in Hc. injection Hc as <-. by vm_compute. }
  destruct (late_answer_keeps_approval (mkVerifyEnv 200 (100 * nanos) 200 None) "c1" 7 [] c demo_run.1) as (m' & Hv & Hcheck);
    [done|done|by apply (bool_decide_unpack _); vm_compute|done| |by exists m'; split; [|apply (Hcheck [])]].
  assert (map_Forall (fun id c => ch_session_handle c = 7 -> id = "c1") (mf_challenges demo_run.1)) as Hall
    by (apply (bool_decide_unpack _); by vm_compute).
  intros id' c' Hc' Hs'. by apply (Hall id' c').
Defined.

Definition demo_config (skew : Z) : TotpConfig := mkTotp "MFRGG" (text "abc") 6 30 skew Sha1.

Definition two_windows : MfaManager := Eval vm_compute in
  (default (MfaManager_new 60 0, []) (run_all
    [RegisterConfig "a" (demo_config 0); RegisterConfig "b" (demo_config 3);
     demo_issue "a1" 1 "a" Totp; demo_issue "b1" 2 "b" Totp; demo_issue "b2" 3 "b" Totp;
     demo_answer_at 300 5 "b1" 2 "7"] (MfaManager_new 60 0) [])).1.

(** [b]'s code 7 was used; after [a]'s answer it is accepted again, in another session. *)
Lemma foreign_cutoff_reopens_step_witness :
  ("b", 7) ∈ mf_used_totp_steps two_windows /\
  exists m' m'', verify (mkVerifyEnv 300 5 300 None) "a1" 1 (text "10") two_windows = COk (Ok tt, m') /\
    verify (mkVerifyEnv 300 5 300 None) "b2" 3 (text "7") m' = COk (Ok tt, m'').
Proof.
  split; [by apply (bool_decide_unpack _); vm_compute|].
  destruct (mf_challenges two_windows !! "a1") as [ca|] eqn:Hca; [|by vm_compute in Hca].
  assert (ch_challenge_type ca = Totp /\ ch_user_id ca = "a") as [Hta Hua] by (vm_compute in Hca; by injection Hca as <-).
  destruct (mf_challenges two_windows !! "b2") as [cb|] eqn:Hcb; [|by vm_compute in Hcb].
  assert (ch_challenge_type cb = Totp /\ ch_user_id cb = "b" /\ ch_session_handle cb = 3 /\ 5 < ch_expires_at_mono cb)
    as (Htb & Hub & Hsb & Hxb) by (clear -Hcb; vm_compute in Hcb; by injection Hcb as <-).
  assert (exists m', verify (mkVerifyEnv 300 5 300 None) "a1" 1 (text "10") two_windows = COk (Ok tt, m') /\
    mf_totp_verify_count m' mod 64 <> 0) as (m' & Hv & Hcnt)
    by (clear; eexists; split; [vm_compute; reflexivity|by vm_compute]).
  exists m'.
  destruct (foreign_cutoff_reopens_step (mkVerifyEnv 300 5 300 None) "a1" 1 (text "10") ca (demo_config 0) two_windows m'
    (mkVerifyEnv 300 5 300 None) "b2" 3 (text "7") cb (demo_config 3) 7 7 Hv Hca Hta) as [m'' Hm''];
    [rewrite Hua|exact Hcb|done|exact Htb|exact Hsb|done|exact Hxb| | |rewrite Hub| | |exact Hcnt|by exists m''];
    clear; by vm_compute.
Defined.
