(* ===== verification/AuthProvider.v ===== *)
(** * Authentication providers and the manager ([craton-hsm-auth/src/auth])

    Credentials, the trait of providers ([provider.rs]), the parser of role names
    ([mod.rs]), the local PIN provider ([local_pin.rs]), the configuration ([config.rs])
    and the manager that combines a provider with second factors ([manager.rs]).  The
    provider [oidc.rs] is in its own file. *)

From stdpp Require Import prelude gmap strings list.
From Stdlib Require Import ZArith Lia.
From coqutil Require Import Byte.
From S2P Require Import Prelude RustStd AuthRbac AuthMfa.
Local Open Scope rust_scope.
Local Open Scope string_scope.
Local Open Scope list_scope.
Local Open Scope Z_scope.

Inductive AuthCredentials : Type :=
| CredPin (user_type : Z) (pin : list byte)
| CredToken (bearer_token : string)
| CredCertificate (cert_chain : list (list byte))
| CredLdapBind (username password : string).

Record AuthResult : Type := mkAuthResult {
  au_role : HsmRole;
  au_user_id : string;
  au_tenant_id : option string;
  au_mfa_required : bool;
}.

#[global] Instance AuthResult_eq_dec : EqDecision AuthResult.
Proof. solve_decision. Defined.

Definition parse_role (role_str : string) : option HsmRole :=
  let r := to_ascii_lowercase (trim_str role_str) in
  if String.eqb r "user" then Some User
  else if String.eqb r "so" || String.eqb r "security_officer" || String.eqb r "securityofficer" then Some So
  else if String.eqb r "auditor" then Some Auditor
  else if String.eqb r "keymanager" || String.eqb r "key_manager" then Some KeyManager
  else if String.eqb r "operator" then Some Operator
  else None.

(** The trait: [Env] is what a call observes of its surroundings.  The audit hook
    [on_outcome] does nothing unless a provider overrides it, and none does. *)
Class AuthProvider (Provider Env : Type) := {
  ap_authenticate : Env -> AuthCredentials -> Provider -> comp (result AuthResult HsmError * Provider) Empty_set;
  ap_name : Provider -> string;
}.

Definition on_outcome {Provider : Type} (outcome : result AuthResult HsmError) (p : Provider) : Provider := p.

(** ** Local PINs *)

Record LocalPinProvider : Type := mkLocalPin { pin_verifier : option (Z -> list byte -> bool) }.

Definition LocalPinProvider_new : LocalPinProvider := mkLocalPin None.
Definition with_verifier (verifier : Z -> list byte -> bool) : LocalPinProvider := mkLocalPin (Some verifier).

Definition pin_authenticate (credentials : AuthCredentials) (p : LocalPinProvider) : result AuthResult HsmError :=
  match credentials with
  | CredPin user_type pin =>
      try role := (if user_type =? 0 then Ok So else if user_type =? 1 then Ok User else Err UserTypeInvalid) in
      match pin_verifier p with
      | Some verify =>
          if negb (verify user_type pin) then Err PinIncorrect
          else Ok (mkAuthResult role ("local:" ++ HsmRole_as_str role) None false)
      | None => Err FunctionNotSupported
      end
  | _ => Err FunctionNotSupported
  end.

#[global] Instance local_pin_provider : AuthProvider LocalPinProvider unit := {
  ap_authenticate _ credentials p := COk (pin_authenticate credentials p, p);
  ap_name _ := "local-pin";
}.

(** ** The manager *)

Record AuthConfig : Type := mkAuthConfig {
  ac_provider : string;
  ac_mfa_timeout_secs : Z;
  ac_require_mfa_for_destructive : bool;
}.

Definition AuthConfig_default : AuthConfig := mkAuthConfig "pin" 300 false.

Record AuthManager (Provider : Type) : Type := mkAuthManager {
  am_provider : Provider;
  am_mfa : MfaManager;
  am_require_mfa_for_destructive : bool;
}.
Arguments mkAuthManager {Provider} am_provider am_mfa am_require_mfa_for_destructive.
Arguments am_provider {Provider} a.
Arguments am_mfa {Provider} a.
Arguments am_require_mfa_for_destructive {Provider} a.

(** [cached] is the cached number of iterations, shared by the managers of a process. *)
Definition AuthManager_new (cached : Z) (config : AuthConfig) : result (AuthManager LocalPinProvider) HsmError :=
  if String.eqb (ac_provider config) "pin" || String.eqb (ac_provider config) "" then
    Ok (mkAuthManager LocalPinProvider_new (MfaManager_new (ac_mfa_timeout_secs config) cached)
          (ac_require_mfa_for_destructive config))
  else Err ArgumentsBad.

Definition with_provider {Provider} (cached : Z) (provider : Provider) (config : AuthConfig) : AuthManager Provider :=
  mkAuthManager provider (MfaManager_new (ac_mfa_timeout_secs config) cached) (ac_require_mfa_for_destructive config).

Section Manager.
Context `{MfaCrates} `{HexCrate} {Provider Env : Type} `{!AuthProvider Provider Env}.
Implicit Types (a : AuthManager Provider).

Definition set_mfa (m : MfaManager) a : AuthManager Provider :=
  mkAuthManager (am_provider a) m (am_require_mfa_for_destructive a).
Definition set_provider (p : Provider) a : AuthManager Provider :=
  mkAuthManager p (am_mfa a) (am_require_mfa_for_destructive a).

Definition manager_authenticate (env : Env) (credentials : AuthCredentials) a
    : comp (result AuthResult HsmError * AuthManager Provider) Empty_set :=
  let? r := ap_authenticate env credentials (am_provider a) in
  let '(outcome, p) := r in
  COk (outcome, set_provider (on_outcome outcome p) a).

Definition check_mfa_for_destructive (now session_handle : Z) a : result unit HsmError * AuthManager Provider :=
  if am_require_mfa_for_destructive a then
    let '(completed, m) := has_completed_challenge now session_handle (am_mfa a) in
    ((if completed then Ok tt else Err mfa_required), set_mfa m a)
  else (Ok tt, a).

Definition issue_mfa_challenge (env : IssueEnv) (session_handle : Z) (user_id : string)
    (challenge_type : MfaChallengeType) (expected_pin : option (list byte)) a
    : comp (MfaChallenge * AuthManager Provider) HsmError :=
  let? r := issue_challenge env session_handle user_id challenge_type expected_pin (am_mfa a) in
  let '(challenge, m) := r in
  COk (challenge, set_mfa m a).

Definition verify_mfa (env : VerifyEnv) (challenge_id : string) (session_handle : Z) (response : list byte) a
    : comp (result unit HsmError * AuthManager Provider) Empty_set :=
  let? r := verify env challenge_id session_handle response (am_mfa a) in
  let '(answer, m) := r in
  COk (answer, set_mfa m a).
End Manager.
