(* ===== verification/AuthOidc.v ===== *)
(** * OpenID Connect tokens ([craton-hsm-auth/src/auth/oidc.rs])

    The provider validates bearer tokens with the issuer's published keys, which it
    caches: configuration, URL comparison, the cache with its stale period, the choice of
    the key, replay defence by token identifiers, roles and other claims, and the whole of
    [authenticate].  Parsing and checking of tokens ([jsonwebtoken]), URLs ([reqwest]) and
    SHA-256 are [OidcCrates]; the answers of the issuer and every clock reading of a call
    are its environment.  Calls run one after another.  [CPanic] stands for the overflow of
    adding durations or a duration to an [Instant]. *)

From stdpp Require Import prelude gmap strings list pretty.
From Stdlib Require Import ZArith Lia.
From coqutil Require Import Byte.
From S2P Require Import Prelude RustStd AuthRbac AuthTenant AuthRateLimit AuthMfa AuthProvider.
Local Open Scope rust_scope.
Local Open Scope string_scope.
Local Open Scope list_scope.
Local Open Scope Z_scope.

(** ** Crates *)

(** [serde_json::Value]; of a number the code only uses [as_u64]. *)
Inductive ClaimValue : Type :=
| VNull
| VBool (b : bool)
| VNumber (as_u64 : option Z)
| VString (s : string)
| VArray (vs : list ClaimValue)
| VObject (fields : list (string * ClaimValue)).

Fixpoint field (key : string) (fields : list (string * ClaimValue)) : option ClaimValue :=
  match fields with
  | [] => None
  | (k, v) :: rest => if String.eqb k key then Some v else field key rest
  end.

(** [Value::get] and [Value::as_str]. *)
Definition claim (key : string) (claims : ClaimValue) : option ClaimValue :=
  match claims with VObject fields => field key fields | _ => None end.
Definition as_str (v : ClaimValue) : option string :=
  match v with VString s => Some s | _ => None end.
Definition as_u64 (v : ClaimValue) : option Z :=
  match v with VNumber n => n | _ => None end.

(** The algorithms of [jsonwebtoken] that the provider constructs. *)
Inductive Algorithm : Type := RS256 | RS384 | RS512 | ES256 | ES384.

#[global] Instance Algorithm_eq_dec : EqDecision Algorithm.
Proof. solve_decision. Defined.

(** [jsonwebtoken::Validation], the fields the code sets. *)
Record Validation : Type := mkValidation {
  va_algorithm : Algorithm;
  va_aud : option (list string);
  va_iss : option (list string);
  va_validate_aud : bool;
  va_validate_exp : bool;
  va_validate_nbf : bool;
  va_leeway : Z;
  va_required : list string;
}.

(** [reqwest::Url] and its accessors. *)
Record Url : Type := mkUrl {
  url_scheme : string;
  url_username : string;
  url_password : option string;
  url_host : option string;
  url_port : option Z;
  url_path : string;
  url_path_segments : list string;
  url_query : option string;
  url_fragment : option string;
}.

(** [decode_header] gives the [kid] of the header; [jwt_decode] takes the system time. *)
Class OidcCrates := {
  DecodingKey : Type;
  url_parse : string -> option Url;
  decode_header : string -> option (option string);
  jwt_decode : Validation -> DecodingKey -> Z -> string -> option ClaimValue;
  oidc_sha256 : list byte -> list byte;
}.

Section Oidc.
Context {OC : OidcCrates} {HC : HexCrate} {MI : MapIter}.

(** A key of the issuer: identifier, name of the algorithm, [DecodingKey::from_jwk]. *)
Record Jwk : Type := mkJwk {
  jwk_key_id : option string;
  jwk_key_algorithm : option string;
  jwk_decoding_key : option DecodingKey;
}.

(** ** Configuration *)

Record OidcConfig : Type := mkOidcConfig {
  oc_issuer_url : string;
  oc_audience : string;
  oc_role_claim : string;
  oc_tenant_claim : option string;
  oc_mfa_claim : option string;
  oc_jwks_refresh_secs : Z;
  oc_request_timeout_secs : Z;
  oc_stale_cache_max_age_secs : Z;
  oc_clock_skew_secs : Z;
  oc_rate_limit : option RateLimitConfig;
  oc_require_jti : bool;
}.

Definition default_jwks_refresh_secs : Z := 3600.
Definition default_request_timeout_secs : Z := 10.
Definition default_stale_cache_max_age_secs : Z := 3600.
Definition default_clock_skew_secs : Z := 5.

(** [strip_suffix('/')] *)
Definition strip_slash (path : string) : option string :=
  match rev (as_bytes path) with
  | b :: r => if bool_decide (b = Byte.x2f) then Some (from_bytes (rev r)) else None
  | [] => None
  end.

Definition normalize_url (u : string) : string :=
  let trimmed := trim_str u in
  match url_parse trimmed with
  | None => trimmed
  | Some parsed =>
      let scheme := to_ascii_lowercase (url_scheme parsed) in
      match url_host parsed with
      | None => trimmed
      | Some h =>
          let host := to_ascii_lowercase h in
          let port_suffix :=
            match url_port parsed with
            | Some p =>
                if (String.eqb scheme "https" && (p =? 443)) || (String.eqb scheme "http" && (p =? 80)) then ""
                else (":" ++ pretty p)%string
            | None => ""
            end in
          let path := url_path parsed in
          let path_norm := if String.eqb path "/" then "" else default path (strip_slash path) in
          let out := (scheme ++ "://" ++ host ++ port_suffix ++ path_norm)%string in
          let out := match url_query parsed with Some q => (out ++ "?" ++ q)%string | None => out end in
          match url_fragment parsed with Some f => (out ++ "#" ++ f)%string | None => out end
      end
  end.

(** [OidcConfig::validate]; every refusal is a [ConfigError] with its own text. *)
Definition oidc_validate (c : OidcConfig) : result unit HsmError :=
  let raw := trim_str (oc_issuer_url c) in
  if String.eqb raw "" then Err (ConfigError "oidc: issuer_url must not be empty")
  else match url_parse raw with
  | None => Err (ConfigError "oidc: issuer_url is not a valid URL")
  | Some parsed =>
      if negb (String.eqb (url_scheme parsed) "https") then Err (ConfigError "oidc: issuer_url must use https")
      else if match url_host parsed with None => true | Some h => String.eqb h "" end
      then Err (ConfigError "oidc: issuer_url must include a host")
      else if negb (String.eqb (url_username parsed) "") || bool_decide (is_Some (url_password parsed))
      then Err (ConfigError "oidc: issuer_url must not embed userinfo credentials")
      else if bool_decide (is_Some (url_query parsed))
      then Err (ConfigError "oidc: issuer_url must not contain a query string")
      else if bool_decide (is_Some (url_fragment parsed))
      then Err (ConfigError "oidc: issuer_url must not contain a fragment")
      else if existsb (fun seg => String.eqb seg ".." || String.eqb seg ".") (url_path_segments parsed)
      then Err (ConfigError "oidc: issuer_url path must not contain `.` or `..` segments")
      else if String.eqb (trim_str (oc_audience c)) "" then Err (ConfigError "oidc: audience must not be empty")
      else if String.eqb (trim_str (oc_role_claim c)) "" then Err (ConfigError "oidc: role_claim must not be empty")
      else Ok tt
  end.

(** ** The provider *)

Record JwksCache : Type := mkJwksCache {
  jc_keys : gmap string (Algorithm * DecodingKey);
  jc_fetched_at : Z;
}.

Record OidcAuthProvider : Type := mkOidc {
  op_config : OidcConfig;
  op_cache : option JwksCache;
  op_rate_limiter : AuthRateLimiter;
  op_seen_jtis : gmap string Z;
  op_jti_cleanup_tick : Z;
  op_stale_cache_used : Z;
}.

Definition set_cache (x : option JwksCache) (p : OidcAuthProvider) : OidcAuthProvider :=
  mkOidc (op_config p) x (op_rate_limiter p) (op_seen_jtis p) (op_jti_cleanup_tick p) (op_stale_cache_used p).
Definition set_login_limiter (x : AuthRateLimiter) (p : OidcAuthProvider) : OidcAuthProvider :=
  mkOidc (op_config p) (op_cache p) x (op_seen_jtis p) (op_jti_cleanup_tick p) (op_stale_cache_used p).
Definition set_seen_jtis (x : gmap string Z) (p : OidcAuthProvider) : OidcAuthProvider :=
  mkOidc (op_config p) (op_cache p) (op_rate_limiter p) x (op_jti_cleanup_tick p) (op_stale_cache_used p).
Definition tick_jti (p : OidcAuthProvider) : OidcAuthProvider :=
  mkOidc (op_config p) (op_cache p) (op_rate_limiter p) (op_seen_jtis p) (u64_succ (op_jti_cleanup_tick p))
    (op_stale_cache_used p).
Definition count_stale_use (p : OidcAuthProvider) : OidcAuthProvider :=
  mkOidc (op_config p) (op_cache p) (op_rate_limiter p) (op_seen_jtis p) (op_jti_cleanup_tick p)
    (u64_succ (op_stale_cache_used p)).

(** [http_client] is the outcome of building the client. *)
Definition OidcAuthProvider_new (http_client : result unit string) (config : OidcConfig)
    : result OidcAuthProvider HsmError :=
  try _ := oidc_validate config in
  match http_client with
  | Err e => Err (ConfigError ("oidc http client: " ++ e))
  | Ok _ =>
      Ok (mkOidc config None (AuthRateLimiter_new (default RateLimitConfig_default (oc_rate_limit config))) ∅ 0 0)
  end.

Definition role_rank (role : HsmRole) : Z :=
  match role with So => 5 | KeyManager => 4 | Operator => 3 | User => 2 | Auditor => 1 end.

Definition hash_token (token : string) : string := hex_encode (take 16 (oidc_sha256 (as_bytes token))).

(** ** The keys of the issuer *)

(** [eq_ignore_ascii_case("none")] on a name of an algorithm, then the five names. *)
Definition map_algorithm (alg : string) : option Algorithm :=
  if String.eqb (to_ascii_lowercase alg) "none" then None
  else if String.eqb alg "RS256" then Some RS256
  else if String.eqb alg "RS384" then Some RS384
  else if String.eqb alg "RS512" then Some RS512
  else if String.eqb alg "ES256" then Some ES256
  else if String.eqb alg "ES384" then Some ES384
  else None.

(** One key of the set; the ones that cannot be used are skipped. *)
Definition cache_entry (jwk : Jwk) : option (string * (Algorithm * DecodingKey)) :=
  kid ← jwk_key_id jwk;
  alg_str ← jwk_key_algorithm jwk;
  algorithm ← map_algorithm alg_str;
  decoding_key ← jwk_decoding_key jwk;
  Some (kid, (algorithm, decoding_key)).

Definition build_cache (jwks : list Jwk) : gmap string (Algorithm * DecodingKey) :=
  foldl (fun m jwk => match cache_entry jwk with Some (kid, ak) => <[kid := ak]> m | None => m end) ∅ jwks.

(** What [ensure_cache] observes: the clock when it tests for freshness, discovery and
    download of the keys, the clock after them, the clock when it tests the stale cache. *)
Record FetchEnv : Type := mkFetch {
  fe_now : Z;
  fe_jwks : option (list Jwk);
  fe_fetched_at : Z;
  fe_stale_now : Z;
}.

Definition ensure_cache (env : FetchEnv) (p : OidcAuthProvider)
    : comp (result unit HsmError * OidcAuthProvider) Empty_set :=
  let refresh_interval := oc_jwks_refresh_secs (op_config p) in
  if match op_cache p with
     | Some cache => duration_since (fe_now env) (jc_fetched_at cache) <? refresh_interval * nanos
     | None => false
     end
  then COk (Ok tt, p)
  else
    match fe_jwks env with
    | Some jwks => COk (Ok tt, set_cache (Some (mkJwksCache (build_cache jwks) (fe_fetched_at env))) p)
    | None =>
        let? max_age := or_panic (checked_add refresh_interval (oc_stale_cache_max_age_secs (op_config p))) in
        match op_cache p with
        | Some cache =>
            if duration_since (fe_stale_now env) (jc_fetched_at cache) <? max_age * nanos
            then COk (Ok tt, count_stale_use p)
            else COk (Err GeneralError, p)
        | None => COk (Err GeneralError, p)
        end
    end.

Definition invalidate_cache (p : OidcAuthProvider) : OidcAuthProvider := set_cache None p.

(** ** Tokens *)

(** What a call of [authenticate] observes. *)
Record OidcEnv : Type := mkOidcEnv {
  oe_limit_cleanup : Z;
  oe_limit_now : Z;
  oe_fetch : FetchEnv;
  oe_jwt_now : Z;
  oe_jwt_retry_now : Z;
  oe_refetch : FetchEnv;
  oe_now_unix : Z;
  oe_mono : Z;
  oe_prune_now : Z;
  oe_failure_now : Z;
  oe_failure_cleanup : Z;
}.

Definition required_claims : list string := ["exp"; "iss"; "aud"; "sub"].

Definition retry_with_normalised_iss_aud (now : Z) (token : string) (decoding_key : DecodingKey)
    (algorithm : Algorithm) (expected_iss_normalised expected_aud_normalised : string) (clock_skew_secs : Z)
    : option ClaimValue :=
  let validation := mkValidation algorithm None None false true true clock_skew_secs required_claims in
  td ← jwt_decode validation decoding_key now token;
  iss ← claim "iss" td ≫= as_str;
  if negb (String.eqb (normalize_url iss) expected_iss_normalised) then None
  else
    let aud_ok :=
      match claim "aud" td with
      | Some (VString s) => String.eqb (normalize_url s) expected_aud_normalised
      | Some (VArray arr) => existsb (fun s => String.eqb (normalize_url s) expected_aud_normalised) (omap as_str arr)
      | _ => false
      end in
    if negb aud_ok then None else Some td.

(** [validate_with_cached_key] for a key of the cache. *)
Definition decode_with_key (env : OidcEnv) (c : OidcConfig) (token : string) (ak : Algorithm * DecodingKey)
    : result ClaimValue HsmError :=
  let '(algorithm, decoding_key) := ak in
  let normalised_aud := normalize_url (oc_audience c) in
  let normalised_iss := normalize_url (oc_issuer_url c) in
  let validation :=
    mkValidation algorithm (Some [normalised_aud]) (Some [normalised_iss]) true true true
      (oc_clock_skew_secs c) required_claims in
  match jwt_decode validation decoding_key (oe_jwt_now env) token with
  | Some td => Ok td
  | None =>
      match retry_with_normalised_iss_aud (oe_jwt_retry_now env) token decoding_key algorithm normalised_iss
              normalised_aud (oc_clock_skew_secs c) with
      | Some td => Ok td
      | None => Err PinIncorrect
      end
  end.

Definition with_cached_key (env : OidcEnv) (token kid : string)
    (on_unknown_kid : OidcAuthProvider -> comp (result ClaimValue HsmError * OidcAuthProvider) Empty_set)
    (p : OidcAuthProvider) : comp (result ClaimValue HsmError * OidcAuthProvider) Empty_set :=
  match op_cache p with
  | None => COk (Err GeneralError, p)
  | Some cache =>
      match jc_keys cache !! kid with
      | Some ak => COk (decode_with_key env (op_config p) token ak, p)
      | None => on_unknown_kid p
      end
  end.

(** The call with [retry = true], and the one with [retry = false]: an unknown key empties
    the cache and fetches the keys once more. *)
Definition validate_retry (env : OidcEnv) (token kid : string) :=
  with_cached_key env token kid (fun p => COk (Err PinIncorrect, p)).

Definition validate_with_cached_key (env : OidcEnv) (token kid : string) :=
  with_cached_key env token kid (fun p =>
    if match op_cache p with Some cache => bool_decide (is_Some (jc_keys cache !! kid)) | None => false end
    then validate_retry env token kid p
    else
      let? r := ensure_cache (oe_refetch env) (invalidate_cache p) in
      match r with
      | (Err e, p) => COk (Err e, p)
      | (Ok _, p) => validate_retry env token kid p
      end).

Definition validate_token (env : OidcEnv) (token : string) (p : OidcAuthProvider)
    : comp (result ClaimValue HsmError * OidcAuthProvider) Empty_set :=
  let? r := ensure_cache (oe_fetch env) p in
  match r with
  | (Err e, p) => COk (Err e, p)
  | (Ok _, p) =>
      match decode_header token with
      | None => COk (Err PinIncorrect, p)
      | Some None => COk (Err PinIncorrect, p)
      | Some (Some kid) => validate_with_cached_key env token kid p
      end
  end.

(** ** Claims *)

Definition extract_string_claim (claims : ClaimValue) (key : string) : option string :=
  match claim key claims with
  | Some (VString s) => Some s
  | Some (VArray arr) => head arr ≫= as_str
  | _ => None
  end.

(** The closure [consider]. *)
Definition consider (best : option HsmRole) (s : string) : option HsmRole :=
  match parse_role s with
  | Some r =>
      match best with
      | Some b => if role_rank b <? role_rank r then Some r else best
      | None => Some r
      end
  | None => best
  end.

Definition extract_highest_role (c : OidcConfig) (claims : ClaimValue) : option HsmRole :=
  match claim (oc_role_claim c) claims with
  | Some (VString s) => consider None s
  | Some (VArray arr) => foldl consider None (omap as_str arr)
  | _ => None
  end.

Definition MAX_JTI_RETENTION : Z := 24 * 3600.
Definition MIN_JTI_RETENTION : Z := 300.

Definition check_jti (env : OidcEnv) (claims : ClaimValue) (p : OidcAuthProvider)
    : comp (result unit HsmError * OidcAuthProvider) Empty_set :=
  if negb (oc_require_jti (op_config p)) then COk (Ok tt, p)
  else match claim "jti" claims ≫= as_str with
  | None => COk (Err PinIncorrect, p)
  | Some jti =>
      match claim "exp" claims ≫= as_u64 with
      | None => COk (Err PinIncorrect, p)
      | Some exp =>
          let window := saturating_sub exp (oe_now_unix env) in
          let retention := Z.min (Z.max window MIN_JTI_RETENTION) MAX_JTI_RETENTION in
          let? deadline := or_panic (instant_add_secs (oe_mono env) retention) in
          let tick := op_jti_cleanup_tick p in
          let p := tick_jti p in
          let p :=
            if tick mod 512 =? 0
            then set_seen_jtis (filter (fun kd => oe_prune_now env < kd.2) (op_seen_jtis p)) p else p in
          if bool_decide (is_Some (op_seen_jtis p !! jti)) then COk (Err PinIncorrect, p)
          else COk (Ok tt, set_seen_jtis (<[jti := deadline]> (op_seen_jtis p)) p)
      end
  end.

Definition extract_mfa (c : OidcConfig) (claims : ClaimValue) : bool :=
  match oc_mfa_claim c with
  | None => false
  | Some claim_name =>
      let is_mfa_done :=
        match claim claim_name claims with
        | Some (VBool b) => b
        | Some (VString s) =>
            let s := trim_str s in String.eqb (to_ascii_lowercase s) "true" || String.eqb s "1"
        | _ => false
        end in
      negb is_mfa_done
  end.

(** ** Authentication *)

(** A refusal is counted by the rate limiter. *)
Definition refuse (env : OidcEnv) (rate_key : string) (e : HsmError) (p : OidcAuthProvider)
    : comp (result AuthResult HsmError * OidcAuthProvider) Empty_set :=
  let? l := or_panic (record_failure (oe_failure_now env) (oe_failure_cleanup env) rate_key (op_rate_limiter p)) in
  COk (Err e, set_login_limiter l p).

Definition tenant_of (c : OidcConfig) (claims : ClaimValue) : result (option string) HsmError :=
  match oc_tenant_claim c ≫= extract_string_claim claims with
  | Some raw => match TenantId_try_new raw with Ok t => Ok (Some t) | Err _ => Err PinIncorrect end
  | None => Ok None
  end.

(** From the claims to the result: [sub], role and tenant must be usable. *)
Definition identity_of (c : OidcConfig) (claims : ClaimValue) : result AuthResult HsmError :=
  match claim "sub" claims ≫= as_str with
  | None => Err PinIncorrect
  | Some sub =>
      match extract_highest_role c claims with
      | None => Err PinIncorrect
      | Some role =>
          try tenant_id := tenant_of c claims in
          Ok (mkAuthResult role ("oidc:" ++ sub) tenant_id (extract_mfa c claims))
      end
  end.

Definition oidc_authenticate (env : OidcEnv) (credentials : AuthCredentials) (p : OidcAuthProvider)
    : comp (result AuthResult HsmError * OidcAuthProvider) Empty_set :=
  match credentials with
  | CredToken bearer_token =>
      let rate_key := hash_token bearer_token in
      match check_rate_limit (oe_limit_cleanup env) (oe_limit_now env) rate_key (op_rate_limiter p) with
      | (Err e, l) => COk (Err e, set_login_limiter l p)
      | (Ok _, l) =>
          let? r := validate_token env bearer_token (set_login_limiter l p) in
          match r with
          | (Err e, p) => refuse env rate_key e p
          | (Ok claims, p) =>
              let? r := check_jti env claims p in
              match r with
              | (Err e, p) => refuse env rate_key e p
              | (Ok _, p) =>
                  match identity_of (op_config p) claims with
                  | Err e => refuse env rate_key e p
                  | Ok identity =>
                      COk (Ok identity, set_login_limiter (record_success rate_key (op_rate_limiter p)) p)
                  end
              end
          end
      end
  | _ => COk (Err FunctionNotSupported, p)
  end.

#[global] Instance oidc_provider : AuthProvider OidcAuthProvider OidcEnv := {
  ap_authenticate := oidc_authenticate;
  ap_name _ := "oidc";
}.

End Oidc.
