(* ===== verification/AuthOidcProofs.v ===== *)
(** * Theorems about providers, tokens and the manager *)

From stdpp Require Import prelude gmap strings list pretty.
From Stdlib Require Import ZArith Lia.
From coqutil Require Import Byte.
From S2P Require Import Prelude RustStd AuthRbac AuthTenant AuthRateLimit AuthMfa AuthMfaProofs AuthProvider AuthOidc.
Local Open Scope rust_scope.
Local Open Scope string_scope.
Local Open Scope list_scope.
Local Open Scope Z_scope.

(** [s] is the value of a claim, or one of its values. *)
Definition names (s : string) (v : option ClaimValue) : Prop :=
  v = Some (VString s) \/ exists arr, v = Some (VArray arr) /\ VString s ∈ arr.

(** What the documentation of [jsonwebtoken] says of [decode]: the token is signed with the
    key under the algorithm, the claims are its payload, and the checks that the validation
    asks for succeeded. *)
Class JwtLaws `{OidcCrates} (signed_by : Algorithm -> DecodingKey -> string -> Prop)
    (payload : string -> option ClaimValue) : Prop := {
  decode_signed v k now t c : jwt_decode v k now t = Some c -> signed_by (va_algorithm v) k t /\ payload t = Some c;
  decode_exp v k now t c e : jwt_decode v k now t = Some c -> va_validate_exp v = true ->
    claim "exp" c ≫= as_u64 = Some e -> now <= e + va_leeway v;
  decode_iss v k now t c l : jwt_decode v k now t = Some c -> va_iss v = Some l -> exists s, s ∈ l /\ names s (claim "iss" c);
  decode_aud v k now t c l : jwt_decode v k now t = Some c -> va_validate_aud v = true -> va_aud v = Some l ->
    exists s, s ∈ l /\ names s (claim "aud" c);
}.

Section Proofs.
Context {OC : OidcCrates} {HC : HexCrate} {MI : MapIter}.

(** ** Roles *)

(** The roles a token names. *)
Definition named_roles (c : OidcConfig) (claims : ClaimValue) : list HsmRole :=
  match claim (oc_role_claim c) claims with
  | Some (VString s) => option_list (parse_role s)
  | Some (VArray arr) => omap (fun v => as_str v ≫= parse_role) arr
  | _ => []
  end.

Lemma role_rank_inj r r' : role_rank r = role_rank r' -> r = r'.
Proof. by destruct r, r'. Qed.

Definition best_of (best : option HsmRole) (rs : list HsmRole) : option HsmRole :=
  foldl (fun best r => match best with Some b => if role_rank b <? role_rank r then Some r else best | None => Some r end) best rs.

Lemma consider_best strs best :
  foldl consider best strs = best_of best (omap parse_role strs).
Proof.
  revert best. induction strs as [|s strs IH]; intros best; [done|]. cbn [foldl]. rewrite IH. cbn [omap list_omap].
  unfold consider. by destruct (parse_role s).
Qed.

Lemma best_of_spec best rs r :
  best_of best rs = Some r ->
  (best = Some r \/ r ∈ rs) /\ forall r', best = Some r' \/ r' ∈ rs -> role_rank r' <= role_rank r.
Proof.
  revert best. induction rs as [|x rs IH]; intros best; cbn.
  { intros ->. split; [auto|]. intros r' [[= ->]|H]; [lia|set_solver]. }
  intros [Hin Hmax]%IH. destruct best as [b|].
  - destruct (role_rank b <? role_rank x) eqn:E; bool_to_prop.
    + split; [set_solver|]. intros r' [[= ->]|[->|Hr]%elem_of_cons]; [|by apply Hmax; auto..].
      specialize (Hmax x (or_introl eq_refl)). lia.
    + split; [set_solver|]. intros r' [[= ->]|[->|Hr]%elem_of_cons]; [by apply Hmax; auto| |by apply Hmax; auto].
      specialize (Hmax b (or_introl eq_refl)). lia.
  - split; [set_solver|]. intros r' [?|[->|Hr]%elem_of_cons]; [done|by apply Hmax; auto..].
Qed.

Lemma best_of_None best rs : best_of best rs = None <-> best = None /\ rs = [].
Proof.
  revert best. induction rs as [|x rs IH]; intros best; cbn; [naive_solver|]. rewrite IH.
  destruct best as [b|]; [destruct (_ <? _)|]; naive_solver.
Qed.

Lemma omap_as_str (arr : list ClaimValue) : omap parse_role (omap as_str arr) = omap (fun v => as_str v ≫= parse_role) arr.
Proof. induction arr as [|v arr IH]; [done|]. cbn. destruct v; cbn; rewrite ?IH; done. Qed.

Lemma extract_best c claims : extract_highest_role c claims = best_of None (named_roles c claims).
Proof.
  unfold extract_highest_role, named_roles. destruct (claim _ _) as [[]|]; try done.
  - unfold consider. by destruct (parse_role s).
  - by rewrite consider_best, omap_as_str.
Qed.

(** The role of a token is the highest of the roles its claim names, whatever their
    order; there is none only if the claim names no known role. *)
Theorem highest_role_exact c claims r :
  (extract_highest_role c claims = Some r <->
   r ∈ named_roles c claims /\ forall r', r' ∈ named_roles c claims -> role_rank r' <= role_rank r) /\
  (extract_highest_role c claims = None <-> named_roles c claims = []).
Proof.
  rewrite extract_best. split; [|by rewrite best_of_None; naive_solver]. split.
  - intros [[?|?] Hmax]%best_of_spec; [done|]. auto.
  - intros [Hin Hmax]. destruct (best_of None _) as [x|] eqn:E.
    + apply best_of_spec in E as [[?|Hx] Hx']; [done|]. f_equal. apply role_rank_inj.
      specialize (Hmax x Hx). specialize (Hx' r (or_intror Hin)). lia.
    + apply best_of_None in E as [_ E]. rewrite E in Hin. set_solver.
Qed.

(** ** Runs *)

Abbreviation OidcCall := (OidcEnv * string * result AuthResult HsmError)%type.

(** A new provider, then calls with bearer tokens. *)
Inductive oidc_run (config : OidcConfig) : OidcAuthProvider -> list OidcCall -> Prop :=
| oidc_new http p : OidcAuthProvider_new http config = Ok p -> oidc_run config p []
| oidc_call p h env token r p' :
    oidc_run config p h -> oidc_authenticate env (CredToken token) p = COk (r, p') ->
    oidc_run config p' (h ++ [(env, token, r)]).

(** The issuer returned these keys at that time during one of the calls. *)
Definition fetched (h : list OidcCall) (jwks : list Jwk) (t : Z) : Prop :=
  exists env token r f, (env, token, r) ∈ h /\ (f = oe_fetch env \/ f = oe_refetch env) /\
    fe_jwks f = Some jwks /\ fe_fetched_at f = t.

Lemma fetched_app h h' jwks t : fetched h jwks t -> fetched (h ++ h') jwks t.
Proof. intros (env & token & r & f & Hin & ?). exists env, token, r, f. split; [set_solver|done]. Qed.

(** ** One call, taken apart *)

(** What only [check_jti] and the rate limiter change. *)
Record oidc_frame (p p' : OidcAuthProvider) : Prop := {
  of_config : op_config p' = op_config p;
  of_seen : op_seen_jtis p' = op_seen_jtis p;
  of_tick : op_jti_cleanup_tick p' = op_jti_cleanup_tick p;
}.

#[local] Instance oidc_frame_preorder : PreOrder oidc_frame.
Proof. split; [by split|]. intros p p' p'' [] []. split; by etrans. Qed.

Lemma frame_set_cache x p : oidc_frame p (set_cache x p).
Proof. by split. Qed.

(** The cache after a call: as before, empty, or the answer of the issuer. *)
Definition cache_step (fs : list FetchEnv) (p p' : OidcAuthProvider) : Prop :=
  op_cache p' = op_cache p \/ op_cache p' = None \/
  exists f jwks, f ∈ fs /\ fe_jwks f = Some jwks /\ op_cache p' = Some (mkJwksCache (build_cache jwks) (fe_fetched_at f)).

(** Keys of this time may be used: just fetched, fresh, or stale within the limit. *)
Definition usable (c : OidcConfig) (f : FetchEnv) (t : Z) : Prop :=
  t = fe_fetched_at f \/ duration_since (fe_now f) t < oc_jwks_refresh_secs c * nanos \/
  duration_since (fe_stale_now f) t < (oc_jwks_refresh_secs c + oc_stale_cache_max_age_secs c) * nanos.

Lemma ensure_cache_inv f p r p' :
  ensure_cache f p = COk (r, p') ->
  oidc_frame p p' /\ cache_step [f] p p' /\
  (r = Ok tt -> exists c, op_cache p' = Some c /\ usable (op_config p) f (jc_fetched_at c)).
Proof.
  unfold ensure_cache. destruct (match op_cache p with Some _ => _ | None => _ end) eqn:Hfresh.
  { intros [= <- <-]. split_and!; [done|by left|]. destruct (op_cache p) as [c|]; [|done]. bool_to_prop.
    exists c. split; [done|]. right. by left. }
  destruct (fe_jwks f) as [jwks|] eqn:Hj.
  { intros [= <- <-]. split_and!; [by apply frame_set_cache| |].
    - right. right. exists f, jwks. set_solver.
    - intros _. eexists. split; [done|]. by left. }
  unfold checked_add. case_if; cbn; [|done]. clear E Hfresh.
  destruct (op_cache p) as [c|] eqn:Hc; [|intros [= <- <-]; split_and!; [done|by left|done]].
  case_if; intros [= <- <-]; (split_and!; [by split|by left|]); [|done].
  intros _. exists c. split; [done|]. right. right. bool_to_prop. done.
Qed.

Lemma cache_step_trans fs fs' p p1 p2 :
  cache_step fs p p1 -> cache_step fs' p1 p2 -> cache_step (fs ++ fs') p p2.
Proof.
  intros H1 [H2|[H2|(f & jwks & ? & ? & ?)]]; [|by right; left|right; right; exists f, jwks; set_solver].
  destruct H1 as [H1|[H1|(f & jwks & ? & ? & H1)]]; rewrite H1 in H2; [by left|by right; left|].
  right; right. exists f, jwks. set_solver.
Qed.

(** A token was accepted with a key of the cache. *)
Definition accepted_with (env : OidcEnv) (token : string) (p : OidcAuthProvider) (claims : ClaimValue)
    (f : FetchEnv) : Prop :=
  exists kid c ak, decode_header token = Some (Some kid) /\ op_cache p = Some c /\ jc_keys c !! kid = Some ak /\
    decode_with_key env (op_config p) token ak = Ok claims /\ usable (op_config p) f (jc_fetched_at c).

Lemma validate_retry_inv env token kid p r p' :
  validate_retry env token kid p = COk (r, p') ->
  p' = p /\ forall claims, r = Ok claims -> exists c ak, op_cache p = Some c /\ jc_keys c !! kid = Some ak /\
    decode_with_key env (op_config p) token ak = Ok claims.
Proof.
  unfold validate_retry, with_cached_key. destruct (op_cache p) as [c|]; [|by intros [= <- <-]].
  destruct (jc_keys c !! kid) as [ak|] eqn:Hk; intros [= <- <-]; (split; [done|]); [|done].
  intros claims Hd. by exists c, ak.
Qed.

Lemma validate_token_inv env token p r p' :
  validate_token env token p = COk (r, p') ->
  oidc_frame p p' /\ cache_step [oe_fetch env; oe_refetch env] p p' /\
  forall claims, r = Ok claims -> exists f, f ∈ [oe_fetch env; oe_refetch env] /\ accepted_with env token p' claims f.
Proof.
  unfold validate_token. destruct (ensure_cache (oe_fetch env) p) as [[r1 p1]| | |] eqn:E1; try done. cbn [comp_bind].
  apply ensure_cache_inv in E1 as (F1 & S1 & U1).
  assert (forall p2, cache_step [oe_refetch env] p1 p2 -> cache_step [oe_fetch env; oe_refetch env] p p2) as S2.
  { intros p2. by apply (cache_step_trans [oe_fetch env] [oe_refetch env] p p1). }
  destruct r1 as [[]|e]; [|intros [= <- <-]; split_and!; [done|apply S2; by left|done]].
  destruct (decode_header token) as [[kid|]|] eqn:Hh; try (intros [= <- <-]; split_and!; [done|apply S2; by left|done]).
  destruct (U1 eq_refl) as (c & Hc & Hu). rewrite <- (of_config _ _ F1) in Hu.
  unfold validate_with_cached_key, with_cached_key. cbv beta. rewrite Hc. destruct (jc_keys c !! kid) as [ak|] eqn:Hk.
  { intros [= <- <-]. split_and!; [done|apply S2; by left|]. intros claims Hd. exists (oe_fetch env). split; [set_solver|].
    by exists kid, c, ak. }
  rewrite bool_decide_false by (by intros []).
  destruct (ensure_cache (oe_refetch env) (invalidate_cache p1)) as [[r2 p2]| | |] eqn:E2; try done. cbn [comp_bind].
  apply ensure_cache_inv in E2 as (F2 & S3 & U2).
  assert (oidc_frame p p2) as F3 by (etrans; [done|]; etrans; [apply (frame_set_cache None)|done]).
  assert (cache_step [oe_refetch env] p1 p2) as S4.
  { destruct S3 as [H|[H|H]]; [right; left; by rewrite H|by right; left|by right; right]. }
  destruct r2 as [[]|e]; [|intros [= <- <-]; split_and!; [done|by apply S2|done]].
  intros [-> Hr]%validate_retry_inv. split_and!; [done|by apply S2|]. intros claims Hd.
  destruct (U2 eq_refl) as (c2 & Hc2 & Hu2). destruct (Hr claims Hd) as (c2' & ak & Hc2' & ? & ?). simplify_eq.
  exists (oe_refetch env). split; [set_solver|]. exists kid, c2, ak. split_and!; [done..|].
  replace (op_config p2) with (op_config (invalidate_cache p1)) by (by rewrite (of_config _ _ F2)). done.
Qed.

(** *** Token identifiers *)

Definition token_id (claims : ClaimValue) : option string := claim "jti" claims ≫= as_str.
Definition expiry (claims : ClaimValue) : option Z := claim "exp" claims ≫= as_u64.

(** How long an identifier is remembered: until the token expires, at least five minutes
    and at most a day. *)
Definition deadline (env : OidcEnv) (exp : Z) : Z :=
  oe_mono env + Z.min (Z.max (saturating_sub exp (oe_now_unix env)) MIN_JTI_RETENTION) MAX_JTI_RETENTION * nanos.

(** The identifiers after a call: some may be forgotten whose time is over, one may be added. *)
Definition jti_step (env : OidcEnv) (m m' : gmap string Z) : Prop :=
  exists pruned, (pruned = m \/ pruned = filter (fun kd => oe_prune_now env < kd.2) m) /\
    (m' = pruned \/ exists jti d, pruned !! jti = None /\ m' = <[jti := d]> pruned).

(** [claims] were admitted by the replay defence. *)
Definition jti_admitted (env : OidcEnv) (claims : ClaimValue) (m m' : gmap string Z) : Prop :=
  exists jti exp, token_id claims = Some jti /\ expiry claims = Some exp /\ m' !! jti = Some (deadline env exp) /\
    forall d, m !! jti = Some d -> d <= oe_prune_now env.

Lemma jti_step_keep env m m' jti d :
  jti_step env m m' -> m !! jti = Some d -> m' !! jti = Some d \/ d <= oe_prune_now env.
Proof.
  intros (pruned & Hp & Hm') Hd.
  assert (pruned !! jti = Some d \/ pruned !! jti = None /\ d <= oe_prune_now env) as H.
  { destruct Hp as [->| ->]; [by left|]. destruct (decide (oe_prune_now env < d)).
    - left. by apply map_lookup_filter_Some.
    - right. split; [|lia]. apply map_lookup_filter_None. right. intros x Hx. simplify_eq. done. }
  destruct H as [H|[_ H]]; [|by right]. left. destruct Hm' as [->|(j & d' & Hj & ->)]; [done|].
  rewrite lookup_insert_ne; [done|]. by intros ->; rewrite H in Hj.
Qed.

Lemma check_jti_inv env claims p r p' :
  check_jti env claims p = COk (r, p') ->
  op_config p' = op_config p /\ op_cache p' = op_cache p /\ jti_step env (op_seen_jtis p) (op_seen_jtis p') /\
  (r = Ok tt -> oc_require_jti (op_config p) = true -> jti_admitted env claims (op_seen_jtis p) (op_seen_jtis p')).
Proof.
  assert (jti_step env (op_seen_jtis p) (op_seen_jtis p)) as Hrefl by (exists (op_seen_jtis p); auto).
  unfold check_jti, jti_admitted, token_id, expiry. destruct (oc_require_jti (op_config p)); cbn [negb].
  2:{ intros [= <- <-]. split_and!; done. }
  destruct (claim "jti" claims ≫= as_str) as [jti|]; [|intros [= <- <-]; split_and!; done].
  destruct (claim "exp" claims ≫= as_u64) as [exp|]; [|intros [= <- <-]; split_and!; done].
  destruct (instant_add_secs _ _) as [dl|] eqn:Hdl; [|done]. apply instant_add_secs_Some in Hdl. cbn [or_panic comp_bind].
  set (q := if op_jti_cleanup_tick p mod 512 =? 0 then _ else _).
  assert (op_config q = op_config p /\ op_cache q = op_cache p) as [Hq1 Hq2] by (unfold q; by case_if).
  assert (op_seen_jtis q = op_seen_jtis p \/ op_seen_jtis q = filter (fun kd => oe_prune_now env < kd.2) (op_seen_jtis p)) as Hq3
    by (unfold q; case_if; auto).
  case_bool_decide as Hj; intros [= <- <-]; (split_and!; [done|done| |]).
  - exists (op_seen_jtis q). auto.
  - done.
  - exists (op_seen_jtis q). split; [done|]. right. exists jti, dl. split; [by apply eq_None_not_Some|done].
  - intros _ _. exists jti, exp. split_and!; [done|done|cbn; rewrite lookup_insert_eq; by subst dl|].
    intros d Hd. destruct (jti_step_keep env (op_seen_jtis p) (op_seen_jtis q) jti d) as [H|H]; [|done| |done].
    + exists (op_seen_jtis q). auto.
    + contradict Hj. by exists d.
Qed.

(** *** The whole call *)

Lemma refuse_inv env k e p r p' :
  refuse env k e p = COk (r, p') ->
  r = Err e /\ op_config p' = op_config p /\ op_cache p' = op_cache p /\ op_seen_jtis p' = op_seen_jtis p.
Proof. unfold refuse. destruct (record_failure _ _ _ _); [|done]. by intros [= <- <-]. Qed.

Lemma authenticate_inv env token p r p' :
  oidc_authenticate env (CredToken token) p = COk (r, p') ->
  op_config p' = op_config p /\ cache_step [oe_fetch env; oe_refetch env] p p' /\
  jti_step env (op_seen_jtis p) (op_seen_jtis p') /\
  forall id, r = Ok id -> exists claims f, f ∈ [oe_fetch env; oe_refetch env] /\ accepted_with env token p' claims f /\
    identity_of (op_config p) claims = Ok id /\
    (oc_require_jti (op_config p) = true -> jti_admitted env claims (op_seen_jtis p) (op_seen_jtis p')).
Proof.
  assert (jti_step env (op_seen_jtis p) (op_seen_jtis p)) as Hrefl by (exists (op_seen_jtis p); auto).
  unfold oidc_authenticate. destruct (check_rate_limit _ _ _ _) as [[[]|e] l].
  2:{ intros [= <- <-]. split_and!; [done|by left|done|done]. }
  destruct (validate_token _ _ _) as [[r1 p1]| | |] eqn:E1; try done. cbn [comp_bind].
  apply validate_token_inv in E1 as ([Hc1 Hs1 _] & S1 & A1). cbn in Hc1, Hs1.
  destruct r1 as [claims|e].
  2:{ intros (-> & Hc & Hk & Hs)%refuse_inv. rewrite Hc, Hs, Hc1, Hs1. split_and!; [done| |done|done].
      unfold cache_step in *. by rewrite Hk. }
  destruct (check_jti _ _ _) as [[r2 p2]| | |] eqn:E2; try done. cbn [comp_bind].
  apply check_jti_inv in E2 as (Hc2 & Hk2 & J2 & A2). rewrite Hs1 in J2, A2. rewrite Hc1 in Hc2, A2.
  assert (cache_step [oe_fetch env; oe_refetch env] p p2) as S2 by (unfold cache_step in *; by rewrite Hk2).
  destruct r2 as [[]|e].
  2:{ intros (-> & Hc & Hk & Hs)%refuse_inv. rewrite Hc, Hs, Hc2. split_and!; [done| |done|done]. unfold cache_step in *. by rewrite Hk. }
  rewrite Hc2. destruct (identity_of (op_config p) claims) as [id|e] eqn:Hid.
  2:{ intros (-> & Hc & Hk & Hs)%refuse_inv. rewrite Hc, Hs, Hc2. split_and!; [done| |done|done]. unfold cache_step in *. by rewrite Hk. }
  intros [= <- <-]. split_and!; [done|done|done|]. intros id' [= <-].
  destruct (A1 claims eq_refl) as (f & Hf & kid & c & ak & H1 & H2 & H3 & H4 & H5). exists claims, f.
  split_and!; [done| |done|by auto]. exists kid, c, ak. cbn. by rewrite Hk2, Hc2, <- Hc1.
Qed.

(** ** Accepted tokens are signed by the issuer *)

Lemma build_cache_lookup jwks kid ak :
  build_cache jwks !! kid = Some ak -> exists jwk, jwk ∈ jwks /\ cache_entry jwk = Some (kid, ak).
Proof.
  unfold build_cache. assert (forall m : gmap string (Algorithm * DecodingKey), foldl (fun m jwk => match cache_entry jwk with Some (kid, ak) => <[kid := ak]> m | None => m end) m jwks
    !! kid = Some ak -> m !! kid = Some ak \/ exists jwk, jwk ∈ jwks /\ cache_entry jwk = Some (kid, ak)) as H.
  { induction jwks as [|jwk jwks IH]; intros m; cbn [foldl]; [auto|].
    intros [Hm|(j & Hj & ?)]%IH; [|right; exists j; split; [set_solver|done]].
    destruct (cache_entry jwk) as [[kid' ak']|] eqn:E; [|by left].
    destruct (decide (kid' = kid)) as [->|Hne]; [|rewrite lookup_insert_ne in Hm by done; by left].
    rewrite lookup_insert_eq in Hm. injection Hm as ->. right. exists jwk. split; [set_solver|done]. }
  intros Hb. by destruct (H _ Hb) as [?%lookup_empty_Some|?].
Qed.

(** The cache holds what the issuer returned in one of the calls. *)
Definition cache_from (h : list OidcCall) (p : OidcAuthProvider) : Prop :=
  forall c, op_cache p = Some c -> exists jwks, jc_keys c = build_cache jwks /\ fetched h jwks (jc_fetched_at c).

Lemma cache_from_step h env token r p p' :
  cache_from h p -> cache_step [oe_fetch env; oe_refetch env] p p' -> cache_from (h ++ [(env, token, r)]) p'.
Proof.
  intros Hp Hs c Hc. destruct Hs as [H|[H|(f & jwks & Hf & Hj & H)]]; rewrite H in Hc; [|done|].
  - destruct (Hp c Hc) as (jwks & ? & ?). exists jwks. split; [done|]. by apply fetched_app.
  - injection Hc as <-. exists jwks. split; [done|]. exists env, token, r, f. split_and!; [set_solver|set_solver|done|done].
Qed.

Lemma oidc_run_inv config p h : oidc_run config p h -> op_config p = config /\ cache_from h p.
Proof.
  induction 1 as [http p Hn|p h env token r p' _ [IHc IHk] Ha].
  - unfold OidcAuthProvider_new in Hn. destruct (oidc_validate config); [|done]. cbn in Hn.
    destruct http; [|done]. injection Hn as <-. by split.
  - apply authenticate_inv in Ha as (Hc & Hs & _). split; [by rewrite Hc|]. by eapply cache_from_step.
Qed.

(** A claim that names the configured URL: literally, or after normalisation. *)
Definition names_url (configured : string) (v : option ClaimValue) : Prop :=
  exists s, names s v /\ (s = normalize_url configured \/ normalize_url s = normalize_url configured).

(** What is checked of a token with a key. *)
Definition token_ok (signed_by : Algorithm -> DecodingKey -> string -> Prop) (c : OidcConfig) (env : OidcEnv)
    (token : string) (alg : Algorithm) (key : DecodingKey) (claims : ClaimValue) : Prop :=
  signed_by alg key token /\ names_url (oc_issuer_url c) (claim "iss" claims) /\
  names_url (oc_audience c) (claim "aud" claims) /\
  forall e, expiry claims = Some e ->
    oe_jwt_now env <= e + oc_clock_skew_secs c \/ oe_jwt_retry_now env <= e + oc_clock_skew_secs c.

Lemma retry_inv signed_by payload `{!JwtLaws signed_by payload} env c token alg key claims :
  retry_with_normalised_iss_aud (oe_jwt_retry_now env) token key alg (normalize_url (oc_issuer_url c))
    (normalize_url (oc_audience c)) (oc_clock_skew_secs c) = Some claims ->
  payload token = Some claims /\ token_ok signed_by c env token alg key claims.
Proof.
  unfold retry_with_normalised_iss_aud. destruct (jwt_decode _ key (oe_jwt_retry_now env) token) as [td|] eqn:E; [|done].
  cbn [mbind option_bind]. destruct (claim "iss" td) as [[| | |iss| |]|] eqn:Hiss; try done. cbn [mbind option_bind as_str].
  destruct (String.eqb_spec (normalize_url iss) (normalize_url (oc_issuer_url c))) as [Hi|]; [|done]. cbn [negb].
  destruct (match claim "aud" td with Some _ => _ | None => _ end) eqn:Haud; [|done]. cbn [negb]. intros [= ->].
  pose proof (decode_signed _ _ _ _ _ E) as [? ?]. split; [done|]. split_and!; [done|exists iss; split; [by left|by right]|..].
  - destruct (claim "aud" claims) as [[| | |aud|arr|]|]; try done.
    + apply String.eqb_eq in Haud. exists aud. split; [by left|by right].
    + apply existsb_exists in Haud as (aud & (v & Hv & Hs)%list_elem_of_In%list_elem_of_omap & Ha%String.eqb_eq).
      destruct v; try done. injection Hs as ->. exists aud. split; [|by right]. right. by exists arr.
  - intros e He. right. by apply (decode_exp _ _ _ _ _ _ E eq_refl He).
Qed.

Lemma decode_with_key_inv signed_by payload `{!JwtLaws signed_by payload} env c token alg key claims :
  decode_with_key env c token (alg, key) = Ok claims ->
  payload token = Some claims /\ token_ok signed_by c env token alg key claims.
Proof.
  unfold decode_with_key. destruct (jwt_decode _ key (oe_jwt_now env) token) as [td|] eqn:E.
  - intros [= ->]. pose proof (decode_signed _ _ _ _ _ E) as [? ?]. split; [done|]. split_and!; [done|..].
    + destruct (decode_iss _ _ _ _ _ _ E eq_refl) as (s & Hs & ?). exists s. split; [done|]. left. set_solver.
    + destruct (decode_aud _ _ _ _ _ _ E eq_refl eq_refl) as (s & Hs & ?). exists s. split; [done|]. left. set_solver.
    + intros e He. left. by apply (decode_exp _ _ _ _ _ _ E eq_refl He).
  - destruct (retry_with_normalised_iss_aud _ _ _ _ _ _ _) as [td|] eqn:Er; [|done]. intros [= ->]. by apply retry_inv.
Qed.

(** C11: a session is opened only for a token of the issuer. In every run of a new provider,
    an accepted token is signed, under one of the five asymmetric algorithms, with a key
    that the issuer published under the identifier in the token and that is fresh or stale
    within the configured limit; it names the configured issuer and audience and has not
    expired, up to the clock skew; user, highest role, tenant and second factor are those
    of its payload. *)
Theorem oidc_token_sound signed_by payload `{!JwtLaws signed_by payload} config p h env token id p' :
  oidc_run config p h -> oidc_authenticate env (CredToken token) p = COk (Ok id, p') ->
  exists kid jwk jwks t f alg_name alg key claims,
    decode_header token = Some (Some kid) /\
    fetched (h ++ [(env, token, Ok id)]) jwks t /\ (f = oe_fetch env \/ f = oe_refetch env) /\ usable config f t /\
    jwk ∈ jwks /\ jwk_key_id jwk = Some kid /\ jwk_key_algorithm jwk = Some alg_name /\
    map_algorithm alg_name = Some alg /\ jwk_decoding_key jwk = Some key /\
    payload token = Some claims /\ token_ok signed_by config env token alg key claims /\
    identity_of config claims = Ok id.
Proof.
  intros Hrun Ha. pose proof (oidc_call config p h env token _ p' Hrun Ha) as [Hc' Hk']%oidc_run_inv.
  apply oidc_run_inv in Hrun as [Hc _]. apply authenticate_inv in Ha as (_ & _ & _ & H).
  destruct (H id eq_refl) as (claims & f & Hf & (kid & c & [alg key] & Hh & Hcc & Hkid & Hd & Hu) & Hid & _).
  rewrite Hc' in Hd, Hu. rewrite Hc in Hid. destruct (Hk' c Hcc) as (jwks & Hj & Hfetched). rewrite Hj in Hkid.
  apply build_cache_lookup in Hkid as (jwk & Hjwk & He). apply decode_with_key_inv with (signed_by := signed_by) (payload := payload) in Hd as [Hp Ht]; [|done].
  unfold cache_entry in He. destruct (jwk_key_id jwk) as [kid'|] eqn:E1; [|done].
  destruct (jwk_key_algorithm jwk) as [alg_name|] eqn:E2; [|done]. cbn in He.
  destruct (map_algorithm alg_name) as [alg'|] eqn:E3; [|done]. destruct (jwk_decoding_key jwk) as [key'|] eqn:E4; [|done].
  cbn in He. injection He as -> -> ->. exists kid, jwk, jwks, (jc_fetched_at c), f, alg_name, alg, key, claims.
  split_and!; try done. set_solver.
Qed.

(** ** Tokens are used once *)

Definition used (h : list OidcCall) (payload : string -> option ClaimValue) (env : OidcEnv) (jti : string) (exp : Z) : Prop :=
  exists token id claims, (env, token, Ok id) ∈ h /\ payload token = Some claims /\
    token_id claims = Some jti /\ expiry claims = Some exp.

Lemma used_snoc h payload call env jti exp :
  used (h ++ [call]) payload env jti exp -> used h payload env jti exp \/
  exists token id claims, call = (env, token, Ok id) /\ payload token = Some claims /\
    token_id claims = Some jti /\ expiry claims = Some exp.
Proof.
  intros (token & id & claims & [Hin|Hin]%elem_of_app & Hrest); [left; by exists token, id, claims|].
  apply list_elem_of_singleton in Hin. right. exists token, id, claims. by rewrite Hin.
Qed.

Lemma accepted_payload signed_by payload `{!JwtLaws signed_by payload} env token p claims claims' f :
  accepted_with env token p claims f -> payload token = Some claims' -> claims' = claims.
Proof.
  intros (kid & c & [alg key] & _ & _ & _ & Hd & _) Hp.
  apply decode_with_key_inv with (signed_by := signed_by) (payload := payload) in Hd as [Hp' _]; [|done]. congruence.
Qed.

(** An identifier that was used is remembered, or its time is over. *)
Lemma used_remembered signed_by payload `{!JwtLaws signed_by payload} config p h T env jti exp :
  oidc_run config p h -> oc_require_jti config = true -> Forall (fun c => oe_prune_now c.1.1 <= T) h ->
  used h payload env jti exp ->
  (exists d, op_seen_jtis p !! jti = Some d /\ deadline env exp <= d) \/ deadline env exp <= T.
Proof.
  intros Hrun Hreq. induction Hrun as [http p Hn|p h env2 token r p' Hrun IH Ha].
  { intros _ (? & ? & ? & ?%elem_of_nil & _). done. }
  intros [Hh Hl]%Forall_app Hu. rewrite Forall_singleton in Hl. cbn in Hl. apply oidc_run_inv in Hrun as [Hc _].
  apply authenticate_inv in Ha as (_ & _ & Hj & Hacc).
  apply used_snoc in Hu as [Hu|(token' & id & claims' & [= -> -> ->] & Hp & Hid & He)].
  - destruct (IH Hh Hu) as [(d & Hd & Hle)|?]; [|by right].
    destruct (jti_step_keep _ _ _ _ _ Hj Hd) as [?|?]; [left; by exists d|right; lia].
  - destruct (Hacc id eq_refl) as (claims & f & _ & Hw & _ & Hadm). rewrite Hc in Hadm.
    rewrite (accepted_payload signed_by payload _ _ _ _ _ _ Hw Hp) in Hid, He.
    destruct (Hadm Hreq) as (jti' & exp' & E1 & E2 & E3 & _). simplify_eq. left. by eexists.
Qed.

(** C21: no token is used twice. If identifiers are required, then after a token was
    accepted no token with its identifier is accepted before the time for which the
    identifier is remembered has passed: until the token expires, at least five minutes
    and at most a day, by a clock that does not run backwards. *)
Theorem jti_single_use signed_by payload `{!JwtLaws signed_by payload} config p h env token id p' claims jti env1 exp1 :
  oidc_run config p h -> oc_require_jti config = true ->
  Forall (fun c => oe_prune_now c.1.1 <= oe_prune_now env) h ->
  oidc_authenticate env (CredToken token) p = COk (Ok id, p') ->
  payload token = Some claims -> token_id claims = Some jti -> used h payload env1 jti exp1 ->
  deadline env1 exp1 <= oe_prune_now env.
Proof.
  intros Hrun Hreq Hh Ha Hp Hid Hu.
  destruct (used_remembered signed_by payload config p h _ env1 jti exp1 Hrun Hreq Hh Hu) as [(d & Hd & Hle)|?]; [|done].
  apply oidc_run_inv in Hrun as [Hc _]. apply authenticate_inv in Ha as (_ & _ & _ & Hacc).
  destruct (Hacc id eq_refl) as (claims' & f & _ & Hw & _ & Hadm). rewrite Hc in Hadm.
  rewrite (accepted_payload signed_by payload _ _ _ _ _ _ Hw Hp) in Hid.
  destruct (Hadm Hreq) as (jti' & exp' & E1 & _ & _ & Hold). simplify_eq. specialize (Hold d Hd). lia.
Qed.

(** ** Gaps *)

Lemma no_cache_no_keys f p :
  op_cache p = None -> fe_jwks f = None ->
  in_u64 (oc_jwks_refresh_secs (op_config p) + oc_stale_cache_max_age_secs (op_config p)) ->
  ensure_cache f p = COk (Err GeneralError, p).
Proof.
  intros Hc Hf [_ Hr]. unfold ensure_cache. rewrite Hc, Hf. unfold checked_add, u64_max. case_if; [done|]. bool_to_prop. lia.
Qed.

(** While the issuer cannot be reached, the cached keys are to serve until they are too old.
    A token that nobody signed, with an unknown key identifier in its header, empties the
    cache; from then on every token is refused. *)
Theorem unknown_kid_denies_service env token kid p l p1 cache l' :
  check_rate_limit (oe_limit_cleanup env) (oe_limit_now env) (hash_token token) (op_rate_limiter p) = (Ok tt, l) ->
  ensure_cache (oe_fetch env) (set_login_limiter l p) = COk (Ok tt, p1) ->
  decode_header token = Some (Some kid) -> op_cache p1 = Some cache -> jc_keys cache !! kid = None ->
  fe_jwks (oe_refetch env) = None ->
  in_u64 (oc_jwks_refresh_secs (op_config p) + oc_stale_cache_max_age_secs (op_config p)) ->
  record_failure (oe_failure_now env) (oe_failure_cleanup env) (hash_token token) (op_rate_limiter p1) = Some l' ->
  exists p2, oidc_authenticate env (CredToken token) p = COk (Err GeneralError, p2) /\ op_cache p2 = None /\
    forall env' token', fe_jwks (oe_fetch env') = None -> fe_jwks (oe_refetch env') = None ->
      forall r p3, oidc_authenticate env' (CredToken token') p2 = COk (r, p3) -> forall id, r <> Ok id.
Proof.
  intros Hl He Hh Hc Hk Hf Hr Hrf. exists (set_login_limiter l' (invalidate_cache p1)).
  apply ensure_cache_inv in He as He'. destruct He' as ([Hcfg _ _] & _ & _). cbn in Hcfg.
  split_and!; [|done|].
  - unfold oidc_authenticate. rewrite Hl. unfold validate_token. rewrite He. cbn [comp_bind]. rewrite Hh.
    unfold validate_with_cached_key, with_cached_key. cbv beta. rewrite Hc, Hk. rewrite bool_decide_false by (by intros []).
    rewrite no_cache_no_keys; [|done|done|cbn; by rewrite Hcfg]. cbn [comp_bind]. unfold refuse. cbn. by rewrite Hrf.
  - intros env' token' Hf1 Hf2 r p3 Ha id ->. apply authenticate_inv in Ha as (_ & Hs & _ & H).
    destruct (H id eq_refl) as (claims & f & _ & (k & c & ak & _ & Hc3 & _) & _).
    destruct Hs as [E|[E|(f' & jwks & [->|[->|?%elem_of_nil]%elem_of_cons]%elem_of_cons & Hj & E)]]; cbn in E; congruence.
Qed.

(** An identifier is forgotten when its token expires, but the token stays valid for the
    clock skew: a sweep in between lets it be used again. *)
Lemma replay_after_retention env claims p jti exp d dl :
  oc_require_jti (op_config p) = true -> token_id claims = Some jti -> expiry claims = Some exp ->
  op_seen_jtis p !! jti = Some d -> d <= oe_prune_now env -> op_jti_cleanup_tick p mod 512 = 0 ->
  instant_add_secs (oe_mono env)
    (Z.min (Z.max (saturating_sub exp (oe_now_unix env)) MIN_JTI_RETENTION) MAX_JTI_RETENTION) = Some dl ->
  exists p', check_jti env claims p = COk (Ok tt, p').
Proof.
  unfold token_id, expiry. intros Hreq Hj He Hd Hle Ht Hdl. unfold check_jti. rewrite Hreq, Hj, He, Hdl. cbn [negb or_panic comp_bind].
  rewrite (proj2 (Z.eqb_eq _ _) Ht). rewrite bool_decide_false; [by eexists|]. cbn.
  intros [x [Hx Hlt]%map_lookup_filter_Some]. cbn in Hlt. simplify_eq. lia.
Qed.

End Proofs.

(** ** The manager *)

Section Manager.
Context {MC : MfaCrates} {HC : HexCrate} {Provider Env : Type} {AP : AuthProvider Provider Env}.

Inductive manager_call : Type :=
| Login (env : Env) (credentials : AuthCredentials)
| IssueMfa (env : IssueEnv) (session : Z) (user : string) (type : MfaChallengeType) (pin : option (list byte))
| VerifyMfa (env : VerifyEnv) (id : string) (session : Z) (response : list byte)
| CheckDestructive (now session : Z).

(** The manager after a call; [None] after a panic. *)
Definition manager_exec (c : manager_call) (a : AuthManager Provider) : option (AuthManager Provider) :=
  match c with
  | Login env credentials => match manager_authenticate env credentials a with COk (_, a) => Some a | _ => None end
  | IssueMfa env session user type pin =>
      match issue_mfa_challenge env session user type pin a with COk (_, a) => Some a | _ => None end
  | VerifyMfa env id session response =>
      match verify_mfa env id session response a with COk (_, a) => Some a | _ => None end
  | CheckDestructive now session => Some (check_mfa_for_destructive now session a).2
  end.

Inductive manager_run (config : AuthConfig) : AuthManager Provider -> list (manager_call * AuthManager Provider) -> Prop :=
| manager_start cached provider : manager_run config (with_provider cached provider config) []
| manager_step a h c a' : manager_run config a h -> manager_exec c a = Some a' -> manager_run config a' (h ++ [(c, a)]).

(** What the manager of second factors sees of a call. *)
Definition mfa_event_of (ca : manager_call * AuthManager Provider) : option (mfa_event * MfaManager) :=
  let '(c, a) := ca in
  match c with
  | Login _ _ => None
  | IssueMfa env session user type pin => Some (Issue env session user type pin None, am_mfa a)
  | VerifyMfa env id session response => Some (Answer env id session response, am_mfa a)
  | CheckDestructive now session => if am_require_mfa_for_destructive a then Some (Gate now session, am_mfa a) else None
  end.

Lemma manager_run_mfa config a h :
  manager_run config a h ->
  mfa_run (am_mfa a) (omap mfa_event_of h) /\ am_require_mfa_for_destructive a = ac_require_mfa_for_destructive config.
Proof.
  induction 1 as [cached provider|a h c a' _ [IH Hr] He]; [split; [constructor|done]|]. rewrite omap_app.
  destruct c as [env creds|env session user type pin|env id session response|now session]; cbn in He.
  - unfold manager_authenticate in He. destruct (ap_authenticate _ _ _) as [[r p]| | |]; try done. injection He as <-.
    cbn. by rewrite app_nil_r.
  - unfold issue_mfa_challenge, issue_challenge in He.
    destruct (issue_challenge_for _ _ _ _ _ _ _) as [[ch m]| | |] eqn:E; try done. injection He as <-.
    split; [|done]. cbn. eapply run_event; [done|]. cbn. by rewrite E.
  - unfold verify_mfa in He. destruct (verify _ _ _ _ _) as [[r m]| | |] eqn:E; try done. injection He as <-.
    split; [|done]. cbn. eapply run_event; [done|]. cbn. by rewrite E.
  - injection He as <-. unfold check_mfa_for_destructive. cbn [omap list_omap mfa_event_of].
    destruct (am_require_mfa_for_destructive a) eqn:Ereq; [|cbn; rewrite app_nil_r; split; [done|congruence]].
    split; [|cbn; congruence]. by eapply run_event.
Qed.

(** With the option set, a destructive operation is let through only in a session in
    which a challenge was answered correctly, before its deadline and with a fresh code or
    the PIN, whatever provider is in use and whatever logins, challenges, answers and
    checks came before. *)
Theorem destructive_needs_second_factor config a h now session :
  manager_run config a h -> ac_require_mfa_for_destructive config = true ->
  (check_mfa_for_destructive now session a).1 = Ok tt ->
  exists op, answered (omap mfa_event_of h) session op.
Proof.
  intros [Hm Hr]%manager_run_mfa Hreq. unfold check_mfa_for_destructive. rewrite Hr, Hreq.
  destruct (has_completed_challenge now session (am_mfa a)) as [[] m] eqn:E; [|done]. intros _.
  apply (gate_session_sound (am_mfa a) _ now session Hm). by rewrite E.
Qed.

End Manager.

(** ** A provider at work *)

Abbreviation OidcCall := (OidcEnv * string * result AuthResult HsmError)%type.

Fixpoint oidc_play `{OidcCrates, HexCrate, MapIter} (calls : list (OidcEnv * string)) (p : OidcAuthProvider)
    (h : list OidcCall) : option (OidcAuthProvider * list OidcCall) :=
  match calls with
  | [] => Some (p, h)
  | (env, token) :: calls =>
      match oidc_authenticate env (CredToken token) p with
      | COk (r, p) => oidc_play calls p (h ++ [(env, token, r)])
      | _ => None
      end
  end.

Lemma oidc_play_run `{OidcCrates, HexCrate, MapIter} config calls p h p' h' :
  oidc_run config p h -> oidc_play calls p h = Some (p', h') -> oidc_run config p' h'.
Proof.
  revert p h. induction calls as [|[env token] calls IH]; intros p h Hr; cbn [oidc_play]; [by intros [= <- <-]|].
  destruct (oidc_authenticate env (CredToken token) p) as [[r p1]| | |] eqn:E; [|discriminate..].
  intros Hp. eapply IH; [|exact Hp]. by eapply oidc_call.
Qed.

(** One signed token; its claims as the checks of the crate see them. *)
Definition demo_claims : ClaimValue :=
  VObject [("iss", VString "https://idp"); ("aud", VString "hsm"); ("sub", VString "alice"); ("exp", VNumber (Some 1400));
           ("jti", VString "t1"); ("roles", VArray [VString "Auditor"; VString "key_manager"; VString "user"])].

Definition demo_payload (token : string) : option ClaimValue := if String.eqb token "alice" then Some demo_claims else None.

Definition demo_decode (v : Validation) (key : string) (now : Z) (token : string) : option ClaimValue :=
  if String.eqb token "alice" && String.eqb key "key1" && bool_decide (va_algorithm v = RS256)
     && (negb (va_validate_exp v) || (now <=? 1400 + va_leeway v))
     && match va_iss v with Some l => bool_decide ("https://idp" ∈ l) | None => true end
     && (negb (va_validate_aud v) || match va_aud v with Some l => bool_decide ("hsm" ∈ l) | None => true end)
  then Some demo_claims else None.

#[local] Instance oidc_demo_crates : OidcCrates := {|
  DecodingKey := string;
  url_parse s := if String.eqb s "https://idp"
                 then Some (mkUrl "https" "" None (Some "idp") None "/" [""] None None) else None;
  decode_header token := if String.eqb token "alice" then Some (Some "k1") else None;
  jwt_decode := demo_decode;
  oidc_sha256 bs := bs;
|}.
#[local] Instance oidc_demo_hex : HexCrate := {| hex_encode := from_bytes |}.
#[local] Existing Instance key_order.

Definition demo_signed (alg : Algorithm) (key : @DecodingKey oidc_demo_crates) (token : string) : Prop :=
  alg = RS256 /\ key = "key1" /\ token = "alice".

Lemma demo_decode_inv v key now token c :
  demo_decode v key now token = Some c ->
  c = demo_claims /\ token = "alice" /\ key = "key1" /\ va_algorithm v = RS256 /\
  (va_validate_exp v = true -> now <= 1400 + va_leeway v) /\ (forall l, va_iss v = Some l -> "https://idp" ∈ l) /\
  (va_validate_aud v = true -> forall l, va_aud v = Some l -> "hsm" ∈ l).
Proof.
  unfold demo_decode. destruct (_ && _) eqn:E; [|done]. intros [= <-].
  repeat (apply andb_true_iff in E as [E ?]). apply String.eqb_eq in E.
  split_and!; [done|done|by apply String.eqb_eq|by eapply bool_decide_eq_true|..].
  - intros Hv. rewrite Hv in *. cbn in *. bool_to_prop. done.
  - intros l Hl. rewrite Hl in *. by eapply bool_decide_eq_true.
  - intros Hv l Hl. rewrite Hv, Hl in *. by eapply bool_decide_eq_true.
Qed.

#[local] Instance demo_jwt_laws : JwtLaws demo_signed demo_payload.
Proof.
  split.
  - intros v k now t c (-> & -> & -> & -> & _)%demo_decode_inv. done.
  - intros v k now t c e (-> & _ & _ & _ & He & _)%demo_decode_inv Hv [= <-]. auto.
  - intros v k now t c l (-> & _ & _ & _ & _ & Hi & _)%demo_decode_inv Hl. exists "https://idp". split; [auto|by left].
  - intros v k now t c l (-> & _ & _ & _ & _ & _ & Hu)%demo_decode_inv Hv Hl. exists "hsm". split; [auto|by left].
Qed.

Definition demo_oidc_config : OidcConfig :=
  mkOidcConfig "https://idp" "hsm" "roles" None None 3600 10 3600 5 (Some (mkRateConfig 1000 300 900 FailOpen)) true.

(** A call [s] seconds after the start, with the issuer reachable. *)
Definition at_second (s : Z) : OidcEnv :=
  let t := s * nanos in
  let f := mkFetch t (Some [mkJwk (Some "k1") (Some "RS256") (Some "key1")]) t t in
  mkOidcEnv t t f s s f s t t t t.

Definition demo_oidc : OidcAuthProvider :=
  mkOidc demo_oidc_config None (AuthRateLimiter_new (mkRateConfig 1000 300 900 FailOpen)) ∅ 0 0.

Lemma demo_oidc_new : oidc_run demo_oidc_config demo_oidc [].
Proof. apply (oidc_new _ (Ok tt)). vm_compute. reflexivity. Qed.

(** The token is accepted once and refused 511 times; at its expiry the sweep forgets it,
    and within the clock skew it is accepted again. *)
Definition replay_calls : list (OidcEnv * string) :=
  (at_second 1000, "alice") :: replicate 511 (at_second 1300, "alice").

Definition replay_state : OidcAuthProvider * list OidcCall :=
  default (demo_oidc, []) (oidc_play replay_calls demo_oidc []).

Lemma replay_state_run : oidc_run demo_oidc_config replay_state.1 replay_state.2.
Proof.
  unfold replay_state. destruct (oidc_play _ _ _) as [[p h]|] eqn:E; [|apply demo_oidc_new].
  by eapply oidc_play_run; [apply demo_oidc_new|].
Qed.

Definition alice : AuthResult := mkAuthResult KeyManager "oidc:alice" None false.

Definition answers_alice (env : OidcEnv) (p : OidcAuthProvider) : bool :=
  match oidc_authenticate env (CredToken "alice") p with COk (Ok id, _) => bool_decide (id = alice) | _ => false end.

Lemma answers_alice_spec env p :
  answers_alice env p = true -> exists p', oidc_authenticate env (CredToken "alice") p = COk (Ok alice, p').
Proof.
  unfold answers_alice. destruct (oidc_authenticate _ _ _) as [[[id|e] p']| | |]; try done.
  intros ->%bool_decide_eq_true. by exists p'.
Qed.

Lemma alice_accepted : exists p', oidc_authenticate (at_second 1000) (CredToken "alice") demo_oidc = COk (Ok alice, p').
Proof. apply answers_alice_spec. vm_compute. reflexivity. Qed.

Lemma alice_replayed : exists p', oidc_authenticate (at_second 1402) (CredToken "alice") replay_state.1 = COk (Ok alice, p').
Proof. apply answers_alice_spec. vm_compute. reflexivity. Qed.

Definition early (c : OidcCall) : bool := oe_prune_now c.1.1 <=? oe_prune_now (at_second 1402).

Lemma replay_early : Forall (fun c => oe_prune_now c.1.1 <= oe_prune_now (at_second 1402)) replay_state.2.
Proof.
  assert (forallb early replay_state.2 = true) as H by (vm_compute; reflexivity).
  apply Forall_forall. intros c Hc%list_elem_of_In. apply Z.leb_le. by apply (proj1 (forallb_forall _ _) H).
Qed.

Lemma replay_used : used replay_state.2 demo_payload (at_second 1000) "t1" 1400.
Proof.
  exists "alice", alice, demo_claims. split_and!; [|done..]. apply (list_elem_of_lookup_2 _ 0). vm_compute. reflexivity.
Qed.

Lemma oidc_token_sound_witness :
  (exists p', oidc_authenticate (at_second 1000) (CredToken "alice") demo_oidc = COk (Ok alice, p')) /\
  exists alg key, demo_signed alg key "alice".
Proof.
  split; [exact alice_accepted|]. destruct alice_accepted as [p' E].
  destruct (oidc_token_sound demo_signed demo_payload _ _ _ _ _ _ _ demo_oidc_new E)
    as (kid & jwk & jwks & t & f & alg_name & alg & key & claims & _ & _ & _ & _ & _ & _ & _ & _ & _ & _ & Hok & _).
  exists alg, key. apply Hok.
Defined.

(** The second acceptance comes two seconds after the deadline. *)
Lemma jti_single_use_witness :
  (exists p', oidc_authenticate (at_second 1402) (CredToken "alice") replay_state.1 = COk (Ok alice, p')) /\
  deadline (at_second 1000) 1400 <= oe_prune_now (at_second 1402).
Proof.
  split; [exact alice_replayed|]. destruct alice_replayed as [p' E].
  exact (jti_single_use demo_signed demo_payload demo_oidc_config replay_state.1 replay_state.2 (at_second 1402) "alice" alice p'
           demo_claims "t1" (at_second 1000) 1400 replay_state_run eq_refl replay_early E eq_refl eq_refl replay_used).
Defined.

#[local] Existing Instance mfa_demo_crates.

(** Session 7 re-enters its PIN, then destroys a key. *)
Definition manager_calls : list (@manager_call unit) :=
  [IssueMfa (mkIssueEnv (text "c1") (text "salt") 100 0 None) 7 "bob" ReenterPin (Some (text "1234"));
   VerifyMfa (mkVerifyEnv 110 5 110 None) "c1" 7 (text "1234")].

Definition careful : AuthConfig := mkAuthConfig "pin" 60 true.

Fixpoint manager_play (calls : list (@manager_call unit)) (a : AuthManager LocalPinProvider)
    (h : list (@manager_call unit * AuthManager LocalPinProvider))
    : option (AuthManager LocalPinProvider * list (@manager_call unit * AuthManager LocalPinProvider)) :=
  match calls with
  | [] => Some (a, h)
  | c :: calls => match manager_exec c a with Some a' => manager_play calls a' (h ++ [(c, a)]) | None => None end
  end.

Lemma manager_play_run config calls a h a' h' :
  manager_run config a h -> manager_play calls a h = Some (a', h') -> manager_run config a' h'.
Proof.
  revert a h. induction calls as [|c calls IH]; intros a h Hr; cbn [manager_play]; [by intros [= <- <-]|].
  destruct (manager_exec c a) as [a1|] eqn:E; [|discriminate]. intros Hp. eapply IH; [|exact Hp]. by eapply manager_step.
Qed.

Definition careful_start : AuthManager LocalPinProvider := with_provider 0 LocalPinProvider_new careful.
Definition careful_end : AuthManager LocalPinProvider * list (@manager_call unit * AuthManager LocalPinProvider) :=
  default (careful_start, []) (manager_play manager_calls careful_start []).

Lemma careful_run : manager_run careful careful_end.1 careful_end.2.
Proof.
  unfold careful_end. destruct (manager_play _ _ _) as [[a h]|] eqn:E; [|apply manager_start].
  by eapply manager_play_run; [apply manager_start|].
Qed.

Lemma destructive_needs_second_factor_witness :
  (check_mfa_for_destructive 120 7 careful_end.1).1 = Ok tt /\ (check_mfa_for_destructive 120 8 careful_end.1).1 = Err mfa_required /\
  exists op, answered (omap mfa_event_of careful_end.2) 7 op.
Proof.
  split; [vm_compute; reflexivity|]. split; [vm_compute; reflexivity|].
  apply (destructive_needs_second_factor careful careful_end.1 careful_end.2 120 7); [exact careful_run|reflexivity|].
  vm_compute. reflexivity.
Defined.
