(* ===== verification/AuthLdap.v ===== *)
(** * LDAP authentication ([craton-hsm-auth/src/auth/ldap.rs])

    Configuration and its validation, escaping of names for filters and distinguished
    names, the pool of connections, bind and search, roles and tenants, and the whole of
    [authenticate].  A connection is an opaque handle; what the directory answers, which
    slots of the pool other threads have locked, and every clock reading of a call are its
    environment.  Calls run one after another.  SHA-256 is [LdapCrates].  The role mapping,
    a [BTreeMap], is the list of its pairs in the order of the keys.  [CPanic] stands for the
    overflow of an [Instant] in the rate limiter. *)

From stdpp Require Import prelude gmap strings list.
From Stdlib Require Import ZArith Lia.
From coqutil Require Import Byte.
From S2P Require Import Prelude RustStd AuthRbac AuthTenant AuthRateLimit AuthMfa AuthProvider.
Local Open Scope rust_scope.
Local Open Scope string_scope.
Local Open Scope list_scope.
Local Open Scope Z_scope.

Module Ldap.

Inductive LdapTlsMode : Type := TlsNone | Ldaps | StartTls.

#[global] Instance LdapTlsMode_eq_dec : EqDecision LdapTlsMode.
Proof. solve_decision. Defined.

Definition LdapTlsMode_default : LdapTlsMode := StartTls.

Record LdapConfig : Type := mkLdapConfig {
  ld_url : string;
  ld_base_dn : string;
  ld_bind_dn_template : string;
  ld_role_mapping : list (string * string);
  ld_tenant_attribute : option string;
  ld_tls_mode : LdapTlsMode;
  ld_user_search_filter : string;
  ld_group_attribute : string;
  ld_timeout_secs : Z;
  ld_require_mfa : bool;
  ld_pool_size : Z;
  ld_max_connections : option Z;
  ld_rate_limit : option RateLimitConfig;
  ld_allow_plaintext : bool;
}.

Definition default_pool_size : Z := 4.
Definition default_user_filter : string := "(uid={})".
Definition default_group_attribute : string := "memberOf".
Definition default_timeout_secs : Z := 10.

(** ** Templates *)

Definition OPEN_BRACE : byte := Byte.x7b.
Definition CLOSE_BRACE : byte := Byte.x7d.

(** [s.matches("{}").count()] *)
Fixpoint placeholders (s : list byte) : Z :=
  match s with
  | a :: r =>
      match r with
      | b :: r' =>
          if bool_decide (a = OPEN_BRACE) && bool_decide (b = CLOSE_BRACE) then 1 + placeholders r' else placeholders r
      | [] => 0
      end
  | [] => 0
  end.

(** [s.replace("{}", x)] *)
Fixpoint replace_placeholders (x s : list byte) : list byte :=
  match s with
  | a :: r =>
      match r with
      | b :: r' =>
          if bool_decide (a = OPEN_BRACE) && bool_decide (b = CLOSE_BRACE) then x ++ replace_placeholders x r'
          else a :: replace_placeholders x r
      | [] => [a]
      end
  | [] => []
  end.

Definition fill (template x : string) : string := from_bytes (replace_placeholders (as_bytes x) (as_bytes template)).

(** The texts of the messages are dropped. *)
Definition ldap_validate (c : LdapConfig) : result unit HsmError :=
  if negb (placeholders (as_bytes (ld_bind_dn_template c)) =? 1) then Err (ConfigError "bind_dn_template")
  else if negb (placeholders (as_bytes (ld_user_search_filter c)) =? 1) then Err (ConfigError "user_search_filter")
  else if bool_decide (ld_tls_mode c = TlsNone) && negb (ld_allow_plaintext c) then Err (ConfigError "tls_mode")
  else Ok tt.

(** ** Escaping *)

(** One character of [escape_ldap_filter] (RFC 4515). *)
Definition filter_char (c : Z) : list byte :=
  if c =? 0x5C then as_bytes "\5c"
  else if c =? 0x2A then as_bytes "\2a"
  else if c =? 0x28 then as_bytes "\28"
  else if c =? 0x29 then as_bytes "\29"
  else if c =? 0x00 then as_bytes "\00"
  else utf8_encode_char c.

Definition escape_ldap_filter (input : string) : string := from_bytes (concat (map filter_char (chars input))).
Definition escape_rfc4515 (input : string) : string := escape_ldap_filter input.

Definition DN_ESCAPE : byte := Byte.x5c.
Definition SPACE : byte := Byte.x20.
Definition HASH : byte := Byte.x23.

(** Comma, plus, quote, backslash, less, greater, semicolon. *)
Definition dn_special (b : byte) : bool :=
  bool_decide (b ∈ [Byte.x2c; Byte.x2b; Byte.x22; Byte.x5c; Byte.x3c; Byte.x3e; Byte.x3b]).

(** One byte of [escape_dn_value] (RFC 4514): [b as char] is the code point of that number. *)
Definition dn_byte (first last : bool) (b : byte) : list byte :=
  let c := utf8_encode_char (byte.unsigned b) in
  if dn_special b then DN_ESCAPE :: c
  else if bool_decide (b = Byte.x00) then as_bytes "\00"
  else if bool_decide (b = SPACE) && first then as_bytes "\ "
  else if bool_decide (b = HASH) && first then as_bytes "\#"
  else if bool_decide (b = SPACE) && last then as_bytes "\ "
  else c.

Fixpoint dn_loop (first : bool) (bs : list byte) : list byte :=
  match bs with
  | [] => []
  | b :: r => dn_byte first (bool_decide (r = [])) b ++ dn_loop false r
  end.

Definition escape_dn_value (input : string) : string := from_bytes (dn_loop true (as_bytes input)).

(** ** The provider *)

(** [SearchEntry]: the values of its attributes. *)
Abbreviation SearchEntry := (gmap string (list string)).

Class LdapCrates := { ldap_sha256 : list byte -> list byte }.

Record LdapConnSettings : Type := mkConnSettings { conn_timeout : Z; starttls : bool }.

(** With [Ldaps] it is left to the scheme of the URL that there is TLS. *)
Definition conn_settings (c : LdapConfig) : LdapConnSettings :=
  mkConnSettings (ld_timeout_secs c) (match ld_tls_mode c with StartTls => true | _ => false end).

(** [Conn] is the type of connections. *)
Record LdapEnv (Conn : Type) : Type := mkLdapEnv {
  le_take_locked : nat -> bool;
  le_return_locked : nat -> bool;
  le_open : LdapConnSettings -> string -> option Conn;
  le_reopen : LdapConnSettings -> string -> option Conn;
  le_bind : Conn -> string -> string -> option Z;
  le_search : Conn -> string -> string -> list string -> option (list SearchEntry);
  le_limit_cleanup : Z;
  le_limit_now : Z;
  le_failure_now : Z;
  le_failure_cleanup : Z;
}.
Arguments mkLdapEnv {Conn}.
Arguments le_take_locked {Conn} l i.
Arguments le_return_locked {Conn} l i.
Arguments le_open {Conn} l settings url.
Arguments le_reopen {Conn} l settings url.
Arguments le_bind {Conn} l c dn password.
Arguments le_search {Conn} l c base_dn search_filter attrs.
Arguments le_limit_cleanup {Conn} l.
Arguments le_limit_now {Conn} l.
Arguments le_failure_now {Conn} l.
Arguments le_failure_cleanup {Conn} l.

Record LdapAuthProvider (Conn : Type) : Type := mkLdap {
  lp_config : LdapConfig;
  lp_pool : list (option Conn);
  lp_overflow_count : Z;
  lp_max_overflow : Z;
  lp_rate_limiter : AuthRateLimiter;
}.
Arguments mkLdap {Conn}.
Arguments lp_config {Conn} l.
Arguments lp_pool {Conn} l.
Arguments lp_overflow_count {Conn} l.
Arguments lp_max_overflow {Conn} l.
Arguments lp_rate_limiter {Conn} l.

Section Provider.
Context {Conn : Type} `{LdapCrates} `{HexCrate} `{MapIter}.
Implicit Types (p : LdapAuthProvider Conn) (env : LdapEnv Conn).

Definition set_pool (pool : list (option Conn)) p : LdapAuthProvider Conn :=
  mkLdap (lp_config p) pool (lp_overflow_count p) (lp_max_overflow p) (lp_rate_limiter p).
(** [fetch_add] and [fetch_sub] on the counter. *)
Definition add_overflow (d : Z) p : LdapAuthProvider Conn :=
  mkLdap (lp_config p) (lp_pool p) ((lp_overflow_count p + d) mod 2 ^ 64) (lp_max_overflow p) (lp_rate_limiter p).
Definition set_ldap_limiter (l : AuthRateLimiter) p : LdapAuthProvider Conn :=
  mkLdap (lp_config p) (lp_pool p) (lp_overflow_count p) (lp_max_overflow p) l.

Definition ldap_try_new (c : LdapConfig) : result (LdapAuthProvider Conn) HsmError :=
  try _ := ldap_validate c in
  let rate_limiter := AuthRateLimiter_new (default RateLimitConfig_default (ld_rate_limit c)) in
  let pool_size := Z.max (ld_pool_size c) 1 in
  let max_overflow := match ld_max_connections c with Some mc => saturating_sub mc pool_size | None => 2 end in
  Ok (mkLdap c (replicate (Z.to_nat pool_size) None) 0 max_overflow rate_limiter).

Definition ldap_new (c : LdapConfig) : comp (LdapAuthProvider Conn) Empty_set :=
  match ldap_try_new c with Ok p => COk p | Err _ => CPanic end.

Definition hashed_username (username : string) : string := hex_encode (take 8 (ldap_sha256 (as_bytes username))).

(** The first group of the mapping that the user has; its role may be unknown. *)
Fixpoint map_role_loop (mapping : list (string * string)) (groups : list string) : option HsmRole :=
  match mapping with
  | [] => None
  | (group_dn, role_name) :: rest =>
      if bool_decide (group_dn ∈ groups) then parse_role role_name else map_role_loop rest groups
  end.

Definition map_role (groups : list string) (c : LdapConfig) : option HsmRole := map_role_loop (ld_role_mapping c) groups.

(** *** Connections *)

(** The first pass: a cached connection of a slot that is not locked, with the pool without
    it, or whether all slots were locked. *)
Fixpoint take_slot (locked : nat -> bool) (i : nat) (pool : list (option Conn)) : Conn * list (option Conn) + bool :=
  match pool with
  | [] => inr true
  | slot :: rest =>
      if locked i then
        match take_slot locked (S i) rest with
        | inl (conn, rest') => inl (conn, slot :: rest')
        | inr all_locked => inr all_locked
        end
      else
        match slot with
        | Some conn => inl (conn, None :: rest)
        | None =>
            match take_slot locked (S i) rest with
            | inl (conn, rest') => inl (conn, slot :: rest')
            | inr _ => inr false
            end
        end
  end.

(** [None] is the panic of [self.pool[0]] on an empty pool. *)
Definition take_first (pool : list (option Conn)) : option (option (Conn * list (option Conn))) :=
  match pool with
  | [] => None
  | Some conn :: rest => Some (Some (conn, None :: rest))
  | None :: _ => Some None
  end.

(** [with_settings] is [LdapConn::with_settings] at the time of the call. *)
Definition open_connection (with_settings : LdapConnSettings -> string -> option Conn) (c : LdapConfig) : result Conn HsmError :=
  match with_settings (conn_settings c) (ld_url c) with Some conn => Ok conn | None => Err GeneralError end.

(** A new connection, within the limit for connections beyond the pool. *)
Definition open_overflow env p : result (Conn * bool) HsmError * LdapAuthProvider Conn :=
  if lp_max_overflow p <=? lp_overflow_count p then (Err connection_pool_exhausted, p)
  else
    let p := add_overflow 1 p in
    match open_connection (le_open env) (lp_config p) with
    | Ok conn => (Ok (conn, true), p)
    | Err e => (Err e, add_overflow (-1) p)
    end.

Definition take_connection env p : comp (result (Conn * bool) HsmError * LdapAuthProvider Conn) Empty_set :=
  match take_slot (le_take_locked env) 0 (lp_pool p) with
  | inl (conn, pool) => COk (Ok (conn, false), set_pool pool p)
  | inr all_locked =>
      if all_locked : bool then
        match take_first (lp_pool p) with
        | None => CPanic
        | Some (Some (conn, pool)) => COk (Ok (conn, false), set_pool pool p)
        | Some None => COk (open_overflow env p)
        end
      else COk (open_overflow env p)
  end.

(** The first empty slot that is not locked. *)
Fixpoint put_slot (locked : nat -> bool) (i : nat) (conn : Conn) (pool : list (option Conn)) : list (option Conn) :=
  match pool with
  | [] => []
  | slot :: rest =>
      match slot with
      | None => if locked i then slot :: put_slot locked (S i) conn rest else Some conn :: rest
      | Some _ => slot :: put_slot locked (S i) conn rest
      end
  end.

Definition return_connection env (conn : Conn) (is_overflow : bool) p : LdapAuthProvider Conn :=
  let p := if is_overflow then add_overflow (-1) p else p in
  set_pool (put_slot (le_return_locked env) 0 conn (lp_pool p)) p.

(** *** Bind and search *)

(** A bind that fails for want of a working connection is tried again on a fresh one. *)
Definition bind_user env (bind_dn password : string) (conn : Conn) (is_overflow : bool) p
    : result (Conn * bool) HsmError * LdapAuthProvider Conn :=
  match le_bind env conn bind_dn password with
  | Some rc => if negb (rc =? 0) then (Err PinIncorrect, p) else (Ok (conn, is_overflow), p)
  | None =>
      let p := if is_overflow then add_overflow (-1) p else p in
      match open_connection (le_reopen env) (lp_config p) with
      | Err e => (Err e, p)
      | Ok fresh =>
          match le_bind env fresh bind_dn password with
          | None => (Err GeneralError, p)
          | Some rc => if negb (rc =? 0) then (Err PinIncorrect, p) else (Ok (fresh, false), p)
          end
      end
  end.

Definition ldap_tenant (c : LdapConfig) (entry : SearchEntry) : result (option string) HsmError :=
  match ld_tenant_attribute c ≫= fun attr => entry !! attr ≫= head with
  | Some raw => match TenantId_try_new raw with Ok t => Ok (Some t) | Err _ => Err PinIncorrect end
  | None => Ok None
  end.

(** From the entry to the result. *)
Definition ldap_identity (c : LdapConfig) (username : string) (entry : SearchEntry) : result AuthResult HsmError :=
  let groups := default [] (entry !! ld_group_attribute c) in
  match map_role groups c with
  | None => Err operation_denied
  | Some role =>
      try tenant_id := ldap_tenant c entry in
      Ok (mkAuthResult role ("ldap:" +:+ username) tenant_id (ld_require_mfa c))
  end.

Definition bind_dn_of (c : LdapConfig) (username : string) : string := fill (ld_bind_dn_template c) (escape_dn_value username).
Definition search_filter_of (c : LdapConfig) (username : string) : string :=
  fill (ld_user_search_filter c) (escape_ldap_filter username).
Definition search_attrs (c : LdapConfig) : list string :=
  ld_group_attribute c :: match ld_tenant_attribute c with Some a => [a] | None => [] end.

Definition ldap_authenticate env (username password : string) p
    : comp (result AuthResult HsmError * LdapAuthProvider Conn) Empty_set :=
  let c := lp_config p in
  let? r := take_connection env p in
  match r with
  | (Err e, p) => COk (Err e, p)
  | (Ok (conn, is_overflow), p) =>
      match bind_user env (bind_dn_of c username) password conn is_overflow p with
      | (Err e, p) => COk (Err e, p)
      | (Ok (conn, is_overflow), p) =>
          match le_search env conn (ld_base_dn c) (search_filter_of c username) (search_attrs c) with
          | None => COk (Err GeneralError, p)
          | Some found =>
              let p := return_connection env conn is_overflow p in
              match found with
              | [] => COk (Err PinIncorrect, p)
              | entry :: _ => COk (ldap_identity c username entry, p)
              end
          end
      end
  end.

Definition ldap_provider_authenticate env (credentials : AuthCredentials) p
    : comp (result AuthResult HsmError * LdapAuthProvider Conn) Empty_set :=
  match credentials with
  | CredLdapBind username password =>
      let hashed_key := hashed_username username in
      match check_rate_limit (le_limit_cleanup env) (le_limit_now env) hashed_key (lp_rate_limiter p) with
      | (Err e, l) => COk (Err e, set_ldap_limiter l p)
      | (Ok _, l) =>
          let? r := ldap_authenticate env username password (set_ldap_limiter l p) in
          match r with
          | (Ok identity, p) => COk (Ok identity, set_ldap_limiter (record_success hashed_key (lp_rate_limiter p)) p)
          | (Err e, p) =>
              let? l := or_panic (record_failure (le_failure_now env) (le_failure_cleanup env) hashed_key (lp_rate_limiter p)) in
              COk (Err e, set_ldap_limiter l p)
          end
      end
  | _ => COk (Err FunctionNotSupported, p)
  end.

#[global] Instance ldap_provider : AuthProvider (LdapAuthProvider Conn) (LdapEnv Conn) := {
  ap_authenticate := ldap_provider_authenticate;
  ap_name _ := "ldap";
}.

End Provider.

End Ldap.
