(* ===== verification/AuthLdapProofs.v ===== *)
(** * Theorems about LDAP authentication

    Names cannot change the structure of filters and distinguished names; what a login means;
    the accounting of connections.  The last theorems show how logins with wrong passwords
    use up the connections, and that the name of a bind is not always that of the search. *)

From stdpp Require Import prelude gmap strings list.
From Stdlib Require Import ZArith Lia.
From coqutil Require Import Byte.
From S2P Require Import Prelude RustStd AuthRbac AuthTenant AuthRateLimit AuthMfa AuthProvider AuthLdap.
Import Ldap.
Local Open Scope rust_scope.
Local Open Scope string_scope.
Local Open Scope list_scope.
Local Open Scope Z_scope.

(** ** Reading filters and names *)

Definition PAREN_OPEN : byte := Byte.x28.
Definition PAREN_CLOSE : byte := Byte.x29.
Definition STAR : byte := Byte.x2a.
Definition COMMA : byte := Byte.x2c.

Definition hex_digit_of (b : byte) : option Z :=
  if byte_in b 0x30 0x39 then Some (byte.unsigned b - 0x30)
  else if byte_in b 0x61 0x66 then Some (byte.unsigned b - 0x61 + 10)
  else if byte_in b 0x41 0x46 then Some (byte.unsigned b - 0x41 + 10)
  else None.

(** An assertion value of RFC 4515, up to the parenthesis that closes it. *)
Fixpoint read_filter_value (bs : list byte) : option (list byte * list byte) :=
  match bs with
  | [] => None
  | b :: r =>
      if bool_decide (b = PAREN_CLOSE) then Some ([], bs)
      else if bool_decide (b ∈ [PAREN_OPEN; STAR; Byte.x00]) then None
      else if bool_decide (b = DN_ESCAPE) then
        match r with
        | h :: l :: r' =>
            hi ← hex_digit_of h; lo ← hex_digit_of l; p ← read_filter_value r';
            Some (byte.of_Z (hi * 16 + lo) :: p.1, p.2)
        | _ => None
        end
      else p ← read_filter_value r; Some (b :: p.1, p.2)
  end.

(** An attribute value of RFC 4514, up to the comma after it or the end.  A space or [#] at
    its start and a space at its end are significant only when escaped. *)
Fixpoint read_dn_rest (first : bool) (bs : list byte) : option (list byte * list byte) :=
  match bs with
  | [] => Some ([], [])
  | b :: r =>
      if bool_decide (b = COMMA) then Some ([], bs)
      else if bool_decide (b = DN_ESCAPE) then
        match r with
        | h :: r1 =>
            if dn_special h || bool_decide (h = SPACE) || bool_decide (h = HASH)
            then p ← read_dn_rest false r1; Some (h :: p.1, p.2)
            else match r1 with
                 | l :: r' =>
                     hi ← hex_digit_of h; lo ← hex_digit_of l; p ← read_dn_rest false r';
                     Some (byte.of_Z (hi * 16 + lo) :: p.1, p.2)
                 | [] => None
                 end
        | [] => None
        end
      else if dn_special b || bool_decide (b = Byte.x00) then None
      else if bool_decide (b = HASH) && first then None
      else if bool_decide (b = SPACE) && (first || match r with [] => true | c :: _ => bool_decide (c = COMMA) end) then None
      else p ← read_dn_rest false r; Some (b :: p.1, p.2)
  end.

Definition read_dn_value (bs : list byte) : option (list byte * list byte) := read_dn_rest true bs.

(** *** Filters *)

(** A byte that stands for itself. *)
Lemma read_filter_plain b k :
  b <> PAREN_CLOSE -> b ∉ [PAREN_OPEN; STAR; Byte.x00] -> b <> DN_ESCAPE ->
  read_filter_value (b :: k) = p ← read_filter_value k; Some (b :: p.1, p.2).
Proof. intros. cbn [read_filter_value]. by rewrite !bool_decide_false. Qed.

Lemma read_filter_high hd k p :
  Forall (fun b => 0x80 <= byte.unsigned b) hd -> read_filter_value k = Some p ->
  read_filter_value (hd ++ k) = Some (hd ++ p.1, p.2).
Proof.
  intros Hf Hk. induction Hf as [|b hd Hb Hf IH]; [by destruct p|]. cbn [app].
  rewrite read_filter_plain, IH; [done|..]; try (intros ->; by vm_compute in Hb).
  rewrite !not_elem_of_cons. split_and!; try (intros ->; by vm_compute in Hb). apply not_elem_of_nil.
Qed.

Lemma read_filter_ascii b k p :
  byte.unsigned b < 0x80 -> read_filter_value k = Some p ->
  read_filter_value (filter_char (byte.unsigned b) ++ k) = Some (b :: p.1, p.2).
Proof.
  intros Hb Hk.
  assert (b = Byte.x5c \/ b = Byte.x2a \/ b = Byte.x28 \/ b = Byte.x29 \/ b = Byte.x00 \/
    (b <> Byte.x5c /\ b <> Byte.x2a /\ b <> Byte.x28 /\ b <> Byte.x29 /\ b <> Byte.x00)) as Hcases.
  { destruct (decide (b = Byte.x5c)), (decide (b = Byte.x2a)), (decide (b = Byte.x28)), (decide (b = Byte.x29)), (decide (b = Byte.x00)); tauto. }
  destruct Hcases as [->|[->|[->|[->|[->|(H1 & H2 & H3 & H4 & H5)]]]]].
  1-5: cbv [filter_char]; cbn; rewrite Hk; done.
  assert (filter_char (byte.unsigned b) = [b]) as ->.
  { clear Hk. destruct b; try done; try (by vm_compute in Hb). }
  cbn [app]. rewrite read_filter_plain, Hk; [done|done| |done]. rewrite !not_elem_of_cons. split_and!; try done. apply not_elem_of_nil.
Qed.

Lemma escape_filter_reads bs cs rest :
  utf8_chars bs = Some cs ->
  read_filter_value (concat (map filter_char cs) ++ PAREN_CLOSE :: rest) = Some (bs, PAREN_CLOSE :: rest).
Proof.
  revert bs cs. apply utf8_chars_ind.
  - cbn. done.
  - intros b r cs Hb IH. cbn [map concat]. rewrite <- app_assoc. by rewrite (read_filter_ascii b _ _ Hb IH).
  - intros c hd r cs Hc Hh Hf IH. cbn [map concat]. rewrite <- app_assoc.
    assert (filter_char c = hd) as ->.
    { unfold filter_char. by rewrite !(proj2 (Z.eqb_neq c _)) by lia. }
    by rewrite (read_filter_high hd _ _ Hf IH).
Qed.

(** *** Names *)

(** What the name of a user is in a distinguished name: every byte becomes a character. *)
Definition latin1 (bs : list byte) : list byte := utf8_encode (map byte.unsigned bs).

Lemma latin1_cons b bs : latin1 (b :: bs) = utf8_encode_char (byte.unsigned b) ++ latin1 bs.
Proof. done. Qed.

Lemma encode_byte_cases b :
  (byte.unsigned b < 0x80 /\ utf8_encode_char (byte.unsigned b) = [b]) \/
  (0x80 <= byte.unsigned b /\ exists x y, utf8_encode_char (byte.unsigned b) = [x; y] /\ 0x80 <= byte.unsigned x /\ 0x80 <= byte.unsigned y).
Proof.
  destruct b; vm_compute; first [left; split; [reflexivity|reflexivity]|right; split; [discriminate|]; eexists _, _; split; [reflexivity|split; discriminate]].
Qed.

Lemma read_dn_plain b k p first :
  b <> COMMA -> dn_special b = false -> b <> Byte.x00 -> b <> HASH \/ first = false ->
  (b <> SPACE \/ (first = false /\ match k with [] => False | c :: _ => c <> COMMA end)) ->
  read_dn_rest false k = Some p -> read_dn_rest first (b :: k) = Some (b :: p.1, p.2).
Proof.
  intros H1 H2 H3 H4 H5 Hk. cbn [read_dn_rest]. rewrite bool_decide_false by done.
  assert (b <> DN_ESCAPE) as He by (intros ->; done). rewrite (bool_decide_false (b = DN_ESCAPE)) by done.
  rewrite H2. rewrite (bool_decide_false (b = Byte.x00)) by done. cbn [orb].
  assert (bool_decide (b = HASH) && first = false) as ->.
  { destruct H4 as [H4| ->]; [by rewrite bool_decide_false|by rewrite andb_false_r]. }
  assert (bool_decide (b = SPACE) && (first || match k with [] => true | c :: _ => bool_decide (c = COMMA) end) = false) as ->.
  { destruct H5 as [H5|[-> H5]]; [by rewrite bool_decide_false|]. destruct k; [done|]. by rewrite (bool_decide_false (_ = COMMA)), andb_false_r. }
  by rewrite Hk.
Qed.

(** The escaped tail of a name does not start with a comma, and is empty only for no name. *)
Lemma dn_byte_head first last b : exists x y, dn_byte first last b = x :: y /\ x <> COMMA.
Proof.
  unfold dn_byte. destruct (dn_special b) eqn:E; [by eexists _, _|]. repeat case_match; try by eexists _, _.
  destruct (encode_byte_cases b) as [[_ ->]|[_ (x & y & -> & Hx & _)]]; eexists _, _; (split; [done|]).
  - intros ->. done.
  - intros ->. by vm_compute in Hx.
Qed.

Lemma read_dn_byte first last b k p :
  (last = false -> match k with [] => False | c :: _ => c <> COMMA end) -> read_dn_rest false k = Some p ->
  read_dn_rest first (dn_byte first last b ++ k) = Some (utf8_encode_char (byte.unsigned b) ++ p.1, p.2).
Proof.
  intros Hl Hk. unfold dn_byte. destruct (dn_special b) eqn:E1.
  { assert (utf8_encode_char (byte.unsigned b) = [b]) as -> by (destruct b; done).
    cbn [app]. cbn [read_dn_rest]. rewrite bool_decide_false by done. rewrite bool_decide_true by done. rewrite E1. cbn [orb]. by rewrite Hk. }
  destruct (decide (b = Byte.x00)) as [->|H0]; [rewrite bool_decide_true by done; cbn; by rewrite Hk|]. rewrite (bool_decide_false (b = Byte.x00)) by done.
  destruct (decide (b = SPACE)) as [->|Hs].
  { rewrite bool_decide_true by done. rewrite (bool_decide_false (SPACE = HASH)) by done. cbn [andb].
    destruct first; [cbn; by rewrite Hk|]. destruct last; [cbn; by rewrite Hk|]. cbn [andb].
    change (utf8_encode_char (byte.unsigned SPACE)) with [SPACE]. cbn [app]. apply read_dn_plain; try done; [by right|]. right. split; [done|]. by apply Hl. }
  rewrite (bool_decide_false (b = SPACE)) by done. cbn [andb]. destruct (decide (b = HASH)) as [->|Hh].
  { rewrite bool_decide_true by done. destruct first; [cbn; by rewrite Hk|]. cbn [andb].
    change (utf8_encode_char (byte.unsigned HASH)) with [HASH]. cbn [app]. apply read_dn_plain; try done; [by right|by left]. }
  rewrite (bool_decide_false (b = HASH)) by done. cbn [andb].
  destruct (encode_byte_cases b) as [[_ ->]|[Hb (x & y & -> & Hx & Hy)]]; cbn [app].
  - apply read_dn_plain; try done; [by intros ->|by left|by left].
  - assert (forall z, 0x80 <= byte.unsigned z -> z <> COMMA /\ dn_special z = false /\ z <> Byte.x00 /\ z <> HASH /\ z <> SPACE) as Hz.
    { clear. intros z Hz. destruct z; vm_compute in Hz; try (by destruct Hz); split_and!; done. }
    destruct (Hz x Hx) as (? & ? & ? & ? & ?). destruct (Hz y Hy) as (? & ? & ? & ? & ?).
    rewrite (read_dn_plain x (y :: k) (y :: p.1, p.2) first); [done|done|done|done|by left|by left|].
    apply read_dn_plain; try done; by left.
Qed.

Lemma escape_dn_reads bs rest first :
  rest = [] \/ head rest = Some COMMA -> read_dn_rest first (dn_loop first bs ++ rest) = Some (latin1 bs, rest).
Proof.
  intros Hr. revert first. induction bs as [|b bs IH]; intros first.
  - cbn. destruct Hr as [->|Hr]; [done|]. destruct rest as [|c rest]; [done|]. injection Hr as ->. cbn. done.
  - cbn [dn_loop]. rewrite <- app_assoc, latin1_cons. rewrite (read_dn_byte first _ b _ (latin1 bs, rest)); [done| |apply IH].
    case_bool_decide as Hb; [done|]. intros _. destruct bs as [|b' bs]; [done|]. cbn [dn_loop].
    destruct (dn_byte_head false (bool_decide (bs = [])) b') as (x & y & -> & Hx). by cbn.
Qed.

(** Only ASCII names are themselves in a distinguished name. *)
Lemma latin1_length bs : (length bs <= length (latin1 bs))%nat.
Proof.
  induction bs as [|b bs IH]; [done|]. rewrite latin1_cons, length_app.
  destruct (encode_byte_cases b) as [[_ ->]|[_ (x & y & -> & _)]]; simpl; lia.
Qed.

Lemma latin1_ascii bs : latin1 bs = bs <-> Forall ascii_byte bs.
Proof.
  split; [|apply utf8_encode_ascii]. induction bs as [|b bs IH]; [constructor|]. rewrite latin1_cons.
  pose proof (latin1_length bs). destruct (encode_byte_cases b) as [[Hb ->]|[_ (x & y & -> & _)]]; intros E.
  - injection E as E. constructor; auto.
  - exfalso. apply (f_equal length) in E. simpl in E. lia.
Qed.

(** ** Templates *)

Lemma placeholders_step a b r :
  (a = OPEN_BRACE /\ b = CLOSE_BRACE /\ placeholders (a :: b :: r) = 1 + placeholders r /\
   forall x, replace_placeholders x (a :: b :: r) = x ++ replace_placeholders x r) \/
  (placeholders (a :: b :: r) = placeholders (b :: r) /\
   forall x, replace_placeholders x (a :: b :: r) = a :: replace_placeholders x (b :: r)).
Proof.
  cbn [placeholders replace_placeholders]. case_bool_decide; [|by right]. case_bool_decide; [by left|by right].
Qed.

Lemma placeholders_nonneg s : 0 <= placeholders s.
Proof.
  induction s as [s IH] using (induction_ltof1 _ (@length byte)). unfold ltof in IH. destruct s as [|a [|b r]]; [done|done|].
  destruct (placeholders_step a b r) as [(_ & _ & -> & _)|[-> _]].
  - pose proof (IH r ltac:(simpl; lia)). lia.
  - apply IH. simpl. lia.
Qed.

Lemma replace_none s x : placeholders s = 0 -> replace_placeholders x s = s.
Proof.
  induction s as [s IH] using (induction_ltof1 _ (@length byte)). unfold ltof in IH. destruct s as [|a [|b r]]; [done|done|].
  destruct (placeholders_step a b r) as [(_ & _ & -> & _)|[-> ->]]; intros H.
  - pose proof (placeholders_nonneg r). lia.
  - f_equal. apply IH; [simpl; lia|done].
Qed.

Lemma replace_once s :
  placeholders s = 1 ->
  exists pre post, s = pre ++ [OPEN_BRACE; CLOSE_BRACE] ++ post /\ forall x, replace_placeholders x s = pre ++ x ++ post.
Proof.
  induction s as [s IH] using (induction_ltof1 _ (@length byte)). unfold ltof in IH. destruct s as [|a [|b r]]; [done|done|].
  destruct (placeholders_step a b r) as [(-> & -> & Hp & Hr)|[Hp Hr]]; rewrite Hp; intros H.
  - exists [], r. split; [done|]. intros x. rewrite Hr. by rewrite (replace_none r) by lia.
  - destruct (IH (b :: r) ltac:(simpl; lia) H) as (pre & post & Hs & Hx). exists (a :: pre), post. split; [by rewrite Hs|].
    intros x. by rewrite Hr, Hx.
Qed.

Lemma fill_once template :
  placeholders (as_bytes template) = 1 ->
  exists pre post, as_bytes template = pre ++ as_bytes "{}" ++ post /\ forall x, as_bytes (fill template x) = pre ++ as_bytes x ++ post.
Proof.
  intros (pre & post & Hs & Hx)%replace_once. exists pre, post. split; [done|]. intros x. unfold fill. rewrite as_from_bytes. apply Hx.
Qed.

Lemma ldap_validate_inv c :
  ldap_validate c = Ok tt ->
  placeholders (as_bytes (ld_bind_dn_template c)) = 1 /\ placeholders (as_bytes (ld_user_search_filter c)) = 1 /\
  (ld_tls_mode c = TlsNone -> ld_allow_plaintext c = true).
Proof.
  unfold ldap_validate. repeat (case_if; [done|]). bool_to_prop. intros _. split_and!; [done|done|]. intros Ht.
  rewrite bool_decide_true in * by done. by destruct (ld_allow_plaintext c).
Qed.

(** C34: names cannot inject. Under a validated configuration the filter of the search and the
    name of the bind are the two halves of their templates around the escaped user name,
    whatever it is. Read as RFC 4515 prescribes, the value in the filter is exactly the user
    name; read as RFC 4514 prescribes, the value in the distinguished name is the sequence of
    the bytes of the user name taken as characters, and this is the user name exactly if it
    is ASCII. *)
Theorem ldap_names_confined c username :
  ldap_validate c = Ok tt -> utf8_valid (as_bytes username) = true ->
  (exists pre post, as_bytes (ld_user_search_filter c) = pre ++ as_bytes "{}" ++ post /\
     as_bytes (search_filter_of c username) = pre ++ as_bytes (escape_ldap_filter username) ++ post) /\
  (exists pre post, as_bytes (ld_bind_dn_template c) = pre ++ as_bytes "{}" ++ post /\
     as_bytes (bind_dn_of c username) = pre ++ as_bytes (escape_dn_value username) ++ post) /\
  (forall rest, read_filter_value (as_bytes (escape_ldap_filter username) ++ PAREN_CLOSE :: rest)
     = Some (as_bytes username, PAREN_CLOSE :: rest)) /\
  (forall rest, rest = [] \/ head rest = Some COMMA ->
     read_dn_value (as_bytes (escape_dn_value username) ++ rest) = Some (latin1 (as_bytes username), rest)) /\
  (latin1 (as_bytes username) = as_bytes username <-> Forall ascii_byte (as_bytes username)).
Proof.
  intros (Hb & Hf & _)%ldap_validate_inv Hu. split_and!.
  - destruct (fill_once _ Hf) as (pre & post & Hs & Hx). exists pre, post. split; [done|]. apply Hx.
  - destruct (fill_once _ Hb) as (pre & post & Hs & Hx). exists pre, post. split; [done|]. apply Hx.
  - intros rest. unfold utf8_valid in Hu. destruct (utf8_chars (as_bytes username)) as [cs|] eqn:E; [|done].
    unfold escape_ldap_filter, chars. rewrite E, as_from_bytes. by apply escape_filter_reads.
  - intros rest Hr. unfold escape_dn_value, read_dn_value. rewrite as_from_bytes. by apply escape_dn_reads.
  - apply latin1_ascii.
Qed.

(** ** Logins *)

Lemma map_role_inv mapping groups role :
  map_role_loop mapping groups = Some role ->
  exists i group name, mapping !! i = Some (group, name) /\ group ∈ groups /\ parse_role name = Some role /\
    forall j pair, (j < i)%nat -> mapping !! j = Some pair -> pair.1 ∉ groups.
Proof.
  induction mapping as [|[group name] mapping IH]; [done|]. cbn [map_role_loop]. case_bool_decide as Hg; intros Hr.
  - exists 0%nat, group, name. split_and!; [done..|]. intros j pair Hj. lia.
  - destruct (IH Hr) as (i & g & n & H1 & H2 & H3 & H4). exists (S i), g, n. split_and!; [done..|].
    intros [|j] pair Hj Hp; [by injection Hp as <-|]. eapply H4; [|exact Hp]. lia.
Qed.

Lemma ldap_tenant_inv c entry t :
  ldap_tenant c entry = Ok t -> match t with Some id => validate_str id = Ok tt | None => True end.
Proof.
  unfold ldap_tenant, TenantId_try_new. destruct (_ ≫= _) as [raw|]; [|by intros [= <-]].
  destruct (validate_str raw) as [[]|] eqn:E; [|done]. by intros [= <-].
Qed.

Section Login.
Context {Conn : Type} `{LdapCrates} `{HexCrate} `{MapIter}.
Implicit Types (p : LdapAuthProvider Conn) (env : LdapEnv Conn).

Lemma take_connection_config env p r p' : take_connection env p = COk (r, p') ->
  lp_config p' = lp_config p /\ lp_rate_limiter p' = lp_rate_limiter p.
Proof.
  unfold take_connection, open_overflow. destruct (take_slot _ _ _) as [[conn pool]|[]]; [by intros [= <- <-]| |].
  - destruct (take_first _) as [[[conn pool]|]|]; [by intros [= <- <-]| |done]. repeat case_match; by intros [= <- <-].
  - repeat case_match; by intros [= <- <-].
Qed.

Lemma bind_user_inv env dn password conn ov p r p' :
  bind_user env dn password conn ov p = (r, p') ->
  (lp_config p' = lp_config p /\ lp_rate_limiter p' = lp_rate_limiter p) /\
  match r with Ok (conn', _) => le_bind env conn' dn password = Some 0 | Err _ => True end.
Proof.
  unfold bind_user. destruct (le_bind env conn dn password) as [rc|] eqn:E.
  - destruct (rc =? 0) eqn:Ez; intros [= <- <-]; [|done]. bool_to_prop. by subst.
  - destruct ov; (destruct (open_connection _ _) as [fresh|]; [|by intros [= <- <-]]);
      (destruct (le_bind env fresh dn password) as [rc|] eqn:E2; [|by intros [= <- <-]]);
      (destruct (rc =? 0) eqn:Ez; intros [= <- <-]; [|done]); bool_to_prop; by subst.
Qed.

(** What the directory confirmed when a login succeeded. *)
Lemma ldap_authenticate_inv env username password p r p' :
  ldap_authenticate env username password p = COk (r, p') ->
  (lp_config p' = lp_config p /\ lp_rate_limiter p' = lp_rate_limiter p) /\
  match r with
  | Ok identity =>
      exists conn entry others, le_bind env conn (bind_dn_of (lp_config p) username) password = Some 0 /\
        le_search env conn (ld_base_dn (lp_config p)) (search_filter_of (lp_config p) username) (search_attrs (lp_config p))
          = Some (entry :: others) /\
        ldap_identity (lp_config p) username entry = Ok identity
  | Err _ => True
  end.
Proof.
  unfold ldap_authenticate. intros Ha. inv_comp. destruct a as [[[conn ov]|e] p1]; apply take_connection_config in E as [Hc Hl];
    [|injection Ha as <- <-; split; [done|exact I]].
  destruct (bind_user env _ password conn ov p1) as [[[conn' ov']|e] p2] eqn:Eb;
    apply bind_user_inv in Eb as [[Hc2 Hl2] Hb]; rewrite Hc, Hl in *; [|injection Ha as <- <-; split; [done|exact I]].
  destruct (le_search env conn' _ _ _) as [found|] eqn:Es; [|injection Ha as <- <-; split; [done|exact I]].
  assert (forall q : LdapAuthProvider Conn, lp_config (return_connection env conn' ov' q) = lp_config q /\
    lp_rate_limiter (return_connection env conn' ov' q) = lp_rate_limiter q) as Hret by (intros q; by destruct ov').
  destruct (Hret p2) as [Hr1 Hr2].
  destruct found as [|entry others]; injection Ha as <- <-; (split; [by rewrite Hr1, Hr2|]); [exact I|].
  destruct (ldap_identity _ username entry) as [identity|] eqn:Ei; [|exact I]. by exists conn', entry, others.
Qed.

(** What an LDAP login means. If a login succeeds, the limiter had not locked the name,
    the directory accepted the password for the name of the bind, and on this connection
    found an entry for the user name; the role is that of the first mapped group the entry
    has, the tenant is a valid identifier, the identity is the user name, and the failures
    counted against the name are forgotten. A login that fails is counted. *)
Theorem ldap_login_sound env username password p r p' :
  ldap_provider_authenticate env (CredLdapBind username password) p = COk (r, p') ->
  let c := lp_config p in
  let key := hashed_username username in
  let checked := check_rate_limit (le_limit_cleanup env) (le_limit_now env) key (lp_rate_limiter p) in
  match r with
  | Ok identity => checked.1 = Ok tt /\ lp_rate_limiter p' = record_success key checked.2 /\
      exists conn entry others i group name,
        le_bind env conn (bind_dn_of c username) password = Some 0 /\
        le_search env conn (ld_base_dn c) (search_filter_of c username) (search_attrs c) = Some (entry :: others) /\
        ld_role_mapping c !! i = Some (group, name) /\ group ∈ default [] (entry !! ld_group_attribute c) /\
        parse_role name = Some (au_role identity) /\
        (forall j pair, (j < i)%nat -> ld_role_mapping c !! j = Some pair -> pair.1 ∉ default [] (entry !! ld_group_attribute c)) /\
        au_user_id identity = "ldap:" +:+ username /\ au_mfa_required identity = ld_require_mfa c /\
        match au_tenant_id identity with Some id => validate_str id = Ok tt | None => True end
  | Err e => checked.1 = Err e \/
      record_failure (le_failure_now env) (le_failure_cleanup env) key checked.2 = Some (lp_rate_limiter p')
  end.
Proof.
  cbv zeta. cbn [ldap_provider_authenticate].
  destruct (check_rate_limit _ _ (hashed_username username) (lp_rate_limiter p)) as [[[]|e] l]; cbn [fst snd];
    [|intros [= <- <-]; by left].
  intros Ha. inv_comp. destruct a as [[identity|e] p1]; apply ldap_authenticate_inv in E as [[Hc Hl] Hr]; cbn [lp_config set_ldap_limiter lp_rate_limiter] in *.
  - injection Ha as <- <-. split; [done|]. split; [cbn; by rewrite Hl|].
    destruct Hr as (conn & entry & others & Hb & Hs & Hi). unfold ldap_identity in Hi.
    destruct (map_role _ _) as [role|] eqn:Em; [|done]. destruct (ldap_tenant _ entry) as [t|] eqn:Et; [|done]. cbn in Hi. injection Hi as <-.
    apply map_role_inv in Em as (i & group & name & H1' & H2' & H3' & H4'). apply ldap_tenant_inv in Et.
    exists conn, entry, others, i, group, name. split_and!; done.
  - destruct (record_failure _ _ _ _) as [l'|] eqn:Ef; [|done]. cbn in Ha. injection Ha as <- <-. right. by rewrite Hl in Ef.
Qed.

(** ** Connections *)

Record pool_ok p : Prop := {
  po_pool : lp_pool p <> [];
  po_count : 0 <= lp_overflow_count p <= lp_max_overflow p;
  po_max : lp_max_overflow p < 2 ^ 64;
}.

Lemma take_slot_length locked i (pool : list (option Conn)) conn pool' :
  take_slot locked i pool = inl (conn, pool') -> length pool' = length pool.
Proof.
  revert i pool'. induction pool as [|slot pool IH]; intros i pool'; [done|]. cbn [take_slot].
  destruct (take_slot locked (S i) pool) as [[c rest]|] eqn:E; pose proof (IH (S i)) as IH'; rewrite E in IH';
    destruct (locked i), slot; try done; intros [= <- <-]; cbn; try done; f_equal; by apply IH'.
Qed.

Lemma put_slot_length locked i conn (pool : list (option Conn)) : length (put_slot locked i conn pool) = length pool.
Proof. revert i. induction pool as [|[c|] pool IH]; intros i; cbn; [done|by rewrite IH|]. destruct (locked i); cbn; [by rewrite IH|done]. Qed.

Lemma nonempty_length {A} (l l' : list A) : l <> [] -> length l' = length l -> l' <> [].
Proof. destruct l, l'; done. Qed.

Lemma open_overflow_ok env p r p' :
  pool_ok p -> open_overflow env p = (r, p') ->
  pool_ok p' /\ lp_max_overflow p' = lp_max_overflow p /\
  match r with Ok (_, ov) => ov = true /\ 1 <= lp_overflow_count p' | Err _ => True end.
Proof.
  intros [H1' H2' H3'] Ho. unfold open_overflow in Ho. destruct (_ <=? _) eqn:E in Ho; [injection Ho as <- <-; by split|]. bool_to_prop.
  destruct (open_connection _ _) as [conn|]; injection Ho as <- <-.
  - split; [split|split; [done|split; [done|]]]; cbn; rewrite ?Z.mod_small by lia; done || lia.
  - split; [|done]. split; cbn; [done| |done]. rewrite (Z.mod_small (_ + 1)), Z.mod_small by lia. lia.
Qed.

Lemma take_connection_ok env p :
  pool_ok p -> exists r p', take_connection env p = COk (r, p') /\ pool_ok p' /\ lp_max_overflow p' = lp_max_overflow p /\
    match r with Ok (_, ov) => ov = true -> 1 <= lp_overflow_count p' | Err _ => True end.
Proof.
  intros Hp. assert (exists r p', open_overflow env p = (r, p')) as (r & p' & Eo) by (destruct (open_overflow env p); eauto).
  pose proof (open_overflow_ok env p r p' Hp Eo) as (Ho1 & Ho2 & Ho3).
  assert (match r with Ok (_, ov) => ov = true -> 1 <= lp_overflow_count p' | Err _ => True end) as Ho4.
  { destruct r as [[c ov]|]; [|done]. by destruct Ho3. }
  unfold take_connection. destruct (take_slot _ 0 (lp_pool p)) as [[conn pool]|[]] eqn:E.
  - eexists _, _. split; [done|]. apply take_slot_length in E. destruct Hp. split; [|done]. split; cbn; try done. by eapply nonempty_length.
  - destruct (lp_pool p) as [|[conn|] rest] eqn:Ep; [by destruct Hp| |].
    + eexists _, _. split; [done|]. destruct Hp. split; [|done]. by split.
    + eexists _, _. rewrite Eo. by split.
  - eexists _, _. rewrite Eo. by split.
Qed.

Lemma add_overflow_ok p : pool_ok p -> 1 <= lp_overflow_count p -> pool_ok (add_overflow (-1) p).
Proof. intros [H1' H2' H3'] Hc. split; cbn; [done| |done]. rewrite Z.mod_small; lia. Qed.

Lemma return_connection_ok env conn ov p :
  pool_ok p -> (ov = true -> 1 <= lp_overflow_count p) -> pool_ok (return_connection env conn ov p).
Proof.
  intros Hp Hc. assert (forall q, pool_ok q -> pool_ok (set_pool (put_slot (le_return_locked env) 0 conn (lp_pool q)) q)) as Hset.
  { intros q [H1' H2' H3']. split; cbn; try done. eapply nonempty_length; [done|]. apply put_slot_length. }
  unfold return_connection. destruct ov; [|by apply Hset]. by apply Hset, add_overflow_ok; auto.
Qed.

Lemma bind_user_ok env dn password conn ov p r p' :
  pool_ok p -> (ov = true -> 1 <= lp_overflow_count p) -> bind_user env dn password conn ov p = (r, p') ->
  pool_ok p' /\ lp_max_overflow p' = lp_max_overflow p /\ match r with Ok (_, ov') => ov' = true -> 1 <= lp_overflow_count p' | Err _ => True end.
Proof.
  intros Hp Hc. unfold bind_user. destruct (le_bind env conn dn password) as [rc|].
  - destruct (negb (rc =? 0)); by intros [= <- <-].
  - assert (pool_ok (if ov then add_overflow (-1) p else p)) as Hq by (destruct ov; [apply add_overflow_ok; auto|done]).
    assert (lp_max_overflow (if ov then add_overflow (-1) p else p) = lp_max_overflow p) as Hm by (by destruct ov).
    revert Hq Hm. generalize (if ov then add_overflow (-1) p else p). intros q Hq Hm.
    intros Hr. assert (p' = q /\ match r with Ok (_, ov') => ov' = false | Err _ => True end) as [-> Hf] by (repeat case_match; by simplify_eq).
    split; [done|]. split; [done|]. destruct r as [[c b]|]; [|done]. by rewrite Hf.
Qed.

Lemma ldap_authenticate_ok env username password p :
  pool_ok p -> exists r p', ldap_authenticate env username password p = COk (r, p') /\ pool_ok p' /\ lp_max_overflow p' = lp_max_overflow p.
Proof.
  intros Hp. destruct (take_connection_ok env p Hp) as (r & p1 & E & Hp1 & Hm1 & Hr). unfold ldap_authenticate. rewrite E. cbn [comp_bind].
  destruct r as [[conn ov]|e]; [|by eexists _, _]. destruct (bind_user env _ password conn ov p1) as [r2 p2] eqn:Eb.
  destruct (bind_user_ok _ _ _ _ _ _ _ _ Hp1 Hr Eb) as (Hp2 & Hm2 & Hr2). rewrite <- Hm1, <- Hm2.
  destruct r2 as [[conn' ov']|e]; [|by eexists _, _]. destruct (le_search env conn' _ _ _) as [found|]; [|by eexists _, _].
  pose proof (return_connection_ok env conn' ov' p2 Hp2 Hr2) as Hp3.
  assert (lp_max_overflow (return_connection env conn' ov' p2) = lp_max_overflow p2) as Hm3 by (by destruct ov').
  destruct found as [|entry others]; eexists _, _; (split; [done|]); by rewrite <- Hm3.
Qed.

(** ** Exhausted connections *)

(** No cached connection, and no new one is allowed. *)
Definition exhausted p : Prop := Forall (eq None) (lp_pool p) /\ lp_max_overflow p <= lp_overflow_count p.

Lemma take_slot_none locked i (pool : list (option Conn)) : Forall (eq None) pool -> exists b, take_slot locked i pool = inr b.
Proof.
  intros Hf. revert i. induction Hf as [|slot pool <- Hf IH]; intros i; [by exists true|]. cbn [take_slot].
  destruct (IH (S i)) as [b ->]. destruct (locked i); eauto.
Qed.

Lemma exhausted_refuses env username password p :
  exhausted p -> lp_pool p <> [] -> ldap_authenticate env username password p = COk (Err connection_pool_exhausted, p).
Proof.
  intros [Hf Hc] Hne. unfold ldap_authenticate, take_connection, open_overflow. rewrite (proj2 (Z.leb_le _ _)) by done.
  destruct (take_slot_none (le_take_locked env) 0 (lp_pool p) Hf) as [b ->]. destruct b; [|done].
  destruct (lp_pool p) as [|slot rest]; [done|]. apply Forall_cons in Hf as [<- _]. done.
Qed.

(** A call on an exhausted provider fails, and leaves it exhausted. *)
Lemma exhausted_call env username password p r p' :
  exhausted p -> lp_pool p <> [] -> ldap_provider_authenticate env (CredLdapBind username password) p = COk (r, p') ->
  (exists e, r = Err e) /\ exhausted p' /\ lp_pool p' <> [].
Proof.
  intros Hx Hne. cbn [ldap_provider_authenticate]. destruct (check_rate_limit _ _ _ _) as [[[]|e] l]; [|intros [= <- <-]; by eauto].
  rewrite exhausted_refuses by done. cbn [comp_bind]. destruct (record_failure _ _ _ _) as [l'|]; [|done].
  cbn. intros [= <- <-]. eauto.
Qed.

(** A wrong password takes a connection that is never given back. *)
Lemma wrong_password_leaks env username password p conn rc :
  Forall (eq None) (lp_pool p) -> lp_pool p <> [] -> lp_overflow_count p < lp_max_overflow p < 2 ^ 64 -> 0 <= lp_overflow_count p ->
  open_connection (le_open env) (lp_config p) = Ok conn -> le_bind env conn (bind_dn_of (lp_config p) username) password = Some rc -> rc <> 0 ->
  ldap_authenticate env username password p = COk (Err PinIncorrect, add_overflow 1 p).
Proof.
  intros Hf Hne Hc Hz Ho Hb Hrc. unfold ldap_authenticate, take_connection, open_overflow.
  rewrite (proj2 (Z.leb_gt _ _)) by lia. change (lp_config (add_overflow 1 p)) with (lp_config p). rewrite Ho.
  destruct (take_slot_none (le_take_locked env) 0 (lp_pool p) Hf) as [b ->].
  assert (match take_first (lp_pool p) with
    | None => CPanic
    | Some (Some (c, pool)) => COk (Ok (c, false), set_pool pool p)
    | Some None => COk (Ok (conn, true), add_overflow 1 p) end = COk (Ok (conn, true), add_overflow 1 p) :> comp (result (Conn * bool) HsmError * LdapAuthProvider Conn) Empty_set) as E.
  { destruct (lp_pool p) as [|slot rest]; [done|]. by apply Forall_cons in Hf as [<- _]. }
  destruct b; [rewrite E|]; cbn [comp_bind]; unfold bind_user; rewrite Hb; by rewrite (proj2 (Z.eqb_neq _ _)).
Qed.

(** ** Sequences of logins *)

Abbreviation LdapLogin := (LdapEnv Conn * string * string)%type.

Fixpoint ldap_calls (calls : list LdapLogin) p
    : comp (list (result AuthResult HsmError) * LdapAuthProvider Conn) Empty_set :=
  match calls with
  | [] => COk ([], p)
  | (env, username, password) :: calls =>
      let? (r, p) := ldap_provider_authenticate env (CredLdapBind username password) p in
      let? (rs, p) := ldap_calls calls p in
      COk (r :: rs, p)
  end.

Lemma ldap_calls_cons env username password calls p rs p' :
  ldap_calls ((env, username, password) :: calls) p = COk (rs, p') ->
  exists r q rs', ldap_provider_authenticate env (CredLdapBind username password) p = COk (r, q) /\
    ldap_calls calls q = COk (rs', p') /\ rs = r :: rs'.
Proof.
  cbn [ldap_calls]. destruct (ldap_provider_authenticate _ _ p) as [[r q]| | |]; [|done..]. cbn [comp_bind].
  destruct (ldap_calls calls q) as [[rs' q']| | |] eqn:E; [|done..]. cbn. intros [= <- <-]. by exists r, q, rs'.
Qed.

Lemma ldap_new_ok c p :
  ldap_try_new c = Ok p -> 0 <= ld_pool_size c < 2 ^ 64 -> (forall mc, ld_max_connections c = Some mc -> 0 <= mc < 2 ^ 64) ->
  pool_ok p /\ Forall (eq None) (lp_pool p) /\ lp_overflow_count p = 0.
Proof.
  intros Hn Hs Hm. unfold ldap_try_new in Hn. destruct (ldap_validate c); [|done]. injection Hn as <-. split; [|split; [|done]].
  - split; cbn; [|destruct (ld_max_connections c) as [mc|]; [specialize (Hm mc eq_refl)|]; unfold saturating_sub; lia..].
    destruct (Z.to_nat _) eqn:E; [lia|done].
  - apply Forall_forall. intros x Hx. cbn in Hx. by apply elem_of_replicate in Hx as [-> _].
Qed.

Lemma provider_authenticate_ok env username password p r p' :
  pool_ok p -> ldap_provider_authenticate env (CredLdapBind username password) p = COk (r, p') ->
  pool_ok p' /\ lp_max_overflow p' = lp_max_overflow p.
Proof.
  intros Hp. cbn [ldap_provider_authenticate]. destruct (check_rate_limit _ _ _ _) as [[[]|e] l].
  - assert (pool_ok (set_ldap_limiter l p)) as Hl by (by destruct Hp).
    destruct (ldap_authenticate_ok env username password _ Hl) as ([i|e] & p1 & -> & [] & Hm); cbn [comp_bind].
    + by intros [= <- <-].
    + destruct (record_failure _ _ _ _); [|done]. by intros [= <- <-].
  - intros [= <- <-]. by destruct Hp.
Qed.

(** The counter of overflow connections. In every sequence of logins on a new provider it
    stays between zero and the limit, which never changes: it does not wrap around; and the
    next login finds its way through the pool, the bind and the search without a panic,
    whatever the directory answers and other threads hold. *)
Theorem ldap_overflow_bounded c p0 calls rs p env username password :
  ldap_try_new c = Ok p0 -> 0 <= ld_pool_size c < 2 ^ 64 -> (forall mc, ld_max_connections c = Some mc -> 0 <= mc < 2 ^ 64) ->
  ldap_calls calls p0 = COk (rs, p) ->
  lp_max_overflow p = lp_max_overflow p0 /\ 0 <= lp_overflow_count p <= lp_max_overflow p /\
  exists r p', ldap_authenticate env username password p = COk (r, p').
Proof.
  intros Hn Hs Hm Hc. destruct (ldap_new_ok c p0 Hn Hs Hm) as (Hp & _). clear Hn.
  assert (pool_ok p /\ lp_max_overflow p = lp_max_overflow p0) as [Hp' Hmax].
  { revert p0 rs Hp Hc. induction calls as [|[[e u] w] calls IH]; intros p0 rs Hp Hc; [by injection Hc as <- <-|].
    apply ldap_calls_cons in Hc as (r & q & rs' & Hq & Hc & ->). destruct (provider_authenticate_ok _ _ _ _ _ _ Hp Hq) as [Hq' <-].
    by eapply IH. }
  split; [done|]. split; [apply Hp'|]. destruct (ldap_authenticate_ok env username password p Hp') as (r & p' & Hr & _). eauto.
Qed.

(** A login with a password that the directory refuses. *)
Definition wrong_password (c : LdapConfig) (call : LdapLogin) : Prop :=
  let '(env, username, password) := call in
  exists conn rc, open_connection (le_open env) c = Ok conn /\ le_bind env conn (bind_dn_of c username) password = Some rc /\ rc <> 0.

Lemma exhausted_calls calls p rs p' :
  exhausted p -> lp_pool p <> [] -> ldap_calls calls p = COk (rs, p') -> Forall (fun r => exists e, r = Err e) rs.
Proof.
  revert p rs. induction calls as [|[[env u] w] calls IH]; intros p rs Hx Hne Hc; [injection Hc as <- <-; constructor|].
  apply ldap_calls_cons in Hc as (r & q & rs' & Hq & Hc & ->). destruct (exhausted_call _ _ _ _ _ _ Hx Hne Hq) as (He & Hx' & Hne').
  constructor; [done|]. by eapply IH.
Qed.

Lemma check_rate_limit_locked cleanup_now now key l e : (check_rate_limit cleanup_now now key l).1 = Err e -> e = PinLocked.
Proof. unfold check_rate_limit. repeat case_match; by intros [= <-]. Qed.

Lemma wrong_call env username password p r p' :
  wrong_password (lp_config p) (env, username, password) -> pool_ok p -> Forall (eq None) (lp_pool p) ->
  lp_overflow_count p < lp_max_overflow p ->
  ldap_provider_authenticate env (CredLdapBind username password) p = COk (r, p') -> r = Err PinIncorrect ->
  lp_config p' = lp_config p /\ lp_pool p' = lp_pool p /\ lp_overflow_count p' = lp_overflow_count p + 1.
Proof.
  intros (conn & rc & Ho & Hb & Hrc) [H1' H2' H3'] Hf Hlt. cbn [ldap_provider_authenticate].
  destruct (check_rate_limit _ _ _ _) as [[[]|e] l] eqn:E.
  - rewrite (wrong_password_leaks env username password (set_ldap_limiter l p) conn rc) by (done || cbn; lia). cbn [comp_bind].
    destruct (record_failure _ _ _ _) as [l'|]; [|done]. cbn. intros [= <- <-] _. split_and!; [done|done|]. cbn. apply Z.mod_small. lia.
  - intros [= <- <-] [= ->]. pose proof (check_rate_limit_locked (le_limit_cleanup env) (le_limit_now env) (hashed_username username) (lp_rate_limiter p) PinIncorrect) as Hl.
    rewrite E in Hl. by specialize (Hl eq_refl).
Qed.

Lemma wrong_calls calls p rs p' :
  Forall (wrong_password (lp_config p)) calls -> pool_ok p -> Forall (eq None) (lp_pool p) ->
  lp_overflow_count p + Z.of_nat (length calls) = lp_max_overflow p ->
  ldap_calls calls p = COk (rs, p') -> Forall (eq (Err PinIncorrect)) rs -> exhausted p' /\ lp_pool p' <> [].
Proof.
  revert p rs. induction calls as [|[[env u] w] calls IH]; intros p rs Hw Hp Hf Hlen Hc Hr.
  - injection Hc as <- <-. simpl in Hlen. destruct Hp. split; [split; [done|lia]|done].
  - apply ldap_calls_cons in Hc as (r & q & rs' & Hq & Hc & ->). apply Forall_cons in Hr as [<- Hr]. apply Forall_cons in Hw as [Hw Hws].
    simpl in Hlen. destruct (wrong_call _ _ _ _ _ _ Hw Hp Hf ltac:(lia) Hq eq_refl) as (E1 & E2 & E3).
    destruct (provider_authenticate_ok _ _ _ _ _ _ Hp Hq) as [Hp' E4].
    eapply (IH q rs'); [by rewrite E1|done|by rewrite E2|rewrite E3, E4; lia|done|done].
Qed.

(** Wrong passwords use up the directory connections. Each login whose password the
    directory refuses keeps the connection it opened in the count; once a new provider has
    refused as many as its limit (two by default), for whatever users, every later login of
    every user fails, for as long as the provider lives. With a total of connections no
    larger than the pool the limit is zero, and no login succeeds at all. *)
Theorem wrong_passwords_lock_out c p0 wrong rs p later rs' p' :
  ldap_try_new c = Ok p0 -> 0 <= ld_pool_size c < 2 ^ 64 -> (forall mc, ld_max_connections c = Some mc -> 0 <= mc < 2 ^ 64) ->
  Z.of_nat (length wrong) = lp_max_overflow p0 -> Forall (wrong_password c) wrong ->
  ldap_calls wrong p0 = COk (rs, p) -> Forall (eq (Err PinIncorrect)) rs ->
  ldap_calls later p = COk (rs', p') -> Forall (fun r => exists e, r = Err e) rs'.
Proof.
  intros Hn Hs Hm Hlen Hw Hc Hr Hl. destruct (ldap_new_ok c p0 Hn Hs Hm) as (Hp & Hf & H0').
  assert (lp_config p0 = c) as Hc0. { unfold ldap_try_new in Hn. destruct (ldap_validate c); [|done]. by injection Hn as <-. }
  destruct (wrong_calls wrong p0 rs p) as [Hx Hne]; [by rewrite Hc0|done|done|lia|done|done|]. by eapply exhausted_calls.
Qed.

End Login.


(** ** Examples *)

#[local] Instance ldap_demo_hash : LdapCrates := {| ldap_sha256 := fun bs => bs |}.
#[local] Instance ldap_demo_hex : HexCrate := {| hex_encode := from_bytes |}.
#[local] Existing Instance key_order.

Definition ldap_demo_config (pool_size : Z) (max_connections : option Z) (tenant_attribute : option string) : LdapConfig :=
  mkLdapConfig "ldaps://dir" "dc=example" "uid={},dc=example" [("cn=admins", "so"); ("cn=staff", "user")] tenant_attribute
    Ldaps default_user_filter default_group_attribute default_timeout_secs true pool_size max_connections None false.

(** A directory with one user, whose password is right, and, as RFC 4513 has it, with success
    for every bind that has a name and no password. *)
Definition ldap_demo_dir (opens : option nat) (t : Z) : LdapEnv nat :=
  mkLdapEnv (fun _ => false) (fun _ => false) (fun _ _ => opens) (fun _ _ => None)
    (fun _ dn password =>
       if bool_decide (password = "") || bool_decide (dn = "uid=alice,dc=example") && bool_decide (password = "right") then Some 0 else Some 49)
    (fun _ _ f _ =>
       Some (if bool_decide (f = "(uid=alice)")
             then [{[ "memberOf" := ["cn=staff"; "cn=other"]; "tenant" := ["acme"] ]}] else []))
    t t t t.

Definition ldap_demo_provider : LdapAuthProvider nat :=
  default (mkLdap (ldap_demo_config 4 None (Some "tenant")) [] 0 0 (AuthRateLimiter_new RateLimitConfig_default))
    (match ldap_try_new (ldap_demo_config 4 None (Some "tenant")) with Ok p => Some p | Err _ => None end).

(** A login without a password: it is sent to the directory as it is, which takes it for an
    unauthenticated bind. *)
Example ldap_empty_password :
  match ldap_provider_authenticate (ldap_demo_dir (Some 7%nat) 1) (CredLdapBind "alice" "") ldap_demo_provider with
  | COk (Ok identity, _) => au_user_id identity = "ldap:alice" /\ au_tenant_id identity = Some "acme"
  | _ => False
  end.
Proof. vm_compute. done. Qed.

(** The name of the bind differs from the name that is searched: the two bytes of an accented
    letter become two letters in the distinguished name. *)
Example ldap_accented_name :
  let name := from_bytes [Byte.xc3; Byte.xa9] in
  as_bytes (bind_dn_of (ldap_demo_config 4 None None) name) = as_bytes "uid=" ++ [Byte.xc3; Byte.x83; Byte.xc2; Byte.xa9] ++ as_bytes ",dc=example" /\
  as_bytes (search_filter_of (ldap_demo_config 4 None None) name) = as_bytes "(uid=" ++ [Byte.xc3; Byte.xa9] ++ as_bytes ")".
Proof. vm_compute. done. Qed.

(** The first mapped group in the order of the names decides, and an unknown role there
    denies, whatever other groups the user has. *)
Example ldap_unknown_role_denies :
  map_role_loop [("cn=a", "janitor"); ("cn=b", "so")] ["cn=b"; "cn=a"] = None.
Proof. reflexivity. Qed.

(** One slot and a total of two connections: three are in use at once.  A returned overflow
    connection occupies the slot and is no longer counted when it is taken again. *)
Example ldap_connections_unbounded :
  match ldap_try_new (Conn := nat) (ldap_demo_config 1 (Some 2) None) with
  | Ok p0 =>
      let dir n := ldap_demo_dir (Some n) 1 in
      match take_connection (dir 1%nat) p0 with
      | COk (Ok (c1, ov1), p1) =>
          match take_connection (dir 2%nat) (return_connection (dir 1%nat) c1 ov1 p1) with
          | COk (Ok (c1', ov1'), p2) =>
              match take_connection (dir 2%nat) p2 with
              | COk (Ok (c2, ov2), p3) =>
                  match take_connection (dir 3%nat) (return_connection (dir 2%nat) c2 ov2 p3) with
                  | COk (Ok (c2', ov2'), p4) =>
                      match take_connection (dir 3%nat) p4 with
                      | COk (Ok (c3, ov3), p5) =>
                          (c1', c2', c3) = (1, 2, 3)%nat /\ (ov1', ov2', ov3) = (false, false, true) /\ lp_max_overflow p5 = 1
                      | _ => False
                      end
                  | _ => False
                  end
              | _ => False
              end
          | _ => False
          end
      | _ => False
      end
  | Err _ => False
  end.
Proof. vm_compute. done. Qed.

(** A configuration with the scheme of plain LDAP, no STARTTLS and no permission for plain
    text is accepted when its mode says LDAPS. *)
Example ldap_plaintext_accepted :
  let c := mkLdapConfig "ldap://dir" "dc=example" "uid={},dc=example" [] None Ldaps default_user_filter default_group_attribute
             default_timeout_secs false 4 None None false in
  ldap_validate c = Ok tt /\ starttls (conn_settings c) = false /\ ld_url c = "ldap://dir" /\ ld_allow_plaintext c = false.
Proof. done. Qed.

(** ** Witnesses *)

Lemma ldap_names_confined_witness :
  read_filter_value (as_bytes (escape_ldap_filter "*)(uid=admin") ++ as_bytes "))") = Some (as_bytes "*)(uid=admin", as_bytes "))") /\
  read_dn_value (as_bytes (escape_dn_value " eve,ou=admins#") ++ as_bytes ",dc=example") = Some (as_bytes " eve,ou=admins#", as_bytes ",dc=example").
Proof.
  split.
  - apply (proj1 (proj2 (proj2 (ldap_names_confined (ldap_demo_config 4 None None) "*)(uid=admin" eq_refl eq_refl)))).
  - apply (proj1 (proj2 (proj2 (proj2 (ldap_names_confined (ldap_demo_config 4 None None) " eve,ou=admins#" eq_refl eq_refl))))).
    right. reflexivity.
Defined.

Lemma ldap_login_sound_witness :
  exists identity p', ldap_provider_authenticate (ldap_demo_dir (Some 7%nat) 1) (CredLdapBind "alice" "right") ldap_demo_provider
    = COk (Ok identity, p') /\ au_user_id identity = "ldap:alice".
Proof.
  assert (exists identity p', ldap_provider_authenticate (ldap_demo_dir (Some 7%nat) 1) (CredLdapBind "alice" "right") ldap_demo_provider
    = COk (Ok identity, p')) as (identity & p' & E) by (eexists _, _; vm_compute; reflexivity).
  exists identity, p'. split; [done|]. pose proof (ldap_login_sound _ _ _ _ _ _ E) as Hs. cbv zeta in Hs.
  by destruct Hs as (_ & _ & conn & entry & others & i & group & name & _ & _ & _ & _ & _ & _ & Hu & _).
Defined.

Definition ldap_demo_wrong : list (LdapEnv nat * string * string) :=
  [(ldap_demo_dir (Some 7%nat) 1, "alice", "wrong"); (ldap_demo_dir (Some 8%nat) 2, "bob", "wrong")].

Lemma ldap_overflow_bounded_witness :
  exists rs p, ldap_calls ldap_demo_wrong ldap_demo_provider = COk (rs, p) /\ 0 <= lp_overflow_count p <= lp_max_overflow p.
Proof.
  assert (exists rs p, ldap_calls ldap_demo_wrong ldap_demo_provider = COk (rs, p)) as (rs & p & E)
    by (eexists _, _; vm_compute; reflexivity).
  exists rs, p. split; [done|].
  apply (ldap_overflow_bounded (ldap_demo_config 4 None (Some "tenant")) ldap_demo_provider ldap_demo_wrong rs p (ldap_demo_dir None 3) "alice" "right");
    [reflexivity|cbn; lia|done|done].
Defined.

Lemma wrong_passwords_lock_out_witness :
  exists rs p r p', ldap_calls ldap_demo_wrong ldap_demo_provider = COk (rs, p) /\ Forall (eq (Err PinIncorrect)) rs /\
    ldap_calls [(ldap_demo_dir (Some 9%nat) 100, "alice", "right")] p = COk ([r], p') /\ exists e, r = Err e.
Proof.
  assert (exists rs p, ldap_calls ldap_demo_wrong ldap_demo_provider = COk (rs, p) /\ rs = [Err PinIncorrect; Err PinIncorrect] /\
    exists r p', ldap_calls [(ldap_demo_dir (Some 9%nat) 100, "alice", "right")] p = COk ([r], p')) as (rs & p & E & -> & r & p' & El).
  { eexists _, _. split; [vm_compute; reflexivity|]. split; [reflexivity|]. eexists _, _. vm_compute. reflexivity. }
  exists [Err PinIncorrect; Err PinIncorrect], p, r, p'. split; [done|]. split; [by repeat constructor|]. split; [done|].
  assert (Forall (fun r : result AuthResult HsmError => exists e, r = Err e) [r]) as Hf.
  { apply (wrong_passwords_lock_out (ldap_demo_config 4 None (Some "tenant")) ldap_demo_provider ldap_demo_wrong
      [Err PinIncorrect; Err PinIncorrect] p [(ldap_demo_dir (Some 9%nat) 100, "alice", "right")] [r] p');
      [reflexivity|cbn; lia|done|reflexivity| |done|by repeat constructor|done].
    repeat constructor; eexists _, 49; (split; [reflexivity|split; [vm_compute; reflexivity|lia]]). }
  by inversion Hf.
Defined.
