(* ===== verification/AuthCert.v ===== *)
(** * Client certificates ([craton-hsm-auth/src/auth/cert.rs])

    Download and cache of revocation lists, validation of a certificate chain, revocation,
    roles from the subject, tenants from the alternative names, and the whole of
    [authenticate].  Certificates, names and lists are parsed and their signatures checked
    by [x509_parser], whose types and accessors are the class [X509Crate]; of the HTTP
    client of the default fetcher the class [ReqwestCrate] has the URL parser and the
    answers.  Every reading of the clock during a call is part of its environment. *)

From stdpp Require Import prelude gmap strings list.
From Stdlib Require Import ZArith Lia.
From coqutil Require Import Byte.
From S2P Require Import Prelude RustStd AuthRbac AuthTenant AuthRateLimit AuthMfa AuthProvider.
Local Open Scope rust_scope.
Local Open Scope string_scope.
Local Open Scope list_scope.
Local Open Scope Z_scope.

Module X509Auth.

(** ** The library of certificates *)

Inductive GeneralName (Name : Type) : Type :=
| RFC822Name (email : string)
| DNSName (dns : string)
| DirectoryName (dir_name : Name)
| OtherGeneralName.
Arguments RFC822Name {Name} email.
Arguments DNSName {Name} dns.
Arguments DirectoryName {Name} dir_name.
Arguments OtherGeneralName {Name}.

Inductive ParsedExtension (Name : Type) : Type :=
| SubjectAlternativeName (general_names : list (GeneralName Name))
| SubjectKeyIdentifier (kid : list byte)
| AuthorityKeyIdentifier (key_identifier : option (list byte))
| OtherExtension.
Arguments SubjectAlternativeName {Name} general_names.
Arguments SubjectKeyIdentifier {Name} kid.
Arguments AuthorityKeyIdentifier {Name} key_identifier.
Arguments OtherExtension {Name}.

Record BasicConstraints : Type := mkBasicConstraints { bc_ca : bool; bc_path_len_constraint : option Z }.
Record ExtendedKeyUsage : Type := mkEku { eku_client_auth : bool; eku_any : bool }.

(** An attribute is its type and its value, if this is text. *)
Class X509Crate := {
  Oid : Type;
  oid_eqb : Oid -> Oid -> bool;
  OID_X509_COMMON_NAME : Oid;
  OID_X509_ORGANIZATIONAL_UNIT : Oid;
  OID_X509_ORGANIZATION_NAME : Oid;
  OID_X509_EXT_SUBJECT_ALT_NAME : Oid;
  OID_X509_EXT_SUBJECT_KEY_IDENTIFIER : Oid;
  OID_X509_EXT_AUTHORITY_KEY_IDENTIFIER : Oid;
  X509Name : Type;
  name_eqb : X509Name -> X509Name -> bool;
  name_display : X509Name -> string;
  iter_common_name : X509Name -> list (option string);
  iter_attributes : X509Name -> list (Oid * option string);
  ASN1Time : Type;
  time_ltb : ASN1Time -> ASN1Time -> bool;
  timestamp : ASN1Time -> Z;
  PublicKey : Type;
  X509Certificate : Type;
  cert_from_der : list byte -> option X509Certificate;
  raw_serial : X509Certificate -> list byte;
  issuer : X509Certificate -> X509Name;
  subject : X509Certificate -> X509Name;
  public_key : X509Certificate -> PublicKey;
  is_valid_at : X509Certificate -> ASN1Time -> bool;
  extensions : X509Certificate -> list (Oid * ParsedExtension X509Name);
  basic_constraints : X509Certificate -> result (option BasicConstraints) unit;
  key_cert_sign : X509Certificate -> result (option bool) unit;
  extended_key_usage : X509Certificate -> result (option ExtendedKeyUsage) unit;
  verify_signature : X509Certificate -> PublicKey -> bool;
  Crl : Type;
  crl_from_der : list byte -> option Crl;
  crl_issuer : Crl -> X509Name;
  crl_extensions : Crl -> list (Oid * ParsedExtension X509Name);
  last_update : Crl -> ASN1Time;
  next_update : Crl -> option ASN1Time;
  revoked_serials : Crl -> list (list byte);
  crl_verify_signature : Crl -> PublicKey -> bool;
}.

(** ** Fetching lists *)

Definition NullCrlFetcher (url : string) : result (list byte) HsmError := Err FunctionNotSupported.

(** The answer to a request: the bytes of its body, after which the stream fails or ends. *)
Record HttpResponse : Type := mkHttpResponse {
  hr_success : bool;
  hr_content_length : option Z;
  hr_body : list byte;
  hr_body_fails : bool;
}.

(** [None] is a URL that does not parse, and a request that fails. *)
Class ReqwestCrate := { url_scheme_of : string -> option string }.

Definition MAX_BODY_BYTES : Z := 10 * 1024 * 1024.

(** [resp.take(cap).read_to_end] *)
Definition read_capped (cap : Z) (resp : HttpResponse) : option (list byte) :=
  if cap <=? len (hr_body resp) then Some (take (Z.to_nat cap) (hr_body resp))
  else if hr_body_fails resp then None
  else Some (hr_body resp).

Definition ReqwestCrlFetcher `{ReqwestCrate} (send : string -> option HttpResponse) (url : string) : result (list byte) HsmError :=
  match url_scheme_of url with
  | None => Err ArgumentsBad
  | Some scheme =>
      if negb (String.eqb scheme "https") then Err ArgumentsBad
      else
        match send url with
        | None => Err GeneralError
        | Some resp =>
            if negb (hr_success resp) then Err GeneralError
            else if match hr_content_length resp with Some n => MAX_BODY_BYTES <? n | None => false end then Err ArgumentsBad
            else
              let cap := saturating_add MAX_BODY_BYTES 1 in
              match read_capped cap resp with
              | None => Err GeneralError
              | Some buf => if MAX_BODY_BYTES <? len buf then Err ArgumentsBad else Ok buf
              end
        end
  end.

(** ** Configuration *)

Record CertRevocationConfig : Type := mkRevocation {
  rv_enabled : bool;
  rv_crls : list (list byte);
  rv_crl_urls : list string;
  rv_max_age_secs : Z;
  rv_require_next_update : bool;
}.

Definition default_crl_max_age_secs : Z := 86400.
Definition default_crl_require_next_update : bool := true.
Definition CertRevocationConfig_default : CertRevocationConfig :=
  mkRevocation false [] [] default_crl_max_age_secs default_crl_require_next_update.

Record CertRoleMapping : Type := mkCertRoleMapping { subject_pattern : string; cm_role : string }.

(** A fetcher answers from the network [Net] as it is during a refresh. *)
Record CertConfig (Net : Type) : Type := mkCertConfig {
  cc_subject_role_mapping : list CertRoleMapping;
  cc_tenant_san_oid : option string;
  cc_trusted_roots : list (list byte);
  cc_require_mfa : bool;
  cc_revocation : CertRevocationConfig;
  cc_http_fetcher : option (Net -> string -> result (list byte) HsmError);
}.
Arguments mkCertConfig {Net}.
Arguments cc_subject_role_mapping {Net} c.
Arguments cc_tenant_san_oid {Net} c.
Arguments cc_trusted_roots {Net} c.
Arguments cc_require_mfa {Net} c.
Arguments cc_revocation {Net} c.
Arguments cc_http_fetcher {Net} c.

Definition with_http_fetcher {Net} (fetcher : Net -> string -> result (list byte) HsmError) (c : CertConfig Net) : CertConfig Net :=
  mkCertConfig (cc_subject_role_mapping c) (cc_tenant_san_oid c) (cc_trusted_roots c) (cc_require_mfa c) (cc_revocation c) (Some fetcher).

Inductive RevocationOutcome : Type := Matched | NoUsableCrl.

Record TrustedRootIndex : Type := mkRootIndex { cfg_idx : nat; root_ski : option (list byte) }.

Record CertAuthProvider (Net : Type) : Type := mkCertProvider {
  cp_config : CertConfig Net;
  refreshed_crls : list (list byte);
  root_index : list TrustedRootIndex;
}.
Arguments mkCertProvider {Net}.
Arguments cp_config {Net} c.
Arguments refreshed_crls {Net} c.
Arguments root_index {Net} c.

Section Provider.
Context {Net : Type} `{X509Crate}.
Implicit Types (p : CertAuthProvider Net) (cert : X509Certificate).

(** ** Helpers *)

Definition find_extension (oid : Oid) (es : list (Oid * ParsedExtension X509Name)) : option (ParsedExtension X509Name) :=
  snd <$> List.find (fun e => oid_eqb e.1 oid) es.

Definition extract_cert_ski cert : option (list byte) :=
  find_extension OID_X509_EXT_SUBJECT_KEY_IDENTIFIER (extensions cert)
  ≫= fun e => match e with SubjectKeyIdentifier kid => Some kid | _ => None end.

Definition extract_crl_aki (crl : Crl) : option (list byte) :=
  find_extension OID_X509_EXT_AUTHORITY_KEY_IDENTIFIER (crl_extensions crl)
  ≫= fun e => match e with AuthorityKeyIdentifier kid => kid | _ => None end.

Definition CertAuthProvider_new (c : CertConfig Net) : CertAuthProvider Net :=
  mkCertProvider c [] (imap (fun i der => mkRootIndex i (cert_from_der der ≫= extract_cert_ski)) (cc_trusted_roots c)).

(** ** Refresh *)

(** The lists that were fetched and parse. *)
Definition fetched_crls (fetch : string -> result (list byte) HsmError) (urls : list string) : list (list byte) :=
  omap (fun url => match fetch url with
                   | Ok der => match crl_from_der der with Some _ => Some der | None => None end
                   | Err _ => None
                   end) urls.

Definition refresh_crls_if_stale (net : Net) p : result bool HsmError * CertAuthProvider Net :=
  match cc_http_fetcher (cp_config p) with
  | None => (Ok false, p)
  | Some fetcher =>
      match rv_crl_urls (cc_revocation (cp_config p)) with
      | [] => (Ok false, p)
      | urls =>
          match fetched_crls (fetcher net) urls with
          | [] => (Err GeneralError, p)
          | new_crls => (Ok true, mkCertProvider (cp_config p) new_crls (root_index p))
          end
      end
  end.

(** ** Subjects *)

Definition upper_byte (b : byte) : byte := if byte_in b 0x61 0x7A then byte.of_Z (byte.unsigned b - 32) else b.
Definition to_ascii_uppercase (s : string) : string := from_bytes (map upper_byte (as_bytes s)).
Definition eq_ignore_ascii_case (a b : string) : bool := String.eqb (to_ascii_lowercase a) (to_ascii_lowercase b).

(** [str::split_once] at a byte, and [str::rsplit_once]. *)
Fixpoint split_once (sep : byte) (bs : list byte) : option (list byte * list byte) :=
  match bs with
  | [] => None
  | b :: r => if bool_decide (b = sep) then Some ([], r) else '(x, y) ← split_once sep r; Some (b :: x, y)
  end.
Definition rsplit_once (sep : byte) (bs : list byte) : option (list byte * list byte) :=
  '(x, y) ← split_once sep (rev bs); Some (rev y, rev x).

Definition EQUALS : byte := Byte.x3d.
Definition AT_SIGN : byte := Byte.x40.

Definition extract_cn (name : X509Name) : option string :=
  cn ← head (iter_common_name name);
  s ← cn;
  let s := trim_str s in
  if String.eqb s "" then None else Some s.

Definition field_oid (field : string) : option Oid :=
  let f := to_ascii_uppercase field in
  if String.eqb f "CN" then Some OID_X509_COMMON_NAME
  else if String.eqb f "OU" then Some OID_X509_ORGANIZATIONAL_UNIT
  else if String.eqb f "O" then Some OID_X509_ORGANIZATION_NAME
  else None.

Definition match_subject_dn (subject_name : X509Name) (pattern : string) : bool :=
  let pattern := trim_str pattern in
  match split_once EQUALS (as_bytes pattern) with
  | Some (field, value) =>
      let field := trim_str (from_bytes field) in
      let value := trim_str (from_bytes value) in
      match field_oid field with
      | None => false
      | Some oid =>
          existsb (fun attr => oid_eqb attr.1 oid && match attr.2 with Some s => eq_ignore_ascii_case s value | None => false end)
            (iter_attributes subject_name)
      end
  | None => match extract_cn subject_name with Some cn => eq_ignore_ascii_case cn pattern | None => false end
  end.

(** The loop over the role mapping. *)
Fixpoint subject_role (mapping : list CertRoleMapping) (subject_name : X509Name) : option HsmRole :=
  match mapping with
  | [] => None
  | m :: rest =>
      if match_subject_dn subject_name (subject_pattern m) then
        match parse_role (cm_role m) with Some role => Some role | None => subject_role rest subject_name end
      else subject_role rest subject_name
  end.

(** ** Tenants *)

(** The tenant one alternative name stands for. *)
Definition san_tenant (oid_str : string) (name : GeneralName X509Name) : option string :=
  let candidate (s : string) := match TenantId_try_new s with Ok t => Some t | Err _ => None end in
  match name with
  | RFC822Name email =>
      if String.eqb oid_str "email" || String.eqb oid_str "rfc822"
      then '(_, domain) ← rsplit_once AT_SIGN (as_bytes email); candidate (from_bytes domain)
      else None
  | DNSName dns => if String.eqb oid_str "dns" then candidate dns else None
  | DirectoryName dir_name =>
      if String.eqb oid_str "directory" then cn ← head (iter_common_name dir_name); s ← cn; candidate s else None
  | OtherGeneralName => None
  end.

Definition push_tenant (candidates : list string) (t : string) : list string :=
  if bool_decide (t ∈ candidates) then candidates else candidates ++ [t].

Definition san_names cert : list (GeneralName X509Name) :=
  match find_extension OID_X509_EXT_SUBJECT_ALT_NAME (extensions cert) with
  | Some (SubjectAlternativeName names) => names
  | _ => []
  end.

Definition extract_tenant_from_sans p cert : result (option string) HsmError :=
  match cc_tenant_san_oid (cp_config p) with
  | None => Ok None
  | Some oid_str =>
      match foldl (fun cs name => match san_tenant oid_str name with Some t => push_tenant cs t | None => cs end) [] (san_names cert) with
      | [] => Ok None
      | [t] => Ok (Some t)
      | _ => Err PinIncorrect
      end
  end.

(** ** Revocation *)

(** The trusted root that is to have signed a list. *)
Fixpoint crl_signer (roots : list (list byte)) (index : list TrustedRootIndex) (crl : Crl) : option nat :=
  match index with
  | [] => None
  | r :: rest =>
      let skipped := match extract_crl_aki crl with
                     | Some want_kid => match root_ski r with Some got_kid => negb (bool_decide (got_kid = want_kid)) | None => true end
                     | None => false
                     end in
      if skipped : bool then crl_signer roots rest crl
      else
        match roots !! cfg_idx r ≫= cert_from_der with
        | None => crl_signer roots rest crl
        | Some parsed => if name_eqb (subject parsed) (crl_issuer crl) then Some (cfg_idx r) else crl_signer roots rest crl
        end
  end.

(** [x as i64] *)
Definition wrap_i64 (x : Z) : Z := (x + 2 ^ 63) mod 2 ^ 64 - 2 ^ 63.

Definition crl_usable (c : CertRevocationConfig) (crl : Crl) (now : ASN1Time) : bool :=
  negb (time_ltb now (last_update crl))
  && negb ((0 <? rv_max_age_secs c)
           && (wrap_i64 (rv_max_age_secs c) <? i64_saturating_sub (timestamp now) (timestamp (last_update crl))))
  && match next_update crl with Some next => negb (time_ltb next now) | None => negb (rv_require_next_update c) end.

(** The issuer of a list and its signature. *)
Definition crl_authentic p (crl : Crl) : result unit HsmError :=
  let roots := cc_trusted_roots (cp_config p) in
  match crl_signer roots (root_index p) crl with
  | None => Err PinIncorrect
  | Some idx =>
      match roots !! idx with
      | None => Err GeneralError
      | Some signer_der =>
          match cert_from_der signer_der with
          | None => Err GeneralError
          | Some signer => if crl_verify_signature crl (public_key signer) then Ok tt else Err PinIncorrect
          end
      end
  end.

(** The loop over one source of lists: the clock is read for each. *)
Fixpoint revocation_loop p (clock : nat -> ASN1Time) (i : nat) (found_usable : bool) (source : list (list byte))
    (serial : list byte) (name : X509Name) : result RevocationOutcome HsmError :=
  match source with
  | [] => Ok (if found_usable then Matched else NoUsableCrl)
  | crl_der :: rest =>
      match crl_from_der crl_der with
      | None => Err GeneralError
      | Some crl =>
          if negb (name_eqb (crl_issuer crl) name) then revocation_loop p clock (S i) found_usable rest serial name
          else
            try _ := crl_authentic p crl in
            if crl_usable (cc_revocation (cp_config p)) crl (clock i) then
              if bool_decide (serial ∈ revoked_serials crl) then Err PinIncorrect
              else revocation_loop p clock (S i) true rest serial name
            else revocation_loop p clock (S i) found_usable rest serial name
      end
  end.

Definition try_check_revocation p (clock : nat -> ASN1Time) (source : list (list byte)) (serial : list byte) (name : X509Name)
    : result RevocationOutcome HsmError :=
  revocation_loop p clock 0 false source serial name.

(** The readings of the clock for the two sources. *)
Record RevocationClock : Type := mkRevocationClock { rc_primary : nat -> ASN1Time; rc_fallback : nat -> ASN1Time }.

Definition check_revocation p (clock : RevocationClock) cert : result unit HsmError :=
  let c := cc_revocation (cp_config p) in
  if negb (rv_enabled c) then Ok tt
  else
    let serial := raw_serial cert in
    let name := issuer cert in
    let refreshed := refreshed_crls p in
    let '(primary, fallback) := match refreshed with [] => (rv_crls c, []) | _ => (refreshed, rv_crls c) end in
    try outcome := try_check_revocation p (rc_primary clock) primary serial name in
    match outcome with
    | Matched => Ok tt
    | NoUsableCrl =>
        match fallback with
        | [] => Err PinIncorrect
        | _ =>
            try outcome := try_check_revocation p (rc_fallback clock) fallback serial name in
            match outcome with Matched => Ok tt | NoUsableCrl => Err PinIncorrect end
        end
    end.

(** ** The chain *)

Record CertEnv : Type := mkCertEnv {
  ce_leaf_now : ASN1Time;
  ce_parent_now : nat -> ASN1Time;
  ce_self_clock : RevocationClock;
  ce_clock : RevocationClock;
}.

Definition is_ca cert : bool := match basic_constraints cert with Ok (Some bc) => bc_ca bc | _ => false end.
Definition may_sign_certs cert : bool := match key_cert_sign cert with Ok (Some b) => b | _ => false end.

(** [i as u32] *)
Definition path_len_ok (i : nat) cert : bool :=
  match basic_constraints cert with
  | Ok (Some bc) => match bc_path_len_constraint bc with Some path_len => negb (path_len <? Z.of_nat i mod 2 ^ 32) | None => true end
  | _ => true
  end.

(** One window of the chain. *)
Definition check_link (now : ASN1Time) (i : nat) (child parent : X509Certificate) : result unit HsmError :=
  if negb (name_eqb (issuer child) (subject parent)) then Err PinIncorrect
  else if negb (verify_signature child (public_key parent)) then Err PinIncorrect
  else if negb (is_valid_at parent now) then Err PinIncorrect
  else if negb (is_ca parent) then Err PinIncorrect
  else if negb (may_sign_certs parent) then Err PinIncorrect
  else if negb (path_len_ok i parent) then Err PinIncorrect
  else Ok tt.

Fixpoint check_links (clock : nat -> ASN1Time) (i : nat) (chain : list (list byte)) : result unit HsmError :=
  match chain with
  | child_der :: rest =>
      match rest with
      | [] => Ok tt
      | parent_der :: _ =>
          match cert_from_der child_der with
          | None => Err GeneralError
          | Some child =>
              match cert_from_der parent_der with
              | None => Err GeneralError
              | Some parent =>
                  try _ := check_link (clock i) i child parent in
                  check_links clock (S i) rest
              end
          end
      end
  | [] => Ok tt
  end.

Definition validate_chain p (env : CertEnv) (cert_chain : list (list byte)) : result unit HsmError :=
  let roots := cc_trusted_roots (cp_config p) in
  match cert_chain, roots with
  | [leaf_der], _ :: _ =>
      if negb (bool_decide (leaf_der ∈ roots)) then Err PinIncorrect
      else
        match cert_from_der leaf_der with
        | None => Err GeneralError
        | Some leaf =>
            if negb (verify_signature leaf (public_key leaf)) then Err PinIncorrect
            else check_revocation p (ce_self_clock env) leaf
        end
  | _, _ =>
      try _ := check_links (ce_parent_now env) 0 cert_chain in
      match last cert_chain with
      | None => Err GeneralError
      | Some root_der => if bool_decide (root_der ∈ roots) then Ok tt else Err PinIncorrect
      end
  end.

(** ** Authentication *)

Definition check_client_auth cert : result unit HsmError :=
  match extended_key_usage cert with
  | Ok (Some eku) => if negb (eku_client_auth eku) && negb (eku_any eku) then Err PinIncorrect else Ok tt
  | Ok None => Ok tt
  | Err _ => Err PinIncorrect
  end.

Definition cert_user_id (subject_name : X509Name) : string :=
  match extract_cn subject_name with Some cn => cn | None => "cert:" +:+ name_display subject_name end.

Definition cert_authenticate (env : CertEnv) p (cert_chain : list (list byte)) : result AuthResult HsmError :=
  match cert_chain with
  | [] => Err PinIncorrect
  | der :: _ =>
      match cert_from_der der with
      | None => Err GeneralError
      | Some cert =>
          if negb (is_valid_at cert (ce_leaf_now env)) then Err PinIncorrect
          else
            try _ := match cc_trusted_roots (cp_config p) with [] => Ok tt | _ => validate_chain p env cert_chain end in
            try _ := check_client_auth cert in
            try _ := check_revocation p (ce_clock env) cert in
            match subject_role (cc_subject_role_mapping (cp_config p)) (subject cert) with
            | None => Err PinIncorrect
            | Some role =>
                try tenant_id := extract_tenant_from_sans p cert in
                Ok (mkAuthResult role (cert_user_id (subject cert)) tenant_id (cc_require_mfa (cp_config p)))
            end
      end
  end.

Definition cert_provider_authenticate (env : CertEnv) (credentials : AuthCredentials) p
    : comp (result AuthResult HsmError * CertAuthProvider Net) Empty_set :=
  match credentials with
  | CredCertificate cert_chain => COk (cert_authenticate env p cert_chain, p)
  | _ => COk (Err FunctionNotSupported, p)
  end.

#[global] Instance cert_provider : AuthProvider (CertAuthProvider Net) CertEnv := {
  ap_authenticate := cert_provider_authenticate;
  ap_name _ := "certificate";
}.

End Provider.

End X509Auth.
