(* ===== verification/AuthCertProofs.v ===== *)
(** * Theorems about client certificates

    What a login with a certificate means, tenants and revocation lists.  The last theorems
    show what revocation demands of the issuer, and how a list can get lost. *)

From stdpp Require Import prelude gmap strings list.
From Stdlib Require Import ZArith Lia.
From coqutil Require Import Byte.
From S2P Require Import Prelude RustStd AuthRbac AuthTenant AuthRateLimit AuthMfa AuthProvider AuthCert.
Import X509Auth.
Local Open Scope rust_scope.
Local Open Scope string_scope.
Local Open Scope list_scope.
Local Open Scope Z_scope.

(** ** Fetching *)

(** A list that the default fetcher returns came over HTTPS with a successful answer, is
    complete and within the limit. *)
Theorem fetch_complete `{ReqwestCrate} send url der :
  ReqwestCrlFetcher send url = Ok der ->
  url_scheme_of url = Some "https" /\ len der <= MAX_BODY_BYTES /\
  exists resp, send url = Some resp /\ hr_success resp = true /\ hr_body resp = der /\ hr_body_fails resp = false.
Proof.
  unfold ReqwestCrlFetcher. destruct (url_scheme_of url) as [scheme|]; [|done]. destruct (String.eqb_spec scheme "https") as [->|]; [|done]. cbn [negb].
  destruct (send url) as [resp|]; [|done]. destruct (hr_success resp) eqn:Es; [|done]. cbn [negb]. case_if; [done|].
  change (saturating_add MAX_BODY_BYTES 1) with (MAX_BODY_BYTES + 1). unfold read_capped. destruct (MAX_BODY_BYTES + 1 <=? len (hr_body resp)) eqn:Ec.
  - bool_to_prop. destruct (MAX_BODY_BYTES <? len (take _ _)) eqn:El; [done|]. bool_to_prop. unfold len in *. rewrite length_take in El. unfold MAX_BODY_BYTES in *. lia.
  - destruct (hr_body_fails resp) eqn:Ef; [done|]. destruct (MAX_BODY_BYTES <? len (hr_body resp)) eqn:El; [done|]. bool_to_prop. intros [= <-]. eauto 8.
Qed.

Section Certificates.
Context {Net : Type} `{X509Crate}.
Implicit Types (p : CertAuthProvider Net) (c : CertConfig Net) (cert : X509Certificate).

(** ** The cache of lists *)

Definition cert_refreshes (nets : list Net) p : CertAuthProvider Net := foldl (fun p net => (refresh_crls_if_stale net p).2) p nets.

(** What a refresh over [net] finds. *)
Definition refresh_finds c (net : Net) : list (list byte) :=
  match cc_http_fetcher c with Some fetcher => fetched_crls (fetcher net) (rv_crl_urls (cc_revocation c)) | None => [] end.

Lemma refresh_effect net p :
  (refresh_crls_if_stale net p).2 =
  match refresh_finds (cp_config p) net with [] => p | crls => mkCertProvider (cp_config p) crls (root_index p) end.
Proof.
  unfold refresh_crls_if_stale, refresh_finds. destruct (cc_http_fetcher (cp_config p)) as [fetcher|]; [|done].
  destruct (rv_crl_urls _) as [|url urls]; [done|]. by destruct (fetched_crls _ _).
Qed.

Lemma refresh_config net p :
  cp_config (refresh_crls_if_stale net p).2 = cp_config p /\ root_index (refresh_crls_if_stale net p).2 = root_index p.
Proof. rewrite refresh_effect. by destruct (refresh_finds _ _). Qed.

Lemma cert_refreshes_config nets p :
  cp_config (cert_refreshes nets p) = cp_config p /\ root_index (cert_refreshes nets p) = root_index p.
Proof.
  revert p. induction nets as [|net nets IH]; intros p; [done|].
  change (cert_refreshes (net :: nets) p) with (cert_refreshes nets (refresh_crls_if_stale net p).2). destruct (IH (refresh_crls_if_stale net p).2) as [-> ->]. apply refresh_config.
Qed.

Lemma fetched_parse fetch urls : Forall (fun der => is_Some (crl_from_der der)) (fetched_crls fetch urls).
Proof.
  apply Forall_forall. intros der (url & _ & Hd)%list_elem_of_omap. destruct (fetch url) as [d|]; [|done].
  destruct (crl_from_der d) eqn:E; [|done]. injection Hd as <-. by rewrite E.
Qed.

(** The lists in use are those of the last refresh that found any, and they all parse; while
    no refresh found any there are none, and the configured ones count. *)
Theorem crl_cache_last_good c nets :
  let p := cert_refreshes nets (CertAuthProvider_new c) in
  Forall (fun der => is_Some (crl_from_der der)) (refreshed_crls p) /\
  ((refreshed_crls p = [] /\ Forall (fun net => refresh_finds c net = []) nets) \/
   exists before net after, nets = before ++ net :: after /\ refreshed_crls p = refresh_finds c net /\ refresh_finds c net <> [] /\
     Forall (fun net => refresh_finds c net = []) after).
Proof.
  cbv zeta. induction nets as [|net nets IH] using rev_ind; [split; [constructor|by left]|].
  unfold cert_refreshes in *. rewrite foldl_app. cbn [foldl]. set (q := foldl _ _ nets) in *.
  assert (cp_config q = c) as Hc by apply (proj1 (cert_refreshes_config nets (CertAuthProvider_new c))).
  rewrite refresh_effect, Hc. destruct (refresh_finds c net) as [|crl crls] eqn:E; cbn [refreshed_crls].
  - destruct IH as [Hp [[Hn Hf]|(before & n & after & -> & H1 & H2 & H3)]]; (split; [done|]).
    + left. split; [done|]. apply Forall_app. split; [done|]. by apply Forall_singleton.
    + right. exists before, n, (after ++ [net]). split; [by rewrite <- app_assoc|]. split; [done|]. split; [done|]. apply Forall_app. split; [done|]. by apply Forall_singleton.
  - split; [|right; exists nets, net, []; by rewrite E]. rewrite <- E. unfold refresh_finds. destruct (cc_http_fetcher c); [apply fetched_parse|constructor].
Qed.

(** ** Tenants *)

Lemma push_tenant_elem cs t x : x ∈ push_tenant cs t <-> x ∈ cs \/ x = t.
Proof. unfold push_tenant. case_bool_decide; [naive_solver|]. set_solver. Qed.

Lemma push_tenant_nodup cs t : NoDup cs -> NoDup (push_tenant cs t).
Proof.
  unfold push_tenant. case_bool_decide as Ht; [done|]. intros Hn. apply NoDup_app. split; [done|]. split; [set_solver|]. apply NoDup_singleton.
Qed.

Lemma san_fold oid names : forall acc,
  let cs := foldl (fun cs name => match san_tenant oid name with Some t => push_tenant cs t | None => cs end) acc names in
  (NoDup acc -> NoDup cs) /\ forall x, x ∈ cs <-> x ∈ acc \/ x ∈ omap (san_tenant oid) names.
Proof.
  induction names as [|name names IH]; intros acc; [split; [done|]; set_solver|]. cbn [foldl omap list_omap].
  destruct (san_tenant oid name) as [t|] eqn:E.
  - destruct (IH (push_tenant acc t)) as [IH1 IH2]. split; [intros Hn; by apply IH1, push_tenant_nodup|].
    intros x. rewrite IH2, push_tenant_elem. set_solver.
  - destruct (IH acc) as [IH1 IH2]. split; [done|]. intros x. by rewrite IH2.
Qed.

Lemma san_tenant_valid oid name t : san_tenant oid name = Some t -> validate_str t = Ok tt.
Proof.
  assert (forall s, match TenantId_try_new s with Ok t => Some t | Err _ => None end = Some t -> validate_str t = Ok tt) as Hv.
  { intros s. unfold TenantId_try_new. destruct (validate_str s) as [[]|] eqn:E; [|done]. by intros [= <-]. }
  unfold san_tenant. intros Hs. destruct name as [email|dns|dir|]; [case_if; [|done]|case_if; [|done]|case_if; [|done]|done].
  - destruct (rsplit_once _ _) as [[? domain]|]; [|done]. by apply Hv in Hs.
  - by apply Hv in Hs.
  - destruct (head (iter_common_name dir)) as [cn|]; [|done]. destruct cn as [s|]; [|done]. by apply Hv in Hs.
Qed.

(** Tenants of certificates. With a configured kind of alternative name, the certificate is
    bound to a tenant exactly if all its names of this kind that are valid tenants agree on
    it; it has none exactly if there is no such name; and it is refused exactly if two of
    them differ. Without a configured kind no certificate has a tenant. *)
Theorem cert_tenant_exact p cert :
  match cc_tenant_san_oid (cp_config p) with
  | None => extract_tenant_from_sans p cert = Ok None
  | Some oid =>
      let claims := omap (san_tenant oid) (san_names cert) in
      match extract_tenant_from_sans p cert with
      | Ok None => claims = []
      | Ok (Some t) => validate_str t = Ok tt /\ claims <> [] /\ Forall (eq t) claims
      | Err e => e = PinIncorrect /\ exists t1 t2, t1 ∈ claims /\ t2 ∈ claims /\ t1 <> t2
      end
  end.
Proof.
  unfold extract_tenant_from_sans. destruct (cc_tenant_san_oid (cp_config p)) as [oid|]; [|done]. cbv zeta.
  destruct (san_fold oid (san_names cert) []) as [Hn He]. cbv zeta in *.
  destruct (foldl _ [] (san_names cert)) as [|t1 [|t2 cs]].
  - destruct (omap _ _) as [|x xs]; [done|]. exfalso. apply (not_elem_of_nil x), He. right. set_solver.
  - assert (t1 ∈ omap (san_tenant oid) (san_names cert)) as Hin by (destruct (proj1 (He t1) ltac:(set_solver)) as [?%not_elem_of_nil|]; done).
    split; [|split].
    + apply list_elem_of_omap in Hin as (name & _ & Hs). by eapply san_tenant_valid.
    + intros E. rewrite E in Hin. by apply not_elem_of_nil in Hin.
    + apply Forall_forall. intros x Hx. assert (x ∈ [t1]) as Hx' by (apply He; by right). by apply list_elem_of_singleton in Hx' as ->.
  - split; [done|]. exists t1, t2. specialize (Hn (NoDup_nil_2)). apply NoDup_cons in Hn as [Hne _].
    assert (forall x, x ∈ t1 :: t2 :: cs -> x ∈ omap (san_tenant oid) (san_names cert)) as Hin by (intros x [?%not_elem_of_nil|]%He; done).
    split; [apply Hin; set_solver|]. split; [apply Hin; set_solver|]. set_solver.
Qed.

(** ** Revocation *)

(** The list was signed by a trusted root with its issuer's name and, if it names a key, with
    that key. *)
Definition signed_by_root c (crl : Crl) : Prop :=
  exists der signer, der ∈ cc_trusted_roots c /\ cert_from_der der = Some signer /\ name_eqb (subject signer) (crl_issuer crl) = true /\
    (forall kid, extract_crl_aki crl = Some kid -> extract_cert_ski signer = Some kid) /\
    crl_verify_signature crl (public_key signer) = true.

Lemma crl_signer_inv roots index crl i :
  crl_signer roots index crl = Some i ->
  exists ski signer, mkRootIndex i ski ∈ index /\ roots !! i ≫= cert_from_der = Some signer /\
    name_eqb (subject signer) (crl_issuer crl) = true /\ (forall kid, extract_crl_aki crl = Some kid -> ski = Some kid).
Proof.
  induction index as [|[j ski] index IH]; [done|]. cbn [crl_signer cfg_idx root_ski].
  assert (crl_signer roots index crl = Some i -> exists ski' signer, mkRootIndex i ski' ∈ mkRootIndex j ski :: index /\
    roots !! i ≫= cert_from_der = Some signer /\ name_eqb (subject signer) (crl_issuer crl) = true /\
    (forall kid, extract_crl_aki crl = Some kid -> ski' = Some kid)) as Hrest.
  { intros (ski' & signer & Hin & Hr)%IH. exists ski', signer. split; [by right|done]. }
  destruct (match extract_crl_aki crl with Some _ => _ | None => false end) eqn:Es; [done|]. destruct (roots !! j ≫= cert_from_der) as [signer|] eqn:Er; [|done].
  destruct (name_eqb (subject signer) (crl_issuer crl)) eqn:En; [|done]. intros [= <-]. exists ski, signer. split; [by left|]. split; [done|]. split; [done|].
  intros kid Ek. rewrite Ek in Es. destruct ski as [got|]; [|done]. case_bool_decide; [by subst|done].
Qed.

Lemma crl_authentic_inv c nets crl :
  crl_authentic (cert_refreshes nets (CertAuthProvider_new c)) crl = Ok tt -> signed_by_root c crl.
Proof.
  unfold crl_authentic. destruct (cert_refreshes_config nets (CertAuthProvider_new c)) as [-> ->]. cbn [cp_config root_index CertAuthProvider_new].
  destruct (crl_signer _ _ crl) as [i|] eqn:Es; [|done]. apply crl_signer_inv in Es as (ski & signer & Hin & Hs & Hn & Hk).
  destruct (cc_trusted_roots c !! i) as [der|] eqn:Er; [|done]. cbn in Hs. rewrite Hs. destruct (crl_verify_signature _ _) eqn:Ev; [|done]. intros _.
  exists der, signer. split; [by eapply list_elem_of_lookup_2|]. split_and!; [done|done| |done]. intros kid Ek. apply Hk in Ek as ->.
  apply list_elem_of_lookup in Hin as [j Hj]. rewrite list_lookup_imap in Hj. destruct (cc_trusted_roots c !! j) as [d|] eqn:Ej; [|done].
  cbn in Hj. injection Hj as -> Hd. rewrite Er in Ej. injection Ej as <-. by rewrite Hs in Hd.
Qed.

(** The lists of the issuer in a source are authentic and, if they are usable, do not name
    the certificate; one of them is usable. *)
Definition source_clears c (clock : nat -> ASN1Time) (source : list (list byte)) cert : Prop :=
  (forall i der, source !! i = Some der -> exists crl, crl_from_der der = Some crl /\
     (name_eqb (crl_issuer crl) (issuer cert) = true -> signed_by_root c crl /\
        (crl_usable (cc_revocation c) crl (clock i) = true -> raw_serial cert ∉ revoked_serials crl))) /\
  exists i der crl, source !! i = Some der /\ crl_from_der der = Some crl /\ name_eqb (crl_issuer crl) (issuer cert) = true /\
    crl_usable (cc_revocation c) crl (clock i) = true.

Lemma revocation_loop_inv p clock cert source : forall i found out,
  revocation_loop p clock i found source (raw_serial cert) (issuer cert) = Ok out ->
  (forall j der, source !! j = Some der -> exists crl, crl_from_der der = Some crl /\
     (name_eqb (crl_issuer crl) (issuer cert) = true -> crl_authentic p crl = Ok tt /\
        (crl_usable (cc_revocation (cp_config p)) crl (clock (i + j)%nat) = true -> raw_serial cert ∉ revoked_serials crl))) /\
  (out = Matched -> found = true \/ exists j der crl, source !! j = Some der /\ crl_from_der der = Some crl /\
     name_eqb (crl_issuer crl) (issuer cert) = true /\ crl_usable (cc_revocation (cp_config p)) crl (clock (i + j)%nat) = true).
Proof.
  induction source as [|crl_der source IH]; intros i found out; cbn [revocation_loop].
  { intros [= <-]. split; [done|]. destruct found; [by left|done]. }
  destruct (crl_from_der crl_der) as [crl|] eqn:Ec; [|done].
  assert (forall found', revocation_loop p clock (S i) found' source (raw_serial cert) (issuer cert) = Ok out ->
    (name_eqb (crl_issuer crl) (issuer cert) = true -> crl_authentic p crl = Ok tt /\
       (crl_usable (cc_revocation (cp_config p)) crl (clock i) = true -> raw_serial cert ∉ revoked_serials crl)) ->
    (found' = true -> found = true \/ name_eqb (crl_issuer crl) (issuer cert) = true /\ crl_usable (cc_revocation (cp_config p)) crl (clock i) = true) ->
    (forall j der, (crl_der :: source) !! j = Some der -> exists crl, crl_from_der der = Some crl /\
       (name_eqb (crl_issuer crl) (issuer cert) = true -> crl_authentic p crl = Ok tt /\
          (crl_usable (cc_revocation (cp_config p)) crl (clock (i + j)%nat) = true -> raw_serial cert ∉ revoked_serials crl))) /\
    (out = Matched -> found = true \/ exists j der crl, (crl_der :: source) !! j = Some der /\ crl_from_der der = Some crl /\
       name_eqb (crl_issuer crl) (issuer cert) = true /\ crl_usable (cc_revocation (cp_config p)) crl (clock (i + j)%nat) = true)) as Hstep.
  { intros found' Hl Hhead Hf. destruct (IH _ _ _ Hl) as [Hall Hsome]. split.
    - intros [|j] der Hj; [injection Hj as <-; exists crl; rewrite Nat.add_0_r; done|]. rewrite Nat.add_succ_r. apply Hall, Hj.
    - intros Hm. destruct (Hsome Hm) as [Hf'|(j & der & crl' & Hj & Hr)].
      + destruct (Hf Hf') as [|Hc]; [by left|]. right. exists 0%nat, crl_der, crl. by rewrite Nat.add_0_r.
      + right. exists (S j), der, crl'. by rewrite Nat.add_succ_r. }
  destruct (name_eqb (crl_issuer crl) (issuer cert)) eqn:En; cbn [negb].
  - destruct (crl_authentic p crl) as [[]|] eqn:Ea; [|done]. cbn [result_bind].
    destruct (crl_usable _ crl (clock i)) eqn:Eu; [case_bool_decide as Hin; [done|]|]; intros Hl; eapply Hstep; try done; auto.
  - intros Hl. eapply Hstep; try done. auto.
Qed.

(** The source of lists that decided. *)
Lemma check_revocation_inv c nets clock cert :
  let p := cert_refreshes nets (CertAuthProvider_new c) in
  check_revocation p clock cert = Ok tt -> rv_enabled (cc_revocation c) = true ->
  exists k source, (source = refreshed_crls p \/ source = rv_crls (cc_revocation c)) /\ source_clears c k source cert.
Proof.
  cbv zeta. set (p := cert_refreshes nets (CertAuthProvider_new c)). assert (cp_config p = c) as Hc by apply (proj1 (cert_refreshes_config nets (CertAuthProvider_new c))).
  assert (forall k source, try_check_revocation p k source (raw_serial cert) (issuer cert) = Ok Matched -> source_clears c k source cert) as Htry.
  { intros k source [Hall Hsome]%revocation_loop_inv. rewrite Hc in *. split.
    - intros i der Hi. destruct (Hall i der Hi) as (crl & Hd & Hr). exists crl. split; [done|]. intros Hn. destruct (Hr Hn) as [Ha Hu]. split; [by eapply crl_authentic_inv|done].
    - destruct (Hsome eq_refl) as [|]; done. }
  unfold check_revocation. rewrite Hc. intros Hk He. rewrite He in Hk. cbn [negb] in Hk.
  destruct (refreshed_crls p) as [|crl crls] eqn:Er.
  - destruct (try_check_revocation p (rc_primary clock) _ _ _) as [[]|] eqn:E1; cbn in Hk; [|done..]. eexists _, _. split; [|by apply Htry]. by right.
  - destruct (try_check_revocation p (rc_primary clock) _ _ _) as [[]|] eqn:E1; cbn in Hk; [by eexists _, _; split; [|by apply Htry]; left| |done].
    destruct (rv_crls (cc_revocation c)) as [|d ds] eqn:Es; [done|].
    destruct (try_check_revocation p (rc_fallback clock) _ _ _) as [[]|] eqn:E2; cbn in Hk; [|done..]. eexists _, _. split; [|by apply Htry]. by right.
Qed.

(** ** Chains *)

(** The parent issued the child, and may. *)
Definition issued_by (now : ASN1Time) (i : nat) (child parent : X509Certificate) : Prop :=
  name_eqb (issuer child) (subject parent) = true /\ verify_signature child (public_key parent) = true /\
  is_valid_at parent now = true /\ is_ca parent = true /\ may_sign_certs parent = true /\ path_len_ok i parent = true.

Lemma check_link_spec now i child parent : check_link now i child parent = Ok tt <-> issued_by now i child parent.
Proof.
  unfold check_link, issued_by. destruct (name_eqb _ _), (verify_signature _ _), (is_valid_at _ _), (is_ca _), (may_sign_certs _), (path_len_ok _ _);
    naive_solver.
Qed.

Lemma check_links_spec clock chain : forall i,
  check_links clock i chain = Ok tt <->
  forall j child_der parent_der, chain !! j = Some child_der -> chain !! S j = Some parent_der ->
    exists child parent, cert_from_der child_der = Some child /\ cert_from_der parent_der = Some parent /\
      issued_by (clock (i + j)%nat) (i + j) child parent.
Proof.
  induction chain as [|d chain IH]; intros i; [by split|]. destruct chain as [|d' chain]; [split; [by intros _ [|j]|done]|].
  change (check_links clock i (d :: d' :: chain)) with
    (match cert_from_der d with
     | None => Err GeneralError
     | Some child => match cert_from_der d' with
                     | None => Err GeneralError
                     | Some parent => result_bind (check_link (clock i) i child parent) (fun _ => check_links clock (S i) (d' :: chain))
                     end
     end).
  split.
  - destruct (cert_from_der d) as [child|] eqn:E1; [|done]. destruct (cert_from_der d') as [parent|] eqn:E2; [|done].
    destruct (check_link _ _ _ _) as [[]|] eqn:El; [|done]. cbn [result_bind]. rewrite IH. intros Hall [|j] c p' Hc Hp.
    + injection Hc as <-. injection Hp as <-. exists child, parent. rewrite Nat.add_0_r. by rewrite <- check_link_spec.
    + rewrite Nat.add_succ_r. by eapply Hall.
  - intros Hall. destruct (Hall 0%nat d d' eq_refl eq_refl) as (child & parent & -> & -> & Hl). rewrite Nat.add_0_r in Hl.
    apply check_link_spec in Hl as ->. cbn [result_bind]. apply IH. intros j c p' Hc Hp. specialize (Hall (S j) c p' Hc Hp). by rewrite Nat.add_succ_r in Hall.
Qed.

(** The chain ends in a trusted root, and each certificate was issued by the next; a root
    alone signed itself. *)
Definition chain_trusted c (env : CertEnv) (chain : list (list byte)) : Prop :=
  (exists root, last chain = Some root /\ root ∈ cc_trusted_roots c) /\
  (forall i child_der parent_der, chain !! i = Some child_der -> chain !! S i = Some parent_der ->
     exists child parent, cert_from_der child_der = Some child /\ cert_from_der parent_der = Some parent /\
       issued_by (ce_parent_now env i) i child parent) /\
  (forall root, chain = [root] -> exists cert, cert_from_der root = Some cert /\ verify_signature cert (public_key cert) = true).

Lemma validate_chain_inv p env chain : cc_trusted_roots (cp_config p) <> [] -> validate_chain p env chain = Ok tt -> chain_trusted (cp_config p) env chain.
Proof.
  intros Hne. unfold validate_chain. destruct (cc_trusted_roots (cp_config p)) as [|r rs] eqn:Er; [done|]. rewrite <- Er.
  assert (forall chain, result_bind (check_links (ce_parent_now env) 0 chain) (fun _ => match last chain with None => Err GeneralError
      | Some root_der => if bool_decide (root_der ∈ cc_trusted_roots (cp_config p)) then Ok tt else Err PinIncorrect end) = Ok tt ->
    (forall root, chain <> [root]) -> chain_trusted (cp_config p) env chain) as Hlong.
  { intros ch Hc Hs. destruct (check_links _ 0 ch) as [[]|] eqn:El; [|done]. cbn [result_bind] in Hc. destruct (last ch) as [root|] eqn:Ela; [|done].
    case_bool_decide; [|done]. split; [eauto|]. split; [exact (proj1 (check_links_spec _ _ 0) El)|]. intros root' Hr. by destruct (Hs root'). }
  destruct chain as [|leaf [|d chain]]; [by intros Hv; apply Hlong| |by intros Hv; apply Hlong].
  case_bool_decide as Hin; [|done]. destruct (cert_from_der leaf) as [cert|] eqn:Ec; [|done]. cbn [negb].
  destruct (verify_signature cert (public_key cert)) eqn:Ev; [|done]. intros _. split; [by exists leaf|]. split; [by intros [|i]|].
  intros root [= <-]. eauto.
Qed.

Lemma subject_role_inv mapping name role :
  subject_role mapping name = Some role ->
  exists i m, mapping !! i = Some m /\ match_subject_dn name (subject_pattern m) = true /\ parse_role (cm_role m) = Some role /\
    forall j m', (j < i)%nat -> mapping !! j = Some m' -> match_subject_dn name (subject_pattern m') = true -> parse_role (cm_role m') = None.
Proof.
  induction mapping as [|m mapping IH]; [done|]. cbn [subject_role].
  assert (subject_role mapping name = Some role -> (match_subject_dn name (subject_pattern m) = true -> parse_role (cm_role m) = None) ->
    exists i m0, (m :: mapping) !! i = Some m0 /\ match_subject_dn name (subject_pattern m0) = true /\ parse_role (cm_role m0) = Some role /\
    forall j m', (j < i)%nat -> (m :: mapping) !! j = Some m' -> match_subject_dn name (subject_pattern m') = true -> parse_role (cm_role m') = None) as Hrest.
  { intros (i & m0 & H1 & H2 & H3 & H4)%IH Hm. exists (S i), m0. split_and!; [done..|]. intros [|j] m' Hj Hl; [by injection Hl as <-|]. eapply H4; [|exact Hl]. lia. }
  destruct (match_subject_dn name (subject_pattern m)) eqn:Em; [|by intros Hr; apply Hrest].
  destruct (parse_role (cm_role m)) as [r|] eqn:Ep; [|by intros Hr; apply Hrest]. intros [= <-]. exists 0%nat, m. split_and!; [done..|]. intros j m' Hj. lia.
Qed.

(** C12: what a login with a certificate means. With trusted roots configured, a chain logs in
    only if it ends in a trusted root, each certificate was issued by the next, which is
    valid, an authority for certificates and within its path length, and the first is valid
    and not restricted to purposes other than client authentication. With revocation
    enabled, all lists of its issuer in the source that decided are signed by a trusted root,
    at least one is usable, and no usable one names it. The role is that of the first
    mapping in order that matches the subject and names a role. This holds in every state
    that refreshes lead to. *)
Theorem cert_login_sound c nets env chain identity p' :
  let p := cert_refreshes nets (CertAuthProvider_new c) in
  cc_trusted_roots c <> [] -> cert_provider_authenticate env (CredCertificate chain) p = COk (Ok identity, p') ->
  p' = p /\ chain_trusted c env chain /\
  exists der cert, head chain = Some der /\ cert_from_der der = Some cert /\ is_valid_at cert (ce_leaf_now env) = true /\
    (exists eku, extended_key_usage cert = Ok eku /\ forall e, eku = Some e -> eku_client_auth e = true \/ eku_any e = true) /\
    (rv_enabled (cc_revocation c) = true ->
       exists clock source, (source = refreshed_crls p \/ source = rv_crls (cc_revocation c)) /\ source_clears c clock source cert) /\
    (exists i m, cc_subject_role_mapping c !! i = Some m /\ match_subject_dn (subject cert) (subject_pattern m) = true /\
       parse_role (cm_role m) = Some (au_role identity) /\
       forall j m', (j < i)%nat -> cc_subject_role_mapping c !! j = Some m' -> match_subject_dn (subject cert) (subject_pattern m') = true ->
         parse_role (cm_role m') = None) /\
    au_user_id identity = cert_user_id (subject cert) /\ extract_tenant_from_sans p cert = Ok (au_tenant_id identity) /\
    au_mfa_required identity = cc_require_mfa c.
Proof.
  cbv zeta. set (p := cert_refreshes nets (CertAuthProvider_new c)). assert (cp_config p = c) as Hc by apply (proj1 (cert_refreshes_config nets (CertAuthProvider_new c))).
  cbn [cert_provider_authenticate]. intros Hne Ha. assert (cert_authenticate env p chain = Ok identity /\ p' = p) as [Ha' ->] by (by injection Ha). clear Ha.
  split; [done|]. unfold cert_authenticate in Ha'. destruct chain as [|der chain]; [done|]. destruct (cert_from_der der) as [cert|] eqn:Ed; [|done].
  destruct (is_valid_at cert (ce_leaf_now env)) eqn:Ev; [|done]. cbn [negb] in Ha'. rewrite Hc in Ha'.
  destruct (match cc_trusted_roots c with [] => Ok tt | _ => validate_chain p env (der :: chain) end) as [[]|] eqn:Et; [|done]. cbn [result_bind] in Ha'.
  destruct (check_client_auth cert) as [[]|] eqn:Ek; [|done]. cbn [result_bind] in Ha'.
  destruct (check_revocation p (ce_clock env) cert) as [[]|] eqn:Erv; [|done]. cbn [result_bind] in Ha'.
  destruct (subject_role _ _) as [role|] eqn:Er; [|done]. destruct (extract_tenant_from_sans p cert) as [t|] eqn:Ete; [|done]. cbn in Ha'. injection Ha' as <-.
  split. { rewrite <- Hc. apply validate_chain_inv; [by rewrite Hc|]. by destruct (cc_trusted_roots c). }
  exists der, cert. split_and!; [done|done|done| |by apply (check_revocation_inv c nets (ce_clock env))|by apply subject_role_inv|done|done|done].
  unfold check_client_auth in Ek. destruct (extended_key_usage cert) as [[e|]|]; [|by eexists|done]. exists (Some e). split; [done|].
  intros e' [= <-]. destruct (eku_client_auth e); [by left|]. destruct (eku_any e); [by right|done].
Qed.

(** Every certificate that logs in while revocation is enabled was issued in the name of a
    trusted root, not in that of an intermediate authority. *)
Theorem revocation_needs_root_issuer c nets env chain identity p' :
  let p := cert_refreshes nets (CertAuthProvider_new c) in
  rv_enabled (cc_revocation c) = true -> cert_provider_authenticate env (CredCertificate chain) p = COk (Ok identity, p') ->
  exists der cert root_der root crl, head chain = Some der /\ cert_from_der der = Some cert /\
    root_der ∈ cc_trusted_roots c /\ cert_from_der root_der = Some root /\
    name_eqb (crl_issuer crl) (issuer cert) = true /\ name_eqb (subject root) (crl_issuer crl) = true.
Proof.
  cbv zeta. set (p := cert_refreshes nets (CertAuthProvider_new c)). cbn [cert_provider_authenticate]. intros He Ha.
  assert (cert_authenticate env p chain = Ok identity) as Ha' by (by injection Ha). clear Ha. unfold cert_authenticate in Ha'.
  destruct chain as [|der chain]; [done|]. destruct (cert_from_der der) as [cert|] eqn:Ed; [|done]. case_if; [done|].
  destruct (match cc_trusted_roots (cp_config p) with [] => Ok tt | _ => _ end) as [[]|]; [|done]. cbn [result_bind] in Ha'.
  destruct (check_client_auth cert) as [[]|]; [|done]. cbn [result_bind] in Ha'.
  destruct (check_revocation p (ce_clock env) cert) as [[]|] eqn:Erv; [|done]. clear Ha'.
  destruct (check_revocation_inv c nets (ce_clock env) cert Erv He) as (k & source & _ & Hall & i & d & crl & Hi & Hd & Hn & _).
  destruct (Hall i d Hi) as (crl' & Hd' & Hr). rewrite Hd in Hd'. injection Hd' as <-. destruct (Hr Hn) as [(rd & root & Hin & Hp & Hs & _) _].
  exists der, cert, rd, root, crl. done.
Qed.

End Certificates.

(** ** Examples *)

Record demo_cert : Type := mkDemoCert {
  dc_serial : string; dc_issuer : string; dc_subject : string; dc_key : string; dc_signed_by : string;
  dc_ca : option BasicConstraints; dc_sans : list (GeneralName string) }.
Record demo_crl : Type := mkDemoCrl {
  dl_issuer : string; dl_signed_by : string; dl_last : Z; dl_next : option Z; dl_revoked : list string }.

(** Two roots, a user of each, and a user whose name is that of a user of the directory. *)
Definition demo_certs : gmap string demo_cert :=
  let root name := mkDemoCert "0" name name name name (Some (mkBasicConstraints true (Some 0))) [] in
  let leaf serial ca name := mkDemoCert serial ca name name ca None [RFC822Name (name +:+ "@acme")] in
  list_to_map [("A", root "A"); ("B", root "B"); ("alice", leaf "1" "A" "alice"); ("bob", leaf "2" "B" "bob"); ("eve", leaf "3" "A" "ldap:alice")].

(** Old lists of both roots, a recent one of A, and one of B that revokes its user. *)
Definition demo_crls : gmap string demo_crl :=
  list_to_map [("old-A", mkDemoCrl "A" "A" 0 None []); ("old-B", mkDemoCrl "B" "B" 0 None []);
               ("new-A", mkDemoCrl "A" "A" 50 (Some 1000) []); ("new-B", mkDemoCrl "B" "B" 50 (Some 200) ["2"])].

#[local] Instance demo_x509 : X509Crate := {|
  Oid := string; oid_eqb := String.eqb;
  OID_X509_COMMON_NAME := "CN"; OID_X509_ORGANIZATIONAL_UNIT := "OU"; OID_X509_ORGANIZATION_NAME := "O";
  OID_X509_EXT_SUBJECT_ALT_NAME := "san"; OID_X509_EXT_SUBJECT_KEY_IDENTIFIER := "ski"; OID_X509_EXT_AUTHORITY_KEY_IDENTIFIER := "aki";
  X509Name := string; name_eqb := String.eqb; name_display := id;
  iter_common_name name := [Some name]; iter_attributes name := [("CN", Some name)];
  ASN1Time := Z; time_ltb := Z.ltb; timestamp := id;
  PublicKey := string; X509Certificate := demo_cert;
  cert_from_der der := demo_certs !! from_bytes der;
  raw_serial cert := as_bytes (dc_serial cert); issuer := dc_issuer; subject := dc_subject; public_key := dc_key;
  is_valid_at _ now := now <? 2000;
  extensions cert := [("ski", SubjectKeyIdentifier (as_bytes (dc_key cert))); ("san", SubjectAlternativeName (dc_sans cert))];
  basic_constraints cert := Ok (dc_ca cert);
  key_cert_sign cert := Ok (match dc_ca cert with Some _ => Some true | None => None end);
  extended_key_usage _ := Ok (Some (mkEku true false));
  verify_signature cert key := String.eqb (dc_signed_by cert) key;
  Crl := demo_crl; crl_from_der der := demo_crls !! from_bytes der;
  crl_issuer := dl_issuer; crl_extensions l := [("aki", AuthorityKeyIdentifier (Some (as_bytes (dl_issuer l))))];
  last_update := dl_last; next_update := dl_next; revoked_serials l := map as_bytes (dl_revoked l);
  crl_verify_signature l key := String.eqb (dl_signed_by l) key;
|}.

(** The network is the names of the lists that can be fetched. *)
Definition demo_cert_config : CertConfig (list string) :=
  mkCertConfig [mkCertRoleMapping "CN = bob" "janitor"; mkCertRoleMapping "cn=BOB" "user"; mkCertRoleMapping "alice" "SO"; mkCertRoleMapping "ldap:alice" "so"]
    (Some "email") [as_bytes "A"; as_bytes "B"] false
    (mkRevocation true [as_bytes "old-A"; as_bytes "old-B"] ["new-A"; "new-B"] 0 false)
    (Some (fun net url => if bool_decide (url ∈ net) then Ok (as_bytes url) else Err GeneralError)).

Definition demo_cert_env (now : Z) : CertEnv :=
  let clock := mkRevocationClock (fun _ => now) (fun _ => now) in mkCertEnv now (fun _ => now) clock clock.

Definition demo_login (nets : list (list string)) (now : Z) (chain : list string) : result AuthResult HsmError :=
  cert_authenticate (demo_cert_env now) (cert_refreshes nets (CertAuthProvider_new demo_cert_config)) (map as_bytes chain).

(** The common name is the identity, without a prefix: a certificate can have the identity of
    a user of another provider. *)
Example cert_poses_as_ldap_user :
  demo_login [] 100 ["eve"; "A"] = Ok (mkAuthResult So "ldap:alice" (Some "acme") false).
Proof. reflexivity. Qed.

(** After a refresh that fetched both lists the user of B is revoked.  A later refresh that
    fetches only the list of A drops that of B, the configured one decides again, and the
    revoked user logs in. *)
Example partial_refresh_drops_crl :
  demo_login [["new-A"; "new-B"]] 100 ["bob"; "B"] = Err PinIncorrect /\
  demo_login [["new-A"; "new-B"]; ["new-A"]] 100 ["bob"; "B"] = Ok (mkAuthResult User "bob" (Some "acme") false).
Proof. split; reflexivity. Qed.

(** The same without any refresh, once the list of B has expired. *)
Example expired_crl_falls_back :
  demo_login [["new-A"; "new-B"]] 300 ["bob"; "B"] = Ok (mkAuthResult User "bob" (Some "acme") false).
Proof. reflexivity. Qed.

(** A maximal age of at least 2^63 seconds is negative as a signed number: every list is too
    old. *)
Example huge_max_age_refuses :
  crl_usable (mkRevocation true [] [] (2 ^ 63) false) (mkDemoCrl "A" "A" 0 None []) 0 = false.
Proof. reflexivity. Qed.

(** Two tenants in one certificate are refused. *)
Example two_tenants_refused :
  extract_tenant_from_sans (CertAuthProvider_new demo_cert_config)
    (mkDemoCert "1" "A" "x" "x" "A" None [RFC822Name "a@one"; RFC822Name "b@two"; DNSName "three"]) = Err PinIncorrect.
Proof. reflexivity. Qed.

(** ** Witnesses *)

Lemma cert_login_sound_witness :
  exists identity, cert_provider_authenticate (demo_cert_env 100) (CredCertificate [as_bytes "alice"; as_bytes "A"])
      (cert_refreshes [["new-A"]] (CertAuthProvider_new demo_cert_config))
    = COk (Ok identity, cert_refreshes [["new-A"]] (CertAuthProvider_new demo_cert_config)) /\
  chain_trusted demo_cert_config (demo_cert_env 100) [as_bytes "alice"; as_bytes "A"].
Proof.
  eexists. split; [vm_compute; reflexivity|].
  apply (cert_login_sound demo_cert_config [["new-A"]] (demo_cert_env 100) [as_bytes "alice"; as_bytes "A"]
    (mkAuthResult So "alice" (Some "acme") false) (cert_refreshes [["new-A"]] (CertAuthProvider_new demo_cert_config)));
    [done|vm_compute; reflexivity].
Defined.
