(* ===== verification/CertFsm.v ===== *)
(** * The finite state model of the module ([craton-hsm-certified/src/fsm.rs])

    States, transition tables, the default FIPS table, the validator with its
    depth-first search, the DOT export and the runtime machine [ModuleFsm] with its
    atomic state byte.  A violation is kept as the data from which its message is
    formatted; the message itself, which only the final sort looks at, is the
    argument [message].  Operations of the runtime machine are split at their atomic
    accesses, so that threads can interleave between them. *)

From stdpp Require Import prelude gmap finite strings list sorting.
From Stdlib Require Import ZArith Lia.
From S2P Require Import Prelude RustStd.
Local Open Scope string_scope.
Local Open Scope list_scope.
Local Open Scope Z_scope.

(** ** States and tables *)

Inductive ModuleState : Type :=
| PowerOff | PowerOn | SelfTest | CryptoOfficerMode | UserMode | ErrorState | Zeroization.

#[global] Instance ModuleState_eq_dec : EqDecision ModuleState.
Proof. solve_decision. Defined.

Definition STATE_COUNT : nat := 7.

Definition ModuleState_all : list ModuleState :=
  [PowerOff; PowerOn; SelfTest; CryptoOfficerMode; UserMode; ErrorState; Zeroization].

#[global] Program Instance ModuleState_finite : Finite ModuleState := {| enum := ModuleState_all |}.
Next Obligation. repeat (constructor; [set_solver|]); constructor. Qed.
Next Obligation. intros []; set_solver. Qed.

Definition label (s : ModuleState) : string :=
  match s with
  | PowerOff => "Power Off" | PowerOn => "Power On" | SelfTest => "Self-Test"
  | CryptoOfficerMode => "Crypto Officer" | UserMode => "User Mode"
  | ErrorState => "Error" | Zeroization => "Zeroization"
  end.

Definition dot_id (s : ModuleState) : string :=
  match s with
  | PowerOff => "PowerOff" | PowerOn => "PowerOn" | SelfTest => "SelfTest"
  | CryptoOfficerMode => "CryptoOfficer" | UserMode => "UserMode"
  | ErrorState => "ErrorState" | Zeroization => "Zeroization"
  end.

(** The discriminants of [#[repr(u8)]]. *)
Definition state_to_u8 (s : ModuleState) : Z :=
  match s with
  | PowerOff => 0 | PowerOn => 1 | SelfTest => 2 | CryptoOfficerMode => 3 | UserMode => 4
  | ErrorState => 5 | Zeroization => 6
  end.

Definition idx (s : ModuleState) : nat := Z.to_nat (state_to_u8 s).

Definition u8_to_state (v : Z) : ModuleState :=
  if v =? state_to_u8 PowerOff then PowerOff
  else if v =? state_to_u8 PowerOn then PowerOn
  else if v =? state_to_u8 SelfTest then SelfTest
  else if v =? state_to_u8 CryptoOfficerMode then CryptoOfficerMode
  else if v =? state_to_u8 UserMode then UserMode
  else if v =? state_to_u8 Zeroization then Zeroization
  else if v =? state_to_u8 ErrorState then ErrorState
  else ErrorState.

Record FsmTransition : Type := mkTransition {
  ft_from : ModuleState;
  ft_to : ModuleState;
  ft_event : string;
  ft_guard : option string;
}.

#[global] Instance FsmTransition_eq_dec : EqDecision FsmTransition.
Proof. solve_decision. Defined.

Record FsmModel : Type := mkModel {
  transitions : list FsmTransition;
  initial_state : ModuleState;
}.

Inductive FsmTransitionError : Type :=
| NoSuchTransition (from : ModuleState) (event : string)
| GuardFailed (from to : ModuleState) (event guard : string).

(** [self.transitions.iter().find(|t| t.from == current && t.event == event)] *)
Definition find_edge (model : FsmModel) (current : ModuleState) (event : string)
    : option FsmTransition :=
  find (fun t => bool_decide (ft_from t = current) && String.eqb (ft_event t) event)
    (transitions model).

Definition next_state (model : FsmModel) (current : ModuleState) (event : string)
    : option ModuleState :=
  ft_to <$> find_edge model current event.

Definition transition (model : FsmModel) (current : ModuleState) (event : string)
    (guard_eval : string -> bool) : result ModuleState FsmTransitionError :=
  match find_edge model current event with
  | None => Err (NoSuchTransition current event)
  | Some t =>
      match ft_guard t with
      | Some guard =>
          if negb (guard_eval guard) then Err (GuardFailed current (ft_to t) event guard)
          else Ok (ft_to t)
      | None => Ok (ft_to t)
      end
  end.

Definition default_fips_fsm : FsmModel :=
  mkModel
    [mkTransition PowerOff PowerOn "power_on" None;
     mkTransition PowerOn SelfTest "run_self_tests" None;
     mkTransition SelfTest CryptoOfficerMode "self_tests_passed" (Some "all_kats_pass");
     mkTransition SelfTest ErrorState "self_tests_failed" None;
     mkTransition CryptoOfficerMode UserMode "authenticate_user" (Some "valid_credentials");
     mkTransition UserMode CryptoOfficerMode "authenticate_co" (Some "valid_co_credentials");
     mkTransition CryptoOfficerMode Zeroization "zeroize" None;
     mkTransition UserMode Zeroization "zeroize" None;
     mkTransition CryptoOfficerMode ErrorState "runtime_error" None;
     mkTransition UserMode ErrorState "runtime_error" None;
     mkTransition ErrorState Zeroization "zeroize" None;
     mkTransition ErrorState PowerOff "power_off" None;
     mkTransition Zeroization PowerOff "zeroization_complete" None]
    PowerOff.

(** ** Validation *)

Inductive Violation : Type :=
| Unreachable (state from : ModuleState)
| DeadState (state : ModuleState)
| NoMandatorySelfTest
| SelfTestBypass (target : ModuleState)
| InvalidErrorExit (target : ModuleState)
| DirectPowerOff (from : ModuleState)
| DuplicateTransition (from : ModuleState) (event : string).

(** [adjacency[state]]: the targets in the order of the table. *)
Definition adjacency (model : FsmModel) (state : ModuleState) : list ModuleState :=
  ft_to <$> filter (fun t => ft_from t = state) (transitions model).

(** The body of the inner loop: mark and push.  The top of the stack is the head of
    the list. *)
Definition visit (acc : list ModuleState * gset ModuleState) (next : ModuleState)
    : list ModuleState * gset ModuleState :=
  let '(stack, visited) := acc in
  if bool_decide (next ∈ visited) then (stack, visited) else (next :: stack, {[ next ]} ∪ visited).

(** The search; [None] means that the fuel ran out. *)
Fixpoint dfs (fuel : nat) (model : FsmModel) (stack : list ModuleState) (visited : gset ModuleState)
    : option (gset ModuleState) :=
  match stack with
  | [] => Some visited
  | state :: stack =>
      match fuel with
      | O => None
      | S fuel =>
          let '(stack, visited) := foldl visit (stack, visited) (adjacency model state) in
          dfs fuel model stack visited
      end
  end.

Definition search (model : FsmModel) : option (gset ModuleState) :=
  dfs STATE_COUNT model [initial_state model] {[ initial_state model ]}.

Definition unreachable_check (model : FsmModel) (visited : gset ModuleState) : list Violation :=
  (fun s => Unreachable s (initial_state model)) <$> filter (fun s => s ∉ visited) ModuleState_all.

Definition dead_state_check (model : FsmModel) : list Violation :=
  DeadState <$> filter (fun s => s <> PowerOff /\ adjacency model s = []) ModuleState_all.

Definition power_on_check (model : FsmModel) : list Violation :=
  let power_on_targets := adjacency model PowerOn in
  (if bool_decide (SelfTest ∈ power_on_targets) then [] else [NoMandatorySelfTest])
  ++ (SelfTestBypass <$> filter (fun s => s <> SelfTest) power_on_targets).

Definition error_exit_check (model : FsmModel) : list Violation :=
  (fun t => InvalidErrorExit (ft_to t)) <$>
    filter (fun t => ft_from t = ErrorState /\ ft_to t <> Zeroization /\ ft_to t <> PowerOff)
      (transitions model).

Definition power_off_check (model : FsmModel) : list Violation :=
  (fun t => DirectPowerOff (ft_from t)) <$>
    filter (fun t => (ft_from t = CryptoOfficerMode \/ ft_from t = UserMode) /\ ft_to t = PowerOff)
      (transitions model).

(** The loop over [seen]. *)
Fixpoint duplicate_check (ts : list FsmTransition) (seen : list (ModuleState * string))
    : list Violation :=
  match ts with
  | [] => []
  | t :: ts =>
      if bool_decide ((ft_from t, ft_event t) ∈ seen)
      then DuplicateTransition (ft_from t) (ft_event t) :: duplicate_check ts seen
      else duplicate_check ts ((ft_from t, ft_event t) :: seen)
  end.

Definition validate_fsm_inner (model : FsmModel) : option (list Violation) :=
  visited ← search model;
  Some (unreachable_check model visited ++ dead_state_check model ++ power_on_check model
        ++ error_exit_check model ++ power_off_check model ++ duplicate_check (transitions model) []).

Definition message_le (message : Violation -> string) (a b : Violation) : Prop :=
  String.leb (message a) (message b) = true.

#[global] Instance message_le_dec message : RelDecision (message_le message).
Proof. intros a b. unfold message_le. solve_decision. Defined.

Definition validate_fsm (message : Violation -> string) (model : FsmModel)
    : option (result unit (list Violation)) :=
  violations ← validate_fsm_inner model;
  let violations := merge_sort (message_le message) violations in
  Some (if bool_decide (violations = []) then Ok tt else Err violations).

(** ** DOT export *)

Definition newline : string := String (Ascii.Ascii false true false true false false false false) "".
Definition quote : string := String (Ascii.Ascii false true false false false true false false) "".

Definition shape (s : ModuleState) : string :=
  match s with PowerOff => "doubleoctagon" | ErrorState => "octagon" | _ => "box" end.

Definition dot_node (s : ModuleState) : string :=
  "    " +:+ dot_id s +:+ " [label=" +:+ quote +:+ label s +:+ quote +:+ ", shape=" +:+ shape s
  +:+ "];" +:+ newline.

Definition dot_edge (t : FsmTransition) : string :=
  let lbl :=
    match ft_guard t with
    | Some guard => ft_event t +:+ " [" +:+ guard +:+ "]"
    | None => ft_event t
    end in
  "    " +:+ dot_id (ft_from t) +:+ " -> " +:+ dot_id (ft_to t) +:+ " [label=" +:+ quote +:+ lbl
  +:+ quote +:+ "];" +:+ newline.

Definition export_dot (model : FsmModel) : string :=
  let dot := "digraph FIPS_FSM {" +:+ newline +:+ "    rankdir=TB;" +:+ newline
             +:+ "    node [shape=box, style=rounded];" +:+ newline +:+ newline in
  let dot := foldl (fun dot s => dot +:+ dot_node s) dot ModuleState_all in
  let dot := dot +:+ newline in
  let dot := foldl (fun dot t => dot +:+ dot_edge t) dot (transitions model) in
  dot +:+ "}" +:+ newline.

(** ** The runtime machine *)

Module Ev.
Inductive Event : Type :=
| PowerOn | RunSelfTests | SelfTestsPassed | SelfTestsFailed | Zeroize | PowerOff.

Definition name (e : Event) : string :=
  match e with
  | PowerOn => "power_on" | RunSelfTests => "run_self_tests"
  | SelfTestsPassed => "self_tests_passed" | SelfTestsFailed => "self_tests_failed"
  | Zeroize => "zeroize" | PowerOff => "power_off"
  end.
End Ev.

Inductive ErrorReason : Type := KatFailure | IntegrityFailure | FatalRuntimeError.

Record ModuleFsm : Type := mkFsm {
  mf_model : FsmModel;
  mf_state : Z;
  mf_error_latched : bool;
  mf_guard : option (string -> bool);
}.

Definition set_fsm_state (v : Z) (f : ModuleFsm) : ModuleFsm :=
  mkFsm (mf_model f) v (mf_error_latched f) (mf_guard f).

Definition ModuleFsm_new (model : FsmModel) : ModuleFsm :=
  mkFsm model (state_to_u8 (initial_state model)) false None.

Definition current_state (f : ModuleFsm) : ModuleState := u8_to_state (mf_state f).

Definition set_guard (predicate : string -> bool) (f : ModuleFsm) : ModuleFsm :=
  mkFsm (mf_model f) (mf_state f) (mf_error_latched f) (Some predicate).

(** The parts of one iteration of [try_transition]: find the edge for the byte that
    was loaded, evaluate its guard, exchange the byte. *)
Definition tt_edge (model : FsmModel) (current_u8 : Z) (event : Ev.Event)
    : result FsmTransition FsmTransitionError :=
  let current := u8_to_state current_u8 in
  match find_edge model current (Ev.name event) with
  | Some t => Ok t
  | None => Err (NoSuchTransition current (Ev.name event))
  end.

Definition tt_guard (edge : FsmTransition) (current_u8 : Z) (event : Ev.Event)
    (installed : option (string -> bool)) : result unit FsmTransitionError :=
  match ft_guard edge with
  | None => Ok tt
  | Some g =>
      let allowed := match installed with Some f => f g | None => false end in
      if negb allowed
      then Err (GuardFailed (u8_to_state current_u8) (ft_to edge) (Ev.name event) g)
      else Ok tt
  end.

(** [compare_exchange]: whether it took place, and the new byte. *)
Definition compare_exchange (expected new v : Z) : bool * Z :=
  if v =? expected then (true, new) else (false, v).

(** Without interference the first exchange succeeds. *)
Definition try_transition (event : Ev.Event) (f : ModuleFsm)
    : result ModuleState FsmTransitionError * ModuleFsm :=
  let current_u8 := mf_state f in
  match tt_edge (mf_model f) current_u8 event with
  | Err e => (Err e, f)
  | Ok edge =>
      match tt_guard edge current_u8 event (mf_guard f) with
      | Err e => (Err e, f)
      | Ok _ =>
          let '(_, v) := compare_exchange current_u8 (state_to_u8 (ft_to edge)) (mf_state f) in
          (Ok (ft_to edge), set_fsm_state v f)
      end
  end.

(** [enter_error_state]: the latch, with the reason for which the hook fires if it
    does, then the byte. *)
Definition latch_error (reason : ErrorReason) (f : ModuleFsm) : option ErrorReason * ModuleFsm :=
  if mf_error_latched f then (None, f)
  else (Some reason, mkFsm (mf_model f) (mf_state f) true (mf_guard f)).

Definition force_error (current : Z) (f : ModuleFsm) : bool * ModuleFsm :=
  let target := state_to_u8 ErrorState in
  if current =? target then (true, f)
  else let '(done, v) := compare_exchange current target (mf_state f) in (done, set_fsm_state v f).

Definition enter_error_state (reason : ErrorReason) (f : ModuleFsm)
    : option ErrorReason * ModuleFsm :=
  let '(fired, f) := latch_error reason f in
  let '(_, f) := force_error (mf_state f) f in
  (fired, f).
