(* ===== verification/CertFsmProofs.v ===== *)
(** * Correctness of the module's state machine

    The validator accepts exactly the tables with the documented properties; the
    runtime machine follows its table under every interleaving; in the default table
    operation needs passed self tests.  Then what the table and the runtime events
    leave open. *)

From stdpp Require Import prelude gmap finite strings list sorting relations.
From Stdlib Require Import ZArith Lia.
From S2P Require Import Prelude RustStd CertFsm.
Local Open Scope string_scope.
Local Open Scope list_scope.
Local Open Scope Z_scope.

(** ** The search *)

Definition edge (model : FsmModel) (s s' : ModuleState) : Prop :=
  exists t, t ∈ transitions model /\ ft_from t = s /\ ft_to t = s'.

Lemma elem_of_adjacency model s s' : s' ∈ adjacency model s <-> edge model s s'.
Proof.
  unfold adjacency, edge. rewrite list_elem_of_fmap. setoid_rewrite list_elem_of_filter.
  naive_solver.
Qed.

Lemma fold_visit l st vi st' vi' :
  foldl visit (st, vi) l = (st', vi') ->
  vi' = list_to_set l ∪ vi /\
  (forall s, s ∈ st' <-> s ∈ st \/ (s ∈ l /\ s ∉ vi)) /\
  (length st' + size vi = length st + size vi')%nat.
Proof.
  revert st vi. induction l as [|x l IH]; intros st vi.
  - intros [= <- <-]. split_and!; [set_solver| |lia]. intros s. split; [auto|].
    intros [?|[?%elem_of_nil _]]; done.
  - cbn [foldl]. unfold visit at 2. case_bool_decide as Hx.
    + intros (-> & Hst & Hlen)%IH. split_and!; [set_solver| |lia].
      intros s. rewrite Hst, elem_of_cons. split; [tauto|]. intros [?|[[->|?] ?]]; tauto.
    + intros (-> & Hst & Hlen)%IH. split_and!; [set_solver| |].
      * intros s. rewrite Hst, !elem_of_cons, not_elem_of_union, not_elem_of_singleton.
        destruct (decide (s = x)) as [->|]; tauto.
      * rewrite size_union, size_singleton in Hlen by set_solver. simpl in Hlen. lia.
Qed.

Section Search.
Variable model : FsmModel.

Abbreviation reach := (rtc (edge model) (initial_state model)).

(** Everything visited is reachable, and what is not on the stack any more has its
    successors visited. *)
Record search_inv (stack : list ModuleState) (visited : gset ModuleState) : Prop := {
  si_initial : initial_state model ∈ visited;
  si_stack : forall s, s ∈ stack -> s ∈ visited;
  si_sound : forall s, s ∈ visited -> reach s;
  si_closed : forall s s', s ∈ visited -> s ∉ stack -> edge model s s' -> s' ∈ visited;
}.

Lemma search_inv_step s stack visited stack' visited' :
  search_inv (s :: stack) visited ->
  foldl visit (stack, visited) (adjacency model s) = (stack', visited') ->
  search_inv stack' visited'.
Proof.
  intros [Hi Hst Hso Hcl] (-> & Hst' & _)%fold_visit. split.
  - set_solver.
  - intros x [?|[? ?]]%Hst'; [|set_solver]. apply elem_of_union_r, Hst. by right.
  - intros x [Hx%elem_of_list_to_set|Hx]%elem_of_union; [|auto].
    apply elem_of_adjacency in Hx. eapply rtc_r; [apply Hso, Hst; left|done].
  - intros x y [Hx%elem_of_list_to_set|Hx]%elem_of_union Hn He.
    + destruct (decide (x ∈ visited)) as [Hv|Hv]; [|destruct Hn; apply Hst'; auto].
      destruct (decide (x = s)) as [->|].
      * apply elem_of_union_l, elem_of_list_to_set. by apply elem_of_adjacency.
      * apply elem_of_union_r, (Hcl x); [done| |done]. intros [|]%elem_of_cons; [done|].
        destruct Hn. apply Hst'. auto.
    + destruct (decide (x = s)) as [->|].
      * apply elem_of_union_l, elem_of_list_to_set. by apply elem_of_adjacency.
      * apply elem_of_union_r, (Hcl x); [done| |done]. intros [|]%elem_of_cons; [done|].
        destruct Hn. apply Hst'. auto.
Qed.

Lemma size_states (X : gset ModuleState) : (size X <= STATE_COUNT)%nat.
Proof.
  etrans; [apply (subseteq_size _ (list_to_set ModuleState_all))|done].
  intros [] _; set_solver.
Qed.

Lemma search_done visited : search_inv [] visited -> forall s, s ∈ visited <-> reach s.
Proof.
  intros Inv s. split; [apply Inv|].
  apply (rtc_invariant _ (fun s => s ∈ visited)); [|apply Inv].
  intros y z Hy Hyz. eapply (si_closed _ _ Inv); [exact Hy|apply not_elem_of_nil|exact Hyz].
Qed.

(** Every iteration pops one state; a state is pushed at most once. *)
Lemma dfs_correct fuel stack visited :
  search_inv stack visited -> (length stack + (STATE_COUNT - size visited) <= fuel)%nat ->
  exists res, dfs fuel model stack visited = Some res /\ forall s, s ∈ res <-> reach s.
Proof.
  revert stack visited. induction fuel as [|fuel IH]; intros [|s stack] visited Inv Hf.
  1,3: exists visited; split; [done|]; by apply search_done.
  - simpl in Hf. lia.
  - cbn [dfs]. destruct (foldl visit (stack, visited) (adjacency model s)) as [st' vi'] eqn:E.
    apply IH; [by eapply search_inv_step|].
    apply fold_visit in E as (_ & _ & Hlen). pose proof (size_states vi'). pose proof (size_states visited).
    cbn [length] in Hf. lia.
Qed.

Lemma search_correct : exists res, search model = Some res /\ forall s, s ∈ res <-> reach s.
Proof.
  apply dfs_correct; [|by rewrite size_singleton].
  split.
  - set_solver.
  - set_solver.
  - intros s ->%elem_of_singleton. done.
  - intros s s' ?%elem_of_singleton []. subst. left.
Qed.

End Search.

(** ** The validator *)

(** The requirements that the module documentation lists. *)
Record fips_valid (model : FsmModel) : Prop := {
  fv_reachable : forall s, rtc (edge model) (initial_state model) s;
  fv_no_dead : forall s, s <> PowerOff -> exists s', edge model s s';
  fv_self_test : edge model PowerOn SelfTest;
  fv_no_bypass : forall s, edge model PowerOn s -> s = SelfTest;
  fv_error_exit : forall s, edge model ErrorState s -> s = Zeroization \/ s = PowerOff;
  fv_power_off : ~ edge model CryptoOfficerMode PowerOff /\ ~ edge model UserMode PowerOff;
  fv_deterministic : NoDup ((fun t => (ft_from t, ft_event t)) <$> transitions model);
}.

Lemma fmap_filter_nil {A B} (f : A -> B) (P : A -> Prop) `{forall x, Decision (P x)} l :
  f <$> filter P l = [] <-> forall x, x ∈ l -> ~ P x.
Proof.
  split.
  - intros E%fmap_nil_inv x Hx Hp. assert (x ∈ filter P l) as Hin by (by apply list_elem_of_filter).
    rewrite E in Hin. by apply elem_of_nil in Hin.
  - intros Hn. destruct (filter P l) as [|x r] eqn:E; [done|]. exfalso.
    assert (x ∈ filter P l) as [Hp Hx]%list_elem_of_filter by (rewrite E; left). by apply (Hn x).
Qed.

Lemma elem_of_all s : s ∈ ModuleState_all.
Proof. destruct s; set_solver. Qed.

Lemma dead_state_spec model :
  dead_state_check model = [] <-> forall s, s <> PowerOff -> exists s', edge model s s'.
Proof.
  unfold dead_state_check. rewrite fmap_filter_nil. split; intros Hd s.
  - intros Hs. destruct (adjacency model s) as [|s' r] eqn:E.
    + destruct (Hd s (elem_of_all s)). done.
    + exists s'. apply elem_of_adjacency. rewrite E. left.
  - intros _ [Hs Hn]. destruct (Hd s Hs) as (s' & He%elem_of_adjacency). rewrite Hn in He.
    by apply elem_of_nil in He.
Qed.

Lemma power_on_spec model :
  power_on_check model = [] <->
  edge model PowerOn SelfTest /\ forall s, edge model PowerOn s -> s = SelfTest.
Proof.
  unfold power_on_check. rewrite app_nil, fmap_filter_nil. case_bool_decide as Hs.
  - rewrite elem_of_adjacency in Hs. setoid_rewrite elem_of_adjacency.
    split; [intros [_ Hf]|intros [_ Hf]]; (split; [done|]); intros s He.
    + by apply dec_stable, Hf.
    + intros Hn. by apply Hn, Hf.
  - rewrite elem_of_adjacency in Hs. split; [intros [? _]|intros [? _]]; done.
Qed.

Lemma transitions_forall model (P : ModuleState -> ModuleState -> Prop) :
  (forall t, t ∈ transitions model -> P (ft_from t) (ft_to t)) <->
  (forall s s', edge model s s' -> P s s').
Proof.
  split; [intros Ht s s' (t & Hin & <- & <-); auto|intros He t Hin; apply He; by exists t].
Qed.

Lemma error_exit_spec model :
  error_exit_check model = [] <-> forall s, edge model ErrorState s -> s = Zeroization \/ s = PowerOff.
Proof.
  unfold error_exit_check. rewrite fmap_filter_nil.
  rewrite (transitions_forall model (fun s s' => ~ (s = ErrorState /\ s' <> Zeroization /\ s' <> PowerOff))).
  split.
  - intros H s He. specialize (H _ _ He).
    destruct (decide (s = Zeroization)), (decide (s = PowerOff)); tauto.
  - intros H s s' He (-> & ? & ?). destruct (H _ He); tauto.
Qed.

Lemma power_off_spec model :
  power_off_check model = [] <-> ~ edge model CryptoOfficerMode PowerOff /\ ~ edge model UserMode PowerOff.
Proof.
  unfold power_off_check. rewrite fmap_filter_nil.
  rewrite (transitions_forall model
    (fun s s' => ~ ((s = CryptoOfficerMode \/ s = UserMode) /\ s' = PowerOff))).
  split; [intros H; split; intros He; eapply H; eauto|].
  intros [H1 H2] s s' He ([->| ->] & ->); auto.
Qed.

Lemma duplicate_spec ts seen :
  duplicate_check ts seen = [] <->
  NoDup ((fun t => (ft_from t, ft_event t)) <$> ts) /\
  forall t, t ∈ ts -> (ft_from t, ft_event t) ∉ seen.
Proof.
  revert seen. induction ts as [|t ts IH]; intros seen.
  - simpl. split; [intros _; split; [apply NoDup_nil_2|by intros ? ?%elem_of_nil]|done].
  - cbn [duplicate_check]. rewrite fmap_cons, NoDup_cons. case_bool_decide as Hs.
    + split; [done|]. intros [_ Hf]. destruct (Hf t); [left|done].
    + rewrite IH. setoid_rewrite elem_of_cons. split.
      * intros [Hnd Hf]. split; [split; [|done]|].
        -- intros (t' & E & Ht')%list_elem_of_fmap. apply (Hf t' Ht'). auto.
        -- intros t' [->|Ht'] Hin; [done|]. apply (Hf t' Ht'). auto.
      * intros [[Hn Hnd] Hf]. split; [done|]. intros t' Ht' [E|Hin].
        -- apply Hn. apply list_elem_of_fmap. by exists t'.
        -- apply (Hf t'); auto.
Qed.

Lemma validate_spec message model :
  (exists r, validate_fsm message model = Some r) /\
  (validate_fsm message model = Some (Ok tt) <-> fips_valid model).
Proof.
  destruct (search_correct model) as (visited & Hs & Hv).
  unfold validate_fsm, validate_fsm_inner. rewrite Hs. simpl. split; [by eexists|].
  set (vs := unreachable_check model visited ++ _).
  assert (bool_decide (merge_sort (message_le message) vs = []) = bool_decide (vs = [])) as ->.
  { apply bool_decide_ext. pose proof (merge_sort_Permutation (message_le message) vs) as Hp.
    split; intros E; [rewrite E in Hp; by apply Permutation_nil in Hp|by rewrite E]. }
  assert (vs = [] <-> fips_valid model) as <-; [|case_bool_decide; naive_solver].
  unfold vs. rewrite !app_nil, dead_state_spec, power_on_spec, error_exit_spec, power_off_spec, duplicate_spec.
  assert (unreachable_check model visited = [] <-> forall s, rtc (edge model) (initial_state model) s) as ->.
  { unfold unreachable_check. rewrite fmap_filter_nil. setoid_rewrite <- Hv. split.
    - intros H s. apply dec_stable, H, elem_of_all.
    - intros H s _ Hn. by apply Hn. }
  split.
  - intros (? & ? & [? ?] & ? & ? & ? & _). by split.
  - intros []. split_and!; try done; try apply fv_power_off0. intros t _ Hin. by apply elem_of_nil in Hin.
Qed.

(** The validator decides the documented requirements: its search always ends
    within the fuel, and it accepts a table exactly when every state is reachable,
    only PowerOff may be terminal, PowerOn leads to SelfTest and nowhere else,
    ErrorState leads only to Zeroization or PowerOff, no operational state leads
    directly to PowerOff, and no state has two transitions for one event. *)
Theorem validate_decides message model :
  (exists r, validate_fsm message model = Some r) /\
  (validate_fsm message model = Some (Ok tt) <-> fips_valid model).
Proof. apply validate_spec. Qed.

Lemma default_valid : fips_valid default_fips_fsm.
Proof. apply (validate_spec (fun _ => "")). vm_compute. reflexivity. Qed.

(** ** The runtime machine under concurrency *)

Lemma u8_to_state_to_u8 s : u8_to_state (state_to_u8 s) = s.
Proof. by destruct s. Qed.

Lemma find_edge_spec model s ev t :
  find_edge model s ev = Some t -> t ∈ transitions model /\ ft_from t = s /\ ft_event t = ev.
Proof.
  unfold find_edge. intros [Hin Hb]%find_some. bool_to_prop.
  split; [by apply list_elem_of_In|]. split; [done|]. by apply String.eqb_eq.
Qed.

(** What a thread holds between two accesses to the shared machine: the edge for the
    byte it loaded, before and after the guard, with the number of its attempt; the start
    of the loop of [enter_error_state] and the byte loaded in it. *)
Inductive Local : Type :=
| LEdge (n : nat) (event : Ev.Event) (cur : Z) (t : FsmTransition)
| LChecked (n : nat) (event : Ev.Event) (cur : Z) (t : FsmTransition)
| LForce
| LForcing (cur : Z).

(** What happened, newest first: attempt [n] read a state, an installed predicate was asked
    for a guard in attempt [n] and gave an answer, attempt [n] changed the state, the error
    state was forced, the hook was called. *)
Inductive HEvent : Type :=
| HLoad (n : nat) (s : ModuleState)
| HEval (n : nat) (guard : string) (answer : bool)
| HEdge (n : nat) (t : FsmTransition)
| HForced
| HZeroized (reason : ErrorReason).

(** The attempts so far. *)
Fixpoint loads (h : list HEvent) : nat :=
  match h with [] => 0 | HLoad _ _ :: h => S (loads h) | _ :: h => loads h end.

(** The guard of the edge is put to the predicate that is installed, if there are both. *)
Definition eval_event (n : nat) (guard : option string) (installed : option (string -> bool)) : list HEvent :=
  match guard, installed with Some g, Some p => [HEval n g (p g)] | _, _ => [] end.
Definition zero_event (o : option ErrorReason) : list HEvent :=
  match o with Some r => [HZeroized r] | None => [] end.

Inductive fsm_step : ModuleFsm * list Local * list HEvent -> ModuleFsm * list Local * list HEvent -> Prop :=
| fs_load ev t f l h :
    tt_edge (mf_model f) (mf_state f) ev = Ok t ->
    fsm_step (f, l, h) (f, LEdge (loads h) ev (mf_state f) t :: l, HLoad (loads h) (u8_to_state (mf_state f)) :: h)
| fs_guard n ev cur t f l l' h :
    l ≡ₚ LEdge n ev cur t :: l' -> tt_guard t cur ev (mf_guard f) = Ok tt ->
    fsm_step (f, l, h) (f, LChecked n ev cur t :: l', eval_event n (ft_guard t) (mf_guard f) ++ h)
| fs_guard_failed n ev cur t e f l l' h :
    l ≡ₚ LEdge n ev cur t :: l' -> tt_guard t cur ev (mf_guard f) = Err e ->
    fsm_step (f, l, h) (f, l', eval_event n (ft_guard t) (mf_guard f) ++ h)
| fs_exchange n ev cur t v f l l' h :
    l ≡ₚ LChecked n ev cur t :: l' ->
    compare_exchange cur (state_to_u8 (ft_to t)) (mf_state f) = (true, v) ->
    fsm_step (f, l, h) (set_fsm_state v f, l', HEdge n t :: h)
| fs_retry n ev cur t v f l l' h :
    l ≡ₚ LChecked n ev cur t :: l' ->
    compare_exchange cur (state_to_u8 (ft_to t)) (mf_state f) = (false, v) ->
    fsm_step (f, l, h) (f, l', h)
| fs_set_guard p f l h : fsm_step (f, l, h) (set_guard p f, l, h)
| fs_latch reason fired f f' l h :
    latch_error reason f = (fired, f') ->
    fsm_step (f, l, h) (f', LForce :: l, zero_event fired ++ h)
| fs_force_load f l l' h :
    l ≡ₚ LForce :: l' -> fsm_step (f, l, h) (f, LForcing (mf_state f) :: l', h)
| fs_forced cur f f' l l' h :
    l ≡ₚ LForcing cur :: l' -> cur <> state_to_u8 ErrorState -> force_error cur f = (true, f') ->
    fsm_step (f, l, h) (f', l', HForced :: h)
| fs_force_seen cur f f' l l' h :
    l ≡ₚ LForcing cur :: l' -> cur = state_to_u8 ErrorState -> force_error cur f = (true, f') ->
    fsm_step (f, l, h) (f', l', h)
| fs_force_retry cur f f' l l' h :
    l ≡ₚ LForcing cur :: l' -> force_error cur f = (false, f') ->
    fsm_step (f, l, h) (f', LForce :: l', h).

(** The path that a history describes. *)
Fixpoint hist_state (init : ModuleState) (h : list HEvent) : ModuleState :=
  match h with
  | [] => init
  | HEdge _ t :: _ => ft_to t
  | HForced :: _ => ErrorState
  | _ :: h => hist_state init h
  end.

(** In attempt [n], after it had read the state [s], an installed predicate answered true
    for the guard [g]. *)
Definition evaluated (n : nat) (s : ModuleState) (g : string) (h : list HEvent) : Prop :=
  exists later earlier, h = later ++ HEval n g true :: earlier /\ HLoad n s ∈ earlier.

(** Every transition is one of the table, for an event of the runtime, from the state
    the machine was in, with its guard evaluated to true by its own attempt. *)
Fixpoint hist_ok (model : FsmModel) (h : list HEvent) : Prop :=
  match h with
  | [] => True
  | HEdge n t :: h =>
      t ∈ transitions model /\ ft_from t = hist_state (initial_state model) h /\
      (exists ev, ft_event t = Ev.name ev) /\
      (forall g, ft_guard t = Some g -> evaluated n (ft_from t) g h) /\ hist_ok model h
  | _ :: h => hist_ok model h
  end.

Definition local_fine (model : FsmModel) (h : list HEvent) (k : Local) : Prop :=
  match k with
  | LEdge n ev cur t =>
      find_edge model (u8_to_state cur) (Ev.name ev) = Some t /\ HLoad n (u8_to_state cur) ∈ h
  | LChecked n ev cur t =>
      find_edge model (u8_to_state cur) (Ev.name ev) = Some t /\
      forall g, ft_guard t = Some g -> evaluated n (u8_to_state cur) g h
  | LForce => True
  | LForcing _ => True
  end.

Record fsm_inv (model : FsmModel) (s : ModuleFsm * list Local * list HEvent) : Prop := {
  fi_model : mf_model s.1.1 = model;
  fi_state : mf_state s.1.1 = state_to_u8 (hist_state (initial_state model) s.2);
  fi_hist : hist_ok model s.2;
  fi_locals : Forall (local_fine model s.2) s.1.2;
}.

Lemma evaluated_grow n s g es h : evaluated n s g h -> evaluated n s g (es ++ h).
Proof. intros (a & b & -> & Hb). exists (es ++ a), b. by rewrite <- app_assoc. Qed.

Lemma local_fine_grow model es h k : local_fine model h k -> local_fine model (es ++ h) k.
Proof.
  destruct k; simpl; auto; intros [? Hh]; (split; [done|]).
  - apply elem_of_app. by right.
  - intros g Hg. by apply evaluated_grow, Hh.
Qed.

(** Events that are no transitions change neither path nor well-formedness. *)
Definition quiet (e : HEvent) : Prop := match e with HLoad _ _ | HEval _ _ _ | HZeroized _ => True | _ => False end.

Lemma hist_quiet model es h :
  Forall quiet es -> hist_state (initial_state model) (es ++ h) = hist_state (initial_state model) h /\
  (hist_ok model h -> hist_ok model (es ++ h)).
Proof. induction 1 as [|e es He _ [IH1 IH2]]; [done|]. by destruct e. Qed.

Lemma quiet_eval n o i : Forall quiet (eval_event n o i).
Proof. destruct o, i; repeat constructor. Qed.
Lemma quiet_zero o : Forall quiet (zero_event o).
Proof. destruct o; repeat constructor. Qed.

Lemma inv_quiet model f f' l l' es h :
  Forall quiet es -> mf_model f' = mf_model f -> mf_state f' = mf_state f ->
  Forall (local_fine model (es ++ h)) l' -> fsm_inv model (f, l, h) -> fsm_inv model (f', l', es ++ h).
Proof.
  intros Hq Hm Hst Hl [H1 H2 H3 H4]. destruct (hist_quiet model es h Hq) as [Hs Ho].
  split; simpl in *; [congruence|by rewrite Hst, Hs|auto|done].
Qed.

Lemma locals_grow model es h l : Forall (local_fine model h) l -> Forall (local_fine model (es ++ h)) l.
Proof.
  intros Hl. eapply Forall_impl; [exact Hl|]. intros k. apply local_fine_grow.
Qed.

Lemma locals_taken model h l k l' :
  l ≡ₚ k :: l' -> Forall (local_fine model h) l -> local_fine model h k /\ Forall (local_fine model h) l'.
Proof. intros Hp Hl. rewrite Hp in Hl. by apply Forall_cons in Hl. Qed.

Lemma inv_exchange model n ev cur t v f l l' h :
  l ≡ₚ LChecked n ev cur t :: l' ->
  compare_exchange cur (state_to_u8 (ft_to t)) (mf_state f) = (true, v) ->
  fsm_inv model (f, l, h) -> fsm_inv model (set_fsm_state v f, l', HEdge n t :: h).
Proof.
  intros Hp Hx [H1 H2 H3 H4]. simpl in *.
  destruct (locals_taken _ _ _ _ _ Hp H4) as [[Hf Hg] Hl].
  unfold compare_exchange in Hx. case_if; simplify_eq. bool_to_prop.
  apply find_edge_spec in Hf as (Hin & Hfrom & Hev).
  split; simpl; auto.
  - split_and!; [done| |by exists ev|by rewrite Hfrom|done].
    match goal with E : mf_state f = _ |- _ => rewrite Hfrom, <- E, H2 end. apply u8_to_state_to_u8.
  - by apply (locals_grow _ [HEdge n t]).
Qed.

Lemma inv_forced model cur f f' l l' h :
  l ≡ₚ LForcing cur :: l' -> cur <> state_to_u8 ErrorState -> force_error cur f = (true, f') ->
  fsm_inv model (f, l, h) -> fsm_inv model (f', l', HForced :: h).
Proof.
  intros Hp Hne Hx [H1 H2 H3 H4]. simpl in *.
  destruct (locals_taken _ _ _ _ _ Hp H4) as [_ Hl].
  unfold force_error in Hx. rewrite (proj2 (Z.eqb_neq _ _)) in Hx by done.
  unfold compare_exchange in Hx. case_if; simplify_eq.
  split; simpl; auto. by apply (locals_grow _ [HForced]).
Qed.

Lemma inv_fsm_step model s s' : fsm_inv model s -> fsm_step s s' -> fsm_inv model s'.
Proof.
  intros Inv Hs. pose proof (fi_locals _ _ Inv) as Hl. pose proof (fi_model _ _ Inv) as Hm.
  destruct Hs; simpl in Hl, Hm;
    try (match goal with Hp : _ ≡ₚ _ :: _ |- _ => pose proof (locals_taken _ _ _ _ _ Hp Hl) as [Hk Hl'] end).
  - eapply (inv_quiet _ _ _ _ _ [_]); [by repeat constructor|done|done| |exact Inv].
    constructor; [|by apply (locals_grow _ [_])]. simpl. split; [|left].
    unfold tt_edge in *. rewrite Hm in *. by case_match; simplify_eq.
  - eapply inv_quiet; [apply quiet_eval|done|done| |exact Inv].
    constructor; [|by apply locals_grow]. destruct Hk as [Hf Hload]. split; [done|]. intros g Hg.
    unfold tt_guard in *. rewrite Hg in *. destruct (mf_guard f) as [pr|]; [|done]. destruct (pr g) eqn:Ep; [|done].
    exists [], h. cbn. by rewrite Ep.
  - eapply inv_quiet; [apply quiet_eval|done|done| |exact Inv]. by apply locals_grow.
  - by eapply inv_exchange.
  - by eapply (inv_quiet _ _ _ _ _ []); [constructor|..|exact Inv].
  - by eapply (inv_quiet _ _ _ _ _ []); [constructor|..|exact Inv].
  - assert (mf_model f' = mf_model f /\ mf_state f' = mf_state f) as [? ?].
    { unfold latch_error in *. by case_if; simplify_eq. }
    eapply inv_quiet; [apply quiet_zero|done|done| |exact Inv].
    constructor; [done|]. by apply locals_grow.
  - eapply (inv_quiet _ _ _ _ _ []); [constructor|done|done| |exact Inv]. by constructor.
  - by eapply inv_forced.
  - assert (f' = f) as -> by (unfold force_error in *; subst cur; simpl in *; by simplify_eq).
    by eapply (inv_quiet _ _ _ _ _ []); [constructor|..|exact Inv].
  - assert (f' = f) as ->.
    { unfold force_error, compare_exchange, set_fsm_state in *. repeat (case_if; simplify_eq). by destruct f. }
    eapply (inv_quiet _ _ _ _ _ []); [constructor|done|done| |exact Inv]. by constructor.
Qed.

Lemma inv_current model f l h :
  fsm_inv model (f, l, h) -> current_state f = hist_state (initial_state model) h.
Proof.
  intros [_ H2 _ _]. simpl in H2. unfold current_state. rewrite H2. apply u8_to_state_to_u8.
Qed.

Lemma inv_fsm_run model f l h :
  rtc fsm_step (ModuleFsm_new model, [], []) (f, l, h) -> fsm_inv model (f, l, h).
Proof. apply rtc_invariant; [apply inv_fsm_step|]. split; simpl; auto. Qed.

(** The runtime machine follows its table.  Under every interleaving of threads
    that request transitions, install guards and force the error state, each
    change of state is either an entry of the table, for a runtime event, from the
    state the machine was in at that moment, whose guard an installed predicate had
    evaluated to true, or the forced entry into ErrorState; and the state byte
    always holds the state this history ends in. *)
Theorem runtime_follows_table model f l h :
  rtc fsm_step (ModuleFsm_new model, [], []) (f, l, h) ->
  current_state f = hist_state (initial_state model) h /\ hist_ok model h.
Proof.
  intros Inv%inv_fsm_run. split; [by eapply inv_current|apply (fi_hist _ _ Inv)].
Qed.

(** ** The default table *)

(** The states in which services are available. *)
Definition operational (s : ModuleState) : Prop := s = CryptoOfficerMode \/ s = UserMode.

Definition passed_edge : FsmTransition :=
  mkTransition SelfTest CryptoOfficerMode "self_tests_passed" (Some "all_kats_pass").

(** Transitions within operation. *)
Definition stays_operational (e : HEvent) : Prop :=
  match e with HEdge _ t => operational (ft_to t) | HForced => False | _ => True end.

Lemma default_edges t :
  t ∈ transitions default_fips_fsm -> operational (ft_to t) ->
  t = passed_edge \/ operational (ft_from t).
Proof.
  intros Hin. rewrite list_elem_of_In in Hin. unfold operational.
  repeat (destruct Hin as [<-|Hin]; [simpl; intuition congruence|]). done.
Qed.

Lemma hist_operational h :
  hist_ok default_fips_fsm h -> operational (hist_state PowerOff h) ->
  exists h1 n h2, h = h1 ++ HEdge n passed_edge :: h2 /\ evaluated n SelfTest "all_kats_pass" h2 /\
    Forall stays_operational h1.
Proof.
  assert (forall e h, (exists h1 n h2, h = h1 ++ HEdge n passed_edge :: h2 /\ evaluated n SelfTest "all_kats_pass" h2 /\
    Forall stays_operational h1) -> stays_operational e -> exists h1 n h2, e :: h = h1 ++ HEdge n passed_edge :: h2 /\
    evaluated n SelfTest "all_kats_pass" h2 /\ Forall stays_operational h1) as Hcons.
  { intros e h0 (h1 & n & h2 & -> & ? & ?) He. exists (e :: h1), n, h2. split_and!; [done..|]. by constructor. }
  induction h as [|e h IH]; [by intros _ [|]|]. destruct e as [n s|n g b|n t| |r]; simpl; try (intros Ho Hs; by apply Hcons; [apply IH|]).
  - intros (Hin & Hfrom & _ & Hg & Ho) Hs.
    destruct (default_edges t Hin Hs) as [->|Hop].
    + exists [], n, h. split_and!; [done| |constructor]. by apply Hg.
    + apply Hcons; [|done]. apply IH; [done|]. by rewrite <- Hfrom.
  - by intros _ [|].
Qed.

(** C24: no operation without self tests: whenever the machine of the default table is
    in Crypto Officer or User mode, however its threads interleaved, it entered
    operation by the transition from SelfTest; in the very attempt that made this
    transition, after it had read the state SelfTest, an installed predicate was asked for
    the guard [all_kats_pass] and answered true; and since the transition the machine has
    neither been powered off nor forced into the error state.  (Between the answer and the
    transition it may have been: stale_answer_admits.) *)
Theorem operation_needs_self_tests f l h :
  rtc fsm_step (ModuleFsm_new default_fips_fsm, [], []) (f, l, h) ->
  operational (current_state f) ->
  exists h1 n h2, h = h1 ++ HEdge n passed_edge :: h2 /\ evaluated n SelfTest "all_kats_pass" h2 /\
    Forall stays_operational h1.
Proof.
  intros Inv%inv_fsm_run Hop. apply hist_operational; [apply (fi_hist _ _ Inv)|].
  by rewrite (inv_current _ _ _ _ Inv) in Hop.
Qed.

(** ** What the table and the runtime leave open *)

(** Power on, run the self tests, pass them. *)
Definition fsm_path (ev : Ev.Event) (t : FsmTransition) (l : list Local) f h :=
  (set_fsm_state (state_to_u8 (ft_to t)) f, l,
   HEdge (loads h) t :: eval_event (loads h) (ft_guard t) (mf_guard f) ++ HLoad (loads h) (u8_to_state (mf_state f)) :: h).

Lemma one_transition ev t l f h :
  tt_edge (mf_model f) (mf_state f) ev = Ok t -> tt_guard t (mf_state f) ev (mf_guard f) = Ok tt ->
  rtc fsm_step (f, l, h) (fsm_path ev t l f h).
Proof.
  intros He Hg. eapply rtc_l; [by apply fs_load|].
  eapply rtc_l; [by eapply fs_guard|].
  apply rtc_once. eapply fs_exchange; [done|]. unfold compare_exchange. by rewrite Z.eqb_refl.
Qed.

Definition demo_f0 : ModuleFsm := set_guard (fun _ => true) (ModuleFsm_new default_fips_fsm).
Definition e1 : FsmTransition := mkTransition PowerOff PowerOn "power_on" None.
Definition e2 : FsmTransition := mkTransition PowerOn SelfTest "run_self_tests" None.

Definition failed_edge : FsmTransition := mkTransition SelfTest ErrorState "self_tests_failed" None.
Definition off_edge : FsmTransition := mkTransition ErrorState PowerOff "power_off" None.

(** A stale answer admits.  A thread that read SelfTest and got a positive answer for the
    guard can make its transition after the module has failed, has been powered off and on
    again and runs new self tests, although the guard that is installed now refuses. *)
Theorem stale_answer_admits :
  exists f h1 h2, rtc fsm_step (ModuleFsm_new default_fips_fsm, [], []) (f, [], HEdge 2 passed_edge :: h1 ++ HEval 2 "all_kats_pass" true :: h2) /\
    current_state f = CryptoOfficerMode /\ mf_guard f = Some (fun _ => false) /\
    exists n t, HEdge n t ∈ h1 /\ ft_to t = PowerOff.
Proof.
  exists (set_guard (fun _ => false) (set_fsm_state 3 demo_f0)),
    [HEdge 6 e2; HLoad 6 PowerOn; HEdge 5 e1; HLoad 5 PowerOff; HEdge 4 off_edge; HLoad 4 ErrorState; HEdge 3 failed_edge; HLoad 3 SelfTest],
    [HLoad 2 SelfTest; HEdge 1 e2; HLoad 1 PowerOn; HEdge 0 e1; HLoad 0 PowerOff].
  split; [|split; [done|]; split; [done|]; exists 4%nat, off_edge; split; [|done]; do 4 right; left].
  eapply rtc_l; [apply (fs_set_guard (fun _ => true))|].
  etrans; [by apply (one_transition Ev.PowerOn e1 [] demo_f0)|].
  etrans; [by apply (one_transition Ev.RunSelfTests e2)|].
  eapply rtc_l; [by apply (fs_load Ev.SelfTestsPassed passed_edge)|].
  eapply rtc_l; [by eapply fs_guard|].
  etrans; [by apply (one_transition Ev.SelfTestsFailed failed_edge)|].
  etrans; [by apply (one_transition Ev.PowerOff off_edge)|].
  etrans; [by apply (one_transition Ev.PowerOn e1)|].
  etrans; [by apply (one_transition Ev.RunSelfTests e2)|].
  eapply rtc_l; [apply (fs_set_guard (fun _ => false))|].
  apply rtc_once.
  exact (fs_exchange 2 Ev.SelfTestsPassed 2 passed_edge 3 (set_guard (fun _ => false) (set_fsm_state 2 demo_f0))
    [LChecked 2 Ev.SelfTestsPassed 2 passed_edge] [] _ ltac:(reflexivity) eq_refl).
Qed.

(** In the default table an operational state reaches PowerOff without passing
    through Zeroization, by way of ErrorState. *)
Theorem power_off_without_zeroization :
  next_state default_fips_fsm UserMode "runtime_error" = Some ErrorState /\
  next_state default_fips_fsm ErrorState "power_off" = Some PowerOff /\
  fips_valid default_fips_fsm.
Proof. split_and!; [done|done|apply default_valid]. Qed.

(** No runtime event leads to UserMode. *)
Lemma hist_no_user h : hist_ok default_fips_fsm h -> hist_state PowerOff h <> UserMode.
Proof.
  induction h as [|e h IH]; [done|]. destruct e as [n s|n g b|n t| |r]; simpl; auto; try done.
  intros (Hin & _ & (ev & Hev) & _) Hto. rewrite list_elem_of_In in Hin.
  repeat (destruct Hin as [<-|Hin]; [simpl in *; try done; by destruct ev|]). done.
Qed.

(** The runtime machine of the default table never reaches UserMode, and once in
    Zeroization it stays there: no runtime event is accepted, so that it is left
    only by forcing the error state. *)
Theorem runtime_gets_stuck f l h :
  rtc fsm_step (ModuleFsm_new default_fips_fsm, [], []) (f, l, h) ->
  current_state f <> UserMode /\
  (current_state f = Zeroization ->
   forall ev, try_transition ev f = (Err (NoSuchTransition Zeroization (Ev.name ev)), f)).
Proof.
  intros Inv%inv_fsm_run. split.
  - rewrite (inv_current _ _ _ _ Inv). apply hist_no_user, (fi_hist _ _ Inv).
  - intros Hz ev. unfold try_transition, tt_edge. rewrite (fi_model _ _ Inv : mf_model f = _).
    unfold current_state in Hz. rewrite Hz. by destruct ev.
Qed.

(** The hook fires at the first entry into the error state and never again: the
    latch is not reset when the module is powered on again. *)
Definition ready (f : ModuleFsm) : ModuleFsm :=
  (try_transition Ev.SelfTestsPassed (try_transition Ev.RunSelfTests (try_transition Ev.PowerOn f).2).2).2.

Definition first_error : option ErrorReason * ModuleFsm :=
  enter_error_state FatalRuntimeError (ready (set_guard (fun _ => true) (ModuleFsm_new default_fips_fsm))).
Definition second_start : ModuleFsm := ready (try_transition Ev.PowerOff first_error.2).2.

(** Zeroization is skipped at the second error.  After an error, a power cycle
    and passed self tests the machine is operational again, but entering the error
    state does not call the zeroization hook any more. *)
Theorem second_error_keeps_keys :
  first_error.1 = Some FatalRuntimeError /\
  operational (current_state second_start) /\
  (enter_error_state FatalRuntimeError second_start).1 = None /\
  current_state (enter_error_state FatalRuntimeError second_start).2 = ErrorState.
Proof. split_and!; [done| |done|done]. by left. Qed.

(** ** Witnesses *)

Definition demo_f3 : ModuleFsm := set_fsm_state 3 (set_fsm_state 2 (set_fsm_state 1 demo_f0)).
Definition demo_h3 : list HEvent :=
  [HEdge 2 passed_edge; HEval 2 "all_kats_pass" true; HLoad 2 SelfTest; HEdge 1 e2; HLoad 1 PowerOn; HEdge 0 e1; HLoad 0 PowerOff].

Lemma demo_fsm_run : rtc fsm_step (ModuleFsm_new default_fips_fsm, [], []) (demo_f3, [], demo_h3).
Proof.
  eapply rtc_l; [apply (fs_set_guard (fun _ => true))|].
  etrans; [by apply (one_transition Ev.PowerOn e1 [] demo_f0)|].
  etrans; [by apply (one_transition Ev.RunSelfTests e2)|].
  by apply (one_transition Ev.SelfTestsPassed passed_edge).
Qed.

Lemma runtime_follows_table_witness :
  current_state demo_f3 = CryptoOfficerMode /\ hist_ok default_fips_fsm demo_h3.
Proof. exact (runtime_follows_table default_fips_fsm demo_f3 [] demo_h3 demo_fsm_run). Defined.

Lemma operation_needs_self_tests_witness :
  exists h1 n h2, demo_h3 = h1 ++ HEdge n passed_edge :: h2 /\ evaluated n SelfTest "all_kats_pass" h2 /\
    Forall stays_operational h1.
Proof. apply (operation_needs_self_tests demo_f3 [] demo_h3 demo_fsm_run). left. reflexivity. Defined.

Lemma runtime_gets_stuck_witness : current_state demo_f3 <> UserMode.
Proof. exact (proj1 (runtime_gets_stuck demo_f3 [] demo_h3 demo_fsm_run)). Defined.
