(* ===== verification/CertSign.v ===== *)
(** * Signed binaries ([craton-hsm-certified/src/binary_sign.rs], [integrity.rs], [hex_util.rs])

    The envelope around a binary: the footer with its lengths and the canonical JSON of the
    metadata, the HMAC over everything before the tag, parsing from the end, verification
    and the rollback policy.  Slices panic out of range ([or_panic]).  HMAC-SHA256 of
    [aws-lc-rs] and the JSON reader of [serde_json] are parameters ([SignCrates]); feeding a
    context piece by piece is the HMAC of the concatenation.  A file is the sequence of its
    reads. *)

From coqutil Require Import Byte Word.LittleEndianList.
From stdpp Require Import prelude strings list.
From Stdlib Require Import ZArith Lia.
From S2P Require Import Prelude RustStd.
Local Open Scope string_scope.
Local Open Scope list_scope.
Local Open Scope Z_scope.
Local Open Scope rust_scope.

Module Sign.

(** The variants of [CertError] that these files raise. *)
Inductive CertError : Type :=
| KeyTooShort (actual minimum : Z)
| HmacMismatch
| HexDecode
| IoError
| JsonError
| BadEnvelope (what : string).

#[global] Instance CertError_eq_dec : EqDecision CertError.
Proof. solve_decision. Defined.

(** ** Hexadecimal text ([hex_util.rs]) *)

Definition HEX_CHARS : list byte := as_bytes "0123456789abcdef".
Definition hex_char (n : Z) : byte := default Byte.x00 (HEX_CHARS !! Z.to_nat n).

(** The reverse table; [0xFF] marks bytes that are no digit. *)
Definition HEX_REVERSE (b : byte) : Z :=
  if byte_in b 0x30 0x39 then byte.unsigned b - 0x30
  else if byte_in b 0x61 0x66 then 10 + (byte.unsigned b - 0x61)
  else if byte_in b 0x41 0x46 then 10 + (byte.unsigned b - 0x41)
  else 0xFF.

Definition hex_encode (bytes : list byte) : string :=
  from_bytes (concat (map (fun b => [hex_char (Z.shiftr (byte.unsigned b) 4); hex_char (Z.land (byte.unsigned b) 0x0f)]) bytes)).

Fixpoint hex_decode_loop (bytes : list byte) : result (list byte) CertError :=
  match bytes with
  | b0 :: b1 :: r =>
      let hi := HEX_REVERSE b0 in
      let lo := HEX_REVERSE b1 in
      if (hi =? 0xFF) || (lo =? 0xFF) then Err HexDecode
      else try rest := hex_decode_loop r in Ok (byte.of_Z (Z.lor (Z.shiftl hi 4) lo) :: rest)
  | _ => Ok []
  end.

Definition hex_decode (hex : string) : result (list byte) CertError :=
  if negb (len (as_bytes hex) mod 2 =? 0) then Err HexDecode else hex_decode_loop (as_bytes hex).

Definition short_hex (bytes : list byte) (max_chars : Z) : string :=
  let full := hex_encode bytes in
  if len (as_bytes full) <=? max_chars then full else from_bytes (take (Z.to_nat max_chars) (as_bytes full)).

(** ** Metadata *)

Record BinaryMetadata : Type := mkMetadata {
  module_version : string;
  build_timestamp : string;
  git_commit : string;
  hmac_key_id : string;
  integrity_tag : string;
}.

Definition set_integrity_tag (tag : string) (m : BinaryMetadata) : BinaryMetadata :=
  mkMetadata (module_version m) (build_timestamp m) (git_commit m) (hmac_key_id m) tag.

Class SignCrates := {
  (** [hmac::sign] under [HMAC_SHA256] *)
  hmac_sha256 : list byte -> list byte -> list byte;
  (** [serde_json::from_slice::<BinaryMetadata>] *)
  meta_from_slice : list byte -> option BinaryMetadata;
}.

(** ** Integrity tags ([integrity.rs]) *)

Section Integrity.

Context `{SignCrates}.

Definition MIN_HMAC_KEY_BYTES : Z := 32.
Definition HMAC_SHA256_TAG_LEN : Z := 32.

Definition make_key (key : list byte) : comp (list byte) CertError :=
  if len key <? MIN_HMAC_KEY_BYTES then CErr (KeyTooShort (len key) MIN_HMAC_KEY_BYTES) else COk key.

(** [copy_from_slice] panics when the lengths differ. *)
Definition tag_array_from (s : list byte) : comp (list byte) CertError :=
  if len s =? HMAC_SHA256_TAG_LEN then COk s else CPanic.

Definition compute_hmac_sha256 (key data : list byte) : comp (list byte) CertError :=
  let? k := make_key key in
  tag_array_from (hmac_sha256 k data).

Definition compute_hmac_sha256_parts (key : list byte) (parts : list (list byte)) : comp (list byte) CertError :=
  let? k := make_key key in
  tag_array_from (hmac_sha256 k (concat parts)).

Definition verify_hmac_sha256 (key data expected : list byte) : comp unit CertError :=
  let? k := make_key key in
  if bool_decide (hmac_sha256 k data = expected) then COk tt else CErr HmacMismatch.

Definition constant_time_verify_with_len_check (computed expected : list byte) : comp unit CertError :=
  if len expected =? HMAC_SHA256_TAG_LEN then
    if bool_decide (computed = expected) then COk tt else CErr HmacMismatch
  else CErr HmacMismatch.

Definition verify_hmac_sha256_parts (key : list byte) (parts : list (list byte)) (expected : list byte)
    : comp unit CertError :=
  let? computed := compute_hmac_sha256_parts key parts in
  constant_time_verify_with_len_check computed expected.

(** The reads of a file: an empty read is its end; a file whose reads run out is at its end too. *)
Fixpoint read_loop (reads : list (option (list byte))) (fed : list byte) : comp (list byte) CertError :=
  match reads with
  | [] => COk fed
  | None :: _ => CErr IoError
  | Some [] :: _ => COk fed
  | Some buf :: r => read_loop r (fed ++ buf)
  end.

(** [None] is a file that cannot be opened. *)
Abbreviation binary_file := (option (list (option (list byte)))).

Definition hmac_file (key : list byte) (file : binary_file) : comp (list byte) CertError :=
  let? k := make_key key in
  let? reads := ok_or file IoError in
  let? fed := read_loop reads [] in
  tag_array_from (hmac_sha256 k fed).

Definition compute_binary_integrity (file : binary_file) (hmac_key : list byte) : comp (list byte) CertError :=
  hmac_file hmac_key file.

Definition verify_binary_integrity (file : binary_file) (hmac_key expected : list byte) : comp unit CertError :=
  let? computed := hmac_file hmac_key file in
  constant_time_verify_with_len_check computed expected.

End Integrity.

(** ** Canonical JSON *)

Definition FOOTER_MAGIC : list byte := as_bytes "RHSMSIGN".
Definition FOOTER_VERSION : byte := Byte.x01.
Definition TAG_LEN : Z := 32.
Definition FIXED_FOOTER_OVERHEAD : Z := len FOOTER_MAGIC + 1 + 8 + 4 + TAG_LEN.
Definition MAX_META_LEN : Z := 2 ^ 20.

Definition QUOTE : byte := Byte.x22.
Definition BACKSLASH : byte := Byte.x5c.

(** One character of [json_encode_string]. *)
Definition json_escape (c : Z) : list byte :=
  if c =? 0x22 then [BACKSLASH; QUOTE]
  else if c =? 0x5C then [BACKSLASH; BACKSLASH]
  else if c =? 0x0A then BACKSLASH :: as_bytes "n"
  else if c =? 0x0D then BACKSLASH :: as_bytes "r"
  else if c =? 0x09 then BACKSLASH :: as_bytes "t"
  else if c =? 0x08 then BACKSLASH :: as_bytes "b"
  else if c =? 0x0C then BACKSLASH :: as_bytes "f"
  else if c <? 0x20 then BACKSLASH :: as_bytes "u" ++ as_bytes (fmt_hex 4 c)
  else utf8_encode_char c.

Definition json_encode_string (out : list byte) (s : string) : list byte :=
  out ++ [QUOTE] ++ concat (map json_escape (chars s)) ++ [QUOTE].

Definition CANONICAL_KEYS : list string :=
  ["build_timestamp"; "git_commit"; "hmac_key_id"; "integrity_tag"; "module_version"].

(** The value of a key; the tag is always empty. *)
Definition canonical_value (meta : BinaryMetadata) (key : string) : option string :=
  if String.eqb key "build_timestamp" then Some (build_timestamp meta)
  else if String.eqb key "git_commit" then Some (git_commit meta)
  else if String.eqb key "hmac_key_id" then Some (hmac_key_id meta)
  else if String.eqb key "integrity_tag" then Some ""
  else if String.eqb key "module_version" then Some (module_version meta)
  else None.

Fixpoint canonical_loop (meta : BinaryMetadata) (i : nat) (ks : list string) (out : list byte) : comp (list byte) CertError :=
  match ks with
  | [] => COk out
  | key :: ks =>
      let out := if (0 <? i)%nat then out ++ as_bytes "," else out in
      let out := out ++ [QUOTE] ++ as_bytes key ++ [QUOTE] ++ as_bytes ":" in
      let? value := or_panic (canonical_value meta key) in
      canonical_loop meta (S i) ks (json_encode_string out value)
  end.

Definition canonical_meta_json (meta : BinaryMetadata) : comp (list byte) CertError :=
  let? out := canonical_loop meta 0 CANONICAL_KEYS (as_bytes "{") in
  COk (out ++ as_bytes "}").

(** ** Signing and embedding *)

Definition to_le_bytes (n : nat) (z : Z) : list byte := le_split n z.
Definition from_le_bytes (bs : list byte) : Z := le_combine bs.

Section Envelope.

Context `{SignCrates}.

(** [len as u64], [len as u32] *)
Definition original_len_bytes (binary_data : list byte) : list byte := to_le_bytes 8 (len binary_data mod 2 ^ 64).
Definition meta_len_bytes (meta_json : list byte) : list byte := to_le_bytes 4 (len meta_json mod 2 ^ 32).

Definition sign_binary (binary_data key : list byte) (version timestamp commit key_id : string)
    : comp BinaryMetadata CertError :=
  let stub := mkMetadata version timestamp commit key_id "" in
  let? meta_json := canonical_meta_json stub in
  let parts :=
    [binary_data; FOOTER_MAGIC; [FOOTER_VERSION]; original_len_bytes binary_data; meta_json; meta_len_bytes meta_json] in
  let? tag := compute_hmac_sha256_parts key parts in
  COk (set_integrity_tag (hex_encode tag) stub).

(** [std::fs::read] of the file, or its error. *)
Definition sign_binary_file (data : option (list byte)) (key : list byte) (version timestamp commit key_id : string)
    : comp BinaryMetadata CertError :=
  let? data := ok_or data IoError in
  sign_binary data key version timestamp commit key_id.

Definition nibble_from_ascii (b : byte) : option Z :=
  if byte_in b 0x30 0x39 then Some (byte.unsigned b - 0x30)
  else if byte_in b 0x61 0x66 then Some (byte.unsigned b - 0x61 + 10)
  else if byte_in b 0x41 0x46 then Some (byte.unsigned b - 0x41 + 10)
  else None.

(** The loop over the 32 bytes of the tag, on 64 characters. *)
Fixpoint decode_tag_loop (bytes : list byte) : option (list byte) :=
  match bytes with
  | b0 :: b1 :: r =>
      hi ← nibble_from_ascii b0; lo ← nibble_from_ascii b1; rest ← decode_tag_loop r;
      Some (byte.of_Z (Z.lor (Z.shiftl hi 4) lo) :: rest)
  | _ => Some []
  end.

Definition hex_decode_tag (hex : string) : comp (list byte) CertError :=
  let bytes := as_bytes hex in
  if negb (len bytes =? TAG_LEN * 2) then CErr (BadEnvelope "integrity_tag must be 32 bytes")
  else ok_or (decode_tag_loop bytes) (BadEnvelope "integrity_tag contains non-hex byte").

Definition embed_metadata (binary_data : list byte) (metadata : BinaryMetadata) : comp (list byte) CertError :=
  let? meta_json := canonical_meta_json metadata in
  let? tag := hex_decode_tag (integrity_tag metadata) in
  COk (binary_data ++ FOOTER_MAGIC ++ [FOOTER_VERSION] ++ original_len_bytes binary_data ++ meta_json
       ++ meta_len_bytes meta_json ++ tag).

Definition sign_and_embed (binary_data key : list byte) (version timestamp commit key_id : string)
    : comp (list byte) CertError :=
  let? meta := sign_binary binary_data key version timestamp commit key_id in
  embed_metadata binary_data meta.

(** ** Parsing *)

Record ParsedEnvelope : Type := mkEnvelope {
  env_original : list byte;
  env_magic : list byte;
  env_version : byte;
  env_original_len_bytes : list byte;
  env_meta_json : list byte;
  env_meta_len_bytes : list byte;
  env_tag : list byte;
  env_metadata : BinaryMetadata;
}.

(** From the end: tag, length of the metadata, metadata, length of the binary, version, magic. *)
Definition parse_envelope (signed : list byte) : comp ParsedEnvelope CertError :=
  if len signed <? FIXED_FOOTER_OVERHEAD then CErr (BadEnvelope "binary too short to contain envelope")
  else
    let tag_start := len signed - TAG_LEN in
    let? tag := or_panic (slice signed tag_start (len signed)) in
    let meta_len_off := tag_start - 4 in
    let? meta_len_bs := or_panic (slice signed meta_len_off (meta_len_off + 4)) in
    let meta_len := from_le_bytes meta_len_bs in
    if MAX_META_LEN <? meta_len then CErr (BadEnvelope "metadata length exceeds 1 MiB cap")
    else if meta_len_off <? meta_len then CErr (BadEnvelope "metadata length exceeds envelope")
    else
      let meta_json_off := meta_len_off - meta_len in
      let? meta_json := or_panic (slice signed meta_json_off meta_len_off) in
      if meta_json_off <? 8 then CErr (BadEnvelope "envelope truncated before original_len")
      else
        let orig_len_off := meta_json_off - 8 in
        let? orig_len_bytes := or_panic (slice signed orig_len_off (orig_len_off + 8)) in
        let original_len := from_le_bytes orig_len_bytes in
        if usize_max <? original_len then CErr (BadEnvelope "declared original length exceeds platform usize range")
        else if orig_len_off <? 1 then CErr (BadEnvelope "envelope truncated before version")
        else
          let version_off := orig_len_off - 1 in
          let? version := or_panic (index signed version_off) in
          if negb (bool_decide (version = FOOTER_VERSION)) then CErr (BadEnvelope "unsupported envelope version")
          else if version_off <? len FOOTER_MAGIC then CErr (BadEnvelope "envelope truncated before magic")
          else
            let magic_off := version_off - len FOOTER_MAGIC in
            let? magic := or_panic (slice signed magic_off version_off) in
            if negb (bool_decide (magic = FOOTER_MAGIC)) then CErr (BadEnvelope "footer magic bytes not found")
            else if negb (original_len =? magic_off) then
              CErr (BadEnvelope "declared original length does not match envelope offset")
            else
              let? original := or_panic (slice signed 0 magic_off) in
              let? metadata := ok_or (meta_from_slice meta_json) JsonError in
              let metadata := set_integrity_tag (hex_encode tag) metadata in
              COk (mkEnvelope original magic version orig_len_bytes meta_json meta_len_bs tag metadata).

Definition extract_metadata (signed : list byte) : comp BinaryMetadata CertError :=
  let? env := parse_envelope signed in COk (env_metadata env).

Definition extract_original_binary (signed : list byte) : comp (list byte) CertError :=
  let? env := parse_envelope signed in COk (env_original env).

(** ** Verification *)

(** The checks that both verifiers make on a parsed envelope. *)
Definition verify_envelope (env : ParsedEnvelope) (hmac_key : list byte) : comp unit CertError :=
  let? recanonical := canonical_meta_json (env_metadata env) in
  if negb (bool_decide (recanonical = env_meta_json env)) then CErr (BadEnvelope "metadata JSON is not canonical")
  else
    verify_hmac_sha256_parts hmac_key
      [env_original env; env_magic env; [env_version env]; env_original_len_bytes env; env_meta_json env;
       env_meta_len_bytes env] (env_tag env).

Definition verify_signed_binary (signed hmac_key : list byte) : comp unit CertError :=
  let? env := parse_envelope signed in verify_envelope env hmac_key.

Definition verify_and_extract (signed hmac_key : list byte) : comp BinaryMetadata CertError :=
  let? _ := verify_signed_binary signed hmac_key in extract_metadata signed.

(** *** Rollback policy *)

Definition VERSION_DOT : byte := Byte.x2e.

(** [split('.')]: at least one piece. *)
Fixpoint split_dot (s : list byte) : list (list byte) :=
  match s with
  | [] => [[]]
  | b :: r =>
      if bool_decide (b = VERSION_DOT) then [] :: split_dot r
      else match split_dot r with p :: ps => (b :: p) :: ps | [] => [[b]] end
  end.

Abbreviation SemVerTriple := (Z * Z * Z)%type.

Definition opt_component (part : option (list byte)) : option Z :=
  match part with Some m => parse_u32 m | None => Some 0 end.

Definition SemVerTriple_parse (s : string) : option SemVerTriple :=
  let bs := as_bytes s in
  if bool_decide (Byte.x2d ∈ bs) || bool_decide (Byte.x2b ∈ bs) then None
  else
    let parts := split_dot bs in
    major_str ← parts !! 0%nat;
    major ← parse_u32 major_str;
    minor ← opt_component (parts !! 1%nat);
    patch ← opt_component (parts !! 2%nat);
    match parts !! 3%nat with Some _ => None | None => Some (major, minor, patch) end.

(** The derived order: by the first component that differs. *)
Definition triple_lt (a b : SemVerTriple) : bool :=
  let '(a1, a2, a3) := a in
  let '(b1, b2, b3) := b in
  (a1 <? b1) || ((a1 =? b1) && ((a2 <? b2) || ((a2 =? b2) && (a3 <? b3)))).

Inductive RollbackPolicy : Type := AnyVersion | AtLeast (major : Z).

Definition verify_signed_binary_with_min_version (signed hmac_key : list byte) (min_version : option SemVerTriple)
    : comp unit CertError :=
  let? env := parse_envelope signed in
  let? _ := verify_envelope env hmac_key in
  match min_version with
  | None => COk tt
  | Some min_triple =>
      let? parsed := ok_or (SemVerTriple_parse (module_version (env_metadata env)))
                       (BadEnvelope "module_version major is not a non-negative integer") in
      if triple_lt parsed min_triple then CErr (BadEnvelope "module_version below min_version (rollback rejected)")
      else COk tt
  end.

Definition verify_signed_binary_with_rollback_policy (signed hmac_key : list byte) (policy : RollbackPolicy)
    : comp unit CertError :=
  let min_triple := match policy with AnyVersion => None | AtLeast major => Some (major, 0, 0) end in
  verify_signed_binary_with_min_version signed hmac_key min_triple.

Definition verify_signed_binary_with_policy (signed hmac_key : list byte) (min_version : option Z) : comp unit CertError :=
  let policy := match min_version with Some n => AtLeast n | None => AnyVersion end in
  verify_signed_binary_with_rollback_policy signed hmac_key policy.

End Envelope.

End Sign.
