(* ===== verification/CertSignProofs.v ===== *)
(** * Signed binaries: what is parsed, authenticated and accepted

    The parser inverts the layout of the envelope and never panics; the canonical JSON of
    the metadata is read back by a reader of canonical text, so the authenticated bytes
    determine binary and metadata; signing and verification, authenticity, rollback. *)

From coqutil Require Import Byte Word.LittleEndianList.
From stdpp Require Import prelude strings list.
From Stdlib Require Import ZArith Lia.
From S2P Require Import Prelude RustStd CertSign.
Import Sign.
Local Open Scope string_scope.
Local Open Scope list_scope.
Local Open Scope Z_scope.
Local Open Scope rust_scope.

(** ** Hexadecimal text *)

Lemma hex_encode_cons b bs :
  as_bytes (hex_encode (b :: bs)) =
  hex_char (Z.shiftr (byte.unsigned b) 4) :: hex_char (Z.land (byte.unsigned b) 0x0f) :: as_bytes (hex_encode bs).
Proof. unfold hex_encode. by rewrite !as_from_bytes. Qed.

Lemma hex_encode_len bs : len (as_bytes (hex_encode bs)) = 2 * len bs.
Proof.
  induction bs as [|b bs IH]; [done|]. rewrite hex_encode_cons. autorewrite with rust_len. lia.
Qed.

Lemma decode_tag_encode bs : decode_tag_loop (as_bytes (hex_encode bs)) = Some bs.
Proof.
  induction bs as [|b bs IH]; [done|]. rewrite hex_encode_cons. cbn [decode_tag_loop]. rewrite IH.
  by destruct b.
Qed.

Lemma hex_decode_tag_encode bs : len bs = 32 -> hex_decode_tag (hex_encode bs) = COk bs.
Proof.
  intros Hl. unfold hex_decode_tag. rewrite hex_encode_len, Hl. cbn. by rewrite decode_tag_encode.
Qed.

(** The two decoders of the crate agree with the encoder. *)
Lemma hex_decode_encode bs : hex_decode (hex_encode bs) = Ok bs.
Proof.
  unfold hex_decode. rewrite hex_encode_len, Z.mul_comm, Z.mod_mul by lia. cbn [Z.eqb negb].
  induction bs as [|b bs IH]; [done|]. rewrite hex_encode_cons. cbn [hex_decode_loop]. rewrite IH.
  by destruct b.
Qed.

(** ** Slices *)

Lemma slice_full {A} (l : list A) : slice l 0 (len l) = Some l.
Proof. pose proof (slice_app_mid [] l []) as H. by rewrite app_nil_r in H. Qed.

Lemma slice_adjacent {A} (l : list A) a b c s t :
  slice l a b = Some s -> slice l b c = Some t -> slice l a c = Some (s ++ t).
Proof.
  unfold slice. repeat case_if; intros; simplify_eq; bool_to_prop; try (cbn in *; bool_to_prop; lia).
  f_equal. replace (Z.to_nat (c - a)) with (Z.to_nat (b - a) + Z.to_nat (c - b))%nat by lia.
  rewrite <- take_take_drop. f_equal. rewrite drop_drop. do 2 f_equal. lia.
Qed.

Lemma slice_index {A} (l : list A) i x : index l i = Some x -> slice l i (i + 1) = Some [x].
Proof.
  unfold index. case_if; [|done]. intros Hx. bool_to_prop. pose proof (lookup_lt_Some _ _ _ Hx) as Hl.
  rewrite slice_some by (unfold len; lia). replace (Z.to_nat (i + 1 - i)) with 1%nat by lia.
  by rewrite (drop_S _ _ _ Hx).
Qed.

Lemma slice_at {A} (l p m s : list A) a b :
  l = p ++ m ++ s -> a = len p -> b = len p + len m -> slice l a b = Some m.
Proof. intros -> -> ->. apply slice_app_mid. Qed.

Lemma index_at {A} (l p s : list A) x i : l = p ++ x :: s -> i = len p -> index l i = Some x.
Proof.
  intros -> ->. unfold index. rewrite (proj2 (Z.leb_le _ _)) by apply len_nonneg.
  unfold len. rewrite Nat2Z.id. by rewrite list_lookup_middle.
Qed.

(** ** The layout *)

Definition payload_of (original meta_json : list byte) : list byte :=
  original ++ FOOTER_MAGIC ++ [FOOTER_VERSION] ++ original_len_bytes original ++ meta_json ++ meta_len_bytes meta_json.

Lemma original_len_len bs : len (original_len_bytes bs) = 8.
Proof. unfold len, original_len_bytes, to_le_bytes. by rewrite length_le_split. Qed.
Lemma meta_len_len bs : len (meta_len_bytes bs) = 4.
Proof. unfold len, meta_len_bytes, to_le_bytes. by rewrite length_le_split. Qed.

Lemma original_len_value bs : len bs < 2 ^ 64 -> from_le_bytes (original_len_bytes bs) = len bs.
Proof.
  intros. unfold from_le_bytes, original_len_bytes, to_le_bytes. rewrite le_combine_split.
  pose proof (len_nonneg bs). rewrite (Z.mod_small (len bs)) by lia. apply Z.mod_small. cbn. lia.
Qed.
Lemma meta_len_value bs : len bs < 2 ^ 32 -> from_le_bytes (meta_len_bytes bs) = len bs.
Proof.
  intros. unfold from_le_bytes, meta_len_bytes, to_le_bytes. rewrite le_combine_split.
  pose proof (len_nonneg bs). rewrite (Z.mod_small (len bs)) by lia. apply Z.mod_small. cbn. lia.
Qed.

Lemma le_bytes_value n bs z : length bs = n -> from_le_bytes bs = z -> bs = to_le_bytes n z.
Proof. intros <- <-. unfold to_le_bytes, from_le_bytes. by rewrite split_le_combine. Qed.

(** Every part of the layout is where the parser looks for it. *)
Definition footer_head (original : list byte) : list byte := original ++ FOOTER_MAGIC ++ [FOOTER_VERSION].

Lemma footer_head_len original : len (footer_head original) = len original + 9.
Proof. unfold footer_head. rewrite !len_app. change (len FOOTER_MAGIC) with 8. change (len [FOOTER_VERSION]) with 1. lia. Qed.

Lemma payload_parts original mj tag :
  payload_of original mj ++ tag = footer_head original ++ original_len_bytes original ++ mj ++ meta_len_bytes mj ++ tag.
Proof. unfold payload_of, footer_head. by rewrite <- !app_assoc. Qed.

Lemma payload_len original mj : len (payload_of original mj) = len original + len mj + 21.
Proof.
  pose proof (payload_parts original mj []) as E. rewrite !app_nil_r in E. rewrite E.
  rewrite !len_app, footer_head_len, original_len_len, meta_len_len. lia.
Qed.

Lemma or_panic_slice_at {A E} (l p m s : list A) a b :
  l = p ++ m ++ s -> a = len p -> b = len p + len m -> or_panic (E := E) (slice l a b) = COk m.
Proof. intros. by erewrite slice_at. Qed.

Ltac at_layout p m s :=
  rewrite (or_panic_slice_at _ p m s)
    by (rewrite ?app_nil_r, ?payload_parts, <- ?app_assoc, ?len_app, ?payload_len, ?footer_head_len,
          ?original_len_len, ?meta_len_len; by (done || lia));
  cbn [comp_bind].

Section Parse.

Context `{SignCrates}.

(** What a parsed envelope is: the layout of its parts. *)
Record envelope_of (signed : list byte) (env : ParsedEnvelope) : Prop := {
  eo_layout : signed = payload_of (env_original env) (env_meta_json env) ++ env_tag env;
  eo_tag : len (env_tag env) = TAG_LEN;
  eo_meta : len (env_meta_json env) <= MAX_META_LEN;
  eo_original : len (env_original env) < 2 ^ 64;
  eo_magic : env_magic env = FOOTER_MAGIC;
  eo_version : env_version env = FOOTER_VERSION;
  eo_original_len : env_original_len_bytes env = original_len_bytes (env_original env);
  eo_meta_len : env_meta_len_bytes env = meta_len_bytes (env_meta_json env);
  eo_metadata : exists m, meta_from_slice (env_meta_json env) = Some m /\
                          env_metadata env = set_integrity_tag (hex_encode (env_tag env)) m;
}.

Lemma from_le_bound bs n : len bs = n -> 0 <= from_le_bytes bs < 2 ^ (8 * n).
Proof. intros <-. unfold from_le_bytes, len. apply le_combine_bound. Qed.

Lemma or_panic_COk {A E} (o : option A) a : or_panic (E := E) o = COk a -> o = Some a.
Proof. destruct o; cbn; congruence. Qed.

Lemma parse_envelope_inv signed env : parse_envelope signed = COk env -> envelope_of signed env.
Proof.
  unfold parse_envelope. case_if; [done|].
  intros (tag & Htag%or_panic_COk & Hr)%comp_bind_COk_inv.
  apply comp_bind_COk_inv in Hr as (mlb & Hmlb%or_panic_COk & Hr). case_if; [done|]. case_if; [done|].
  apply comp_bind_COk_inv in Hr as (mj & Hmj%or_panic_COk & Hr). case_if; [done|].
  apply comp_bind_COk_inv in Hr as (olb & Holb%or_panic_COk & Hr). case_if; [done|]. case_if; [done|].
  apply comp_bind_COk_inv in Hr as (v & Hv%or_panic_COk & Hr). case_if; [done|]. case_if; [done|].
  apply comp_bind_COk_inv in Hr as (mg & Hmg%or_panic_COk & Hr). case_if; [done|]. case_if; [done|].
  apply comp_bind_COk_inv in Hr as (orig & Horig%or_panic_COk & Hr).
  apply comp_bind_COk_inv in Hr as (m & Hm%ok_or_COk & [= <-]).
  repeat match goal with E : negb (bool_decide _) = false |- _ => apply negb_false_iff, bool_decide_eq_true in E end.
  bool_to_prop. subst v mg.
  pose proof (slice_len _ _ _ _ Htag) as Lt. pose proof (slice_len _ _ _ _ Hmlb) as Lm.
  pose proof (slice_len _ _ _ _ Hmj) as Lj. pose proof (slice_len _ _ _ _ Holb) as Lo.
  pose proof (slice_len _ _ _ _ Horig) as Lorig. apply slice_index in Hv.
  assert (Emlb : mlb = meta_len_bytes mj).
  { apply le_bytes_value; [unfold len in *; lia|]. unfold MAX_META_LEN in *. pose proof (len_nonneg mj).
    rewrite Z.mod_small; lia. }
  assert (Eolb : olb = original_len_bytes orig).
  { pose proof (from_le_bound olb 8 ltac:(lia)) as B. cbn [Z.mul Pos.mul] in B.
    apply le_bytes_value; [unfold len in *; lia|]. rewrite Z.mod_small; lia. }
  assert (Hall : signed = payload_of orig mj ++ tag).
  { pose proof (slice_adjacent _ _ _ _ _ _ Horig Hmg) as S1.
    pose proof (slice_adjacent _ _ _ _ _ _ S1 Hv) as S2.
    rewrite Z.sub_add in S2. pose proof (slice_adjacent _ _ _ _ _ _ S2 Holb) as S3.
    rewrite Z.sub_add in S3. pose proof (slice_adjacent _ _ _ _ _ _ S3 Hmj) as S4.
    pose proof (slice_adjacent _ _ _ _ _ _ S4 Hmlb) as S5.
    rewrite Z.sub_add in S5. pose proof (slice_adjacent _ _ _ _ _ _ S5 Htag) as S6.
    rewrite slice_full in S6. injection S6 as ->. subst mlb olb. unfold payload_of. by rewrite <- !app_assoc. }
  split; cbn; try done; try lia; [|eauto].
  pose proof (from_le_bound olb 8 ltac:(lia)) as B. cbn [Z.mul Pos.mul] in B. lia.
Qed.

Lemma parse_envelope_layout original mj tag m :
  len original < 2 ^ 64 -> len mj <= MAX_META_LEN -> len tag = TAG_LEN -> meta_from_slice mj = Some m ->
  parse_envelope (payload_of original mj ++ tag) =
  COk (mkEnvelope original FOOTER_MAGIC FOOTER_VERSION (original_len_bytes original) mj (meta_len_bytes mj) tag
         (set_integrity_tag (hex_encode tag) m)).
Proof.
  intros Ho Hmj Ht Hm. pose proof (len_nonneg original). pose proof (len_nonneg mj).
  set (signed := payload_of original mj ++ tag).
  assert (Hlen : len signed = len original + len mj + 53)
    by (unfold signed; rewrite len_app, payload_len, Ht; unfold TAG_LEN; lia).
  unfold parse_envelope. change FIXED_FOOTER_OVERHEAD with 53. change TAG_LEN with 32 in *. change (len FOOTER_MAGIC) with 8.
  rewrite Hlen, (proj2 (Z.ltb_ge _ _)) by lia. unfold signed.
  at_layout (footer_head original ++ original_len_bytes original ++ mj ++ meta_len_bytes mj) tag (@nil byte).
  at_layout (footer_head original ++ original_len_bytes original ++ mj) (meta_len_bytes mj) tag.
  rewrite meta_len_value by (unfold MAX_META_LEN in *; lia).
  rewrite (proj2 (Z.ltb_ge MAX_META_LEN _)), (proj2 (Z.ltb_ge _ (len mj))) by lia.
  at_layout (footer_head original ++ original_len_bytes original) mj (meta_len_bytes mj ++ tag).
  rewrite (proj2 (Z.ltb_ge _ 8)) by lia.
  at_layout (footer_head original) (original_len_bytes original) (mj ++ meta_len_bytes mj ++ tag).
  rewrite original_len_value by done. unfold usize_max.
  rewrite (proj2 (Z.ltb_ge _ (len original))), (proj2 (Z.ltb_ge _ 1)) by lia.
  rewrite (index_at _ (original ++ FOOTER_MAGIC) (original_len_bytes original ++ mj ++ meta_len_bytes mj ++ tag) FOOTER_VERSION);
    [|by rewrite payload_parts; unfold footer_head; rewrite <- !app_assoc|rewrite len_app; change (len FOOTER_MAGIC) with 8; lia].
  cbn [or_panic comp_bind]. rewrite bool_decide_true by done. cbn [negb].
  rewrite (proj2 (Z.ltb_ge _ 8)) by lia.
  rewrite (or_panic_slice_at _ original FOOTER_MAGIC ([FOOTER_VERSION] ++ original_len_bytes original ++ mj ++ meta_len_bytes mj ++ tag));
    [|by rewrite payload_parts; unfold footer_head; rewrite <- !app_assoc|lia|change (len FOOTER_MAGIC) with 8; lia].
  cbn [comp_bind]. rewrite bool_decide_true by done. cbn [negb]. rewrite (proj2 (Z.eqb_eq _ _)) by lia. cbn [negb].
  rewrite (or_panic_slice_at _ [] original (drop (length original) (payload_of original mj ++ tag)));
    [|by cbn; unfold payload_of; rewrite <- !app_assoc, drop_app_length|done|rewrite len_nil; lia].
  cbn [comp_bind]. by rewrite Hm.
Qed.

(** No input makes the parser panic. *)
Lemma slice_returns {A B E} (l : list A) a b (k : list A -> comp B E) :
  0 <= a <= b -> b <= len l -> (forall s, len s = b - a -> returns (k s)) ->
  returns (comp_bind (or_panic (slice l a b)) k).
Proof.
  intros Ha Hb Hk. destruct (slice l a b) as [s|] eqn:Es; cbn.
  - apply Hk. by eapply slice_len.
  - unfold slice in Es. case_if; [done|]. exfalso. repeat rewrite andb_false_iff in *. 
    destruct E0 as [[?|?]|?]; bool_to_prop; lia.
Qed.

Lemma parse_envelope_returns signed : returns (parse_envelope signed).
Proof.
  unfold parse_envelope. change FIXED_FOOTER_OVERHEAD with 53. change TAG_LEN with 32. change (len FOOTER_MAGIC) with 8.
  case_if; [apply returns_CErr|]. bool_to_prop.
  apply slice_returns; [lia|lia|]. intros tag Ht. apply slice_returns; [lia|lia|]. intros mlb Hmlb.
  pose proof (from_le_bound mlb _ Hmlb) as B. repeat (case_if; [apply returns_CErr|]). bool_to_prop.
  apply slice_returns; [lia|lia|]. intros mj Hmj. case_if; [apply returns_CErr|]. bool_to_prop.
  apply slice_returns; [lia|lia|]. intros olb Holb. repeat (case_if; [apply returns_CErr|]). bool_to_prop.
  apply returns_bind.
  { unfold index. rewrite (proj2 (Z.leb_le _ _)) by lia.
    destruct (lookup_lt_is_Some_2 signed (Z.to_nat (len signed - 32 - 4 - from_le_bytes mlb - 8 - 1))) as [x ->];
      [unfold len in *; lia|apply returns_COk]. }
  intros v _. repeat (case_if; [apply returns_CErr|]). bool_to_prop.
  apply slice_returns; [lia|lia|]. intros mg _. repeat (case_if; [apply returns_CErr|]).
  apply slice_returns; [lia|lia|]. intros orig _. destruct (meta_from_slice mj); [apply returns_COk|apply returns_CErr].
Qed.

End Parse.

(** ** Canonical JSON *)

Definition json_text (s : string) : list byte := [QUOTE] ++ concat (map json_escape (chars s)) ++ [QUOTE].
Definition json_key (key : string) : list byte := [QUOTE] ++ as_bytes key ++ [QUOTE] ++ as_bytes ":".

(** The text that [canonical_meta_json] writes. *)
Definition canonical_text (m : BinaryMetadata) : list byte :=
  as_bytes "{" ++ json_key "build_timestamp" ++ json_text (build_timestamp m)
  ++ as_bytes "," ++ json_key "git_commit" ++ json_text (git_commit m)
  ++ as_bytes "," ++ json_key "hmac_key_id" ++ json_text (hmac_key_id m)
  ++ as_bytes "," ++ json_key "integrity_tag" ++ json_text ""
  ++ as_bytes "," ++ json_key "module_version" ++ json_text (module_version m) ++ as_bytes "}".

Lemma canonical_meta_json_text m : canonical_meta_json m = COk (canonical_text m).
Proof.
  unfold canonical_meta_json, CANONICAL_KEYS, canonical_text, json_encode_string, json_text, json_key.
  cbn [canonical_loop or_panic comp_bind canonical_value String.eqb Ascii.eqb Bool.eqb Nat.ltb Nat.leb].
  unfold json_encode_string. by rewrite <- !app_assoc.
Qed.

Definition valid_metadata (m : BinaryMetadata) : Prop :=
  Forall (fun s => utf8_valid (as_bytes s) = true) [module_version m; build_timestamp m; git_commit m; hmac_key_id m].

(** A reader of JSON strings: what follows the opening quote. *)
Definition unescape (c : byte) : option byte :=
  if bool_decide (c = QUOTE) then Some QUOTE
  else if bool_decide (c = BACKSLASH) then Some BACKSLASH
  else if bool_decide (c = Byte.x6e) then Some Byte.x0a
  else if bool_decide (c = Byte.x72) then Some Byte.x0d
  else if bool_decide (c = Byte.x74) then Some Byte.x09
  else if bool_decide (c = Byte.x62) then Some Byte.x08
  else if bool_decide (c = Byte.x66) then Some Byte.x0c
  else None.

Fixpoint read_string (bs : list byte) : option (list byte * list byte) :=
  match bs with
  | [] => None
  | b :: r =>
      if bool_decide (b = QUOTE) then Some ([], r)
      else if bool_decide (b = BACKSLASH) then
        match r with
        | [] => None
        | c :: r =>
            if bool_decide (c = Byte.x75) then
              match r with
              | h1 :: h2 :: h3 :: h4 :: r =>
                  p ← read_string r;
                  Some (byte.of_Z (hex_value (from_bytes [h1; h2; h3; h4])) :: p.1, p.2)
              | _ => None
              end
            else x ← unescape c; p ← read_string r; Some (x :: p.1, p.2)
        end
      else p ← read_string r; Some (b :: p.1, p.2)
  end.

Lemma read_string_ascii c tail : byte.unsigned c < 0x80 ->
  read_string (json_escape (byte.unsigned c) ++ tail) = p ← read_string tail; Some (c :: p.1, p.2).
Proof. intros Hc. destruct c; try reflexivity; exfalso; vm_compute in Hc; congruence. Qed.

Lemma read_string_above hd tail : Forall (fun b => 0x80 <= byte.unsigned b) hd ->
  read_string (hd ++ tail) = p ← read_string tail; Some (hd ++ p.1, p.2).
Proof.
  induction 1 as [|b hd Hb _ IH]; cbn [app]; [by destruct (read_string tail) as [[]|]|].
  cbn [read_string]. rewrite !bool_decide_false by (intros ->; vm_compute in Hb; congruence).
  rewrite IH. by destruct (read_string tail) as [[]|].
Qed.

Lemma read_string_chars bs cs tail : utf8_chars bs = Some cs ->
  read_string (concat (map json_escape cs) ++ QUOTE :: tail) = Some (bs, tail).
Proof.
  revert bs cs. apply utf8_chars_ind; [done| |].
  - intros b r cs Hb IH. cbn [map concat]. by rewrite <- app_assoc, read_string_ascii, IH.
  - intros c hd r cs Hc Hh Hf IH. cbn [map concat]. rewrite <- app_assoc.
    assert (E : json_escape c = hd).
    { unfold json_escape. repeat (rewrite (proj2 (Z.eqb_neq c _)) by lia). by rewrite (proj2 (Z.ltb_ge c _)) by lia. }
    by rewrite E, read_string_above, IH.
Qed.

(** A reader of the canonical text, which a JSON library is expected to agree with. *)
Fixpoint expect (p bs : list byte) : option (list byte) :=
  match p, bs with
  | [], _ => Some bs
  | a :: p, b :: bs => if bool_decide (a = b) then expect p bs else None
  | _, [] => None
  end.

Lemma expect_app p bs : expect p (p ++ bs) = Some bs.
Proof. induction p as [|a p IH]; cbn; [done|]. by rewrite bool_decide_true. Qed.

Definition read_field (head : string) (key : string) (bs : list byte) : option (string * list byte) :=
  r ← expect (as_bytes head ++ json_key key ++ [QUOTE]) bs;
  p ← read_string r;
  Some (from_bytes p.1, p.2).

Definition read_canonical (bs : list byte) : option BinaryMetadata :=
  ts ← read_field "{" "build_timestamp" bs;
  commit ← read_field "," "git_commit" ts.2;
  key ← read_field "," "hmac_key_id" commit.2;
  tag ← read_field "," "integrity_tag" key.2;
  version ← read_field "," "module_version" tag.2;
  rest ← expect (as_bytes "}") version.2;
  if bool_decide (rest = []) then Some (mkMetadata version.1 ts.1 commit.1 key.1 tag.1) else None.

Lemma read_field_text head key s tail : utf8_valid (as_bytes s) = true ->
  read_field head key (as_bytes head ++ json_key key ++ json_text s ++ tail) = Some (s, tail).
Proof.
  intros Hs. unfold read_field, json_text, chars. unfold utf8_valid in Hs.
  destruct (utf8_chars (as_bytes s)) as [cs|] eqn:E; [|done]. cbn [default id].
  replace (as_bytes head ++ json_key key ++ ([QUOTE] ++ concat (map json_escape cs) ++ [QUOTE]) ++ tail)
    with ((as_bytes head ++ json_key key ++ [QUOTE]) ++ concat (map json_escape cs) ++ QUOTE :: tail)
    by (by rewrite <- !app_assoc).
  rewrite expect_app. cbn [mbind option_bind]. rewrite (read_string_chars _ _ _ E). cbn [mbind option_bind fst snd]. by rewrite from_as_bytes.
Qed.

Lemma read_canonical_text m : valid_metadata m -> read_canonical (canonical_text m) = Some (set_integrity_tag "" m).
Proof.
  unfold valid_metadata. rewrite !Forall_cons. intros (Hv & Ht & Hc & Hk & _). unfold read_canonical, canonical_text.
  rewrite read_field_text by done. cbn [mbind option_bind fst snd].
  rewrite read_field_text by done. cbn [mbind option_bind fst snd].
  rewrite read_field_text by done. cbn [mbind option_bind fst snd].
  rewrite read_field_text by done. cbn [mbind option_bind fst snd].
  by rewrite read_field_text by done.
Qed.

Lemma canonical_text_inj m m' : valid_metadata m -> valid_metadata m' -> canonical_text m = canonical_text m' ->
  set_integrity_tag "" m = set_integrity_tag "" m'.
Proof.
  intros Hm Hm' E. apply (f_equal read_canonical) in E. rewrite !read_canonical_text in E by done. congruence.
Qed.

(** ** What is authenticated determines binary and metadata *)

Lemma app_inj_len {A} (a b c d : list A) : len b = len d -> a ++ b = c ++ d -> a = c /\ b = d.
Proof.
  intros Hl E. apply app_inj_2; [|done]. apply (f_equal length) in E. rewrite !length_app in E. unfold len in Hl. lia.
Qed.

Lemma payload_unambiguous o o' j j' :
  len o < 2 ^ 64 -> len o' < 2 ^ 64 -> len j < 2 ^ 32 -> len j' < 2 ^ 32 ->
  payload_of o j = payload_of o' j' -> o = o' /\ j = j'.
Proof.
  intros Ho Ho' Hj Hj' E. unfold payload_of in E. rewrite !app_assoc in E.
  apply app_inj_len in E as [E Em]; [|by rewrite !meta_len_len].
  apply (f_equal from_le_bytes) in Em. rewrite !meta_len_value in Em by done.
  apply app_inj_len in E as [E ->]; [|done].
  apply app_inj_len in E as [E Eo]; [|by rewrite !original_len_len].
  rewrite <- !app_assoc in E. by apply app_inj_len in E as [-> _].
Qed.

(** ** Signing and verification *)

(** HMAC-SHA256 has 32 bytes; the JSON reader reads canonical text, and what it returns are
    Rust strings. *)
Class SignLaws `{SignCrates} : Prop := {
  hmac_length : forall k d, len (hmac_sha256 k d) = 32;
  meta_reads_canonical : forall m, valid_metadata m -> meta_from_slice (canonical_text m) = Some (set_integrity_tag "" m);
  meta_valid : forall bs m, meta_from_slice bs = Some m -> valid_metadata m;
}.

Section Signing.

Context `{SignCrates}.

Lemma hmac_parts_COk key parts tag : compute_hmac_sha256_parts key parts = COk tag ->
  32 <= len key /\ tag = hmac_sha256 key (concat parts).
Proof.
  unfold compute_hmac_sha256_parts, make_key, MIN_HMAC_KEY_BYTES, tag_array_from. case_if; [done|]. bool_to_prop.
  cbn [comp_bind]. case_if; [|done]. intros [= <-]. done.
Qed.

Lemma verify_parts_COk key parts expected : verify_hmac_sha256_parts key parts expected = COk tt ->
  32 <= len key /\ expected = hmac_sha256 key (concat parts).
Proof.
  intros (tag & [Hk ->]%hmac_parts_COk & Hv)%comp_bind_COk_inv. split; [done|].
  unfold constant_time_verify_with_len_check in Hv. case_if; [|done]. case_if; [|done].
  by apply bool_decide_eq_true in E0.
Qed.

Lemma payload_concat o j :
  concat [o; FOOTER_MAGIC; [FOOTER_VERSION]; original_len_bytes o; j; meta_len_bytes j] = payload_of o j.
Proof. unfold payload_of. cbn [concat]. by rewrite !app_nil_r. Qed.

(** An accepted envelope: canonical metadata and the right tag. *)
Lemma verify_envelope_COk signed env key : envelope_of signed env -> verify_envelope env key = COk tt ->
  32 <= len key /\ env_meta_json env = canonical_text (env_metadata env) /\
  env_tag env = hmac_sha256 key (payload_of (env_original env) (env_meta_json env)).
Proof.
  intros [_ _ _ _ Hm Hv Ho Hl _]. unfold verify_envelope. rewrite canonical_meta_json_text. cbn [comp_bind].
  case_if; [done|]. apply negb_false_iff, bool_decide_eq_true in E. rewrite Hm, Hv, Ho, Hl, <- E.
  intros [Hk Ht]%verify_parts_COk. by rewrite payload_concat in Ht.
Qed.

Lemma verify_signed_inv signed key : verify_signed_binary signed key = COk tt ->
  exists env, parse_envelope signed = COk env /\ verify_envelope env key = COk tt.
Proof. intros (env & ? & ?)%comp_bind_COk_inv. eauto. Qed.

(** C13: only authentic binaries are accepted. A signed binary that is accepted under a key
    consists of a binary, the canonical footer of its metadata and the HMAC of all of that
    under the key, which has at least 32 bytes; extraction returns this binary and these
    metadata, and no other binary or metadata have the authenticated bytes. *)
Theorem verified_binary_authentic `{!SignLaws} signed key :
  verify_signed_binary signed key = COk tt ->
  exists original m, let bytes := payload_of original (canonical_text m) in
    32 <= len key /\ signed = bytes ++ hmac_sha256 key bytes /\
    extract_original_binary signed = COk original /\ verify_and_extract signed key = COk m /\
    integrity_tag m = hex_encode (hmac_sha256 key bytes) /\
    forall original' m', len original' < 2 ^ 64 -> len (canonical_text m') < 2 ^ 32 -> valid_metadata m' ->
      payload_of original' (canonical_text m') = bytes -> original' = original /\ set_integrity_tag (integrity_tag m) m' = m.
Proof.
  intros Hv. pose proof (verify_signed_inv _ _ Hv) as (env & Hp & He). pose proof (parse_envelope_inv _ _ Hp) as Henv.
  pose proof (verify_envelope_COk _ _ _ Henv He) as (Hk & Hj & Ht). destruct Henv as [Hl Htag Hmax Ho _ _ _ _ (m & Hm & Em)].
  exists (env_original env), (env_metadata env). cbn zeta. rewrite <- Hj, <- Ht.
  split_and!; [done|done| | | |intros o' m' Ho' Hm' Hval E; split].
  - unfold extract_original_binary. by rewrite Hp.
  - unfold verify_and_extract. rewrite Hv. cbn [comp_bind]. unfold extract_metadata. by rewrite Hp.
  - by rewrite Em.
  - apply payload_unambiguous in E as [-> _]; unfold MAX_META_LEN in *; try done; lia.
  - apply payload_unambiguous in E as [_ E]; unfold MAX_META_LEN in *; try done; try lia. rewrite Hj in E.
    assert (Hvm : valid_metadata (env_metadata env)) by (rewrite Em; apply (meta_valid _ _ Hm)).
    apply canonical_text_inj in E; [|done..]. rewrite Em in E |- *. clear -E.
    unfold set_integrity_tag in *. cbn in *. congruence.
Qed.

(** The bytes that signing produces, whatever the size of the metadata. *)
Lemma sign_and_embed_bytes `{!SignLaws} binary key version timestamp commit key_id :
  let bytes := payload_of binary (canonical_text (mkMetadata version timestamp commit key_id "")) in
  32 <= len key ->
  sign_and_embed binary key version timestamp commit key_id = COk (bytes ++ hmac_sha256 key bytes).
Proof.
  intros bytes Hk. set (tag := hmac_sha256 key bytes). assert (Htag : len tag = 32) by apply hmac_length.
  unfold sign_and_embed, sign_binary. rewrite canonical_meta_json_text. cbn [comp_bind].
  unfold compute_hmac_sha256_parts, make_key, MIN_HMAC_KEY_BYTES.
  rewrite (proj2 (Z.ltb_ge _ _)) by lia. cbn [comp_bind]. rewrite payload_concat. unfold tag_array_from. fold bytes tag.
  rewrite Htag. cbn [HMAC_SHA256_TAG_LEN Z.eqb Pos.eqb comp_bind]. unfold embed_metadata.
  rewrite canonical_meta_json_text. cbn [comp_bind]. cbn [integrity_tag set_integrity_tag].
  rewrite hex_decode_tag_encode by done. cbn [comp_bind]. subst bytes. unfold payload_of. by rewrite <- !app_assoc.
Qed.

(** C19: what is signed is accepted. With a key of at least 32 bytes and metadata within the
    limit of 1 MiB, signing and embedding succeeds for every binary, verification returns
    the metadata with the tag, and extraction the binary. *)
Theorem signed_binary_verifies `{!SignLaws} binary key version timestamp commit key_id :
  let stub := mkMetadata version timestamp commit key_id "" in
  valid_metadata stub -> 32 <= len key -> len binary < 2 ^ 64 -> len (canonical_text stub) <= MAX_META_LEN ->
  exists signed tag, sign_and_embed binary key version timestamp commit key_id = COk signed /\
    verify_and_extract signed key = COk (set_integrity_tag (hex_encode tag) stub) /\
    extract_original_binary signed = COk binary.
Proof.
  intros stub Hval Hk Hb Hj. set (bytes := payload_of binary (canonical_text stub)). set (tag := hmac_sha256 key bytes).
  assert (Htag : len tag = 32) by apply hmac_length.
  assert (Hc : forall parts, concat parts = bytes -> compute_hmac_sha256_parts key parts = COk tag).
  { intros parts E. unfold compute_hmac_sha256_parts, make_key, MIN_HMAC_KEY_BYTES.
    rewrite (proj2 (Z.ltb_ge _ _)) by lia. cbn [comp_bind]. rewrite E. unfold tag_array_from. fold tag. by rewrite Htag. }
  pose proof (parse_envelope_layout binary (canonical_text stub) tag (set_integrity_tag "" stub) Hb Hj Htag
                (meta_reads_canonical stub Hval)) as Hparse.
  exists (bytes ++ tag), tag. split; [by apply sign_and_embed_bytes|split].
  - unfold verify_and_extract, verify_signed_binary. fold bytes in Hparse. rewrite Hparse. cbn [comp_bind].
    unfold verify_envelope. cbn [env_metadata env_meta_json env_original env_magic env_version env_original_len_bytes env_meta_len_bytes env_tag].
    rewrite canonical_meta_json_text. cbn [comp_bind]. rewrite bool_decide_true by done. cbn [negb].
    unfold verify_hmac_sha256_parts. rewrite Hc by apply payload_concat. cbn [comp_bind].
    unfold constant_time_verify_with_len_check, HMAC_SHA256_TAG_LEN. rewrite Htag, bool_decide_true by done. cbn [comp_bind Z.eqb Pos.eqb].
    unfold extract_metadata. by rewrite Hparse.
  - unfold extract_original_binary. fold bytes in Hparse. by rewrite Hparse.
Qed.

(** No bytes and no key make verification panic. *)
Lemma verify_signed_returns `{!SignLaws} signed key : returns (verify_signed_binary signed key).
Proof.
  apply returns_bind; [apply parse_envelope_returns|]. intros env _. unfold verify_envelope.
  rewrite canonical_meta_json_text. cbn [comp_bind]. case_if; [apply returns_CErr|].
  unfold verify_hmac_sha256_parts, compute_hmac_sha256_parts, make_key, tag_array_from, constant_time_verify_with_len_check.
  case_if; [apply returns_CErr|]. cbn [comp_bind]. rewrite hmac_length. cbn [HMAC_SHA256_TAG_LEN Z.eqb Pos.eqb comp_bind].
  repeat case_if; auto using returns_COk, returns_CErr.
Qed.

(** ** Rollback *)

Lemma u32_digits_nonneg acc s z : 0 <= acc -> u32_digits acc s = Some z -> 0 <= z.
Proof.
  revert acc. induction s as [|b s IH]; intros acc Ha; cbn; [by intros [= <-]|]. case_if; [|done]. cbn zeta.
  case_if; [|done]. apply IH. unfold byte_in in *. bool_to_prop. lia.
Qed.

Lemma parse_u32_nonneg s z : parse_u32 s = Some z -> 0 <= z.
Proof.
  destruct s as [|b s]; cbn [parse_u32]; [done|]. repeat case_if; try done; by apply u32_digits_nonneg.
Qed.

Lemma triple_components s v : SemVerTriple_parse s = Some v -> 0 <= v.1.2 /\ 0 <= v.2.
Proof.
  unfold SemVerTriple_parse. case_if; [done|]. intros H1.
  apply bind_Some in H1 as (mj & _ & H1). apply bind_Some in H1 as (major & _ & H1).
  apply bind_Some in H1 as (minor & Hmi & H1). apply bind_Some in H1 as (patch & Hpa & H1). case_match; [done|].
  injection H1 as <-. cbn.
  assert (Hc : forall o z, opt_component o = Some z -> 0 <= z).
  { intros [x|] z; cbn; [apply parse_u32_nonneg|by intros [= <-]]. }
  split; [eapply Hc, Hmi|eapply Hc, Hpa].
Qed.

(** No rollback. Under a minimum major version a signed binary is accepted exactly if it
    is authentic and its authenticated version is numeric with at least this major version;
    without a minimum exactly if it is authentic. *)
Theorem rollback_enforced signed key n :
  (verify_signed_binary_with_rollback_policy signed key (AtLeast n) = COk tt <->
   exists m v, verify_and_extract signed key = COk m /\ SemVerTriple_parse (module_version m) = Some v /\ n <= v.1.1) /\
  verify_signed_binary_with_rollback_policy signed key AnyVersion = verify_signed_binary signed key.
Proof.
  unfold verify_signed_binary_with_rollback_policy, verify_signed_binary_with_min_version, verify_and_extract,
    verify_signed_binary, extract_metadata.
  destruct (parse_envelope signed) as [env|e| |] eqn:Ep; cbn [comp_bind]; [|naive_solver..].
  destruct (verify_envelope env key) as [[]|e| |] eqn:Ev; cbn [comp_bind]; [|naive_solver..]. split; [|done].
  split.
  - intros (v & Hv%ok_or_COk & Hr)%comp_bind_COk_inv. exists (env_metadata env), v. split_and!; [done|done|].
    destruct (triple_lt v (n, 0, 0)) eqn:E; [done|]. destruct v as [[a b] c]. unfold triple_lt in E.
    apply orb_false_iff in E as [E _]. bool_to_prop. done.
  - intros (m & v & [= <-] & Hv & Hn). rewrite Hv. cbn [ok_or comp_bind].
    pose proof (triple_components _ _ Hv) as [H1 H2]. destruct v as [[a b] c]. cbn in *.
    rewrite (proj2 (Z.ltb_ge a n)), (proj2 (Z.ltb_ge b 0)), (proj2 (Z.ltb_ge c 0)) by done. cbn.
    by rewrite !andb_false_r.
Qed.

(** Signing has no limit on the metadata, the parser has: with more than 1 MiB of it, below
    4 GiB, a binary is signed without error and never parsed. *)
Theorem oversized_metadata_unreadable `{!SignLaws} binary key version timestamp commit key_id :
  let stub := mkMetadata version timestamp commit key_id "" in
  32 <= len key -> MAX_META_LEN < len (canonical_text stub) < 2 ^ 32 ->
  exists signed, sign_and_embed binary key version timestamp commit key_id = COk signed /\
    parse_envelope signed = CErr (BadEnvelope "metadata length exceeds 1 MiB cap").
Proof.
  intros stub Hk Hj. set (bytes := payload_of binary (canonical_text stub)). set (tag := hmac_sha256 key bytes).
  assert (Htag : len tag = 32) by apply hmac_length. exists (bytes ++ tag). split; [by apply sign_and_embed_bytes|].
  assert (Hlen : len (bytes ++ tag) = len binary + len (canonical_text stub) + 53)
    by (unfold bytes; rewrite len_app, payload_len, Htag; lia).
  pose proof (len_nonneg binary). unfold MAX_META_LEN in *. unfold bytes in *. clearbody tag.
  set (j := canonical_text stub) in *. clearbody j. clear bytes stub.
  unfold parse_envelope. change FIXED_FOOTER_OVERHEAD with 53. change TAG_LEN with 32.
  rewrite Hlen, (proj2 (Z.ltb_ge _ _)) by lia.
  at_layout (footer_head binary ++ original_len_bytes binary ++ j ++ meta_len_bytes j) tag (@nil byte).
  at_layout (footer_head binary ++ original_len_bytes binary ++ j) (meta_len_bytes j) tag.
  rewrite meta_len_value by lia. by rewrite (proj2 (Z.ltb_lt MAX_META_LEN _)) by (unfold MAX_META_LEN; lia).
Qed.

End Signing.

(** ** A concrete run *)

Definition utf8_metadata (m : BinaryMetadata) : bool :=
  forallb (fun s => utf8_valid (as_bytes s)) [module_version m; build_timestamp m; git_commit m; hmac_key_id m].

#[local] Instance demo_sign : SignCrates := {|
  hmac_sha256 k d := take 32 (rev d ++ k ++ replicate 32 Byte.x00);
  meta_from_slice bs := m ← read_canonical bs; if utf8_metadata m then Some m else None;
|}.

#[local] Instance demo_sign_laws : SignLaws.
Proof.
  split.
  - intros k d. unfold len, hmac_sha256, demo_sign. rewrite length_take, !length_app, length_replicate. lia.
  - intros m Hm. unfold meta_from_slice, demo_sign. rewrite read_canonical_text by done. cbn [mbind option_bind].
    enough (E : utf8_metadata (set_integrity_tag "" m) = true) by by rewrite E.
    apply forallb_forall. intros s Hs. unfold valid_metadata in Hm. rewrite Forall_forall in Hm. apply Hm.
    by apply list_elem_of_In.
  - intros bs m. unfold meta_from_slice, demo_sign. intros (m' & Hr & Hm)%bind_Some. case_if; [|done]. injection Hm as <-.
    apply Forall_forall. intros s Hs. unfold utf8_metadata in E. rewrite forallb_forall in E. apply E. by apply list_elem_of_In.
Qed.

Definition demo_key : list byte := replicate 32 Byte.x2a.
Definition demo_signed : list byte :=
  match sign_and_embed (as_bytes "ELF") demo_key "2.1.0" "2026-01-01" "abc" "k1" with COk s => s | _ => [] end.

(** The accepted versions, and a release candidate that a policy refuses. *)
Example rollback_examples :
  verify_signed_binary_with_rollback_policy demo_signed demo_key (AtLeast 2) = COk tt /\
  verify_signed_binary_with_rollback_policy demo_signed demo_key (AtLeast 3)
    = CErr (BadEnvelope "module_version below min_version (rollback rejected)") /\
  SemVerTriple_parse "1.2.3-rc1" = None /\ SemVerTriple_parse "2" = Some (2, 0, 0).
Proof. split_and!; vm_compute; reflexivity. Qed.

Lemma verified_binary_authentic_witness :
  exists original m, extract_original_binary demo_signed = COk original /\ verify_and_extract demo_signed demo_key = COk m /\
    demo_signed = payload_of original (canonical_text m) ++ hmac_sha256 demo_key (payload_of original (canonical_text m)).
Proof.
  destruct (verified_binary_authentic demo_signed demo_key) as (o & m & _ & Hs & Ho & Hm & _); [vm_compute; reflexivity|].
  exists o, m. split; [exact Ho|]. split; [exact Hm|exact Hs].
Defined.

Lemma signed_binary_verifies_witness :
  exists signed tag, sign_and_embed (as_bytes "ELF") demo_key "2.1.0" "2026-01-01" "abc" "k1" = COk signed /\
    verify_and_extract signed demo_key = COk (mkMetadata "2.1.0" "2026-01-01" "abc" "k1" (hex_encode tag)) /\
    extract_original_binary signed = COk (as_bytes "ELF").
Proof.
  apply (signed_binary_verifies (as_bytes "ELF") demo_key "2.1.0" "2026-01-01" "abc" "k1").
  - repeat constructor; vm_compute; reflexivity.
  - vm_compute; congruence.
  - vm_compute; reflexivity.
  - vm_compute; congruence.
Defined.
