(* ===== verification/CertMode.v ===== *)
(** * Approved mode and self tests ([craton-hsm-certified/src/approved_mode.rs],
      [approved_mode_wrapper.rs], [test_harness.rs], [power_on_self_test.rs])

    The policy for algorithms and its validation, the classification of mechanism names, the
    wrapper that asks the policy before every call of a cryptographic backend, the known-answer
    tests and the latch that keeps their verdict.

    Mechanism names are the code points of their strings; upper-casing beyond ASCII is the
    table [unicode_upper].  The trait [CryptoBackend] of the parent crate is the type
    [CryptoCall] of its calls, indexed by the type of their results, and a backend is a
    function that answers calls and changes its state.  The texts of violations and test
    results are left out. *)

From coqutil Require Import Byte.
From stdpp Require Import prelude strings list pretty.
From Stdlib Require Import ZArith Lia.
From S2P Require Import Prelude RustStd CertSign.
Import Sign.
Local Open Scope string_scope.
Local Open Scope list_scope.
Local Open Scope Z_scope.
Local Open Scope rust_scope.

Module Mode.

(** ** Policy *)

Record ApprovedModeConfig : Type := mkMode {
  min_rsa_key_bits : Z;
  allowed_hash_algorithms : list string;
  allowed_symmetric_key_sizes : list Z;
  allow_sha1 : bool;
  allow_ed25519 : bool;
  allow_prehashed_signing : bool;
  allow_ecdsa_p256 : bool;
  allow_ecdsa_p384 : bool;
}.

Definition default_true : bool := true.

Definition default_fips_config : ApprovedModeConfig :=
  mkMode 2048 ["SHA-256"; "SHA-384"; "SHA-512"] [24; 32] false false false true true.

Definition APPROVED_HASH_NAMES : list string := ["SHA-256"; "SHA-384"; "SHA-512"; "SHA2-256"; "SHA2-384"; "SHA2-512"].
Definition MAX_REASONABLE_RSA_BITS : Z := 16384.

(** [str::to_uppercase], character by character. *)
Class UnicodeTables := { unicode_upper : Z -> list Z }.

Definition upper_char `{UnicodeTables} (c : Z) : list Z :=
  if c <? 0x80 then [if (0x61 <=? c) && (c <=? 0x7A) then c - 32 else c] else unicode_upper c.

Definition to_uppercase `{UnicodeTables} (s : list Z) : list Z := concat (map upper_char s).

Inductive ConfigViolation : Type :=
| RsaBelowMinimum (bits : Z)
| RsaAboveBound (bits : Z)
| Sha1Allowed
| Ed25519Allowed
| NoHashAlgorithm
| HashNotApproved (name : string)
| NoSymmetricKeySize
| Aes128Allowed
| PrehashedAllowed.

Section Policy.

Context `{UnicodeTables}.

Definition approved_hash (name : string) : bool :=
  existsb (fun a => bool_decide (chars a = to_uppercase (chars name))) APPROVED_HASH_NAMES.

Definition violations_of (config : ApprovedModeConfig) : list ConfigViolation :=
  (if min_rsa_key_bits config <? 2048 then [RsaBelowMinimum (min_rsa_key_bits config)] else [])
  ++ (if MAX_REASONABLE_RSA_BITS <? min_rsa_key_bits config then [RsaAboveBound (min_rsa_key_bits config)] else [])
  ++ (if allow_sha1 config then [Sha1Allowed] else [])
  ++ (if allow_ed25519 config then [Ed25519Allowed] else [])
  ++ (if bool_decide (allowed_hash_algorithms config = []) then [NoHashAlgorithm] else [])
  ++ map HashNotApproved (filter (fun name => approved_hash name = false) (allowed_hash_algorithms config))
  ++ (if bool_decide (allowed_symmetric_key_sizes config = []) then [NoSymmetricKeySize] else [])
  ++ (if bool_decide (16 ∈ allowed_symmetric_key_sizes config) then [Aes128Allowed] else [])
  ++ (if allow_prehashed_signing config then [PrehashedAllowed] else []).

Definition validate_config (config : ApprovedModeConfig) : result unit (list ConfigViolation) :=
  match violations_of config with [] => Ok tt | vs => Err vs end.

(** ** Mechanisms *)

Inductive Mechanism : Type :=
| Sha1 | HashApproved | Aes (bytes : Z) | Rsa (bits : Z) | EcdsaP256 | EcdsaP384 | Ed25519 | Prehashed | Unknown.

Fixpoint strip_chars (p s : list Z) : option (list Z) :=
  match p, s with
  | [], _ => Some s
  | a :: p, b :: s => if a =? b then strip_chars p s else None
  | _, [] => None
  end.

(** [strip_suffix] *)
Definition strip_suffix (p s : list Z) : option (list Z) := rev (A := Z) <$> strip_chars (rev p) (rev s).

Definition starts_with_chars (p s : list Z) : bool := bool_decide (is_Some (strip_chars p s)).

(** [contains] *)
Fixpoint contains_chars (p s : list Z) : bool :=
  starts_with_chars p s || match s with [] => false | _ :: s => contains_chars p s end.

(** The branches after the suffix. *)
Definition classify_plain (m : list Z) (config : ApprovedModeConfig) : Mechanism :=
  if bool_decide (m = chars "SHA-1") || bool_decide (m = chars "SHA1") then Sha1
  else if (starts_with_chars (chars "SHA-") m || starts_with_chars (chars "SHA2-") m) && negb (contains_chars (chars "WITH") m)
          && existsb (fun a => bool_decide (to_uppercase (chars a) = m)) (allowed_hash_algorithms config)
  then HashApproved
  else if bool_decide (m = chars "ED25519") then Ed25519
  else
    match (rest ← strip_chars (chars "RSA-") m; parse_u32 (utf8_encode rest)) with
    | Some bits => Rsa bits
    | None =>
        match strip_chars (chars "AES-") m with
        | Some rest =>
            if bool_decide (rest = chars "128") then Aes 16
            else if bool_decide (rest = chars "192") then Aes 24
            else if bool_decide (rest = chars "256") then Aes 32
            else Unknown
        | None =>
            if bool_decide (m = chars "ECDSA-P256") then EcdsaP256
            else if bool_decide (m = chars "ECDSA-P384") then EcdsaP384
            else Unknown
        end
    end.

(** The recursion of [classify_mechanism]; every call strips a suffix of ten characters. *)
Fixpoint classify_fuel (fuel : nat) (mechanism : list Z) (config : ApprovedModeConfig) : comp Mechanism Empty_set :=
  match fuel with
  | O => CDiverge
  | S fuel =>
      let m := to_uppercase mechanism in
      match strip_suffix (chars "-PREHASHED") m with
      | Some stripped =>
          let? inner := classify_fuel fuel stripped config in
          COk (match inner with Unknown => Unknown | _ => Prehashed end)
      | None => COk (classify_plain m config)
      end
  end.

Definition classify_mechanism (mechanism : string) (config : ApprovedModeConfig) : comp Mechanism Empty_set :=
  classify_fuel (S (length (to_uppercase (chars mechanism)))) (chars mechanism) config.

Definition mechanism_approved (m : Mechanism) (config : ApprovedModeConfig) : bool :=
  match m with
  | Sha1 => allow_sha1 config
  | HashApproved => true
  | Aes bytes => bool_decide (bytes ∈ allowed_symmetric_key_sizes config)
  | Rsa bits => min_rsa_key_bits config <=? bits
  | EcdsaP256 => allow_ecdsa_p256 config
  | EcdsaP384 => allow_ecdsa_p384 config
  | Ed25519 => allow_ed25519 config
  | Prehashed => allow_prehashed_signing config
  | Unknown => false
  end.

Definition is_algorithm_approved (mechanism : string) (config : ApprovedModeConfig) : comp bool Empty_set :=
  let? m := classify_mechanism mechanism config in COk (mechanism_approved m config).

Inductive ApprovedModeRejection : Type := NotApproved (mechanism : string) | UnknownAlgorithm (mechanism : string).

Definition check_mechanism_approved (mechanism : string) (config : ApprovedModeConfig)
    : comp (result unit ApprovedModeRejection) Empty_set :=
  let? m := classify_mechanism mechanism config in
  match m with
  | Unknown => COk (Err (UnknownAlgorithm mechanism))
  | _ =>
      let? approved := is_algorithm_approved mechanism config in
      COk (if approved : bool then Ok tt else Err (NotApproved mechanism))
  end.

End Policy.

(** ** Backends *)

(** Types and constants of the parent crate. *)
Class HsmTypes := {
  HsmError : Type;
  MechanismInvalid : HsmError;
  HashAlg : Type;
  HashAlg_Sha256 : HashAlg;
  OaepHash : Type;
  RawKeyMaterial : Type;
  key_bytes : RawKeyMaterial -> list byte;
  DigestAccumulator : Type;
  CKM_SHA256 : Z;
  CKM_SHA384 : Z;
  CKM_SHA512 : Z;
}.

Section Backend.

Context `{HsmTypes}.

(** The calls of [CryptoBackend] that the wrapper overrides, by their result. *)
Inductive CryptoCall : Type -> Type :=
| RsaPkcs1v15Sign (private_key_der data : list byte) (hash_alg : option HashAlg) : CryptoCall (list byte)
| RsaPkcs1v15Verify (modulus public_exponent data signature : list byte) (hash_alg : option HashAlg) : CryptoCall bool
| RsaPssSign (private_key_der data : list byte) (hash_alg : HashAlg) : CryptoCall (list byte)
| RsaPssVerify (modulus public_exponent data signature : list byte) (hash_alg : HashAlg) : CryptoCall bool
| EcdsaP256Sign (private_key data : list byte) : CryptoCall (list byte)
| EcdsaP256Verify (public_key data signature : list byte) : CryptoCall bool
| EcdsaP384Sign (private_key data : list byte) : CryptoCall (list byte)
| EcdsaP384Verify (public_key data signature : list byte) : CryptoCall bool
| Ed25519Sign (private_key data : list byte) : CryptoCall (list byte)
| Ed25519Verify (public_key data signature : list byte) : CryptoCall bool
| RsaPkcs1v15SignPrehashed (private_key_der digest : list byte) (hash_alg : HashAlg) : CryptoCall (list byte)
| RsaPkcs1v15VerifyPrehashed (modulus public_exponent digest signature : list byte) (hash_alg : HashAlg) : CryptoCall bool
| RsaPssSignPrehashed (private_key_der digest : list byte) (hash_alg : HashAlg) : CryptoCall (list byte)
| RsaPssVerifyPrehashed (modulus public_exponent digest signature : list byte) (hash_alg : HashAlg) : CryptoCall bool
| EcdsaP256SignPrehashed (private_key digest : list byte) : CryptoCall (list byte)
| EcdsaP256VerifyPrehashed (public_key digest signature : list byte) : CryptoCall bool
| EcdsaP384SignPrehashed (private_key digest : list byte) : CryptoCall (list byte)
| EcdsaP384VerifyPrehashed (public_key digest signature : list byte) : CryptoCall bool
| Aes256GcmEncrypt (key plaintext : list byte) : CryptoCall (list byte)
| Aes256GcmDecrypt (key data : list byte) : CryptoCall (list byte)
| AesCbcEncrypt (key iv plaintext : list byte) : CryptoCall (list byte)
| AesCbcDecrypt (key iv ciphertext : list byte) : CryptoCall (list byte)
| AesCtrEncrypt (key iv plaintext : list byte) : CryptoCall (list byte)
| AesCtrDecrypt (key iv ciphertext : list byte) : CryptoCall (list byte)
| RsaOaepEncrypt (modulus public_exponent plaintext : list byte) (hash_alg : OaepHash) : CryptoCall (list byte)
| RsaOaepDecrypt (private_key_der ciphertext : list byte) (hash_alg : OaepHash) : CryptoCall (list byte)
| GenerateAesKey (key_len_bytes : Z) (fips_mode : bool) : CryptoCall RawKeyMaterial
| GenerateRsaKeyPair (modulus_bits : Z) (fips_mode : bool) : CryptoCall (RawKeyMaterial * list byte * list byte)
| GenerateEcP256KeyPair : CryptoCall (RawKeyMaterial * list byte)
| GenerateEcP384KeyPair : CryptoCall (RawKeyMaterial * list byte)
| GenerateEd25519KeyPair : CryptoCall (RawKeyMaterial * list byte)
| ComputeDigest (mechanism : Z) (data : list byte) : CryptoCall (list byte)
| DigestOutputLen (mechanism : Z) : CryptoCall Z
| CreateHasher (mechanism : Z) : CryptoCall DigestAccumulator
| AesKeyWrap (wrapping_key key_to_wrap : list byte) (fips_mode : bool) : CryptoCall (list byte)
| AesKeyUnwrap (wrapping_key wrapped_key : list byte) (fips_mode : bool) : CryptoCall (list byte)
| EcdhP256 (private_key peer_public_key : list byte) (okm_len : option Z) : CryptoCall RawKeyMaterial
| EcdhP384 (private_key peer_public_key : list byte) (okm_len : option Z) : CryptoCall RawKeyMaterial.

(** A backend with state [B]; a call may panic. *)
Definition CryptoBackend (B : Type) : Type :=
  forall R, CryptoCall R -> B -> comp (result R HsmError * B) Empty_set.

(** ** The wrapper *)

(** What is checked before a call: nothing, a mechanism, or nothing passes. *)
Inductive Gate : Type := NoGate | GateOn (mechanism : string) | GateRefuse.

(** The mechanism of an AES key by its length. *)
Definition aes_gate (key_len : Z) : Gate :=
  if key_len =? 16 then GateOn "AES-128"
  else if key_len =? 24 then GateOn "AES-192"
  else if key_len =? 32 then GateOn "AES-256"
  else GateRefuse.

Definition digest_mech_name (mech : Z) : option string :=
  if mech =? CKM_SHA256 then Some "SHA-256"
  else if mech =? CKM_SHA384 then Some "SHA-384"
  else if mech =? CKM_SHA512 then Some "SHA-512"
  else None.

Definition digest_gate (mech : Z) : Gate := match digest_mech_name mech with Some name => GateOn name | None => NoGate end.

Definition gate_of {R} (c : CryptoCall R) : Gate :=
  match c with
  | RsaPkcs1v15Sign _ _ _ | RsaPkcs1v15Verify _ _ _ _ _ | RsaPssSign _ _ _ | RsaPssVerify _ _ _ _ _ => GateOn "RSA-2048"
  | EcdsaP256Sign _ _ | EcdsaP256Verify _ _ _ => GateOn "ECDSA-P256"
  | EcdsaP384Sign _ _ | EcdsaP384Verify _ _ _ => GateOn "ECDSA-P384"
  | Ed25519Sign _ _ | Ed25519Verify _ _ _ => GateOn "Ed25519"
  | RsaPkcs1v15SignPrehashed _ _ _ | RsaPkcs1v15VerifyPrehashed _ _ _ _ _
  | RsaPssSignPrehashed _ _ _ | RsaPssVerifyPrehashed _ _ _ _ _ => GateOn "RSA-2048-PREHASHED"
  | EcdsaP256SignPrehashed _ _ | EcdsaP256VerifyPrehashed _ _ _ => GateOn "ECDSA-P256-PREHASHED"
  | EcdsaP384SignPrehashed _ _ | EcdsaP384VerifyPrehashed _ _ _ => GateOn "ECDSA-P384-PREHASHED"
  | Aes256GcmEncrypt _ _ | Aes256GcmDecrypt _ _ => GateOn "AES-256"
  | AesCbcEncrypt key _ _ | AesCbcDecrypt key _ _ | AesCtrEncrypt key _ _ | AesCtrDecrypt key _ _ => aes_gate (len key)
  | RsaOaepEncrypt _ _ _ _ | RsaOaepDecrypt _ _ _ => GateOn "RSA-2048"
  | GenerateAesKey key_len_bytes _ => aes_gate key_len_bytes
  | GenerateRsaKeyPair modulus_bits _ => GateOn ("RSA-" +:+ pretty modulus_bits)
  | GenerateEcP256KeyPair => GateOn "ECDSA-P256"
  | GenerateEcP384KeyPair => GateOn "ECDSA-P384"
  | GenerateEd25519KeyPair => GateOn "Ed25519"
  | ComputeDigest mechanism _ => digest_gate mechanism
  | DigestOutputLen _ => NoGate
  | CreateHasher mechanism => digest_gate mechanism
  | AesKeyWrap wrapping_key _ _ | AesKeyUnwrap wrapping_key _ _ => aes_gate (len wrapping_key)
  | EcdhP256 _ _ _ => GateOn "ECDSA-P256"
  | EcdhP384 _ _ _ => GateOn "ECDSA-P384"
  end.

Context `{UnicodeTables}.

Definition gate (mechanism : string) (config : ApprovedModeConfig) : comp (result unit HsmError) Empty_set :=
  let? r := check_mechanism_approved mechanism config in
  COk (match r with Ok _ => Ok tt | Err _ => Err MechanismInvalid end).

Definition ApprovedModeBackend {B} (inner : CryptoBackend B) (config : ApprovedModeConfig) : CryptoBackend B :=
  fun R c b =>
    match gate_of c with
    | NoGate => inner R c b
    | GateRefuse => COk (Err MechanismInvalid, b)
    | GateOn mechanism =>
        let? r := gate mechanism config in
        match r with
        | Ok _ => inner R c b
        | Err e => COk (Err e, b)
        end
    end.

(** ** Known-answer tests *)

Record TestResult : Type := mkTest { test_name : string; passed : bool }.

Definition kat_pass (name : string) : TestResult := mkTest name true.
Definition kat_fail (name : string) : TestResult := mkTest name false.

Definition KAT_MECHANISMS : list string :=
  ["SHA-256"; "SHA-384"; "SHA-512"; "AES-256"; "HMAC-SHA256"; "RSA-2048"; "RSA-3072"; "ECDSA-P256"; "ECDSA-P384"].

Fixpoint preflight_loop (ms : list string) (config : ApprovedModeConfig) : comp (list TestResult) Empty_set :=
  match ms with
  | [] => COk []
  | m :: ms =>
      let? r := check_mechanism_approved m config in
      let name := "approved-mode preflight: " +:+ m in
      let t := match r with Ok _ | Err (UnknownAlgorithm _) => kat_pass name | Err (NotApproved _) => kat_fail name end in
      let? rest := preflight_loop ms config in
      COk (t :: rest)
  end.

Definition approved_mode_preflight (config : ApprovedModeConfig) : comp (list TestResult) Empty_set :=
  preflight_loop KAT_MECHANISMS config.

Definition SHA256_ABC : string := "ba7816bf8f01cfea414140de5dae2223b00361a396177a9cb410ff61f20015ad".
Definition SHA384_ABC : string :=
  "cb00753f45a35e8bb5a03d699ac65007272c32ab0eded1631a8b605a43ff5bed8086072ba1e7cc2358baeca134c825a7".
Definition SHA512_ABC : string :=
  "ddaf35a193617abacc417349ae20413112e6fa4e89a97ea20a9eeee64b55d39a2192992a274fc1a836ba3c23a3feebbd454d4423643ce80e2a9ac94fa54ca49f".
Definition HMAC256_TC1_KEY : list byte := replicate 20 Byte.x0b.
Definition HMAC256_TC1_MSG : list byte := as_bytes "Hi There".
Definition HMAC256_TC1_MAC : string := "b0344c61d8db38535ca8afceaf0bf12b881dc200c9833da726e9376c2e32cff7".

Section Kats.

Context {B : Type} (backend : CryptoBackend B).

Abbreviation kats := (comp (list TestResult * B) Empty_set).

Definition digest_cases : list (string * Z * string) :=
  [("SHA-256 KAT", CKM_SHA256, SHA256_ABC); ("SHA-384 KAT", CKM_SHA384, SHA384_ABC); ("SHA-512 KAT", CKM_SHA512, SHA512_ABC)].

Fixpoint digest_loop (cases : list (string * Z * string)) (b : B) : kats :=
  match cases with
  | [] => COk ([], b)
  | (name, mechanism, expected_hex) :: cases =>
      let? r := backend _ (ComputeDigest mechanism (as_bytes "abc")) b in
      let t :=
        match r.1 with
        | Ok digest => if String.eqb (hex_encode digest) expected_hex then kat_pass name else kat_fail name
        | Err _ => kat_fail name
        end in
      let? rest := digest_loop cases r.2 in
      COk (t :: rest.1, rest.2)
  end.

Definition run_digest_kats (b : B) : kats := digest_loop digest_cases b.

(** [*byte ^= 0xFF] on the last byte, if there is one, and on the first. *)
Definition flip (x : byte) : byte := byte.of_Z (Z.lxor (byte.unsigned x) 0xFF).
Definition flip_last (bs : list byte) : list byte :=
  match rev bs with [] => [] | x :: r => rev (flip x :: r) end.
Definition flip_first (bs : list byte) : list byte := match bs with [] => [] | x :: r => flip x :: r end.

Definition KAT_AES_KEY : list byte := replicate 32 Byte.x42.
Definition KAT_AES_PLAINTEXT : list byte := as_bytes "FIPS 140-3 KAT plaintext for AES-GCM testing".

Definition run_symmetric_kats (b : B) : kats :=
  let name := "AES-256-GCM roundtrip" in
  let? r := backend _ (Aes256GcmEncrypt KAT_AES_KEY KAT_AES_PLAINTEXT) b in
  match r.1 with
  | Err _ => COk ([kat_fail name], r.2)
  | Ok ciphertext =>
      let expansion := mkTest "AES-256-GCM ciphertext expansion" (negb (len ciphertext <=? len KAT_AES_PLAINTEXT)) in
      let? d := backend _ (Aes256GcmDecrypt KAT_AES_KEY ciphertext) r.2 in
      let roundtrip := match d.1 with Ok decrypted => mkTest name (bool_decide (decrypted = KAT_AES_PLAINTEXT)) | Err _ => kat_fail name end in
      let? t := backend _ (Aes256GcmDecrypt KAT_AES_KEY (flip_last ciphertext)) d.2 in
      let tamper := mkTest "AES-256-GCM tamper detection" (match t.1 with Err _ => true | Ok _ => false end) in
      COk ([expansion; roundtrip; tamper], t.2)
  end.

(** The HMAC of the crate's own library; the backend is not asked. *)
Definition run_hmac_kats `{SignCrates} (b : B) : kats :=
  let name := "HMAC-SHA256 RFC4231 TC1 KAT" in
  let actual := hex_encode (hmac_sha256 HMAC256_TC1_KEY HMAC256_TC1_MSG) in
  COk ([if String.eqb actual HMAC256_TC1_MAC then kat_pass name else kat_fail name], b).

Definition KAT_RSA_MSG : list byte := as_bytes "FIPS 140-3 RSA PKCS1v15 KAT message".

(** One key size: generate, sign, verify, and verify another message. *)
Definition rsa_kat (bits : Z) (b : B) : comp (TestResult * B) Empty_set :=
  let name := "RSA-" +:+ pretty bits +:+ "-PKCS1v15-SHA256 sign/verify" in
  let? g := backend _ (GenerateRsaKeyPair bits true) b in
  match g.1 with
  | Err _ => COk (kat_fail name, g.2)
  | Ok (sk, modulus, pub_exp) =>
      let? s := backend _ (RsaPkcs1v15Sign (key_bytes sk) KAT_RSA_MSG (Some HashAlg_Sha256)) g.2 in
      match s.1 with
      | Err _ => COk (kat_fail name, s.2)
      | Ok signature =>
          let? v := backend _ (RsaPkcs1v15Verify modulus pub_exp KAT_RSA_MSG signature (Some HashAlg_Sha256)) s.2 in
          match v.1 with
          | Ok true =>
              let? n := backend _ (RsaPkcs1v15Verify modulus pub_exp (flip_first KAT_RSA_MSG) signature (Some HashAlg_Sha256)) v.2 in
              COk (match n.1 with Ok true => kat_fail name | _ => kat_pass name end, n.2)
          | _ => COk (kat_fail name, v.2)
          end
      end
  end.

Definition run_rsa_signing_kats (b : B) : kats :=
  let? r := rsa_kat 2048 b in
  let? s := rsa_kat 3072 r.2 in
  COk ([r.1; s.1], s.2).

Definition KAT_EC_MSG : list byte := as_bytes "FIPS 140-3 ECDSA KAT message".

(** The verdict on the two verifications. *)
Definition ec_verdict (name : string) (pos neg : result bool HsmError) : TestResult :=
  match pos, neg with
  | Ok true, Ok false | Ok true, Err _ => kat_pass name
  | _, _ => kat_fail name
  end.

Definition ec_kat (name : string) (generate : CryptoCall (RawKeyMaterial * list byte))
    (sign : list byte -> list byte -> CryptoCall (list byte)) (verify : list byte -> list byte -> list byte -> CryptoCall bool)
    (b : B) : comp (TestResult * B) Empty_set :=
  let? g := backend _ generate b in
  match g.1 with
  | Err _ => COk (kat_fail name, g.2)
  | Ok (sk, pk) =>
      let? s := backend _ (sign (key_bytes sk) KAT_EC_MSG) g.2 in
      match s.1 with
      | Err _ => COk (kat_fail name, s.2)
      | Ok sig =>
          let? pos := backend _ (verify pk KAT_EC_MSG sig) s.2 in
          let? neg := backend _ (verify pk (flip_first KAT_EC_MSG) sig) pos.2 in
          COk (ec_verdict name pos.1 neg.1, neg.2)
      end
  end.

Definition run_ecdsa_signing_kats (b : B) : kats :=
  let? r := ec_kat "ECDSA-P256-SHA256 sign/verify" GenerateEcP256KeyPair EcdsaP256Sign EcdsaP256Verify b in
  let? s := ec_kat "ECDSA-P384-SHA384 sign/verify" GenerateEcP384KeyPair EcdsaP384Sign EcdsaP384Verify r.2 in
  COk ([r.1; s.1], s.2).

Context `{SignCrates}.

Definition run_all_kats (config : ApprovedModeConfig) (b : B) : kats :=
  let? pre := approved_mode_preflight config in
  let? d := run_digest_kats b in
  let? y := run_symmetric_kats d.2 in
  let? h := run_hmac_kats y.2 in
  let? r := run_rsa_signing_kats h.2 in
  let? e := run_ecdsa_signing_kats r.2 in
  COk (pre ++ d.1 ++ y.1 ++ h.1 ++ r.1 ++ e.1, e.2).

Definition run_all_kats_with_default_config (b : B) : kats := run_all_kats default_fips_config b.

Definition verify_all_pass (results : list TestResult) : bool := forallb passed results.

(** ** The latch *)

Record PowerOnSelfTestLatch : Type := mkLatch { latch_ran : bool; latch_passed : option bool }.

Definition latch_new : PowerOnSelfTestLatch := mkLatch false None.
Definition has_run (l : PowerOnSelfTestLatch) : bool := latch_ran l.
Definition verdict (l : PowerOnSelfTestLatch) : option bool := latch_passed l.

Definition run_once_or_get (b : B) (l : PowerOnSelfTestLatch) : comp (bool * B * PowerOnSelfTestLatch) Empty_set :=
  match latch_passed l with
  | Some v => COk (v, b, l)
  | None =>
      let? r := run_all_kats_with_default_config b in
      let v := verify_all_pass r.1 in
      COk (v, r.2, mkLatch true (Some v))
  end.

Definition run_fips_post_for_backend (mark_passed : B -> B) (b : B) (l : PowerOnSelfTestLatch)
    : comp (bool * B * PowerOnSelfTestLatch) Empty_set :=
  let? r := run_once_or_get b l in
  let '(v, b, l) := r in
  COk (v, if v : bool then mark_passed b else b, l).

End Kats.

End Backend.

End Mode.
