(* ===== verification/CertModeProofs.v ===== *)
(** * Approved mode and self tests: what the policy admits and what a verdict means

    Classification terminates; a validated policy admits exactly the named algorithms; the
    wrapper lets a call through exactly if the policy permits it; a positive verdict of the
    power-on self test means that the backend gave the known answers. *)

From coqutil Require Import Byte.
From stdpp Require Import prelude strings list pretty.
From Stdlib Require Import ZArith Lia.
From S2P Require Import Prelude RustStd CertSign CertMode.
Import Sign Mode.
Local Open Scope string_scope.
Local Open Scope list_scope.
Local Open Scope Z_scope.
Local Open Scope rust_scope.

(** ** Upper case *)

(** Upper-casing a character that upper-casing produced changes nothing. *)
Class UnicodeLaws `{UnicodeTables} : Prop := {
  upper_stable : forall c d, 0x80 <= c -> d ∈ unicode_upper c -> upper_char d = [d];
}.

Lemma strip_chars_Some p s r : strip_chars p s = Some r <-> s = p ++ r.
Proof.
  revert s. induction p as [|a p IH]; intros s; cbn; [naive_solver|]. destruct s as [|b s]; [done|].
  case_if; bool_to_prop; [subst; rewrite IH; naive_solver|naive_solver].
Qed.

Lemma strip_suffix_Some p s r : strip_suffix p s = Some r <-> s = r ++ p.
Proof.
  unfold strip_suffix. rewrite fmap_Some. setoid_rewrite strip_chars_Some. split.
  - intros (x & Hs & ->). apply (f_equal (@rev Z)) in Hs. by rewrite rev_app_distr, !rev_involutive in Hs.
  - intros ->. exists (rev r). by rewrite rev_app_distr, rev_involutive.
Qed.

Section Classify.

Context `{UnicodeTables}.

Definition upper_fixed (s : list Z) : Prop := Forall (fun c => upper_char c = [c]) s.

Lemma to_uppercase_fixed s : upper_fixed s -> to_uppercase s = s.
Proof. induction 1 as [|c s Hc _ IH]; [done|]. unfold to_uppercase in *. cbn. by rewrite Hc, IH. Qed.

Lemma upper_char_fixed `{!UnicodeLaws} c : upper_fixed (upper_char c).
Proof.
  unfold upper_fixed. apply Forall_forall. intros d. unfold upper_char at 1. case_if; bool_to_prop.
  - rewrite list_elem_of_singleton. intros ->. unfold upper_char.
    destruct (_ && _) eqn:E2; bool_to_prop.
    + rewrite (proj2 (Z.ltb_lt _ _)) by lia. by rewrite (proj2 (Z.leb_gt _ _)) by lia.
    + rewrite (proj2 (Z.ltb_lt _ _)) by lia. by rewrite E2.
  - by apply upper_stable.
Qed.

Lemma to_uppercase_upper `{!UnicodeLaws} s : upper_fixed (to_uppercase s).
Proof.
  induction s as [|c s IH]; [constructor|]. unfold to_uppercase in *. cbn. apply Forall_app. split; [|done].
  apply upper_char_fixed.
Qed.

(** The recursion strips the suffix as long as there is one. *)
Lemma classify_fuel_total s config fuel : upper_fixed s -> (length s < fuel)%nat ->
  exists k, classify_fuel fuel s config = COk k.
Proof.
  revert s. induction fuel as [|fuel IH]; intros s Hs Hl; [lia|]. cbn [classify_fuel].
  rewrite to_uppercase_fixed by done. destruct (strip_suffix _ s) as [r|] eqn:E; [|eauto].
  apply strip_suffix_Some in E as ->. rewrite length_app in Hl. apply Forall_app in Hs as [Hr _].
  change (length (chars "-PREHASHED")) with 10%nat in Hl. destruct (IH r Hr ltac:(lia)) as [k ->]. cbn. eauto.
Qed.

(** One unfolding: the name in upper case, with or without the suffix. *)
Lemma classify_eq `{!UnicodeLaws} mechanism config : let m := to_uppercase (chars mechanism) in
  exists k, classify_mechanism mechanism config = COk k /\
    ((strip_suffix (chars "-PREHASHED") m = None /\ k = classify_plain m config) \/
     (is_Some (strip_suffix (chars "-PREHASHED") m) /\ (k = Unknown \/ k = Prehashed))).
Proof.
  intros m. unfold classify_mechanism. cbn [classify_fuel]. fold m.
  destruct (strip_suffix _ m) as [r|] eqn:E; [|eauto 6].
  pose proof (to_uppercase_upper (chars mechanism)) as Hm. fold m in Hm. apply strip_suffix_Some in E.
  rewrite E in Hm. apply Forall_app in Hm as [Hr _].
  destruct (classify_fuel_total r config (length m) Hr) as [k Hk].
  { rewrite E, length_app. change (length (chars "-PREHASHED")) with 10%nat. lia. }
  rewrite Hk. cbn [comp_bind]. eexists. split; [done|]. right. split; [done|]. destruct k; auto.
Qed.

Lemma check_classified mechanism config k : classify_mechanism mechanism config = COk k ->
  check_mechanism_approved mechanism config =
  COk (match k with
       | Unknown => Err (UnknownAlgorithm mechanism)
       | _ => if mechanism_approved k config then Ok tt else Err (NotApproved mechanism)
       end).
Proof.
  intros Hk. unfold check_mechanism_approved, is_algorithm_approved. rewrite Hk. cbn [comp_bind]. by destruct k.
Qed.

Lemma check_approved mechanism config k : classify_mechanism mechanism config = COk k ->
  check_mechanism_approved mechanism config = COk (Ok tt) <-> mechanism_approved k config = true.
Proof. intros Hk. rewrite (check_classified _ _ _ Hk). destruct k; cbn; try case_if; naive_solver. Qed.

(** ** What a validated policy admits *)

Lemma validate_config_Ok config : validate_config config = Ok tt ->
  2048 <= min_rsa_key_bits config <= MAX_REASONABLE_RSA_BITS /\
  allow_sha1 config = false /\ allow_ed25519 config = false /\ allow_prehashed_signing config = false /\
  16 ∉ allowed_symmetric_key_sizes config /\ Forall (fun a => approved_hash a = true) (allowed_hash_algorithms config).
Proof.
  unfold validate_config. destruct (violations_of config) eqn:E; [|done]. intros _. unfold violations_of in E.
  repeat match type of E with _ ++ _ = [] => apply app_nil in E as [? E] end.
  repeat match goal with Hx : (if ?b then _ else _) = [] |- _ => destruct b eqn:?; [discriminate|clear Hx] end.
  bool_to_prop. split_and!; try done.
  apply Forall_forall. intros a Ha. destruct (approved_hash a) eqn:Eh; [done|]. exfalso.
  match goal with Hx : map _ _ = [] |- _ => apply map_eq_nil in Hx; rename Hx into Hf end.
  assert (Hin : a ∈ filter (fun name => approved_hash name = false) (allowed_hash_algorithms config))
    by (by apply list_elem_of_filter). rewrite Hf in Hin. set_solver.
Qed.

(** The names a policy admits, in upper case. *)
Inductive approved_name (config : ApprovedModeConfig) : list Z -> Prop :=
| approved_hash_name a : a ∈ allowed_hash_algorithms config -> approved_name config (to_uppercase (chars a))
| approved_aes192 : 24 ∈ allowed_symmetric_key_sizes config -> approved_name config (chars "AES-192")
| approved_aes256 : 32 ∈ allowed_symmetric_key_sizes config -> approved_name config (chars "AES-256")
| approved_rsa rest bits : parse_u32 (utf8_encode rest) = Some bits -> min_rsa_key_bits config <= bits ->
    approved_name config (chars "RSA-" ++ rest)
| approved_p256 : allow_ecdsa_p256 config = true -> approved_name config (chars "ECDSA-P256")
| approved_p384 : allow_ecdsa_p384 config = true -> approved_name config (chars "ECDSA-P384").

Lemma approved_plain config m :
  16 ∉ allowed_symmetric_key_sizes config -> allow_sha1 config = false -> allow_ed25519 config = false ->
  mechanism_approved (classify_plain m config) config = true -> approved_name config m.
Proof.
  intros H16 Hsha Hed. unfold classify_plain. case_if; [cbn; congruence|]. case_if.
  { intros _. apply andb_true_iff in E0 as [_ (a & Ha & Em)%existsb_exists].
    apply bool_decide_eq_true in Em as <-. apply approved_hash_name. by apply list_elem_of_In. }
  case_if; [cbn; congruence|].
  destruct (rest ← strip_chars (chars "RSA-") m; parse_u32 (utf8_encode rest)) as [bits|] eqn:Er.
  { apply bind_Some in Er as (rest & ->%strip_chars_Some & Hp). cbn. intros ?%Z.leb_le. by eapply approved_rsa. }
  destruct (strip_chars (chars "AES-") m) as [rest|] eqn:Ea.
  { apply strip_chars_Some in Ea as ->. repeat (case_if; [apply bool_decide_eq_true in E2 as ->|clear E2]);
      cbn [mechanism_approved]; rewrite ?bool_decide_eq_true; [done| | |done]; intros.
    - by apply approved_aes192.
    - by apply approved_aes256. }
  case_if; [apply bool_decide_eq_true in E2 as ->; apply approved_p256|].
  case_if; [apply bool_decide_eq_true in E3 as ->; apply approved_p384|done].
Qed.

(** A number has a digit at its end, so it does not carry the suffix. *)
Lemma u32_digits_last acc s z : u32_digits acc s = Some z -> Forall (fun b => byte_in b 0x30 0x39 = true) s.
Proof.
  revert acc. induction s as [|b s IH]; intros acc; cbn; [constructor|]. case_if; [|done]. cbn zeta.
  case_if; [|done]. intros Hs%IH. by constructor.
Qed.

Lemma parse_u32_no_suffix rest bits : parse_u32 (utf8_encode rest) = Some bits ->
  strip_suffix (chars "-PREHASHED") (chars "RSA-" ++ rest) = None.
Proof.
  intros Hp. destruct (strip_suffix _ _) as [r|] eqn:E; [|done]. exfalso. apply strip_suffix_Some in E.
  destruct (exists_last (l := rest)) as (l & x & ->); [by intros ->|].
  rewrite app_assoc in E. change (chars "-PREHASHED") with (chars "-PREHASHE" ++ [0x44]) in E. rewrite (app_assoc r) in E.
  apply app_inj_tail in E as [_ ->]. unfold utf8_encode in Hp. rewrite map_app, concat_app in Hp.
  change (concat (map utf8_encode_char [0x44])) with [Byte.x44] in Hp.
  assert (Hl : forall acc s, u32_digits acc (s ++ [Byte.x44]) = Some bits -> False).
  { intros acc s Hs. apply u32_digits_last, Forall_app in Hs as [_ Hd]. apply Forall_cons in Hd as [Hd _]. done. }
  destruct (concat (map utf8_encode_char l)) as [|b s]; cbn [app parse_u32] in Hp.
  - by vm_compute in Hp.
  - repeat case_if; [by destruct s|by eapply Hl|by apply (Hl 0 (b :: s))].
Qed.

Lemma approved_classified config m : approved_name config m ->
  Forall (fun a => approved_hash a = true) (allowed_hash_algorithms config) ->
  strip_suffix (chars "-PREHASHED") m = None /\ mechanism_approved (classify_plain m config) config = true.
Proof.
  intros Hm Hh. destruct Hm as [a Ha|Hs|Hs|rest bits Hp Hb|Hp|Hp].
  - rewrite Forall_forall in Hh. pose proof (Hh a Ha) as Hx. unfold approved_hash in Hx.
    apply existsb_exists in Hx as (n & Hn & En). apply bool_decide_eq_true in En.
    assert (Hex : existsb (fun a0 => bool_decide (to_uppercase (chars a0) = to_uppercase (chars a))) (allowed_hash_algorithms config) = true).
    { apply existsb_exists. exists a. split; [by apply list_elem_of_In|by apply bool_decide_eq_true]. }
    rewrite <- En in *. unfold classify_plain. rewrite Hex. clear -Hn.
    destruct Hn as [<-|[<-|[<-|[<-|[<-|[<-|[]]]]]]]; (split; [reflexivity|vm_compute; reflexivity]).
  - split; [done|]. change (classify_plain (chars "AES-192") config) with (Aes 24). by apply bool_decide_eq_true.
  - split; [done|]. change (classify_plain (chars "AES-256") config) with (Aes 32). by apply bool_decide_eq_true.
  - split; [by eapply parse_u32_no_suffix|].
    assert (E : classify_plain (chars "RSA-" ++ rest) config = Rsa bits); [|rewrite E; by apply Z.leb_le].
    unfold classify_plain. rewrite (proj2 (strip_chars_Some _ _ rest) eq_refl). cbn [mbind option_bind]. by rewrite Hp.
  - by split.
  - by split.
Qed.

(** A validated policy admits what it lists and nothing else. If the configuration is
    accepted, then every check of a mechanism by its name returns, and it admits exactly the
    listed hashes, all of them among the approved names, AES with 192 or 256 bits if listed,
    RSA of at least the configured size, which is 2048 bits or more, and the two ECDSA curves
    as configured; in particular neither SHA-1, AES-128, Ed25519 nor a digest computed
    elsewhere. Letter case does not matter. *)
Theorem validated_policy_exact `{!UnicodeLaws} config mechanism :
  validate_config config = Ok tt ->
  returns (check_mechanism_approved mechanism config) /\ 2048 <= min_rsa_key_bits config /\
  (forall a, a ∈ allowed_hash_algorithms config -> exists n, n ∈ APPROVED_HASH_NAMES /\ to_uppercase (chars a) = chars n) /\
  (check_mechanism_approved mechanism config = COk (Ok tt) <-> approved_name config (to_uppercase (chars mechanism))).
Proof.
  intros (Hmin & Hsha & Hed & Hpre & H16 & Hh)%validate_config_Ok.
  destruct (classify_eq mechanism config) as (k & Hk & Hcase). split_and!; [|lia| |].
  { rewrite (check_classified _ _ _ Hk). apply returns_COk. }
  { intros a Ha. rewrite Forall_forall in Hh. pose proof (Hh a Ha) as (n & Hn & En%bool_decide_eq_true)%existsb_exists.
    exists n. split; [by apply list_elem_of_In|done]. }
  rewrite (check_approved _ _ _ Hk). destruct Hcase as [[Hs ->]|[Hs Hcase]]; split.
  - by apply approved_plain.
  - intros Hm. by apply approved_classified.
  - destruct Hcase as [-> | ->]; cbn; congruence.
  - intros Hm. destruct (approved_classified _ _ Hm Hh) as [E _]. rewrite E in Hs. by destruct Hs.
Qed.

End Classify.

(** ** The wrapper *)

Section Wrapper.

Context `{UnicodeTables} `{HsmTypes}.

Definition aes_permitted (config : ApprovedModeConfig) (key_len : Z) : bool :=
  bool_decide (key_len ∈ [16; 24; 32]) && bool_decide (key_len ∈ allowed_symmetric_key_sizes config).

Definition hash_listed (config : ApprovedModeConfig) (name : string) : bool :=
  existsb (fun a => bool_decide (to_uppercase (chars a) = chars name)) (allowed_hash_algorithms config).

Definition digest_permitted (config : ApprovedModeConfig) (mechanism : Z) : bool :=
  match digest_mech_name mechanism with Some name => hash_listed config name | None => true end.

(** What the gates ask of a call. They do not know the size of a given RSA key and ask for
    2048 bits; a digest other than SHA-256, SHA-384 and SHA-512 and the question for an
    output length are not asked for at all; a key agreement is asked for as ECDSA on its
    curve, although the documentation of the wrapper says that it is forwarded unchecked. *)
Definition gate_admits (config : ApprovedModeConfig) {R} (c : CryptoCall R) : bool :=
  match c with
  | RsaPkcs1v15Sign _ _ _ | RsaPkcs1v15Verify _ _ _ _ _ | RsaPssSign _ _ _ | RsaPssVerify _ _ _ _ _
  | RsaOaepEncrypt _ _ _ _ | RsaOaepDecrypt _ _ _ => min_rsa_key_bits config <=? 2048
  | EcdsaP256Sign _ _ | EcdsaP256Verify _ _ _ | GenerateEcP256KeyPair | EcdhP256 _ _ _ => allow_ecdsa_p256 config
  | EcdsaP384Sign _ _ | EcdsaP384Verify _ _ _ | GenerateEcP384KeyPair | EcdhP384 _ _ _ => allow_ecdsa_p384 config
  | Ed25519Sign _ _ | Ed25519Verify _ _ _ | GenerateEd25519KeyPair => allow_ed25519 config
  | RsaPkcs1v15SignPrehashed _ _ _ | RsaPkcs1v15VerifyPrehashed _ _ _ _ _
  | RsaPssSignPrehashed _ _ _ | RsaPssVerifyPrehashed _ _ _ _ _
  | EcdsaP256SignPrehashed _ _ | EcdsaP256VerifyPrehashed _ _ _
  | EcdsaP384SignPrehashed _ _ | EcdsaP384VerifyPrehashed _ _ _ => allow_prehashed_signing config
  | Aes256GcmEncrypt _ _ | Aes256GcmDecrypt _ _ => bool_decide (32 ∈ allowed_symmetric_key_sizes config)
  | AesCbcEncrypt key _ _ | AesCbcDecrypt key _ _ | AesCtrEncrypt key _ _ | AesCtrDecrypt key _ _
  | AesKeyWrap key _ _ | AesKeyUnwrap key _ _ => aes_permitted config (len key)
  | GenerateAesKey key_len _ => aes_permitted config key_len
  | GenerateRsaKeyPair modulus_bits _ => min_rsa_key_bits config <=? modulus_bits
  | ComputeDigest mechanism _ | CreateHasher mechanism => digest_permitted config mechanism
  | DigestOutputLen _ => true
  end.

(** The modulus size is a [u32]. *)
Definition call_in_range {R} (c : CryptoCall R) : Prop :=
  match c with GenerateRsaKeyPair modulus_bits _ => in_u32 modulus_bits | _ => True end.

Lemma gate_classified mechanism config k : classify_mechanism mechanism config = COk k ->
  gate mechanism config = COk (if mechanism_approved k config then Ok tt else Err MechanismInvalid).
Proof.
  intros Hk. unfold gate. rewrite (check_classified _ _ _ Hk). cbn [comp_bind].
  destruct (mechanism_approved k config) eqn:E; destruct k; done.
Qed.

Lemma gated_call {B R} (inner : CryptoBackend B) config (c : CryptoCall R) b mechanism k :
  gate_of c = GateOn mechanism -> classify_mechanism mechanism config = COk k ->
  ApprovedModeBackend inner config R c b =
  if mechanism_approved k config then inner R c b else COk (Err MechanismInvalid, b).
Proof.
  intros Hg Hk. unfold ApprovedModeBackend. rewrite Hg, (gate_classified _ _ _ Hk). cbn [comp_bind]. by case_if.
Qed.

Lemma gated_aes {B R} (inner : CryptoBackend B) config (c : CryptoCall R) b n : gate_of c = aes_gate n ->
  ApprovedModeBackend inner config R c b =
  if aes_permitted config n then inner R c b else COk (Err MechanismInvalid, b).
Proof.
  unfold aes_gate, aes_permitted. intros Hg.
  destruct (n =? 16) eqn:E1; [bool_to_prop; subst; by rewrite (gated_call _ _ _ _ _ (Aes 16) Hg)|].
  destruct (n =? 24) eqn:E2; [bool_to_prop; subst; by rewrite (gated_call _ _ _ _ _ (Aes 24) Hg)|].
  destruct (n =? 32) eqn:E3; [bool_to_prop; subst; by rewrite (gated_call _ _ _ _ _ (Aes 32) Hg)|].
  bool_to_prop. rewrite bool_decide_false by set_solver. unfold ApprovedModeBackend. by rewrite Hg.
Qed.

Lemma classify_digest config name : name ∈ ["SHA-256"; "SHA-384"; "SHA-512"] ->
  classify_mechanism name config = COk (if hash_listed config name then HashApproved else Unknown).
Proof.
  intros Hn. unfold hash_listed.
  assert (Hp : classify_mechanism name config = COk (classify_plain (chars name) config))
    by (repeat (apply elem_of_cons in Hn as [->|Hn]; [reflexivity|]); by apply elem_of_nil in Hn).
  rewrite Hp. unfold classify_plain. destruct (existsb _ _);
    repeat (apply elem_of_cons in Hn as [->|Hn]; [reflexivity|]); by apply elem_of_nil in Hn.
Qed.

Lemma gated_digest {B R} (inner : CryptoBackend B) config (c : CryptoCall R) b mechanism : gate_of c = digest_gate mechanism ->
  ApprovedModeBackend inner config R c b =
  if digest_permitted config mechanism then inner R c b else COk (Err MechanismInvalid, b).
Proof.
  unfold digest_gate, digest_permitted. intros Hg. destruct (digest_mech_name mechanism) as [name|] eqn:En.
  - assert (Hn : name ∈ ["SHA-256"; "SHA-384"; "SHA-512"])
      by (unfold digest_mech_name in En; repeat case_if; simplify_eq; set_solver).
    rewrite (gated_call _ _ _ _ _ _ Hg (classify_digest config name Hn)). by destruct (hash_listed config name).
  - unfold ApprovedModeBackend. by rewrite Hg.
Qed.

Lemma classify_rsa config bits : in_u32 bits -> classify_mechanism ("RSA-" +:+ pretty bits) config = COk (Rsa bits).
Proof.
  intros Hb. assert (Hd : Forall (fun b => byte_in b 0x30 0x39 = true) (as_bytes (pretty bits))) by (apply pretty_digits, Hb).
  assert (Ha : Forall ascii_byte (as_bytes (pretty bits)))
    by (eapply Forall_impl; [exact Hd|]; intros b; unfold byte_in, ascii_byte; intros; bool_to_prop; lia).
  assert (Hc : chars ("RSA-" +:+ pretty bits) = chars "RSA-" ++ map byte.unsigned (as_bytes (pretty bits))).
  { unfold chars at 1. rewrite as_bytes_app, utf8_chars_ascii; [by rewrite map_app|].
    apply Forall_app. split; [|done]. repeat constructor; vm_compute; done. }
  set (ds := map byte.unsigned (as_bytes (pretty bits))) in *.
  assert (Hp : parse_u32 (utf8_encode ds) = Some bits) by (unfold ds; rewrite utf8_encode_ascii by done; by apply parse_u32_pretty).
  assert (Hu : to_uppercase (chars "RSA-" ++ ds) = chars "RSA-" ++ ds).
  { apply to_uppercase_fixed, Forall_app. split; [repeat constructor|]. unfold ds. apply Forall_map.
    eapply Forall_impl; [exact Hd|]. intros b E. cbn. unfold upper_char, byte_in in *. bool_to_prop.
    rewrite (proj2 (Z.ltb_lt _ _)) by lia. by rewrite (proj2 (Z.leb_gt _ _)) by lia. }
  unfold classify_mechanism. cbn [classify_fuel]. rewrite Hc, Hu, (parse_u32_no_suffix _ _ Hp). f_equal.
  unfold classify_plain. rewrite (proj2 (strip_chars_Some _ _ ds) eq_refl). cbn [mbind option_bind]. by rewrite Hp.
Qed.

(** The wrapper at the boundary. For every inner backend, policy and call, the inner backend
    is asked exactly if the gates admit the call, with the call unchanged; any other call is
    answered with [MechanismInvalid] and the inner backend is neither asked nor changed. *)
Theorem wrapper_enforces_policy {B R} (inner : CryptoBackend B) config (c : CryptoCall R) b :
  call_in_range c ->
  ApprovedModeBackend inner config R c b =
  if gate_admits config c then inner R c b else COk (Err MechanismInvalid, b).
Proof.
  intros Hc. destruct c; cbn [gate_admits].
  all: try (apply gated_aes; reflexivity).
  all: try (apply gated_digest; reflexivity).
  all: try (eapply (gated_call _ _ _ _ _ (Rsa 2048)); reflexivity).
  all: try (eapply (gated_call _ _ _ _ _ EcdsaP256); reflexivity).
  all: try (eapply (gated_call _ _ _ _ _ EcdsaP384); reflexivity).
  all: try (eapply (gated_call _ _ _ _ _ Ed25519); reflexivity).
  all: try (eapply (gated_call _ _ _ _ _ Prehashed); reflexivity).
  all: try (eapply (gated_call _ _ _ _ _ (Aes 32)); reflexivity).
  - eapply (gated_call _ _ _ _ _ (Rsa modulus_bits)); [reflexivity|by apply classify_rsa].
  - reflexivity.
Qed.

End Wrapper.

(** ** The power-on self test *)

Section SelfTest.

Context `{UnicodeTables} `{HsmTypes} `{SignCrates}.
Context {B : Type}.
Implicit Types backend : CryptoBackend B.

(** The backend answered the call with [r], in some state. *)
Definition call_answered backend {R} (c : CryptoCall R) (r : result R HsmError) : Prop :=
  exists b b', backend R c b = COk (r, b').

Definition rsa_answers backend (bits : Z) : Prop :=
  exists sk modulus pub_exp sig r,
    call_answered backend (GenerateRsaKeyPair bits true) (Ok (sk, modulus, pub_exp)) /\
    call_answered backend (RsaPkcs1v15Sign (key_bytes sk) KAT_RSA_MSG (Some HashAlg_Sha256)) (Ok sig) /\
    call_answered backend (RsaPkcs1v15Verify modulus pub_exp KAT_RSA_MSG sig (Some HashAlg_Sha256)) (Ok true) /\
    call_answered backend (RsaPkcs1v15Verify modulus pub_exp (flip_first KAT_RSA_MSG) sig (Some HashAlg_Sha256)) r /\ r <> Ok true.

Definition ec_answers backend (generate : CryptoCall (RawKeyMaterial * list byte))
    (sign : list byte -> list byte -> CryptoCall (list byte)) (verify : list byte -> list byte -> list byte -> CryptoCall bool) : Prop :=
  exists sk pk sig r,
    call_answered backend generate (Ok (sk, pk)) /\ call_answered backend (sign (key_bytes sk) KAT_EC_MSG) (Ok sig) /\
    call_answered backend (verify pk KAT_EC_MSG sig) (Ok true) /\
    call_answered backend (verify pk (flip_first KAT_EC_MSG) sig) r /\ r <> Ok true.

(** The answers that the tests ask for. *)
Record known_answers backend : Prop := {
  ka_digest : Forall (fun case => exists d, call_answered backend (ComputeDigest case.1.2 (as_bytes "abc")) (Ok d) /\ hex_encode d = case.2) digest_cases;
  ka_aes : exists ct e, call_answered backend (Aes256GcmEncrypt KAT_AES_KEY KAT_AES_PLAINTEXT) (Ok ct) /\
    len KAT_AES_PLAINTEXT < len ct /\ call_answered backend (Aes256GcmDecrypt KAT_AES_KEY ct) (Ok KAT_AES_PLAINTEXT) /\
    call_answered backend (Aes256GcmDecrypt KAT_AES_KEY (flip_last ct)) (Err e);
  ka_hmac : hex_encode (hmac_sha256 HMAC256_TC1_KEY HMAC256_TC1_MSG) = HMAC256_TC1_MAC;
  ka_rsa2048 : rsa_answers backend 2048;
  ka_rsa3072 : rsa_answers backend 3072;
  ka_p256 : ec_answers backend GenerateEcP256KeyPair EcdsaP256Sign EcdsaP256Verify;
  ka_p384 : ec_answers backend GenerateEcP384KeyPair EcdsaP384Sign EcdsaP384Verify;
}.

Lemma digest_loop_passed backend cases b ts b' : digest_loop backend cases b = COk (ts, b') -> verify_all_pass ts = true ->
  Forall (fun case => exists d, call_answered backend (ComputeDigest case.1.2 (as_bytes "abc")) (Ok d) /\ hex_encode d = case.2) cases.
Proof.
  revert b ts. induction cases as [|[[name mech] hex] cases IH]; intros b ts; cbn [digest_loop]; [constructor|].
  intros ([r b1] & Hr & (rest & Hrest & [= <- <-])%comp_bind_COk_inv)%comp_bind_COk_inv. destruct rest as [ts' b2]. cbn in *.
  intros [Ht Hall]%andb_true_iff. constructor; [|by eapply IH]. destruct r as [d|e]; [|done].
  case_if; [|done]. apply String.eqb_eq in E. exists d. split; [by exists b, b1|done].
Qed.

Lemma symmetric_passed backend b ts b' : run_symmetric_kats backend b = COk (ts, b') -> verify_all_pass ts = true ->
  exists ct e, call_answered backend (Aes256GcmEncrypt KAT_AES_KEY KAT_AES_PLAINTEXT) (Ok ct) /\
    len KAT_AES_PLAINTEXT < len ct /\ call_answered backend (Aes256GcmDecrypt KAT_AES_KEY ct) (Ok KAT_AES_PLAINTEXT) /\
    call_answered backend (Aes256GcmDecrypt KAT_AES_KEY (flip_last ct)) (Err e).
Proof.
  unfold run_symmetric_kats. intros ([[ct|e] b1] & Hc1 & Hr)%comp_bind_COk_inv; cbn [fst snd] in Hr; [|by injection Hr as <- <-].
  apply comp_bind_COk_inv in Hr as ([d b2] & Hc2 & Hr). apply comp_bind_COk_inv in Hr as ([t b3] & Hc3 & [= <- <-]).
  cbn [verify_all_pass forallb passed fst snd]. rewrite !andb_true_iff. intros (He & Hd & Ht & _).
  destruct d as [p|]; [|done]. cbn [passed] in Hd. apply bool_decide_eq_true in Hd as ->. destruct t as [|e]; [done|].
  apply negb_true_iff, Z.leb_gt in He. exists ct, e. split_and!; [by eexists _, _|done|by eexists _, _..].
Qed.

Lemma rsa_passed backend bits b t b' : rsa_kat backend bits b = COk (t, b') -> passed t = true -> rsa_answers backend bits.
Proof.
  unfold rsa_kat. intros ([[[[sk m] e]|er] b1] & Hc1 & Hr)%comp_bind_COk_inv; cbn [fst snd] in Hr; [|by injection Hr as <- <-].
  apply comp_bind_COk_inv in Hr as ([[sig|er] b2] & Hc2 & Hr); cbn [fst snd] in Hr; [|by injection Hr as <- <-].
  apply comp_bind_COk_inv in Hr as ([v b3] & Hc3 & Hr). cbn [fst snd] in Hr.
  destruct v as [[]|er]; [|by injection Hr as <- <-..].
  apply comp_bind_COk_inv in Hr as ([n b4] & Hc4 & [= <- <-]). cbn [fst]. intros Hn.
  exists sk, m, e, sig, n. split_and!; [by eexists _, _..|]. by intros ->.
Qed.

Lemma ec_passed backend name generate sign verify b t b' :
  ec_kat backend name generate sign verify b = COk (t, b') -> passed t = true -> ec_answers backend generate sign verify.
Proof.
  unfold ec_kat. intros ([[[sk pk]|er] b1] & Hc1 & Hr)%comp_bind_COk_inv; cbn [fst snd] in Hr; [|by injection Hr as <- <-].
  apply comp_bind_COk_inv in Hr as ([[sig|er] b2] & Hc2 & Hr); cbn [fst snd] in Hr; [|by injection Hr as <- <-].
  apply comp_bind_COk_inv in Hr as ([pos b3] & Hc3 & Hr). apply comp_bind_COk_inv in Hr as ([neg b4] & Hc4 & [= <- <-]).
  cbn [fst]. intros Hv. destruct pos as [[]|]; [|done..]. exists sk, pk, sig, neg.
  split_and!; [by eexists _, _..|]. by intros ->.
Qed.

Lemma all_pass_app ts us : verify_all_pass (ts ++ us) = true <-> verify_all_pass ts = true /\ verify_all_pass us = true.
Proof. unfold verify_all_pass. by rewrite forallb_app, andb_true_iff. Qed.

Lemma kats_passed backend config b ts b' : run_all_kats backend config b = COk (ts, b') -> verify_all_pass ts = true ->
  known_answers backend.
Proof.
  unfold run_all_kats. intros (pre & _ & Hr)%comp_bind_COk_inv.
  apply comp_bind_COk_inv in Hr as ([d b1] & Hd & Hr). apply comp_bind_COk_inv in Hr as ([y b2] & Hy & Hr).
  apply comp_bind_COk_inv in Hr as ([h b3] & Hh & Hr). apply comp_bind_COk_inv in Hr as ([r b4] & Hrsa & Hr).
  apply comp_bind_COk_inv in Hr as ([e b5] & He & [= <- <-]). cbn [fst snd] in *.
  rewrite !all_pass_app. intros (_ & Pd & Py & Ph & Pr & Pe).
  apply comp_bind_COk_inv in Hrsa as ([r1 c1] & Hr1 & Hrsa). apply comp_bind_COk_inv in Hrsa as ([r2 c2] & Hr2 & [= <- <-]).
  apply comp_bind_COk_inv in He as ([e1 f1] & He1 & He). apply comp_bind_COk_inv in He as ([e2 f2] & He2 & [= <- <-]).
  injection Hh as <- <-. cbn [verify_all_pass forallb fst snd] in *. rewrite !andb_true_r in *. bool_to_prop.
  split; [by eapply digest_loop_passed|by eapply symmetric_passed| |by eapply rsa_passed..|by eapply ec_passed|by eapply ec_passed].
  destruct (String.eqb _ HMAC256_TC1_MAC) eqn:E; [|done]. by apply String.eqb_eq in E.
Qed.

(** Calls of [run_fips_post_for_backend] on one latch, each with its backend. *)
Fixpoint post_run (mark_passed : B -> B) (calls : list (CryptoBackend B * B)) (l : PowerOnSelfTestLatch)
    : comp (list (bool * B) * PowerOnSelfTestLatch) Empty_set :=
  match calls with
  | [] => COk ([], l)
  | (backend, b) :: calls =>
      let? r := run_fips_post_for_backend backend mark_passed b l in
      let? rest := post_run mark_passed calls r.2 in
      COk (r.1 :: rest.1, rest.2)
  end.

Definition mark_if (mark_passed : B -> B) (v : bool) (b : B) : B := if v then mark_passed b else b.

Lemma post_run_latched mark_passed calls l v : latch_passed l = Some v ->
  post_run mark_passed calls l = COk (map (fun c => (v, mark_if mark_passed v c.2)) calls, l).
Proof.
  intros Hl. induction calls as [|[backend b] calls IH]; [done|]. cbn [post_run].
  unfold run_fips_post_for_backend, run_once_or_get. rewrite Hl. cbn [comp_bind snd]. by rewrite IH.
Qed.

(** C20: the verdict of the self test is final and means what it says. Whatever backends are
    presented to a new latch, the first call alone runs the tests; every call gets the
    verdict of the first, the later backends are not asked, and a backend is marked exactly
    if the verdict is positive. If it is positive, the first backend gave the published
    digests, deciphered what it enciphered and refused a changed ciphertext, and accepted
    its signatures under RSA and ECDSA and not those of a changed message. *)
Theorem post_verdict_final mark_passed backend b calls outs l :
  post_run mark_passed ((backend, b) :: calls) latch_new = COk (outs, l) ->
  exists v b1, outs = (v, mark_if mark_passed v b1) :: map (fun c => (v, mark_if mark_passed v c.2)) calls /\
    verdict l = Some v /\ has_run l = true /\ (v = true -> known_answers backend).
Proof.
  cbn [post_run]. unfold run_fips_post_for_backend at 1, run_once_or_get. cbn [latch_passed latch_new].
  intros ([o l1] & Hr & Hrest)%comp_bind_COk_inv. apply comp_bind_COk_inv in Hr as ([[v b2] l2] & Hx & [= <- <-]).
  apply comp_bind_COk_inv in Hx as ([ts b1] & Hk & [= <- <- <-]).
  apply comp_bind_COk_inv in Hrest as ([rest l3] & Hrest & [= <- <-]). cbn [fst snd] in *.
  rewrite (post_run_latched _ _ _ (verify_all_pass ts)) in Hrest by done. injection Hrest as <- <-.
  exists (verify_all_pass ts), b1. split_and!; [done..|]. intros Hv. by eapply kats_passed.
Qed.

End SelfTest.

(** ** Gaps, and a concrete backend *)

#[local] Instance demo_unicode : UnicodeTables := {| unicode_upper c := [c] |}.

#[local] Instance demo_unicode_laws : UnicodeLaws.
Proof.
  split. intros c d Hc [-> | []%elem_of_nil]%elem_of_cons. unfold upper_char. by rewrite (proj2 (Z.ltb_ge _ _)).
Qed.

(** The documentation of [check_mechanism_approved] shows this name as approved. *)
Example gcm_name_unknown :
  check_mechanism_approved "AES-256-GCM" default_fips_config = COk (Err (UnknownAlgorithm "AES-256-GCM")).
Proof. vm_compute. reflexivity. Qed.

#[local] Instance demo_hsm : HsmTypes := {|
  HsmError := unit; MechanismInvalid := tt; HashAlg := unit; HashAlg_Sha256 := tt; OaepHash := unit;
  RawKeyMaterial := list byte; key_bytes k := k; DigestAccumulator := unit;
  CKM_SHA256 := 0x250; CKM_SHA384 := 0x260; CKM_SHA512 := 0x270;
|}.

(** Every use of an RSA key is checked as RSA-2048: a policy that asks for 3072 bits still
    generates such keys and refuses every use of them. A call with a digest asks for neither
    the curve nor the size. *)
Example rsa_use_checked_as_2048 :
  let strict := mkMode 3072 ["SHA-256"] [32] false false false true true in
  let lax := mkMode 3072 ["SHA-256"] [32] false false true false true in
  gate_admits strict (GenerateRsaKeyPair 4096 true) = true /\ gate_admits strict (RsaPssSign [] [] tt) = false /\
  gate_admits lax (EcdsaP256Sign [] []) = false /\ gate_admits lax (EcdsaP256SignPrehashed [] []) = true /\
  gate_admits lax (RsaPssSignPrehashed [] [] tt) = true.
Proof. vm_compute. auto. Qed.

Lemma validated_policy_exact_witness :
  check_mechanism_approved "aes-256" default_fips_config = COk (Ok tt) /\
  approved_name default_fips_config (to_uppercase (chars "aes-256")).
Proof.
  destruct (validated_policy_exact default_fips_config "aes-256") as (_ & _ & _ & Hx); [vm_compute; reflexivity|].
  assert (Hc : check_mechanism_approved "aes-256" default_fips_config = COk (Ok tt)) by (vm_compute; reflexivity).
  split; [exact Hc|apply Hx; exact Hc].
Defined.

(** A backend that gives the known answers and counts its calls. *)
Definition demo_digest (m : Z) : list byte :=
  let hex := if m =? 0x250 then SHA256_ABC else if m =? 0x260 then SHA384_ABC else SHA512_ABC in
  match hex_decode hex with Ok d => d | Err _ => [] end.

Definition demo_backend : CryptoBackend nat := fun R c n =>
  match c in CryptoCall R return comp (result R unit * nat) Empty_set with
  | ComputeDigest m _ => COk (Ok (demo_digest m), S n)
  | Aes256GcmEncrypt _ plaintext => COk (Ok (plaintext ++ [Byte.x00]), S n)
  | Aes256GcmDecrypt _ data =>
      COk (match rev data with x :: r => if bool_decide (x = Byte.x00) then Ok (rev r) else Err tt | [] => Err tt end, S n)
  | GenerateRsaKeyPair _ _ => COk (Ok ([], [], []), S n)
  | RsaPkcs1v15Sign _ data _ => COk (Ok data, S n)
  | RsaPkcs1v15Verify _ _ data sig _ => COk (Ok (bool_decide (data = sig)), S n)
  | GenerateEcP256KeyPair => COk (Ok ([], []), S n)
  | EcdsaP256Sign _ data => COk (Ok data, S n)
  | EcdsaP256Verify _ data sig => COk (Ok (bool_decide (data = sig)), S n)
  | GenerateEcP384KeyPair => COk (Ok ([], []), S n)
  | EcdsaP384Sign _ data => COk (Ok data, S n)
  | EcdsaP384Verify _ data sig => COk (Ok (bool_decide (data = sig)), S n)
  | _ => COk (Err tt, S n)
  end.

#[local] Instance demo_crates : SignCrates := {|
  hmac_sha256 _ _ := match hex_decode HMAC256_TC1_MAC with Ok d => d | Err _ => [] end;
  meta_from_slice _ := None;
|}.

Lemma wrapper_enforces_policy_witness :
  ApprovedModeBackend demo_backend default_fips_config _ (GenerateRsaKeyPair 1024 true) 0%nat = COk (Err tt, 0%nat) /\
  ApprovedModeBackend demo_backend default_fips_config _ (GenerateRsaKeyPair 3072 true) 0%nat = COk (Ok ([], [], []), 1%nat).
Proof.
  split.
  - rewrite (wrapper_enforces_policy demo_backend default_fips_config (GenerateRsaKeyPair 1024 true) 0%nat); [vm_compute; reflexivity|].
    split; vm_compute; congruence.
  - rewrite (wrapper_enforces_policy demo_backend default_fips_config (GenerateRsaKeyPair 3072 true) 0%nat); [vm_compute; reflexivity|].
    split; vm_compute; congruence.
Defined.

(** Twenty-two calls test the first backend; the second, which is never asked, is marked too. *)
Definition untested : CryptoBackend nat := fun R c n => COk (Err tt, S n).

Lemma post_verdict_final_witness :
  known_answers demo_backend /\
  post_run (fun n => (100 + n)%nat) [(demo_backend, 0%nat); (untested, 0%nat)] latch_new
    = COk ([(true, 122%nat); (true, 100%nat)], mkLatch true (Some true)).
Proof.
  assert (Hr : post_run (fun n => (100 + n)%nat) [(demo_backend, 0%nat); (untested, 0%nat)] latch_new
    = COk ([(true, 122%nat); (true, 100%nat)], mkLatch true (Some true))) by (vm_compute; reflexivity).
  destruct (post_verdict_final (fun n => (100 + n)%nat) demo_backend 0%nat [(untested, 0%nat)] _ _ Hr) as (v & b1 & Ho & _ & _ & Hk).
  split; [|exact Hr]. apply Hk. destruct v; [reflexivity|discriminate Ho].
Defined.
