(* ===== verification/GcmCounter.v ===== *)
(** * The AES-GCM counter journal ([craton-hsm-openssl/src/gcm_counter.rs]) and the
    counters it backs ([craton-hsm-openssl/src/lib.rs], lines 141-487)

    The journal file is its bytes: version marker, record lines, footer with the MAC.
    A key is represented by its fingerprint, 32 bytes.  SHA-256, HMAC-SHA256 and the
    substring search of the [memchr] crate are arguments (class [GcmCrates]).

    Input and output can fail: every write takes an [Io] that says whether it took
    effect and whether an error was reported.  The replacement of the file is atomic
    ([rename]); a crash keeps the bytes of the file and nothing else.  Operations
    of the journal hold its mutex and are single steps; [check_gcm_usage] is modelled for
    one caller at a time; its two parts, [usage_admission] and [finish_use], are what callers
    interleave. *)

From coqutil Require Import Byte Word.LittleEndianList.
From stdpp Require Import prelude gmap strings list sorting pretty.
From Stdlib Require Import ZArith Lia.
From S2P Require Import Prelude RustStd.
Local Open Scope string_scope.
Local Open Scope list_scope.
Local Open Scope Z_scope.

Class GcmCrates := {
  sha256 : list byte -> list byte;
  hmac_sha256 : list byte -> list byte -> list byte;
  (** [memchr::memmem::rfind(haystack, needle)] *)
  rfind : list byte -> list byte -> option nat;
}.

(** [needle] occurs in [haystack] at [i]. *)
Definition occurs_at (needle haystack : list byte) (i : nat) : Prop :=
  needle `prefix_of` drop i haystack.

(** The documented behaviour of these crates: a digest and a tag have 32 bytes, and [rfind]
    returns the last occurrence if there is one. *)
Class GcmCratesLaws `{GcmCrates} := {
  sha256_length : forall m, length (sha256 m) = 32%nat;
  hmac_length : forall k m, length (hmac_sha256 k m) = 32%nat;
  rfind_last : forall h n i, occurs_at n h i -> (forall j, occurs_at n h j -> (j <= i)%nat) ->
    rfind h n = Some i;
  rfind_none : forall h n, (forall i, ~ occurs_at n h i) -> rfind h n = None;
}.

(** ** Constants *)

Definition BATCH_THRESHOLD : Z := 1024.
Definition AES_GCM_NONCE_LIMIT : Z := Z.shiftl 1 32.
Definition NL : byte := Byte.x0a.
Definition JOURNAL_VERSION_MARKER : list byte := as_bytes "craton-hsm-gcm-journal v1" ++ [NL].
Definition MAX_MALFORMED_RECORDS : Z := 16.
Definition COMPACTION_BYTES_THRESHOLD : Z := 8 * 1024 * 1024.
Definition COMPACTION_RECORDS_THRESHOLD : Z := 4096.

Inductive GcmError : Type := GGeneralError | GKeyFunctionNotPermitted | GDeviceMemory.

(** ** Hexadecimal *)

(** The pair of a byte in [HEX_TABLE]. *)
Definition hex_pair (b : byte) : list byte :=
  [hex_digit (Z.shiftr (byte.unsigned b) 4); hex_digit (Z.land (byte.unsigned b) 0xF)].

Definition hex_bytes (b : list byte) : list byte := concat (map hex_pair b).

(** [out] with the encoding appended. *)
Definition push_hex_bytes (out b : list byte) : list byte :=
  foldl (fun out byte => out ++ hex_pair byte) out b.

Definition hex_nib (b : byte) : option Z :=
  if byte_in b 0x30 0x39 then Some (byte.unsigned b - 0x30)
  else if byte_in b 0x61 0x66 then Some (byte.unsigned b - 0x61 + 10)
  else if byte_in b 0x41 0x46 then Some (byte.unsigned b - 0x41 + 10)
  else None.

(** The loop over [chunks(2)], on a slice of even length. *)
Fixpoint decode_chunks (s : list byte) : option (list byte) :=
  match s with
  | c0 :: c1 :: r =>
      hi ← hex_nib c0; lo ← hex_nib c1; rest ← decode_chunks r;
      Some (byte.of_Z (Z.lor (Z.shiftl hi 4) lo) :: rest)
  | _ => Some []
  end.

Definition parse_hex32 (s : list byte) : option (list byte) :=
  if negb (len s =? 64) then None else decode_chunks s.

Definition decode_hex_bytes (s : list byte) : option (list byte) :=
  if negb (len s mod 2 =? 0) then None else decode_chunks s.

(** ** Records *)

Inductive RecordKind : Type := Count (n : Z) | Poisoned.

Record PersistEntry : Type := mkEntry { persisted : Z; poisoned : bool }.

Definition PersistEntry_default : PersistEntry := mkEntry 0 false.

(** The line that [append_record] formats. *)
Definition record_line (fp : list byte) (kind : RecordKind) : list byte :=
  let line := push_hex_bytes [] fp in
  let line := line ++ [Byte.x20] in
  let line :=
    match kind with
    | Count n => line ++ as_bytes (pretty n)
    | Poisoned => line ++ as_bytes "POISONED"
    end in
  line ++ [NL].

(** [body.split(|&b| b == b'\n')] *)
Fixpoint split_nl (body : list byte) : list (list byte) :=
  match body with
  | [] => [[]]
  | b :: r =>
      if bool_decide (b = NL) then [] :: split_nl r
      else match split_nl r with
           | l :: ls => (b :: l) :: ls
           | [] => [[b]]
           end
  end.

(** [s.splitn(2, ' ')]: what precedes the first blank, and the rest if there is one. *)
Fixpoint splitn2 (s : list byte) : list byte * option (list byte) :=
  match s with
  | [] => ([], None)
  | b :: r =>
      if bool_decide (b = Byte.x20) then ([], Some r)
      else let '(h, v) := splitn2 r in (b :: h, v)
  end.

(** [val.parse::<u64>()]: an optional plus sign and decimal digits, within range. *)
Fixpoint parse_digits (acc : Z) (s : list byte) : option Z :=
  match s with
  | [] => Some acc
  | b :: r =>
      if byte_in b 0x30 0x39 then
        let acc := acc * 10 + (byte.unsigned b - 0x30) in
        if acc <=? u64_max then parse_digits acc r else None
      else None
  end.

Definition parse_u64 (s : list byte) : option Z :=
  match s with
  | [] => None
  | b :: r =>
      if bool_decide (b = Byte.x2b) then (if bool_decide (r = []) then None else parse_digits 0 r)
      else parse_digits 0 s
  end.

(** The entry of a fingerprint after one record. *)
Definition apply_kind (kind : RecordKind) (entry : PersistEntry) : PersistEntry :=
  match kind with
  | Poisoned => mkEntry AES_GCM_NONCE_LIMIT true
  | Count n =>
      let p := if persisted entry <? n then n else persisted entry in
      mkEntry p (if AES_GCM_NONCE_LIMIT <=? n then true else poisoned entry)
  end.

Abbreviation Known := (gmap (list byte) PersistEntry).

Definition update_entry (fp : list byte) (f : PersistEntry -> PersistEntry) (known : Known) : Known :=
  <[fp := f (default PersistEntry_default (known !! fp))]> known.

(** One turn of the loop of [parse_records]: the map and the number of malformed
    lines.  An entry is created before its value is examined. *)
Definition parse_line (acc : Known * Z) (line_bytes : list byte) : Known * Z :=
  let '(out, malformed) := acc in
  match utf8_chars line_bytes with
  | None => (out, malformed + 1)
  | Some line =>
      let trimmed := utf8_encode (trim line) in
      match trimmed with
      | [] => (out, malformed)
      | b :: _ =>
          if bool_decide (b = Byte.x23) then (out, malformed)
          else
            let '(hex, val) := splitn2 trimmed in
            match val with
            | None => (out, malformed + 1)
            | Some val =>
                match parse_hex32 hex with
                | None => (out, malformed + 1)
                | Some fp =>
                    if bool_decide (val = as_bytes "POISONED")
                    then (update_entry fp (apply_kind Poisoned) out, malformed)
                    else match parse_u64 val with
                         | Some n => (update_entry fp (apply_kind (Count n)) out, malformed)
                         | None => (update_entry fp (fun e => e) out, malformed + 1)
                         end
                end
            end
      end
  end.

Definition parse_records (body : list byte) : Known * Z := foldl parse_line (∅, 0) (split_nl body).

(** ** The file *)

Definition starts_with (prefix s : list byte) : bool := bool_decide (prefix `prefix_of` s).

Inductive VersionCheck : Type :=
| V1 (body_offset : Z) (body : list byte)
| Legacy (body : list byte).

Definition check_version (all : list byte) : result VersionCheck GcmError :=
  if starts_with JOURNAL_VERSION_MARKER all
  then Ok (V1 (len JOURNAL_VERSION_MARKER) (drop (length JOURNAL_VERSION_MARKER) all))
  else if starts_with (as_bytes "craton-hsm-gcm-journal ") all then Err GGeneralError
  else Ok (Legacy all).

(** [iter().position(|&b| b == b'\n')] *)
Fixpoint position_nl (s : list byte) : option nat :=
  match s with
  | [] => None
  | b :: r => if bool_decide (b = NL) then Some O else S <$> position_nl r
  end.

Definition MAC_PREFIX : list byte := as_bytes "#MAC ".

Section Journal.
Context `{GcmCrates}.

Definition find_last_subslice (haystack needle : list byte) : option nat := rfind haystack needle.

(** The loop of [split_footer]; the fuel bounds the number of candidate lines. *)
Fixpoint split_footer_loop (fuel : nat) (all : list byte) (search_end : nat)
    : option (list byte * list byte) :=
  match fuel with
  | O => None
  | S fuel =>
      let idx :=
        match find_last_subslice (take search_end all) (NL :: MAC_PREFIX) with
        | Some i => Some (i + 1)%nat
        | None => if starts_with MAC_PREFIX all && (5 <=? search_end)%nat then Some O else None
        end in
      match idx with
      | None => None
      | Some idx =>
          let after := drop idx all in
          let found :=
            match position_nl after with
            | None => None
            | Some nl =>
                let line := take nl after in
                if starts_with MAC_PREFIX line then
                  let rest := drop 5 line in
                  if utf8_valid rest then Some (take idx all, rest) else None
                else None
            end in
          match found with
          | Some r => Some r
          | None => if (idx =? 0)%nat then None else split_footer_loop fuel all (idx - 1)
          end
      end
  end.

Definition split_footer (all : list byte) : option (list byte * list byte) :=
  split_footer_loop (S (length all)) all (length all).

Definition parse_and_check (bytes : list byte) : result Known GcmError :=
  let '(known, malformed) := parse_records bytes in
  if MAX_MALFORMED_RECORDS <? malformed then Err GGeneralError else Ok known.

(** The map, whether the integrity check failed, and the verified length. *)
Definition load_and_verify (all mac_key : list byte) : result (Known * bool * Z) GcmError :=
  (if len all =? 0 then Ok (∅, false, 0)
   else
     try version := check_version all in
     let '(body_offset, body_slice) :=
       match version with V1 off body => (off, body) | Legacy body => (0, body) end in
     match split_footer body_slice with
     | None => try known := parse_and_check body_slice in Ok (known, false, len all)
     | Some (body, footer_tag) =>
         let mac_input :=
           (if 0 <? body_offset then take (Z.to_nat body_offset) all else []) ++ body in
         let expected := hmac_sha256 mac_key mac_input in
         match decode_hex_bytes footer_tag with
         | Some b =>
             if len b =? len expected then
               if bool_decide (expected = b) then
                 try known := parse_and_check body in
                 Ok (known, false, body_offset + len body + 5 + len footer_tag + 1)
               else try known := parse_and_check body in Ok (known, true, 0)
             else try known := parse_and_check body in Ok (known, true, 0)
         | None => try known := parse_and_check body in Ok (known, true, 0)
         end
     end)%rust.

Definition read_without_footer_or_marker (all : list byte) : list byte :=
  let marker_stripped :=
    if starts_with JOURNAL_VERSION_MARKER all then drop (length JOURNAL_VERSION_MARKER) all else all in
  match split_footer marker_stripped with
  | Some (body, _) => body
  | None => marker_stripped
  end.

(** ** The journal in memory *)

Record FileBacked : Type := mkFileBacked {
  fb_file : list byte;
  fb_mac_key : list byte;
  fb_known : Known;
  fb_integrity_failed : bool;
  fb_body_cache : list byte;
  fb_appended_records : Z;
}.

Definition set_known (k : Known) (fb : FileBacked) : FileBacked :=
  mkFileBacked (fb_file fb) (fb_mac_key fb) k (fb_integrity_failed fb) (fb_body_cache fb)
    (fb_appended_records fb).
Definition set_file (f : list byte) (fb : FileBacked) : FileBacked :=
  mkFileBacked f (fb_mac_key fb) (fb_known fb) (fb_integrity_failed fb) (fb_body_cache fb)
    (fb_appended_records fb).
Definition set_body (b : list byte) (n : Z) (fb : FileBacked) : FileBacked :=
  mkFileBacked (fb_file fb) (fb_mac_key fb) (fb_known fb) (fb_integrity_failed fb) b n.

(** [legacy_key] is the key of [derive_mac_key_v1], [sentinel] whether the sidecar file
    exists. *)
Definition file_backed (file mac_key legacy_key : list byte) (sentinel : bool)
    : result FileBacked GcmError :=
  (try first := load_and_verify file mac_key in
   let '(known, integrity_failed, valid_len) := first in
   let '(known, integrity_failed, valid_len) :=
     if integrity_failed && negb (starts_with JOURNAL_VERSION_MARKER file) then
       if sentinel then (known, integrity_failed, valid_len)
       else match load_and_verify file legacy_key with
            | Ok (k, false, v) => (k, false, v)
            | _ => (known, integrity_failed, valid_len)
            end
     else (known, integrity_failed, valid_len) in
   let file :=
     if negb integrity_failed && (valid_len <? len file) then take (Z.to_nat valid_len) file
     else file in
   let body_cache := read_without_footer_or_marker file in
   let appended_records := len (filter (fun b => b = NL) body_cache) in
   Ok (mkFileBacked file mac_key known integrity_failed body_cache appended_records))%rust.

Definition fb_persisted_state (fp : list byte) (fb : FileBacked) : Z * bool :=
  if fb_integrity_failed fb && bool_decide (is_Some (fb_known fb !! fp))
  then (AES_GCM_NONCE_LIMIT, true)
  else match fb_known fb !! fp with
       | Some e => (persisted e, poisoned e)
       | None => (0, false)
       end.

(** How a rewrite of the file ends: done; failed before the rename, which leaves the
    old file; failed after it. *)
Inductive Io : Type := IoDone | IoFailedBefore | IoFailedAfter.

Definition payload (mac_key body : list byte) : list byte :=
  let tag := hmac_sha256 mac_key (JOURNAL_VERSION_MARKER ++ body) in
  let footer := MAC_PREFIX ++ hex_bytes tag ++ [NL] in
  JOURNAL_VERSION_MARKER ++ body ++ footer.

Definition flush_body_to_disk (io : Io) (fb : FileBacked) : result unit GcmError * FileBacked :=
  let new_file := payload (fb_mac_key fb) (fb_body_cache fb) in
  match io with
  | IoDone => (Ok tt, set_file new_file fb)
  | IoFailedBefore => (Err GGeneralError, fb)
  | IoFailedAfter => (Err GGeneralError, set_file new_file fb)
  end.

(** The order of [sort_unstable] on fingerprints. *)
Fixpoint fp_leb (a b : list byte) : bool :=
  match a, b with
  | [], _ => true
  | _ :: _, [] => false
  | x :: a, y :: b =>
      if byte.unsigned x <? byte.unsigned y then true
      else if byte.unsigned y <? byte.unsigned x then false else fp_leb a b
  end.

Definition fp_le (a b : list byte) : Prop := fp_leb a b = true.
#[global] Instance fp_le_dec : RelDecision fp_le.
Proof. intros a b. unfold fp_le. solve_decision. Defined.

Definition compact_line (known : Known) (fp : list byte) : list byte :=
  match known !! fp with
  | None => []
  | Some entry =>
      if poisoned entry then hex_bytes fp ++ as_bytes " POISONED" ++ [NL]
      else if 0 <? persisted entry
      then hex_bytes fp ++ [Byte.x20] ++ as_bytes (pretty (persisted entry)) ++ [NL]
      else []
  end.

Definition compact_keys (known : Known) : list (list byte) :=
  merge_sort fp_le ((map_to_list known).*1).

Definition compact_journal (io : Io) (fb : FileBacked) : result unit GcmError * FileBacked :=
  let keys := compact_keys (fb_known fb) in
  let lines := concat (map (compact_line (fb_known fb)) keys) in
  flush_body_to_disk io (set_body lines (len keys) fb).

Definition needs_compaction (fb : FileBacked) : bool :=
  (COMPACTION_BYTES_THRESHOLD <? len (fb_body_cache fb))
  || (COMPACTION_RECORDS_THRESHOLD <? fb_appended_records fb).

Definition append_record (io : Io) (fp : list byte) (kind : RecordKind) (fb : FileBacked)
    : result unit GcmError * FileBacked :=
  let fb := set_body (fb_body_cache fb ++ record_line fp kind) (fb_appended_records fb + 1) fb in
  if needs_compaction fb then compact_journal io fb else flush_body_to_disk io fb.

Definition fb_record_advance (io : Io) (fp : list byte) (new_count : Z) (fb : FileBacked)
    : result unit GcmError * FileBacked :=
  if fb_integrity_failed fb then (Err GGeneralError, fb)
  else
    let '(is_new, current_persisted) :=
      match fb_known fb !! fp with
      | Some e => (persisted e =? 0, persisted e)
      | None => (true, 0)
      end in
    if negb is_new && (new_count <=? current_persisted) then (Ok tt, fb)
    else
      let ceiling := Z.min (saturating_add new_count BATCH_THRESHOLD) AES_GCM_NONCE_LIMIT in
      match append_record io fp (Count ceiling) fb with
      | (Err e, fb) => (Err e, fb)
      | (Ok _, fb) =>
          (Ok tt, set_known (update_entry fp (fun e => mkEntry ceiling (poisoned e)) (fb_known fb)) fb)
      end.

Definition fb_flush_fingerprint (io : Io) (fp : list byte) (new_count : Z) (fb : FileBacked)
    : result unit GcmError * FileBacked :=
  if fb_integrity_failed fb then (Err GGeneralError, fb)
  else
    let current_persisted := match fb_known fb !! fp with Some e => persisted e | None => 0 end in
    if new_count <=? current_persisted then (Ok tt, fb)
    else match append_record io fp (Count new_count) fb with
         | (Err e, fb) => (Err e, fb)
         | (Ok _, fb) =>
             (Ok tt, set_known (update_entry fp (fun e => mkEntry new_count (poisoned e)) (fb_known fb)) fb)
         end.

Definition fb_record_poison (io : Io) (fp : list byte) (fb : FileBacked)
    : result unit GcmError * FileBacked :=
  if fb_integrity_failed fb then (Ok tt, fb)
  else match append_record io fp Poisoned fb with
       | (Err e, fb) => (Err e, fb)
       | (Ok _, fb) =>
           (Ok tt, set_known (update_entry fp (fun _ => mkEntry AES_GCM_NONCE_LIMIT true) (fb_known fb)) fb)
       end.

(** *** The methods, with or without a file *)

Inductive JournalInner : Type := InMemory | WithFile (fb : FileBacked).

Definition persisted_state (fp : list byte) (p : JournalInner) : Z * bool :=
  match p with InMemory => (0, false) | WithFile fb => fb_persisted_state fp fb end.

Definition lift_file (r : result unit GcmError * FileBacked) : result unit GcmError * JournalInner :=
  let '(res, fb) := r in (res, WithFile fb).

Definition record_advance (io : Io) (fp : list byte) (new_count : Z) (p : JournalInner)
    : result unit GcmError * JournalInner :=
  match p with
  | InMemory => (Ok tt, p)
  | WithFile fb => lift_file (fb_record_advance io fp new_count fb)
  end.

Definition flush_fingerprint (io : Io) (fp : list byte) (new_count : Z) (p : JournalInner)
    : result unit GcmError * JournalInner :=
  match p with
  | InMemory => (Ok tt, p)
  | WithFile fb => lift_file (fb_flush_fingerprint io fp new_count fb)
  end.

Definition record_poison (io : Io) (fp : list byte) (p : JournalInner) : result unit GcmError * JournalInner :=
  match p with
  | InMemory => (Ok tt, p)
  | WithFile fb => lift_file (fb_record_poison io fp fb)
  end.

(** ** The key of the MAC

    [env] is the variable [CRATON_HSM_GCM_JOURNAL_KEY], [canon] the canonical path and
    the file's identity (device and inode) when the file exists. *)

Definition derive_mac_key_v1 (path : list byte) : list byte :=
  sha256 (as_bytes "craton-hsm-gcm-counter-v1" ++ path).

Definition derive_mac_key_v2 (path : list byte) (canon : option (list byte * option (list byte)))
    : list byte :=
  let '(canon_bytes, id_bytes) := match canon with Some c => c | None => (path, None) end in
  let h := as_bytes "craton-hsm-gcm-counter-v2" ++ Byte.x00 :: as_bytes "path:" ++ canon_bytes in
  sha256 (match id_bytes with Some id => h ++ Byte.x00 :: as_bytes "id:" ++ id | None => h end).

Definition derive_mac_key (env : option (list byte)) (path : list byte)
    (canon : option (list byte * option (list byte))) : list byte :=
  match env with
  | Some hex =>
      match (if len hex =? 64 then decode_chunks hex else None) with
      | Some out =>
          sha256 (as_bytes "craton-hsm-gcm-counter-env-v1" ++ out ++ Byte.x00 :: as_bytes "path:" ++ path)
      | None => derive_mac_key_v2 path canon
      end
  | None => derive_mac_key_v2 path canon
  end.

(** ** The counters of the process ([lib.rs]) *)

Definition GCM_COUNTER_MAP_SOFT_CAP : Z := 1000000.
Definition GCM_POISONED_HARD_CAP : Z := 1048576.
Definition GCM_LOAD_TIME_POISON_WINDOW : Z := 1024.

Record GcmState : Type := mkGcm {
  gs_counters : gmap (list byte) Z;
  gs_poisoned : gset (list byte);
  gs_persist : JournalInner;
}.

Definition set_counters (c : gmap (list byte) Z) (st : GcmState) : GcmState :=
  mkGcm c (gs_poisoned st) (gs_persist st).
Definition set_poisoned (p : gset (list byte)) (st : GcmState) : GcmState :=
  mkGcm (gs_counters st) p (gs_persist st).
Definition set_persist (p : JournalInner) (st : GcmState) : GcmState :=
  mkGcm (gs_counters st) (gs_poisoned st) p.

Definition key_fingerprint (key : list byte) : list byte := sha256 key.

Definition poison_insert_capped (fp : list byte) (st : GcmState) : result unit GcmError * GcmState :=
  if bool_decide (fp ∈ gs_poisoned st) then (Ok tt, st)
  else if GCM_POISONED_HARD_CAP <=? Z.of_nat (size (gs_poisoned st)) then (Err GDeviceMemory, st)
  else (Ok tt, set_poisoned ({[ fp ]} ∪ gs_poisoned st) st).

(** [fp_hash]: the exclusive or of the four little-endian words. *)
Fixpoint fp_hash_chunks (n : nat) (fp : list byte) (acc : Z) : Z :=
  match n with
  | O => acc
  | S n => fp_hash_chunks n (drop 8 fp) (Z.lxor acc (le_combine (take 8 fp)))
  end.
Definition fp_hash (fp : list byte) : Z := fp_hash_chunks (length fp / 8) fp 0.

(** [BinaryHeap<(u64, u64)>] as a list: [peek] is a maximum, [pop] removes one. *)
Definition pair_lt (a b : Z * Z) : bool := (a.1 <? b.1) || ((a.1 =? b.1) && (a.2 <? b.2)).

Fixpoint heap_peek (h : list (Z * Z)) : option (Z * Z) :=
  match h with
  | [] => None
  | x :: r => match heap_peek r with
              | Some y => Some (if pair_lt x y then y else x)
              | None => Some x
              end
  end.

Fixpoint remove_one (x : Z * Z) (h : list (Z * Z)) : list (Z * Z) :=
  match h with
  | [] => []
  | y :: r => if bool_decide (y = x) then r else y :: remove_one x r
  end.

Definition heap_pop (h : list (Z * Z)) : list (Z * Z) :=
  match heap_peek h with Some x => remove_one x h | None => h end.

Definition heap_offer (heap_cap : nat) (h : list (Z * Z)) (key : Z * Z) : list (Z * Z) :=
  if (length h <? heap_cap)%nat then key :: h
  else match heap_peek h with
       | Some top => if pair_lt key top then key :: heap_pop h else h
       | None => h
       end.

Definition evict_gcm_counters `{MapIter} (max_entries : nat) (st : GcmState)
    : result unit GcmError * GcmState :=
  if (size (gs_counters st) <=? max_entries)%nat then (Ok tt, st)
  else
    let st := set_counters (filter (fun kv => kv.2 < AES_GCM_NONCE_LIMIT) (gs_counters st)) st in
    if (size (gs_counters st) <=? max_entries)%nat then (Ok tt, st)
    else
      let evict_count := (size (gs_counters st) - max_entries)%nat in
      let heap_cap := S evict_count in
      let heap :=
        foldl (fun h kv => heap_offer heap_cap h (kv.2, fp_hash kv.1)) [] (iter (gs_counters st)) in
      match heap_peek heap with
      | None => (Ok tt, st)
      | Some threshold =>
          let st := set_counters
            (filter (fun kv => pair_lt (kv.2, fp_hash kv.1) threshold = false) (gs_counters st)) st in
          if (max_entries <? size (gs_counters st))%nat then (Err GDeviceMemory, st) else (Ok tt, st)
      end.

Definition reset_gcm_counter (key : list byte) (st : GcmState) : GcmState :=
  let fp := key_fingerprint key in
  if bool_decide (fp ∈ gs_poisoned st) then st
  else set_counters (delete fp (gs_counters st)) st.

(** The writes of one call: at load time, at the limit, and for the advance. *)
Record UsageIo : Type := mkUsageIo { io_load : Io; io_limit : Io; io_advance : Io }.

(** The first part of [check_gcm_usage], up to the refusal of poisoned keys: the
    persisted base of a key that may be used. *)
Definition usage_admission (io : Io) (fp : list byte) (st : GcmState)
    : result Z GcmError * GcmState :=
  let '(persisted_base, disk_poisoned) := persisted_state fp (gs_persist st) in
  let '(r, st) := if disk_poisoned then poison_insert_capped fp st else (Ok tt, st) in
  match r with
  | Err e => (Err e, st)
  | Ok _ =>
      let near_limit :=
        negb disk_poisoned && negb (persisted_base =? 0)
        && (saturating_sub AES_GCM_NONCE_LIMIT GCM_LOAD_TIME_POISON_WINDOW <=? persisted_base)
        && negb (bool_decide (fp ∈ gs_poisoned st)) in
      let '(r, st) :=
        if near_limit then
          match poison_insert_capped fp st with
          | (Err e, st) => (Err e, st)
          | (Ok _, st) =>
              let '(_, p) := record_poison io fp (gs_persist st) in (Ok tt, set_persist p st)
          end
        else (Ok tt, st) in
      match r with
      | Err e => (Err e, st)
      | Ok _ =>
          if bool_decide (fp ∈ gs_poisoned st) then (Err GKeyFunctionNotPermitted, st)
          else (Ok persisted_base, st)
      end
  end.

(** The rest, up to the write-through, from the base that was read: the number of this use. *)
Definition finish_use (io : UsageIo) (fp : list byte) (persisted_base : Z) (st : GcmState)
    : result Z GcmError * GcmState :=
  let cur := default persisted_base (gs_counters st !! fp) in
  let next := saturating_add cur 1 in
  if AES_GCM_NONCE_LIMIT <=? next then
    let st := set_counters (<[fp := cur]> (gs_counters st)) st in
    let '(_, st) := poison_insert_capped fp st in
    let st := set_counters (delete fp (gs_counters st)) st in
    let '(_, p) := record_poison (io_limit io) fp (gs_persist st) in
    (Err GKeyFunctionNotPermitted, set_persist p st)
  else
    let st := set_counters (<[fp := next]> (gs_counters st)) st in
    let new_count := saturating_add cur 1 in
    match record_advance (io_advance io) fp new_count (gs_persist st) with
    | (Err e, p) => (Err e, set_persist p st)
    | (Ok _, p) => (Ok new_count, set_persist p st)
    end.

Definition count_use (io : UsageIo) (fp : list byte) (st : GcmState)
    : result Z GcmError * GcmState :=
  match usage_admission (io_load io) fp st with
  | (Err e, st) => (Err e, st)
  | (Ok persisted_base, st) => finish_use io fp persisted_base st
  end.

Definition EVICT_TRIGGER : Z := GCM_COUNTER_MAP_SOFT_CAP + GCM_COUNTER_MAP_SOFT_CAP / 20.

Definition check_gcm_usage `{MapIter} (io : UsageIo) (key : list byte) (st : GcmState)
    : result unit GcmError * GcmState :=
  match count_use io (key_fingerprint key) st with
  | (Err e, st) => (Err e, st)
  | (Ok _, st) =>
      if EVICT_TRIGGER <? Z.of_nat (size (gs_counters st))
      then evict_gcm_counters (Z.to_nat GCM_COUNTER_MAP_SOFT_CAP) st
      else (Ok tt, st)
  end.

End Journal.
