(* ===== verification/GcmCounterProofs.v ===== *)
(** * Correctness of the AES-GCM counters

    Records and files round-trip; the order of reservations in memory, in the cached
    body and on disk; the budget of a key over crashes and restarts.  Then the two
    ways in which the journal falls short of its documentation. *)

From coqutil Require Import Byte Word.LittleEndianList.
From stdpp Require Import prelude gmap strings list sorting pretty relations.
From Stdlib Require Import ZArith Lia.
From S2P Require Import Prelude RustStd GcmCounter.
Local Open Scope string_scope.
Local Open Scope list_scope.
Local Open Scope Z_scope.

(** ** Hexadecimal and decimal numbers *)

Lemma hex_pair_decode b :
  exists c0 c1 hi lo, hex_pair b = [c0; c1] /\ hex_nib c0 = Some hi /\ hex_nib c1 = Some lo
    /\ byte.of_Z (Z.lor (Z.shiftl hi 4) lo) = b.
Proof. destruct b; do 4 eexists; (split; [reflexivity|]); (split; [reflexivity|]); by split. Qed.

Lemma decode_hex_bytes_chunks bs : decode_chunks (hex_bytes bs) = Some bs.
Proof.
  induction bs as [|b bs IH]; [done|].
  destruct (hex_pair_decode b) as (c0 & c1 & hi & lo & Hp & H0 & H1 & Hb).
  unfold hex_bytes in *. cbn [map concat]. rewrite Hp. cbn [app decode_chunks].
  rewrite H0, H1. simpl. rewrite IH. simpl. by rewrite Hb.
Qed.

Lemma hex_bytes_len bs : len (hex_bytes bs) = 2 * len bs.
Proof.
  induction bs as [|b bs IH]; [done|]. unfold hex_bytes in *. cbn [map concat].
  rewrite len_app, IH, len_cons. unfold hex_pair. rewrite !len_cons, len_nil. lia.
Qed.

Lemma push_hex_bytes_app out bs : push_hex_bytes out bs = out ++ hex_bytes bs.
Proof.
  revert out. induction bs as [|b bs IH]; intros out; [by rewrite app_nil_r|].
  cbn [push_hex_bytes foldl]. unfold push_hex_bytes in IH. rewrite IH.
  unfold hex_bytes. cbn [map concat]. by rewrite app_assoc.
Qed.

Lemma parse_hex32_hex fp : length fp = 32%nat -> parse_hex32 (hex_bytes fp) = Some fp.
Proof.
  intros Hl. unfold parse_hex32. rewrite hex_bytes_len. unfold len. rewrite Hl.
  apply decode_hex_bytes_chunks.
Qed.

Lemma decode_hex_bytes_hex bs : decode_hex_bytes (hex_bytes bs) = Some bs.
Proof.
  unfold decode_hex_bytes. rewrite hex_bytes_len, Z.mul_comm, Z.mod_mul by done.
  apply decode_hex_bytes_chunks.
Qed.

(** Printable ASCII without the blank and without [#]. *)
Definition plain (b : byte) : bool := byte_in b 0x24 0x7E.

Lemma hex_bytes_plain bs : Forall (fun b => plain b = true) (hex_bytes bs).
Proof.
  induction bs as [|b bs IH]; [constructor|]. unfold hex_bytes in *. cbn [map concat].
  apply Forall_app. split; [|done]. unfold hex_pair. repeat constructor; by destruct b.
Qed.

(** The digits that [pretty] prints, read back. *)
Lemma pretty_char_plain d :
  (d < 10)%N ->
  let b := Ascii.byte_of_ascii (pretty_N_char d) in
  byte_in b 0x30 0x39 = true /\ byte.unsigned b - 0x30 = Z.of_N d /\ plain b = true.
Proof.
  intros Hd b. destruct (pretty_char_digit d Hd) as [H1 H2]. fold b in H1, H2. split_and!; [done..|].
  unfold plain, byte_in in *. clearbody b. by destruct b.
Qed.

Lemma parse_pretty_go x s :
  exists k, 0 <= k /\ forall acc, 0 <= acc -> acc * 10 ^ k + Z.of_N x <= u64_max ->
    parse_digits acc (as_bytes (pretty_N_go x s)) = parse_digits (acc * 10 ^ k + Z.of_N x) (as_bytes s).
Proof.
  revert s. induction (N.lt_wf_0 x) as [x _ IH]; intros s.
  assert (x = 0 \/ 0 < x)%N as [->|Hx] by lia.
  { exists 0. split; [done|]. intros acc _ _. rewrite pretty_N_go_0. f_equal. lia. }
  destruct (IH (x `div` 10)%N (N.div_lt x 10 Hx ltac:(lia)) (String (pretty_N_char (x `mod` 10)) s))
    as (k & Hk & Hp).
  destruct (pretty_char_plain (x `mod` 10)) as (Hd1 & Hd2 & _); [by apply N.mod_lt|].
  assert (Z.of_N x = 10 * Z.of_N (x `div` 10) + Z.of_N (x `mod` 10)) as Hdm
    by (pose proof (N.div_mod x 10 ltac:(done)); lia).
  exists (k + 1). split; [lia|]. intros acc Ha Hm. rewrite Z.pow_add_r, Z.pow_1_r in * by lia.
  assert (0 <= acc * 10 ^ k) by (apply Z.mul_nonneg_nonneg; [done|apply Z.pow_nonneg; lia]).
  assert (acc * (10 ^ k * 10) = 10 * (acc * 10 ^ k)) as Hmul by ring.
  rewrite pretty_N_go_step by done. rewrite Hp; [|done|].
  2:{ pose proof (N2Z.is_nonneg (x `div` 10)). pose proof (N2Z.is_nonneg (x `mod` 10)).
      generalize dependent (Z.of_N (x `div` 10)). generalize dependent (Z.of_N (x `mod` 10)).
      generalize dependent (acc * 10 ^ k). intros. lia. }
  rewrite as_bytes_cons. cbn [parse_digits]. rewrite Hd1, Hd2.
  replace ((acc * 10 ^ k + Z.of_N (x `div` 10)) * 10 + Z.of_N (x `mod` 10))
    with (acc * (10 ^ k * 10) + Z.of_N x) by lia.
  by rewrite (proj2 (Z.leb_le _ _)) by done.
Qed.

Lemma pretty_go_plain x s :
  Forall (fun b => plain b = true) (as_bytes s) ->
  Forall (fun b => plain b = true) (as_bytes (pretty_N_go x s)).
Proof.
  revert s. induction (N.lt_wf_0 x) as [x _ IH]; intros s Hs.
  assert (x = 0 \/ 0 < x)%N as [->|Hx] by lia; [by rewrite pretty_N_go_0|].
  rewrite pretty_N_go_step by done. apply IH; [apply N.div_lt; lia|].
  rewrite as_bytes_cons. constructor; [|done]. apply pretty_char_plain. by apply N.mod_lt.
Qed.

Lemma pretty_go_nonempty x s : (0 < x)%N -> exists b r, as_bytes (pretty_N_go x s) = b :: r /\ plain b = true /\ b <> Byte.x2b.
Proof.
  revert s. induction (N.lt_wf_0 x) as [x _ IH]; intros s Hx.
  rewrite pretty_N_go_step by done.
  destruct (N.eq_0_gt_0_cases (x `div` 10)) as [E|Hlt].
  - rewrite E, pretty_N_go_0, as_bytes_cons. do 2 eexists. split; [done|].
    destruct (pretty_char_plain (x `mod` 10)) as (H1 & _ & H3); [by apply N.mod_lt|].
    split; [done|]. intros Eq. by rewrite Eq in H1.
  - apply IH; [apply N.div_lt; lia|done].
Qed.

Lemma parse_pretty n : 0 <= n <= u64_max -> parse_u64 (as_bytes (pretty n)) = Some n.
Proof.
  intros Hn. destruct n as [|p|p]; [done| |lia]. rewrite pretty_pos.
  destruct (pretty_go_nonempty (N.pos p) "") as (b & r & E & _ & Hb); [done|].
  unfold parse_u64. rewrite E. rewrite bool_decide_eq_false_2 by done. rewrite <- E.
  destruct (parse_pretty_go (N.pos p) "") as (k & _ & Hp). by rewrite Hp by (simpl; lia).
Qed.

Lemma pretty_plain n :
  0 <= n -> Forall (fun b => plain b = true) (as_bytes (pretty n)) /\ as_bytes (pretty n) <> [].
Proof.
  intros Hn. destruct n as [|p|p]; [by split; [repeat constructor|]| |lia]. rewrite pretty_pos.
  split; [apply pretty_go_plain; constructor|].
  destruct (pretty_go_nonempty (N.pos p) "") as (b & r & -> & _); done.
Qed.

(** ** Lines *)

Lemma plain_ascii b : plain b = true -> ascii_byte b.
Proof. unfold plain, byte_in, ascii_byte. intros. bool_to_prop. lia. Qed.

Lemma plain_not_white b : plain b = true -> is_whitespace (byte.unsigned b) = false.
Proof. by destruct b. Qed.

Lemma trim_id cs :
  (forall c, head cs = Some c -> is_whitespace c = false) ->
  (forall c, last cs = Some c -> is_whitespace c = false) -> trim cs = cs.
Proof.
  intros Hh Hl. unfold trim.
  assert (drop_while is_whitespace cs = cs) as ->.
  { destruct cs as [|c r]; [done|]. simpl. by rewrite (Hh c eq_refl). }
  assert (drop_while is_whitespace (rev cs) = rev cs) as ->; [|apply rev_involutive].
  destruct (rev cs) as [|c r] eqn:E; [done|]. simpl. rewrite (Hl c); [done|].
  rewrite <- (rev_involutive cs), E. simpl. by rewrite last_snoc.
Qed.

(** A line of two plain words. *)
Lemma parse_two_words out m hex val :
  Forall (fun b => plain b = true) hex -> hex <> [] ->
  Forall (fun b => plain b = true) val -> val <> [] ->
  parse_line (out, m) (hex ++ Byte.x20 :: val) =
    match parse_hex32 hex with
    | None => (out, m + 1)
    | Some fp =>
        if bool_decide (val = as_bytes "POISONED") then (update_entry fp (apply_kind Poisoned) out, m)
        else match parse_u64 val with
             | Some n => (update_entry fp (apply_kind (Count n)) out, m)
             | None => (update_entry fp (fun e => e) out, m + 1)
             end
    end.
Proof.
  intros Hh Hhn Hv Hvn. unfold parse_line.
  assert (Forall ascii_byte (hex ++ Byte.x20 :: val)) as Hasc.
  { apply Forall_app. split; [|constructor; [done|]]; eapply Forall_impl; eauto using plain_ascii. }
  rewrite utf8_chars_ascii by done. rewrite trim_id.
  - rewrite utf8_encode_ascii by done. destruct hex as [|b hex]; [done|]. cbn [app].
    apply Forall_cons in Hh as [Hb Hh]. rewrite bool_decide_eq_false_2 by (intros ->; done).
    assert (splitn2 (b :: hex ++ Byte.x20 :: val) = (b :: hex, Some val)) as ->; [|done].
    assert (forall l, Forall (fun b => plain b = true) l -> splitn2 (l ++ Byte.x20 :: val) = (l, Some val)) as Hs.
    { induction 1 as [|x l Hx _ IH]; [done|]. cbn [app splitn2].
      rewrite bool_decide_eq_false_2 by (intros ->; done). by rewrite IH. }
    apply (Hs (b :: hex)). by constructor.
  - destruct hex as [|b hex]; [done|]. cbn. intros c [= <-].
    apply Forall_cons in Hh as [Hb _]. by apply plain_not_white.
  - destruct (rev val) as [|b r] eqn:E; [by destruct Hvn; rewrite <- (rev_involutive val), E|].
    assert (val = rev r ++ [b]) as -> by (rewrite <- (rev_involutive val), E; done).
    intros c. rewrite app_comm_cons, app_assoc, map_app. cbn [map]. rewrite last_snoc. intros [= <-].
    apply plain_not_white. by apply Forall_app in Hv as [_ [? _]%Forall_cons].
Qed.

(** Records that the journal writes. *)
Definition kind_ok (k : RecordKind) : Prop := match k with Count n => 0 <= n <= u64_max | Poisoned => True end.
Definition rec_ok (r : list byte * RecordKind) : Prop := length r.1 = 32%nat /\ kind_ok r.2.

Definition kind_text (k : RecordKind) : list byte :=
  match k with Count n => as_bytes (pretty n) | Poisoned => as_bytes "POISONED" end.

Lemma record_line_eq fp k : record_line fp k = (hex_bytes fp ++ Byte.x20 :: kind_text k) ++ [NL].
Proof.
  unfold record_line. rewrite push_hex_bytes_app. cbn [app].
  destruct k; by rewrite <- (app_assoc (hex_bytes fp)).
Qed.

Lemma kind_text_plain k : kind_ok k -> Forall (fun b => plain b = true) (kind_text k) /\ kind_text k <> [].
Proof. destruct k; simpl; [intros; apply pretty_plain; lia|split; [repeat constructor|done]]. Qed.

Lemma parse_record out m fp k :
  length fp = 32%nat -> kind_ok k ->
  parse_line (out, m) (hex_bytes fp ++ Byte.x20 :: kind_text k) = (update_entry fp (apply_kind k) out, m).
Proof.
  intros Hl Hk. destruct (kind_text_plain k Hk) as [Hp Hn].
  rewrite parse_two_words; [|apply hex_bytes_plain| |done|done].
  2:{ destruct fp; [done|]. by destruct b. }
  rewrite parse_hex32_hex by done. destruct k as [n|]; simpl; [|done].
  rewrite parse_pretty by done. rewrite bool_decide_eq_false_2; [done|]. intros E.
  assert (parse_u64 (as_bytes (pretty n)) = None) as Hx by (rewrite E; done).
  by rewrite parse_pretty in Hx.
Qed.

(** ** Bodies *)

Definition render (recs : list (list byte * RecordKind)) : list byte :=
  concat (map (fun r => record_line r.1 r.2) recs).

Definition apply_rec (known : Known) (r : list byte * RecordKind) : Known :=
  update_entry r.1 (apply_kind r.2) known.

Lemma split_nl_line l rest :
  Forall (fun b => b <> NL) l -> split_nl (l ++ NL :: rest) = l :: split_nl rest.
Proof.
  induction 1 as [|b l Hb _ IH]; [done|]. cbn [app split_nl].
  rewrite bool_decide_eq_false_2 by done. by rewrite IH.
Qed.

Lemma line_no_nl fp k : kind_ok k -> Forall (fun b => b <> NL) (hex_bytes fp ++ Byte.x20 :: kind_text k).
Proof.
  intros Hk. assert (forall l, Forall (fun b => plain b = true) l -> Forall (fun b => b <> NL) l) as Hp.
  { intros l Hl. eapply Forall_impl; [exact Hl|]. intros b Hb ->. done. }
  apply Forall_app. split; [apply Hp, hex_bytes_plain|]. constructor; [done|]. by apply Hp, kind_text_plain.
Qed.

Lemma render_cons fp k recs :
  render ((fp, k) :: recs) = (hex_bytes fp ++ Byte.x20 :: kind_text k) ++ NL :: render recs.
Proof. unfold render. cbn [map concat]. by rewrite record_line_eq, <- (app_assoc _ [NL]). Qed.

Lemma render_snoc recs r : render (recs ++ [r]) = render recs ++ record_line r.1 r.2.
Proof. unfold render. rewrite map_app, concat_app. simpl. by rewrite app_nil_r. Qed.

Lemma parse_render recs known m :
  Forall rec_ok recs ->
  foldl parse_line (known, m) (split_nl (render recs)) = (foldl apply_rec known recs, m).
Proof.
  intros Hr. revert known. induction Hr as [|[fp k] recs [Hl Hk] _ IH]; intros known.
  - done.
  - rewrite render_cons, split_nl_line by (by apply line_no_nl).
    cbn [foldl]. rewrite parse_record by done. apply IH.
Qed.

(** The records of a body, as a map. *)
Definition journal_map (recs : list (list byte * RecordKind)) : Known := foldl apply_rec ∅ recs.

(** The text of the records round-trips: parsing the lines that were written for
    any sequence of records finds no malformed line and gives the map that applying
    the records in order gives. *)
Theorem records_roundtrip recs :
  Forall rec_ok recs -> parse_records (render recs) = (journal_map recs, 0).
Proof. apply parse_render. Qed.

(** ** Files *)

Lemma no_nl_occurs x m i :
  Forall (fun b => b <> NL) x -> m <> [] -> ~ occurs_at (NL :: m) (x ++ [NL]) i.
Proof.
  intros Hx Hm [k Hk]. destruct (decide (i < length x)%nat) as [Hi|Hi].
  - rewrite drop_app_le in Hk by lia. apply (Forall_drop _ i) in Hx.
    destruct (drop i x) as [|b r] eqn:E.
    + apply (f_equal length) in E. rewrite length_drop in E. simpl in E. lia.
    + cbn [app] in Hk. injection Hk as -> _. by apply Forall_cons in Hx as [? _].
  - rewrite drop_app_ge in Hk by lia.
    apply (f_equal length) in Hk. rewrite length_drop in Hk. simpl in Hk. rewrite length_app in Hk.
    destruct m; [done|]. simpl in Hk. lia.
Qed.

Lemma position_nl_app x r : Forall (fun b => b <> NL) x -> position_nl (x ++ NL :: r) = Some (length x).
Proof.
  induction 1 as [|b x Hb _ IH]; [done|]. cbn [app position_nl].
  rewrite bool_decide_eq_false_2 by done. by rewrite IH.
Qed.

Lemma render_ends recs : recs = [] \/ exists b, render recs = b ++ [NL].
Proof.
  destruct recs as [|r recs _] using rev_ind; [by left|right].
  rewrite render_snoc, record_line_eq. eexists. by rewrite app_assoc.
Qed.

Section Files.
Context {GC : GcmCrates} {GL : GcmCratesLaws}.

(** The footer is found again behind any rendered body. *)
Lemma split_footer_render recs t :
  Forall (fun b => plain b = true) t ->
  split_footer (render recs ++ MAC_PREFIX ++ t ++ [NL]) = Some (render recs, t).
Proof.
  intros Ht. set (all := render recs ++ MAC_PREFIX ++ t ++ [NL]).
  assert (Forall (fun b => b <> NL) (MAC_PREFIX ++ t)) as Hnl.
  { apply Forall_app. split; [repeat constructor; done|].
    eapply Forall_impl; [exact Ht|]. intros b Hb ->. done. }
  assert (forall j, (length (render recs) <= j)%nat -> ~ occurs_at (NL :: MAC_PREFIX) all j) as Hlate.
  { intros j Hj Ho. apply (no_nl_occurs _ MAC_PREFIX (j - length (render recs)) Hnl); [done|].
    unfold occurs_at, all in *. rewrite drop_app_ge in Ho by lia. by rewrite <- app_assoc. }
  assert (match find_last_subslice (take (length all) all) (NL :: MAC_PREFIX) with
          | Some i => Some (i + 1)%nat
          | None => if starts_with MAC_PREFIX all && (5 <=? length all)%nat then Some O else None
          end = Some (length (render recs))) as Hidx.
  { rewrite firstn_all. unfold find_last_subslice. destruct (render_ends recs) as [->|[b Hb]].
    - rewrite rfind_none by (intros i; apply Hlate; simpl; lia).
      unfold starts_with. rewrite bool_decide_eq_true_2 by (exists (t ++ [NL]); done). done.
    - rewrite (rfind_last _ _ (length b)).
      + rewrite Hb, length_app. done.
      + unfold occurs_at, all. rewrite Hb, <- app_assoc, drop_app_length. by exists (t ++ [NL]).
      + intros j Hj. destruct (decide (j <= length b)%nat) as [|Hn]; [done|].
        exfalso. apply (Hlate j); [|done]. rewrite Hb, length_app. simpl. lia. }
  unfold split_footer. cbn [split_footer_loop]. rewrite Hidx.
  assert (drop (length (render recs)) all = (MAC_PREFIX ++ t) ++ NL :: []) as ->.
  { unfold all. rewrite drop_app_length. by rewrite <- app_assoc. }
  rewrite position_nl_app by done. rewrite take_app_length.
  unfold starts_with. rewrite bool_decide_eq_true_2 by (by exists t).
  change 5%nat with (length MAC_PREFIX). rewrite drop_app_length.
  assert (utf8_valid t = true) as ->.
  { unfold utf8_valid. rewrite utf8_chars_ascii; [done|]. eapply Forall_impl; eauto using plain_ascii. }
  unfold all. by rewrite take_app_length.
Qed.

Lemma drop_marker x : drop (length JOURNAL_VERSION_MARKER) (JOURNAL_VERSION_MARKER ++ x) = x.
Proof. apply drop_app_length. Qed.

Lemma starts_with_marker x : starts_with JOURNAL_VERSION_MARKER (JOURNAL_VERSION_MARKER ++ x) = true.
Proof. apply bool_decide_eq_true_2. by exists x. Qed.

Lemma parse_check_render recs :
  Forall rec_ok recs -> parse_and_check (render recs) = Ok (journal_map recs).
Proof. intros Hr. unfold parse_and_check, parse_records. by rewrite parse_render. Qed.

Lemma payload_nonempty key body : (len (payload key body) =? 0) = false.
Proof.
  apply Z.eqb_neq. unfold payload. rewrite len_app.
  pose proof (len_nonneg (body ++ MAC_PREFIX ++ hex_bytes (hmac_sha256 key (JOURNAL_VERSION_MARKER ++ body)) ++ [NL])).
  assert (len JOURNAL_VERSION_MARKER = 26) by done. lia.
Qed.

(** Loading what a flush wrote: the tag that is expected under [key'] is compared with
    the one written under [key]. *)
Lemma load_payload_with key key' recs :
  Forall rec_ok recs ->
  let tag k := hmac_sha256 k (JOURNAL_VERSION_MARKER ++ render recs) in
  load_and_verify (payload key (render recs)) key' =
    Ok (journal_map recs, negb (bool_decide (tag key' = tag key)),
        if bool_decide (tag key' = tag key) then len (payload key (render recs)) else 0).
Proof.
  intros Hr tag. unfold load_and_verify. rewrite payload_nonempty.
  unfold check_version. unfold payload at 1. rewrite starts_with_marker. cbn [result_bind].
  unfold payload at 1. rewrite drop_marker. rewrite split_footer_render by apply hex_bytes_plain.
  assert ((0 <? len JOURNAL_VERSION_MARKER) = true) as -> by done.
  assert (take (Z.to_nat (len JOURNAL_VERSION_MARKER)) (payload key (render recs)) = JOURNAL_VERSION_MARKER) as ->.
  { unfold payload. unfold len. rewrite Nat2Z.id. apply take_app_length. }
  fold (tag key) (tag key'). rewrite decode_hex_bytes_hex.
  assert ((len (tag key) =? len (tag key')) = true) as ->.
  { apply Z.eqb_eq. unfold len, tag. by rewrite !hmac_length. }
  rewrite parse_check_render by done. cbn [result_bind]. case_bool_decide as Ht; [|done]. simpl negb.
  f_equal. f_equal. unfold payload. fold (tag key). rewrite !len_app.
  assert (len MAC_PREFIX = 5) as -> by done. assert (len [NL] = 1) as -> by done. lia.
Qed.

Lemma read_payload key recs : read_without_footer_or_marker (payload key (render recs)) = render recs.
Proof.
  unfold read_without_footer_or_marker, payload. rewrite starts_with_marker, drop_marker.
  by rewrite split_footer_render by apply hex_bytes_plain.
Qed.

(** Opening what a flush wrote, under the key it was written with. *)
Lemma reopen_payload key lk sentinel recs :
  Forall rec_ok recs ->
  file_backed (payload key (render recs)) key lk sentinel
    = Ok (mkFileBacked (payload key (render recs)) key (journal_map recs) false (render recs)
            (len (filter (fun b => b = NL) (render recs)))).
Proof.
  intros Hr. unfold file_backed. rewrite load_payload_with by done. cbn [result_bind].
  rewrite bool_decide_eq_true_2 by done. cbn [negb andb].
  rewrite Z.ltb_irrefl. cbn iota. by rewrite read_payload.
Qed.

Lemma reopen_empty key lk sentinel :
  file_backed [] key lk sentinel = Ok (mkFileBacked [] key ∅ false [] 0).
Proof.
  assert (rfind [] (NL :: MAC_PREFIX) = None) as Hf.
  { apply rfind_none. intros i [k Hk]. rewrite drop_nil in Hk. done. }
  assert (read_without_footer_or_marker [] = []) as Hr.
  { unfold read_without_footer_or_marker, split_footer.
    assert (starts_with JOURNAL_VERSION_MARKER [] = false) as -> by done.
    cbn [length split_footer_loop take]. unfold find_last_subslice. by rewrite Hf. }
  unfold file_backed. assert (load_and_verify [] key = Ok (∅, false, 0)) as -> by done.
  cbn [result_bind andb negb]. assert ((0 <? len (A:=byte) []) = false) as -> by done. by rewrite Hr.
Qed.

(** ** The order of reservations *)

Definition entry_of (known : Known) (fp : list byte) : PersistEntry :=
  default PersistEntry_default (known !! fp).

Definition entry_le (e e' : PersistEntry) : Prop :=
  persisted e <= persisted e' /\ (poisoned e = true -> poisoned e' = true).

Definition known_le (k k' : Known) : Prop := forall fp, entry_le (entry_of k fp) (entry_of k' fp).

#[local] Instance entry_le_preorder : PreOrder entry_le.
Proof. split; [by intros e|]. intros a b c [? ?] [? ?]. split; [lia|auto]. Qed.
#[local] Instance known_le_preorder : PreOrder known_le.
Proof. split; [intros k fp; done|]. intros a b c H1 H2 fp. by etrans; [apply H1|apply H2]. Qed.

Lemma entry_of_update fp f k fp' :
  entry_of (update_entry fp f k) fp' = if decide (fp' = fp) then f (entry_of k fp) else entry_of k fp'.
Proof.
  unfold entry_of at 1, update_entry. case_decide as Hd.
  - subst. by rewrite lookup_insert_eq.
  - by rewrite lookup_insert_ne.
Qed.

Lemma known_le_update fp f f' k k' :
  known_le k k' -> entry_le (f (entry_of k fp)) (f' (entry_of k' fp)) ->
  known_le (update_entry fp f k) (update_entry fp f' k').
Proof. intros Hk Hf fp'. rewrite !entry_of_update. case_decide; [done|apply Hk]. Qed.

Lemma known_le_update_r fp f k k' :
  known_le k k' -> (entry_le (entry_of k' fp) (f (entry_of k' fp))) -> known_le k (update_entry fp f k').
Proof.
  intros Hk Hf fp'. rewrite entry_of_update. case_decide as Hd; [|apply Hk].
  subst. etrans; [apply Hk|done].
Qed.

(** Values stay within the limit. *)
Definition entry_in (e : PersistEntry) : Prop := 0 <= persisted e <= AES_GCM_NONCE_LIMIT.
Definition kind_in (k : RecordKind) : Prop :=
  match k with Count n => 0 <= n <= AES_GCM_NONCE_LIMIT | Poisoned => True end.
Definition rec_in (r : list byte * RecordKind) : Prop := length r.1 = 32%nat /\ kind_in r.2.

Lemma limit_value : AES_GCM_NONCE_LIMIT = 4294967296.
Proof. done. Qed.

Lemma rec_in_ok recs : Forall rec_in recs -> Forall rec_ok recs.
Proof.
  intros Hr. eapply Forall_impl; [exact Hr|]. intros [fp [n|]] [Hl Hk]; (split; [done|]); simpl in *; [|done].
  rewrite limit_value in Hk. unfold u64_max. lia.
Qed.

Lemma apply_kind_in k e : kind_in k -> entry_in e -> entry_in (apply_kind k e) /\ entry_le e (apply_kind k e).
Proof.
  unfold entry_in, entry_le. rewrite limit_value. destruct k as [n|]; simpl; rewrite ?limit_value; [|intuition lia].
  intros Hn He. case_match; bool_to_prop; (split; [lia|]); (split; [lia|]); intros Hp; by case_match.
Qed.

Lemma default_in : entry_in PersistEntry_default.
Proof. unfold entry_in. rewrite limit_value. simpl. lia. Qed.

Lemma journal_map_in recs : Forall rec_in recs -> forall fp, entry_in (entry_of (journal_map recs) fp).
Proof.
  intros Hr. unfold journal_map.
  assert (forall fp, entry_in (entry_of (∅ : Known) fp)) as He
    by (intros fp; unfold entry_of; rewrite lookup_empty; apply default_in).
  revert He. generalize (∅ : Known). induction Hr as [|r recs [_ Hk] _ IH]; intros k He; [done|].
  cbn [foldl]. apply IH. intros fp. unfold apply_rec. rewrite entry_of_update.
  case_decide; [by apply apply_kind_in|done].
Qed.

Lemma journal_map_snoc recs r : journal_map (recs ++ [r]) = apply_rec (journal_map recs) r.
Proof. unfold journal_map. by rewrite foldl_app. Qed.

(** *** The journal's invariant

    Memory, disk and cached body are ordered: what memory relies on is on disk, and
    the next flush writes no less. *)
Record journal_inv (fb : FileBacked) (body disk : list (list byte * RecordKind)) : Prop := {
  ji_ok : fb_integrity_failed fb = false;
  ji_body : fb_body_cache fb = render body;
  ji_body_in : Forall rec_in body;
  ji_file : fb_file fb = payload (fb_mac_key fb) (render disk) \/ (fb_file fb = [] /\ disk = []);
  ji_disk_in : Forall rec_in disk;
  ji_known_in : forall fp, entry_in (entry_of (fb_known fb) fp);
  ji_known_disk : known_le (fb_known fb) (journal_map disk);
  ji_disk_body : known_le (journal_map disk) (journal_map body);
}.

(** Appending one record, when no compaction is due. *)
Lemma inv_append io fp k fb body disk r fb' :
  journal_inv fb body disk -> length fp = 32%nat -> kind_in k ->
  needs_compaction (set_body (fb_body_cache fb ++ record_line fp k) (fb_appended_records fb + 1) fb) = false ->
  append_record io fp k fb = (r, fb') ->
  exists body' disk', journal_inv fb' body' disk' /\ fb_known fb' = fb_known fb /\
    fb_mac_key fb' = fb_mac_key fb /\
    (r = Ok tt -> body' = body ++ [(fp, k)] /\ disk' = body').
Proof.
  intros [H1 H2 H3 H4 H5 H6 H7 H8] Hl Hk Hc Ha. unfold append_record in Ha. rewrite Hc in Ha.
  set (body' := body ++ [(fp, k)]).
  assert (Forall rec_in body') as Hb' by (apply Forall_app; split; [done|by repeat constructor]).
  assert (known_le (journal_map body) (journal_map body')) as Hbb.
  { unfold body'. rewrite journal_map_snoc. unfold apply_rec. apply known_le_update_r; [done|].
    apply apply_kind_in; [done|]. by apply journal_map_in. }
  assert (fb_body_cache fb ++ record_line fp k = render body') as Hr.
  { unfold body'. by rewrite render_snoc, <- H2. }
  rewrite Hr in Ha. unfold flush_body_to_disk in Ha.
  assert (known_le (fb_known fb) (journal_map body')) by (by repeat (etrans; [eassumption|])).
  destruct io; injection Ha as <- <-.
  - exists body', body'. split; [|done]. split; simpl; auto; done.
  - exists body', disk. split; [|by split_and!]. split; simpl; auto. by etrans.
  - exists body', body'. split; [|by split_and!]. split; simpl; auto; done.
Qed.

(** *** Room for one more record *)

Definition roomy (fb : FileBacked) : Prop :=
  fb_appended_records fb < COMPACTION_RECORDS_THRESHOLD /\
  len (fb_body_cache fb) + 100 <= COMPACTION_BYTES_THRESHOLD.

Lemma kind_text_len k : kind_in k -> len (kind_text k) <= 10.
Proof.
  destruct k as [n|]; cbn [kind_in kind_text]; [|by intros _]. rewrite limit_value. intros Hn.
  destruct n as [|p|p]; [done| |lia]. rewrite pretty_pos.
  etrans; [apply (pretty_go_len 10)|]; [|done]. change (10 ^ Z.of_nat 10) with 10000000000. lia.
Qed.

Lemma roomy_append fp k fb :
  roomy fb -> length fp = 32%nat -> kind_in k ->
  needs_compaction (set_body (fb_body_cache fb ++ record_line fp k) (fb_appended_records fb + 1) fb) = false.
Proof.
  intros [H1 H2] Hl Hk. pose proof (kind_text_len k Hk). unfold needs_compaction.
  apply orb_false_iff. split; apply Z.ltb_ge; simpl; [|lia].
  rewrite record_line_eq, !len_app, len_cons, hex_bytes_len. unfold len at 2. rewrite Hl.
  change (len [NL]) with 1. lia.
Qed.

(** *** The three writers *)

Definition grown (fb fb' : FileBacked) : Prop :=
  fb_mac_key fb' = fb_mac_key fb /\ known_le (fb_known fb) (fb_known fb').

Definition journal_ok (fb : FileBacked) : Prop := exists body disk, journal_inv fb body disk.

(** A reservation that was written: memory takes the value the record has. *)
Lemma inv_reserve io fp k f fb fb' :
  journal_ok fb -> roomy fb -> length fp = 32%nat -> kind_in k ->
  (forall e e', entry_in e -> entry_le e e' ->
     entry_in (f e) /\ entry_le (f e) (apply_kind k e')) ->
  entry_le (entry_of (fb_known fb) fp) (f (entry_of (fb_known fb) fp)) ->
  (forall e, append_record io fp k fb = (Err e, fb') -> journal_ok fb' /\ grown fb fb') /\
  (append_record io fp k fb = (Ok tt, fb') ->
   let fb2 := set_known (update_entry fp f (fb_known fb')) fb' in
   journal_ok fb2 /\ grown fb fb2 /\ entry_of (fb_known fb2) fp = f (entry_of (fb_known fb) fp)).
Proof.
  intros (body & disk & Hi) Hroom Hl Hk Hf Hup. pose proof (roomy_append fp k fb Hroom Hl Hk) as Hn. split.
  - intros e Ha. destruct (inv_append _ _ _ _ _ _ _ _ Hi Hl Hk Hn Ha) as (b' & d' & Hi' & Hkn & Hm & _).
    split; [by exists b', d'|]. split; [done|by rewrite Hkn].
  - intros Ha fb2. destruct (inv_append _ _ _ _ _ _ _ _ Hi Hl Hk Hn Ha) as (b' & d' & Hi' & Hkn & Hm & Hok).
    destruct (Hok eq_refl) as [-> ->]. clear Hok.
    assert (entry_of (fb_known fb2) fp = f (entry_of (fb_known fb) fp)) as Hfp.
    { simpl. rewrite entry_of_update, decide_True by done. by rewrite Hkn. }
    split; [|split; [split; [done|]|done]].
    2:{ simpl. rewrite Hkn. apply known_le_update_r; done. }
    eexists _, _. destruct Hi, Hi'. split; simpl; try done.
    + intros fp'. rewrite entry_of_update. case_decide; [|done].
      eapply (Hf _ (entry_of (fb_known fb') fp)); done.
    + rewrite journal_map_snoc. unfold apply_rec. rewrite Hkn. apply known_le_update.
      * by etrans.
      * apply Hf; [done|]. etrans; [apply ji_known_disk0|apply ji_disk_body0].
Qed.

Lemma advance_ok io fp n fb r fb' :
  journal_ok fb -> roomy fb -> length fp = 32%nat -> 0 < n < AES_GCM_NONCE_LIMIT ->
  fb_record_advance io fp n fb = (r, fb') ->
  journal_ok fb' /\ grown fb fb' /\ (r = Ok tt -> n <= persisted (entry_of (fb_known fb') fp)).
Proof.
  intros Hi Hroom Hl Hn. unfold fb_record_advance.
  assert (fb_integrity_failed fb = false) as -> by (by destruct Hi as (? & ? & [])).
  set (e0 := entry_of (fb_known fb) fp).
  assert (match fb_known fb !! fp with
          | Some e => (persisted e =? 0, persisted e) | None => (true, 0) end
          = (persisted e0 =? 0, persisted e0)) as ->.
  { unfold e0, entry_of. by destruct (fb_known fb !! fp). }
  assert (entry_in e0) as He0 by (destruct Hi as (? & ? & Hi); apply Hi).
  destruct (negb (persisted e0 =? 0) && (n <=? persisted e0)) eqn:Hw.
  { intros [= <- <-]. split; [done|]. split; [split; [done|reflexivity]|]. intros _.
    fold e0. bool_to_prop. lia. }
  set (c := Z.min (saturating_add n BATCH_THRESHOLD) AES_GCM_NONCE_LIMIT).
  assert (n <= c <= AES_GCM_NONCE_LIMIT) as Hc.
  { unfold c, saturating_add, BATCH_THRESHOLD, u64_max in *. rewrite limit_value in *. lia. }
  assert (kind_in (Count c)) as Hk by (simpl; lia).
  assert (entry_le e0 (mkEntry c (poisoned e0))) as Hup.
  { split; [|done]. simpl. unfold entry_in in He0. apply andb_false_iff in Hw as [Hw|Hw]; bool_to_prop; lia. }
  intros Hr.
  destruct (append_record io fp (Count c) fb) as [ra fb1] eqn:Ha.
  destruct (inv_reserve io fp (Count c) (fun e => mkEntry c (poisoned e)) fb fb1 Hi Hroom Hl Hk) as [HE HO].
  { intros e e' He [Hp Hpo]. split; [unfold entry_in; simpl; lia|]. split; simpl.
    - destruct (Z.ltb_spec (persisted e') c); lia.
    - intros Hq. rewrite (Hpo Hq). by destruct (AES_GCM_NONCE_LIMIT <=? c). }
  { exact Hup. }
  destruct ra as [[]|e]; injection Hr as <- <-.
  - destruct (HO Ha) as (H1 & H2 & H3). split; [done|]. split; [done|]. intros _. rewrite H3. simpl. lia.
  - destruct (HE e Ha) as [H1 H2]. done.
Qed.

Lemma poison_ok io fp fb r fb' :
  journal_ok fb -> roomy fb -> length fp = 32%nat -> fb_record_poison io fp fb = (r, fb') ->
  journal_ok fb' /\ grown fb fb'.
Proof.
  intros Hi Hroom Hl. unfold fb_record_poison.
  assert (fb_integrity_failed fb = false) as -> by (by destruct Hi as (? & ? & [])).
  assert (entry_in (entry_of (fb_known fb) fp)) as He0 by (destruct Hi as (? & ? & Hi); apply Hi).
  intros Hr. destruct (append_record io fp Poisoned fb) as [ra fb1] eqn:Ha.
  destruct (inv_reserve io fp Poisoned (fun _ => mkEntry AES_GCM_NONCE_LIMIT true) fb fb1 Hi Hroom Hl I) as [HE HO].
  { intros e e' He _. split; [unfold entry_in; rewrite limit_value; simpl; lia|done]. }
  { split; simpl; [apply He0|done]. }
  destruct ra as [[]|e]; injection Hr as <- <-; [by destruct (HO Ha) as (? & ? & _)|by apply (HE e)].
Qed.

(** *** Opening a journal that a process left behind *)

Lemma reopen_ok fb lk sentinel fb' :
  journal_ok fb -> file_backed (fb_file fb) (fb_mac_key fb) lk sentinel = Ok fb' ->
  journal_ok fb' /\ grown fb fb'.
Proof.
  intros (body & disk & Hi) Hr. destruct Hi as [H1 H2 H3 H4 H5 H6 H7 H8].
  assert (fb_known fb' = journal_map disk /\ fb_mac_key fb' = fb_mac_key fb /\ journal_inv fb' disk disk)
    as (Hk & Hm & Hi'); [|split; [by exists disk, disk|]; split; [done|by rewrite Hk]].
  destruct H4 as [Hf|[Hf ->]]; rewrite Hf in Hr.
  - rewrite reopen_payload in Hr by (by apply rec_in_ok). injection Hr as <-. split; [done|]. split; [done|].
    split; simpl; auto; [by apply journal_map_in|done|done].
  - rewrite reopen_empty in Hr. injection Hr as <-. split; [done|]. split; [done|].
    split; simpl; auto; [intros fp; apply default_in|done|done].
Qed.

(** ** Compaction *)

(** The record of a fingerprint in a compacted journal. *)
Definition entry_recs (known : Known) (fp : list byte) : list (list byte * RecordKind) :=
  match known !! fp with
  | None => []
  | Some e => if poisoned e then [(fp, Poisoned)] else if 0 <? persisted e then [(fp, Count (persisted e))] else []
  end.

Definition compact_recs (known : Known) : list (list byte * RecordKind) :=
  concat (map (entry_recs known) (compact_keys known)).

Lemma render_app a b : render (a ++ b) = render a ++ render b.
Proof. unfold render. by rewrite map_app, concat_app. Qed.

Lemma compact_lines known ks :
  concat (map (compact_line known) ks) = render (concat (map (entry_recs known) ks)).
Proof.
  induction ks as [|fp ks IH]; [done|]. cbn [map concat]. rewrite IH, render_app. f_equal.
  unfold compact_line, entry_recs. repeat case_match; unfold render; cbn [map concat fst snd]; try done.
  all: by rewrite app_nil_r, record_line_eq, <- app_assoc.
Qed.

Lemma compact_keys_spec known : NoDup (compact_keys known) /\ forall fp, fp ∈ compact_keys known <-> is_Some (known !! fp).
Proof.
  unfold compact_keys. split.
  - rewrite merge_sort_Permutation. apply NoDup_fst_map_to_list.
  - intros fp. rewrite merge_sort_Permutation, list_elem_of_fmap. split.
    + intros [[f e] [-> Hin]]. apply elem_of_map_to_list in Hin. by exists e.
    + intros [e He]. exists (fp, e). split; [done|]. by apply elem_of_map_to_list.
Qed.

Lemma entry_of_recs known k0 fp fp' :
  entry_of (foldl apply_rec k0 (entry_recs known fp)) fp'
  = if decide (fp' = fp) then foldl (fun e r => apply_kind r.2 e) (entry_of k0 fp) (entry_recs known fp)
    else entry_of k0 fp'.
Proof.
  unfold entry_recs. repeat case_match; simpl; unfold apply_rec; simpl; rewrite ?entry_of_update; by repeat case_decide; subst.
Qed.

Lemma entry_of_compacted known ks k0 fp :
  NoDup ks ->
  entry_of (foldl apply_rec k0 (concat (map (entry_recs known) ks))) fp
  = if decide (fp ∈ ks) then foldl (fun e r => apply_kind r.2 e) (entry_of k0 fp) (entry_recs known fp)
    else entry_of k0 fp.
Proof.
  intros Hn. revert k0. induction Hn as [|x ks Hx Hn IH]; intros k0.
  - rewrite decide_False by apply not_elem_of_nil. done.
  - cbn [map concat]. rewrite foldl_app, IH, entry_of_recs.
    destruct (decide (fp = x)) as [->|Hne].
    + rewrite (decide_False (P := x ∈ ks)) by done. rewrite decide_True by (by left). done.
    + repeat case_decide; try done; set_solver.
Qed.

(** What a compacted journal says of a fingerprint: exactly what memory says, except that a
    poisoned one has the limit as its value. *)
Lemma compact_entry known fp :
  (forall fp, entry_in (entry_of known fp)) ->
  entry_of (journal_map (compact_recs known)) fp =
    let e := entry_of known fp in
    if poisoned e then mkEntry AES_GCM_NONCE_LIMIT true
    else mkEntry (persisted e) (AES_GCM_NONCE_LIMIT <=? persisted e).
Proof.
  intros Hin. destruct (compact_keys_spec known) as [Hn Hk]. unfold journal_map, compact_recs.
  rewrite entry_of_compacted by done. specialize (Hin fp). unfold entry_of in *. rewrite lookup_empty. simpl.
  destruct (known !! fp) as [[p b]|] eqn:E.
  - rewrite decide_True by (apply Hk; by exists (mkEntry p b)). unfold entry_recs. rewrite E. unfold entry_in in Hin.
    simpl in *. destruct b; [done|]. destruct (Z.ltb_spec 0 p) as [Hp|Hp]; simpl.
    + rewrite (proj2 (Z.ltb_lt 0 p)) by done. by destruct (AES_GCM_NONCE_LIMIT <=? p).
    + assert (p = 0) as -> by lia. done.
  - rewrite decide_False; [done|]. rewrite Hk, E. by intros [? ?].
Qed.

Lemma compact_recs_in known :
  (forall fp, is_Some (known !! fp) -> length fp = 32%nat) -> (forall fp, entry_in (entry_of known fp)) ->
  Forall rec_in (compact_recs known).
Proof.
  intros Hl Hin. apply Forall_concat, Forall_map, Forall_forall. intros fp Hfp.
  apply compact_keys_spec in Hfp as Hs. specialize (Hl fp Hs). specialize (Hin fp).
  unfold entry_recs, entry_of in *. destruct (known !! fp); simpl in *; [|constructor].
  repeat case_match; repeat constructor; simpl; try done; apply Hin.
Qed.

(** The keys of a map built from records. *)
Lemma journal_map_keys recs : Forall rec_in recs -> forall fp, is_Some (journal_map recs !! fp) -> length fp = 32%nat.
Proof.
  intros Hr. induction recs as [|r recs IH] using rev_ind; [by intros fp [? ?]|].
  apply Forall_app in Hr as [Hr [[Hl _] _]%Forall_cons]. rewrite journal_map_snoc.
  intros fp [e He]. unfold apply_rec, update_entry in He. apply lookup_insert_Some in He as [[<- _]|[_ He]]; [done|].
  apply IH; [done|by exists e].
Qed.

(** Number of lines of a body. *)
Lemma render_lines recs : Forall rec_ok recs -> len (filter (fun b => b = NL) (render recs)) = len recs.
Proof.
  induction 1 as [|[fp k] recs [Hl Hk] _ IH]; [done|]. rewrite render_cons, filter_app, len_app, len_cons.
  rewrite filter_cons_True by done. rewrite len_cons, IH.
  assert (filter (fun b => b = NL) (hex_bytes fp ++ Byte.x20 :: kind_text k) = []) as ->; [|unfold len; simpl; lia].
  pose proof (line_no_nl fp k Hk) as Hn. revert Hn. generalize (hex_bytes fp ++ Byte.x20 :: kind_text k).
  induction 1 as [|b l Hb _ IHl]; [done|]. by rewrite filter_cons_False.
Qed.

(** ** The counters *)

Section Usage.
Context {MI : MapIter}.

Lemma poison_insert_frame fp st r st' :
  poison_insert_capped fp st = (r, st') -> gs_counters st' = gs_counters st /\ gs_persist st' = gs_persist st.
Proof. unfold poison_insert_capped. intros Hp. repeat case_match; simplify_eq; done. Qed.

Lemma evict_frame n st :
  let st' := (evict_gcm_counters n st).2 in
  gs_counters st' ⊆ gs_counters st /\ gs_persist st' = gs_persist st.
Proof.
  unfold evict_gcm_counters. repeat case_match; simpl; (split; [|done]); try done;
    try apply map_filter_subseteq.
  all: etrans; apply map_filter_subseteq.
Qed.

(** The file under the counters. *)
Definition file_of (st : GcmState) : option FileBacked :=
  match gs_persist st with WithFile fb => Some fb | InMemory => None end.

Lemma record_poison_file io fp fb r p :
  record_poison io fp (WithFile fb) = (r, p) -> exists fb', p = WithFile fb' /\ fb_record_poison io fp fb = (r, fb').
Proof. simpl. destruct (fb_record_poison io fp fb) as [r' fb']. intros [= <- <-]. by exists fb'. Qed.

(** [st'] keeps what [st] had reserved. *)
Definition keeps (st st' : GcmState) : Prop :=
  forall fb, gs_persist st = WithFile fb -> journal_ok fb -> roomy fb ->
  exists fb', gs_persist st' = WithFile fb' /\ journal_ok fb' /\ grown fb fb'.

Lemma keeps_same st st' : gs_persist st' = gs_persist st -> keeps st st'.
Proof. intros E fb Hp Hj _. exists fb. rewrite E. split; [done|]. split; [done|]. split; [done|reflexivity]. Qed.

Lemma keeps_poison io fp st st1 r p :
  length fp = 32%nat -> gs_persist st1 = gs_persist st -> record_poison io fp (gs_persist st1) = (r, p) ->
  keeps st (set_persist p st1).
Proof.
  intros Hl E Hr fb Hp Hj Hroom. rewrite E, Hp in Hr.
  apply record_poison_file in Hr as (fb' & -> & Hr). exists fb'. split; [done|]. by eapply poison_ok.
Qed.

Lemma admission_spec io fp st r st' :
  length fp = 32%nat -> usage_admission io fp st = (r, st') ->
  gs_counters st' = gs_counters st /\ keeps st st' /\
  (forall base, r = Ok base -> gs_persist st' = gs_persist st /\ base = (persisted_state fp (gs_persist st)).1).
Proof.
  intros Hl. unfold usage_admission.
  destruct (persisted_state fp (gs_persist st)) as [base dp] eqn:Hps. simpl.
  destruct (if dp then poison_insert_capped fp st else (Ok tt, st)) as [r1 st1] eqn:H1.
  assert (gs_counters st1 = gs_counters st /\ gs_persist st1 = gs_persist st) as [Hc1 Hp1].
  { destruct dp; [by eapply poison_insert_frame|by injection H1 as _ <-]. }
  destruct r1 as [[]|e1].
  2:{ intros [= <- <-]. split; [done|]. split; [by apply keeps_same|done]. }
  destruct (negb dp && _ && _ && _).
  2:{ case_bool_decide; intros [= <- <-]; (split; [done|]); (split; [by apply keeps_same|]); [done|].
      by intros ? [= ->]. }
  destruct (poison_insert_capped fp st1) as [r2 st2] eqn:H2.
  apply poison_insert_frame in H2 as H2'. destruct H2' as [Hc2 Hp2].
  destruct r2 as [[]|e2].
  2:{ intros [= <- <-]. split; [congruence|]. split; [apply keeps_same; congruence|done]. }
  destruct (record_poison io fp (gs_persist st2)) as [r3 p3] eqn:H3.
  assert (fp ∈ gs_poisoned (set_persist p3 st2)) as Hin.
  { simpl. unfold poison_insert_capped in H2. case_bool_decide; [by injection H2 as <-|].
    destruct (GCM_POISONED_HARD_CAP <=? _); [done|]. injection H2 as <-. simpl. set_solver. }
  rewrite bool_decide_eq_true_2 by done. intros [= <- <-]. split; [simpl; congruence|]. split; [|done].
  eapply keeps_poison; [done| |done]. congruence.
Qed.

(** The number of the last use of a key, in this process or reserved by an earlier one. *)
Definition last_count (fb : FileBacked) (st : GcmState) (fp : list byte) : Z :=
  default (persisted (entry_of (fb_known fb) fp)) (gs_counters st !! fp).

Lemma persisted_state_ok fb fp :
  fb_integrity_failed fb = false -> (fb_persisted_state fp fb).1 = persisted (entry_of (fb_known fb) fp).
Proof. intros Hi. unfold fb_persisted_state, entry_of. rewrite Hi. simpl. by destruct (fb_known fb !! fp). Qed.

(** One call, whatever the writes do. *)
Lemma count_use_spec io fp st r st' fb :
  length fp = 32%nat -> gs_persist st = WithFile fb -> journal_ok fb -> roomy fb ->
  (forall v, gs_counters st !! fp = Some v -> 0 <= v) ->
  count_use io fp st = (r, st') ->
  let cur := last_count fb st fp in
  exists fb', gs_persist st' = WithFile fb' /\ journal_ok fb' /\ grown fb fb' /\
    (gs_counters st' = gs_counters st \/ gs_counters st' = delete fp (gs_counters st)
     \/ gs_counters st' = <[fp := cur + 1]> (gs_counters st)) /\
    (forall n, r = Ok n -> n = cur + 1 /\ 1 <= n < AES_GCM_NONCE_LIMIT
       /\ gs_counters st' !! fp = Some n /\ n <= persisted (entry_of (fb_known fb') fp)).
Proof.
  intros Hl Hp Hj Hroom Hv. unfold count_use, finish_use.
  destruct (usage_admission (io_load io) fp st) as [ra st1] eqn:Ha.
  destruct (admission_spec _ _ _ _ _ Hl Ha) as (Hc1 & Hk1 & Hok).
  destruct ra as [base|e].
  2:{ intros [= <- <-]. simpl. destruct (Hk1 fb Hp Hj Hroom) as (fb' & ? & ? & ?).
      exists fb'. split_and!; auto; done. }
  destruct (Hok base eq_refl) as [Hp1 Hb]. rewrite Hp in Hb. cbn [persisted_state] in Hb.
  rewrite persisted_state_ok in Hb by (by destruct Hj as (? & ? & [])).
  assert (default base (gs_counters st1 !! fp) = last_count fb st fp) as Hcur.
  { unfold last_count. by rewrite Hc1, Hb. }
  rewrite Hcur. set (cur := last_count fb st fp).
  assert (0 <= cur) as Hpos.
  { unfold cur, last_count. destruct (gs_counters st !! fp) eqn:E; simpl; [by apply Hv|].
    destruct Hj as (? & ? & Hi). apply Hi. }
  destruct (AES_GCM_NONCE_LIMIT <=? saturating_add cur 1) eqn:Hlim.
  - destruct (poison_insert_capped fp _) as [r2 st2] eqn:H2. apply poison_insert_frame in H2 as [Hc2 Hp2].
    simpl in Hc2, Hp2. simpl.
    destruct (record_poison (io_limit io) fp (gs_persist st2)) as [r3 p3] eqn:H3.
    intros [= <- <-]. simpl.
    rewrite Hp2, Hp1, Hp in H3. apply record_poison_file in H3 as (fb' & -> & H3).
    apply poison_ok in H3 as [? ?]; [|done..]. exists fb'. split_and!; try done.
    right. left. rewrite Hc2, Hc1. apply delete_insert_eq.
  - assert (saturating_add cur 1 = cur + 1 /\ cur + 1 < AES_GCM_NONCE_LIMIT) as [Hs Hn].
    { apply Z.leb_gt in Hlim. unfold saturating_add, u64_max in *. rewrite limit_value in *. lia. }
    rewrite Hs. simpl. rewrite Hp1, Hp. cbn [record_advance].
    destruct (fb_record_advance (io_advance io) fp (cur + 1) fb) as [r3 fb3] eqn:H3. simpl.
    apply advance_ok in H3 as (Hj3 & Hg3 & Hle); [|done|done|done|lia].
    destruct r3 as [[]|e3]; intros [= <- <-]; simpl; exists fb3; rewrite Hc1; split_and!; auto; try done.
    intros n [= <-]. rewrite lookup_insert_eq. split_and!; auto; lia.
Qed.

(** *** Runs

    The uses that were admitted are recorded with their numbers.  A process stops at any
    point, also inside a write (an [Io] that reports an error), and the next one opens
    the file under the same MAC key. *)
Abbreviation GcmRun := (GcmState * list (list byte * Z))%type.

Inductive gcm_step : GcmRun -> GcmRun -> Prop :=
| step_use io key st uses fb :
    gs_persist st = WithFile fb -> roomy fb ->
    gcm_step (st, uses)
      ((check_gcm_usage io key st).2,
       match (count_use io (key_fingerprint key) st).1 with
       | Ok n => (key_fingerprint key, n) :: uses
       | Err _ => uses
       end)
| step_reset key st uses : gcm_step (st, uses) (reset_gcm_counter key st, uses)
| step_evict n st uses : gcm_step (st, uses) ((evict_gcm_counters n st).2, uses)
| step_restart st uses fb lk sentinel fb' :
    gs_persist st = WithFile fb -> file_backed (fb_file fb) (fb_mac_key fb) lk sentinel = Ok fb' ->
    gcm_step (st, uses) (mkGcm ∅ ∅ (WithFile fb'), uses).

(** Every recorded use is covered by the reservation, and by the counter if there is one. *)
Record usage_inv (run : GcmRun) : Prop := {
  ui_nodup : NoDup run.2;
  ui_range : forall fp n, (fp, n) ∈ run.2 -> 1 <= n < AES_GCM_NONCE_LIMIT;
  ui_count : forall fp n v, (fp, n) ∈ run.2 -> gs_counters run.1 !! fp = Some v -> n <= v;
  ui_pos : forall fp v, gs_counters run.1 !! fp = Some v -> 0 <= v;
  ui_file : exists fb, gs_persist run.1 = WithFile fb /\ journal_ok fb /\
    forall fp n, (fp, n) ∈ run.2 -> n <= persisted (entry_of (fb_known fb) fp);
}.

Lemma usage_inv_sub st st' uses :
  usage_inv (st, uses) -> gs_counters st' ⊆ gs_counters st -> gs_persist st' = gs_persist st ->
  usage_inv (st', uses).
Proof.
  intros [H1 H2 H3 H4 (fb & H5)] Hs Hp. simpl in *. split; simpl; try done.
  - intros fp n v Hin Hv. eapply H3; [done|]. by eapply lookup_weaken.
  - intros fp v Hv. eapply H4. by eapply lookup_weaken.
  - exists fb. by rewrite Hp.
Qed.

Lemma grown_covers fb fb' (uses : list (list byte * Z)) :
  grown fb fb' -> (forall fp n, (fp, n) ∈ uses -> n <= persisted (entry_of (fb_known fb) fp)) ->
  forall fp n, (fp, n) ∈ uses -> n <= persisted (entry_of (fb_known fb') fp).
Proof. intros [_ Hg] Hu fp n Hin. destruct (Hg fp) as [? _]. specialize (Hu fp n Hin). lia. Qed.

Lemma usage_inv_count io fp st uses r st' fb :
  length fp = 32%nat -> usage_inv (st, uses) -> gs_persist st = WithFile fb -> roomy fb ->
  count_use io fp st = (r, st') ->
  usage_inv (st', match r with Ok n => (fp, n) :: uses | Err _ => uses end).
Proof.
  intros Hl [H1 H2 H3 H4 (fb0 & Hp0 & Hj & H5)] Hp Hroom Hu. simpl in *.
  assert (fb0 = fb) as -> by congruence.
  destruct (count_use_spec _ _ _ _ _ _ Hl Hp Hj Hroom (H4 fp) Hu) as (fb' & Hp' & Hj' & Hg & Hc & Hr).
  set (cur := last_count fb st fp) in *.
  assert (forall n, (fp, n) ∈ uses -> n <= cur) as Hcur.
  { intros n Hin. unfold cur, last_count. destruct (gs_counters st !! fp) eqn:E; simpl; eauto. }
  assert (0 <= cur) as Hpos.
  { unfold cur, last_count. destruct (gs_counters st !! fp) eqn:E; simpl; [eauto|].
    destruct Hj as (? & ? & Hi). apply Hi. }
  assert (forall fp' v, gs_counters st' !! fp' = Some v ->
            gs_counters st !! fp' = Some v \/ (fp' = fp /\ v = cur + 1)) as Hlook.
  { intros fp' v. destruct Hc as [->|[->| ->]]; [by left| |].
    - intros Hd%lookup_delete_Some. left. apply Hd.
    - intros [[<- <-]|[_ ?]]%lookup_insert_Some; [by right|by left]. }
  pose proof (grown_covers _ _ uses Hg H5) as Hcov.
  destruct r as [n|e]; [destruct (Hr n eq_refl) as (-> & Hn & Hcn & Hpn); clear Hr|]; split; simpl; try done.
  - constructor; [|done]. intros Hin. specialize (Hcur _ Hin). lia.
  - intros fp' m [[= -> ->]|Hin]%elem_of_cons; [done|eauto].
  - intros fp' m v [[= -> ->]|Hin]%elem_of_cons Hv; [by simplify_eq|].
    destruct (Hlook _ _ Hv) as [?|[-> ->]]; [eauto|]. specialize (Hcur _ Hin). lia.
  - intros fp' v Hv. destruct (Hlook _ _ Hv) as [?|[-> ->]]; [eauto|lia].
  - exists fb'. split; [done|]. split; [done|]. intros fp' m [[= -> ->]|Hin]%elem_of_cons; eauto.
  - intros fp' m v Hin Hv. destruct (Hlook _ _ Hv) as [?|[-> ->]]; [eauto|]. specialize (Hcur _ Hin). lia.
  - intros fp' v Hv. destruct (Hlook _ _ Hv) as [?|[-> ->]]; [eauto|lia].
  - exists fb'. eauto.
Qed.

Lemma usage_inv_step x y : usage_inv x -> gcm_step x y -> usage_inv y.
Proof.
  intros Hi Hs. destruct Hs as [io key st uses fb Hp Hroom|key st uses|n st uses|st uses fb lk sen fb' Hp Hf].
  - assert (length (key_fingerprint key) = 32%nat) as Hl by apply sha256_length.
    unfold check_gcm_usage. destruct (count_use io (key_fingerprint key) st) as [r st1] eqn:Hu.
    pose proof (usage_inv_count _ _ _ _ _ _ _ Hl Hi Hp Hroom Hu) as Hi1. simpl.
    destruct r as [n|e]; [|done]. destruct (EVICT_TRIGGER <? _); [|done].
    eapply usage_inv_sub; [done| |]; apply evict_frame.
  - eapply usage_inv_sub; [done| |]; unfold reset_gcm_counter; case_bool_decide; simpl; try done.
    apply delete_subseteq.
  - eapply usage_inv_sub; [done| |]; apply evict_frame.
  - destruct Hi as [H1 H2 H3 H4 (fb0 & Hp0 & Hj & H5)]. simpl in *. assert (fb0 = fb) as -> by congruence.
    destruct (reopen_ok _ _ _ _ Hj Hf) as [Hj' Hg]. split; simpl; try done.
    exists fb'. split; [done|]. split; [done|]. by eapply grown_covers.
Qed.

(** Distinct numbers of an interval are no more than its size. *)
Lemma distinct_in_interval (l : list Z) L :
  0 < L -> NoDup l -> (forall n, n ∈ l -> 1 <= n < L) -> Z.of_nat (length l) < L.
Proof.
  intros HL Hn Hr. assert (l ⊆+ seqZ 1 (L - 1)) as Hs.
  { apply NoDup_submseteq; [done|]. intros n Hin. apply elem_of_seqZ. specialize (Hr n Hin). lia. }
  apply submseteq_length in Hs. rewrite length_seqZ in Hs. lia.
Qed.

Lemma usage_inv_start key lk sentinel fb :
  file_backed [] key lk sentinel = Ok fb -> usage_inv (mkGcm ∅ ∅ (WithFile fb), []).
Proof.
  rewrite reopen_empty. intros [= <-]. split; simpl; try done.
  - apply NoDup_nil_2.
  - intros fp n Hin. by apply elem_of_nil in Hin.
  - eexists. split; [done|]. split; [|intros fp n Hin; by apply elem_of_nil in Hin].
    exists [], []. split; simpl; auto; try done; intros fp; apply default_in.
Qed.

(** The numbers of the uses of one key. *)
Definition uses_of (fp : list byte) (uses : list (list byte * Z)) : list Z :=
  (filter (fun u => u.1 = fp) uses).*2.


(** ** Where the journal falls short *)

Definition writes_done : UsageIo := mkUsageIo IoDone IoDone IoDone.

Lemma append_done fp k fb :
  append_record IoDone fp k fb =
    (Ok tt, (append_record IoDone fp k fb).2).
Proof. unfold append_record, compact_journal, flush_body_to_disk. by case_match. Qed.

(** The first use of a key in a process, when the writes succeed. *)
Lemma usage_done fp fb p :
  fb_integrity_failed fb = false -> entry_of (fb_known fb) fp = mkEntry p false ->
  0 <= p < AES_GCM_NONCE_LIMIT - GCM_LOAD_TIME_POISON_WINDOW ->
  let c := Z.min (p + 1 + BATCH_THRESHOLD) AES_GCM_NONCE_LIMIT in
  exists fb1 st1, append_record IoDone fp (Count c) fb = (Ok tt, fb1) /\
    count_use writes_done fp (mkGcm ∅ ∅ (WithFile fb)) = (Ok (p + 1), st1) /\
    gs_persist st1 = WithFile (set_known (update_entry fp (fun e => mkEntry c (poisoned e)) (fb_known fb1)) fb1).
Proof.
  intros Hi He Hp c. set (fb1 := (append_record IoDone fp (Count c) fb).2).
  assert (append_record IoDone fp (Count c) fb = (Ok tt, fb1)) as Ha by apply append_done.
  assert (fb_persisted_state fp fb = (p, false)) as Hps.
  { unfold fb_persisted_state, entry_of in *. rewrite Hi. cbn [andb].
    destruct (fb_known fb !! fp) as [e|]; simpl in He; [by subst e|]. by injection He as <-. }
  assert (saturating_add p 1 = p + 1) as Hs.
  { unfold saturating_add, u64_max, GCM_LOAD_TIME_POISON_WINDOW in *. rewrite limit_value in *. lia. }
  assert (fb_record_advance IoDone fp (p + 1) fb =
    (Ok tt, set_known (update_entry fp (fun e => mkEntry c (poisoned e)) (fb_known fb1)) fb1)) as Hadv.
  { unfold fb_record_advance. rewrite Hi.
    assert (match fb_known fb !! fp with
            | Some e => (persisted e =? 0, persisted e) | None => (true, 0) end = (p =? 0, p)) as ->.
    { unfold entry_of in He. destruct (fb_known fb !! fp) as [e|]; simpl in He; [by subst e|].
      by injection He as <-. }
    assert (negb (p =? 0) && (p + 1 <=? p) = false) as ->.
    { apply andb_false_iff. right. apply Z.leb_gt. lia. }
    assert (Z.min (saturating_add (p + 1) BATCH_THRESHOLD) AES_GCM_NONCE_LIMIT = c) as ->; [|by rewrite Ha].
    unfold c, saturating_add, u64_max, BATCH_THRESHOLD. rewrite limit_value. lia. }
  exists fb1. eexists. split; [done|]. unfold count_use, finish_use, usage_admission. cbn [gs_persist persisted_state].
  rewrite Hps. cbn [negb andb].
  assert ((saturating_sub AES_GCM_NONCE_LIMIT GCM_LOAD_TIME_POISON_WINDOW <=? p) = false) as ->.
  { apply Z.leb_gt. unfold saturating_sub. lia. }
  rewrite andb_false_r. cbn [andb]. rewrite bool_decide_eq_false_2 by (simpl; set_solver).
  cbn [gs_counters]. rewrite lookup_empty. cbn [default]. rewrite Hs.
  assert ((AES_GCM_NONCE_LIMIT <=? p + 1) = false) as ->.
  { apply Z.leb_gt. unfold GCM_LOAD_TIME_POISON_WINDOW in Hp. lia. }
  cbn [set_counters gs_persist record_advance io_advance writes_done]. rewrite Hadv. by split.
Qed.

(** A compaction discards the reservation that triggered it: it rewrites the file
    from the map in memory, which receives the new ceiling only afterwards.  A journal
    of more than 4096 records is opened and a key with reservation [p] is used: the
    use has number [p + 1] and all writes succeed.  When the process then restarts, the
    next use of the same key has number [p + 1] again. *)
Theorem compaction_repeats_number key recs lk sentinel fb fp p :
  Forall rec_in recs -> COMPACTION_RECORDS_THRESHOLD <= len recs ->
  entry_of (journal_map recs) fp = mkEntry p false ->
  0 <= p < AES_GCM_NONCE_LIMIT - GCM_LOAD_TIME_POISON_WINDOW ->
  file_backed (payload key (render recs)) key lk sentinel = Ok fb ->
  exists st1 fb1 fb2,
    count_use writes_done fp (mkGcm ∅ ∅ (WithFile fb)) = (Ok (p + 1), st1) /\ gs_persist st1 = WithFile fb1 /\
    file_backed (fb_file fb1) (fb_mac_key fb1) lk sentinel = Ok fb2 /\
    (count_use writes_done fp (mkGcm ∅ ∅ (WithFile fb2))).1 = Ok (p + 1).
Proof.
  intros Hr Hlen He Hp Hf. rewrite reopen_payload in Hf by (by apply rec_in_ok). injection Hf as <-.
  rewrite render_lines by (by apply rec_in_ok).
  set (fb := mkFileBacked (payload key (render recs)) key (journal_map recs) false (render recs) (len recs)).
  destruct (usage_done fp fb p) as (fb1 & st1 & Ha & Hu & Hp1); [done|done|done|].
  set (c := Z.min (p + 1 + BATCH_THRESHOLD) AES_GCM_NONCE_LIMIT) in *.
  pose proof (journal_map_in recs Hr) as Hin. pose proof (journal_map_keys recs Hr) as Hkeys.
  pose proof (compact_recs_in _ Hkeys Hin) as Hcr.
  assert (fb_file fb1 = payload key (render (compact_recs (journal_map recs))) /\ fb_mac_key fb1 = key) as [Hfile Hkey].
  { unfold append_record in Ha.
    assert (needs_compaction (set_body (fb_body_cache fb ++ record_line fp (Count c)) (fb_appended_records fb + 1) fb) = true)
      as Hn.
    { unfold needs_compaction. apply orb_true_iff. right. apply Z.ltb_lt. simpl. lia. }
    rewrite Hn in Ha. unfold compact_journal in Ha. cbn [set_body fb_known] in Ha.
    injection Ha as <-. simpl. by rewrite compact_lines. }
  exists st1, (set_known (update_entry fp (fun e => mkEntry c (poisoned e)) (fb_known fb1)) fb1). cbn [fb_file fb_mac_key set_known].
  rewrite Hfile, Hkey, reopen_payload by (by apply rec_in_ok). eexists. split; [done|]. split; [done|]. split; [done|].
  edestruct (usage_done fp) as (fb2 & st2 & _ & Hu2 & _); [| | |rewrite Hu2; done]; [done| |done].
  cbn [fb_known]. rewrite compact_entry by done. rewrite He. simpl.
  assert ((AES_GCM_NONCE_LIMIT <=? p) = false) as ->; [|done].
  apply Z.leb_gt. unfold GCM_LOAD_TIME_POISON_WINDOW in Hp. lia.
Qed.

(** Two callers.  The first reads the journal's base of a new key and is overtaken: the
    second uses the key, with number 1, and then the counter is reset, as an eviction would
    also do.  The first goes on with the base it has read and gets number 1 too. *)
Theorem stale_base_repeats_number key fb :
  fb_integrity_failed fb = false -> entry_of (fb_known fb) (key_fingerprint key) = mkEntry 0 false ->
  let fp := key_fingerprint key in
  let st0 := mkGcm ∅ ∅ (WithFile fb) in
  exists base st1,
    usage_admission IoDone fp st0 = (Ok base, st0) /\
    count_use writes_done fp st0 = (Ok 1, st1) /\
    (finish_use writes_done fp base (reset_gcm_counter key st1)).1 = Ok 1.
Proof.
  intros Hi He fp st0. fold fp in He. set (w := AES_GCM_NONCE_LIMIT - GCM_LOAD_TIME_POISON_WINDOW).
  assert (0 <= 0 < w) as H0 by (unfold w; rewrite limit_value; unfold GCM_LOAD_TIME_POISON_WINDOW; lia).
  destruct (usage_done fp fb 0 Hi He H0) as (fb1 & st1 & Ha & Hu & Hp1). exists 0, st1.
  assert (usage_admission IoDone fp st0 = (Ok 0, st0)) as Hadm.
  { unfold usage_admission, st0. cbn [gs_persist persisted_state]. unfold fb_persisted_state, entry_of in *. rewrite Hi.
    cbn [andb]. destruct (fb_known fb !! fp) as [e|]; simpl in He; [subst e|]; cbn [persisted poisoned negb andb Z.eqb];
      by rewrite bool_decide_eq_false_2 by (simpl; set_solver). }
  split_and!; [done|done|]. assert (fp ∉ gs_poisoned st1) as Hnp.
  { unfold count_use in Hu. cbn [io_load writes_done] in Hu. fold st0 in Hu. rewrite Hadm in Hu.
    unfold finish_use, st0 in Hu. cbn [gs_counters] in Hu. rewrite lookup_empty in Hu. cbn [default] in Hu.
    case_if; [repeat case_match; simplify_eq|]. cbn [set_counters gs_persist] in Hu.
    destruct (record_advance _ _ _ _) as [[] p]; simplify_eq. simpl. set_solver. }
  unfold reset_gcm_counter. fold fp. rewrite bool_decide_eq_false_2 by done. unfold finish_use.
  cbn [gs_counters set_counters gs_persist]. rewrite lookup_delete_eq. cbn [default]. change (saturating_add 0 1) with 1.
  assert ((AES_GCM_NONCE_LIMIT <=? 1) = false) as -> by (apply Z.leb_gt; rewrite limit_value; lia).
  cbn [gs_persist set_counters]. rewrite Hp1. cbn [record_advance]. unfold fb_record_advance. cbn [fb_integrity_failed set_known fb_known].
  assert (fb_integrity_failed fb1 = false) as ->.
  { replace fb1 with (append_record IoDone fp (Count (Z.min (0 + 1 + BATCH_THRESHOLD) AES_GCM_NONCE_LIMIT)) fb).2 by (by rewrite Ha).
    unfold append_record, compact_journal, flush_body_to_disk. by case_if. }
  unfold update_entry. rewrite lookup_insert_eq. done.
Qed.

(** A journal that failed its check admits no use of any key. *)
Lemma failed_refuses io key st fb :
  gs_persist st = WithFile fb -> fb_integrity_failed fb = true ->
  exists e, (check_gcm_usage io key st).1 = Err e.
Proof.
  intros Hp Hi. unfold check_gcm_usage, count_use, finish_use.
  destruct (usage_admission (io_load io) (key_fingerprint key) st) as [ra st1] eqn:Ha.
  destruct ra as [base|e]; [|by exists e].
  destruct (admission_spec _ _ _ _ _ (sha256_length key) Ha) as (_ & _ & Hok).
  destruct (Hok base eq_refl) as [Hp1 _].
  destruct (AES_GCM_NONCE_LIMIT <=? _).
  - destruct (poison_insert_capped _ _) as [r2 st2]. destruct (record_poison _ _ _) as [r3 p3]. by eexists.
  - cbn [set_counters gs_persist]. rewrite Hp1, Hp. cbn [record_advance]. unfold fb_record_advance.
    rewrite Hi. by eexists.
Qed.

(** Without a key in the environment, the MAC key depends on the identity of the
    file ([id]: none while the file does not exist, device and inode afterwards), but
    every write replaces the file by a new one.  A journal written under the old
    identity and opened under the new one fails its integrity check, and no use of any key
    is admitted, provided the two MAC keys give different tags. *)
Theorem new_inode_refuses_every_key path canon id id' lk sentinel recs io user_key :
  let mac i := derive_mac_key None path (match i with Some i => Some (canon, Some i) | None => None end) in
  Forall rec_in recs ->
  hmac_sha256 (mac (Some id')) (JOURNAL_VERSION_MARKER ++ render recs)
    <> hmac_sha256 (mac id) (JOURNAL_VERSION_MARKER ++ render recs) ->
  exists fb, file_backed (payload (mac id) (render recs)) (mac (Some id')) lk sentinel = Ok fb /\
    fb_integrity_failed fb = true /\
    exists e, (check_gcm_usage io user_key (mkGcm ∅ ∅ (WithFile fb))).1 = Err e.
Proof.
  intros mac Hr Hne.
  assert (exists fb, file_backed (payload (mac id) (render recs)) (mac (Some id')) lk sentinel = Ok fb /\
    fb_integrity_failed fb = true) as (fb & Hf & Hi).
  { unfold file_backed. rewrite load_payload_with by (by apply rec_in_ok). cbn [result_bind].
    rewrite bool_decide_eq_false_2 by done. cbn [negb andb].
    assert (starts_with JOURNAL_VERSION_MARKER (payload (mac id) (render recs)) = true) as ->
      by apply starts_with_marker.
    cbn [negb]. by eexists. }
  exists fb. split; [done|]. split; [done|]. by eapply failed_refuses.
Qed.

End Usage.

End Files.


(** ** Concrete runs *)

Fixpoint rfind_from (i : nat) (h n : list byte) : option nat :=
  if starts_with n (drop i h) then Some i
  else match i with O => None | S i => rfind_from i h n end.

(** The last 32 bytes of [m] behind 32 zeros. *)
Definition last_32 (m : list byte) : list byte := drop (length m) (replicate 32 Byte.x00 ++ m).

Definition gcm_demo_crates : GcmCrates := {|
  sha256 := last_32;
  hmac_sha256 := fun k m => last_32 (m ++ k);
  rfind := fun h n => if bool_decide (n = []) then None else rfind_from (length h) h n;
|}.

Lemma rfind_from_last i k h n :
  (i <= k)%nat -> occurs_at n h i -> (forall j, occurs_at n h j -> (j <= i)%nat) -> rfind_from k h n = Some i.
Proof.
  intros Hk Hi Hmax. induction k as [|k IH]; simpl.
  - assert (i = O) as -> by lia. unfold starts_with. by rewrite bool_decide_eq_true_2.
  - unfold starts_with. case_bool_decide as Ho.
    + assert (S k <= i)%nat by (by apply Hmax). f_equal. lia.
    + destruct (decide (i = S k)) as [->|]; [done|]. apply IH. lia.
Qed.

Lemma rfind_from_none k h n : (forall i, ~ occurs_at n h i) -> rfind_from k h n = None.
Proof.
  intros Hno. induction k as [|k IH]; simpl; unfold starts_with; by rewrite bool_decide_eq_false_2 by apply Hno.
Qed.

Lemma last_32_length m : length (last_32 m) = 32%nat.
Proof. unfold last_32. rewrite length_drop, length_app, length_replicate. lia. Qed.

Lemma demo_laws : @GcmCratesLaws gcm_demo_crates.
Proof.
  split; simpl.
  - apply last_32_length.
  - intros. apply last_32_length.
  - intros h n i Ho Hmax. case_bool_decide as Hn.
    { subst. assert (occurs_at [] h (S i)) as Hs by (eexists; done). apply Hmax in Hs. lia. }
    apply rfind_from_last; [|done..]. destruct (decide (i <= length h)%nat) as [|Hi]; [done|].
    exfalso. apply Hn. destruct Ho as [r Hr]. rewrite drop_ge in Hr by lia. by destruct n.
  - intros h n Hno. case_bool_decide; [done|]. by apply rfind_from_none.
Qed.

Definition demo_fp : list byte := replicate 32 Byte.x41.

Lemma records_roundtrip_witness :
  let recs := [(demo_fp, Count 1025); (demo_fp, Poisoned)] in
  Forall rec_ok recs /\ parse_records (render recs) = (journal_map recs, 0).
Proof.
  split; [repeat constructor; done|]. apply records_roundtrip. repeat constructor; done.
Defined.

#[local] Existing Instances gcm_demo_crates demo_laws key_order.

Definition demo_state (st : GcmState) : FileBacked :=
  match gs_persist st with WithFile fb => fb | InMemory => mkFileBacked [] [] ∅ false [] 0 end.

Definition demo_key : list byte := as_bytes "key".
Definition gcm_demo_mac : list byte := as_bytes "mac".
Definition demo_fb0 : FileBacked := mkFileBacked [] gcm_demo_mac ∅ false [] 0.
Definition demo_st1 : GcmState := (check_gcm_usage writes_done demo_key (mkGcm ∅ ∅ (WithFile demo_fb0))).2.
Definition demo_fb1 : FileBacked :=
  match file_backed (fb_file (demo_state demo_st1)) gcm_demo_mac [] false with Ok fb => fb | Err _ => demo_fb0 end.
Definition demo_st2 : GcmState := (check_gcm_usage writes_done demo_key (mkGcm ∅ ∅ (WithFile demo_fb1))).2.


Definition demo_recs : list (list byte * RecordKind) := replicate (Z.to_nat 4096) (demo_fp, Count 1025).
Definition demo_full : FileBacked :=
  mkFileBacked (payload gcm_demo_mac (render demo_recs)) gcm_demo_mac (journal_map demo_recs) false (render demo_recs)
    (len (filter (fun b => b = NL) (render demo_recs))).

Lemma entry_of_replicate n fp c k :
  0 < c < AES_GCM_NONCE_LIMIT -> entry_of k fp = mkEntry c false ->
  entry_of (foldl apply_rec k (replicate n (fp, Count c))) fp = mkEntry c false.
Proof.
  intros Hc. revert k. induction n as [|n IH]; intros k Hk; [done|]. cbn [replicate foldl]. apply IH.
  unfold apply_rec. cbn [fst snd]. rewrite entry_of_update, decide_True, Hk by done. cbn [apply_kind persisted poisoned].
  rewrite Z.ltb_irrefl. by rewrite (proj2 (Z.leb_gt _ _)) by lia.
Qed.

Lemma journal_map_replicate n fp c :
  0 < c < AES_GCM_NONCE_LIMIT -> (0 < n)%nat ->
  entry_of (journal_map (replicate n (fp, Count c))) fp = mkEntry c false.
Proof.
  intros Hc Hn. destruct n as [|n]; [lia|]. unfold journal_map. cbn [replicate foldl].
  apply entry_of_replicate; [done|]. unfold apply_rec. cbn [fst snd]. rewrite entry_of_update, decide_True by done.
  unfold entry_of. rewrite lookup_empty. cbn [default apply_kind persisted poisoned PersistEntry_default].
  rewrite (proj2 (Z.ltb_lt _ _)) by lia. by rewrite (proj2 (Z.leb_gt _ _)) by lia.
Qed.

Lemma compaction_repeats_number_witness :
  exists st1 fb1 fb2,
    count_use writes_done demo_fp (mkGcm ∅ ∅ (WithFile demo_full)) = (Ok 1026, st1) /\ gs_persist st1 = WithFile fb1 /\
    file_backed (fb_file fb1) (fb_mac_key fb1) [] false = Ok fb2 /\
    (count_use writes_done demo_fp (mkGcm ∅ ∅ (WithFile fb2))).1 = Ok 1026.
Proof.
  assert (Forall rec_in demo_recs) as Hr by (apply Forall_replicate; by split).
  apply (compaction_repeats_number gcm_demo_mac demo_recs [] false demo_full demo_fp 1025).
  - exact Hr.
  - unfold len, demo_recs. rewrite length_replicate, Z2Nat.id; done.
  - apply journal_map_replicate; [by vm_compute|lia].
  - by vm_compute.
  - unfold demo_full. generalize demo_recs Hr. intros recs Hrecs. apply reopen_payload. by apply rec_in_ok.
Defined.

Lemma new_inode_refuses_every_key_witness :
  exists fb,
    file_backed (payload (derive_mac_key None demo_key None) (render [(demo_fp, Count 1025)]))
      (derive_mac_key None demo_key (Some (demo_key, Some [Byte.x07]))) [] false = Ok fb /\
    fb_integrity_failed fb = true /\
    exists e, (check_gcm_usage writes_done demo_key (mkGcm ∅ ∅ (WithFile fb))).1 = Err e.
Proof.
  apply (new_inode_refuses_every_key demo_key demo_key None [Byte.x07] [] false [(demo_fp, Count 1025)] writes_done demo_key).
  - repeat constructor; by vm_compute.
  - by vm_compute.
Defined.
