(* ===== verification/Pkcs11.v ===== *)
(** * PKCS#11 key cache and session pool ([craton-hsm-pkcs11/src/cache.rs], [pool.rs])

    The LRU cache of imported keys is a vector of slots with a doubly linked list threaded
    through it, a map from fingerprints to slots and a list of free slots.  A [None]
    result is the panic of an index out of range or of [unwrap] on an empty slot.  The
    pool shares two trackers between its sessions; a call works on one session at a time,
    and which sessions other threads hold is an argument. *)

From stdpp Require Import prelude gmap strings list.
From Stdlib Require Import ZArith Lia.
From coqutil Require Import Byte.
From S2P Require Import Prelude RustStd.
Local Open Scope string_scope.
Local Open Scope list_scope.
Local Open Scope Z_scope.

Abbreviation KeyFingerprint := (list byte).

Definition KEY_CACHE_DEFAULT_CAPACITY : Z := 64.

(** SHA-256. *)
Class DigestCrate := { sha256 : list byte -> list byte }.

(** The bytes that are hashed. *)
Definition fingerprint_input (domain : list byte) (parts : list (list byte)) : list byte :=
  as_bytes "craton-hsm-pkcs11.v1" ++ [Byte.x00] ++ to_be_bytes 4 (len domain) ++ domain
  ++ concat (map (fun part => to_be_bytes 8 (len part) ++ part) parts).

Definition fingerprint `{DigestCrate} (domain : list byte) (parts : list (list byte)) : KeyFingerprint :=
  sha256 (fingerprint_input domain parts).

(** ** The cache *)

Record EntryMeta : Type := mkMeta { gcm_messages : Z }.
Definition EntryMeta_default : EntryMeta := mkMeta 0.

Section Cache.
Context {V : Type}.

Record Slot : Type := mkSlot {
  sl_fp : KeyFingerprint;
  sl_value : V;
  sl_meta : EntryMeta;
  sl_prev : option nat;
  sl_next : option nat;
}.

Record KeyCache : Type := mkCache {
  kc_map : gmap KeyFingerprint nat;
  kc_slots : list (option Slot);
  kc_free : list nat;
  kc_head : option nat;
  kc_tail : option nat;
  kc_capacity : Z;
}.

Definition set_prev (p : option nat) (s : Slot) : Slot :=
  mkSlot (sl_fp s) (sl_value s) (sl_meta s) p (sl_next s).
Definition set_next (n : option nat) (s : Slot) : Slot :=
  mkSlot (sl_fp s) (sl_value s) (sl_meta s) (sl_prev s) n.
Definition set_value (v : V) (s : Slot) : Slot :=
  mkSlot (sl_fp s) v (sl_meta s) (sl_prev s) (sl_next s).
Definition set_meta (m : EntryMeta) (s : Slot) : Slot :=
  mkSlot (sl_fp s) (sl_value s) m (sl_prev s) (sl_next s).

Definition set_slots (x : list (option Slot)) (c : KeyCache) : KeyCache :=
  mkCache (kc_map c) x (kc_free c) (kc_head c) (kc_tail c) (kc_capacity c).
Definition set_head (x : option nat) (c : KeyCache) : KeyCache :=
  mkCache (kc_map c) (kc_slots c) (kc_free c) x (kc_tail c) (kc_capacity c).
Definition set_tail (x : option nat) (c : KeyCache) : KeyCache :=
  mkCache (kc_map c) (kc_slots c) (kc_free c) (kc_head c) x (kc_capacity c).

Definition try_new (capacity : Z) : option KeyCache :=
  if capacity =? 0 then None else Some (mkCache ∅ [] [] None None capacity).

Definition live_fingerprints (c : KeyCache) : gset KeyFingerprint := dom (kc_map c).

(** [self.slots[idx].as_ref().unwrap()] *)
Definition slot_at (idx : nat) (c : KeyCache) : option Slot :=
  match kc_slots c !! idx with Some (Some s) => Some s | _ => None end.

(** A change of a slot through [self.slots[idx].as_mut().unwrap()]. *)
Definition update_slot (idx : nat) (f : Slot -> Slot) (c : KeyCache) : option KeyCache :=
  s ← slot_at idx c;
  Some (set_slots (<[idx := Some (f s)]> (kc_slots c)) c).

Definition unlink (idx : nat) (c : KeyCache) : option KeyCache :=
  s ← slot_at idx c;
  let prev := sl_prev s in
  let next := sl_next s in
  c ← (match prev with
       | Some p => update_slot p (set_next next) c
       | None => Some (set_head next c)
       end);
  c ← (match next with
       | Some n => update_slot n (set_prev prev) c
       | None => Some (set_tail prev c)
       end);
  update_slot idx (fun s => set_next None (set_prev None s)) c.

Definition push_front (idx : nat) (c : KeyCache) : option KeyCache :=
  let old_head := kc_head c in
  c ← update_slot idx (fun s => set_next old_head (set_prev None s)) c;
  c ← (match old_head with
       | Some h => update_slot h (set_prev (Some idx)) c
       | None => Some c
       end);
  let c := set_head (Some idx) c in
  Some (match kc_tail c with None => set_tail (Some idx) c | Some _ => c end).

Definition cache_get (fp : KeyFingerprint) (c : KeyCache) : option (option V * KeyCache) :=
  match kc_map c !! fp with
  | None => Some (None, c)
  | Some idx =>
      c ← unlink idx c;
      c ← push_front idx c;
      s ← slot_at idx c;
      Some (Some (sl_value s), c)
  end.

(** [write] is what the caller stores through the reference to the metadata. *)
Definition get_with_meta (write : EntryMeta -> EntryMeta) (fp : KeyFingerprint) (c : KeyCache)
    : option (option (V * EntryMeta) * KeyCache) :=
  match kc_map c !! fp with
  | None => Some (None, c)
  | Some idx =>
      c ← unlink idx c;
      c ← push_front idx c;
      s ← slot_at idx c;
      c ← update_slot idx (fun s => set_meta (write (sl_meta s)) s) c;
      Some (Some (sl_value s, sl_meta s), c)
  end.

Definition evict_lru (c : KeyCache) : option (option V * KeyCache) :=
  match kc_tail c with
  | None => Some (None, c)
  | Some tail =>
      c ← unlink tail c;
      s ← slot_at tail c;
      Some (Some (sl_value s),
            mkCache (delete (sl_fp s) (kc_map c)) (<[tail := None]> (kc_slots c)) (kc_free c ++ [tail])
              (kc_head c) (kc_tail c) (kc_capacity c))
  end.

(** The slot for a new entry: [free.pop()] takes the last free one. *)
Definition place (s : Slot) (c : KeyCache) : option (nat * KeyCache) :=
  match last (kc_free c) with
  | Some free_idx =>
      if bool_decide (free_idx < length (kc_slots c))%nat then
        Some (free_idx,
              mkCache (kc_map c) (<[free_idx := Some s]> (kc_slots c)) (removelast (kc_free c))
                (kc_head c) (kc_tail c) (kc_capacity c))
      else None
  | None => Some (length (kc_slots c), set_slots (kc_slots c ++ [Some s]) c)
  end.

Definition cache_insert (fp : KeyFingerprint) (value : V) (c : KeyCache) : option (option V * KeyCache) :=
  match kc_map c !! fp with
  | Some idx =>
      s ← slot_at idx c;
      c ← update_slot idx (set_value value) c;
      c ← unlink idx c;
      c ← push_front idx c;
      Some (Some (sl_value s), c)
  | None =>
      ec ← (if kc_capacity c <=? Z.of_nat (size (kc_map c)) then evict_lru c else Some (None, c));
      let '(evicted, c) := ec in
      ic ← place (mkSlot fp value EntryMeta_default None None) c;
      let '(idx, c) := ic in
      let c := mkCache (<[fp := idx]> (kc_map c)) (kc_slots c) (kc_free c) (kc_head c) (kc_tail c) (kc_capacity c) in
      c ← push_front idx c;
      Some (evicted, c)
  end.

Definition drain (c : KeyCache) : list V * KeyCache :=
  (omap (fun o => sl_value <$> o) (kc_slots c), mkCache ∅ [] [] None None (kc_capacity c)).

End Cache.
Arguments Slot : clear implicits.
Arguments KeyCache : clear implicits.

(** ** The trackers of the pool *)

(** The variants of the parent crate's [HsmError] that occur here. *)
Inductive PoolError : Type :=
| SessionHandleInvalid | UserNotLoggedIn | TokenNotPresent | SessionClosed
| DeviceMemory | HostMemory | OperationActive | OperationNotInitialized
| KeyFunctionNotPermitted | MechanismParamInvalid | PinIncorrect | PinLocked | OtherError (msg : string).

#[global] Instance PoolError_eq_dec : EqDecision PoolError.
Proof. solve_decision. Defined.

Definition is_session_level (e : PoolError) : bool :=
  match e with
  | SessionHandleInvalid | UserNotLoggedIn | TokenNotPresent | SessionClosed
  | DeviceMemory | HostMemory | OperationActive | OperationNotInitialized => true
  | _ => false
  end.

Abbreviation PoolGcmCounters := (gmap KeyFingerprint Z).
Abbreviation PoolCtrCounters := (gset (KeyFingerprint * list byte)).

Definition gcm_get (fp : KeyFingerprint) (m : PoolGcmCounters) : Z := default 0 (m !! fp).

Definition check_and_increment (fp : KeyFingerprint) (limit : Z) (m : PoolGcmCounters)
    : result Z PoolError * PoolGcmCounters :=
  let current := gcm_get fp m in
  if limit <=? current then (Err KeyFunctionNotPermitted, <[fp := u64_max]> m)
  else
    let next := saturating_add current 1 in
    (Ok next, <[fp := next]> m).

Definition gcm_compact (live : gset KeyFingerprint) (m : PoolGcmCounters) : PoolGcmCounters :=
  filter (fun kv => kv.1 ∈ live \/ kv.2 = u64_max) m.

Definition check_and_record_iv (fp iv : list byte) (s : PoolCtrCounters) : result unit PoolError * PoolCtrCounters :=
  if bool_decide ((fp, iv) ∈ s) then (Err MechanismParamInvalid, s) else (Ok tt, {[(fp, iv)]} ∪ s).

Definition ctr_compact (live : gset KeyFingerprint) (s : PoolCtrCounters) : PoolCtrCounters :=
  filter (fun k => k.1 ∈ live) s.

(** ** The pool *)

(** A session of the token and the handle of an imported object are numbers; the library
    context, the slot and the PIN occur only in [open_and_login]. *)
Record PooledSession : Type := mkPooled {
  po_session : Z;
  po_token : list byte;
  po_cache : KeyCache Z;
}.

Record SessionPool : Type := mkPool {
  sp_sessions : list PooledSession;
  sp_next : Z;
  sp_gcm : PoolGcmCounters;
  sp_ctr : PoolCtrCounters;
}.

Definition set_session (idx : nat) (s : PooledSession) (p : SessionPool) : SessionPool :=
  mkPool (<[idx := s]> (sp_sessions p)) (sp_next p) (sp_gcm p) (sp_ctr p).

(** The sweep over the sessions from [start]: the first one that is not held, or [start];
    the remainder by zero of an empty pool panics. *)
Definition choose_session (busy : nat -> bool) (p : SessionPool) : option (nat * SessionPool) :=
  let n := length (sp_sessions p) in
  if bool_decide (n = 0%nat) then None else
  let start := Z.to_nat (sp_next p mod Z.of_nat n) in
  let idx := default start (find (fun i => negb (busy i)) (map (fun off => (start + off) mod n)%nat (seq 0 n))) in
  Some (idx, mkPool (sp_sessions p) (u64_add (sp_next p) 1) (sp_gcm p) (sp_ctr p)).

(** The fingerprints in the caches of the sessions that can be locked. *)
Definition live_in_pool (busy : nat -> bool) (p : SessionPool) : gset KeyFingerprint :=
  ⋃ (map (fun im : nat * PooledSession => if busy im.1 then ∅ else live_fingerprints (po_cache im.2))
       (zip (seq 0 (length (sp_sessions p))) (sp_sessions p))).

(** [login] is the outcome of [open_and_login], [token] the new random token. *)
Definition reestablish (login : result Z PoolError) (token : list byte) (busy : nat -> bool) (idx : nat)
    (p : SessionPool) : option (result unit PoolError * SessionPool) :=
  s ← sp_sessions p !! idx;
  let drained := mkPooled (po_session s) (po_token s) (drain (po_cache s)).2 in
  let p := set_session idx drained p in
  Some (match login with
        | Err e => (Err e, p)
        | Ok new_session =>
            let fresh := mkPooled new_session token (po_cache drained) in
            let p := set_session idx fresh p in
            let live := live_fingerprints (po_cache fresh) ∪ live_in_pool (fun i => bool_decide (i = idx) || busy i) p in
            (Ok tt, mkPool (sp_sessions p) (sp_next p) (sp_gcm p) (ctr_compact live (sp_ctr p)))
        end).

(** The closure works on the chosen session and the trackers. *)
Definition run_closure {R} (f : nat -> SessionPool -> result R PoolError * SessionPool) (login : result Z PoolError)
    (token : list byte) (busy : nat -> bool) (idx : nat) (p : SessionPool)
    : option (result R PoolError * SessionPool) :=
  match f idx p with
  | (Ok v, p) => Some (Ok v, p)
  | (Err e, p) =>
      if is_session_level e then
        rp ← reestablish login token busy idx p;
        match rp with
        | (Err e, p) => Some (Err e, p)
        | (Ok _, p) => Some (f idx p)
        end
      else Some (Err e, p)
  end.

Definition with_session {R} (f : nat -> SessionPool -> result R PoolError * SessionPool) (login : result Z PoolError)
    (token : list byte) (busy : nat -> bool) (p : SessionPool) : option (result R PoolError * SessionPool) :=
  '(idx, p) ← choose_session busy p;
  run_closure f login token busy idx p.
