(* ===== verification/Pkcs11Proofs.v ===== *)
(** * Theorems about the PKCS#11 key cache and session pool

    The cache is refined by a list of entries, most recently used first.  The invariant
    says that the links thread the entries in the order of that list, that the map finds
    them, and that the other slots are the free ones. *)

From stdpp Require Import prelude gmap strings list.
From Stdlib Require Import ZArith Lia.
From coqutil Require Import Byte.
From S2P Require Import Prelude RustStd Pkcs11.
Local Open Scope string_scope.
Local Open Scope list_scope.
Local Open Scope Z_scope.

(** ** The reference cache *)

Section Lru.
Context {V : Type}.

Definition Entry : Type := KeyFingerprint * V * EntryMeta.

Definition lru_lookup (fp : KeyFingerprint) (l : list Entry) : option Entry :=
  find (fun e => bool_decide (e.1.1 = fp)) l.

Definition lru_remove (fp : KeyFingerprint) (l : list Entry) : list Entry :=
  filter (fun e : Entry => e.1.1 <> fp) l.

Definition lru_touch (write : EntryMeta -> EntryMeta) (fp : KeyFingerprint) (l : list Entry)
    : option (V * EntryMeta) * list Entry :=
  match lru_lookup fp l with
  | None => (None, l)
  | Some (k, v, m) => (Some (v, m), (k, v, write m) :: lru_remove fp l)
  end.

Definition lru_insert (capacity : Z) (fp : KeyFingerprint) (value : V) (l : list Entry)
    : option V * list Entry :=
  match lru_lookup fp l with
  | Some (k, old, m) => (Some old, (k, value, m) :: lru_remove fp l)
  | None =>
      if capacity <=? len l
      then ((fun e : Entry => e.1.2) <$> last l, (fp, value, EntryMeta_default) :: removelast l)
      else (None, (fp, value, EntryMeta_default) :: l)
  end.

(** ** The invariant *)

Abbreviation Node := (nat * Entry)%type.

Definition slot_of (n : Node) (prev next : option nat) : Slot V :=
  mkSlot n.2.1.1 n.2.1.2 n.2.2 prev next.

Definition first_of (l : list Node) (next : option nat) : option nat :=
  match l with [] => next | n :: _ => Some n.1 end.

Definition last_of (prev : option nat) (l : list Node) : option nat :=
  match last l with None => prev | Some n => Some n.1 end.

Fixpoint chain (slots : list (option (Slot V))) (prev : option nat) (l : list Node) (next : option nat) : Prop :=
  match l with
  | [] => True
  | n :: l => slots !! n.1 = Some (Some (slot_of n prev (first_of l next))) /\ chain slots (Some n.1) l next
  end.

Record links (c : KeyCache V) (l : list Node) : Prop := mkLinks {
  ln_chain : chain (kc_slots c) None l None;
  ln_nodup : NoDup l.*1;
  ln_head : kc_head c = first_of l None;
  ln_tail : kc_tail c = last_of None l;
}.

Definition index_of (l : list Node) : gmap KeyFingerprint nat :=
  list_to_map ((fun n : Node => (n.2.1.1, n.1)) <$> l).

Record tables (c : KeyCache V) (l : list Node) : Prop := mkTables {
  rp_map : kc_map c = index_of l;
  rp_keys : NoDup ((fun n : Node => n.2.1.1) <$> l);
  rp_used : forall i o, kc_slots c !! i = Some o -> o = None \/ i ∈ l.*1;
  rp_free : forall i, i ∈ kc_free c <-> kc_slots c !! i = Some None;
  rp_free_nodup : NoDup (kc_free c);
  rp_capacity : 0 < kc_capacity c /\ len l <= kc_capacity c;
}.

Record rep (c : KeyCache V) (l : list Node) : Prop := mkRep {
  rp_links : links c l;
  rp_tables : tables c l;
}.

(** ** Chains *)

Lemma first_of_app (l k : list Node) next : first_of (l ++ k) next = first_of l (first_of k next).
Proof. by destruct l. Qed.

Lemma last_of_app (l k : list Node) prev : last_of prev (l ++ k) = last_of (last_of prev l) k.
Proof. unfold last_of. rewrite last_app. by destruct (last k). Qed.

Lemma last_of_cons (n : Node) (l : list Node) prev : last_of prev (n :: l) = last_of (Some n.1) l.
Proof. apply (last_of_app [n] l). Qed.

Lemma last_of_some i (l : list Node) : exists t, last_of (Some i) l = Some t.
Proof. unfold last_of. destruct (last l); eauto. Qed.

Lemma chain_app slots (l k : list Node) prev next :
  chain slots prev (l ++ k) next <->
  chain slots prev l (first_of k next) /\ chain slots (last_of prev l) k next.
Proof.
  revert prev. induction l as [|n l IH]; intros prev; [naive_solver|].
  rewrite last_of_cons. cbn [chain app]. rewrite IH, first_of_app. tauto.
Qed.

Lemma chain_frame slots (l : list Node) prev next i x :
  i ∉ l.*1 -> chain slots prev l next -> chain (<[i := x]> slots) prev l next.
Proof.
  revert prev. induction l as [|n l IH]; intros prev; [done|].
  rewrite fmap_cons, not_elem_of_cons. intros [? Hl] [? ?]. split; [|by apply IH].
  by rewrite list_lookup_insert_ne.
Qed.

Lemma chain_extend slots (l : list Node) prev next x :
  chain slots prev l next -> chain (slots ++ [x]) prev l next.
Proof.
  revert prev. induction l as [|n l IH]; intros prev; [done|].
  intros [H ?]. split; [|by apply IH]. rewrite lookup_app_l; [done|].
  by eapply lookup_lt_Some.
Qed.

Lemma chain_slot slots (l k : list Node) (n : Node) prev next :
  chain slots prev (l ++ n :: k) next ->
  slots !! n.1 = Some (Some (slot_of n (last_of prev l) (first_of k next))).
Proof. rewrite chain_app. naive_solver. Qed.

Lemma chain_set_first slots (l : list Node) (n : Node) prev prev' next :
  n.1 ∉ l.*1 -> chain slots prev (n :: l) next ->
  chain (<[n.1 := Some (set_prev prev' (slot_of n prev (first_of l next)))]> slots) prev' (n :: l) next.
Proof.
  intros Hn [H Hc]. split; [|by apply chain_frame].
  rewrite list_lookup_insert_eq by (by eapply lookup_lt_Some). done.
Qed.

Lemma chain_set_last slots (l : list Node) (n : Node) prev next next' :
  n.1 ∉ l.*1 -> chain slots prev (l ++ [n]) next ->
  chain (<[n.1 := Some (set_next next' (slot_of n (last_of prev l) next))]> slots) prev (l ++ [n]) next'.
Proof.
  rewrite !chain_app. intros Hn [Hl [H _]]. split; [by apply chain_frame|]. split; [|done].
  rewrite list_lookup_insert_eq by (by eapply lookup_lt_Some). done.
Qed.

(** ** The link operations *)

Lemma slot_at_some i (c : KeyCache V) s : kc_slots c !! i = Some (Some s) -> slot_at i c = Some s.
Proof. unfold slot_at. by intros ->. Qed.

Lemma update_slot_some i f (c : KeyCache V) s :
  kc_slots c !! i = Some (Some s) ->
  update_slot i f c = Some (set_slots (<[i := Some (f s)]> (kc_slots c)) c).
Proof. intros H. unfold update_slot. by rewrite (slot_at_some _ _ _ H). Qed.

(** The fields the link operations leave alone, and which slots are empty. *)
Definition same_frame (c c' : KeyCache V) : Prop :=
  kc_map c' = kc_map c /\ kc_free c' = kc_free c /\ kc_capacity c' = kc_capacity c /\
  forall i, (kc_slots c' !! i = None <-> kc_slots c !! i = None) /\
            (kc_slots c' !! i = Some None <-> kc_slots c !! i = Some None).

#[local] Instance same_frame_pre : PreOrder same_frame.
Proof.
  split; [done|]. intros ??? (?&?&?&F) (?&?&?&G). split_and!; [congruence..|].
  intros i. specialize (F i). specialize (G i). tauto.
Qed.

Lemma update_slot_frame i f (c c' : KeyCache V) : update_slot i f c = Some c' -> same_frame c c'.
Proof.
  unfold update_slot, slot_at. destruct (kc_slots c !! i) as [[s|]|] eqn:E; simpl; intros [= <-].
  repeat split; simpl; intros;
    destruct (decide (i = i0)) as [<-|];
    rewrite ?list_lookup_insert_eq, ?list_lookup_insert_ne in * by (done || by eapply lookup_lt_Some); congruence.
Qed.

Lemma set_head_frame x (c : KeyCache V) : same_frame c (set_head x c).
Proof. done. Qed.
Lemma set_tail_frame x (c : KeyCache V) : same_frame c (set_tail x c).
Proof. done. Qed.

Lemma unlink_frame i (c c' : KeyCache V) : unlink i c = Some c' -> same_frame c c'.
Proof.
  unfold unlink. intros (s & _ & (c1 & H1 & (c2 & H2 & H3)%bind_Some)%bind_Some)%bind_Some.
  trans c1; [destruct (sl_prev s); simplify_eq; eauto using update_slot_frame, set_head_frame|].
  trans c2; [destruct (sl_next s); simplify_eq; eauto using update_slot_frame, set_tail_frame|].
  eauto using update_slot_frame.
Qed.

Lemma push_front_frame i (c c' : KeyCache V) : push_front i c = Some c' -> same_frame c c'.
Proof.
  unfold push_front. intros (c1 & H1 & (c2 & H2 & H3)%bind_Some)%bind_Some.
  trans c1; [eauto using update_slot_frame|].
  trans c2; [destruct (kc_head c); simplify_eq; [eauto using update_slot_frame|reflexivity]|].
  simpl in H3. destruct (kc_tail c2); simplify_eq; done.
Qed.

Lemma nodup_mid (l k : list Node) (n : Node) :
  NoDup (l ++ n :: k).*1 ->
  NoDup (l ++ k).*1 /\ n.1 ∉ l.*1 /\ n.1 ∉ k.*1 /\ (forall x, x ∈ l.*1 -> x ∉ k.*1).
Proof.
  rewrite !fmap_app, fmap_cons. intros (Hl & Hd & [Hn Hk]%NoDup_cons)%NoDup_app.
  rewrite NoDup_app. set_solver.
Qed.

(** [unlink] first redirects the forward link around the node ... *)
Lemma unlink_prev (c : KeyCache V) (l k : list Node) (n : Node) :
  links c (l ++ n :: k) ->
  exists c', (match last_of None l with
              | Some p => update_slot p (set_next (first_of k None)) c
              | None => Some (set_head (first_of k None) c)
              end) = Some c' /\
    chain (kc_slots c') None l (first_of k None) /\
    kc_slots c' !! n.1 = Some (Some (slot_of n (last_of None l) (first_of k None))) /\
    chain (kc_slots c') (Some n.1) k None /\
    kc_head c' = first_of (l ++ k) None /\ kc_tail c' = kc_tail c.
Proof.
  intros [Hc Hn Hh Ht]. destruct (nodup_mid _ _ _ Hn) as (_ & Hnl & Hnk & Hd).
  apply chain_app in Hc as [Hl [Hs Hk]]. destruct l as [|p l _] using rev_ind.
  { eexists. split; [done|]. done. }
  rewrite first_of_app. rewrite first_of_app in Hh. unfold last_of at 1. rewrite last_snoc.
  pose proof (chain_slot _ l [] p _ _ Hl) as Hp. rewrite (update_slot_some _ _ _ _ Hp).
  rewrite fmap_app in Hn, Hnl, Hd. eexists. split; [done|]. simpl in Hl |- *.
  assert (p.1 ∉ l.*1). { rewrite fmap_app in Hn. apply NoDup_app in Hn as [Hn _]. apply NoDup_app in Hn. set_solver. }
  split_and!; [by apply chain_set_last| |apply chain_frame; [set_solver|done]| |done].
  - rewrite list_lookup_insert_ne by set_solver. done.
  - rewrite Hh, first_of_app. by destruct l.
Qed.

(** ... and then the backward link. *)
Lemma unlink_next (c : KeyCache V) (l k : list Node) (n : Node) :
  NoDup (l ++ n :: k).*1 ->
  chain (kc_slots c) None l (first_of k None) ->
  kc_slots c !! n.1 = Some (Some (slot_of n (last_of None l) (first_of k None))) ->
  chain (kc_slots c) (Some n.1) k None ->
  kc_tail c = last_of None (l ++ n :: k) ->
  exists c', (match first_of k None with
              | Some p => update_slot p (set_prev (last_of None l)) c
              | None => Some (set_tail (last_of None l) c)
              end) = Some c' /\
    chain (kc_slots c') None (l ++ k) None /\
    kc_slots c' !! n.1 = Some (Some (slot_of n (last_of None l) (first_of k None))) /\
    kc_head c' = kc_head c /\ kc_tail c' = last_of None (l ++ k).
Proof.
  intros Hn Hl Hs Hk Ht. destruct (nodup_mid _ _ _ Hn) as (Hlk & Hnl & Hnk & Hd).
  destruct k as [|q k].
  { eexists. split; [done|]. rewrite app_nil_r. done. }
  simpl. destruct Hk as [Hq Hk]. rewrite (update_slot_some _ _ _ _ Hq).
  eexists. split; [done|]. simpl in Hl |- *.
  assert (q.1 ∉ k.*1). { rewrite fmap_app, fmap_cons in Hlk. apply NoDup_app in Hlk as (_&_&[??]%NoDup_cons). done. }
  split_and!; [|rewrite list_lookup_insert_ne by set_solver; done|done|].
  - apply chain_app. split; [apply chain_frame; [set_solver|done]|]. by apply chain_set_first.
  - rewrite Ht, !last_of_app. simpl. by rewrite !last_of_cons.
Qed.

Lemma unlink_spec (c : KeyCache V) (l k : list Node) (n : Node) :
  links c (l ++ n :: k) ->
  exists c', unlink n.1 c = Some c' /\ links c' (l ++ k) /\
             kc_slots c' !! n.1 = Some (Some (slot_of n None None)).
Proof.
  intros H. pose proof (ln_nodup _ _ H) as Hn. destruct (nodup_mid _ _ _ Hn) as (? & ? & ? & ?).
  unfold unlink. rewrite (slot_at_some _ _ _ (chain_slot _ _ _ _ _ _ (ln_chain _ _ H))). simpl.
  destruct (unlink_prev _ _ _ _ H) as (c1 & -> & Hl & Hs & Hk & Hh & Ht). simpl.
  rewrite (ln_tail _ _ H) in Ht.
  destruct (unlink_next _ _ _ _ Hn Hl Hs Hk Ht) as (c2 & -> & Hc & Hs2 & Hh2 & Ht2). simpl.
  rewrite (update_slot_some _ _ _ _ Hs2). eexists. split; [done|]. simpl. split.
  - constructor; simpl; [|done|congruence|done]. apply chain_frame; [|done].
    rewrite fmap_app. set_solver.
  - by rewrite list_lookup_insert_eq by (by eapply lookup_lt_Some).
Qed.

Lemma push_front_spec (c : KeyCache V) (l : list Node) (n : Node) prev next :
  links c l -> n.1 ∉ l.*1 -> kc_slots c !! n.1 = Some (Some (slot_of n prev next)) ->
  exists c', push_front n.1 c = Some c' /\ links c' (n :: l).
Proof.
  intros [Hc Hn Hh Ht] Hnl Hs. unfold push_front. rewrite (update_slot_some _ _ _ _ Hs). simpl.
  apply (chain_frame _ _ _ _ n.1 (Some (slot_of n None (kc_head c)))) in Hc; [|done].
  assert (Hn' : NoDup (n :: l).*1) by (rewrite fmap_cons; by constructor).
  destruct l as [|h l]; simpl in Hh; rewrite Hh in *; simpl in *.
  - eexists. split; [done|]. rewrite Ht. constructor; simpl; try done.
    by rewrite list_lookup_insert_eq by (by eapply lookup_lt_Some).
  - rewrite last_of_cons in Ht. destruct (last_of_some h.1 l) as [t Et]. rewrite Et in Ht.
    erewrite update_slot_some by apply Hc. simpl. rewrite Ht. eexists. split; [done|].
    apply NoDup_cons in Hn as [Hhl Hn].
    constructor; [|done|done|simpl; by rewrite !last_of_cons, Et].
    split; [simpl|by apply chain_set_first].
    rewrite list_lookup_insert_ne by set_solver.
    by rewrite list_lookup_insert_eq by (by eapply lookup_lt_Some).
Qed.

(** ** The invariant under the operations *)

Abbreviation keys l := ((fun n : Node => n.2.1.1) <$> l).

Lemma index_of_dom (l : list Node) fp : fp ∈ keys l <-> is_Some (index_of l !! fp).
Proof.
  unfold index_of. rewrite <- elem_of_dom, dom_list_to_map_L, elem_of_list_to_set.
  by rewrite <- list_fmap_compose.
Qed.

Lemma index_of_perm (l k : list Node) : NoDup (keys l) -> l ≡ₚ k -> index_of l = index_of k.
Proof.
  intros Hn Hp. unfold index_of. apply list_to_map_proper; [|by rewrite Hp].
  by rewrite <- list_fmap_compose.
Qed.

Lemma index_of_size (l : list Node) : NoDup (keys l) -> size (index_of l) = length l.
Proof.
  intros Hn. unfold index_of. rewrite <- size_dom, dom_list_to_map_L, size_list_to_set.
  - by rewrite !length_fmap.
  - by rewrite <- list_fmap_compose.
Qed.

Lemma used_frame (c c' : KeyCache V) (P : nat -> Prop) :
  same_frame c c' -> (forall i o, kc_slots c !! i = Some o -> o = None \/ P i) ->
  forall i o, kc_slots c' !! i = Some o -> o = None \/ P i.
Proof.
  intros (_ & _ & _ & Es) Hu i o Ho. destruct (Es i) as [E1 E2]. destruct o as [s|]; [right|by left].
  destruct (kc_slots c !! i) as [o|] eqn:E; [|rewrite (proj2 E1 eq_refl) in Ho; done].
  destruct (Hu i o E) as [->|]; [|done]. rewrite (proj2 E2 eq_refl) in Ho. done.
Qed.

Lemma tables_frame (c c' : KeyCache V) (l l' : list Node) :
  tables c l -> same_frame c c' -> l ≡ₚ l' -> tables c' l'.
Proof.
  intros [Hm Hk Hu Hf Hfn Hc] Hfr Hp. pose proof Hfr as (Em & Ef & Ec & Es). constructor.
  - rewrite Em, Hm. by apply index_of_perm.
  - by rewrite <- Hp.
  - apply (used_frame c); [done|]. intros i o Ho. rewrite <- Hp. eauto.
  - intros i. rewrite Ef, Hf. destruct (Es i). tauto.
  - by rewrite Ef.
  - rewrite Ec. unfold len in *. by rewrite <- Hp.
Qed.

Lemma lru_lookup_none (l : list Node) fp : fp ∉ keys l -> lru_lookup fp l.*2 = None.
Proof.
  induction l as [|n l IH]; [done|]. rewrite fmap_cons, not_elem_of_cons. intros [? ?].
  simpl. rewrite bool_decide_false by congruence. by apply IH.
Qed.

Lemma lru_lookup_mid (l k : list Node) (n : Node) :
  n.2.1.1 ∉ keys l -> lru_lookup n.2.1.1 (l ++ n :: k).*2 = Some n.2.
Proof.
  induction l as [|x l IH]; simpl; [by rewrite bool_decide_true|].
  rewrite not_elem_of_cons. intros [? ?]. rewrite bool_decide_false by congruence. by apply IH.
Qed.

Lemma lru_remove_none (l : list Node) fp : fp ∉ keys l -> lru_remove fp l.*2 = l.*2.
Proof.
  induction l as [|n l IH]; [done|]. rewrite fmap_cons, not_elem_of_cons. intros [? ?].
  unfold lru_remove. cbn [fmap list_fmap]. rewrite filter_cons_True by congruence. f_equal. by apply IH.
Qed.

Lemma lru_remove_mid (l k : list Node) (n : Node) :
  n.2.1.1 ∉ keys l -> n.2.1.1 ∉ keys k -> lru_remove n.2.1.1 (l ++ n :: k).*2 = (l ++ k).*2.
Proof.
  intros Hl Hk. rewrite !fmap_app, fmap_cons. unfold lru_remove.
  rewrite filter_app, filter_cons_False by naive_solver.
  f_equal; by apply lru_remove_none.
Qed.

Lemma rep_split (c : KeyCache V) (l : list Node) fp i :
  rep c l -> kc_map c !! fp = Some i ->
  exists l1 n l2, l = l1 ++ n :: l2 /\ n.1 = i /\ n.2.1.1 = fp /\
    lru_lookup fp l.*2 = Some n.2 /\ lru_remove fp l.*2 = (l1 ++ l2).*2.
Proof.
  intros H Hi. rewrite (rp_map _ _ (rp_tables _ _ H)) in Hi.
  apply elem_of_list_to_map_2, list_elem_of_fmap in Hi as (n & [= -> ->] & Hin).
  apply list_elem_of_split in Hin as (l1 & l2 & ->). exists l1, n, l2.
  pose proof (rp_keys _ _ (rp_tables _ _ H)) as Hk. rewrite fmap_app, fmap_cons in Hk.
  apply NoDup_app in Hk as (_ & Hd & [Hn _]%NoDup_cons).
  split_and!; [done..|apply lru_lookup_mid|apply lru_remove_mid; [|done]]; set_solver.
Qed.

Lemma rep_absent (c : KeyCache V) (l : list Node) fp :
  rep c l -> kc_map c !! fp = None -> fp ∉ keys l /\ lru_lookup fp l.*2 = None.
Proof.
  intros H Hi. rewrite (rp_map _ _ (rp_tables _ _ H)) in Hi.
  assert (fp ∉ keys l). { rewrite index_of_dom, Hi. by intros []. }
  split; [done|]. by apply lru_lookup_none.
Qed.

(** Moving an entry to the front. *)
Lemma touch_spec (c : KeyCache V) (l k : list Node) (n : Node) :
  rep c (l ++ n :: k) ->
  exists c1 c2, unlink n.1 c = Some c1 /\ push_front n.1 c1 = Some c2 /\ rep c2 (n :: l ++ k) /\
    kc_capacity c2 = kc_capacity c.
Proof.
  intros H. destruct (unlink_spec _ _ _ _ (rp_links _ _ H)) as (c1 & E1 & Hl1 & Hs1).
  destruct (nodup_mid _ _ _ (ln_nodup _ _ (rp_links _ _ H))) as (_ & ? & ? & _).
  assert (n.1 ∉ (l ++ k).*1) as Hnew by (rewrite fmap_app; set_solver).
  destruct (push_front_spec c1 _ n _ _ Hl1 Hnew Hs1) as (c2 & E2 & Hl2).
  assert (same_frame c c2) as Hfr by (trans c1; eauto using unlink_frame, push_front_frame).
  exists c1, c2. split_and!; [done..| |apply Hfr]. split; [done|].
  eapply tables_frame; [apply H|done|]. symmetry. apply Permutation_middle.
Qed.

(** Changing the value or the metadata of an entry. *)
Lemma rep_write (c : KeyCache V) (l k : list Node) (n n' : Node) f :
  rep c (l ++ n :: k) -> n'.1 = n.1 -> n'.2.1.1 = n.2.1.1 ->
  (forall prev next, f (slot_of n prev next) = slot_of n' prev next) ->
  exists c', update_slot n.1 f c = Some c' /\ rep c' (l ++ n' :: k) /\ kc_capacity c' = kc_capacity c.
Proof.
  intros H Ei Ek Ef. pose proof (rp_links _ _ H) as [Hc Hn Hh Ht].
  pose proof (chain_slot _ _ _ _ _ _ Hc) as Hs. rewrite (update_slot_some _ _ _ _ Hs), Ef.
  eexists. split; [done|].
  assert (E1 : (l ++ n' :: k).*1 = (l ++ n :: k).*1) by (rewrite !fmap_app, !fmap_cons, Ei; done).
  assert (E2 : keys (l ++ n' :: k) = keys (l ++ n :: k)) by (rewrite !fmap_app, !fmap_cons, Ek; done).
  assert (E3 : len (l ++ n' :: k) = len (l ++ n :: k)) by (unfold len; rewrite !length_app; done).
  assert (Hfr : same_frame c (set_slots (<[n.1:=Some (slot_of n' (last_of None l) (first_of k None))]> (kc_slots c)) c)).
  { rewrite <- Ef. eapply update_slot_frame. by apply update_slot_some. }
  destruct (nodup_mid _ _ _ Hn) as (_ & ? & ? & _). split; [|done]. split.
  - constructor; simpl; rewrite ?E1; try done.
    + apply chain_app in Hc as [Hl [_ Hk']]. apply chain_app. rewrite <- Ei.
      split; [apply chain_frame; [by rewrite Ei|]; simpl; by rewrite Ei|].
      split; [by rewrite list_lookup_insert_eq by (rewrite Ei; by eapply lookup_lt_Some)|].
      apply chain_frame; [by rewrite Ei|by rewrite Ei].
    + rewrite Hh, !first_of_app. simpl. by rewrite Ei.
    + rewrite Ht, !last_of_app, !last_of_cons. by rewrite Ei.
  - pose proof (tables_frame _ _ _ _ (rp_tables _ _ H) Hfr (reflexivity _)) as [Hm Hk Hu Hf Hfn Hcap].
    constructor; rewrite ?E1, ?E2, ?E3; try done.
    rewrite Hm. unfold index_of. rewrite !fmap_app, !fmap_cons. by rewrite Ei, Ek.
Qed.

(** Evicting the least recently used entry. *)
Lemma evict_spec (c : KeyCache V) (l : list Node) (n : Node) :
  rep c (l ++ [n]) ->
  exists c', evict_lru c = Some (Some n.2.1.2, c') /\ rep c' l /\ kc_capacity c' = kc_capacity c.
Proof.
  intros H. destruct (unlink_spec _ _ _ _ (rp_links _ _ H)) as (c1 & E1 & Hl1 & Hs1).
  destruct (nodup_mid _ _ _ (ln_nodup _ _ (rp_links _ _ H))) as (_ & Hnl & _ & _).
  rewrite app_nil_r in Hl1. pose proof (unlink_frame _ _ _ E1) as Hfr.
  unfold evict_lru. rewrite (ln_tail _ _ (rp_links _ _ H)). unfold last_of. rewrite last_snoc, E1.
  simpl. rewrite (slot_at_some _ _ _ Hs1). simpl. eexists. split_and!; [done| |apply Hfr].
  assert (Hp : l ++ [n] ≡ₚ n :: l) by (by rewrite Permutation_app_comm).
  destruct (tables_frame _ _ _ _ (rp_tables _ _ H) Hfr Hp) as [Hm Hk Hu Hf Hfn Hcap].
  destruct Hl1 as [Hc Hn Hh Ht]. rewrite fmap_cons in Hk. apply NoDup_cons in Hk as [Hnk Hk].
  split; constructor; simpl; try done.
  - by apply chain_frame.
  - rewrite Hm. unfold index_of. simpl. rewrite delete_insert_id; [done|].
    apply not_elem_of_list_to_map_1. by rewrite <- list_fmap_compose.
  - intros i o [[<- [<- _]]|[? Ho]]%list_lookup_insert_Some; [by left|].
    destruct (Hu i o Ho) as [|Hi]; [by left|]. rewrite fmap_cons in Hi. set_solver.
  - intros i. rewrite elem_of_app, list_elem_of_singleton, Hf, list_lookup_insert_Some.
    split; [intros [Hi| ->]|].
    + right. split; [|done]. intros <-. by rewrite Hs1 in Hi.
    + left. split_and!; [done..|by eapply lookup_lt_Some].
    + intros [(<-&_&_)|[_ ?]]; auto.
  - apply NoDup_app. split_and!; [done| |apply NoDup_singleton].
    intros i Hi ->%list_elem_of_singleton. apply Hf in Hi. by rewrite Hs1 in Hi.
  - rewrite len_cons in Hcap. lia.
Qed.

Lemma chain_occupied slots (l : list Node) prev next i :
  chain slots prev l next -> i ∈ l.*1 -> exists s, slots !! i = Some (Some s).
Proof.
  intros Hc (n & -> & (l1 & l2 & ->)%list_elem_of_split)%list_elem_of_fmap.
  eexists. by eapply chain_slot.
Qed.

Lemma lookup_snoc_Some' {A} (l : list A) x i y :
  (l ++ [x]) !! i = Some y <-> (i = length l /\ y = x) \/ (i <> length l /\ l !! i = Some y).
Proof.
  rewrite lookup_snoc_Some. split; [intros [[? ?]|[? ?]]|intros [[? ?]|[? H]]]; eauto with lia.
  apply lookup_lt_Some in H as ?. eauto with lia.
Qed.

(** The cache between [map.insert] and [push_front]. *)
Definition indexed (fp : KeyFingerprint) (idx : nat) (c : KeyCache V) : KeyCache V :=
  mkCache (<[fp := idx]> (kc_map c)) (kc_slots c) (kc_free c) (kc_head c) (kc_tail c) (kc_capacity c).

Lemma place_free (c : KeyCache V) (l : list Node) fp v m :
  rep c l -> fp ∉ keys l -> len l < kc_capacity c ->
  exists idx c1, let n := (idx, (fp, v, m)) in
    place (slot_of n None None) c = Some (idx, c1) /\ kc_capacity c1 = kc_capacity c /\ idx ∉ l.*1 /\
    links (indexed fp idx c1) l /\ kc_slots c1 !! idx = Some (Some (slot_of n None None)) /\
    tables (indexed fp idx c1) (n :: l).
Proof.
  intros [[Hc Hn Hh Ht] [Hm Hk Hu Hf Hfn Hcap]] Hfp Hlen. unfold place.
  assert (Hnew : forall idx : nat, (forall s, kc_slots c !! idx <> Some (Some s)) -> idx ∉ l.*1).
  { intros idx Hidx Hin. destruct (chain_occupied _ _ _ _ _ Hc Hin) as [s Hs]. by apply (Hidx s). }
  assert (Hmap : forall idx : nat, <[fp := idx]> (kc_map c) = index_of ((idx, (fp, v, m)) :: l)) by (intros; by rewrite Hm).
  destruct (last (kc_free c)) as [f|] eqn:E; [apply last_Some in E as [fr E]|].
  - rewrite E in Hf, Hfn |- *. rewrite removelast_last. assert (Hfree : kc_slots c !! f = Some None) by (apply Hf; set_solver).
    pose proof (lookup_lt_Some _ _ _ Hfree). rewrite bool_decide_true by done.
    exists f. eexists. split; [done|]. simpl. apply NoDup_app in Hfn as (Hfr & Hd & _).
    split_and!; [done|apply Hnew; intros s; by rewrite Hfree| |by rewrite list_lookup_insert_eq|].
    + constructor; simpl; try done. apply chain_frame; [|done]. apply Hnew. intros s. by rewrite Hfree.
    + constructor; simpl; [apply Hmap|by constructor| | |done|rewrite len_cons; lia].
      * intros i o [[<- _]|[? Ho]]%list_lookup_insert_Some; [set_solver|]. destruct (Hu i o Ho); set_solver.
      * intros i. rewrite list_lookup_insert_Some, <- Hf. set_solver.
  - exists (length (kc_slots c)). eexists. split; [done|]. simpl.
    assert (Hout : kc_slots c !! length (kc_slots c) = None) by (by apply lookup_ge_None).
    split_and!; [done|apply Hnew; intros s; by rewrite Hout| |by rewrite list_lookup_middle|].
    + constructor; simpl; try done. by apply chain_extend.
    + constructor; simpl; [apply Hmap|by constructor| | |done|rewrite len_cons; lia].
      * intros i o [[-> _]|[? Hi]]%lookup_snoc_Some'; [set_solver|]. destruct (Hu i o Hi); set_solver.
      * intros i. rewrite lookup_snoc_Some', Hf. naive_solver.
Qed.

(** ** The operations against the reference *)

Lemma get_spec (c : KeyCache V) (l : list Node) fp :
  rep c l ->
  exists c' l', cache_get fp c = Some (fst <$> (lru_touch id fp l.*2).1, c') /\ rep c' l' /\
    l'.*2 = (lru_touch id fp l.*2).2 /\ kc_capacity c' = kc_capacity c.
Proof.
  intros H. unfold cache_get, lru_touch. destruct (kc_map c !! fp) as [i|] eqn:E.
  - destruct (rep_split _ _ _ _ H E) as (l1 & n & l2 & -> & <- & <- & -> & ->).
    destruct (touch_spec _ _ _ _ H) as (c1 & c2 & E1 & E2 & H2 & Hcap). rewrite E1. simpl. rewrite E2. simpl.
    rewrite (slot_at_some _ _ _ (proj1 (ln_chain _ _ (rp_links _ _ H2)))). simpl.
    destruct n as [i [[k v] m]]. eexists _, ((i, (k, v, m)) :: l1 ++ l2). done.
  - destruct (rep_absent _ _ _ H E) as [_ ->]. by exists c, l.
Qed.

Lemma get_with_meta_spec (c : KeyCache V) (l : list Node) write fp :
  rep c l ->
  exists c' l', get_with_meta write fp c = Some ((lru_touch write fp l.*2).1, c') /\ rep c' l' /\
    l'.*2 = (lru_touch write fp l.*2).2 /\ kc_capacity c' = kc_capacity c.
Proof.
  intros H. unfold get_with_meta, lru_touch. destruct (kc_map c !! fp) as [i|] eqn:E.
  - destruct (rep_split _ _ _ _ H E) as (l1 & n & l2 & -> & <- & <- & -> & ->).
    destruct (touch_spec _ _ _ _ H) as (c1 & c2 & E1 & E2 & H2 & Hcap). rewrite E1. simpl. rewrite E2. simpl.
    rewrite (slot_at_some _ _ _ (proj1 (ln_chain _ _ (rp_links _ _ H2)))). simpl.
    destruct n as [i [[k v] m]].
    destruct (rep_write _ [] (l1 ++ l2) _ (i, (k, v, write m)) (fun s => set_meta (write (sl_meta s)) s) H2)
      as (c3 & E3 & H3 & Hcap3); [done..|].
    simpl in E3 |- *. rewrite E3. eexists _, ((i, (k, v, write m)) :: l1 ++ l2). simpl in *.
    split_and!; [done..|congruence].
  - destruct (rep_absent _ _ _ H E) as [_ ->]. by exists c, l.
Qed.

Lemma insert_present_spec (c : KeyCache V) (l : list Node) fp value i :
  rep c l -> kc_map c !! fp = Some i ->
  exists c' l', cache_insert fp value c = Some ((lru_insert (kc_capacity c) fp value l.*2).1, c') /\ rep c' l' /\
    l'.*2 = (lru_insert (kc_capacity c) fp value l.*2).2 /\ kc_capacity c' = kc_capacity c.
Proof.
  intros H E. unfold cache_insert, lru_insert. rewrite E.
  destruct (rep_split _ _ _ _ H E) as (l1 & n & l2 & -> & <- & <- & -> & ->).
  rewrite (slot_at_some _ _ _ (chain_slot _ _ _ _ _ _ (ln_chain _ _ (rp_links _ _ H)))). simpl.
  destruct n as [i [[k v] m]].
  destruct (rep_write _ _ _ _ (i, (k, value, m)) (set_value value) H) as (c1 & E1 & H1 & Hcap1); [done..|].
  simpl in E1 |- *. rewrite E1. simpl.
  destruct (touch_spec _ _ _ _ H1) as (c2 & c3 & E2 & E3 & H3 & Hcap). simpl in E2, E3. rewrite E2. simpl.
  rewrite E3. eexists _, ((i, (k, value, m)) :: l1 ++ l2). split_and!; [done..|congruence].
Qed.

(** A new entry, once there is room for it. *)
Lemma insert_fresh_spec (c : KeyCache V) (l : list Node) fp value (evicted : option V) :
  rep c l -> fp ∉ keys l -> len l < kc_capacity c ->
  exists c' i, 
    (ic ← place (mkSlot fp value EntryMeta_default None None) c;
     let '(idx, c) := ic in
     c ← push_front idx (indexed fp idx c);
     Some (evicted, c)) = Some (evicted, c') /\
    rep c' ((i, (fp, value, EntryMeta_default)) :: l) /\ kc_capacity c' = kc_capacity c.
Proof.
  intros H Hfp Hlen.
  destruct (place_free _ _ _ value EntryMeta_default H Hfp Hlen) as (idx & c1 & E1 & Hcap & Hnew & Hl & Hs & Ht).
  unfold slot_of in E1. simpl in E1. rewrite E1. simpl.
  destruct (push_front_spec _ _ (idx, (fp, value, EntryMeta_default)) _ _ Hl Hnew Hs) as (c2 & E2 & Hl2).
  simpl in E2. rewrite E2. simpl. pose proof (push_front_frame _ _ _ E2) as Hfr. eexists c2, idx. split; [done|].
  split; [split; [done|by eapply tables_frame]|]. destruct Hfr as (_&_&->&_). done.
Qed.

Lemma insert_spec (c : KeyCache V) (l : list Node) fp value :
  rep c l ->
  exists c' l', cache_insert fp value c = Some ((lru_insert (kc_capacity c) fp value l.*2).1, c') /\ rep c' l' /\
    l'.*2 = (lru_insert (kc_capacity c) fp value l.*2).2 /\ kc_capacity c' = kc_capacity c.
Proof.
  intros H. destruct (kc_map c !! fp) as [i|] eqn:E; [by eapply insert_present_spec|].
  destruct (rep_absent _ _ _ H E) as [Hfp Hnone]. unfold cache_insert, lru_insert. rewrite E, Hnone.
  destruct (rp_tables _ _ H) as [Hm Hk _ _ _ Hcap].
  rewrite Hm, index_of_size by done. unfold len. rewrite length_fmap.
  destruct (decide (kc_capacity c <= Z.of_nat (length l))).
  - rewrite !(proj2 (Z.leb_le _ _)) by done.
    destruct l as [|n l _] using rev_ind; [unfold len in Hcap; simpl in *; lia|].
    destruct (evict_spec _ _ _ H) as (c1 & E1 & H1 & Hcap1). rewrite E1. simpl.
    rewrite fmap_app in Hfp. unfold len in Hcap. rewrite length_app in Hcap. simpl in Hcap.
    destruct (insert_fresh_spec c1 l fp value (Some n.2.1.2) H1) as (c2 & i & E2 & H2 & Hcap2);
      [set_solver|unfold len; lia|].
    unfold indexed in E2. rewrite E2. exists c2, ((i, (fp, value, EntryMeta_default)) :: l).
    rewrite fmap_app. simpl. rewrite last_snoc, removelast_last.
    split_and!; [done..|congruence].
  - rewrite !(proj2 (Z.leb_gt _ _)) by lia.
    destruct (insert_fresh_spec c l fp value None H) as (c2 & i & E2 & H2 & Hcap2); [done|unfold len; lia|].
    unfold indexed in E2. simpl. rewrite E2. exists c2, ((i, (fp, value, EntryMeta_default)) :: l).
    done.
Qed.

Lemma omap_by_index {A B} (f : A -> option B) (l : list A) :
  omap f l = omap (fun i => l !! i ≫= f) (seq 0 (length l)).
Proof.
  induction l as [|x l IH] using rev_ind; [done|].
  rewrite length_app, seq_app, !omap_app. simpl. rewrite list_lookup_middle by done. simpl. f_equal.
  rewrite IH. apply list_omap_ext, Forall_Forall2_diag, Forall_seq. intros i Hi.
  by rewrite lookup_app_l by lia.
Qed.

Lemma omap_filter_out {A B} (f : A -> option B) (P : A -> Prop) `{forall x, Decision (P x)} (l : list A) :
  (forall x, ~ P x -> f x = None) -> omap f (filter P l) = omap f l.
Proof.
  intros Hf. induction l as [|x l IH]; [done|]. destruct (decide (P x)).
  - rewrite filter_cons_True by done. cbn [omap list_omap]. by rewrite IH.
  - rewrite filter_cons_False by done. simpl. by rewrite (Hf x).
Qed.

Lemma chain_values slots (l : list Node) prev next :
  chain slots prev l next ->
  omap (fun i => slots !! i ≫= fun o => sl_value <$> o) l.*1 = (fun n : Node => n.2.1.2) <$> l.
Proof.
  revert prev. induction l as [|n l IH]; intros prev; [done|]. intros [Hs Hc].
  simpl. rewrite Hs. simpl. f_equal. by eapply IH.
Qed.

Lemma drain_spec (c : KeyCache V) (l : list Node) :
  rep c l -> (drain c).1 ≡ₚ (fun e : Entry => e.1.2) <$> l.*2 /\ rep (drain c).2 [] /\
  kc_capacity (drain c).2 = kc_capacity c.
Proof.
  intros [[Hc Hn Hh Ht] [Hm Hk Hu Hf Hfn Hcap]]. split; [|split; [|done]].
  - unfold drain. simpl. rewrite omap_by_index, <- list_fmap_compose.
    rewrite <- (omap_filter_out _ (fun i => i ∈ l.*1)).
    + erewrite <- chain_values by done. apply omap_Permutation, NoDup_Permutation;
        [apply NoDup_filter, NoDup_seq|done|]. intros i. rewrite list_elem_of_filter, elem_of_seq.
      split; [tauto|]. intros Hi. destruct (chain_occupied _ _ _ _ _ Hc Hi) as [s Hs].
      apply lookup_lt_Some in Hs. split; [done|lia].
    + intros i Hi. destruct (kc_slots c !! i) as [o|] eqn:E; [|done]. destruct (Hu i o E) as [->|]; done.
  - split; constructor; simpl; try done; try (by constructor).
    + intros i. set_solver.
    + unfold len. simpl. lia.
Qed.

(** ** Runs *)

Inductive CacheOp : Type :=
| Get (fp : KeyFingerprint)
| GetWithMeta (write : EntryMeta -> EntryMeta) (fp : KeyFingerprint)
| Insert (fp : KeyFingerprint) (value : V)
| Drain.

Inductive CacheAnswer : Type :=
| Found (v : option V) | FoundMeta (vm : option (V * EntryMeta)) | ToDestroy (v : option V) | Drained (vs : list V).

Definition cache_step (op : CacheOp) (c : KeyCache V) : option (CacheAnswer * KeyCache V) :=
  match op with
  | Get fp => '(v, c) ← cache_get fp c; Some (Found v, c)
  | GetWithMeta write fp => '(v, c) ← get_with_meta write fp c; Some (FoundMeta v, c)
  | Insert fp value => '(v, c) ← cache_insert fp value c; Some (ToDestroy v, c)
  | Drain => Some (Drained (drain c).1, (drain c).2)
  end.

Definition lru_step (capacity : Z) (op : CacheOp) (l : list Entry) : CacheAnswer * list Entry :=
  match op with
  | Get fp => let '(v, l) := lru_touch id fp l in (Found (fst <$> v), l)
  | GetWithMeta write fp => let '(v, l) := lru_touch write fp l in (FoundMeta v, l)
  | Insert fp value => let '(v, l) := lru_insert capacity fp value l in (ToDestroy v, l)
  | Drain => (Drained ((fun e : Entry => e.1.2) <$> l), [])
  end.

Fixpoint lru_cache_run (ops : list CacheOp) (c : KeyCache V) : option (list CacheAnswer * KeyCache V) :=
  match ops with
  | [] => Some ([], c)
  | op :: ops => '(a, c) ← cache_step op c; '(rest, c) ← lru_cache_run ops c; Some (a :: rest, c)
  end.

Fixpoint lru_run (capacity : Z) (ops : list CacheOp) (l : list Entry) : list CacheAnswer * list Entry :=
  match ops with
  | [] => ([], l)
  | op :: ops =>
      let '(a, l) := lru_step capacity op l in
      let '(rest, l) := lru_run capacity ops l in (a :: rest, l)
  end.

(** [drain] returns the values in the order of the slots. *)
Definition same_answer (a b : CacheAnswer) : Prop :=
  match a, b with Drained vs, Drained ws => vs ≡ₚ ws | _, _ => a = b end.

Lemma step_refines (c : KeyCache V) (l : list Node) op :
  rep c l ->
  exists a c' l', cache_step op c = Some (a, c') /\ rep c' l' /\ kc_capacity c' = kc_capacity c /\
    same_answer a (lru_step (kc_capacity c) op l.*2).1 /\ l'.*2 = (lru_step (kc_capacity c) op l.*2).2.
Proof.
  intros H. destruct op as [fp|write fp|fp value|]; simpl.
  - destruct (get_spec c l fp H) as (c' & l' & -> & H' & E & Hcap). simpl.
    destruct (lru_touch id fp l.*2). eexists _, c', l'. done.
  - destruct (get_with_meta_spec c l write fp H) as (c' & l' & -> & H' & E & Hcap). simpl.
    destruct (lru_touch write fp l.*2). eexists _, c', l'. done.
  - destruct (insert_spec c l fp value H) as (c' & l' & -> & H' & E & Hcap). simpl.
    destruct (lru_insert _ fp value l.*2). eexists _, c', l'. done.
  - destruct (drain_spec c l H) as (Hp & H' & Hcap). eexists _, _, []. done.
Qed.

Lemma run_refines (ops : list CacheOp) (c : KeyCache V) (l : list Node) :
  rep c l ->
  exists answers c' l', lru_cache_run ops c = Some (answers, c') /\ rep c' l' /\ kc_capacity c' = kc_capacity c /\
    Forall2 same_answer answers (lru_run (kc_capacity c) ops l.*2).1 /\ l'.*2 = (lru_run (kc_capacity c) ops l.*2).2.
Proof.
  revert c l. induction ops as [|op ops IH]; intros c l H; [by exists [], c, l|]. simpl.
  destruct (step_refines c l op H) as (a & c1 & l1 & -> & H1 & Hcap1 & Ha & El1). simpl.
  destruct (IH c1 l1 H1) as (rest & c2 & l2 & -> & H2 & Hcap2 & Hr & El2). simpl.
  destruct (lru_step _ op l.*2) as [b lb]. simpl in Ha, El1. subst lb.
  rewrite Hcap1 in Hr, El2. destruct (lru_run _ ops l1.*2) as [bs lbs]. simpl in Hr, El2 |- *.
  exists (a :: rest), c2, l2. split_and!; [done|done|congruence|by constructor|done].
Qed.

Lemma new_rep capacity (c : KeyCache V) : 0 < capacity -> try_new capacity = Some c -> rep c [] /\ kc_capacity c = capacity.
Proof.
  intros Hpos. unfold try_new. rewrite (proj2 (Z.eqb_neq _ _)) by lia. intros [= <-]. split; [|done].
  split; constructor; simpl; try done; try (by constructor); try (intros; set_solver).
  unfold len. simpl. lia.
Qed.

(** C15: from a new cache of positive capacity, every sequence of lookups, insertions and
    drains runs without a panic and gives the answers of a list of entries kept in the
    order of their last use: a lookup moves its entry to the front and keeps its
    metadata, inserting a fingerprint again returns the handle it replaces, inserting
    a new one into a full cache returns the handle of the last entry, and [drain]
    returns each handle once.  The fingerprints found are those of the list, at most
    [capacity] of them. *)
Theorem cache_refines_lru (capacity : Z) (ops : list CacheOp) (c : KeyCache V) :
  0 < capacity -> try_new capacity = Some c ->
  exists answers c', lru_cache_run ops c = Some (answers, c') /\
    Forall2 same_answer answers (lru_run capacity ops []).1 /\
    live_fingerprints c' = list_to_set ((fun e : Entry => e.1.1) <$> (lru_run capacity ops []).2) /\
    Z.of_nat (size (kc_map c')) = len (lru_run capacity ops []).2 /\
    len (lru_run capacity ops []).2 <= capacity.
Proof.
  intros Hpos Hnew. destruct (new_rep _ _ Hpos Hnew) as [H Hcap].
  destruct (run_refines ops c [] H) as (answers & c' & l & Hr & [_ Ht] & Hcap' & Ha & El).
  rewrite Hcap in Ha, El, Hcap'. change ([].*2) with (@nil Entry) in Ha, El. exists answers, c'. rewrite <- El. split_and!; [done|done| | |].
  - unfold live_fingerprints. rewrite (rp_map _ _ Ht). unfold index_of. rewrite dom_list_to_map_L.
    by rewrite <- !list_fmap_compose.
  - rewrite (rp_map _ _ Ht), index_of_size by apply Ht. unfold len. by rewrite length_fmap.
  - destruct (rp_capacity _ _ Ht) as [_ Hle]. unfold len in *. rewrite length_fmap. lia.
Qed.

End Lru.
Arguments CacheOp : clear implicits.
Arguments Entry : clear implicits.

Definition demo_cache_ops : list (CacheOp Z) :=
  [Insert [Byte.x01] 1; Insert [Byte.x02] 2; Get [Byte.x01]; Insert [Byte.x03] 3; Get [Byte.x02]; Drain].

Lemma cache_refines_lru_witness :
  exists c, try_new 2 = Some c /\ (lru_run 2 demo_cache_ops []).1 =
    [ToDestroy None; ToDestroy None; Found (Some 1); ToDestroy (Some 2); Found None; Drained [3; 1]] /\
  exists answers c', lru_cache_run demo_cache_ops c = Some (answers, c') /\
    Forall2 same_answer answers (lru_run 2 demo_cache_ops []).1.
Proof.
  exists (mkCache ∅ [] [] None None 2). split; [reflexivity|]. split; [vm_compute; reflexivity|].
  destruct (cache_refines_lru 2 demo_cache_ops (mkCache ∅ [] [] None None 2) eq_refl eq_refl) as (answers & c' & Hr & Ha & _).
  exists answers, c'. split; [exact Hr|exact Ha].
Defined.

(** ** Fingerprints *)

Definition part_bytes (part : list byte) : list byte := to_be_bytes 8 (len part) ++ part.

Lemma app_prefix_inj {A} (a b x y : list A) : length a = length b -> a ++ x = b ++ y -> a = b /\ x = y.
Proof. intros. by apply app_inj_1. Qed.

Lemma sized_inj n (a b x y : list byte) :
  len a < 2 ^ (Z.of_nat n * 8) -> len b < 2 ^ (Z.of_nat n * 8) ->
  to_be_bytes n (len a) ++ a ++ x = to_be_bytes n (len b) ++ b ++ y -> a = b /\ x = y.
Proof.
  intros Ha Hb [El E]%app_prefix_inj; [|by rewrite !to_be_bytes_length].
  pose proof (len_nonneg a). pose proof (len_nonneg b).
  apply to_be_bytes_inj in El; [|lia..]. apply app_prefix_inj in E; [done|]. unfold len in El. lia.
Qed.

Lemma part_bytes_nonempty part rest : part_bytes part ++ rest <> [].
Proof.
  intros E. apply (f_equal length) in E. unfold part_bytes in E.
  rewrite !length_app, to_be_bytes_length in E. simpl in E. lia.
Qed.

Lemma parts_inj (ps qs : list (list byte)) :
  Forall (fun p => len p < 2 ^ 64) ps -> Forall (fun p => len p < 2 ^ 64) qs ->
  concat (map part_bytes ps) = concat (map part_bytes qs) -> ps = qs.
Proof.
  intros Hp. revert qs. induction Hp as [|p ps Hp Hps IH]; intros [|q qs] Hq E; [done| | |].
  - symmetry in E. by apply part_bytes_nonempty in E.
  - by apply part_bytes_nonempty in E.
  - apply Forall_cons in Hq as [Hq Hqs]. cbn [map concat] in E. unfold part_bytes at 1 3 in E.
    rewrite <- !app_assoc in E. apply sized_inj in E as [-> E]; [|done..]. f_equal. by apply IH.
Qed.

(** Two keys with the same fingerprint either have the same domain and the same
    parts, or are a collision of SHA-256: the length prefixes make what is hashed
    determine the domain and where each part begins. *)
Theorem fingerprint_separates `{DigestCrate} (d e : list byte) (ps qs : list (list byte)) :
  len d < 2 ^ 32 -> len e < 2 ^ 32 ->
  Forall (fun p => len p < 2 ^ 64) ps -> Forall (fun p => len p < 2 ^ 64) qs ->
  fingerprint d ps = fingerprint e qs ->
  (d = e /\ ps = qs) \/
  (fingerprint_input d ps <> fingerprint_input e qs /\
   sha256 (fingerprint_input d ps) = sha256 (fingerprint_input e qs)).
Proof.
  intros Hd He Hps Hqs E. destruct (decide (fingerprint_input d ps = fingerprint_input e qs)) as [Ei|]; [left|by right].
  unfold fingerprint_input in Ei. apply app_inv_head, app_inv_head in Ei.
  apply sized_inj in Ei as [-> Ei]; [|done..]. split; [done|]. by apply parts_inj.
Qed.

(** ** The trackers *)

Fixpoint gcm_run (limit : Z) (fps : list KeyFingerprint) (m : PoolGcmCounters) : list bool * PoolGcmCounters :=
  match fps with
  | [] => ([], m)
  | fp :: fps =>
      let '(r, m) := check_and_increment fp limit m in
      let '(rs, m) := gcm_run limit fps m in
      ((match r with Ok _ => true | Err _ => false end) :: rs, m)
  end.

Definition requests (fp : KeyFingerprint) (fps : list KeyFingerprint) : Z := len (filter (eq fp) fps).

Definition admissions (fp : KeyFingerprint) (fps : list KeyFingerprint) (rs : list bool) : Z :=
  len (filter (fun x : KeyFingerprint * bool => x.1 = fp /\ x.2 = true) (zip fps rs)).

Lemma check_and_increment_other fp g limit m :
  fp <> g -> gcm_get g (check_and_increment fp limit m).2 = gcm_get g m.
Proof. intros. unfold check_and_increment, gcm_get. case_if; simpl; by rewrite lookup_insert_ne. Qed.

Lemma check_and_increment_same fp limit m :
  0 <= gcm_get fp m -> limit <= u64_max ->
  check_and_increment fp limit m =
    if decide (gcm_get fp m < limit) then (Ok (gcm_get fp m + 1), <[fp := gcm_get fp m + 1]> m)
    else (Err KeyFunctionNotPermitted, <[fp := u64_max]> m).
Proof.
  intros. unfold check_and_increment. case_if; bool_to_prop; destruct (decide _); try lia; [done|].
  unfold saturating_add. rewrite Z.min_l by lia. done.
Qed.

Lemma gcm_get_insert fp v m : gcm_get fp (<[fp := v]> m) = v.
Proof. unfold gcm_get. by rewrite lookup_insert_eq. Qed.

Lemma gcm_run_spec limit fps fp m :
  0 <= limit <= u64_max -> 0 <= gcm_get fp m ->
  admissions fp fps (gcm_run limit fps m).1 = Z.min (requests fp fps) (Z.max 0 (limit - gcm_get fp m)).
Proof.
  intros Hlim. revert m. induction fps as [|g fps IH]; intros m Hm; [unfold admissions, requests, len; simpl; lia|].
  simpl. destruct (check_and_increment g limit m) as [r m'] eqn:E.
  destruct (gcm_run limit fps m') as [rs m''] eqn:Er. unfold admissions, requests. simpl.
  destruct (decide (g = fp)) as [->|Hne].
  - rewrite check_and_increment_same in E by lia. rewrite (filter_cons_True (eq fp)) by done. rewrite len_cons.
    specialize (IH m'). rewrite Er in IH. unfold admissions, requests in IH. simpl in IH.
    pose proof (len_nonneg (filter (eq fp) fps)).
    destruct (decide _); simplify_eq; rewrite gcm_get_insert in IH.
    + rewrite filter_cons_True by done. rewrite len_cons, IH by lia. lia.
    + rewrite filter_cons_False by (simpl; intros [? ?]; congruence). rewrite IH by lia. lia.
  - rewrite filter_cons_False by (simpl; intros [? ?]; congruence). rewrite filter_cons_False by congruence.
    pose proof (check_and_increment_other g fp limit m Hne) as Eo. rewrite E in Eo. simpl in Eo.
    specialize (IH m'). rewrite Er, Eo in IH. by apply IH.
Qed.

(** For every interleaving of requests under any keys, a new pool admits exactly the
    first [limit] encryptions under each key and refuses every later one, so that the
    counts of different keys do not disturb each other. *)
Theorem gcm_pool_budget (limit : Z) (fps : list KeyFingerprint) (fp : KeyFingerprint) :
  0 <= limit <= u64_max ->
  admissions fp fps (gcm_run limit fps ∅).1 = Z.min (requests fp fps) limit.
Proof.
  intros Hlim. rewrite gcm_run_spec; [|done|by unfold gcm_get; rewrite lookup_empty].
  unfold gcm_get. rewrite lookup_empty. simpl. lia.
Qed.

Lemma gcm_pool_budget_witness :
  (gcm_run 2 [[Byte.x01]; [Byte.x02]; [Byte.x01]; [Byte.x01]] ∅).1 = [true; true; true; false] /\
  admissions [Byte.x01] [[Byte.x01]; [Byte.x02]; [Byte.x01]; [Byte.x01]]
    (gcm_run 2 [[Byte.x01]; [Byte.x02]; [Byte.x01]; [Byte.x01]] ∅).1 = 2.
Proof.
  split; [vm_compute; reflexivity|].
  rewrite (gcm_pool_budget 2 [[Byte.x01]; [Byte.x02]; [Byte.x01]; [Byte.x01]] [Byte.x01]); [|vm_compute; split; discriminate].
  vm_compute. reflexivity.
Defined.

(** ** Re-establishing a session *)

Lemma live_in_pool_spec busy p fp :
  fp ∈ live_in_pool busy p <->
  exists i s, sp_sessions p !! i = Some s /\ busy i = false /\ fp ∈ live_fingerprints (po_cache s).
Proof.
  unfold live_in_pool. rewrite elem_of_union_list. split.
  - intros (X & HX & Hfp). apply list_elem_of_fmap in HX as ((i & s) & -> & Hin). simpl in Hfp.
    apply list_elem_of_lookup in Hin as [j Hj]. apply lookup_zip_Some in Hj as [Hi Hs].
    apply lookup_seq in Hi as [-> _]. simpl in Hfp. destruct (busy j) eqn:Eb; [by apply elem_of_empty in Hfp|]. by exists j, s.
  - intros (i & s & Hs & Hb & Hfp). exists (live_fingerprints (po_cache s)). split; [|done].
    apply list_elem_of_fmap. exists (i, s). simpl. rewrite Hb. split; [done|].
    apply list_elem_of_lookup. exists i. apply lookup_zip_Some. split; [|done].
    apply lookup_seq. split; [lia|]. by eapply lookup_lt_Some.
Qed.

(** Re-establishing a session makes the pool forget the initialisation vectors used
    with every key that no session outside the ones held by other threads has cached, so
    a vector that was refused is accepted again within the process. *)
Theorem reestablish_forgets_ivs (h : Z) token busy idx p r p' (fp iv : list byte) :
  reestablish (Ok h) token busy idx p = Some (r, p') ->
  (forall i s, i <> idx -> sp_sessions p !! i = Some s -> busy i = false -> fp ∉ live_fingerprints (po_cache s)) ->
  r = Ok tt /\ (check_and_record_iv fp iv (sp_ctr p')).1 = Ok tt.
Proof.
  intros Hr Hlive. unfold reestablish in Hr. apply bind_Some in Hr as (s & Hs & [= <- <-]). split; [done|].
  simpl. unfold check_and_record_iv. rewrite bool_decide_false; [done|].
  unfold ctr_compact. rewrite elem_of_filter, elem_of_union, live_in_pool_spec. simpl.
  intros [[Hin|(i & s' & Hs' & Hb & Hin)] _].
  - unfold live_fingerprints in Hin. simpl in Hin. set_solver.
  - apply orb_false_iff in Hb as [Hi%bool_decide_eq_false Hb].
    rewrite !list_lookup_insert_ne in Hs' by done. by apply (Hlive i s').
Qed.

Definition demo_iv : list byte := repeat Byte.x00 16.
Definition demo_session : PooledSession := mkPooled 1 [] (mkCache ∅ [] [] None None 4).
Definition demo_pool : SessionPool := mkPool [demo_session; demo_session] 0 ∅ {[([Byte.x01], demo_iv)]}.

Lemma reestablish_forgets_ivs_witness :
  (check_and_record_iv [Byte.x01] demo_iv (sp_ctr demo_pool)).1 = Err MechanismParamInvalid /\
  exists p', reestablish (Ok 7) [] (fun _ => false) 0 demo_pool = Some (Ok tt, p') /\
  (check_and_record_iv [Byte.x01] demo_iv (sp_ctr p')).1 = Ok tt.
Proof.
  split; [vm_compute; reflexivity|].
  destruct (reestablish (Ok 7) [] (fun _ => false) 0 demo_pool) as [[r p']|] eqn:E; [|discriminate].
  destruct (reestablish_forgets_ivs 7 [] (fun _ => false) 0 demo_pool r p' [Byte.x01] demo_iv E) as [-> H].
  - intros [|[|i]] s Hi Hs _; [lia| |discriminate]. injection Hs as <-. vm_compute. discriminate.
  - exists p'. split; [reflexivity|exact H].
Defined.

#[local] Instance demo_digest : DigestCrate := { sha256 := fun l => take 3 l }.

Lemma fingerprint_separates_witness :
  ([Byte.x61] = [Byte.x62] /\ [[Byte.x63]] = [[Byte.x63]]) \/
  (fingerprint_input [Byte.x61] [[Byte.x63]] <> fingerprint_input [Byte.x62] [[Byte.x63]] /\
   sha256 (fingerprint_input [Byte.x61] [[Byte.x63]]) = sha256 (fingerprint_input [Byte.x62] [[Byte.x63]])).
Proof.
  apply (fingerprint_separates [Byte.x61] [Byte.x62] [[Byte.x63]] [[Byte.x63]] eq_refl eq_refl);
    [repeat constructor|repeat constructor|vm_compute; reflexivity].
Defined.
