(* ===== verification/CloudCrypto.v ===== *)
(** * Primitives of the cloud shims ([craton-hsm-cloud/src/mock_crypto.rs])

    Base64, labelled HMACs, sub-keys and the key stream that the shims share.  HMAC-SHA256,
    HKDF and the digests are [CloudCrates]; [CloudLaws] is the length of an HMAC. *)

From stdpp Require Import prelude strings list.
From Stdlib Require Import ZArith Lia.
From coqutil Require Import Byte.
From S2P Require Import Prelude RustStd.
Local Open Scope rust_scope.
Local Open Scope string_scope.
Local Open Scope list_scope.
Local Open Scope Z_scope.

Class CloudCrates := {
  cloud_hmac : list byte -> list byte -> list byte;
  hkdf_expand : list byte -> list byte -> list byte;
  cloud_sha224 : list byte -> list byte;
  cloud_sha256 : list byte -> list byte;
  cloud_sha384 : list byte -> list byte;
  cloud_sha512 : list byte -> list byte;
}.

Class CloudLaws (CC : CloudCrates) : Prop := {
  cloud_hmac_length : forall key message, length (cloud_hmac key message) = 32%nat;
}.

(** [serde_json::Value]; the order of the fields of an object is not significant. *)
Inductive JsonValue : Type :=
| JNull
| JString (s : string)
| JBool (b : bool)
| JNumber (n : Z)
| JArray (vs : list JsonValue)
| JObject (fields : list (string * JsonValue)).

(** ** Base64 *)

Definition ALPHA : list byte := as_bytes "ABCDEFGHIJKLMNOPQRSTUVWXYZabcdefghijklmnopqrstuvwxyz0123456789+/".

(** [ALPHA[i]]; every index that occurs is below 64. *)
Definition alpha_at (i : Z) : byte := nth (Z.to_nat i) ALPHA Byte.x00.

Definition B64_PAD : byte := Byte.x3d.

(** One chunk of at most three bytes. *)
Definition b64_chunk (b0 : byte) (o1 o2 : option byte) : list byte :=
  let v0 := byte.unsigned b0 in
  let v1 := byte.unsigned (default Byte.x00 o1) in
  let v2 := byte.unsigned (default Byte.x00 o2) in
  [alpha_at (Z.shiftr v0 2);
   alpha_at (Z.lor (Z.shiftl (Z.land v0 0x03) 4) (Z.shiftr v1 4));
   match o1 with
   | Some _ => alpha_at (Z.lor (Z.shiftl (Z.land v1 0x0f) 2) (Z.shiftr v2 6))
   | None => B64_PAD
   end;
   match o2 with Some _ => alpha_at (Z.land v2 0x3f) | None => B64_PAD end].

Fixpoint b64_chars (bytes : list byte) : list byte :=
  match bytes with
  | [] => []
  | [b0] => b64_chunk b0 None None
  | [b0; b1] => b64_chunk b0 (Some b1) None
  | b0 :: b1 :: b2 :: rest => b64_chunk b0 (Some b1) (Some b2) ++ b64_chars rest
  end.

Definition b64_encode (bytes : list byte) : string := from_bytes (b64_chars bytes).

Definition b64_value (b : byte) : option Z :=
  let v := byte.unsigned b in
  if byte_in b 0x41 0x5A then Some (v - 0x41)
  else if byte_in b 0x61 0x7A then Some (v - 0x61 + 26)
  else if byte_in b 0x30 0x39 then Some (v - 0x30 + 52)
  else if bool_decide (b = Byte.x2b) then Some 62
  else if bool_decide (b = Byte.x2f) then Some 63
  else None.

(** One character: buffer, number of its bits, output. *)
Definition b64_push (v : Z) (st : Z * Z * list byte) : Z * Z * list byte :=
  let '(buf, bits, out) := st in
  let buf := Z.lor (Z.shiftl buf 6 mod 2 ^ 32) v in
  let bits := bits + 6 in
  if 8 <=? bits then
    let bits := bits - 8 in
    (Z.land buf (Z.shiftl 1 bits - 1), bits, out ++ [byte.of_Z (Z.shiftr buf bits)])
  else (buf, bits, out).

(** The loop stops at the first padding character. *)
Fixpoint b64_loop (input : list byte) (st : Z * Z * list byte) : option (list byte) :=
  match input with
  | [] => Some st.2
  | b :: rest =>
      if bool_decide (b = B64_PAD) then Some st.2
      else v ← b64_value b; b64_loop rest (b64_push v st)
  end.

Definition b64_decode (input : string) : option (list byte) := b64_loop (as_bytes input) (0, 0, []).

(** The characters the shims accept in base64. *)
Definition is_b64 (b : byte) : bool :=
  byte_in b 0x41 0x5A || byte_in b 0x61 0x7A || byte_in b 0x30 0x39
  || bool_decide (b = Byte.x2b) || bool_decide (b = Byte.x2f) || bool_decide (b = Byte.x3d).

(** ** Keyed primitives *)

Definition byte_xor (a b : byte) : byte := byte.of_Z (Z.lxor (byte.unsigned a) (byte.unsigned b)).

Section Keyed.
Context {CC : CloudCrates}.

Definition hmac_sign (secret label message : list byte) : list byte :=
  cloud_hmac secret (label ++ [Byte.x00] ++ message).

Definition subkey (master label : list byte) : list byte := hkdf_expand master label.

(** The loop of [xor_stream] over the rest of the data. *)
Fixpoint xor_loop (fuel : nat) (secret nonce : list byte) (counter : Z) (data : list byte)
    : comp (list byte) unit :=
  match data with
  | [] => COk []
  | _ :: _ =>
      match fuel with
      | O => CDiverge
      | S fuel =>
          let block := cloud_hmac secret (nonce ++ to_be_bytes 8 counter) in
          let n := Nat.min (length block) (length data) in
          let out := zip_with byte_xor (take n data) (take n block) in
          let? counter := ok_or (checked_add counter 1) tt in
          let? rest := xor_loop fuel secret nonce counter (drop n data) in
          COk (out ++ rest)
      end
  end.

Definition xor_stream (secret nonce data : list byte) : comp (list byte) unit :=
  xor_loop (length data) secret nonce 0 data.

End Keyed.
