(* ===== verification/CloudCryptoProofs.v ===== *)
(** * Theorems about the primitives of the cloud shims *)

From stdpp Require Import prelude strings list.
From Stdlib Require Import ZArith Lia.
From coqutil Require Import Byte.
From S2P Require Import Prelude RustStd CloudCrypto.
Local Open Scope rust_scope.
Local Open Scope list_scope.
Local Open Scope Z_scope.

(** ** Base64 *)

Lemma b64_value_alpha i : 0 <= i < 64 -> b64_value (alpha_at i) = Some i /\ alpha_at i <> B64_PAD.
Proof.
  intros Hi. assert (exists n : nat, (n < 64)%nat /\ i = Z.of_nat n) as (n & Hn & ->) by (exists (Z.to_nat i); lia).
  do 64 (destruct n as [|n]; [by vm_compute|]). lia.
Qed.

Lemma b64_loop_alpha i rest st : 0 <= i < 64 -> b64_loop (alpha_at i :: rest) st = b64_loop rest (b64_push i st).
Proof.
  intros Hi. destruct (b64_value_alpha i Hi) as [Hv Hne]. cbn [b64_loop].
  by rewrite bool_decide_false, Hv by done.
Qed.

Lemma b64_push_wide v buf bits out :
  0 <= v < 64 -> 2 <= bits < 8 -> 0 <= buf < 2 ^ bits ->
  b64_push v (buf, bits, out) =
    ((buf * 64 + v) mod 2 ^ (bits - 2), bits - 2, out ++ [byte.of_Z ((buf * 64 + v) / 2 ^ (bits - 2))]).
Proof.
  intros Hv Hb Hbuf. unfold b64_push. assert (2 ^ bits <= 2 ^ 7) by (apply Z.pow_le_mono_r; lia).
  rewrite Z.mod_small by (rewrite Z.shiftl_mul_pow2 by lia; lia).
  rewrite (lor_shiftl_low v buf 6) by lia. change (2 ^ 6) with 64.
  rewrite (proj2 (Z.leb_le 8 (bits + 6))) by lia. replace (bits + 6 - 8) with (bits - 2) by lia.
  replace (Z.shiftl 1 (bits - 2) - 1) with (Z.ones (bits - 2)) by (rewrite Z.ones_equiv, Z.shiftl_1_l; lia).
  by rewrite Z.land_ones, Z.shiftr_div_pow2 by lia.
Qed.

Lemma b64_push_first v out : 0 <= v < 64 -> b64_push v (0, 0, out) = (v, 6, out).
Proof. intros Hv. reflexivity. Qed.

(** The indices of a chunk as numbers. *)
Lemma b64_index1 v0 v1 : 0 <= v0 < 256 -> 0 <= v1 < 256 ->
  Z.lor (Z.shiftl (Z.land v0 0x03) 4) (Z.shiftr v1 4) = v0 mod 4 * 16 + v1 / 16.
Proof.
  intros. change 0x03 with (Z.ones 2). rewrite Z.land_ones, Z.shiftr_div_pow2 by lia.
  rewrite lor_shiftl_low; [done|lia|]. split; [apply Z.div_pos; lia|]. apply Z.div_lt_upper_bound; lia.
Qed.

Lemma b64_index2 v1 v2 : 0 <= v1 < 256 -> 0 <= v2 < 256 ->
  Z.lor (Z.shiftl (Z.land v1 0x0f) 2) (Z.shiftr v2 6) = v1 mod 16 * 4 + v2 / 64.
Proof.
  intros. change 0x0f with (Z.ones 4). rewrite Z.land_ones, Z.shiftr_div_pow2 by lia.
  rewrite lor_shiftl_low; [done|lia|]. split; [apply Z.div_pos; lia|]. apply Z.div_lt_upper_bound; lia.
Qed.

Lemma b64_index0 v : 0 <= v -> Z.shiftr v 2 = v / 4.
Proof. intros. by rewrite Z.shiftr_div_pow2 by lia. Qed.

Lemma b64_index3 v : Z.land v 0x3f = v mod 64.
Proof. change 0x3f with (Z.ones 6). by rewrite Z.land_ones by lia. Qed.

Ltac b64_arith := Z.to_euclidean_division_equations; lia.

Lemma byte_value (b : byte) z : z = byte.unsigned b -> byte.of_Z z = b.
Proof. intros ->. apply byte.of_Z_unsigned. Qed.

Lemma b64_chunk3 b0 b1 b2 rest out :
  b64_loop (b64_chunk b0 (Some b1) (Some b2) ++ rest) (0, 0, out) = b64_loop rest (0, 0, out ++ [b0; b1; b2]).
Proof.
  pose proof (byte.unsigned_range b0) as H0. pose proof (byte.unsigned_range b1) as H1.
  pose proof (byte.unsigned_range b2) as H2. unfold b64_chunk, id. cbn [from_option app].
  rewrite b64_index0, b64_index1, b64_index2, b64_index3 by lia.
  set (v0 := byte.unsigned b0) in *. set (v1 := byte.unsigned b1) in *. set (v2 := byte.unsigned b2) in *.
  rewrite !b64_loop_alpha by b64_arith. rewrite b64_push_first by b64_arith.
  rewrite b64_push_wide by b64_arith. rewrite b64_push_wide by b64_arith. rewrite b64_push_wide by b64_arith.
  rewrite <- !app_assoc. f_equal. f_equal; [f_equal|f_equal].
  - cbn. b64_arith.
  - cbn [app]. f_equal; [|f_equal; [|f_equal]]; apply byte_value; fold v0 v1 v2; cbn; b64_arith.
Qed.

Lemma b64_chunk2 b0 b1 out :
  b64_loop (b64_chunk b0 (Some b1) None) (0, 0, out) = Some (out ++ [b0; b1]).
Proof.
  pose proof (byte.unsigned_range b0) as H0. pose proof (byte.unsigned_range b1) as H1.
  unfold b64_chunk, id. cbn [from_option]. change (byte.unsigned Byte.x00) with 0.
  rewrite b64_index0, b64_index1, b64_index2 by lia.
  set (v0 := byte.unsigned b0) in *. set (v1 := byte.unsigned b1) in *.
  rewrite !b64_loop_alpha by b64_arith. rewrite b64_push_first by b64_arith.
  rewrite b64_push_wide by b64_arith. rewrite b64_push_wide by b64_arith.
  cbn [b64_loop]. rewrite bool_decide_true by done. cbn [snd]. f_equal. rewrite <- !app_assoc. f_equal.
  cbn [app]. f_equal; [|f_equal]; apply byte_value; fold v0 v1; cbn; b64_arith.
Qed.

Lemma b64_chunk1 b0 out : b64_loop (b64_chunk b0 None None) (0, 0, out) = Some (out ++ [b0]).
Proof.
  pose proof (byte.unsigned_range b0) as H0.
  unfold b64_chunk, id. cbn [from_option]. change (byte.unsigned Byte.x00) with 0.
  rewrite b64_index0, b64_index1 by lia. set (v0 := byte.unsigned b0) in *.
  rewrite !b64_loop_alpha by b64_arith. rewrite b64_push_first by b64_arith.
  rewrite b64_push_wide by b64_arith.
  cbn [b64_loop]. rewrite bool_decide_true by done. cbn [snd]. f_equal. f_equal.
  f_equal. apply byte_value; fold v0; cbn; b64_arith.
Qed.

(** Induction along the chunks of three bytes. *)
Lemma chunks3_ind (P : list byte -> Prop) :
  P [] -> (forall b0, P [b0]) -> (forall b0 b1, P [b0; b1]) ->
  (forall b0 b1 b2 rest, P rest -> P (b0 :: b1 :: b2 :: rest)) -> forall bs, P bs.
Proof.
  intros H0 H1 H2 H3. refine (fix go bs := _). destruct bs as [|b0 [|b1 [|b2 rest]]]; [exact H0|apply H1|apply H2|apply H3, go].
Qed.

Lemma b64_roundtrip_bytes bs : b64_decode (b64_encode bs) = Some bs.
Proof.
  unfold b64_decode, b64_encode. rewrite as_from_bytes. change (Some bs) with (Some ([] ++ bs)). generalize (@nil byte).
  induction bs as [|b0|b0 b1|b0 b1 b2 rest IH] using chunks3_ind; intros out.
  - by rewrite app_nil_r.
  - apply b64_chunk1.
  - apply b64_chunk2.
  - cbn [b64_chars]. rewrite b64_chunk3, IH. by rewrite <- app_assoc.
Qed.

(** ** The key stream *)

Lemma alpha_is_b64 i : 0 <= i < 64 -> is_b64 (alpha_at i) = true.
Proof.
  intros Hi. assert (exists n : nat, (n < 64)%nat /\ i = Z.of_nat n) as (n & Hn & ->) by (exists (Z.to_nat i); lia).
  do 64 (destruct n as [|n]; [by vm_compute|]). lia.
Qed.

Lemma b64_chunk_is_b64 b0 o1 o2 : forallb is_b64 (b64_chunk b0 o1 o2) = true.
Proof.
  unfold b64_chunk. set (v1 := byte.unsigned (default Byte.x00 o1)). set (v2 := byte.unsigned (default Byte.x00 o2)).
  pose proof (byte.unsigned_range b0) as H0. assert (0 <= v1 < 256) by apply byte.unsigned_range.
  assert (0 <= v2 < 256) by apply byte.unsigned_range.
  rewrite b64_index0, b64_index1, b64_index2, b64_index3 by lia. cbn [forallb].
  rewrite !andb_true_iff. split_and!; [apply alpha_is_b64; b64_arith..| | |done];
    [destruct o1|destruct o2]; try done; apply alpha_is_b64; b64_arith.
Qed.

Lemma b64_chars_is_b64 bs : forallb is_b64 (b64_chars bs) = true.
Proof.
  induction bs as [|b0|b0 b1|b0 b1 b2 rest IH] using chunks3_ind; [done|apply b64_chunk_is_b64..|].
  cbn [b64_chars]. by rewrite forallb_app, b64_chunk_is_b64, IH.
Qed.

Lemma b64_chars_len bs : len (b64_chars bs) = 4 * ((len bs + 2) / 3).
Proof.
  induction bs as [|b0|b0 b1|b0 b1 b2 rest IH] using chunks3_ind; [done|done|done|].
  cbn [b64_chars]. rewrite len_app, IH, !len_cons. change (len (b64_chunk b0 (Some b1) (Some b2))) with 4. b64_arith.
Qed.

Lemma byte_xor_invol a b : byte_xor (byte_xor a b) b = a.
Proof.
  unfold byte_xor. apply byte_value. rewrite byte.unsigned_of_Z. unfold byte.wrap.
  pose proof (byte.unsigned_range a) as Ha. pose proof (byte.unsigned_range b) as Hb.
  rewrite <- !Z.land_ones by lia. apply Z.bits_inj'. intros n Hn.
  rewrite Z.lxor_spec, Z.land_spec, Z.lxor_spec. destruct (Z.lt_ge_cases n 8).
  - rewrite Z.ones_spec_low by lia. by destruct (Z.testbit _ n), (Z.testbit _ n).
  - rewrite Z.ones_spec_high by lia.
    rewrite <- (Z.mod_small (byte.unsigned a) (2 ^ 8)), <- (Z.mod_small (byte.unsigned b) (2 ^ 8)) by lia.
    rewrite !Z.mod_pow2_bits_high by lia. by rewrite andb_false_r.
Qed.

Lemma zip_xor_invol (d k : list byte) :
  (length d <= length k)%nat -> zip_with byte_xor (zip_with byte_xor d k) k = d.
Proof.
  revert k. induction d as [|x d IH]; intros [|y k] Hl; simpl in *; [done|done|lia|].
  rewrite byte_xor_invol, IH by lia. done.
Qed.

Section Stream.
Context {CC : CloudCrates} {CL : CloudLaws CC}.

Lemma xor_loop_invol fuel secret nonce counter data :
  (length data <= fuel)%nat -> 0 <= counter -> counter + len data <= u64_max ->
  exists out, xor_loop fuel secret nonce counter data = COk out /\ length out = length data /\
    xor_loop fuel secret nonce counter out = COk data.
Proof.
  revert counter data. induction fuel as [|fuel IH]; intros counter [|x data] Hf Hc Hmax.
  1, 3: by exists []. { simpl in Hf. lia. }
  cbn [xor_loop]. set (block := cloud_hmac secret (nonce ++ to_be_bytes 8 counter)).
  assert (length block = 32%nat) as Hb by apply cloud_hmac_length.
  set (n := Nat.min (length block) (length (x :: data))). set (d := x :: data) in *.
  assert (0 < n <= length d)%nat as Hn by (subst n d; simpl; lia).
  assert (len d = Z.of_nat (length d)) as Hd by done.
  unfold checked_add. rewrite (proj2 (Z.leb_le _ _)) by lia. cbn [ok_or comp_bind].
  destruct (IH (counter + 1) (drop n d)) as (rest & E1 & Hl & E2); [rewrite length_drop; lia|lia| |].
  { unfold len. rewrite length_drop. lia. }
  rewrite E1. cbn [comp_bind]. set (out := zip_with byte_xor (take n d) (take n block)).
  assert (length out = n) as Ho by (subst out; rewrite length_zip_with, !length_take; lia).
  assert (length (out ++ rest) = length d) as Hlen by (rewrite length_app, Hl, Ho, length_drop; lia).
  exists (out ++ rest). split; [done|]. split; [done|].
  destruct (out ++ rest) as [|y r] eqn:Eo; [simpl in Hlen; lia|]. rewrite <- Eo.
  replace (Nat.min (length block) (length (out ++ rest))) with n by (rewrite Eo, Hlen; done).
  rewrite take_app_length', drop_app_length' by done. rewrite E2. cbn [comp_bind]. f_equal.
  subst out. rewrite zip_xor_invol by (rewrite !length_take; lia). apply take_drop.
Qed.

Lemma xor_stream_invol secret nonce data :
  len data <= u64_max ->
  exists out, xor_stream secret nonce data = COk out /\ length out = length data /\
    xor_stream secret nonce out = COk data.
Proof.
  intros Hl. unfold xor_stream.
  destruct (xor_loop_invol (length data) secret nonce 0 data) as (out & E & Hlen & E'); [done|done|lia|].
  exists out. by rewrite Hlen.
Qed.

End Stream.

(** ** Tags at the end of a blob *)

Lemma split_app n (l k : list byte) : length l = n -> take n (l ++ k) = l /\ drop n (l ++ k) = k.
Proof. intros <-. by rewrite take_app_length, drop_app_length. Qed.

Lemma take_drop_tag (body tag : list byte) :
  length tag = 32%nat ->
  take (Z.to_nat (len (body ++ tag) - 32)) (body ++ tag) = body /\ drop (Z.to_nat (len (body ++ tag) - 32)) (body ++ tag) = tag.
Proof.
  intros Ht. apply split_app. unfold len. rewrite length_app. lia.
Qed.

(** ** Concrete crates, for examples *)

#[local] Instance demo_cloud : CloudCrates := {
  cloud_hmac := fun key message => take 32 (rev message ++ key ++ replicate 32 Byte.x00);
  hkdf_expand := fun prk info => info ++ prk;
  cloud_sha224 := fun l => l; cloud_sha256 := fun l => l; cloud_sha384 := fun l => l; cloud_sha512 := fun l => l;
}.

#[local] Instance demo_cloud_laws : CloudLaws demo_cloud.
Proof. split. intros key message. unfold cloud_hmac, demo_cloud. rewrite length_take, !length_app, length_replicate. lia. Qed.
