(* ===== verification/CloudVault.v ===== *)
(** * Vault transit backend ([craton-hsm-cloud/src/vault_plugin.rs])

    Named keys with versions, ciphertexts in Vault's format, and the dispatcher with its
    access policy.  The texts of error messages are left out, except for key names.
    Random bytes and the clock are a [VaultEnv]; the policy is a function. *)

From stdpp Require Import prelude gmap strings list pretty sorting.
From Stdlib Require Import ZArith Lia.
From coqutil Require Import Byte.
From S2P Require Import Prelude RustStd CloudCrypto.
Local Open Scope rust_scope.
Local Open Scope string_scope.
Local Open Scope list_scope.
Local Open Scope Z_scope.

Inductive VaultError : Type :=
| KeyNotFound (name : string) | KeyExists (name : string) | InvalidCiphertext | PermissionDenied
| InvalidRequest | AuthenticationFailed | VaultInternal.

#[global] Instance VaultError_eq_dec : EqDecision VaultError.
Proof. solve_decision. Defined.

Inductive VaultKeyType : Type :=
| Aes256Gcm96 | Aes128Gcm96 | RsaOaep2048 | RsaOaep4096 | EcdsaP256 | EcdsaP384.

#[global] Instance VaultKeyType_eq_dec : EqDecision VaultKeyType.
Proof. solve_decision. Defined.

Definition vault_wire_name (t : VaultKeyType) : string :=
  match t with
  | Aes256Gcm96 => "aes256-gcm96"
  | Aes128Gcm96 => "aes128-gcm96"
  | RsaOaep2048 => "rsa-2048"
  | RsaOaep4096 => "rsa-4096"
  | EcdsaP256 => "ecdsa-p256"
  | EcdsaP384 => "ecdsa-p384"
  end.

Definition supports_encrypt (t : VaultKeyType) : bool :=
  match t with Aes256Gcm96 | Aes128Gcm96 | RsaOaep2048 | RsaOaep4096 => true | _ => false end.

Definition supports_sign (t : VaultKeyType) : bool :=
  match t with EcdsaP256 | EcdsaP384 | RsaOaep2048 | RsaOaep4096 => true | _ => false end.

Record VaultTransitConfig : Type := mkVaultConfig {
  vc_hsm_addr : string;
  vc_default_key_type : VaultKeyType;
  vc_auto_rotate_period : option Z;
  vc_min_decryption_version : Z;
  vc_min_encryption_version : Z;
  vc_deletion_allowed : bool;
}.

Definition default_min_decryption_version : Z := 1.

Inductive VaultTransitRequest : Type :=
| Encrypt (key_name plaintext_b64 : string) (context : option (list byte))
| Decrypt (key_name ciphertext : string) (context : option (list byte))
| Rewrap (key_name ciphertext : string) (context : option (list byte))
| Sign (key_name input_b64 hash_algorithm : string)
| Verify (key_name input_b64 signature hash_algorithm : string)
| DataKey (key_name : string) (plaintext : bool) (bits : Z)
| Hash (algorithm input_b64 : string)
| HmacOf (key_name input_b64 algorithm : string)
| Random (bytes : Z)
| ExportKey (name : string) (version : option Z)
| ListKeys
| ReadKey (name : string)
| DeleteKey (name : string)
| CreateKey (name : string) (key_type : VaultKeyType) (exportable : bool)
| RotateKey (name : string).

Record VaultTransitResponse : Type := mkVaultResponse {
  vr_data : gmap string JsonValue;
  vr_warnings : option (list string);
}.

Definition vault_response_new : VaultTransitResponse := mkVaultResponse ∅ None.
Definition vault_with (key : string) (value : JsonValue) (r : VaultTransitResponse) : VaultTransitResponse :=
  mkVaultResponse (<[key := value]> (vr_data r)) (vr_warnings r).

Record VaultIdentity : Type := mkVaultIdentity { vi_principal : string }.
Definition vault_anonymous : VaultIdentity := mkVaultIdentity "".

Inductive VaultOp : Type := OpRead | OpManage | OpCrypto | OpSign | OpHash | OpExport.

(** The trait [VaultAcl] and its two implementations. *)
Abbreviation VaultAcl := (VaultIdentity -> string -> VaultOp -> bool).
Definition AllowAllVaultAcl : VaultAcl := fun _ _ _ => true.
Definition DenyAllVaultAcl : VaultAcl := fun _ _ _ => false.

Definition MAX_VAULT_CIPHERTEXT_LEN : Z := 128 * 1024.
Definition MAX_VAULT_INPUT_LEN : Z := 1024 * 1024.
Definition MAX_VAULT_RANDOM_BYTES : Z := 64 * 1024.
Definition MAX_VAULT_KEY_NAME_LEN : Z := 256.

Definition validate_vault_key_name (name : string) : result unit VaultError :=
  if bool_decide (name = "") then Err InvalidRequest
  else if MAX_VAULT_KEY_NAME_LEN <? len (as_bytes name) then Err InvalidRequest
  else if bool_decide (Byte.x00 ∈ as_bytes name) then Err InvalidRequest
  else if bool_decide (head (as_bytes name) = Some Byte.x2f) then Err InvalidRequest
  else Ok tt.

(** What precedes the first colon, and what follows it. *)
Fixpoint split_colon (s : list byte) : list byte * option (list byte) :=
  match s with
  | [] => ([], None)
  | b :: r =>
      if bool_decide (b = Byte.x3a) then ([], Some r)
      else let '(h, t) := split_colon r in (b :: h, t)
  end.

Definition parse_vault_ciphertext (ct : string) : result (Z * string) VaultError :=
  if MAX_VAULT_CIPHERTEXT_LEN <? len (as_bytes ct) then Err InvalidCiphertext
  else
    match split_colon (as_bytes ct) with
    | (prefix, Some rest) =>
        match split_colon rest with
        | (version_str, Some payload) =>
            if negb (bool_decide (prefix = as_bytes "vault")) then Err InvalidCiphertext
            else
              match version_str with
              | Byte.x76 :: version_str =>
                  match parse_u32 version_str with
                  | None => Err InvalidCiphertext
                  | Some version =>
                      if forallb is_b64 payload then Ok (version, from_bytes payload)
                      else Err InvalidCiphertext
                  end
              | _ => Err InvalidCiphertext
              end
        | (_, None) => Err InvalidCiphertext
        end
    | (_, None) => Err InvalidCiphertext
    end.

Definition format_vault_ciphertext (version : Z) (b64_ciphertext : string) : string :=
  "vault:v" +:+ pretty version +:+ ":" +:+ b64_ciphertext.

(** ** Keys *)

Record MockKeyVersion : Type := mkKeyVersion { kv_bytes : list byte; kv_created_at : Z }.

Record MockKeyEntry : Type := mkKeyEntry {
  ke_key_type : VaultKeyType;
  ke_exportable : bool;
  ke_versions : list MockKeyVersion;
  ke_latest_version : Z;
}.

(** Random bytes (for a key, for a nonce, of a given number) and the clock. *)
Record VaultEnv : Type := mkVaultEnv {
  vn_key : list byte;
  vn_nonce : list byte;
  vn_random : nat -> list byte;
  vn_now : Z;
}.

Definition MockKeyEntry_new (env : VaultEnv) (key_type : VaultKeyType) (exportable : bool) : MockKeyEntry :=
  mkKeyEntry key_type exportable [mkKeyVersion (vn_key env) (vn_now env)] 1.

Definition entry_rotate (env : VaultEnv) (e : MockKeyEntry) : Z * MockKeyEntry :=
  let versions := ke_versions e ++ [mkKeyVersion (vn_key env) (vn_now env)] in
  let new := len versions mod 2 ^ 32 in
  (new, mkKeyEntry (ke_key_type e) (ke_exportable e) versions new).

Definition material (version : Z) (e : MockKeyEntry) : option (list byte) :=
  i ← checked_sub version 1;
  kv_bytes <$> ke_versions e !! Z.to_nat i.

Record MockVaultBackend : Type := mkVault {
  vb_keys : gmap string MockKeyEntry;
  vb_config : VaultTransitConfig;
  vb_acl : VaultAcl;
  vb_default_identity : VaultIdentity;
}.

Definition set_vault_keys (keys : gmap string MockKeyEntry) (b : MockVaultBackend) : MockVaultBackend :=
  mkVault keys (vb_config b) (vb_acl b) (vb_default_identity b).

(** The constructor, where the guard for mock backends lets it through. *)
Definition vault_with_config (config : VaultTransitConfig) : MockVaultBackend :=
  mkVault ∅ config DenyAllVaultAcl vault_anonymous.

Definition vault_with_acl (acl : VaultAcl) (b : MockVaultBackend) : MockVaultBackend :=
  mkVault (vb_keys b) (vb_config b) acl (vb_default_identity b).

Definition vault_with_default_identity (identity : VaultIdentity) (b : MockVaultBackend) : MockVaultBackend :=
  mkVault (vb_keys b) (vb_config b) (vb_acl b) identity.

Definition op_for (req : VaultTransitRequest) : VaultOp :=
  match req with
  | ListKeys | ReadKey _ => OpRead
  | CreateKey _ _ _ | RotateKey _ | DeleteKey _ => OpManage
  | Encrypt _ _ _ | Decrypt _ _ _ | Rewrap _ _ _ | DataKey _ _ _ => OpCrypto
  | Sign _ _ _ | Verify _ _ _ _ => OpSign
  | HmacOf _ _ _ | Hash _ _ | Random _ => OpHash
  | ExportKey _ _ => OpExport
  end.

Definition key_name_of (req : VaultTransitRequest) : option string :=
  match req with
  | Encrypt key_name _ _ | Decrypt key_name _ _ | Rewrap key_name _ _ | Sign key_name _ _
  | Verify key_name _ _ _ | DataKey key_name _ _ | HmacOf key_name _ _ => Some key_name
  | CreateKey name _ _ | RotateKey name | DeleteKey name | ReadKey name | ExportKey name _ => Some name
  | ListKeys | Hash _ _ | Random _ => None
  end.

Definition validate_input (input : string) : result unit VaultError :=
  if MAX_VAULT_INPUT_LEN <? len (as_bytes input) then Err InvalidRequest
  else if forallb is_b64 (as_bytes input) then Ok tt
  else Err InvalidRequest.

Definition validate_hash_algorithm (alg : string) : result unit VaultError :=
  if bool_decide (alg ∈ ["sha2-224"; "sha2-256"; "sha2-384"; "sha2-512"]) then Ok tt else Err InvalidRequest.

Section Vault.
Context {CC : CloudCrates}.

Definition vault_hmac (secret : list byte) (algorithm : string) (value : list byte) : list byte :=
  hmac_sign secret (as_bytes algorithm) value.

Definition sign_hmac (secret label value : list byte) : list byte :=
  hmac_sign (subkey secret (as_bytes "SIGN")) label value.

Definition ct_tag (secret label body : list byte) : list byte :=
  hmac_sign (subkey secret (as_bytes "WRAP-AUTH")) label body.

Definition vault_xor_stream (secret context data : list byte) : comp (list byte) VaultError :=
  match xor_stream (subkey secret (as_bytes "WRAP-ENC")) context data with
  | COk out => COk out
  | CErr _ => CErr VaultInternal
  | CPanic => CPanic
  | CDiverge => CDiverge
  end.

Definition vault_b64_decode (input : string) : comp (list byte) VaultError := ok_or (b64_decode input) InvalidRequest.

Definition TAG_LABEL : list byte := as_bytes "VAULT-TRANSIT".

Definition build_ciphertext (nonce secret : list byte) (context : option (list byte)) (plaintext : list byte)
    (version : Z) : comp string VaultError :=
  let ctx := default [] context in
  let header := nonce ++ to_be_bytes 8 (len ctx) ++ ctx in
  let stream_ctx := cloud_sha256 (nonce ++ ctx) in
  let? body := vault_xor_stream secret stream_ctx plaintext in
  let blob := header ++ body in
  COk (format_vault_ciphertext version (b64_encode (blob ++ ct_tag secret TAG_LABEL blob))).

Definition open_ciphertext (secret : list byte) (context : option (list byte)) (b64_blob : string)
    : comp (list byte) VaultError :=
  let? blob := ok_or (b64_decode b64_blob) InvalidCiphertext in
  if len blob <? 12 + 8 + 32 then CErr InvalidCiphertext
  else
    let tag_offset := Z.to_nat (len blob - 32) in
    let body := take tag_offset blob in
    let tag := drop tag_offset blob in
    if negb (bool_decide (ct_tag secret TAG_LABEL body = tag)) then CErr AuthenticationFailed
    else
      let nonce := take 12 body in
      let ctx_len := from_be_bytes (take 8 (drop 12 body)) in
      let? ctx_end := ok_or (checked_add 20 ctx_len) InvalidCiphertext in
      if len body <? ctx_end then CErr InvalidCiphertext
      else
        let stored_ctx := take (Z.to_nat ctx_len) (drop 20 body) in
        if negb (bool_decide (stored_ctx = default [] context)) then CErr AuthenticationFailed
        else
          let stream_ctx := cloud_sha256 (nonce ++ stored_ctx) in
          vault_xor_stream secret stream_ctx (drop (Z.to_nat ctx_end) body).

(** ** The request handlers *)

Abbreviation outcome := (comp VaultTransitResponse VaultError * MockVaultBackend)%type.

(** A handler that reads the state. *)
Definition reads (b : MockVaultBackend) (r : comp VaultTransitResponse VaultError) : outcome := (r, b).

Definition vault_entry (name : string) (b : MockVaultBackend) : comp MockKeyEntry VaultError :=
  ok_or (vb_keys b !! name) (KeyNotFound name).

Definition handle_create (env : VaultEnv) (name : string) (key_type : VaultKeyType) (exportable : bool)
    (b : MockVaultBackend) : outcome :=
  match vb_keys b !! name with
  | Some _ => (CErr (KeyExists name), b)
  | None =>
      (COk (vault_with "latest_version" (JNumber 1)
             (vault_with "exportable" (JBool exportable)
               (vault_with "type" (JString (vault_wire_name key_type))
                 (vault_with "name" (JString name) vault_response_new)))),
       set_vault_keys (<[name := MockKeyEntry_new env key_type exportable]> (vb_keys b)) b)
  end.

Definition handle_rotate (env : VaultEnv) (name : string) (b : MockVaultBackend) : outcome :=
  match vb_keys b !! name with
  | None => (CErr (KeyNotFound name), b)
  | Some entry =>
      let '(new_ver, entry) := entry_rotate env entry in
      (COk (vault_with "latest_version" (JNumber new_ver) (vault_with "name" (JString name) vault_response_new)),
       set_vault_keys (<[name := entry]> (vb_keys b)) b)
  end.

Definition handle_delete (name : string) (b : MockVaultBackend) : outcome :=
  if negb (vc_deletion_allowed (vb_config b)) then (CErr PermissionDenied, b)
  else
    match vb_keys b !! name with
    | None => (CErr (KeyNotFound name), b)
    | Some _ =>
        (COk (vault_with "deleted" (JString name) vault_response_new),
         set_vault_keys (delete name (vb_keys b)) b)
    end.

Definition sorted_names (b : MockVaultBackend) : list string :=
  merge_sort (fun s t => Is_true (String.leb s t)) (elements (dom (vb_keys b))).

Definition handle_list (b : MockVaultBackend) : comp VaultTransitResponse VaultError :=
  COk (vault_with "keys" (JArray (map JString (sorted_names b))) vault_response_new).

Definition handle_read (name : string) (b : MockVaultBackend) : comp VaultTransitResponse VaultError :=
  let? entry := vault_entry name b in
  COk (vault_with "min_encryption_version" (JNumber (vc_min_encryption_version (vb_config b)))
        (vault_with "min_decryption_version" (JNumber (vc_min_decryption_version (vb_config b)))
          (vault_with "latest_version" (JNumber (ke_latest_version entry))
            (vault_with "exportable" (JBool (ke_exportable entry))
              (vault_with "type" (JString (vault_wire_name (ke_key_type entry)))
                (vault_with "name" (JString name) vault_response_new)))))).

Definition handle_export (name : string) (version : option Z) (b : MockVaultBackend)
    : comp VaultTransitResponse VaultError :=
  let? entry := vault_entry name b in
  if negb (ke_exportable entry) then CErr PermissionDenied
  else
    let v := default (ke_latest_version entry) version in
    let? bytes := ok_or (material v entry) InvalidRequest in
    COk (vault_with "keys" (JObject [(pretty v, JString (b64_encode bytes))])
          (vault_with "name" (JString name) vault_response_new)).

Definition handle_encrypt (env : VaultEnv) (key_name plaintext_b64 : string) (context : option (list byte))
    (b : MockVaultBackend) : comp VaultTransitResponse VaultError :=
  let? _ := of_result (validate_input plaintext_b64) in
  let? entry := vault_entry key_name b in
  if negb (supports_encrypt (ke_key_type entry)) then CErr InvalidRequest
  else
    let ver := ke_latest_version entry in
    if (0 <? vc_min_encryption_version (vb_config b)) && (ver <? vc_min_encryption_version (vb_config b))
    then CErr PermissionDenied
    else
      let? secret := ok_or (material ver entry) VaultInternal in
      let? plaintext := vault_b64_decode plaintext_b64 in
      let? ct := build_ciphertext (vn_nonce env) secret context plaintext ver in
      COk (vault_with "ciphertext" (JString ct) vault_response_new).

Definition handle_decrypt (key_name ciphertext : string) (context : option (list byte)) (b : MockVaultBackend)
    : comp VaultTransitResponse VaultError :=
  let? entry := vault_entry key_name b in
  let? vp := of_result (parse_vault_ciphertext ciphertext) in
  let '(version, payload) := vp in
  if version <? vc_min_decryption_version (vb_config b) then CErr PermissionDenied
  else
    let? secret := ok_or (material version entry) InvalidCiphertext in
    let? plaintext := open_ciphertext secret context payload in
    COk (vault_with "plaintext" (JString (b64_encode plaintext)) vault_response_new).

Definition handle_rewrap (env : VaultEnv) (key_name ciphertext : string) (context : option (list byte))
    (b : MockVaultBackend) : comp VaultTransitResponse VaultError :=
  let? entry := vault_entry key_name b in
  let? vp := of_result (parse_vault_ciphertext ciphertext) in
  let '(version, payload) := vp in
  let? old_secret := ok_or (material version entry) InvalidCiphertext in
  let? plaintext := open_ciphertext old_secret context payload in
  let new_ver := ke_latest_version entry in
  let? new_secret := ok_or (material new_ver entry) VaultInternal in
  let? new_ct := build_ciphertext (vn_nonce env) new_secret context plaintext new_ver in
  COk (vault_with "ciphertext" (JString new_ct) vault_response_new).

(** What is signed: algorithm, a zero byte, the input. *)
Definition signed_bytes (hash_algorithm : string) (input : list byte) : list byte :=
  as_bytes hash_algorithm ++ [Byte.x00] ++ input.

Definition handle_sign (key_name input_b64 hash_algorithm : string) (b : MockVaultBackend)
    : comp VaultTransitResponse VaultError :=
  let? _ := of_result (validate_input input_b64) in
  let? _ := of_result (validate_hash_algorithm hash_algorithm) in
  let? entry := vault_entry key_name b in
  if negb (supports_sign (ke_key_type entry)) then CErr InvalidRequest
  else
    let ver := ke_latest_version entry in
    let? secret := ok_or (material ver entry) VaultInternal in
    let? input := vault_b64_decode input_b64 in
    let raw := sign_hmac secret (as_bytes "SIGN") (signed_bytes hash_algorithm input) in
    COk (vault_with "signature" (JString (format_vault_ciphertext ver (b64_encode raw))) vault_response_new).

Definition handle_verify (key_name input_b64 signature hash_algorithm : string) (b : MockVaultBackend)
    : comp VaultTransitResponse VaultError :=
  let? _ := of_result (validate_input input_b64) in
  let? _ := of_result (validate_hash_algorithm hash_algorithm) in
  let? entry := vault_entry key_name b in
  let? vp := (match parse_vault_ciphertext signature with Ok vp => COk vp | Err _ => CErr InvalidRequest end) in
  let '(version, payload) := vp in
  let? secret := ok_or (material version entry) InvalidRequest in
  let? input := vault_b64_decode input_b64 in
  let expected := sign_hmac secret (as_bytes "SIGN") (signed_bytes hash_algorithm input) in
  let? provided := vault_b64_decode payload in
  COk (vault_with "valid" (JBool (bool_decide (expected = provided))) vault_response_new).

Definition handle_data_key (env : VaultEnv) (key_name : string) (plaintext : bool) (bits : Z)
    (b : MockVaultBackend) : comp VaultTransitResponse VaultError :=
  if negb (bool_decide (bits ∈ [128; 256; 512])) then CErr InvalidRequest
  else
    let? entry := vault_entry key_name b in
    if negb (supports_encrypt (ke_key_type entry)) then CErr InvalidRequest
    else
      let ver := ke_latest_version entry in
      let? secret := ok_or (material ver entry) VaultInternal in
      let data_key := vn_random env (Z.to_nat (bits / 8)) in
      let? ct := build_ciphertext (vn_nonce env) secret None data_key ver in
      let resp := vault_with "ciphertext" (JString ct) vault_response_new in
      COk (if plaintext then vault_with "plaintext" (JString (b64_encode data_key)) resp else resp).

Definition handle_hash (algorithm input_b64 : string) : comp VaultTransitResponse VaultError :=
  let? _ := of_result (validate_input input_b64) in
  let? _ := of_result (validate_hash_algorithm algorithm) in
  let? input := vault_b64_decode input_b64 in
  let? digest :=
    (if bool_decide (algorithm = "sha2-224") then COk (cloud_sha224 input)
     else if bool_decide (algorithm = "sha2-256") then COk (cloud_sha256 input)
     else if bool_decide (algorithm = "sha2-384") then COk (cloud_sha384 input)
     else if bool_decide (algorithm = "sha2-512") then COk (cloud_sha512 input)
     else CErr InvalidRequest) in
  COk (vault_with "sum" (JString (b64_encode digest)) vault_response_new).

Definition handle_hmac (key_name input_b64 algorithm : string) (b : MockVaultBackend)
    : comp VaultTransitResponse VaultError :=
  let? _ := of_result (validate_input input_b64) in
  let? _ := of_result (validate_hash_algorithm algorithm) in
  let? entry := vault_entry key_name b in
  let ver := ke_latest_version entry in
  let? secret := ok_or (material ver entry) VaultInternal in
  let? input := vault_b64_decode input_b64 in
  let mac := vault_hmac secret algorithm input in
  COk (vault_with "hmac" (JString (format_vault_ciphertext ver (b64_encode mac))) vault_response_new).

Definition handle_random (env : VaultEnv) (bytes : Z) : comp VaultTransitResponse VaultError :=
  if MAX_VAULT_RANDOM_BYTES <? bytes then CErr InvalidRequest
  else COk (vault_with "random_bytes" (JString (b64_encode (vn_random env (Z.to_nat bytes)))) vault_response_new).

(** The request after access policy and name check. *)
Definition vault_handle (env : VaultEnv) (req : VaultTransitRequest) (b : MockVaultBackend) : outcome :=
  match req with
  | CreateKey name key_type exportable => handle_create env name key_type exportable b
  | RotateKey name => handle_rotate env name b
  | DeleteKey name => handle_delete name b
  | ListKeys => reads b (handle_list b)
  | ReadKey name => reads b (handle_read name b)
  | ExportKey name version => reads b (handle_export name version b)
  | Encrypt key_name plaintext_b64 context => reads b (handle_encrypt env key_name plaintext_b64 context b)
  | Decrypt key_name ciphertext context => reads b (handle_decrypt key_name ciphertext context b)
  | Rewrap key_name ciphertext context => reads b (handle_rewrap env key_name ciphertext context b)
  | Sign key_name input_b64 hash_algorithm => reads b (handle_sign key_name input_b64 hash_algorithm b)
  | Verify key_name input_b64 signature hash_algorithm =>
      reads b (handle_verify key_name input_b64 signature hash_algorithm b)
  | DataKey key_name plaintext bits => reads b (handle_data_key env key_name plaintext bits b)
  | Hash algorithm input_b64 => reads b (handle_hash algorithm input_b64)
  | HmacOf key_name input_b64 algorithm => reads b (handle_hmac key_name input_b64 algorithm b)
  | Random bytes => reads b (handle_random env bytes)
  end.

Definition vault_dispatch (env : VaultEnv) (identity : VaultIdentity) (req : VaultTransitRequest)
    (b : MockVaultBackend) : outcome :=
  if negb (vb_acl b identity (default "" (key_name_of req)) (op_for req)) then (CErr PermissionDenied, b)
  else
    match key_name_of req with
    | Some name =>
        match validate_vault_key_name name with
        | Err e => (CErr e, b)
        | Ok _ => vault_handle env req b
        end
    | None => vault_handle env req b
    end.

Definition handle_request_as (env : VaultEnv) (identity : VaultIdentity) (req : VaultTransitRequest)
    (b : MockVaultBackend) : outcome := vault_dispatch env identity req b.

Definition handle_request (env : VaultEnv) (req : VaultTransitRequest) (b : MockVaultBackend) : outcome :=
  vault_dispatch env (vb_default_identity b) req b.

End Vault.
