(* ===== verification/CloudVaultProofs.v ===== *)
(** * Theorems about the Vault transit backend *)

From stdpp Require Import prelude gmap strings list pretty sorting.
From Stdlib Require Import ZArith Lia.
From coqutil Require Import Byte.
From S2P Require Import Prelude RustStd CloudCrypto CloudCryptoProofs CloudVault.
Local Open Scope rust_scope.
Local Open Scope string_scope.
Local Open Scope list_scope.
Local Open Scope Z_scope.

(** ** The ciphertext format *)

Lemma split_colon_app (a r : list byte) : Byte.x3a ∉ a -> split_colon (a ++ Byte.x3a :: r) = (a, Some r).
Proof.
  induction a as [|b a IH]; [done|]. rewrite not_elem_of_cons. intros [? ?].
  cbn [split_colon app]. rewrite bool_decide_false, IH by done. done.
Qed.

Lemma digits_no_colon bs : Forall (fun b => byte_in b 0x30 0x39 = true) bs -> Byte.x3a ∉ bs.
Proof. intros H Hin. rewrite Forall_forall in H. by specialize (H _ Hin). Qed.

Lemma parse_format version payload :
  in_u32 version -> forallb is_b64 (as_bytes payload) = true ->
  len (as_bytes (format_vault_ciphertext version payload)) <= MAX_VAULT_CIPHERTEXT_LEN ->
  parse_vault_ciphertext (format_vault_ciphertext version payload) = Ok (version, payload).
Proof.
  intros Hv Hp Hlen. unfold parse_vault_ciphertext. rewrite (proj2 (Z.ltb_ge _ _)) by lia.
  unfold format_vault_ciphertext. rewrite !as_bytes_app.
  change (as_bytes "vault:v") with (as_bytes "vault" ++ Byte.x3a :: [Byte.x76]). change (as_bytes ":") with [Byte.x3a].
  rewrite <- !app_assoc. cbn [app]. rewrite split_colon_app by (vm_compute; intros H; repeat (apply elem_of_cons in H as [?|H]; [done|]); by apply elem_of_nil in H).
  change (Byte.x76 :: as_bytes (pretty version) ++ Byte.x3a :: as_bytes payload)
    with ((Byte.x76 :: as_bytes (pretty version)) ++ Byte.x3a :: as_bytes payload).
  rewrite split_colon_app.
  2:{ apply not_elem_of_cons. split; [done|]. apply digits_no_colon, pretty_digits. apply Hv. }
  rewrite bool_decide_true by done. cbn [negb]. by rewrite parse_u32_pretty, Hp, from_as_bytes.
Qed.

Lemma pretty_u32_len v : in_u32 v -> len (as_bytes (pretty v)) <= 10.
Proof.
  intros [H0 H1]. destruct v as [|v|v]; [done| |lia]. rewrite pretty_pos.
  etrans; [apply (pretty_go_len 10); simpl in *; lia|]. vm_compute. discriminate.
Qed.

Lemma format_len version payload :
  in_u32 version -> len (as_bytes (format_vault_ciphertext version payload)) <= 18 + len (as_bytes payload).
Proof.
  intros Hv. unfold format_vault_ciphertext. rewrite !as_bytes_app, !len_app.
  pose proof (pretty_u32_len version Hv). change (len (as_bytes "vault:v")) with 7. change (len (as_bytes ":")) with 1. lia.
Qed.

Section Vault.
Context {CC : CloudCrates} {CL : CloudLaws CC}.

Lemma ct_tag_length secret label body : length (ct_tag secret label body) = 32%nat.
Proof. apply cloud_hmac_length. Qed.

Lemma vault_xor_invol secret context data :
  len data <= u64_max ->
  exists out, vault_xor_stream secret context data = COk out /\ length out = length data /\
    vault_xor_stream secret context out = COk data.
Proof.
  intros Hl. unfold vault_xor_stream. destruct (xor_stream_invol (subkey secret (as_bytes "WRAP-ENC")) context data Hl)
    as (out & -> & Hlen & E). exists out. by rewrite E.
Qed.

(** The authenticated part of a ciphertext. *)
Definition ct_blob (nonce ctx body : list byte) : list byte := nonce ++ to_be_bytes 8 (len ctx) ++ ctx ++ body.

(** Opening a blob with its tag. *)
Lemma open_blob secret context nonce ctx body :
  length nonce = 12%nat -> 20 + len ctx <= u64_max ->
  open_ciphertext secret context (b64_encode (ct_blob nonce ctx body ++ ct_tag secret TAG_LABEL (ct_blob nonce ctx body))) =
  if bool_decide (ctx = default [] context)
  then vault_xor_stream secret (cloud_sha256 (nonce ++ ctx)) body else CErr AuthenticationFailed.
Proof.
  intros Hn Hc. pose proof (len_nonneg ctx). pose proof (len_nonneg body).
  unfold open_ciphertext. rewrite b64_roundtrip_bytes. cbn [ok_or comp_bind].
  set (blob := ct_blob nonce ctx body).
  assert (length blob = 20 + length ctx + length body)%nat as Hb
    by (subst blob; unfold ct_blob; rewrite !length_app, to_be_bytes_length; lia).
  pose proof (ct_tag_length secret TAG_LABEL blob) as Ht.
  assert (len (blob ++ ct_tag secret TAG_LABEL blob) = len blob + 32) as Hl by (unfold len; rewrite length_app, Ht; lia).
  assert (len blob = Z.of_nat (length blob)) as Hlb by done.
  rewrite Hl. rewrite (proj2 (Z.ltb_ge _ _)) by lia.
  replace (Z.to_nat (len blob + 32 - 32)) with (length blob) by lia.
  rewrite take_app_length, drop_app_length. rewrite bool_decide_true by done. cbn [negb].
  assert (take 12 blob = nonce) as -> by (subst blob; unfold ct_blob; by apply take_app_length').
  assert (drop 12 blob = to_be_bytes 8 (len ctx) ++ ctx ++ body) as ->
    by (subst blob; unfold ct_blob; by apply drop_app_length').
  rewrite (take_app_length' _ _ 8) by (by rewrite to_be_bytes_length).
  rewrite from_to_be_bytes by (unfold u64_max in *; lia).
  unfold checked_add. rewrite (proj2 (Z.leb_le _ _)) by lia. cbn [ok_or comp_bind].
  assert (len ctx = Z.of_nat (length ctx)) by done.
  rewrite (proj2 (Z.ltb_ge _ _)) by lia.
  assert (drop 20 blob = ctx ++ body) as ->.
  { subst blob. unfold ct_blob. rewrite !app_assoc. rewrite <- (app_assoc _ ctx). apply drop_app_length'.
    rewrite length_app, to_be_bytes_length. lia. }
  rewrite take_app_length' by lia.
  assert (drop (Z.to_nat (20 + len ctx)) blob = body) as ->.
  { subst blob. unfold ct_blob. rewrite !app_assoc. apply drop_app_length'.
    rewrite !length_app, to_be_bytes_length. lia. }
  by destruct (bool_decide _).
Qed.

(** ** What a request changes *)

(** The keys after a request. *)
Inductive vault_change (env : VaultEnv) (req : VaultTransitRequest) (b b' : MockVaultBackend) : Prop :=
| vc_same : b' = b -> vault_change env req b b'
| vc_create name key_type exportable :
    req = CreateKey name key_type exportable -> vb_keys b !! name = None ->
    b' = set_vault_keys (<[name := MockKeyEntry_new env key_type exportable]> (vb_keys b)) b ->
    vault_change env req b b'
| vc_rotate name entry :
    req = RotateKey name -> vb_keys b !! name = Some entry ->
    b' = set_vault_keys (<[name := (entry_rotate env entry).2]> (vb_keys b)) b ->
    vault_change env req b b'
| vc_delete name :
    req = DeleteKey name -> vc_deletion_allowed (vb_config b) = true ->
    b' = set_vault_keys (delete name (vb_keys b)) b ->
    vault_change env req b b'.

Lemma vault_handle_change env req b : vault_change env req b (vault_handle env req b).2.
Proof.
  destruct req; try by apply vc_same.
  - cbn. unfold handle_delete. destruct (vc_deletion_allowed (vb_config b)) eqn:E; [|by apply vc_same].
    cbn. destruct (vb_keys b !! name); [by eapply vc_delete|by apply vc_same].
  - cbn. unfold handle_create. destruct (vb_keys b !! name) eqn:E; [by apply vc_same|]. by eapply vc_create.
  - cbn. unfold handle_rotate. destruct (vb_keys b !! name) as [entry|] eqn:E; [|by apply vc_same].
    destruct (entry_rotate env entry) as [v e'] eqn:Er. eapply vc_rotate; [done..|]. by rewrite Er.
Qed.

(** What the policy and the name check let through. *)
Definition vault_permitted (identity : VaultIdentity) (req : VaultTransitRequest) (b : MockVaultBackend) : Prop :=
  vb_acl b identity (default "" (key_name_of req)) (op_for req) = true /\
  forall name, key_name_of req = Some name -> validate_vault_key_name name = Ok tt.

Lemma vault_dispatch_cases env identity req b :
  (vault_permitted identity req b /\ vault_dispatch env identity req b = vault_handle env req b) \/
  (~ vault_permitted identity req b /\ exists e, vault_dispatch env identity req b = (CErr e, b) /\
     (e = PermissionDenied \/ e = InvalidRequest)).
Proof.
  unfold vault_dispatch, vault_permitted. destruct (vb_acl b identity _ _) eqn:Ea; cbn [negb].
  2:{ right. split; [by intros [? _]|]. eauto. }
  destruct (key_name_of req) as [name|] eqn:En; [|left; split; [by split|done]].
  destruct (validate_vault_key_name name) as [[]|e] eqn:Ev.
  - left. split; [|done]. split; [done|]. by intros ? [= <-].
  - right. split; [intros [_ H]; by rewrite (H name eq_refl) in Ev|].
    exists e. split; [done|]. right. unfold validate_vault_key_name in Ev. repeat case_if; congruence.
Qed.

Lemma vault_dispatch_change env identity req b : vault_change env req b (vault_dispatch env identity req b).2.
Proof.
  destruct (vault_dispatch_cases env identity req b) as [[_ ->]|[_ (e & -> & _)]];
    [apply vault_handle_change|by apply vc_same].
Qed.

(** The policy decides who changes a key: whenever a request changes the entry of a
    name, the policy allowed its caller to manage exactly this name, and the request
    creates (an absent key), rotates or, if the configuration allows it, deletes that
    name; a request the policy refuses is answered with an error and changes nothing. *)
Theorem vault_acl_sound env identity req b name :
  (vb_keys (vault_dispatch env identity req b).2 !! name <> vb_keys b !! name ->
   vb_acl b identity name OpManage = true /\
   ((exists key_type exportable, req = CreateKey name key_type exportable /\ vb_keys b !! name = None) \/
    (req = RotateKey name /\ is_Some (vb_keys b !! name)) \/
    (req = DeleteKey name /\ vc_deletion_allowed (vb_config b) = true))) /\
  (vb_acl b identity (default "" (key_name_of req)) (op_for req) = false ->
   vault_dispatch env identity req b = (CErr PermissionDenied, b)).
Proof.
  split.
  - destruct (vault_dispatch_cases env identity req b) as [[[Ha _] ->]|[_ (e & -> & _)]]; [|done].
    destruct (vault_handle_change env req b) as [->|n kt ex -> Hn ->|n en -> Hn ->|n -> Hd ->]; [done|..]; cbn;
      (destruct (decide (name = n)) as [->|]; [|rewrite ?lookup_insert_ne, ?lookup_delete_ne by done; done]);
      intros _; (split; [exact Ha|]); [left; by exists kt, ex|right; left; by rewrite Hn|right; by right].
  - intros Ha. unfold vault_dispatch. by rewrite Ha.
Qed.

(** ** Runs *)

Definition vault_run (reqs : list (VaultEnv * VaultIdentity * VaultTransitRequest)) (b : MockVaultBackend)
    : MockVaultBackend :=
  foldl (fun b r => (vault_dispatch r.1.1 r.1.2 r.2 b).2) b reqs.

Lemma vault_run_cons r reqs b : vault_run (r :: reqs) b = vault_run reqs (vault_dispatch r.1.1 r.1.2 r.2 b).2.
Proof. done. Qed.

Lemma vault_dispatch_frame env identity req b :
  vb_config (vault_dispatch env identity req b).2 = vb_config b /\ vb_acl (vault_dispatch env identity req b).2 = vb_acl b.
Proof. by destruct (vault_dispatch_change env identity req b) as [->|? ? ? _ _ ->|? ? _ _ ->|? _ _ ->]. Qed.

Lemma vault_run_frame reqs b : vb_config (vault_run reqs b) = vb_config b /\ vb_acl (vault_run reqs b) = vb_acl b.
Proof.
  revert b. induction reqs as [|r reqs IH]; intros b; [done|]. rewrite vault_run_cons.
  destruct (IH (vault_dispatch r.1.1 r.1.2 r.2 b).2) as [-> ->]. apply vault_dispatch_frame.
Qed.

(** Every key has versions, the last of which is its latest. *)
Definition vault_ok (n : Z) (b : MockVaultBackend) : Prop :=
  map_Forall (fun _ e => ke_latest_version e = len (ke_versions e) /\ 0 < len (ke_versions e) <= n) (vb_keys b).

Lemma vault_ok_dispatch n env identity req b :
  1 <= n < 2 ^ 32 - 1 -> vault_ok n b -> vault_ok (n + 1) (vault_dispatch env identity req b).2.
Proof.
  intros Hn Hok. assert (vault_ok (n + 1) b) as Hok'.
  { intros name e He. destruct (Hok name e He). lia. }
  destruct (vault_dispatch_change env identity req b) as [->|name kt ex _ _ ->|name en _ He ->|name _ _ ->]; [done|..].
  - apply map_Forall_insert_2; [|done]. cbn. change (len [_]) with 1. lia.
  - apply map_Forall_insert_2; [|done]. destruct (Hok name en He) as [Hl Hv]. cbn.
    rewrite len_app. change (len [_]) with 1.
    rewrite Z.mod_small by lia. lia.
  - by apply map_Forall_delete.
Qed.

Lemma vault_ok_run n reqs b :
  1 <= n -> n + len reqs < 2 ^ 32 -> vault_ok n b -> vault_ok (n + len reqs) (vault_run reqs b).
Proof.
  revert n b. induction reqs as [|r reqs IH]; intros n b Hn Hl Hok; [by rewrite Z.add_0_r|].
  rewrite len_cons in *. pose proof (len_nonneg reqs). replace (n + (1 + len reqs)) with (n + 1 + len reqs) by lia.
  rewrite vault_run_cons. apply IH; [lia|lia|]. apply vault_ok_dispatch; [lia|done].
Qed.

(** An entry that is kept, with possibly more versions. *)
Definition keeps_key (name : string) (e : MockKeyEntry) (b : MockVaultBackend) : Prop :=
  exists e', vb_keys b !! name = Some e' /\ ke_versions e `prefix_of` ke_versions e' /\
    ke_key_type e' = ke_key_type e /\ ke_exportable e' = ke_exportable e.

Lemma keeps_key_dispatch name e env identity req b :
  req <> DeleteKey name -> keeps_key name e b -> keeps_key name e (vault_dispatch env identity req b).2.
Proof.
  intros Hreq (e' & He & Hp & Ht & Hx).
  destruct (vault_dispatch_change env identity req b) as [->|n kt ex -> Hn ->|n en -> Hen ->|n -> _ ->].
  - by exists e'.
  - assert (n <> name) by congruence. exists e'. cbn. by rewrite lookup_insert_ne.
  - destruct (decide (n = name)) as [->|]; [|exists e'; cbn; by rewrite lookup_insert_ne].
    rewrite Hen in He. injection He as ->. eexists. cbn. rewrite lookup_insert_eq. split; [done|].
    cbn. split_and!; [by apply prefix_app_r|done..].
  - assert (n <> name) by congruence. exists e'. cbn. by rewrite lookup_delete_ne.
Qed.

Lemma keeps_key_run name e reqs b :
  Forall (fun r => r.2 <> DeleteKey name) reqs -> keeps_key name e b -> keeps_key name e (vault_run reqs b).
Proof.
  intros Hr. revert b. induction Hr as [|r reqs Hr _ IH]; intros b Hk; [done|]. rewrite vault_run_cons. apply IH.
  by apply keeps_key_dispatch.
Qed.

Lemma material_prefix version e e' secret :
  ke_versions e `prefix_of` ke_versions e' -> material version e = Some secret -> material version e' = Some secret.
Proof.
  intros Hp. unfold material. destruct (checked_sub version 1) as [i|]; [|done]. cbn.
  destruct (ke_versions e !! Z.to_nat i) as [kv|] eqn:E; [|done]. cbn. intros [= <-].
  by rewrite (prefix_lookup_Some _ _ _ _ E Hp).
Qed.

(** ** Ciphertexts *)

Lemma build_opens nonce secret context plaintext version :
  length nonce = 12%nat -> len plaintext + len (default [] context) <= 98000 -> in_u32 version ->
  exists payload ct, build_ciphertext nonce secret context plaintext version = COk ct /\
    parse_vault_ciphertext ct = Ok (version, payload) /\ open_ciphertext secret context payload = COk plaintext.
Proof.
  intros Hn Hl Hv. set (ctx := default [] context) in *. pose proof (len_nonneg ctx). pose proof (len_nonneg plaintext).
  assert (u64_max = 18446744073709551615) as Hmax by done.
  destruct (vault_xor_invol secret (cloud_sha256 (nonce ++ ctx)) plaintext) as (body & E & Hb & E'); [lia|].
  unfold build_ciphertext. fold ctx. rewrite E. cbn [comp_bind].
  replace ((nonce ++ to_be_bytes 8 (len ctx) ++ ctx) ++ body) with (ct_blob nonce ctx body)
    by (unfold ct_blob; by rewrite <- !app_assoc).
  set (payload := b64_encode _). exists payload. eexists. split; [done|]. split.
  - apply parse_format; [done|subst payload; unfold b64_encode; rewrite as_from_bytes; apply b64_chars_is_b64|].
    etrans; [by apply format_len|]. subst payload. unfold b64_encode. rewrite as_from_bytes, b64_chars_len.
    unfold MAX_VAULT_CIPHERTEXT_LEN. unfold len in *. rewrite length_app, ct_tag_length. unfold ct_blob.
    rewrite !length_app, to_be_bytes_length. b64_arith.
  - subst payload. rewrite open_blob by (done || lia). by rewrite bool_decide_true.
Qed.

Lemma material_latest n b name e :
  vault_ok n b -> vb_keys b !! name = Some e -> exists secret, material (ke_latest_version e) e = Some secret.
Proof.
  intros Hok He. destruct (Hok name e He) as [Hl Hv]. unfold material, checked_sub.
  rewrite (proj2 (Z.leb_le _ _)) by lia. cbn. rewrite Hl.
  destruct (lookup_lt_is_Some_2 (ke_versions e) (Z.to_nat (len (ke_versions e) - 1))) as [kv Hkv];
    [unfold len in *; lia|]. rewrite Hkv. cbn. eauto.
Qed.

(** A successful encryption: the key, its latest version and the ciphertext. *)
Lemma encrypt_inv env identity name plaintext context b b1 resp :
  vault_dispatch env identity (Encrypt name (b64_encode plaintext) context) b = (COk resp, b1) ->
  b1 = b /\ validate_vault_key_name name = Ok tt /\
  exists e secret ct, vb_keys b !! name = Some e /\ material (ke_latest_version e) e = Some secret /\
    build_ciphertext (vn_nonce env) secret context plaintext (ke_latest_version e) = COk ct /\
    vr_data resp !! "ciphertext" = Some (JString ct).
Proof.
  intros H. destruct (vault_dispatch_cases env identity (Encrypt name (b64_encode plaintext) context) b)
    as [[[_ Hv] E]|[_ (? & E & _)]]; rewrite E in H; [|done]. cbn in H. unfold reads in H.
  injection H as H <-. split; [done|]. split; [by apply Hv|]. unfold handle_encrypt in H.
  apply comp_bind_COk_inv in H as (? & _ & H). apply comp_bind_COk_inv in H as (e & He & H).
  unfold vault_entry in He. destruct (vb_keys b !! name) as [e'|]; [|done]. injection He as ->.
  case_if; [done|]. case_if; [done|].
  apply comp_bind_COk_inv in H as (secret & Hs & H). apply comp_bind_COk_inv in H as (p & Hp & H).
  unfold vault_b64_decode in Hp. rewrite b64_roundtrip_bytes in Hp. injection Hp as <-.
  apply comp_bind_COk_inv in H as (ct & Hct & H). injection H as <-.
  exists e, secret, ct. split; [done|]. split; [by apply ok_or_COk in Hs|]. split; [done|].
  cbn. by rewrite lookup_insert_eq.
Qed.

(** C16: ciphertexts stay readable: in every run of a new backend, what an encryption
    of a plaintext and context of at most 98 000 bytes together returned, under a version not
    below the configured minimum for decryption, is decrypted to the plaintext by every later
    request of a caller with the right, under the same context, however often the key is
    rotated in between and whatever else is requested, unless the key is deleted.  (Longer
    plaintexts are accepted and cannot be decrypted: large_ciphertext_lost.) *)
Theorem ciphertext_survives acl config before env identity name plaintext context resp b1 after env' identity' :
  let b := vault_run before (vault_with_acl acl (vault_with_config config)) in
  vault_dispatch env identity (Encrypt name (b64_encode plaintext) context) b = (COk resp, b1) ->
  length (vn_nonce env) = 12%nat -> len plaintext + len (default [] context) <= 98000 ->
  len before + 1 < 2 ^ 32 ->
  (forall e, vb_keys b !! name = Some e -> vc_min_decryption_version config <= ke_latest_version e) ->
  Forall (fun r => r.2 <> DeleteKey name) after -> acl identity' name OpCrypto = true ->
  exists ct, vr_data resp !! "ciphertext" = Some (JString ct) /\
    vault_dispatch env' identity' (Decrypt name ct context) (vault_run after b1) =
    (COk (vault_with "plaintext" (JString (b64_encode plaintext)) vault_response_new), vault_run after b1).
Proof.
  intros b H Hn Hl Hlen Hmin Hdel Hacl. apply encrypt_inv in H as (-> & Hname & e & secret & ct & He & Hs & Hct & Hr).
  assert (vault_ok (1 + len before) b) as Hok.
  { apply vault_ok_run; [done|lia|]. by intros ? ?. }
  destruct (Hok name e He) as [Hlat Hv]. pose proof (len_nonneg before).
  destruct (build_opens (vn_nonce env) secret context plaintext (ke_latest_version e)) as (payload & ct' & Hb & Hp & Ho);
    [done|done|unfold in_u32; lia|]. rewrite Hct in Hb. injection Hb as <-.
  exists ct. split; [done|].
  destruct (keeps_key_run name e after b Hdel) as (e' & He' & Hpre & _); [by exists e|].
  destruct (vault_run_frame after b) as [Hc1 Ha1]. destruct (vault_run_frame before (vault_with_acl acl (vault_with_config config))) as [Hc2 Ha2].
  fold b in Hc2, Ha2. rewrite Hc2 in Hc1. rewrite Ha2 in Ha1.
  unfold vault_dispatch. rewrite Ha1. cbn [op_for key_name_of default from_option id]. cbn. rewrite Hacl. cbn [negb].
  rewrite Hname. cbn. unfold reads. f_equal. unfold handle_decrypt, vault_entry. rewrite He'. cbn [ok_or comp_bind].
  rewrite Hp. cbn [of_result comp_bind]. rewrite Hc1. cbn. rewrite (proj2 (Z.ltb_ge _ _)) by (by apply Hmin).
  rewrite (material_prefix _ _ _ _ Hpre Hs). cbn. by rewrite Ho.
Qed.

(** What opens has the form that [build_ciphertext] gives it. *)
Lemma open_inv secret context payload plaintext :
  open_ciphertext secret context payload = COk plaintext ->
  exists nonce body, length nonce = 12%nat /\
    b64_decode payload = Some (ct_blob nonce (default [] context) body
                               ++ ct_tag secret TAG_LABEL (ct_blob nonce (default [] context) body)) /\
    vault_xor_stream secret (cloud_sha256 (nonce ++ default [] context)) body = COk plaintext.
Proof.
  unfold open_ciphertext. intros H. apply comp_bind_COk_inv in H as (blob & Hb%ok_or_COk & H).
  destruct (Z.ltb_spec (len blob) (12 + 8 + 32)) as [|Hlen]; [done|].
  set (n := Z.to_nat (len blob - 32)) in *. set (body := take n blob) in *.
  assert (length body = n) as Hbl by (subst body n; rewrite length_take; unfold len in *; lia).
  assert (20 <= n)%nat as Hn by (subst n; lia).
  case_bool_decide as Ht; [|done]. cbn [negb] in H.
  apply comp_bind_COk_inv in H as (ctx_end & Hce%ok_or_COk & H).
  unfold checked_add in Hce. set (ctx_len := from_be_bytes (take 8 (drop 12 body))) in *.
  assert (0 <= ctx_len) by apply from_be_bytes_bound.
  destruct (20 + ctx_len <=? u64_max); [|done]. injection Hce as <-. destruct (Z.ltb_spec (len body) (20 + ctx_len)) as [|Hfit]; [done|].
  case_bool_decide as Hctx; [|done]. cbn [negb] in H.
  exists (take 12 body), (drop (Z.to_nat (20 + ctx_len)) body).
  assert (ct_blob (take 12 body) (default [] context) (drop (Z.to_nat (20 + ctx_len)) body) = body) as Hblob.
  { unfold ct_blob. rewrite <- Hctx. assert (len (take (Z.to_nat ctx_len) (drop 20 body)) = ctx_len) as ->.
    { unfold len in *. rewrite length_take, length_drop. lia. }
    subst ctx_len. rewrite to_from_be_bytes by (rewrite length_take, length_drop; lia).
    set (k := Z.to_nat (from_be_bytes (take 8 (drop 12 body)))).
    replace (Z.to_nat (20 + from_be_bytes (take 8 (drop 12 body)))) with (20 + k)%nat by lia.
    rewrite <- (take_drop 12 body) at 5. f_equal. rewrite <- (take_drop 8 (drop 12 body)) at 2. f_equal.
    rewrite !drop_drop. rewrite <- (take_drop k (drop (12 + 8) body)). f_equal. by rewrite drop_drop. }
  split; [rewrite length_take; lia|]. rewrite Hblob. split.
  - rewrite Hb. f_equal. subst body. rewrite Ht. symmetry. apply take_drop.
  - by rewrite <- Hctx.
Qed.

(** Only authentic ciphertexts are decrypted: a plaintext is returned only to a caller
    with the right, for a text whose version is not below the configured minimum, and whose
    bytes are a nonce, exactly the context of the request, a body and the HMAC of these
    under the key of that version; the plaintext is the body with that key's stream. *)
Theorem decrypt_authentic env identity name ct context b b' resp :
  vault_dispatch env identity (Decrypt name ct context) b = (COk resp, b') ->
  b' = b /\ vb_acl b identity name OpCrypto = true /\
  exists e version payload secret nonce body plaintext,
    vb_keys b !! name = Some e /\ parse_vault_ciphertext ct = Ok (version, payload) /\
    vc_min_decryption_version (vb_config b) <= version /\ material version e = Some secret /\
    length nonce = 12%nat /\
    b64_decode payload = Some (ct_blob nonce (default [] context) body
                               ++ ct_tag secret TAG_LABEL (ct_blob nonce (default [] context) body)) /\
    vault_xor_stream secret (cloud_sha256 (nonce ++ default [] context)) body = COk plaintext /\
    vr_data resp !! "plaintext" = Some (JString (b64_encode plaintext)).
Proof.
  intros H. destruct (vault_dispatch_cases env identity (Decrypt name ct context) b) as [[[Ha _] E]|[_ (? & E & _)]];
    rewrite E in H; [|done]. cbn in H. unfold reads in H. injection H as H <-. split; [done|]. split; [done|].
  unfold handle_decrypt in H. apply comp_bind_COk_inv in H as (e & He%ok_or_COk & H).
  apply comp_bind_COk_inv in H as ([version payload] & Hp & H).
  destruct (parse_vault_ciphertext ct) as [vp|] eqn:Ep; [|done]. injection Hp as ->.
  destruct (Z.ltb_spec version (vc_min_decryption_version (vb_config b))) as [|Hmin]; [done|].
  apply comp_bind_COk_inv in H as (secret & Hs%ok_or_COk & H). apply comp_bind_COk_inv in H as (plaintext & Ho & H).
  injection H as <-. destruct (open_inv _ _ _ _ Ho) as (nonce & body & Hn & Hd & Hx).
  exists e, version, payload, secret, nonce, body, plaintext. done.
Qed.

(** ** What the minimum version does not cover *)

Lemma decrypt_permitted env identity name ct context b e version payload :
  vb_acl b identity name OpCrypto = true -> validate_vault_key_name name = Ok tt -> vb_keys b !! name = Some e ->
  parse_vault_ciphertext ct = Ok (version, payload) ->
  vault_dispatch env identity (Decrypt name ct context) b =
  ((if version <? vc_min_decryption_version (vb_config b) then CErr PermissionDenied
    else let? secret := ok_or (material version e) InvalidCiphertext in
         let? plaintext := open_ciphertext secret context payload in
         COk (vault_with "plaintext" (JString (b64_encode plaintext)) vault_response_new)), b).
Proof.
  intros Ha Hv He Hp. unfold vault_dispatch. cbn. rewrite Ha, Hv. cbn. unfold reads. f_equal.
  unfold handle_decrypt, vault_entry. rewrite He, Hp. done.
Qed.

(** The minimum version is not enforced by re-wrapping: a caller who may not decrypt a
    ciphertext because its version is below the minimum gets it re-encrypted under the
    latest version, and may then decrypt the result. *)
Theorem rewrap_ignores_minimum n env identity name ct context b e version payload secret plaintext :
  vault_ok n b -> n < 2 ^ 32 -> vb_acl b identity name OpCrypto = true -> validate_vault_key_name name = Ok tt ->
  vb_keys b !! name = Some e -> parse_vault_ciphertext ct = Ok (version, payload) ->
  material version e = Some secret -> open_ciphertext secret context payload = COk plaintext ->
  len plaintext + len (default [] context) <= 98000 -> length (vn_nonce env) = 12%nat ->
  version < vc_min_decryption_version (vb_config b) <= ke_latest_version e ->
  vault_dispatch env identity (Decrypt name ct context) b = (CErr PermissionDenied, b) /\
  exists resp ct', vault_dispatch env identity (Rewrap name ct context) b = (COk resp, b) /\
    vr_data resp !! "ciphertext" = Some (JString ct') /\
    vault_dispatch env identity (Decrypt name ct' context) b =
    (COk (vault_with "plaintext" (JString (b64_encode plaintext)) vault_response_new), b).
Proof.
  intros Hok Hn32 Ha Hv He Hp Hs Ho Hl Hn [Hlow Hmin]. destruct (Hok name e He) as [Hlat Hver]. split.
  { erewrite decrypt_permitted by done. by rewrite (proj2 (Z.ltb_lt _ _)) by done. }
  destruct (material_latest n b name e Hok He) as [new Hnew].
  destruct (build_opens (vn_nonce env) new context plaintext (ke_latest_version e)) as (payload' & ct' & Hb & Hp' & Ho');
    [done|done|unfold in_u32; lia|].
  exists (vault_with "ciphertext" (JString ct') vault_response_new), ct'. split_and!.
  - unfold vault_dispatch. cbn. rewrite Ha, Hv. cbn. unfold reads. f_equal. unfold handle_rewrap, vault_entry.
    rewrite He. cbn. rewrite Hp. cbn. rewrite Hs. cbn. rewrite Ho. cbn. rewrite Hnew. cbn. by rewrite Hb.
  - cbn. by rewrite lookup_insert_eq.
  - erewrite decrypt_permitted by done. rewrite (proj2 (Z.ltb_ge _ _)) by done. rewrite Hnew. cbn. by rewrite Ho'.
Qed.

(** An encryption of 96 KiB or more succeeds, but no request ever decrypts its result: the
    text exceeds the length the parser accepts. *)
Lemma large_ciphertext_lost env identity name plaintext context b resp b1 :
  vault_dispatch env identity (Encrypt name (b64_encode plaintext) context) b = (COk resp, b1) ->
  98304 <= len plaintext -> len plaintext <= u64_max ->
  exists ct, vr_data resp !! "ciphertext" = Some (JString ct) /\ parse_vault_ciphertext ct = Err InvalidCiphertext.
Proof.
  intros H Hlarge Hmax. apply encrypt_inv in H as (_ & _ & e & secret & ct & _ & _ & Hct & Hr).
  exists ct. split; [done|]. unfold build_ciphertext in Hct. set (ctx := default [] context) in *.
  destruct (vault_xor_invol secret (cloud_sha256 (vn_nonce env ++ ctx)) plaintext Hmax) as (body & E & Hb & _).
  rewrite E in Hct. cbn in Hct. injection Hct as <-. unfold parse_vault_ciphertext.
  rewrite (proj2 (Z.ltb_lt _ _)); [done|]. unfold format_vault_ciphertext. rewrite !as_bytes_app, !len_app.
  unfold b64_encode. rewrite as_from_bytes, b64_chars_len. pose proof (len_nonneg (as_bytes (pretty (ke_latest_version e)))).
  change (len (as_bytes "vault:v")) with 7. change (len (as_bytes ":")) with 1. rewrite len_app.
  change (len (ct_tag ?s ?l ?b)) with (len (ct_tag s l b)) in *. unfold MAX_VAULT_CIPHERTEXT_LEN, len in *.
  rewrite ct_tag_length, !length_app, Hb. b64_arith.
Qed.

End Vault.

(** ** Instances *)

#[local] Existing Instance demo_cloud.
#[local] Existing Instance demo_cloud_laws.

Definition demo_env (k : byte) : VaultEnv :=
  mkVaultEnv (replicate 32 k) (replicate 12 Byte.x07) (fun n => replicate n Byte.x09) 1000.

Definition demo_config (minimum : Z) : VaultTransitConfig :=
  mkVaultConfig "https://hsm" Aes256Gcm96 None minimum 0 true.

Definition demo_before : list (VaultEnv * VaultIdentity * VaultTransitRequest) :=
  [(demo_env Byte.x41, vault_anonymous, CreateKey "k" Aes256Gcm96 false)].

Definition demo_after : list (VaultEnv * VaultIdentity * VaultTransitRequest) :=
  [(demo_env Byte.x42, vault_anonymous, RotateKey "k"); (demo_env Byte.x43, vault_anonymous, DeleteKey "other")].

Definition demo_vault (minimum : Z) : MockVaultBackend :=
  vault_run demo_before (vault_with_acl AllowAllVaultAcl (vault_with_config (demo_config minimum))).

(** A ciphertext of the first version. *)
Definition demo_ct : string := Eval vm_compute in
  match build_ciphertext (replicate 12 Byte.x07) (replicate 32 Byte.x41) None (as_bytes "hi") 1 with
  | COk ct => ct
  | _ => ""
  end.

Lemma ciphertext_survives_witness :
  exists resp ct, vault_dispatch (demo_env Byte.x44) vault_anonymous (Encrypt "k" (b64_encode (as_bytes "hi")) (Some [Byte.x63])) (demo_vault 1)
    = (COk resp, demo_vault 1) /\ vr_data resp !! "ciphertext" = Some (JString ct) /\
  vault_dispatch (demo_env Byte.x45) vault_anonymous (Decrypt "k" ct (Some [Byte.x63])) (vault_run demo_after (demo_vault 1)) =
    (COk (vault_with "plaintext" (JString (b64_encode (as_bytes "hi"))) vault_response_new), vault_run demo_after (demo_vault 1)).
Proof.
  destruct (vault_dispatch (demo_env Byte.x44) vault_anonymous (Encrypt "k" (b64_encode (as_bytes "hi")) (Some [Byte.x63])) (demo_vault 1))
    as [r b1] eqn:E.
  assert (b1 = demo_vault 1) as -> by (by injection E as _ <-).
  destruct r as [resp| | |]; [|vm_compute in E; discriminate..].
  destruct (ciphertext_survives AllowAllVaultAcl (demo_config 1) demo_before (demo_env Byte.x44) vault_anonymous "k"
    (as_bytes "hi") (Some [Byte.x63]) resp (demo_vault 1) demo_after (demo_env Byte.x45) vault_anonymous E) as (ct & Hct & Hd).
  - reflexivity.
  - vm_compute. discriminate.
  - reflexivity.
  - intros e He. vm_compute in He. injection He as <-. vm_compute. discriminate.
  - repeat constructor; discriminate.
  - reflexivity.
  - exists resp, ct. split; [reflexivity|]. split; [exact Hct|exact Hd].
Defined.

Lemma decrypt_authentic_witness :
  exists resp, vault_dispatch (demo_env Byte.x44) vault_anonymous (Decrypt "k" demo_ct None) (demo_vault 1) = (COk resp, demo_vault 1) /\
  exists version payload secret nonce body, parse_vault_ciphertext demo_ct = Ok (version, payload) /\
    b64_decode payload = Some (ct_blob nonce [] body ++ ct_tag secret TAG_LABEL (ct_blob nonce [] body)).
Proof.
  destruct (vault_dispatch (demo_env Byte.x44) vault_anonymous (Decrypt "k" demo_ct None) (demo_vault 1)) as [r b1] eqn:E.
  destruct r as [resp| | |]; [|vm_compute in E; discriminate..].
  destruct (decrypt_authentic (demo_env Byte.x44) vault_anonymous "k" demo_ct None (demo_vault 1) b1 resp E)
    as (-> & _ & e & version & payload & secret & nonce & body & plaintext & _ & Hp & _ & _ & _ & Hd & _).
  exists resp. split; [reflexivity|]. exists version, payload, secret, nonce, body. split; [exact Hp|exact Hd].
Defined.

Lemma rewrap_ignores_minimum_witness :
  let b := vault_run demo_after (demo_vault 2) in
  vault_dispatch (demo_env Byte.x44) vault_anonymous (Decrypt "k" demo_ct None) b = (CErr PermissionDenied, b) /\
  exists resp ct', vault_dispatch (demo_env Byte.x44) vault_anonymous (Rewrap "k" demo_ct None) b = (COk resp, b) /\
    vault_dispatch (demo_env Byte.x44) vault_anonymous (Decrypt "k" ct' None) b =
    (COk (vault_with "plaintext" (JString (b64_encode (as_bytes "hi"))) vault_response_new), b).
Proof.
  intros b. destruct (vb_keys b !! "k") as [e|] eqn:He; [|vm_compute in He; discriminate].
  destruct (parse_vault_ciphertext demo_ct) as [[version payload]|] eqn:Hp; [|vm_compute in Hp; discriminate].
  destruct (rewrap_ignores_minimum 4 (demo_env Byte.x44) vault_anonymous "k" demo_ct None b e version payload
    (replicate 32 Byte.x41) (as_bytes "hi")) as (H1 & resp & ct' & H2 & _ & H3).
  - apply (vault_ok_run 2 demo_after); [lia|reflexivity|]. apply (vault_ok_run 1 demo_before); [lia|reflexivity|].
    intros ? ? H. vm_compute in H. discriminate.
  - lia.
  - reflexivity.
  - reflexivity.
  - exact He.
  - exact Hp.
  - vm_compute in He, Hp. injection He as <-. injection Hp as <- <-. vm_compute. reflexivity.
  - vm_compute in Hp. injection Hp as <- <-. vm_compute. reflexivity.
  - vm_compute. discriminate.
  - reflexivity.
  - vm_compute in He, Hp. injection He as <-. injection Hp as <- <-. vm_compute. split; [reflexivity|discriminate].
  - split; [exact H1|]. exists resp, ct'. split; [exact H2|exact H3].
Defined.
