(* ===== verification/CloudCsi.v ===== *)
(** * Kubernetes CSI driver ([craton-hsm-cloud/src/k8s_csi.rs])

    Volume specifications, target paths, and the in-memory driver: staging fetches the
    secrets of a volume, publishing makes it available at its path.  Resolution of symbolic
    links, the clock, and the answers of the two trait objects of the driver (the source of
    secrets and the authorizer) at the time of a call are its arguments ([CsiEnv]).  The
    texts of messages are left out.  The preparation of the socket directory is a sequence of
    system calls and not part of the model. *)

From stdpp Require Import prelude gmap strings list.
From Stdlib Require Import ZArith Lia.
From coqutil Require Import Byte.
From S2P Require Import Prelude RustStd.
Local Open Scope rust_scope.
Local Open Scope string_scope.
Local Open Scope list_scope.
Local Open Scope Z_scope.

Inductive CsiError : Type :=
| AlreadyStaged (volume_id : string) | NotStaged (volume_id : string) | NotPublished (volume_id : string)
| TargetPathMismatch (volume_id expected provided : string)
| InvalidArgument | HsmFetchFailed | CsiInternal.

#[global] Instance CsiError_eq_dec : EqDecision CsiError.
Proof. solve_decision. Defined.

Record CsiDriverConfig : Type := mkCsiConfig {
  cc_driver_name : string;
  cc_driver_version : string;
  cc_node_id : string;
  cc_endpoint : string;
  cc_hsm_addr : string;
  cc_kubelet_root : string;
}.

Definition default_driver_name : string := "hsm.craton.io".
Definition default_endpoint : string := "unix:///csi/csi.sock".
Definition default_kubelet_root : string := "/var/lib/kubelet".

Inductive CsiNodeCapability : Type := StageUnstage | GetVolumeStats.
Inductive CsiControllerCapability : Type := CreateDeleteVolume | PublishUnpublishVolume.

Definition MAX_KEY_IDS_PER_VOLUME : Z := 64.
Definition MAX_TARGET_PATH_LEN : Z := 4096.
Definition MAX_VOLUME_ID_LEN : Z := 256.
Definition MAX_KEY_ID_LEN : Z := 256.

Record SecretVolumeSpec : Type := mkVolumeSpec {
  vs_volume_id : string;
  vs_key_ids : list string;
  vs_target_path : string;
  vs_read_only : bool;
  vs_fs_mode : Z;
  vs_volume_context : gmap string string;
}.

#[global] Instance SecretVolumeSpec_eq_dec : EqDecision SecretVolumeSpec.
Proof. solve_decision. Defined.

Definition CSI_POD_UID_KEY : string := "csi.storage.k8s.io/pod.uid".
Definition CSI_POD_SA_KEY : string := "csi.storage.k8s.io/serviceAccount.name".

(** The trait [CsiAuthorizer]: volume, pod, service account. *)
Abbreviation CsiAuthorizer := (string -> string -> string -> result unit CsiError).
Definition AllowAllCsiAuthorizer : CsiAuthorizer := fun _ _ _ => Ok tt.

(** Octal 400. *)
Definition default_fs_mode : Z := 0x100.

(** The check of one key identifier. *)
Definition validate_key_id (k : string) : result unit CsiError :=
  if bool_decide (k = "") || (MAX_KEY_ID_LEN <? len (as_bytes k)) then Err InvalidArgument
  else if bool_decide (Byte.x00 ∈ as_bytes k) then Err InvalidArgument
  else Ok tt.

Fixpoint validate_key_ids (ks : list string) : result unit CsiError :=
  match ks with
  | [] => Ok tt
  | k :: ks => try _ := validate_key_id k in validate_key_ids ks
  end.

Definition spec_validate (s : SecretVolumeSpec) : result unit CsiError :=
  if bool_decide (vs_volume_id s = "") || (MAX_VOLUME_ID_LEN <? len (as_bytes (vs_volume_id s))) then Err InvalidArgument
  else if bool_decide (vs_key_ids s = []) then Err InvalidArgument
  else if MAX_KEY_IDS_PER_VOLUME <? len (vs_key_ids s) then Err InvalidArgument
  else
    try _ := validate_key_ids (vs_key_ids s) in
    if MAX_TARGET_PATH_LEN <? len (as_bytes (vs_target_path s)) then Err InvalidArgument
    else if negb (vs_read_only s) then Err InvalidArgument
    else if negb (Z.land (vs_fs_mode s) 0x007 =? 0) then Err InvalidArgument
    else Ok tt.

(** ** Target paths *)

Definition SLASH : byte := Byte.x2f.

(** [str::split('/')] *)
Fixpoint segments (bs : list byte) : list (list byte) :=
  match bs with
  | [] => [[]]
  | b :: r =>
      if bool_decide (b = SLASH) then [] :: segments r
      else match segments r with
           | s :: ss => (b :: s) :: ss
           | [] => [[b]]
           end
  end.

Fixpoint drop_slashes (bs : list byte) : list byte :=
  match bs with
  | b :: r => if bool_decide (b = SLASH) then drop_slashes r else bs
  | [] => []
  end.

(** [trim_end_matches('/')] *)
Definition trim_end_slashes (bs : list byte) : list byte := rev (drop_slashes (rev bs)).

(** [str::strip_prefix] *)
Fixpoint strip_prefix (p s : list byte) : option (list byte) :=
  match p, s with
  | [], _ => Some s
  | a :: p, b :: s => if bool_decide (a = b) then strip_prefix p s else None
  | _ :: _, [] => None
  end.

(** [Path::components] of an absolute path: empty segments and [.] are skipped. *)
Definition path_components (bs : list byte) : list (list byte) :=
  filter (fun s => s <> [] /\ s <> [Byte.x2e]) (segments bs).

(** The kinds of errors of [canonicalize] that the code tells apart. *)
Inductive IoErrorKind : Type := NotFound | OtherKind.

Definition validate_target_path (canon : string -> result string IoErrorKind) (path kubelet_root : string)
    : result unit CsiError :=
  let p := as_bytes path in
  if bool_decide (p = []) then Err InvalidArgument
  else if MAX_TARGET_PATH_LEN <? len p then Err InvalidArgument
  else if bool_decide (Byte.x00 ∈ p) then Err InvalidArgument
  else if negb (bool_decide (head p = Some SLASH)) then Err InvalidArgument
  else if bool_decide ([Byte.x2e; Byte.x2e] ∈ segments p) then Err InvalidArgument
  else
    let root := trim_end_slashes (as_bytes kubelet_root) in
    if bool_decide (root = []) then Err InvalidArgument
    else
      match strip_prefix root p with
      | None => Err InvalidArgument
      | Some rest =>
          if negb (bool_decide (rest = []) || bool_decide (head rest = Some SLASH)) then Err InvalidArgument
          else
            match canon path, canon kubelet_root with
            | Err OtherKind, _ => Err InvalidArgument
            | _, Err OtherKind => Err InvalidArgument
            | Ok canonical, Ok canonical_root =>
                if bool_decide (path_components (as_bytes canonical_root) `prefix_of` path_components (as_bytes canonical))
                then Ok tt
                else Err InvalidArgument
            | _, _ => Ok tt
            end
      end.

(** ** The driver *)

Record VolumeStats : Type := mkStats {
  vt_total_bytes : Z; vt_used_bytes : Z; vt_total_inodes : Z; vt_used_inodes : Z;
}.

Record StagedVolume : Type := mkStaged {
  sv_spec : SecretVolumeSpec;
  sv_staged_at : Z;
  sv_published : bool;
  sv_secrets_fetched : Z;
}.

(** What a call observes. *)
Record CsiEnv : Type := mkCsiEnv {
  ce_canon : string -> result string IoErrorKind;
  ce_now : Z;
  ce_fetch : string -> result (list byte) CsiError;
  ce_authorize : CsiAuthorizer;
}.

Record InMemoryCsiDriver : Type := mkDriver {
  dr_config : CsiDriverConfig;
  dr_staged : gmap string StagedVolume;
  dr_materialized : gmap string (list (string * list byte));
  dr_controller_volumes : gmap string SecretVolumeSpec;
}.

Definition set_staged (x : gmap string StagedVolume) (d : InMemoryCsiDriver) : InMemoryCsiDriver :=
  mkDriver (dr_config d) x (dr_materialized d) (dr_controller_volumes d).
Definition set_materialized (x : gmap string (list (string * list byte))) (d : InMemoryCsiDriver) : InMemoryCsiDriver :=
  mkDriver (dr_config d) (dr_staged d) x (dr_controller_volumes d).
Definition set_controller_volumes (x : gmap string SecretVolumeSpec) (d : InMemoryCsiDriver) : InMemoryCsiDriver :=
  mkDriver (dr_config d) (dr_staged d) (dr_materialized d) x.
Definition set_published (x : bool) (v : StagedVolume) : StagedVolume :=
  mkStaged (sv_spec v) (sv_staged_at v) x (sv_secrets_fetched v).

Definition driver_new (config : CsiDriverConfig) : InMemoryCsiDriver := mkDriver config ∅ ∅ ∅.

Definition get_plugin_info (d : InMemoryCsiDriver) : string * string :=
  (cc_driver_name (dr_config d), cc_driver_version (dr_config d)).

Definition create_volume (spec : SecretVolumeSpec) (d : InMemoryCsiDriver) : result unit CsiError * InMemoryCsiDriver :=
  match spec_validate spec with
  | Err e => (Err e, d)
  | Ok _ =>
      match dr_controller_volumes d !! vs_volume_id spec with
      | Some _ => (Err (AlreadyStaged (vs_volume_id spec)), d)
      | None => (Ok tt, set_controller_volumes (<[vs_volume_id spec := spec]> (dr_controller_volumes d)) d)
      end
  end.

Definition delete_volume (volume_id : string) (d : InMemoryCsiDriver) : result unit CsiError * InMemoryCsiDriver :=
  if bool_decide (volume_id = "") then (Err InvalidArgument, d)
  else match dr_controller_volumes d !! volume_id with
       | None => (Err (NotStaged volume_id), d)
       | Some _ => (Ok tt, set_controller_volumes (delete volume_id (dr_controller_volumes d)) d)
       end.

Definition controller_get_capabilities : list CsiControllerCapability := [CreateDeleteVolume; PublishUnpublishVolume].

Definition node_get_info (d : InMemoryCsiDriver) : string * Z := (cc_node_id (dr_config d), 8).

(** The secrets of a volume, in order; the first failure stops. *)
Fixpoint fetch_all (source : string -> result (list byte) CsiError) (key_ids : list string)
    : result (list (string * list byte)) CsiError :=
  match key_ids with
  | [] => Ok []
  | k :: ks =>
      match source k with
      | Err _ => Err HsmFetchFailed
      | Ok bytes => try rest := fetch_all source ks in Ok ((k, bytes) :: rest)
      end
  end.

(** [node_stage_volume] up to the insertion: every check, and the secrets. *)
Definition stage_prepare (env : CsiEnv) (spec : SecretVolumeSpec) (d : InMemoryCsiDriver)
    : result (list (string * list byte)) CsiError :=
  try _ := spec_validate spec in
  try _ := validate_target_path (ce_canon env) (vs_target_path spec) (cc_kubelet_root (dr_config d)) in
  let pod_uid := default "" (vs_volume_context spec !! CSI_POD_UID_KEY) in
  let pod_sa := default "" (vs_volume_context spec !! CSI_POD_SA_KEY) in
  try _ := ce_authorize env (vs_volume_id spec) pod_uid pod_sa in
  match dr_staged d !! vs_volume_id spec with
  | Some _ => Err (AlreadyStaged (vs_volume_id spec))
  | None => fetch_all (ce_fetch env) (vs_key_ids spec)
  end.

(** The insertion into [staged], under the lock of its entry ... *)
Definition stage_insert (now : Z) (spec : SecretVolumeSpec) (secrets_fetched : Z) (d : InMemoryCsiDriver)
    : result unit CsiError * InMemoryCsiDriver :=
  match dr_staged d !! vs_volume_id spec with
  | Some _ => (Err (AlreadyStaged (vs_volume_id spec)), d)
  | None => (Ok tt, set_staged (<[vs_volume_id spec := mkStaged spec now false secrets_fetched]> (dr_staged d)) d)
  end.

(** ... and then the insertion of the secrets. *)
Definition stage_materialize (volume_id : string) (secrets : list (string * list byte)) (d : InMemoryCsiDriver)
    : InMemoryCsiDriver := set_materialized (<[volume_id := secrets]> (dr_materialized d)) d.

Definition node_stage_volume (env : CsiEnv) (spec : SecretVolumeSpec) (d : InMemoryCsiDriver)
    : result unit CsiError * InMemoryCsiDriver :=
  match stage_prepare env spec d with
  | Err e => (Err e, d)
  | Ok secrets =>
      match stage_insert (ce_now env) spec (len secrets) d with
      | (Err e, d) => (Err e, d)
      | (Ok _, d) => (Ok tt, stage_materialize (vs_volume_id spec) secrets d)
      end
  end.

Definition node_unstage_volume (volume_id : string) (d : InMemoryCsiDriver) : result unit CsiError * InMemoryCsiDriver :=
  match dr_staged d !! volume_id with
  | None => (Err (NotStaged volume_id), d)
  | Some _ =>
      let d := set_staged (delete volume_id (dr_staged d)) d in
      (Ok tt, set_materialized (delete volume_id (dr_materialized d)) d)
  end.

Definition node_publish_volume (canon : string -> result string IoErrorKind) (spec : SecretVolumeSpec)
    (d : InMemoryCsiDriver) : result unit CsiError * InMemoryCsiDriver :=
  match (try _ := spec_validate spec in
         validate_target_path canon (vs_target_path spec) (cc_kubelet_root (dr_config d))) with
  | Err e => (Err e, d)
  | Ok _ =>
      match dr_staged d !! vs_volume_id spec with
      | None => (Err (NotStaged (vs_volume_id spec)), d)
      | Some entry =>
          if negb (bool_decide (vs_target_path (sv_spec entry) = vs_target_path spec)) then
            (Err (TargetPathMismatch (vs_volume_id spec) (vs_target_path (sv_spec entry)) (vs_target_path spec)), d)
          else (Ok tt, set_staged (<[vs_volume_id spec := set_published true entry]> (dr_staged d)) d)
      end
  end.

Definition node_unpublish_volume (canon : string -> result string IoErrorKind) (volume_id target_path : string)
    (d : InMemoryCsiDriver) : result unit CsiError * InMemoryCsiDriver :=
  match validate_target_path canon target_path (cc_kubelet_root (dr_config d)) with
  | Err e => (Err e, d)
  | Ok _ =>
      match dr_staged d !! volume_id with
      | None => (Err (NotStaged volume_id), d)
      | Some entry =>
          if negb (sv_published entry) then (Err (NotPublished volume_id), d)
          else if negb (bool_decide (vs_target_path (sv_spec entry) = target_path)) then
            (Err (TargetPathMismatch volume_id (vs_target_path (sv_spec entry)) target_path), d)
          else (Ok tt, set_staged (<[volume_id := set_published false entry]> (dr_staged d)) d)
      end
  end.

Definition node_get_volume_stats (canon : string -> result string IoErrorKind) (volume_id target_path : string)
    (d : InMemoryCsiDriver) : result VolumeStats CsiError :=
  try _ := validate_target_path canon target_path (cc_kubelet_root (dr_config d)) in
  match dr_staged d !! volume_id with
  | None => Err (NotStaged volume_id)
  | Some entry =>
      let used_bytes :=
        match dr_materialized d !! volume_id with
        | Some m => fold_right (fun kb n => u64_add (len kb.2) n) 0 m
        | None => 0
        end in
      let used_inodes := sv_secrets_fetched entry in
      Ok (mkStats (Z.max used_bytes 1) used_bytes (Z.max used_inodes 1) used_inodes)
  end.

Definition node_get_capabilities : list CsiNodeCapability := [StageUnstage; GetVolumeStats].

(** ** The in-memory source of secrets *)

Definition MAX_MOCK_KEY_BYTES : Z := 32.

Definition check_mock_key_len (n : Z) : bool := negb (MAX_MOCK_KEY_BYTES <? n).

Abbreviation InMemorySecretSource := (gmap string (list byte)).

Definition source_insert (key_id : string) (bytes : list byte) (s : InMemorySecretSource)
    : result unit CsiError * InMemorySecretSource :=
  if check_mock_key_len (len bytes) then (Ok tt, <[key_id := bytes]> s) else (Err InvalidArgument, s).

Definition source_fetch (s : InMemorySecretSource) (key_id : string) : result (list byte) CsiError :=
  match s !! key_id with Some bytes => Ok bytes | None => Err HsmFetchFailed end.

Definition endpoint_to_socket_path (endpoint : string) : option string :=
  from_bytes <$> strip_prefix (as_bytes "unix://") (as_bytes endpoint).
