(* ===== verification/CloudCsiProofs.v ===== *)
(** * Theorems about the CSI driver *)

From stdpp Require Import prelude gmap strings list.
From Stdlib Require Import ZArith Lia.
From coqutil Require Import Byte.
From S2P Require Import Prelude RustStd CloudCsi.
Local Open Scope rust_scope.
Local Open Scope string_scope.
Local Open Scope list_scope.
Local Open Scope Z_scope.

(** ** Target paths *)

Definition DOT : list byte := [Byte.x2e].
Definition DOTDOT : list byte := [Byte.x2e; Byte.x2e].

(** Where a path leads, if no symbolic link is involved: [..] leaves a directory. *)
Definition resolve_path (bs : list byte) : list (list byte) :=
  foldl (fun dir s => if bool_decide (s = [] \/ s = DOT) then dir
                      else if bool_decide (s = DOTDOT) then removelast dir else dir ++ [s]) [] (segments bs).

Lemma segments_not_nil bs : segments bs <> [].
Proof. destruct bs as [|b bs]; [done|]. cbn. case_bool_decide; [done|]. by destruct (segments bs). Qed.

Lemma segments_slash a b : segments (a ++ SLASH :: b) = segments a ++ segments b.
Proof.
  induction a as [|c a IH]; [done|]. cbn [app segments]. case_bool_decide; [by rewrite IH|].
  rewrite IH. destruct (segments a) eqn:E; [by apply segments_not_nil in E|done].
Qed.

Lemma resolve_no_dotdot segs dir :
  DOTDOT ∉ segs ->
  foldl (fun dir s => if bool_decide (s = [] \/ s = DOT) then dir
                      else if bool_decide (s = DOTDOT) then removelast dir else dir ++ [s]) dir segs
  = dir ++ filter (fun s => s <> [] /\ s <> [Byte.x2e]) segs.
Proof.
  revert dir. induction segs as [|s segs IH]; intros dir; [by rewrite app_nil_r|].
  rewrite not_elem_of_cons. intros [Hs Hsegs]. cbn [foldl]. rewrite IH by done. case_bool_decide as Hd.
  - rewrite filter_cons_False; [done|]. unfold DOT in Hd. naive_solver.
  - rewrite bool_decide_false by done. rewrite filter_cons_True by (unfold DOT in Hd; naive_solver).
    by rewrite <- app_assoc.
Qed.

Lemma resolve_components bs : DOTDOT ∉ segments bs -> resolve_path bs = path_components bs.
Proof. intros H. unfold resolve_path. by rewrite resolve_no_dotdot. Qed.

Lemma strip_prefix_Some p s rest : strip_prefix p s = Some rest -> s = p ++ rest.
Proof.
  revert s. induction p as [|a p IH]; intros s; [cbn; congruence|]. destruct s as [|b s]; [done|].
  cbn. case_bool_decide; [|done]. subst. intros H%IH. by subst.
Qed.

Lemma path_components_below root rest :
  rest = [] \/ head rest = Some SLASH ->
  path_components root `prefix_of` path_components (root ++ rest) /\
  forall s, s ∈ segments root -> s ∈ segments (root ++ rest).
Proof.
  intros [->|Hr]; [by rewrite app_nil_r|]. destruct rest as [|b rest]; [done|]. injection Hr as ->.
  unfold path_components. rewrite segments_slash, filter_app. split; [by apply prefix_app_r|]. intros s. set_solver.
Qed.

(** C29: an accepted target path lies below the kubelet directory: followed segment by
    segment, it never leaves the directory; and if symbolic links can be resolved, the
    resolved path lies below the resolved directory. *)
Theorem target_path_confined canon path kubelet_root :
  validate_target_path canon path kubelet_root = Ok tt ->
  let root := trim_end_slashes (as_bytes kubelet_root) in
  root <> [] /\ resolve_path root `prefix_of` resolve_path (as_bytes path) /\ Byte.x00 ∉ as_bytes path /\
  canon path <> Err OtherKind /\ canon kubelet_root <> Err OtherKind /\
  forall canonical canonical_root, canon path = Ok canonical -> canon kubelet_root = Ok canonical_root ->
    path_components (as_bytes canonical_root) `prefix_of` path_components (as_bytes canonical).
Proof.
  unfold validate_target_path. cbv zeta. set (root := trim_end_slashes (as_bytes kubelet_root)).
  case_bool_decide; [done|]. destruct (_ <? _); [done|]. case_bool_decide as Hnul; [done|].
  case_bool_decide as Habs; [|done]. cbn [negb]. case_bool_decide as Hdd; [done|]. case_bool_decide as Hroot; [done|].
  destruct (strip_prefix root (as_bytes path)) as [rest|] eqn:Hs; [|done]. apply strip_prefix_Some in Hs.
  case_bool_decide as Hr1; cbn [orb negb];
    [|case_bool_decide as Hr2; [|done]; cbn [negb]]; intros Hc.
  all: destruct (path_components_below root rest) as [Hpre Hseg]; [tauto|]; rewrite <- Hs in Hpre, Hseg.
  all: split_and!; [done| |done|by destruct (canon path) as [|[]]|
    by destruct (canon path) as [|[]], (canon kubelet_root) as [|[]]|].
  1, 3: rewrite !resolve_components; [done|done|intros Hin; by apply Hdd, Hseg].
  all: intros canonical canonical_root E1 E2; rewrite E1, E2 in Hc; by case_bool_decide.
Qed.

(** ** Runs of the driver *)

Inductive CsiCall : Type :=
| CreateVolume (spec : SecretVolumeSpec)
| DeleteVolume (volume_id : string)
| Stage (env : CsiEnv) (spec : SecretVolumeSpec)
| Unstage (volume_id : string)
| Publish (env : CsiEnv) (spec : SecretVolumeSpec)
| Unpublish (env : CsiEnv) (volume_id target_path : string).

Definition csi_call (c : CsiCall) (d : InMemoryCsiDriver) : result unit CsiError * InMemoryCsiDriver :=
  match c with
  | CreateVolume spec => create_volume spec d
  | DeleteVolume volume_id => delete_volume volume_id d
  | Stage env spec => node_stage_volume env spec d
  | Unstage volume_id => node_unstage_volume volume_id d
  | Publish env spec => node_publish_volume (ce_canon env) spec d
  | Unpublish env volume_id target_path => node_unpublish_volume (ce_canon env) volume_id target_path d
  end.

Definition csi_run (calls : list CsiCall) (d : InMemoryCsiDriver) : InMemoryCsiDriver :=
  foldl (fun d c => (csi_call c d).2) d calls.

(** A call that fails changes nothing, whichever check refused it and wherever the
    fetching of the secrets stopped. *)
Theorem csi_errors_change_nothing c d e : (csi_call c d).1 = Err e -> (csi_call c d).2 = d.
Proof.
  destruct c; cbn.
  - unfold create_volume. destruct (spec_validate spec); [|done]. by destruct (_ !! _).
  - unfold delete_volume. case_bool_decide; [done|]. by destruct (_ !! _).
  - unfold node_stage_volume. destruct (stage_prepare env spec d); [|done].
    unfold stage_insert. by destruct (_ !! _).
  - unfold node_unstage_volume. by destruct (_ !! _).
  - unfold node_publish_volume. destruct (result_bind _ _); [|done]. destruct (_ !! _); [|done]. by case_bool_decide.
  - unfold node_unpublish_volume. destruct (validate_target_path _ _ _); [|done]. destruct (_ !! _) as [v|]; [|done].
    destruct (sv_published v); [|done]. cbn. by case_bool_decide.
Qed.

(** The checks a volume passed when it was staged, and what was fetched. *)
Definition staging_ok (root : string) (env : CsiEnv) (spec : SecretVolumeSpec) (secrets : list (string * list byte)) : Prop :=
  spec_validate spec = Ok tt /\ validate_target_path (ce_canon env) (vs_target_path spec) root = Ok tt /\
  ce_authorize env (vs_volume_id spec) (default "" (vs_volume_context spec !! CSI_POD_UID_KEY))
    (default "" (vs_volume_context spec !! CSI_POD_SA_KEY)) = Ok tt /\
  fetch_all (ce_fetch env) (vs_key_ids spec) = Ok secrets.

Lemma stage_prepare_inv env spec d secrets :
  stage_prepare env spec d = Ok secrets -> staging_ok (cc_kubelet_root (dr_config d)) env spec secrets.
Proof.
  unfold stage_prepare, staging_ok. destruct (spec_validate spec) as [[]|]; [|done]. cbn.
  destruct (validate_target_path _ _ _) as [[]|]; [|done]. cbn.
  destruct (ce_authorize _ _ _ _) as [[]|]; [|done]. cbn. by destruct (dr_staged d !! _).
Qed.

(** What a call does to the volume [id]. *)
Inductive volume_effect (id : string) (c : CsiCall) (d d' : InMemoryCsiDriver) : Prop :=
| ve_keep :
    dr_materialized d' !! id = dr_materialized d !! id ->
    (sv_spec <$> dr_staged d' !! id) = (sv_spec <$> dr_staged d !! id) ->
    (forall v v', dr_staged d !! id = Some v -> dr_staged d' !! id = Some v' ->
       sv_published v' = true -> sv_published v = true \/
       exists env spec, c = Publish env spec /\ vs_volume_id spec = id /\ vs_target_path spec = vs_target_path (sv_spec v')) ->
    (c = Unstage id -> dr_staged d !! id = None) -> volume_effect id c d d'
| ve_stage env spec secrets now n :
    c = Stage env spec -> vs_volume_id spec = id -> staging_ok (cc_kubelet_root (dr_config d)) env spec secrets ->
    dr_materialized d' !! id = Some secrets -> dr_staged d' !! id = Some (mkStaged spec now false n) ->
    volume_effect id c d d'
| ve_unstage :
    dr_materialized d' !! id = None -> dr_staged d' !! id = None -> volume_effect id c d d'.

Lemma ve_refl id c d : (c = Unstage id -> dr_staged d !! id = None) -> volume_effect id c d d.
Proof. intros Hc. apply ve_keep; [done|done| |done]. intros v v' E E' ?. rewrite E in E'. simplify_eq. auto. Qed.

Lemma ve_other id c d x m :
  c <> Unstage id -> dr_materialized m !! id = dr_materialized d !! id ->
  dr_staged m = x -> x !! id = dr_staged d !! id -> volume_effect id c d m.
Proof.
  intros Hc Hm <- Hs. apply ve_keep; [done|by rewrite Hs| |done].
  intros v v' E E' ?. rewrite Hs, E in E'. simplify_eq. auto.
Qed.

Lemma csi_call_effect id c d : volume_effect id c d (csi_call c d).2.
Proof.
  destruct c as [spec|vid|env spec|vid|env spec|env vid path]; cbn.
  - unfold create_volume. destruct (spec_validate spec); [|by apply ve_refl].
    destruct (_ !! _); [by apply ve_refl|]. by eapply (ve_other id).
  - unfold delete_volume. case_bool_decide; [by apply ve_refl|].
    destruct (_ !! _); [|by apply ve_refl]. by eapply (ve_other id).
  - unfold node_stage_volume. destruct (stage_prepare env spec d) as [secrets|] eqn:Ep; [|by apply ve_refl].
    apply stage_prepare_inv in Ep. unfold stage_insert. destruct (dr_staged d !! vs_volume_id spec) as [v|] eqn:Es; [by apply ve_refl|].
    cbn. destruct (decide (vs_volume_id spec = id)) as [<-|Hne].
    + eapply ve_stage; [done..|cbn; by rewrite lookup_insert_eq|cbn; by rewrite lookup_insert_eq].
    + eapply ve_other; [done|cbn; by rewrite lookup_insert_ne|done|cbn; by rewrite lookup_insert_ne].
  - unfold node_unstage_volume. destruct (dr_staged d !! vid) as [v|] eqn:Es; [|apply ve_refl; by intros [= ->]].
    cbn. destruct (decide (vid = id)) as [->|Hne].
    + apply ve_unstage; cbn; by rewrite lookup_delete_eq.
    + eapply ve_other; [congruence|cbn; by rewrite lookup_delete_ne|done|cbn; by rewrite lookup_delete_ne].
  - unfold node_publish_volume. destruct (result_bind _ _); [|by apply ve_refl].
    destruct (dr_staged d !! vs_volume_id spec) as [v|] eqn:Es; [|by apply ve_refl].
    case_bool_decide as Hp; [|by apply ve_refl]. cbn. destruct (decide (vs_volume_id spec = id)) as [<-|Hne].
    + apply ve_keep; [done|cbn; by rewrite lookup_insert_eq, Es| |done].
      cbn. rewrite lookup_insert_eq. intros w w' Ew [= <-] _. simplify_eq. right. exists env, spec. done.
    + eapply ve_other; [done|done|done|cbn; by rewrite lookup_insert_ne].
  - unfold node_unpublish_volume. destruct (validate_target_path _ _ _); [|by apply ve_refl].
    destruct (dr_staged d !! vid) as [v|] eqn:Es; [|by apply ve_refl].
    destruct (sv_published v); [|by apply ve_refl]. cbn. case_bool_decide as Hp; [|by apply ve_refl].
    cbn. destruct (decide (vid = id)) as [<-|Hne].
    + apply ve_keep; [done|cbn; by rewrite lookup_insert_eq, Es| |done].
      cbn. rewrite lookup_insert_eq. by intros w w' Ew [= <-].
    + eapply ve_other; [done|done|done|cbn; by rewrite lookup_insert_ne].
Qed.

Lemma csi_call_config c d : dr_config (csi_call c d).2 = dr_config d.
Proof.
  destruct c; cbn; unfold create_volume, delete_volume, node_stage_volume, stage_insert, node_unstage_volume,
    node_publish_volume, node_unpublish_volume; repeat (case_match; try done); by simplify_eq.
Qed.

Lemma csi_run_snoc calls c d : csi_run (calls ++ [c]) d = (csi_call c (csi_run calls d)).2.
Proof. unfold csi_run. by rewrite foldl_app. Qed.

Lemma csi_run_config calls d : dr_config (csi_run calls d) = dr_config d.
Proof. induction calls as [|c calls IH] using rev_ind; [done|]. by rewrite csi_run_snoc, csi_call_config. Qed.

(** A volume whose secrets are held, and the calls that account for it. *)
Record volume_held (root id : string) (calls : list CsiCall) (v : StagedVolume) (secrets : list (string * list byte)) : Prop := {
  vh_staged : exists before env after, calls = before ++ Stage env (sv_spec v) :: after /\ vs_volume_id (sv_spec v) = id /\
    staging_ok root env (sv_spec v) secrets /\ Unstage id ∉ after;
  vh_published : sv_published v = true -> exists env spec, Publish env spec ∈ calls /\ vs_volume_id spec = id /\
    vs_target_path spec = vs_target_path (sv_spec v);
}.

Lemma volume_held_snoc root id calls c v v' secrets :
  volume_held root id calls v secrets -> c <> Unstage id -> sv_spec v' = sv_spec v ->
  (sv_published v' = true -> sv_published v = true \/ exists env spec, c = Publish env spec /\ vs_volume_id spec = id /\
     vs_target_path spec = vs_target_path (sv_spec v')) ->
  volume_held root id (calls ++ [c]) v' secrets.
Proof.
  intros [(before & env & after & -> & Hid & Hok & Hun) Hpub] Hc Hs Hp. split; rewrite Hs.
  - exists before, env, (after ++ [c]). rewrite <- app_assoc. split_and!; [done..|]. set_solver.
  - intros [Hv|(env' & spec & -> & ? & ?)]%Hp.
    + destruct (Hpub Hv) as (env' & spec & ? & ? & ?). exists env', spec. split_and!; [|done..]. set_solver.
    + exists env', spec. rewrite <- Hs. split_and!; [|done..]. set_solver.
Qed.

(** C27: the secrets of a volume are in memory exactly as long as it is staged. They are the
    ones fetched by a call of node_stage_volume for that volume that passed every check, and
    no call has unstaged the volume since; a volume marked published has been published, at
    the path it was staged for. *)
Theorem secrets_only_while_staged config calls id :
  let d := csi_run calls (driver_new config) in
  match dr_staged d !! id, dr_materialized d !! id with
  | None, None => True
  | Some v, Some secrets => volume_held (cc_kubelet_root config) id calls v secrets
  | _, _ => False
  end.
Proof.
  cbv zeta. induction calls as [|c calls IH] using rev_ind; [done|]. rewrite csi_run_snoc.
  pose proof (csi_run_config calls (driver_new config)) as Hcfg. cbn in Hcfg. revert IH Hcfg.
  generalize (csi_run calls (driver_new config)). intros d IH Hcfg.
  destruct (csi_call_effect id c d) as [Hm Hs Hp Hc|env spec secrets now n -> Hid Hok Hm Hs|Hm Hs].
  - rewrite Hm. destruct (dr_staged d !! id) as [v|] eqn:Ev, (dr_materialized d !! id) as [secrets|] eqn:Em;
      try done; destruct (dr_staged (csi_call c d).2 !! id) as [v'|] eqn:Ev'; try done.
    eapply volume_held_snoc; [exact IH| |cbn in Hs; by simplify_eq|by eapply Hp]. by intros ?%Hc.
  - rewrite Hs, Hm. split; cbn; [|done]. exists calls, env, []. rewrite <- Hcfg. split_and!; [done..|set_solver].
  - by rewrite Hm, Hs.
Qed.

(** A staging is two insertions. Between them another call may unstage the volume: then the
    secrets stay in memory, no volume accounts for them, and unstaging again is refused. *)
Lemma stage_unstage_race now spec secrets n d d1 d2 :
  stage_insert now spec n d = (Ok tt, d1) -> node_unstage_volume (vs_volume_id spec) d1 = (Ok tt, d2) ->
  let d3 := stage_materialize (vs_volume_id spec) secrets d2 in
  dr_materialized d3 !! vs_volume_id spec = Some secrets /\ dr_staged d3 !! vs_volume_id spec = None /\
  node_unstage_volume (vs_volume_id spec) d3 = (Err (NotStaged (vs_volume_id spec)), d3).
Proof.
  intros _ H. cbv zeta. assert (Hs : dr_staged d2 !! vs_volume_id spec = None).
  { unfold node_unstage_volume in H. destruct (dr_staged d1 !! _) as [v|]; [|done]. injection H as <-. cbn. by rewrite lookup_delete_eq. }
  split_and!; [cbn; by rewrite lookup_insert_eq|done|]. unfold node_unstage_volume. cbn. by rewrite Hs.
Qed.

(** ** A pod's volume *)

Definition demo_csi_config : CsiDriverConfig :=
  mkCsiConfig default_driver_name "0.1.0" "node-1" default_endpoint "hsm:5696" default_kubelet_root.

Definition pod_path : string := "/var/lib/kubelet/pods/p1/volumes/keys".

Definition demo_volume (target_path : string) : SecretVolumeSpec :=
  mkVolumeSpec "vol-1" ["db"] target_path true default_fs_mode {[CSI_POD_UID_KEY := "p1"]}.

(** The directory of the pod is not there yet, and the kubelet's is no link. *)
Definition demo_canon (path : string) : result string IoErrorKind :=
  if bool_decide (path = default_kubelet_root) then Ok path else Err NotFound.

Definition demo_csi : CsiEnv :=
  mkCsiEnv demo_canon 1000 (source_fetch {["db" := as_bytes "secret"]}) AllowAllCsiAuthorizer.

Example pod_volume_staged :
  let d := csi_run [Stage demo_csi (demo_volume pod_path); Publish demo_csi (demo_volume pod_path)] (driver_new demo_csi_config) in
  dr_materialized d !! "vol-1" = Some [("db", as_bytes "secret")] /\ (sv_published <$> dr_staged d !! "vol-1") = Some true.
Proof. split; vm_compute; reflexivity. Qed.

Lemma target_path_confined_witness :
  resolve_path (as_bytes default_kubelet_root) `prefix_of` resolve_path (as_bytes pod_path).
Proof.
  destruct (target_path_confined demo_canon pod_path default_kubelet_root) as (_ & H & _); [vm_compute; reflexivity|].
  exact H.
Defined.

Lemma csi_errors_change_nothing_witness :
  (csi_call (Stage demo_csi (demo_volume "/var/lib/kubelet/../../etc")) (driver_new demo_csi_config)).2
  = driver_new demo_csi_config.
Proof. apply (csi_errors_change_nothing _ _ InvalidArgument). vm_compute. reflexivity. Defined.
