(* ===== verification/CloudAzure.v ===== *)
(** * Azure Key Vault shim ([craton-hsm-cloud/src/azure_shim.rs])

    Keys with soft deletion, backup and restore, and the cryptographic operations of
    [MockAzureKvShim].  The sub-keys that the code caches in [OnceLock]s are functions of
    the secret, which never changes, and are computed where they are used.  Random draws and
    the clock are the environment of a request; the order in which the map of keys is listed
    is [MapIter]. *)

From stdpp Require Import prelude gmap strings list.
From Stdlib Require Import ZArith Lia.
From coqutil Require Import Byte.
From S2P Require Import Prelude RustStd CloudCrypto.
Local Open Scope rust_scope.
Local Open Scope string_scope.
Local Open Scope list_scope.
Local Open Scope Z_scope.

(** The texts of the errors that carry only a message are dropped. *)
Inductive AzureKvError : Type :=
| KeyNotFound (name : string)
| KeyAlreadyExists (name : string)
| KeySoftDeleted (name : string)
| InvalidParameter
| UnsupportedOperation
| AuthenticationFailed
| PermissionDenied
| Internal.

#[global] Instance AzureKvError_eq_dec : EqDecision AzureKvError.
Proof. solve_decision. Defined.

Record AzureKvConfig : Type := mkAzureConfig {
  az_vault_name : string;
  az_subscription_id : string;
  az_resource_group : string;
  az_location : string;
  az_soft_delete_retention_seconds : Z;
  az_dns_suffix : string;
}.

Definition default_location : string := "eastus".
Definition default_retention : Z := 7 * 24 * 60 * 60.
Definition default_dns_suffix : string := ".vault.azure.net".

Inductive AzureKeyType : Type := RsaHsm | EcHsm | OctHsm.

#[global] Instance AzureKeyType_eq_dec : EqDecision AzureKeyType.
Proof. solve_decision. Defined.

Definition azure_wire_name (k : AzureKeyType) : string :=
  match k with RsaHsm => "RSA-HSM" | EcHsm => "EC-HSM" | OctHsm => "oct-HSM" end.

Definition azure_supports_encrypt (k : AzureKeyType) : bool := bool_decide (k = RsaHsm \/ k = OctHsm).
Definition azure_supports_sign (k : AzureKeyType) : bool := bool_decide (k = RsaHsm \/ k = EcHsm).

Definition validate_key_size (kty : AzureKeyType) (size : option Z) : result unit AzureKvError :=
  match size with
  | None => Ok tt
  | Some s =>
      let allowed :=
        match kty with RsaHsm => [2048; 3072; 4096] | OctHsm => [128; 192; 256] | EcHsm => [256; 384; 521] end in
      if bool_decide (s ∈ allowed) then Ok tt else Err InvalidParameter
  end.

Definition validate_algorithm (op algorithm : string) : result unit AzureKvError :=
  let allowed :=
    if String.eqb op "sign" then ["RS256"; "RS384"; "RS512"; "ES256"; "ES384"; "ES512"; "PS256"]
    else if String.eqb op "encrypt" || String.eqb op "decrypt"
    then ["RSA-OAEP"; "RSA-OAEP-256"; "RSA1_5"; "A256GCM"; "A128GCM"]
    else if String.eqb op "wrap" then ["RSA-OAEP"; "RSA-OAEP-256"; "A256KW"]
    else [] in
  if bool_decide (algorithm ∈ allowed) then Ok tt else Err InvalidParameter.

Definition is_aead_shaped_algorithm (algorithm : string) : bool :=
  String.eqb algorithm "A256GCM" || String.eqb algorithm "A128GCM".

Inductive AzureKvOperation : Type :=
| CreateKey (name : string) (kty : AzureKeyType) (key_size : option Z)
| GetKey (name : string) (version : option string)
| ListKeys
| ListDeletedKeys
| DeleteKey (name : string)
| RecoverKey (name : string)
| PurgeKey (name : string)
| BackupKey (name : string)
| RestoreKey (blob : list byte)
| Sign (name algorithm value_b64 : string)
| Verify (name algorithm digest_b64 signature_b64 : string)
| Encrypt (name algorithm value_b64 : string)
| Decrypt (name algorithm value_b64 : string)
| WrapKey (name algorithm value_b64 : string)
| UnwrapKey (name algorithm value_b64 : string).

Record AzureIdentity : Type := mkAzureIdentity { ai_principal : string }.
Definition azure_anonymous : AzureIdentity := mkAzureIdentity "".

Inductive AzureOp : Type := OpManage | OpRead | OpCrypto | OpSign.

(** The trait [AzureKvAcl] and its two implementations. *)
Abbreviation AzureKvAcl := (AzureIdentity -> string -> AzureOp -> bool).
Definition AllowAllAzureAcl : AzureKvAcl := fun _ _ _ => true.
Definition DenyAllAzureAcl : AzureKvAcl := fun _ _ _ => false.

(** ** Key identifiers *)

Definition AZURE_MAX_COMPONENT_LEN : Z := 127.

Definition url_byte (b : byte) : bool :=
  byte_in b 0x41 0x5A || byte_in b 0x61 0x7A || byte_in b 0x30 0x39
  || bool_decide (b = Byte.x2e) || bool_decide (b = Byte.x5f) || bool_decide (b = Byte.x2d).

Definition validate_url_component (value : string) : result unit AzureKvError :=
  let bs := as_bytes value in
  if bool_decide (bs = []) then Err InvalidParameter
  else if AZURE_MAX_COMPONENT_LEN <? len bs then Err InvalidParameter
  else if negb (forallb url_byte bs) then Err InvalidParameter
  else Ok tt.

Definition host_byte (b : byte) : bool :=
  byte_in b 0x41 0x5A || byte_in b 0x61 0x7A || byte_in b 0x30 0x39
  || bool_decide (b = Byte.x2e) || bool_decide (b = Byte.x2d).

Definition validate_dns_suffix (dns_suffix : string) : result unit AzureKvError :=
  let bs := as_bytes dns_suffix in
  if negb (bool_decide (head bs = Some Byte.x2e)) then Err InvalidParameter
  else if (len bs <? 2) || (AZURE_MAX_COMPONENT_LEN <? len bs) then Err InvalidParameter
  else if negb (forallb host_byte bs) then Err InvalidParameter
  else Ok tt.

(** [trim_start_matches('.')] *)
Definition trim_start_dots (s : string) : string := from_bytes (drop_while (fun b => bool_decide (b = Byte.x2e)) (as_bytes s)).

Definition azure_key_id_with_suffix (vault_name key_name version dns_suffix : string) : result string AzureKvError :=
  try _ := validate_url_component vault_name in
  try _ := validate_url_component key_name in
  try _ := validate_url_component version in
  try _ := validate_dns_suffix dns_suffix in
  let host_tail := trim_start_dots dns_suffix in
  Ok ("https://" ++ vault_name ++ "." ++ host_tail ++ "/keys/" ++ key_name ++ "/" ++ version)%string.

Definition azure_key_id (vault_name key_name version : string) : result string AzureKvError :=
  azure_key_id_with_suffix vault_name key_name version ".vault.azure.net".

(** ** Keys *)

Definition AZURE_MAX_VALUE_LEN : Z := 128 * 1024.

Record MockAzureKey : Type := mkAzureKey {
  ak_name : string;
  ak_kty : AzureKeyType;
  ak_key_size : option Z;
  ak_version : string;
  ak_created_at : Z;
  ak_deleted_at : option Z;
  ak_secret : list byte;
}.

Definition set_deleted_at (x : option Z) (k : MockAzureKey) : MockAzureKey :=
  mkAzureKey (ak_name k) (ak_kty k) (ak_key_size k) (ak_version k) (ak_created_at k) x (ak_secret k).

Definition key_id (vault_name dns_suffix : string) (k : MockAzureKey) : result string AzureKvError :=
  azure_key_id_with_suffix vault_name (ak_name k) (ak_version k) dns_suffix.

Definition to_json (vault_name dns_suffix : string) (k : MockAzureKey) : result JsonValue AzureKvError :=
  try kid := key_id vault_name dns_suffix k in
  Ok (JObject [
    ("key", JObject [("kid", JString kid); ("kty", JString (azure_wire_name (ak_kty k)));
                     ("key_size", match ak_key_size k with Some s => JNumber s | None => JNull end)]);
    ("attributes", JObject [("enabled", JBool (bool_decide (ak_deleted_at k = None)));
                            ("created", JNumber (ak_created_at k));
                            ("updated", JNumber (default (ak_created_at k) (ak_deleted_at k)));
                            ("recoverable", JBool (bool_decide (is_Some (ak_deleted_at k))))])]).

(** [json[key] = value] *)
Definition json_set (key : string) (value : JsonValue) (json : JsonValue) : JsonValue :=
  match json with JObject fields => JObject (fields ++ [(key, value)]) | _ => json end.

(** ** The shim *)

(** What a request observes: the bytes of a new secret, of a nonce, and the clock. *)
Record AzureEnv : Type := mkAzureEnv {
  ae_secret : list byte;
  ae_nonce : list byte;
  ae_now : Z;
}.

Record MockAzureKvShim : Type := mkAzure {
  az_config : AzureKvConfig;
  az_keys : gmap string MockAzureKey;
  az_next_version : Z;
  az_acl : AzureKvAcl;
  az_default_identity : AzureIdentity;
  az_master_key : option (list byte);
}.

Definition set_azure_keys (x : gmap string MockAzureKey) (s : MockAzureKvShim) : MockAzureKvShim :=
  mkAzure (az_config s) x (az_next_version s) (az_acl s) (az_default_identity s) (az_master_key s).
Definition bump_version (s : MockAzureKvShim) : MockAzureKvShim :=
  mkAzure (az_config s) (az_keys s) (u64_succ (az_next_version s)) (az_acl s) (az_default_identity s) (az_master_key s).

Definition azure_new (config : AzureKvConfig) : result MockAzureKvShim AzureKvError :=
  try _ := validate_url_component (az_vault_name config) in
  try _ := validate_dns_suffix (az_dns_suffix config) in
  Ok (mkAzure config ∅ 1 DenyAllAzureAcl azure_anonymous None).

Definition with_master_key (master_key : list byte) (s : MockAzureKvShim) : MockAzureKvShim :=
  mkAzure (az_config s) (az_keys s) (az_next_version s) (az_acl s) (az_default_identity s) (Some master_key).
Definition new_with_master_key (config : AzureKvConfig) (master_key : list byte) : result MockAzureKvShim AzureKvError :=
  try s := azure_new config in Ok (with_master_key master_key s).
Definition azure_with_acl (acl : AzureKvAcl) (s : MockAzureKvShim) : MockAzureKvShim :=
  mkAzure (az_config s) (az_keys s) (az_next_version s) acl (az_default_identity s) (az_master_key s).
Definition azure_with_default_identity (identity : AzureIdentity) (s : MockAzureKvShim) : MockAzureKvShim :=
  mkAzure (az_config s) (az_keys s) (az_next_version s) (az_acl s) identity (az_master_key s).

Definition classify (op : AzureKvOperation) : AzureOp * string :=
  match op with
  | CreateKey name _ _ | DeleteKey name | RecoverKey name | PurgeKey name | BackupKey name => (OpManage, name)
  | RestoreKey _ => (OpManage, "")
  | GetKey name _ => (OpRead, name)
  | ListKeys | ListDeletedKeys => (OpRead, "")
  | Encrypt name _ _ | Decrypt name _ _ | WrapKey name _ _ | UnwrapKey name _ _ => (OpCrypto, name)
  | Sign name _ _ | Verify name _ _ _ => (OpSign, name)
  end.

(** [format!("{v:032x}")] *)
Definition gen_version (s : MockAzureKvShim) : string * MockAzureKvShim :=
  (fmt_hex 32 (az_next_version s), bump_version s).

Definition validate_value_b64 (value : string) : result unit AzureKvError :=
  if AZURE_MAX_VALUE_LEN <? len (as_bytes value) then Err InvalidParameter
  else if negb (forallb is_b64 (as_bytes value)) then Err InvalidParameter
  else Ok tt.

Section Azure.
Context {CC : CloudCrates} {MI : MapIter}.

Definition sign_subkey (k : MockAzureKey) : list byte := subkey (ak_secret k) (as_bytes "SIGN").
Definition wrap_auth_subkey (k : MockAzureKey) : list byte := subkey (ak_secret k) (as_bytes "WRAP-AUTH").
Definition wrap_enc_subkey (k : MockAzureKey) : list byte := subkey (ak_secret k) (as_bytes "WRAP-ENC").

Definition hmac_sign_with_sub (sub : list byte) (algorithm value : string) : list byte :=
  hmac_sign sub (as_bytes algorithm) (as_bytes value).
Definition wrap_tag_with_sub (sub : list byte) (algorithm : string) (body : list byte) : list byte :=
  hmac_sign sub (as_bytes algorithm) body.

Definition xor_stream_with_sub (sub nonce data : list byte) : comp (list byte) AzureKvError :=
  match xor_stream sub nonce data with
  | COk out => COk out
  | CErr _ => CErr Internal
  | CPanic => CPanic
  | CDiverge => CDiverge
  end.

Definition azure_b64_decode (input : string) : comp (list byte) AzureKvError := ok_or (b64_decode input) InvalidParameter.

(** ** Requests *)

Abbreviation azure_outcome := (comp JsonValue AzureKvError * MockAzureKvShim)%type.

Definition key_json (s : MockAzureKvShim) (k : MockAzureKey) : comp JsonValue AzureKvError :=
  of_result (to_json (az_vault_name (az_config s)) (az_dns_suffix (az_config s)) k).
Definition key_kid (s : MockAzureKvShim) (k : MockAzureKey) : comp string AzureKvError :=
  of_result (key_id (az_vault_name (az_config s)) (az_dns_suffix (az_config s)) k).

(** A key that is there and not deleted. *)
Definition live_key (name : string) (s : MockAzureKvShim) : comp MockAzureKey AzureKvError :=
  let? k := ok_or (az_keys s !! name) (KeyNotFound name) in
  match ak_deleted_at k with Some _ => CErr (KeySoftDeleted name) | None => COk k end.

(** Computing the answer of a new key comes before its insertion. *)
Definition insert_new (name : string) (k : MockAzureKey) (s : MockAzureKvShim) : azure_outcome :=
  match key_json s k with
  | COk json => (COk json, set_azure_keys (<[name := k]> (az_keys s)) s)
  | r => (r, s)
  end.

Definition azure_create (env : AzureEnv) (name : string) (kty : AzureKeyType) (key_size : option Z)
    (s : MockAzureKvShim) : azure_outcome :=
  match (try _ := validate_url_component name in validate_key_size kty key_size) with
  | Err e => (CErr e, s)
  | Ok _ =>
      match az_keys s !! name with
      | Some e => (CErr (match ak_deleted_at e with Some _ => KeySoftDeleted name | None => KeyAlreadyExists name end), s)
      | None =>
          let '(version, s) := gen_version s in
          insert_new name (mkAzureKey name kty key_size version (ae_now env) None (ae_secret env)) s
      end
  end.

Definition azure_get (name : string) (version : option string) (s : MockAzureKvShim) : comp JsonValue AzureKvError :=
  let? _ := of_result (validate_url_component name) in
  let? k := live_key name s in
  let? _ :=
    match version with
    | Some v =>
        let? _ := of_result (validate_url_component v) in
        if String.eqb v (ak_version k) then COk tt else CErr (KeyNotFound (name ++ "/" ++ v))
    | None => COk tt
    end in
  key_json s k.

(** The loops of the two listings: the first answer that fails ends them. *)
Fixpoint list_loop (s : MockAzureKvShim) (p : MockAzureKey -> bool) (ks : list MockAzureKey)
    : comp (list JsonValue) AzureKvError :=
  match ks with
  | [] => COk []
  | k :: ks =>
      if p k then
        let? json := key_json s k in
        let? rest := list_loop s p ks in
        COk (json :: rest)
      else list_loop s p ks
  end.

Definition azure_list (deleted : bool) (s : MockAzureKvShim) : comp JsonValue AzureKvError :=
  let? list := list_loop s (fun k => eqb deleted (bool_decide (is_Some (ak_deleted_at k)))) (iter (az_keys s)).*2 in
  COk (JObject [("value", JArray list)]).

(** The mark is set before the answer is computed. *)
Definition azure_delete (env : AzureEnv) (name : string) (s : MockAzureKvShim) : azure_outcome :=
  match validate_url_component name with
  | Err e => (CErr e, s)
  | Ok _ =>
      match live_key name s with
      | COk k =>
          let now := ae_now env in
          let k := set_deleted_at (Some now) k in
          let s' := set_azure_keys (<[name := k]> (az_keys s)) s in
          (let? json := key_json s' k in
           COk (json_set "scheduledPurgeDate"
                  (JNumber (u64_add now (az_soft_delete_retention_seconds (az_config s))))
                  (json_set "deletedDate" (JNumber now) json)), s')
      | CErr e => (CErr e, s)
      | CPanic => (CPanic, s)
      | CDiverge => (CDiverge, s)
      end
  end.

Definition azure_recover (name : string) (s : MockAzureKvShim) : azure_outcome :=
  match validate_url_component name with
  | Err e => (CErr e, s)
  | Ok _ =>
      match az_keys s !! name with
      | None => (CErr (KeyNotFound name), s)
      | Some k =>
          match ak_deleted_at k with
          | None => (CErr InvalidParameter, s)
          | Some _ =>
              let k := set_deleted_at None k in
              let s' := set_azure_keys (<[name := k]> (az_keys s)) s in
              (key_json s' k, s')
          end
      end
  end.

Definition azure_purge (name : string) (s : MockAzureKvShim) : azure_outcome :=
  match validate_url_component name with
  | Err e => (CErr e, s)
  | Ok _ =>
      match az_keys s !! name with
      | None => (CErr (KeyNotFound name), s)
      | Some k =>
          match ak_deleted_at k with
          | Some _ => (COk (JObject [("purged", JString name)]), set_azure_keys (delete name (az_keys s)) s)
          | None => (CErr InvalidParameter, s)
          end
      end
  end.

(** *** Backup and restore *)

Definition kty_byte (k : AzureKeyType) : byte := match k with RsaHsm => Byte.x01 | EcHsm => Byte.x02 | OctHsm => Byte.x03 end.
Definition byte_kty (b : byte) : option AzureKeyType :=
  if bool_decide (b = Byte.x01) then Some RsaHsm
  else if bool_decide (b = Byte.x02) then Some EcHsm
  else if bool_decide (b = Byte.x03) then Some OctHsm
  else None.

(** [len as u16], then the bytes. *)
Definition with_len16 (bs : list byte) : list byte := to_be_bytes 2 (len bs mod 2 ^ 16) ++ bs.

Definition backup_body (k : MockAzureKey) : list byte :=
  with_len16 (as_bytes (ak_name k)) ++ with_len16 (as_bytes (ak_version k)) ++ [kty_byte (ak_kty k)]
  ++ to_be_bytes 4 (default 0 (ak_key_size k)) ++ ak_secret k.

Definition backup_tag (master body : list byte) : list byte :=
  hmac_sign (subkey master (as_bytes "BACKUP")) (as_bytes "BACKUP") body.

Definition azure_backup (name : string) (s : MockAzureKvShim) : comp JsonValue AzureKvError :=
  let? _ := of_result (validate_url_component name) in
  let? master := ok_or (az_master_key s) InvalidParameter in
  let? k := ok_or (az_keys s !! name) (KeyNotFound name) in
  let body := backup_body k in
  let blob := body ++ backup_tag master body in
  COk (JObject [("value", JArray (map (fun b => JNumber (byte.unsigned b)) blob))]).

(** [String::from_utf8] *)
Definition from_utf8 (bs : list byte) : comp string AzureKvError :=
  if utf8_valid bs then COk (from_bytes bs) else CErr InvalidParameter.

(** The fields of an authenticated body; every slice is within the bounds just checked. *)
Definition parse_body (now : Z) (body : list byte) : comp MockAzureKey AzureKvError :=
  let nlen := from_be_bytes (take 2 body) in
  let rest := drop 2 body in
  if len rest <? nlen then CErr InvalidParameter
  else
    let? name := from_utf8 (take (Z.to_nat nlen) rest) in
    let rest := drop (Z.to_nat nlen) rest in
    if len rest <? 2 then CErr InvalidParameter
    else
      let vlen := from_be_bytes (take 2 rest) in
      let rest := drop 2 rest in
      if len rest <? vlen + 1 + 4 + 32 then CErr InvalidParameter
      else
        let? version := from_utf8 (take (Z.to_nat vlen) rest) in
        let rest := drop (Z.to_nat vlen) rest in
        let? kty := ok_or (head rest ≫= byte_kty) InvalidParameter in
        let size_raw := from_be_bytes (take 4 (drop 1 rest)) in
        let key_size := if size_raw =? 0 then None else Some size_raw in
        let secret := take 32 (drop 5 rest) in
        let? _ := of_result (validate_url_component name) in
        let? _ := of_result (validate_url_component version) in
        COk (mkAzureKey name kty key_size version now None secret).

(** The tag is checked before anything is parsed. *)
Definition open_backup (now : Z) (blob : list byte) (s : MockAzureKvShim) : comp MockAzureKey AzureKvError :=
  let? master := ok_or (az_master_key s) InvalidParameter in
  if len blob <? 2 + 2 + 1 + 4 + 32 + 32 then CErr InvalidParameter
  else
    let tag_offset := Z.to_nat (len blob - 32) in
    let body := take tag_offset blob in
    let tag := drop tag_offset blob in
    if negb (bool_decide (backup_tag master body = tag)) then CErr AuthenticationFailed
    else parse_body now body.

Definition azure_restore (env : AzureEnv) (blob : list byte) (s : MockAzureKvShim) : azure_outcome :=
  match open_backup (ae_now env) blob s with
  | COk k =>
      match az_keys s !! ak_name k with
      | Some _ => (CErr (KeyAlreadyExists (ak_name k)), s)
      | None => insert_new (ak_name k) k s
      end
  | CErr e => (CErr e, s)
  | CPanic => (CPanic, s)
  | CDiverge => (CDiverge, s)
  end.

(** *** Cryptographic operations *)

Definition kid_value (kid : string) (value : JsonValue) : JsonValue := JObject [("kid", JString kid); ("value", value)].

Definition azure_sign (name algorithm value_b64 : string) (s : MockAzureKvShim) : comp JsonValue AzureKvError :=
  let? _ := of_result (validate_url_component name) in
  let? _ := of_result (validate_algorithm "sign" algorithm) in
  let? _ := of_result (validate_value_b64 value_b64) in
  let? k := live_key name s in
  if negb (azure_supports_sign (ak_kty k)) then CErr UnsupportedOperation
  else
    let? kid := key_kid s k in
    COk (kid_value kid (JString (b64_encode (hmac_sign_with_sub (sign_subkey k) algorithm value_b64)))).

Definition azure_verify (name algorithm digest_b64 signature_b64 : string) (s : MockAzureKvShim)
    : comp JsonValue AzureKvError :=
  let? _ := of_result (validate_url_component name) in
  let? _ := of_result (validate_algorithm "sign" algorithm) in
  let? _ := of_result (validate_value_b64 digest_b64) in
  let? _ := of_result (validate_value_b64 signature_b64) in
  let? k := live_key name s in
  let? kid := key_kid s k in
  let expected := hmac_sign_with_sub (sign_subkey k) algorithm digest_b64 in
  let? provided := azure_b64_decode signature_b64 in
  COk (kid_value kid (JBool (bool_decide (expected = provided)))).

(** Nonce, stream and tag: the second half of [Encrypt] and [WrapKey]. *)
Definition seal (nonce : list byte) (k : MockAzureKey) (algorithm : string) (plaintext : list byte)
    : comp (list byte) AzureKvError :=
  let? body := xor_stream_with_sub (wrap_enc_subkey k) nonce plaintext in
  let ct := nonce ++ body in
  COk (ct ++ wrap_tag_with_sub (wrap_auth_subkey k) algorithm ct).

(** The second half of [Decrypt] and [UnwrapKey]. *)
Definition unseal (k : MockAzureKey) (algorithm : string) (blob : list byte) : comp (list byte) AzureKvError :=
  if len blob <? 12 + 32 then CErr InvalidParameter
  else
    let tag_offset := Z.to_nat (len blob - 32) in
    let body := take tag_offset blob in
    let tag := drop tag_offset blob in
    if negb (bool_decide (wrap_tag_with_sub (wrap_auth_subkey k) algorithm body = tag)) then CErr AuthenticationFailed
    else xor_stream_with_sub (wrap_enc_subkey k) (take 12 body) (drop 12 body).

Definition azure_encrypt (env : AzureEnv) (name algorithm value_b64 : string) (s : MockAzureKvShim)
    : comp JsonValue AzureKvError :=
  let? _ := of_result (validate_url_component name) in
  let? _ := of_result (validate_algorithm "encrypt" algorithm) in
  if is_aead_shaped_algorithm algorithm then CErr UnsupportedOperation
  else
    let? _ := of_result (validate_value_b64 value_b64) in
    let? k := live_key name s in
    if negb (azure_supports_encrypt (ak_kty k)) then CErr UnsupportedOperation
    else
      let? kid := key_kid s k in
      let? plaintext := azure_b64_decode value_b64 in
      let? ct := seal (ae_nonce env) k algorithm plaintext in
      COk (kid_value kid (JString (b64_encode ct))).

Definition azure_decrypt (name algorithm value_b64 : string) (s : MockAzureKvShim) : comp JsonValue AzureKvError :=
  let? _ := of_result (validate_url_component name) in
  let? _ := of_result (validate_algorithm "decrypt" algorithm) in
  if is_aead_shaped_algorithm algorithm then CErr UnsupportedOperation
  else
    let? _ := of_result (validate_value_b64 value_b64) in
    let? k := live_key name s in
    let? kid := key_kid s k in
    let? blob := azure_b64_decode value_b64 in
    let? plaintext := unseal k algorithm blob in
    COk (kid_value kid (JString (b64_encode plaintext))).

Definition azure_wrap (env : AzureEnv) (name algorithm value_b64 : string) (s : MockAzureKvShim)
    : comp JsonValue AzureKvError :=
  let? _ := of_result (validate_url_component name) in
  let? _ := of_result (validate_algorithm "wrap" algorithm) in
  let? _ := of_result (validate_value_b64 value_b64) in
  let? k := live_key name s in
  let? kid := key_kid s k in
  let? raw := azure_b64_decode value_b64 in
  let? wrapped := seal (ae_nonce env) k algorithm raw in
  COk (kid_value kid (JString (b64_encode wrapped))).

Definition azure_unwrap (name algorithm value_b64 : string) (s : MockAzureKvShim) : comp JsonValue AzureKvError :=
  let? _ := of_result (validate_url_component name) in
  let? _ := of_result (validate_algorithm "wrap" algorithm) in
  let? _ := of_result (validate_value_b64 value_b64) in
  let? k := live_key name s in
  let? kid := key_kid s k in
  let? blob := azure_b64_decode value_b64 in
  let? plaintext := unseal k algorithm blob in
  COk (kid_value kid (JString (b64_encode plaintext))).

Definition azure_dispatch (env : AzureEnv) (op : AzureKvOperation) (s : MockAzureKvShim) : azure_outcome :=
  match op with
  | CreateKey name kty key_size => azure_create env name kty key_size s
  | GetKey name version => (azure_get name version s, s)
  | ListKeys => (azure_list false s, s)
  | ListDeletedKeys => (azure_list true s, s)
  | DeleteKey name => azure_delete env name s
  | RecoverKey name => azure_recover name s
  | PurgeKey name => azure_purge name s
  | BackupKey name => (azure_backup name s, s)
  | RestoreKey blob => azure_restore env blob s
  | Sign name algorithm value_b64 => (azure_sign name algorithm value_b64 s, s)
  | Verify name algorithm digest_b64 signature_b64 => (azure_verify name algorithm digest_b64 signature_b64 s, s)
  | Encrypt name algorithm value_b64 => (azure_encrypt env name algorithm value_b64 s, s)
  | Decrypt name algorithm value_b64 => (azure_decrypt name algorithm value_b64 s, s)
  | WrapKey name algorithm value_b64 => (azure_wrap env name algorithm value_b64 s, s)
  | UnwrapKey name algorithm value_b64 => (azure_unwrap name algorithm value_b64 s, s)
  end.

Definition process_as (env : AzureEnv) (identity : AzureIdentity) (op : AzureKvOperation) (s : MockAzureKvShim)
    : azure_outcome :=
  let '(class, key_id) := classify op in
  if negb (az_acl s identity key_id class) then (CErr PermissionDenied, s) else azure_dispatch env op s.

Definition azure_process (env : AzureEnv) (op : AzureKvOperation) (s : MockAzureKvShim) : azure_outcome :=
  process_as env (az_default_identity s) op s.

End Azure.
