(* ===== verification/CloudAzureProofs.v ===== *)
(** * Theorems about the Azure Key Vault shim *)

From stdpp Require Import prelude gmap strings list.
From Stdlib Require Import ZArith Lia.
From coqutil Require Import Byte.
From S2P Require Import Prelude RustStd CloudCrypto CloudCryptoProofs CloudAzure.
Local Open Scope rust_scope.
Local Open Scope string_scope.
Local Open Scope list_scope.
Local Open Scope Z_scope.

(** ** Names *)

Lemma url_component_inv s :
  validate_url_component s = Ok tt <-> as_bytes s <> [] /\ len (as_bytes s) <= 127 /\ forallb url_byte (as_bytes s) = true.
Proof.
  unfold validate_url_component, AZURE_MAX_COMPONENT_LEN. case_bool_decide as H; [naive_solver|].
  destruct (127 <? len (as_bytes s)) eqn:Hl; bool_to_prop; [split; [done|lia]|].
  destruct (forallb url_byte (as_bytes s)); naive_solver.
Qed.

Lemma url_byte_ascii b : url_byte b = true -> ascii_byte b.
Proof.
  unfold url_byte, ascii_byte, byte_in. intros H.
  repeat (apply orb_true_iff in H as [H|H]); bool_to_prop; try lia; subst b; by vm_compute.
Qed.

Lemma hex_version_ok v : 0 <= v -> validate_url_component (fmt_hex 32 v) = Ok tt.
Proof.
  intros Hv. apply url_component_inv. pose proof (fmt_hex_length 32 v ltac:(lia)) as Hl. split_and!.
  - intros E. by rewrite E in Hl.
  - unfold len. rewrite Hl. lia.
  - apply forallb_forall. intros b Hb%list_elem_of_In. pose proof (fmt_hex_digits 32 v Hv) as Hd.
    rewrite Forall_forall in Hd. specialize (Hd b Hb). unfold url_byte.
    apply orb_true_iff in Hd as [->|Hd]; [by rewrite !orb_true_r|].
    unfold byte_in in *. bool_to_prop. rewrite (proj2 (Z.leb_le 0x61 _)), (proj2 (Z.leb_le _ 0x7A)) by lia. by rewrite !orb_true_r.
Qed.

(** ** The store *)

Record key_ok (name : string) (k : MockAzureKey) : Prop := {
  ko_name : ak_name k = name;
  ko_name_ok : validate_url_component name = Ok tt;
  ko_version : validate_url_component (ak_version k) = Ok tt;
  ko_secret : length (ak_secret k) = 32%nat;
  ko_size : forall n, ak_key_size k = Some n -> 0 < n < 2 ^ 32;
}.

Record azure_ok (s : MockAzureKvShim) : Prop := {
  ao_vault : validate_url_component (az_vault_name (az_config s)) = Ok tt;
  ao_suffix : validate_dns_suffix (az_dns_suffix (az_config s)) = Ok tt;
  ao_next : 0 <= az_next_version s;
  ao_keys : forall name k, az_keys s !! name = Some k -> key_ok name k;
}.

Section Azure.
Context {CC : CloudCrates} {CL : CloudLaws CC} {MI : MapIter}.

Lemma key_kid_ok s name k : azure_ok s -> key_ok name k -> exists kid, key_kid s k = COk kid.
Proof.
  intros [Hv Hd _ _] [Hn Hnn Hver _ _]. unfold key_kid, key_id, azure_key_id_with_suffix. rewrite Hv, Hn, Hnn, Hver, Hd. by eexists.
Qed.

Lemma key_json_ok s name k : azure_ok s -> key_ok name k -> exists json, key_json s k = COk json.
Proof.
  intros Hs Hk. destruct (key_kid_ok s name k Hs Hk) as [kid E]. unfold key_json, to_json. unfold key_kid in E.
  destruct (key_id _ _ k); [|done]. by eexists.
Qed.

(** What a request does to the keys. *)
Inductive azure_change (env : AzureEnv) (op : AzureKvOperation) (s : MockAzureKvShim) : gmap string MockAzureKey -> Prop :=
| az_same : azure_change env op s (az_keys s)
| az_created name kty size version :
    op = CreateKey name kty size -> az_keys s !! name = None -> validate_url_component name = Ok tt ->
    validate_key_size kty size = Ok tt -> version = fmt_hex 32 (az_next_version s) ->
    azure_change env op s (<[name := mkAzureKey name kty size version (ae_now env) None (ae_secret env)]> (az_keys s))
| az_restored blob body master k :
    op = RestoreKey blob -> az_master_key s = Some master -> blob = body ++ backup_tag master body ->
    parse_body (ae_now env) body = COk k -> az_keys s !! ak_name k = None ->
    azure_change env op s (<[ak_name k := k]> (az_keys s))
| az_deleted name k :
    op = DeleteKey name -> az_keys s !! name = Some k -> ak_deleted_at k = None ->
    azure_change env op s (<[name := set_deleted_at (Some (ae_now env)) k]> (az_keys s))
| az_recovered name k d :
    op = RecoverKey name -> az_keys s !! name = Some k -> ak_deleted_at k = Some d ->
    azure_change env op s (<[name := set_deleted_at None k]> (az_keys s))
| az_purged name k d :
    op = PurgeKey name -> az_keys s !! name = Some k -> ak_deleted_at k = Some d ->
    azure_change env op s (delete name (az_keys s)).

Record azure_frame (s s' : MockAzureKvShim) : Prop := {
  af_config : az_config s' = az_config s;
  af_acl : az_acl s' = az_acl s;
  af_master : az_master_key s' = az_master_key s;
}.

Lemma live_key_inv name s k : live_key name s = COk k -> az_keys s !! name = Some k /\ ak_deleted_at k = None.
Proof.
  unfold live_key. destruct (az_keys s !! name) as [k'|]; [|done]. cbn. destruct (ak_deleted_at k') eqn:E; [done|].
  intros [= ->]. done.
Qed.

Lemma open_backup_inv now blob s k :
  open_backup now blob s = COk k ->
  exists master body, az_master_key s = Some master /\ blob = body ++ backup_tag master body /\ parse_body now body = COk k.
Proof.
  unfold open_backup. destruct (az_master_key s) as [master|]; [|done]. cbn. destruct (len blob <? _); [done|].
  case_bool_decide as Ht; [|done]. cbn. intros Hp. exists master, (take (Z.to_nat (len blob - 32)) blob).
  split_and!; [done| |done]. by rewrite Ht, take_drop.
Qed.

Lemma azure_dispatch_change env op s :
  azure_frame s (azure_dispatch env op s).2 /\ azure_change env op s (az_keys (azure_dispatch env op s).2).
Proof.
  assert (azure_frame s s /\ azure_change env op s (az_keys s)) as Hsame by (split; [by split|constructor]).
  destruct op; cbn; try done.
  - unfold azure_create. destruct (result_bind _ _) as [[]|e] eqn:Hv; [|done].
    destruct (az_keys s !! name) as [k|] eqn:Hk; [done|]. cbn [gen_version]. unfold insert_new.
    destruct (validate_url_component name) as [[]|] eqn:Hn; [|done]. cbn in Hv.
    destruct (key_json _ _); cbn; (split; [by split|]); try apply az_same. by eapply az_created.
  - unfold azure_delete. destruct (validate_url_component name); [|done].
    destruct (live_key name s) as [k| | |] eqn:Hl; try done. apply live_key_inv in Hl as [? ?].
    cbn. split; [by split|]. by eapply az_deleted.
  - unfold azure_recover. destruct (validate_url_component name); [|done].
    destruct (az_keys s !! name) as [k|] eqn:Hk; [|done]. destruct (ak_deleted_at k) as [d|] eqn:Hd; [|done].
    cbn. split; [by split|]. by eapply az_recovered.
  - unfold azure_purge. destruct (validate_url_component name); [|done].
    destruct (az_keys s !! name) as [k|] eqn:Hk; [|done]. destruct (ak_deleted_at k) as [d|] eqn:Hd; [|done].
    cbn. split; [by split|]. by eapply az_purged.
  - unfold azure_restore. destruct (open_backup (ae_now env) blob s) as [k| | |] eqn:Ho; try done.
    apply open_backup_inv in Ho as (master & body & ? & ? & ?).
    destruct (az_keys s !! ak_name k) eqn:Hk; [done|]. unfold insert_new.
    destruct (key_json s k); cbn; (split; [by split|]); try apply az_same. by eapply az_restored.
Qed.

Lemma from_utf8_inv bs x : from_utf8 bs = COk x -> x = from_bytes bs.
Proof. unfold from_utf8. destruct (utf8_valid bs); [|done]. by intros [= <-]. Qed.

Lemma parse_body_ok now body k : parse_body now body = COk k -> key_ok (ak_name k) k /\ ak_deleted_at k = None.
Proof.
  unfold parse_body. set (rest := drop 2 body). destruct (len rest <? _); [done|]. intros H. inv_comp.
  set (rest1 := drop _ rest) in *. destruct (len rest1 <? 2); [done|]. set (rest2 := drop 2 rest1) in *.
  destruct (len rest2 <? _) eqn:Hl; [done|]. bool_to_prop. inv_comp. cbn. split; [|done].
  repeat match goal with E : of_result _ = COk _ |- _ => apply of_result_COk in E end.
  split; cbn; [done|by destruct a2|by destruct a3| |].
  - rewrite length_take, !length_drop. unfold len in Hl.
    pose proof (from_be_bytes_bound (take 2 rest1)). lia.
  - intros n. set (four := take 4 (drop 1 _)). pose proof (from_be_bytes_bound four) as Hb.
    assert (len four <= 4) as H4 by (unfold four, len; rewrite length_take; lia).
    destruct (_ =? 0) eqn:Hz; [done|]. bool_to_prop. intros [= <-].
    assert (2 ^ (8 * len four) <= 2 ^ 32) by (apply Z.pow_le_mono_r; lia). lia.
Qed.

Lemma key_ok_deleted name x k : key_ok name k -> key_ok name (set_deleted_at x k).
Proof. intros []. by split. Qed.

Lemma validate_size_range kty n : validate_key_size kty (Some n) = Ok tt -> 0 < n < 2 ^ 32.
Proof. unfold validate_key_size. case_bool_decide as H; [|done]. destruct kty; set_unfold; lia. Qed.

Lemma azure_ok_change env op s m :
  length (ae_secret env) = 32%nat -> azure_ok s -> azure_change env op s m ->
  forall name k, m !! name = Some k -> key_ok name k.
Proof.
  intros Hsec [_ _ Hnext Hkeys] Hc name k.
  destruct Hc as [|n kty size version _ _ Hn Hsz ->|blob body master k' _ _ _ Hp _|n k' _ Hk _|n k' d _ Hk _|n k' d _ Hk _].
  - apply Hkeys.
  - intros [[<- <-]|[_ ?]]%lookup_insert_Some; [|by apply Hkeys]. split; cbn; [done|done|by apply hex_version_ok|done|].
    intros x ->. by eapply validate_size_range.
  - intros [[<- <-]|[_ ?]]%lookup_insert_Some; [|by apply Hkeys]. by apply parse_body_ok in Hp as [? _].
  - intros [[<- <-]|[_ ?]]%lookup_insert_Some; [|by apply Hkeys]. by apply key_ok_deleted, Hkeys.
  - intros [[<- <-]|[_ ?]]%lookup_insert_Some; [|by apply Hkeys]. by apply key_ok_deleted, Hkeys.
  - intros [_ ?]%lookup_delete_Some. by apply Hkeys.
Qed.

Lemma azure_dispatch_next env op s : 0 <= az_next_version s -> 0 <= az_next_version (azure_dispatch env op s).2.
Proof.
  intros Hn. assert (0 <= u64_succ (az_next_version s)) by (unfold u64_succ; apply Z.mod_pos_bound; lia).
  destruct op; cbn; try done; unfold azure_create, azure_delete, azure_recover, azure_purge, azure_restore, insert_new, gen_version;
    repeat (case_match; cbn; try done); by simplify_eq.
Qed.

Lemma process_cases env identity op s :
  (process_as env identity op s = (CErr PermissionDenied, s) /\ az_acl s identity (classify op).2 (classify op).1 = false) \/
  (process_as env identity op s = azure_dispatch env op s /\ az_acl s identity (classify op).2 (classify op).1 = true).
Proof. unfold process_as. destruct (classify op) as [c n]. cbn. destruct (az_acl s identity n c); auto. Qed.

Lemma azure_ok_process env identity op s :
  length (ae_secret env) = 32%nat -> azure_ok s ->
  azure_ok (process_as env identity op s).2 /\ azure_frame s (process_as env identity op s).2.
Proof.
  intros Hsec Hs. destruct (process_cases env identity op s) as [[-> _]|[-> _]]; [split; [done|by split]|].
  destruct (azure_dispatch_change env op s) as [F Hc]. split; [|done]. split.
  - rewrite (af_config _ _ F). apply Hs.
  - rewrite (af_config _ _ F). apply Hs.
  - apply azure_dispatch_next, Hs.
  - by eapply azure_ok_change.
Qed.

(** Keys live as documented. Whenever a request changes the entry of a name, either the
    name was free, and the key is created by a caller who may manage the name, or restored
    from a blob that carries the vault's tag; or the key, with its secret and version, is
    marked deleted, recovered from deletion, or removed after it was marked, by a caller who
    may manage the name. *)
Theorem azure_lifecycle env identity op s name :
  let s' := (process_as env identity op s).2 in
  az_keys s' !! name <> az_keys s !! name ->
  match az_keys s !! name, az_keys s' !! name with
  | None, Some k =>
      (exists kty size, op = CreateKey name kty size /\ az_acl s identity name OpManage = true /\
         ak_kty k = kty /\ ak_key_size k = size /\ ak_secret k = ae_secret env /\ ak_deleted_at k = None) \/
      (exists body master, op = RestoreKey (body ++ backup_tag master body) /\ az_acl s identity "" OpManage = true /\
         az_master_key s = Some master /\ parse_body (ae_now env) body = COk k)
  | Some k, Some k' =>
      (op = DeleteKey name /\ ak_deleted_at k = None /\ k' = set_deleted_at (Some (ae_now env)) k \/
       op = RecoverKey name /\ is_Some (ak_deleted_at k) /\ k' = set_deleted_at None k) /\
      az_acl s identity name OpManage = true
  | Some k, None => op = PurgeKey name /\ is_Some (ak_deleted_at k) /\ az_acl s identity name OpManage = true
  | None, None => False
  end.
Proof.
  cbv zeta. destruct (process_cases env identity op s) as [[-> _]|[-> Hacl]]; [done|].
  destruct (azure_dispatch_change env op s) as [_ Hc]. revert Hc. generalize (az_keys (azure_dispatch env op s).2).
  intros m Hc. destruct Hc as [|n kty size version -> Hn _ _ _|blob body master k -> Hm -> Hp Hn|n k -> Hk Hd|n k d -> Hk Hd|n k d -> Hk Hd].
  - done.
  - destruct (decide (n = name)) as [->|Hne]; [|by rewrite lookup_insert_ne]. rewrite lookup_insert_eq, Hn. intros _. left. by eexists _, _.
  - destruct (decide (ak_name k = name)) as [<-|Hne]; [|by rewrite lookup_insert_ne]. rewrite lookup_insert_eq, Hn. intros _. right. by eexists _, _.
  - destruct (decide (n = name)) as [->|Hne]; [|by rewrite lookup_insert_ne]. rewrite lookup_insert_eq, Hk. intros _. split; [by left|done].
  - destruct (decide (n = name)) as [->|Hne]; [|by rewrite lookup_insert_ne]. rewrite lookup_insert_eq, Hk, Hd. intros _. split; [by right; split_and!; [|eexists|]|done].
  - destruct (decide (n = name)) as [->|Hne]; [|by rewrite lookup_delete_ne]. rewrite lookup_delete_eq, Hk, Hd. intros _. split_and!; [done|by eexists|done].
Qed.

(** ** Runs *)

(** The states of a vault: a new one with its policy and master key, then requests. *)
Inductive azure_reach : MockAzureKvShim -> Prop :=
| reach_new config s acl master :
    azure_new config = Ok s ->
    azure_reach (azure_with_acl acl (match master with Some m => with_master_key m s | None => s end))
| reach_step s env identity op :
    azure_reach s -> length (ae_secret env) = 32%nat -> azure_reach (process_as env identity op s).2.

Lemma azure_reach_ok s : azure_reach s -> azure_ok s.
Proof.
  induction 1 as [config s acl master Hn|s env identity op _ IH Hsec]; [|by apply azure_ok_process].
  unfold azure_new in Hn. destruct (validate_url_component (az_vault_name config)) as [[]|] eqn:E1; [|done]. cbn in Hn.
  destruct (validate_dns_suffix (az_dns_suffix config)) as [[]|] eqn:E2; [|done]. cbn in Hn. injection Hn as <-.
  destruct master; (split; cbn; [done|done|lia|]); intros name k Hk; by rewrite lookup_empty in Hk.
Qed.

Definition azure_run (reqs : list (AzureEnv * AzureIdentity * AzureKvOperation)) (s : MockAzureKvShim) : MockAzureKvShim :=
  foldl (fun s r => (process_as r.1.1 r.1.2 r.2 s).2) s reqs.

(** A key apart from its mark. *)
Definition same_key (k k' : MockAzureKey) : Prop := k' = set_deleted_at (ak_deleted_at k') k.

Lemma same_key_refl k : same_key k k.
Proof. by destruct k. Qed.

Lemma same_key_trans k k1 k2 : same_key k k1 -> same_key k1 k2 -> same_key k k2.
Proof. unfold same_key. intros -> ->. done. Qed.

Lemma same_key_process env identity op s name k :
  op <> PurgeKey name -> az_keys s !! name = Some k ->
  exists k', az_keys (process_as env identity op s).2 !! name = Some k' /\ same_key k k'.
Proof.
  intros Hop Hk. destruct (process_cases env identity op s) as [[-> _]|[-> _]]; [exists k; split; [done|apply same_key_refl]|].
  destruct (azure_dispatch_change env op s) as [_ Hc]. revert Hc. generalize (az_keys (azure_dispatch env op s).2).
  intros m Hc. destruct Hc as [|n kty size version -> Hn _ _ _|blob body master k' -> Hm -> Hp Hn|n k' -> Hk' Hd|n k' d -> Hk' Hd|n k' d -> Hk' Hd].
  - exists k. split; [done|apply same_key_refl].
  - exists k. split; [|apply same_key_refl]. rewrite lookup_insert_ne; [done|]. intros ->. congruence.
  - exists k. split; [|apply same_key_refl]. rewrite lookup_insert_ne; [done|]. intros <-. congruence.
  - destruct (decide (n = name)) as [->|Hne]; [rewrite lookup_insert_eq|rewrite lookup_insert_ne by done].
    + eexists. split; [done|]. rewrite Hk in Hk'. by injection Hk' as ->.
    + exists k. split; [done|apply same_key_refl].
  - destruct (decide (n = name)) as [->|Hne]; [rewrite lookup_insert_eq|rewrite lookup_insert_ne by done].
    + eexists. split; [done|]. rewrite Hk in Hk'. by injection Hk' as ->.
    + exists k. split; [done|apply same_key_refl].
  - exists k. split; [|apply same_key_refl]. rewrite lookup_delete_ne; [done|]. intros ->. done.
Qed.

Lemma azure_run_keeps reqs s name k :
  azure_ok s -> Forall (fun r => r.2 <> PurgeKey name /\ length (ae_secret r.1.1) = 32%nat) reqs -> az_keys s !! name = Some k ->
  azure_ok (azure_run reqs s) /\ azure_frame s (azure_run reqs s) /\
  exists k', az_keys (azure_run reqs s) !! name = Some k' /\ same_key k k'.
Proof.
  intros Hs Hr. revert s k Hs. induction Hr as [|r reqs [Hop Hsec] _ IH]; intros s k Hs Hk.
  { split_and!; [done|by split|]. exists k. split; [done|apply same_key_refl]. }
  destruct (azure_ok_process r.1.1 r.1.2 r.2 s Hsec Hs) as [Hs1 [F1 F2 F3]].
  destruct (same_key_process r.1.1 r.1.2 r.2 s name k Hop Hk) as (k1 & Hk1 & Hsame).
  destruct (IH _ k1 Hs1 Hk1) as (Hok & [G1 G2 G3] & k2 & Hk2 & Hsame2). split_and!; [done|split; by etrans|].
  exists k2. split; [done|]. by eapply same_key_trans.
Qed.

(** ** Ciphertexts *)

Lemma azure_xor_invol sub nonce data :
  len data <= u64_max ->
  exists out, xor_stream_with_sub sub nonce data = COk out /\ length out = length data /\ xor_stream_with_sub sub nonce out = COk data.
Proof.
  intros Hl. destruct (xor_stream_invol sub nonce data Hl) as (out & E1 & E2 & E3). exists out.
  unfold xor_stream_with_sub. by rewrite E1, E3.
Qed.

Lemma wrap_tag_length sub algorithm body : length (wrap_tag_with_sub sub algorithm body) = 32%nat.
Proof. apply cloud_hmac_length. Qed.

(** What is sealed is unsealed under every key with the same secret. *)
Lemma seal_unseal nonce k k' algorithm plaintext :
  length nonce = 12%nat -> len plaintext <= u64_max -> ak_secret k' = ak_secret k ->
  exists blob, seal nonce k algorithm plaintext = COk blob /\ len blob = 44 + len plaintext /\
    unseal k' algorithm blob = COk plaintext.
Proof.
  intros Hn Hl Hsec. destruct (azure_xor_invol (wrap_enc_subkey k) nonce plaintext Hl) as (body & E1 & E2 & E3).
  unfold seal, unseal. rewrite E1. cbn [comp_bind]. eexists. split; [done|].
  assert (len (nonce ++ body) = 12 + len plaintext) as Hlen by (unfold len; rewrite length_app; lia).
  pose proof (wrap_tag_length (wrap_auth_subkey k) algorithm (nonce ++ body)) as Htag.
  assert (len (wrap_tag_with_sub (wrap_auth_subkey k) algorithm (nonce ++ body)) = 32) as Hlt by (unfold len; by rewrite Htag).
  split; [rewrite len_app, Hlen, Hlt; lia|]. pose proof (len_nonneg plaintext).
  rewrite (proj2 (Z.ltb_ge _ _)) by (rewrite len_app, Hlen, Hlt; lia).
  destruct (take_drop_tag (nonce ++ body) _ Htag) as [-> ->].
  unfold wrap_auth_subkey, wrap_enc_subkey in *. rewrite Hsec, bool_decide_true by done. cbn [negb].
  rewrite <- Hn at 1 2. by rewrite take_app_length, drop_app_length.
Qed.

Lemma value_b64_ok bs : len bs <= 98044 -> validate_value_b64 (b64_encode bs) = Ok tt.
Proof.
  intros Hl. unfold validate_value_b64, b64_encode. rewrite as_from_bytes, b64_chars_is_b64, b64_chars_len.
  unfold AZURE_MAX_VALUE_LEN. rewrite (proj2 (Z.ltb_ge _ _)); [done|]. Z.to_euclidean_division_equations. lia.
Qed.

Lemma azure_encrypt_inv env identity name algorithm plaintext s resp s1 :
  process_as env identity (Encrypt name algorithm (b64_encode plaintext)) s = (COk resp, s1) ->
  s1 = s /\ validate_url_component name = Ok tt /\ validate_algorithm "encrypt" algorithm = Ok tt /\
  is_aead_shaped_algorithm algorithm = false /\
  exists k kid ct, az_keys s !! name = Some k /\ key_kid s k = COk kid /\ seal (ae_nonce env) k algorithm plaintext = COk ct /\
    resp = kid_value kid (JString (b64_encode ct)).
Proof.
  destruct (process_cases env identity (Encrypt name algorithm (b64_encode plaintext)) s) as [[-> _]|[-> _]]; [done|].
  cbn [azure_dispatch]. intros [= He <-]. split; [done|]. unfold azure_encrypt in He. inv_comp.
  destruct (is_aead_shaped_algorithm algorithm); [done|]. inv_comp.
  match goal with E : live_key _ _ = COk ?x |- _ => rename x into k; apply live_key_inv in E as [Hk _] end.
  destruct (azure_supports_encrypt (ak_kty k)); [|done]. cbn [negb] in He. inv_comp.
  repeat match goal with E : of_result _ = COk ?u |- _ => apply of_result_COk in E; try destruct u end.
  match goal with E : azure_b64_decode _ = COk _ |- _ => unfold azure_b64_decode in E; rewrite b64_roundtrip_bytes in E; cbn in E end. inv_comp.
  split_and!; [done..|]. by eexists k, _, _.
Qed.

Lemma azure_decrypt_ok env identity name algorithm blob s k kid plaintext :
  validate_url_component name = Ok tt -> validate_algorithm "encrypt" algorithm = Ok tt ->
  is_aead_shaped_algorithm algorithm = false -> az_acl s identity name OpCrypto = true ->
  az_keys s !! name = Some k -> ak_deleted_at k = None -> key_kid s k = COk kid -> len blob <= 98044 ->
  unseal k algorithm blob = COk plaintext ->
  process_as env identity (Decrypt name algorithm (b64_encode blob)) s = (COk (kid_value kid (JString (b64_encode plaintext))), s).
Proof.
  intros Hn Halg Haead Hacl Hk Hd Hkid Hl Hu. unfold process_as. cbn [classify]. rewrite Hacl. cbn [negb azure_dispatch].
  unfold azure_decrypt. change (validate_algorithm "decrypt" algorithm) with (validate_algorithm "encrypt" algorithm).
  rewrite Hn, Halg, Haead. cbn [of_result comp_bind]. rewrite value_b64_ok by done. cbn [of_result comp_bind].
  unfold live_key. rewrite Hk. cbn [ok_or comp_bind]. rewrite Hd. cbn [comp_bind]. rewrite Hkid. cbn [comp_bind].
  unfold azure_b64_decode. rewrite b64_roundtrip_bytes. cbn [ok_or comp_bind]. by rewrite Hu.
Qed.

(** Ciphertexts stay readable. In every reachable vault, what an encryption returned is
    decrypted to the plaintext by every later request with the same algorithm by a caller
    with the right, whatever is requested in between, also after the key was deleted and
    recovered, as long as the key was not purged and is not marked deleted. *)
Theorem azure_ciphertext_survives s env identity name algorithm plaintext resp s1 after env' identity' k2 :
  azure_reach s -> length (ae_nonce env) = 12%nat -> len plaintext <= 98000 ->
  process_as env identity (Encrypt name algorithm (b64_encode plaintext)) s = (COk resp, s1) ->
  Forall (fun r => r.2 <> PurgeKey name /\ length (ae_secret r.1.1) = 32%nat) after ->
  az_keys (azure_run after s1) !! name = Some k2 -> ak_deleted_at k2 = None -> az_acl s identity' name OpCrypto = true ->
  exists kid ct, resp = kid_value kid (JString ct) /\
    process_as env' identity' (Decrypt name algorithm ct) (azure_run after s1)
    = (COk (kid_value kid (JString (b64_encode plaintext))), azure_run after s1).
Proof.
  intros Hs%azure_reach_ok Hn Hl He Hafter Hk2 Hd Hacl.
  apply azure_encrypt_inv in He as (-> & Hname & Halg & Haead & k & kid & ct & Hk & Hkid & Hseal & ->).
  destruct (azure_run_keeps after s name k Hs Hafter Hk) as (_ & [F1 F2 _] & k2' & Hk2' & Hsame).
  rewrite Hk2 in Hk2'. injection Hk2' as <-.
  destruct (seal_unseal (ae_nonce env) k k2 algorithm plaintext Hn) as (ct' & E1 & E2 & E3); [unfold u64_max; lia|by rewrite Hsame|].
  rewrite E1 in Hseal. injection Hseal as <-. eexists _, _. split; [done|].
  apply (azure_decrypt_ok env' identity' name algorithm ct' _ k2); try done; [by rewrite F2| |lia].
  unfold key_kid, key_id in *. by rewrite F1, Hsame.
Qed.

(** ** Backups *)

Lemma url_component_utf8 s : validate_url_component s = Ok tt -> from_utf8 (as_bytes s) = COk s.
Proof.
  intros (_ & _ & Hb)%url_component_inv. unfold from_utf8, utf8_valid. rewrite utf8_chars_ascii, from_as_bytes; [done|].
  apply Forall_forall. intros b Hin%list_elem_of_In. apply url_byte_ascii. by apply (proj1 (forallb_forall _ _) Hb).
Qed.

Lemma len16_split (bs rest : list byte) :
  len bs <= 127 ->
  from_be_bytes (take 2 (with_len16 bs ++ rest)) = len bs /\ drop 2 (with_len16 bs ++ rest) = bs ++ rest.
Proof.
  intros Hl. unfold with_len16. rewrite <- app_assoc. pose proof (len_nonneg bs).
  rewrite Z.mod_small by lia. replace 2%nat with (length (to_be_bytes 2 (len bs))) at 1 3 by apply to_be_bytes_length.
  rewrite take_app_length, drop_app_length, from_to_be_bytes by (simpl; lia). done.
Qed.

Lemma take_len_app (l k : list byte) : take (Z.to_nat (len l)) (l ++ k) = l /\ drop (Z.to_nat (len l)) (l ++ k) = k.
Proof. apply split_app. unfold len. lia. Qed.

(** Reading a backup: the key, apart from its times. *)
Lemma parse_backup now name k :
  key_ok name k ->
  parse_body now (backup_body k) = COk (mkAzureKey (ak_name k) (ak_kty k) (ak_key_size k) (ak_version k) now None (ak_secret k)).
Proof.
  intros [Hn Hnn Hv Hsec Hsz]. subst name. pose proof (proj1 (url_component_inv _) Hnn) as (_ & Hnl & _).
  pose proof (proj1 (url_component_inv _) Hv) as (_ & Hvl & _). unfold parse_body, backup_body.
  destruct (len16_split (as_bytes (ak_name k)) (with_len16 (as_bytes (ak_version k)) ++ [kty_byte (ak_kty k)]
    ++ to_be_bytes 4 (default 0 (ak_key_size k)) ++ ak_secret k) Hnl) as [-> ->].
  set (tail := with_len16 (as_bytes (ak_version k)) ++ _). rewrite (proj2 (Z.ltb_ge _ _)) by (rewrite len_app; pose proof (len_nonneg tail); lia).
  destruct (take_len_app (as_bytes (ak_name k)) tail) as [-> ->]. rewrite url_component_utf8 by done. cbn [comp_bind].
  unfold tail. destruct (len16_split (as_bytes (ak_version k)) ([kty_byte (ak_kty k)] ++ to_be_bytes 4 (default 0 (ak_key_size k)) ++ ak_secret k) Hvl) as [-> ->].
  assert (len (with_len16 (as_bytes (ak_version k))) >= 2) by (unfold with_len16; rewrite len_app; unfold len; rewrite to_be_bytes_length; lia).
  rewrite (proj2 (Z.ltb_ge _ _)) by (rewrite len_app; pose proof (len_nonneg ([kty_byte (ak_kty k)] ++ to_be_bytes 4 (default 0 (ak_key_size k)) ++ ak_secret k)); lia).
  rewrite (proj2 (Z.ltb_ge _ _)) by (rewrite !len_app; unfold len; rewrite to_be_bytes_length, Hsec; simpl; lia).
  destruct (take_len_app (as_bytes (ak_version k)) ([kty_byte (ak_kty k)] ++ to_be_bytes 4 (default 0 (ak_key_size k)) ++ ak_secret k)) as [-> ->].
  rewrite url_component_utf8 by done. cbn [comp_bind].
  replace (head ([kty_byte (ak_kty k)] ++ to_be_bytes 4 (default 0 (ak_key_size k)) ++ ak_secret k) ≫= byte_kty) with (Some (ak_kty k))
    by (by destruct (ak_kty k)).
  cbn [ok_or comp_bind app drop]. rewrite drop_0.
  destruct (split_app 4 (to_be_bytes 4 (default 0 (ak_key_size k))) (ak_secret k)) as [-> ->]; [apply to_be_bytes_length|].
  rewrite from_to_be_bytes.
  2:{ destruct (ak_key_size k) as [n|] eqn:E; cbn; [specialize (Hsz n eq_refl)|]; lia. }
  rewrite Hnn, Hv, take_ge by lia. cbn [of_result comp_bind]. do 2 f_equal.
  destruct (ak_key_size k) as [n|] eqn:E; cbn; [|done]. specialize (Hsz n eq_refl). by rewrite (proj2 (Z.eqb_neq _ _)) by lia.
Qed.

(** The bytes in an answer to [BackupKey]. *)
Definition blob_json (blob : list byte) : JsonValue :=
  JObject [("value", JArray (map (fun b => JNumber (byte.unsigned b)) blob))].

(** C18: a backup restores the key. In every reachable vault, whoever may manage a key gets a
    blob from which every reachable vault with the same master key, in which the name is
    free, restores a key with the same type, size, version and secret; ciphertexts and
    signatures of the key stay valid. *)
Theorem backup_restores s s2 env identity name resp s1 env2 identity2 master :
  azure_reach s -> azure_reach s2 -> az_master_key s = Some master -> az_master_key s2 = Some master ->
  process_as env identity (BackupKey name) s = (COk resp, s1) ->
  az_keys s2 !! name = None -> az_acl s2 identity2 "" OpManage = true ->
  exists blob k json k', resp = blob_json blob /\ az_keys s !! name = Some k /\
    process_as env2 identity2 (RestoreKey blob) s2 = (COk json, set_azure_keys (<[name := k']> (az_keys s2)) s2) /\
    ak_name k' = name /\ ak_kty k' = ak_kty k /\ ak_key_size k' = ak_key_size k /\ ak_version k' = ak_version k /\
    ak_secret k' = ak_secret k /\ ak_deleted_at k' = None.
Proof.
  intros Hs%azure_reach_ok Hs2%azure_reach_ok Hm Hm2 Hb Hfree Hacl.
  destruct (process_cases env identity (BackupKey name) s) as [[E _]|[E _]]; rewrite E in Hb; [done|].
  cbn [azure_dispatch] in Hb. injection Hb as Hb <-. unfold azure_backup in Hb. rewrite Hm in Hb.
  destruct (validate_url_component name) as [[]|]; [|done]. cbn in Hb.
  destruct (az_keys s !! name) as [k|] eqn:Hk; [|done]. cbn in Hb. injection Hb as <-.
  pose proof (ao_keys s Hs name k Hk) as Hkok. pose proof (parse_backup (ae_now env2) name k Hkok) as Hparse.
  set (k' := mkAzureKey _ _ _ _ _ _ _) in Hparse. assert (key_ok name k') as Hk' by (destruct Hkok; by split).
  destruct (key_json_ok s2 name k' Hs2 Hk') as [json Hjson].
  exists (backup_body k ++ backup_tag master (backup_body k)), k, json, k'. split_and!; try done; [|apply Hk'].
  unfold process_as. cbn [classify]. rewrite Hacl. cbn [negb azure_dispatch]. unfold azure_restore, open_backup.
  rewrite Hm2. cbn [ok_or comp_bind].
  assert (length (backup_tag master (backup_body k)) = 32%nat) as Ht by apply cloud_hmac_length.
  assert (41 <= len (backup_body k)) as Hbody.
  { unfold backup_body, with_len16. rewrite !len_app. unfold len. rewrite !to_be_bytes_length, (ko_secret _ _ Hkok). simpl. lia. }
  rewrite (proj2 (Z.ltb_ge _ _)) by (rewrite len_app; unfold len at 2; rewrite Ht; lia).
  destruct (take_drop_tag (backup_body k) _ Ht) as [-> ->]. rewrite bool_decide_true by done. cbn [negb]. rewrite Hparse.
  rewrite (ko_name _ _ Hk'), Hfree. unfold insert_new. by rewrite Hjson.
Qed.

End Azure.

(** ** A vault at work *)

#[local] Existing Instance demo_cloud.
#[local] Existing Instance demo_cloud_laws.
#[local] Existing Instance key_order.

Definition azure_env (b : byte) : AzureEnv := mkAzureEnv (replicate 32 b) (replicate 12 Byte.x07) 1000.
Definition azure_demo_config : AzureKvConfig :=
  mkAzureConfig "hsm" "sub" "rg" default_location default_retention default_dns_suffix.
Definition demo_master : list byte := replicate 32 Byte.x55.

Definition empty_vault : MockAzureKvShim :=
  azure_with_acl AllowAllAzureAcl (with_master_key demo_master (mkAzure azure_demo_config ∅ 1 DenyAllAzureAcl azure_anonymous None)).

Definition demo_keys : MockAzureKvShim :=
  (process_as (azure_env Byte.x41) azure_anonymous (CreateKey "k" OctHsm (Some 256)) empty_vault).2.

Lemma empty_vault_reach : azure_reach empty_vault.
Proof. apply (reach_new azure_demo_config _ AllowAllAzureAcl (Some demo_master)). vm_compute. reflexivity. Qed.

Lemma demo_keys_reach : azure_reach demo_keys.
Proof. apply reach_step; [apply empty_vault_reach|reflexivity]. Qed.

(** The key is deleted and recovered. *)
Definition meanwhile : list (AzureEnv * AzureIdentity * AzureKvOperation) :=
  [(azure_env Byte.x42, azure_anonymous, DeleteKey "k"); (azure_env Byte.x43, azure_anonymous, RecoverKey "k")].

Lemma azure_lifecycle_witness :
  az_acl demo_keys azure_anonymous "k" OpManage = true.
Proof.
  refine (proj2 (azure_lifecycle (azure_env Byte.x42) azure_anonymous (DeleteKey "k") demo_keys "k" _)).
  vm_compute. discriminate.
Defined.

Lemma azure_ciphertext_survives_witness :
  exists kid ct,
    process_as (azure_env Byte.x44) azure_anonymous (Encrypt "k" "RSA-OAEP" (b64_encode (as_bytes "hi"))) demo_keys
      = (COk (kid_value kid (JString ct)), demo_keys) /\
    process_as (azure_env Byte.x45) azure_anonymous (Decrypt "k" "RSA-OAEP" ct) (azure_run meanwhile demo_keys)
      = (COk (kid_value kid (JString (b64_encode (as_bytes "hi")))), azure_run meanwhile demo_keys).
Proof.
  destruct (process_as (azure_env Byte.x44) azure_anonymous (Encrypt "k" "RSA-OAEP" (b64_encode (as_bytes "hi"))) demo_keys) as [r s1] eqn:E.
  assert (s1 = demo_keys) as -> by (by injection E as _ <-).
  destruct r as [resp| | |]; [|vm_compute in E; discriminate..].
  destruct (az_keys (azure_run meanwhile demo_keys) !! "k") as [k2|] eqn:Hk2; [|vm_compute in Hk2; discriminate].
  destruct (azure_ciphertext_survives demo_keys (azure_env Byte.x44) azure_anonymous "k" "RSA-OAEP" (as_bytes "hi") resp demo_keys meanwhile
    (azure_env Byte.x45) azure_anonymous k2 demo_keys_reach eq_refl) as (kid & ct & -> & Hd);
    [vm_compute; discriminate|exact E|repeat constructor; discriminate|exact Hk2|vm_compute in Hk2; injection Hk2 as <-; reflexivity|reflexivity|].
  exists kid, ct. split; [reflexivity|exact Hd].
Defined.

Lemma backup_restores_witness :
  exists blob json s2, process_as (azure_env Byte.x44) azure_anonymous (BackupKey "k") demo_keys = (COk (blob_json blob), demo_keys) /\
    process_as (azure_env Byte.x45) azure_anonymous (RestoreKey blob) empty_vault = (COk json, s2) /\
    (ak_secret <$> az_keys s2 !! "k") = Some (replicate 32 Byte.x41).
Proof.
  destruct (process_as (azure_env Byte.x44) azure_anonymous (BackupKey "k") demo_keys) as [r s1] eqn:E.
  assert (s1 = demo_keys) as -> by (by injection E as _ <-).
  destruct r as [resp| | |]; [|vm_compute in E; discriminate..].
  destruct (backup_restores demo_keys empty_vault (azure_env Byte.x44) azure_anonymous "k" resp demo_keys (azure_env Byte.x45) azure_anonymous
    demo_master demo_keys_reach empty_vault_reach eq_refl eq_refl E eq_refl eq_refl)
    as (blob & k & json & k' & -> & Hk & Hr & _ & _ & _ & _ & Hsec & _).
  exists blob, json. eexists. split; [reflexivity|]. split; [exact Hr|]. cbn [az_keys set_azure_keys]. rewrite lookup_insert_eq.
  cbn. rewrite Hsec. vm_compute in Hk. injection Hk as <-. reflexivity.
Defined.

(** A key for signatures wraps other keys: only [Sign] and [Encrypt] look at the type. *)
Example ec_key_wraps :
  let s := (process_as (azure_env Byte.x41) azure_anonymous (CreateKey "e" EcHsm (Some 256)) empty_vault).2 in
  (process_as (azure_env Byte.x44) azure_anonymous (Encrypt "e" "RSA-OAEP" "aGk=") s).1 = CErr UnsupportedOperation /\
  is_ok (match (process_as (azure_env Byte.x44) azure_anonymous (WrapKey "e" "RSA-OAEP" "aGk=") s).1 with COk j => Ok j | _ => Err tt end) = true.
Proof. split; vm_compute; reflexivity. Qed.

(** A key that is marked deleted is refused by every operation but [BackupKey]. *)
Example deleted_key_backed_up :
  let s := (process_as (azure_env Byte.x42) azure_anonymous (DeleteKey "k") demo_keys).2 in
  (process_as (azure_env Byte.x44) azure_anonymous (GetKey "k" None) s).1 = CErr (KeySoftDeleted "k") /\
  is_ok (match (process_as (azure_env Byte.x44) azure_anonymous (BackupKey "k") s).1 with COk j => Ok j | _ => Err tt end) = true.
Proof. split; vm_compute; reflexivity. Qed.
