(* ===== verification/CloudAws.v ===== *)
(** * AWS CloudHSM shim ([craton-hsm-cloud/src/aws_shim.rs])

    HSMs, keys with their labels, and the cryptographic operations of [MockAwsHsmShim].  The
    sub-keys that the code caches in [OnceLock]s are functions of the secret, which never
    changes, and are computed where they are used.  Random draws are the environment of a
    request; the order in which a map is listed is [MapIter].  [CreateKey] is two steps, so
    that other requests may run between its checks and its insertion. *)

From stdpp Require Import prelude gmap strings list.
From Stdlib Require Import ZArith Lia.
From coqutil Require Import Byte.
From S2P Require Import Prelude RustStd CloudCrypto.
Local Open Scope rust_scope.
Local Open Scope string_scope.
Local Open Scope list_scope.
Local Open Scope Z_scope.

Module Aws.

(** The texts of the errors that carry only a message are dropped. *)
Inductive AwsHsmError : Type :=
| HsmNotFound (id : string)
| KeyNotFound (id : string)
| HsmAlreadyExists (id : string)
| KeyAlreadyExists (id : string)
| InvalidParameter
| UnsupportedMechanism
| PermissionDenied
| Internal.

#[global] Instance AwsHsmError_eq_dec : EqDecision AwsHsmError.
Proof. solve_decision. Defined.

Record AwsHsmConfig : Type := mkAwsConfig { aw_cluster_id : string; aw_region : string; aw_hsm_type : string }.

Definition default_hsm_type : string := "craton-hsm.medium".

Inductive AwsMechanism : Type := Sha256RsaPkcs | Sha384RsaPkcs | Ecdsa | AesGcm | AesKeyWrap.

#[global] Instance AwsMechanism_eq_dec : EqDecision AwsMechanism.
Proof. solve_decision. Defined.

Definition aws_wire_name (m : AwsMechanism) : string :=
  match m with
  | Sha256RsaPkcs => "SHA256_RSA_PKCS"
  | Sha384RsaPkcs => "SHA384_RSA_PKCS"
  | Ecdsa => "ECDSA"
  | AesGcm => "AES_GCM"
  | AesKeyWrap => "AES_KEY_WRAP"
  end.

Definition aws_from_wire (s : string) : result AwsMechanism AwsHsmError :=
  if String.eqb s "SHA256_RSA_PKCS" then Ok Sha256RsaPkcs
  else if String.eqb s "SHA384_RSA_PKCS" then Ok Sha384RsaPkcs
  else if String.eqb s "ECDSA" then Ok Ecdsa
  else if String.eqb s "AES_GCM" then Ok AesGcm
  else if String.eqb s "AES_KEY_WRAP" then Ok AesKeyWrap
  else Err UnsupportedMechanism.

Inductive AwsHsmOperation : Type :=
| InitializeCluster
| CreateHsm (availability_zone : string)
| DeleteHsm (hsm_id : string)
| ListHsms
| DescribeClusters
| CreateKey (key_type label : string) (hsm_id : option string)
| DeleteKey (key_id : string)
| ListKeys
| GetKeyAttributes (key_id : string)
| Sign (key_id : string) (message : list byte) (mechanism : AwsMechanism)
| Verify (key_id : string) (message signature : list byte) (mechanism : AwsMechanism)
| WrapKey (wrapping_key_id target_key_id : string) (mechanism : AwsMechanism)
| UnwrapKey (wrapping_key_id : string) (wrapped_bytes : list byte) (label : string) (mechanism : AwsMechanism)
| GenerateRandom (length : Z).

Record AwsIdentity : Type := mkAwsIdentity { aw_principal : string }.
Definition aws_anonymous : AwsIdentity := mkAwsIdentity "".

Inductive AwsOp : Type := OpAdmin | OpRead | OpManage | OpCrypto | OpRandom.

(** The trait [AwsHsmAcl] and its two implementations. *)
Abbreviation AwsHsmAcl := (AwsIdentity -> string -> AwsOp -> bool).
Definition AllowAllAwsAcl : AwsHsmAcl := fun _ _ _ => true.
Definition DenyAllAwsAcl : AwsHsmAcl := fun _ _ _ => false.

Definition MAX_AWS_PAYLOAD_BYTES : Z := 1 * 1024 * 1024.
Definition MAX_AWS_RANDOM_BYTES : Z := 64 * 1024.

(** ** The shim *)

Record MockKey : Type := mkAwsKey {
  mk_key_type : string;
  mk_label : string;
  mk_hsm_id : string;
  mk_secret : list byte;
}.

(** What a request draws at random: a secret, a nonce, and the bytes it asked for. *)
Record AwsEnv : Type := mkAwsEnv {
  we_secret : list byte;
  we_nonce : list byte;
  we_random : Z -> list byte;
}.

Record MockAwsHsmShim : Type := mkAws {
  aw_config : AwsHsmConfig;
  aw_hsms : gmap string string;
  aw_keys : gmap string MockKey;
  aw_labels : gmap string string;
  aw_next_id : Z;
  aw_acl : AwsHsmAcl;
  aw_default_identity : AwsIdentity;
}.

(** Assignments to the shared maps. *)
Definition set_aws_maps (hsms : gmap string string) (ks : gmap string MockKey) (labels : gmap string string)
    (s : MockAwsHsmShim) : MockAwsHsmShim :=
  mkAws (aw_config s) hsms ks labels (aw_next_id s) (aw_acl s) (aw_default_identity s).

Definition aws_new (config : AwsHsmConfig) : MockAwsHsmShim := mkAws config ∅ ∅ ∅ 1 DenyAllAwsAcl aws_anonymous.
Definition aws_with_acl (acl : AwsHsmAcl) (s : MockAwsHsmShim) : MockAwsHsmShim :=
  mkAws (aw_config s) (aw_hsms s) (aw_keys s) (aw_labels s) (aw_next_id s) acl (aw_default_identity s).
Definition aws_with_default_identity (identity : AwsIdentity) (s : MockAwsHsmShim) : MockAwsHsmShim :=
  mkAws (aw_config s) (aw_hsms s) (aw_keys s) (aw_labels s) (aw_next_id s) (aw_acl s) identity.
Definition permissive_for_tests (s : MockAwsHsmShim) : MockAwsHsmShim :=
  aws_with_default_identity (mkAwsIdentity "test-suite") (aws_with_acl AllowAllAwsAcl s).
Definition with_cluster_id (cluster_id : string) : MockAwsHsmShim :=
  aws_new (mkAwsConfig cluster_id "us-east-1" default_hsm_type).

Definition aws_classify (op : AwsHsmOperation) : AwsOp * string :=
  match op with
  | InitializeCluster | CreateHsm _ | DeleteHsm _ => (OpAdmin, "")
  | ListHsms | DescribeClusters | ListKeys => (OpRead, "")
  | GetKeyAttributes key_id => (OpRead, key_id)
  | CreateKey _ _ _ => (OpManage, "")
  | DeleteKey key_id => (OpManage, key_id)
  | Sign key_id _ _ | Verify key_id _ _ _ => (OpCrypto, key_id)
  | WrapKey wrapping_key_id _ _ | UnwrapKey wrapping_key_id _ _ _ => (OpCrypto, wrapping_key_id)
  | GenerateRandom _ => (OpRandom, "")
  end.

(** [fetch_add], then the prefix and the number in hexadecimal. *)
Definition aws_next (prefix : string) (s : MockAwsHsmShim) : string * MockAwsHsmShim :=
  (prefix +:+ "-" +:+ fmt_hex 8 (aw_next_id s),
   mkAws (aw_config s) (aw_hsms s) (aw_keys s) (aw_labels s) (u64_succ (aw_next_id s)) (aw_acl s) (aw_default_identity s)).

Definition validate_payload (bytes : list byte) : comp unit AwsHsmError :=
  if MAX_AWS_PAYLOAD_BYTES <? len bytes then CErr InvalidParameter else COk tt.

Section Requests.
Context {CC : CloudCrates} {MI : MapIter}.

Definition aws_sign_subkey (k : MockKey) : list byte := subkey (mk_secret k) (as_bytes "SIGN").
Definition aws_wrap_auth_subkey (k : MockKey) : list byte := subkey (mk_secret k) (as_bytes "WRAP-AUTH").
Definition aws_wrap_enc_subkey (k : MockKey) : list byte := subkey (mk_secret k) (as_bytes "WRAP-ENC").

Definition aws_hmac_sign (sub : list byte) (mechanism : AwsMechanism) (message : list byte) : list byte :=
  hmac_sign sub (as_bytes (aws_wire_name mechanism)) message.
Definition aws_wrap_tag (sub body : list byte) : list byte := hmac_sign sub (as_bytes (aws_wire_name AesKeyWrap)) body.

Definition aws_xor_stream (sub nonce data : list byte) : comp (list byte) AwsHsmError :=
  match xor_stream sub nonce data with
  | COk out => COk out
  | CErr _ => CErr Internal
  | CPanic => CPanic
  | CDiverge => CDiverge
  end.

(** The first HSM in the order of the map, when none is named. *)
Definition pick_hsm (requested : option string) (s : MockAwsHsmShim) : comp string AwsHsmError :=
  match requested with
  | Some id => if bool_decide (is_Some (aw_hsms s !! id)) then COk id else CErr (HsmNotFound id)
  | None => ok_or (fst <$> head (iter (aw_hsms s))) Internal
  end.

(** ** HSMs *)

Abbreviation aws_outcome := (comp JsonValue AwsHsmError * MockAwsHsmShim)%type.

Definition aws_create_hsm (az : string) (s : MockAwsHsmShim) : aws_outcome :=
  let '(hsm_id, s) := aws_next "hsm" s in
  (COk (JObject [("HsmId", JString hsm_id); ("AvailabilityZone", JString az); ("State", JString "ACTIVE");
                 ("ClusterId", JString (aw_cluster_id (aw_config s))); ("HsmType", JString (aw_hsm_type (aw_config s)))]),
   set_aws_maps (<[hsm_id := az]> (aw_hsms s)) (aw_keys s) (aw_labels s) s).

(** The keys of an HSM go with it. *)
Definition cascade (hsm_id : string) (s : MockAwsHsmShim) : list (string * string) :=
  map (fun e => (e.1, mk_label e.2)) (filter (fun e => mk_hsm_id e.2 = hsm_id) (iter (aw_keys s))).

Definition aws_delete_hsm (hsm_id : string) (s : MockAwsHsmShim) : aws_outcome :=
  match aw_hsms s !! hsm_id with
  | None => (CErr (HsmNotFound hsm_id), s)
  | Some _ =>
      let to_remove := cascade hsm_id s in
      (COk (JObject [("HsmId", JString hsm_id); ("State", JString "DELETED"); ("CascadedKeys", JNumber (len to_remove))]),
       set_aws_maps (delete hsm_id (aw_hsms s))
         (foldl (fun m e => delete e.1 m) (aw_keys s) to_remove)
         (foldl (fun m e => delete e.2 m) (aw_labels s) to_remove) s)
  end.

Definition hsm_list (s : MockAwsHsmShim) : JsonValue :=
  JArray (map (fun e => JObject [("HsmId", JString e.1); ("AvailabilityZone", JString e.2); ("State", JString "ACTIVE")])
            (iter (aw_hsms s))).

Definition describe_clusters (s : MockAwsHsmShim) : JsonValue :=
  JObject [("Clusters", JArray [JObject [("ClusterId", JString (aw_cluster_id (aw_config s))); ("State", JString "ACTIVE");
                                          ("Hsms", hsm_list s)]])].

(** ** Keys *)

Definition aws_key_json (id : string) (k : MockKey) : JsonValue :=
  JObject [("KeyId", JString id); ("KeyType", JString (mk_key_type k)); ("Label", JString (mk_label k));
           ("HsmId", JString (mk_hsm_id k))].

(** The checks of [CreateKey]: the HSM comes before the label. *)
Definition create_check (label : string) (hsm_id : option string) (s : MockAwsHsmShim) : comp string AwsHsmError :=
  let? bound_hsm := pick_hsm hsm_id s in
  if bool_decide (label = "") then CErr InvalidParameter
  else if bool_decide (is_Some (aw_labels s !! label)) then CErr (KeyAlreadyExists "")
  else COk bound_hsm.

(** The insertion under a new identifier, if the label is still free. *)
Definition insert_key (k : MockKey) (answer : string -> JsonValue) (s : MockAwsHsmShim) : aws_outcome :=
  let '(key_id, s) := aws_next "key" s in
  match aw_labels s !! mk_label k with
  | Some _ => (CErr (KeyAlreadyExists ""), s)
  | None =>
      (COk (answer key_id),
       set_aws_maps (aw_hsms s) (<[key_id := k]> (aw_keys s)) (<[mk_label k := key_id]> (aw_labels s)) s)
  end.

Definition create_finish (env : AwsEnv) (key_type label bound_hsm : string) (s : MockAwsHsmShim) : aws_outcome :=
  let k := mkAwsKey key_type label bound_hsm (we_secret env) in
  insert_key k (fun id => aws_key_json id k) s.

Definition aws_create_key (env : AwsEnv) (key_type label : string) (hsm_id : option string) (s : MockAwsHsmShim)
    : aws_outcome :=
  match create_check label hsm_id s with
  | COk bound_hsm => create_finish env key_type label bound_hsm s
  | CErr e => (CErr e, s)
  | CPanic => (CPanic, s)
  | CDiverge => (CDiverge, s)
  end.

Definition aws_delete_key (key_id : string) (s : MockAwsHsmShim) : aws_outcome :=
  match aw_keys s !! key_id with
  | None => (CErr (KeyNotFound key_id), s)
  | Some removed =>
      (COk (JObject [("KeyId", JString key_id); ("Deleted", JBool true)]),
       set_aws_maps (aw_hsms s) (delete key_id (aw_keys s)) (delete (mk_label removed) (aw_labels s)) s)
  end.

Definition list_keys (s : MockAwsHsmShim) : JsonValue :=
  JObject [("Keys", JArray (map (fun e => aws_key_json e.1 e.2) (iter (aw_keys s))))].

Definition find_key (key_id : string) (s : MockAwsHsmShim) : comp MockKey AwsHsmError :=
  ok_or (aw_keys s !! key_id) (KeyNotFound key_id).

(** ** Cryptographic operations *)

Definition bytes_json (bs : list byte) : JsonValue := JArray (map (fun b => JNumber (byte.unsigned b)) bs).

Definition aws_sign (key_id : string) (message : list byte) (mechanism : AwsMechanism) (s : MockAwsHsmShim)
    : comp JsonValue AwsHsmError :=
  let? _ := validate_payload message in
  let? k := find_key key_id s in
  COk (JObject [("KeyId", JString key_id); ("Mechanism", JString (aws_wire_name mechanism));
                ("Signature", bytes_json (aws_hmac_sign (aws_sign_subkey k) mechanism message))]).

Definition aws_verify (key_id : string) (message signature : list byte) (mechanism : AwsMechanism) (s : MockAwsHsmShim)
    : comp JsonValue AwsHsmError :=
  let? _ := validate_payload message in
  let? k := find_key key_id s in
  let expected := aws_hmac_sign (aws_sign_subkey k) mechanism message in
  COk (JObject [("KeyId", JString key_id); ("Mechanism", JString (aws_wire_name mechanism));
                ("Valid", JBool (bool_decide (expected = signature)))]).

(** Both ways only [AesKeyWrap] is accepted. *)
Definition wrap_mechanism (mechanism : AwsMechanism) : comp unit AwsHsmError :=
  match mechanism with AesKeyWrap => COk tt | _ => CErr UnsupportedMechanism end.

Definition aws_wrap (env : AwsEnv) (wrapping_key_id target_key_id : string) (mechanism : AwsMechanism) (s : MockAwsHsmShim)
    : comp JsonValue AwsHsmError :=
  let? _ := wrap_mechanism mechanism in
  let? kek := find_key wrapping_key_id s in
  let? target := find_key target_key_id s in
  let? body := aws_xor_stream (aws_wrap_enc_subkey kek) (we_nonce env) (mk_secret target) in
  let wrapped := we_nonce env ++ body in
  let wrapped := wrapped ++ aws_wrap_tag (aws_wrap_auth_subkey kek) wrapped in
  COk (JObject [("WrappingKeyId", JString wrapping_key_id); ("TargetKeyId", JString target_key_id);
                ("WrappedKey", bytes_json wrapped); ("Mechanism", JString (aws_wire_name mechanism))]).

(** The secret in a wrapped key and the HSM of the wrapping key. *)
Definition open_wrapped (wrapping_key_id : string) (wrapped_bytes : list byte) (mechanism : AwsMechanism)
    (s : MockAwsHsmShim) : comp (list byte * string) AwsHsmError :=
  let? _ := wrap_mechanism mechanism in
  let? kek := find_key wrapping_key_id s in
  if len wrapped_bytes <? 12 + 32 then CErr InvalidParameter
  else
    let tag_offset := Z.to_nat (len wrapped_bytes - 32) in
    let body := take tag_offset wrapped_bytes in
    let tag := drop tag_offset wrapped_bytes in
    if negb (bool_decide (aws_wrap_tag (aws_wrap_auth_subkey kek) body = tag)) then CErr InvalidParameter
    else
      let? plaintext := aws_xor_stream (aws_wrap_enc_subkey kek) (take 12 body) (drop 12 body) in
      if negb (len plaintext =? 32) then CErr InvalidParameter else COk (plaintext, mk_hsm_id kek).

Definition aws_unwrap (wrapping_key_id : string) (wrapped_bytes : list byte) (label : string) (mechanism : AwsMechanism)
    (s : MockAwsHsmShim) : aws_outcome :=
  match open_wrapped wrapping_key_id wrapped_bytes mechanism s with
  | COk (secret, bound_hsm) =>
      insert_key (mkAwsKey "AES" label bound_hsm secret)
        (fun id => JObject [("KeyId", JString id); ("Label", JString label); ("HsmId", JString bound_hsm)]) s
  | CErr e => (CErr e, s)
  | CPanic => (CPanic, s)
  | CDiverge => (CDiverge, s)
  end.

Definition aws_random (env : AwsEnv) (length : Z) : comp JsonValue AwsHsmError :=
  if MAX_AWS_RANDOM_BYTES <? length then CErr InvalidParameter
  else COk (JObject [("Random", bytes_json (we_random env length))]).

Definition aws_dispatch (env : AwsEnv) (op : AwsHsmOperation) (s : MockAwsHsmShim) : aws_outcome :=
  match op with
  | InitializeCluster =>
      (COk (JObject [("ClusterId", JString (aw_cluster_id (aw_config s))); ("State", JString "INITIALIZED")]), s)
  | CreateHsm availability_zone => aws_create_hsm availability_zone s
  | DeleteHsm hsm_id => aws_delete_hsm hsm_id s
  | ListHsms => (COk (JObject [("Hsms", hsm_list s)]), s)
  | DescribeClusters => (COk (describe_clusters s), s)
  | CreateKey key_type label hsm_id => aws_create_key env key_type label hsm_id s
  | DeleteKey key_id => aws_delete_key key_id s
  | ListKeys => (COk (list_keys s), s)
  | GetKeyAttributes key_id => ((let? k := find_key key_id s in COk (aws_key_json key_id k)), s)
  | Sign key_id message mechanism => (aws_sign key_id message mechanism s, s)
  | Verify key_id message signature mechanism => (aws_verify key_id message signature mechanism s, s)
  | WrapKey wrapping_key_id target_key_id mechanism => (aws_wrap env wrapping_key_id target_key_id mechanism s, s)
  | UnwrapKey wrapping_key_id wrapped_bytes label mechanism => aws_unwrap wrapping_key_id wrapped_bytes label mechanism s
  | GenerateRandom length => (aws_random env length, s)
  end.

Definition aws_process_as (env : AwsEnv) (identity : AwsIdentity) (op : AwsHsmOperation) (s : MockAwsHsmShim)
    : aws_outcome :=
  let '(class, key_id) := aws_classify op in
  if negb (aw_acl s identity key_id class) then (CErr PermissionDenied, s) else aws_dispatch env op s.

Definition aws_process (env : AwsEnv) (op : AwsHsmOperation) (s : MockAwsHsmShim) : aws_outcome :=
  aws_process_as env (aw_default_identity s) op s.

End Requests.

End Aws.
