(* ===== verification/CloudAwsProofs.v ===== *)
(** * Theorems about the AWS CloudHSM shim

    Over runs of requests: the index of labels is exact and every key belongs to an HSM;
    where keys come from and how they go; what is wrapped is unwrapped.  The last examples
    show what the access policy is not asked. *)

From stdpp Require Import prelude gmap strings list.
From Stdlib Require Import ZArith Lia.
From coqutil Require Import Byte.
From S2P Require Import Prelude RustStd CloudCrypto CloudCryptoProofs CloudAws.
Import Aws.
Local Open Scope rust_scope.
Local Open Scope string_scope.
Local Open Scope list_scope.
Local Open Scope Z_scope.

Lemma aws_wire_roundtrip m : aws_from_wire (aws_wire_name m) = Ok m.
Proof. by destruct m. Qed.

Lemma cascade_delete_lookup {A B} (f : B -> string) (l : list B) (m : gmap string A) id :
  foldl (fun m e => delete (f e) m) m l !! id = if decide (id ∈ map f l) then None else m !! id.
Proof.
  revert m. induction l as [|e l IH]; intros m; cbn [foldl map].
  - rewrite decide_False by apply not_elem_of_nil. done.
  - rewrite IH. destruct (decide (id ∈ map f l)) as [Hin|Hin].
    + by rewrite decide_True by (by right).
    + destruct (decide (id = f e)) as [->|Hne]; [by rewrite lookup_delete_eq, decide_True by left|].
      rewrite lookup_delete_ne by done. rewrite decide_False; [done|]. by intros [?|?]%elem_of_cons.
Qed.

(** ** Identifiers *)

Definition issued (prefix id : string) (next : Z) : Prop :=
  exists n, 0 <= n < next /\ id = prefix +:+ "-" +:+ fmt_hex 8 n.

Lemma issued_mono prefix id a b : issued prefix id a -> a <= b -> issued prefix id b.
Proof. intros (n & Hn & ->) Hab. exists n. split; [lia|done]. Qed.

Lemma issued_next prefix next : 0 <= next -> issued prefix (prefix +:+ "-" +:+ fmt_hex 8 next) (next + 1).
Proof. intros Hn. exists next. split; [lia|done]. Qed.

Lemma not_issued prefix next : next < u64_max -> ~ issued prefix (prefix +:+ "-" +:+ fmt_hex 8 next) next.
Proof.
  intros Hmax (n & Hn & E). apply (inj (String.append prefix)), (inj (String.append "-")), fmt_hex_inj in E; unfold in_u64, u64_max in *; lia.
Qed.

(** ** Consistent states *)

Record aws_ok (s : MockAwsHsmShim) : Prop := {
  wo_next : 0 <= aw_next_id s;
  wo_labels : forall l id, aw_labels s !! l = Some id <-> exists k, aw_keys s !! id = Some k /\ mk_label k = l;
  wo_key : forall id k, aw_keys s !! id = Some k ->
    is_Some (aw_hsms s !! mk_hsm_id k) /\ length (mk_secret k) = 32%nat /\ issued "key" id (aw_next_id s);
}.

Definition env_ok (env : AwsEnv) : Prop := length (we_secret env) = 32%nat /\ length (we_nonce env) = 12%nat.

Abbreviation aws_request := (AwsEnv * AwsIdentity * AwsHsmOperation)%type.

Section Aws.
Context {CC : CloudCrates} {CL : CloudLaws CC} {MI : MapIter}.

(** Where the key that a request inserts comes from. *)
Definition key_origin (env : AwsEnv) (op : AwsHsmOperation) (s : MockAwsHsmShim) (k : MockKey) : Prop :=
  match op with
  | CreateKey key_type label hsm_id =>
      k = mkAwsKey key_type label (mk_hsm_id k) (we_secret env) /\ is_Some (aw_hsms s !! mk_hsm_id k) /\ label <> ""
  | UnwrapKey kek_id blob label AesKeyWrap =>
      exists kek body, aw_keys s !! kek_id = Some kek /\ blob = body ++ aws_wrap_tag (aws_wrap_auth_subkey kek) body /\
        aws_xor_stream (aws_wrap_enc_subkey kek) (take 12 body) (drop 12 body) = COk (mk_secret k) /\
        k = mkAwsKey "AES" label (mk_hsm_id kek) (mk_secret k) /\ length (mk_secret k) = 32%nat
  | _ => False
  end.

Definition with_key (k : MockKey) (s : MockAwsHsmShim) : MockAwsHsmShim :=
  let '(id, s) := aws_next "key" s in
  set_aws_maps (aw_hsms s) (<[id := k]> (aw_keys s)) (<[mk_label k := id]> (aw_labels s)) s.

(** What a request does to the state. *)
Inductive aws_change (env : AwsEnv) (op : AwsHsmOperation) (s : MockAwsHsmShim) : MockAwsHsmShim -> Prop :=
| ac_same : aws_change env op s s
| ac_number : aws_change env op s (aws_next "key" s).2
| ac_hsm az : op = CreateHsm az -> aws_change env op s (aws_create_hsm az s).2
| ac_insert k : key_origin env op s k -> aw_labels s !! mk_label k = None -> aws_change env op s (with_key k s)
| ac_delete id : op = DeleteKey id -> aws_change env op s (aws_delete_key id s).2
| ac_cascade h : op = DeleteHsm h -> aws_change env op s (aws_delete_hsm h s).2.

Lemma insert_key_change env op k answer s : key_origin env op s k -> aws_change env op s (insert_key k answer s).2.
Proof.
  intros Ho. unfold insert_key. cbn [aws_next]. cbn [aw_labels].
  destruct (aw_labels s !! mk_label k) eqn:E; [exact (ac_number env op s)|exact (ac_insert env op s k Ho E)].
Qed.

Lemma pick_hsm_inv requested s h : pick_hsm requested s = COk h -> is_Some (aw_hsms s !! h).
Proof.
  unfold pick_hsm. destruct requested as [id|].
  - case_bool_decide; [|done]. by intros [= <-].
  - intros Hh%ok_or_COk. destruct (iter (aw_hsms s)) as [|[id az] r] eqn:E; [done|]. injection Hh as <-.
    exists az. apply elem_of_iter. rewrite E. by left.
Qed.

Lemma open_wrapped_inv kek_id blob m s secret h :
  open_wrapped kek_id blob m s = COk (secret, h) ->
  m = AesKeyWrap /\ exists kek body, aw_keys s !! kek_id = Some kek /\ h = mk_hsm_id kek /\
    blob = body ++ aws_wrap_tag (aws_wrap_auth_subkey kek) body /\
    aws_xor_stream (aws_wrap_enc_subkey kek) (take 12 body) (drop 12 body) = COk secret /\ length secret = 32%nat.
Proof.
  unfold open_wrapped. intros H. inv_comp. split; [by destruct m|].
  match goal with E : find_key _ _ = COk ?x |- _ => rename x into kek; apply ok_or_COk in E end.
  destruct (len blob <? 12 + 32); [done|]. case_bool_decide as Htag; [|done]. cbn [negb] in H. inv_comp.
  destruct (negb _) eqn:El in H; [done|]. injection H as -> <-. bool_to_prop. unfold len in El.
  exists kek, (take (Z.to_nat (len blob - 32)) blob). split_and!; try done; [|lia]. by rewrite Htag, take_drop.
Qed.

Lemma aws_dispatch_change env op s : aws_change env op s (aws_dispatch env op s).2.
Proof.
  destruct op; cbn [aws_dispatch snd]; try apply ac_same.
  - by eapply ac_hsm.
  - by eapply ac_cascade.
  - unfold aws_create_key. destruct (create_check label hsm_id s) as [h| | |] eqn:E; try apply ac_same.
    unfold create_check in E. inv_comp. match goal with E : pick_hsm _ _ = COk _ |- _ => apply pick_hsm_inv in E end.
    case_bool_decide as Hl; [done|]. case_bool_decide; [done|]. inv_comp. apply insert_key_change. by cbn.
  - by eapply ac_delete.
  - unfold aws_unwrap. destruct (open_wrapped _ _ _ s) as [[secret h]| | |] eqn:E; try apply ac_same.
    apply open_wrapped_inv in E as (-> & kek & body & Hk & -> & Hb & Hx & Hl). apply insert_key_change. cbn. by exists kek, body.
Qed.

(** ** The invariant *)

Lemma aws_next_ok prefix s : aw_next_id s < u64_max -> aws_ok s -> aws_ok (aws_next prefix s).2.
Proof.
  intros Hn [H1 H2 H3]. split; cbn; rewrite ?u64_succ_small by lia; [lia|done|].
  intros id k Hk. destruct (H3 id k Hk) as (? & ? & ?). split_and!; [done..|]. eapply issued_mono; [done|lia].
Qed.

Lemma create_hsm_ok az s : aw_next_id s < u64_max -> aws_ok s -> aws_ok (aws_create_hsm az s).2.
Proof.
  intros Hn Hs. destruct (aws_next_ok "hsm" s Hn Hs) as [H1 H2 H3]. split; [done|done|]. cbn in *. intros id k Hk.
  destruct (H3 id k Hk) as (? & ? & ?). split_and!; [|done..]. by rewrite lookup_insert_is_Some'; right.
Qed.

Lemma fresh_key_id s : aw_next_id s < u64_max -> aws_ok s -> aw_keys s !! ("key-" +:+ fmt_hex 8 (aw_next_id s)) = None.
Proof.
  intros Hn Hs. destruct (aw_keys s !! _) as [k|] eqn:E; [|done]. destruct (wo_key s Hs _ k E) as (_ & _ & Hi).
  by apply (not_issued "key" (aw_next_id s)) in Hi.
Qed.

Lemma with_key_ok k s :
  aw_next_id s < u64_max -> aws_ok s -> aw_labels s !! mk_label k = None -> is_Some (aw_hsms s !! mk_hsm_id k) ->
  length (mk_secret k) = 32%nat -> aws_ok (with_key k s).
Proof.
  intros Hn Hs Hl Hh Hsec. pose proof (fresh_key_id s Hn Hs) as Hf. destruct Hs as [H1 H2 H3].
  set (id0 := "key-" +:+ fmt_hex 8 (aw_next_id s)) in *. split; cbn; rewrite ?u64_succ_small by lia; [lia| |].
  - intros l id. destruct (decide (l = mk_label k)) as [->|Hne].
    + rewrite lookup_insert_eq. split; [intros [= <-]; exists k; by rewrite lookup_insert_eq|].
      intros (k' & Hk' & El). f_equal. destruct (decide (id0 = id)) as [|Hid]; [done|]. exfalso.
      rewrite lookup_insert_ne in Hk' by done. assert (aw_labels s !! mk_label k = Some id); [|congruence]. apply H2. by exists k'.
    + rewrite lookup_insert_ne, H2 by done. split; intros (k' & Hk' & El); exists k'; (split; [|done]).
      * rewrite lookup_insert_ne; [done|]. intros <-. change (aw_keys s !! id0 = Some k') in Hk'. congruence.
      * destruct (decide (id0 = id)) as [<-|Hid]; [|by rewrite lookup_insert_ne in Hk'].
        rewrite lookup_insert_eq in Hk'. congruence.
  - intros id k' Hk'. destruct (decide (id0 = id)) as [<-|Hid].
    + rewrite lookup_insert_eq in Hk'. injection Hk' as <-. split_and!; [done..|]. by apply (issued_next "key").
    + rewrite lookup_insert_ne in Hk' by done. destruct (H3 id k' Hk') as (? & ? & ?). split_and!; [done..|]. eapply issued_mono; [done|lia].
Qed.

Lemma delete_key_ok id s : aws_ok s -> aws_ok (aws_delete_key id s).2.
Proof.
  intros Hs. unfold aws_delete_key. destruct (aw_keys s !! id) as [k|] eqn:Hk; [|done]. destruct Hs as [H1 H2 H3].
  split; cbn; [done| |].
  - intros l id'. rewrite lookup_delete_Some, H2. split.
    + intros (Hne & k' & Hk' & El). exists k'. split; [|done]. rewrite lookup_delete_ne; [done|]. intros <-. congruence.
    + intros (k' & [Hne Hk']%lookup_delete_Some & El). split; [|by exists k']. intros E. apply Hne.
      assert (aw_labels s !! l = Some id) as Ha by (apply H2; by exists k).
      assert (aw_labels s !! l = Some id') as Hb by (apply H2; by exists k'). congruence.
  - intros id' k' [_ Hk']%lookup_delete_Some. by apply H3.
Qed.

Lemma elem_of_cascade h s id l :
  (id, l) ∈ cascade h s <-> exists k, aw_keys s !! id = Some k /\ mk_label k = l /\ mk_hsm_id k = h.
Proof.
  unfold cascade. rewrite list_elem_of_fmap. split.
  - intros ([id' k] & [= -> ->] & [Hh Hin]%list_elem_of_filter). exists k. by apply elem_of_iter in Hin.
  - intros (k & Hk & <- & Hh). exists (id, k). split; [done|]. apply list_elem_of_filter. split; [done|]. by apply elem_of_iter.
Qed.

(** The keys that remain. *)
Lemma cascade_keys h s id :
  foldl (fun m e => delete e.1 m) (aw_keys s) (cascade h s) !! id =
  match aw_keys s !! id with Some k => if decide (mk_hsm_id k = h) then None else Some k | None => None end.
Proof.
  rewrite (cascade_delete_lookup fst). destruct (decide (id ∈ map fst (cascade h s))) as [Hin|Hin].
  - apply list_elem_of_fmap in Hin as ([id' l] & -> & (k & Hk & _ & Hh)%elem_of_cascade). cbn. by rewrite Hk, decide_True.
  - destruct (aw_keys s !! id) as [k|] eqn:Hk; [|done]. rewrite decide_False; [done|]. intros Hh. apply Hin.
    apply list_elem_of_fmap. exists (id, mk_label k). split; [done|]. apply elem_of_cascade. by exists k.
Qed.

Lemma delete_hsm_ok h s : aws_ok s -> aws_ok (aws_delete_hsm h s).2.
Proof.
  intros Hs. unfold aws_delete_hsm. destruct (aw_hsms s !! h) as [az|] eqn:Hh; [|done]. destruct Hs as [H1 H2 H3].
  split; cbn [snd set_aws_maps aw_next_id aw_labels aw_keys aw_hsms]; [done| |].
  - intros l id. rewrite cascade_keys, (cascade_delete_lookup snd). split.
    + destruct (decide _) as [|Hin]; [done|]. intros (k & Hk & El)%H2. rewrite Hk. exists k. split; [|done].
      rewrite decide_False; [done|]. intros Hb. apply Hin. apply list_elem_of_fmap. exists (id, l). split; [done|].
      apply elem_of_cascade. by exists k.
    + intros (k & Hk & El). destruct (aw_keys s !! id) as [k'|] eqn:Hk'; [|done]. destruct (decide _) as [|Hb]; [done|].
      injection Hk as ->. assert (aw_labels s !! l = Some id) as Ha by (apply H2; by exists k).
      rewrite decide_False; [done|]. intros ([id' l'] & El' & (k' & Hk'' & El'' & Hh')%elem_of_cascade)%list_elem_of_fmap.
      cbn in El'. subst l'. assert (aw_labels s !! l = Some id') as Hb' by (apply H2; exists k'; split; congruence). congruence.
  - intros id k Hk. rewrite cascade_keys in Hk. destruct (aw_keys s !! id) as [k'|] eqn:Hk'; [|done].
    destruct (decide _) as [|Hb]; [done|]. injection Hk as ->. destruct (H3 id k Hk') as (Hs & ? & ?). split_and!; [|done..].
    by rewrite lookup_delete_ne.
Qed.

(** A request keeps the policy and draws at most one number. *)
Lemma aws_change_frame env op s s' :
  aw_next_id s < u64_max -> 0 <= aw_next_id s -> aws_change env op s s' ->
  aw_acl s' = aw_acl s /\ aw_next_id s <= aw_next_id s' <= aw_next_id s + 1.
Proof.
  intros Hn H0 Hc. destruct Hc as [| | | |id|h]; cbn; rewrite ?u64_succ_small by lia; try (split; [done|lia]).
  - unfold aws_delete_key. destruct (aw_keys s !! id); cbn; split; [done|lia|done|lia].
  - unfold aws_delete_hsm. destruct (aw_hsms s !! h); cbn; split; [done|lia|done|lia].
Qed.

Lemma aws_change_ok env op s s' : env_ok env -> aw_next_id s < u64_max -> aws_ok s -> aws_change env op s s' -> aws_ok s'.
Proof.
  intros [Hsec _] Hn Hs Hc. destruct Hc as [| |az ->|k Ho Hl|id ->|h ->].
  - done.
  - by apply aws_next_ok.
  - by apply create_hsm_ok.
  - destruct op as [| | | | |t l h| | | | | | |kek_id blob l m|]; cbn in Ho; try done.
    + destruct Ho as (Hk & Hh & _). apply with_key_ok; try done. by rewrite Hk.
    + destruct m; try done. destruct Ho as (kek & body & Hkek & _ & _ & Hk & Hlen). apply with_key_ok; try done.
      rewrite Hk. cbn. by destruct (wo_key s Hs kek_id kek Hkek).
  - by apply delete_key_ok.
  - by apply delete_hsm_ok.
Qed.

Lemma aws_process_cases env identity op s :
  (aws_process_as env identity op s = (CErr PermissionDenied, s) /\ aw_acl s identity (aws_classify op).2 (aws_classify op).1 = false) \/
  (aws_process_as env identity op s = aws_dispatch env op s /\ aw_acl s identity (aws_classify op).2 (aws_classify op).1 = true).
Proof. unfold aws_process_as. destruct (aws_classify op) as [c n]. cbn. destruct (aw_acl s identity n c); auto. Qed.

Lemma aws_process_change env identity op s : aws_change env op s (aws_process_as env identity op s).2.
Proof. destruct (aws_process_cases env identity op s) as [[-> _]|[-> _]]; [apply ac_same|apply aws_dispatch_change]. Qed.

(** ** Runs *)

Definition aws_run (rs : list aws_request) (s : MockAwsHsmShim) : MockAwsHsmShim :=
  foldl (fun s r => (aws_process_as r.1.1 r.1.2 r.2 s).2) s rs.

Lemma aws_run_ok rs s :
  Forall (fun r => env_ok r.1.1) rs -> aw_next_id s + len rs < u64_max -> aws_ok s ->
  aws_ok (aws_run rs s) /\ aw_acl (aws_run rs s) = aw_acl s /\ aw_next_id s <= aw_next_id (aws_run rs s) <= aw_next_id s + len rs.
Proof.
  revert s. induction rs as [|r rs IH]; intros s He Hn Hs; [cbn; change (len []) with 0; split_and!; try done; lia|].
  apply Forall_cons in He as [He1 He2]. rewrite len_cons in *. pose proof (len_nonneg rs).
  pose proof (aws_process_change r.1.1 r.1.2 r.2 s) as Hc. assert (aw_next_id s < u64_max) as Hlt by lia.
  destruct (aws_change_frame _ _ _ _ Hlt (wo_next s Hs) Hc) as [Ha Hb].
  destruct (IH (aws_process_as r.1.1 r.1.2 r.2 s).2 He2) as (H1 & H2 & H3); [lia|by apply (aws_change_ok r.1.1 r.2 s); [|lia| |]|].
  change (aws_run (r :: rs) s) with (aws_run rs (aws_process_as r.1.1 r.1.2 r.2 s).2). split_and!; [done|by rewrite H2|lia|lia].
Qed.

Lemma aws_new_ok config acl : aws_ok (aws_with_acl acl (aws_new config)).
Proof. split; cbn; [done| |]; [intros l id|intros id k]; rewrite ?lookup_empty; [|done]. split; [done|]. by intros (k & Hk & _). Qed.

(** The maps agree. After every sequence of fewer than 2^64 - 2 requests to a new shim,
    under any policy, the index of labels has exactly the labels of the keys, each with the
    key that carries it, so that labels are unique; every key belongs to an HSM of the
    cluster and has 32 bytes. *)
Theorem aws_maps_agree config acl rs :
  Forall (fun r => env_ok r.1.1) rs -> len rs < u64_max - 1 ->
  let s := aws_run rs (aws_with_acl acl (aws_new config)) in
  (forall l id, aw_labels s !! l = Some id <-> exists k, aw_keys s !! id = Some k /\ mk_label k = l) /\
  (forall id k, aw_keys s !! id = Some k -> is_Some (aw_hsms s !! mk_hsm_id k) /\ length (mk_secret k) = 32%nat).
Proof.
  intros He Hn s. destruct (aws_run_ok rs (aws_with_acl acl (aws_new config)) He) as ([_ H2 H3] & _); [cbn; lia|apply aws_new_ok|].
  fold s in H2, H3. split; [exact H2|]. intros id k Hk. by destruct (H3 id k Hk) as (? & ? & _).
Qed.

(** Where keys come from and how they go. In a consistent shim the entry of an
    identifier changes only by an allowed request: a new key is created with the bytes
    drawn for it under a label that was free, or unwrapped from bytes that carry the tag of
    the wrapping key; a key is removed by its deletion or by that of its HSM; no entry is
    ever replaced. *)
Theorem aws_key_lifecycle env identity op s id :
  aws_ok s -> aw_next_id s < u64_max ->
  let s' := (aws_process_as env identity op s).2 in
  aw_keys s' !! id <> aw_keys s !! id ->
  aw_acl s identity (aws_classify op).2 (aws_classify op).1 = true /\
  match aw_keys s !! id, aw_keys s' !! id with
  | None, Some k => key_origin env op s k /\ aw_labels s !! mk_label k = None
  | Some k, None => op = DeleteKey id \/ op = DeleteHsm (mk_hsm_id k)
  | _, _ => False
  end.
Proof.
  intros Hs Hn s'. subst s'. destruct (aws_process_cases env identity op s) as [[-> _]|[-> Hacl]]; [done|].
  intros Hd. split; [exact Hacl|]. revert Hd. pose proof (aws_dispatch_change env op s) as Hc. revert Hc.
  generalize (aws_dispatch env op s).2. intros s' Hc. destruct Hc as [| |az ->|k Ho Hl|id' ->|h ->]; try done.
  - cbn. pose proof (fresh_key_id s Hn Hs) as Hf. set (id0 := "key-" +:+ fmt_hex 8 (aw_next_id s)) in *.
    change (<[id0 := k]> (aw_keys s) !! id <> aw_keys s !! id ->
      match aw_keys s !! id, <[id0 := k]> (aw_keys s) !! id with
      | None, Some k => key_origin env op s k /\ aw_labels s !! mk_label k = None
      | Some k, None => op = DeleteKey id \/ op = DeleteHsm (mk_hsm_id k) | _, _ => False end).
    destruct (decide (id0 = id)) as [<-|Hne]; [|by rewrite lookup_insert_ne]. by rewrite lookup_insert_eq, Hf.
  - unfold aws_delete_key. destruct (aw_keys s !! id') as [k|] eqn:Hk; [|done]. cbn.
    destruct (decide (id' = id)) as [<-|Hne]; [|by rewrite lookup_delete_ne]. rewrite lookup_delete_eq, Hk. by left.
  - unfold aws_delete_hsm. destruct (aw_hsms s !! h) as [az|] eqn:Hh; [|done]. cbn [snd set_aws_maps aw_keys].
    rewrite cascade_keys. destruct (aw_keys s !! id) as [k|] eqn:Hk; [|done]. destruct (decide _) as [<-|]; [by right|done].
Qed.

(** ** Wrapping *)

(** The entry of an identifier that was issued stays or goes; it is never another key. *)
Lemma aws_change_keeps env op s s' id :
  aws_ok s -> aw_next_id s < u64_max -> issued "key" id (aw_next_id s) -> aws_change env op s s' ->
  aw_keys s' !! id = aw_keys s !! id \/ aw_keys s' !! id = None.
Proof.
  intros Hs Hn Hi Hc. destruct Hc as [| |az _|k _ _|id' _|h _]; [by left..| | |].
  - left. cbn. apply lookup_insert_ne. intros <-. by apply (not_issued "key" (aw_next_id s)) in Hi.
  - unfold aws_delete_key. destruct (aw_keys s !! id') as [k|]; [|by left]. cbn.
    destruct (decide (id' = id)) as [<-|Hne]; [right; apply lookup_delete_eq|left; by apply lookup_delete_ne].
  - unfold aws_delete_hsm. destruct (aw_hsms s !! h); [|by left]. cbn [snd set_aws_maps aw_keys]. rewrite cascade_keys.
    destruct (aw_keys s !! id) as [k|]; [|by left]. destruct (decide _); [by right|by left].
Qed.

Lemma aws_run_keeps rs s id :
  Forall (fun r => env_ok r.1.1) rs -> aw_next_id s + len rs < u64_max -> aws_ok s -> issued "key" id (aw_next_id s) ->
  aw_keys (aws_run rs s) !! id = aw_keys s !! id \/ aw_keys (aws_run rs s) !! id = None.
Proof.
  revert s. induction rs as [|r rs IH]; intros s He Hn Hs Hi; [by left|].
  apply Forall_cons in He as [He1 He2]. rewrite len_cons in *. pose proof (len_nonneg rs). assert (aw_next_id s < u64_max) as Hlt by lia.
  pose proof (aws_process_change r.1.1 r.1.2 r.2 s) as Hc. destruct (aws_change_frame _ _ _ _ Hlt (wo_next s Hs) Hc) as [_ Hb].
  destruct (IH (aws_process_as r.1.1 r.1.2 r.2 s).2 He2) as [E|E];
    [lia|by apply (aws_change_ok r.1.1 r.2 s)|eapply issued_mono; [exact Hi|lia]| |by right].
  change (aws_run (r :: rs) s) with (aws_run rs (aws_process_as r.1.1 r.1.2 r.2 s).2). rewrite E.
  by apply (aws_change_keeps r.1.1 r.2).
Qed.

Lemma aws_xor_invol sub nonce data :
  len data <= u64_max ->
  exists out, aws_xor_stream sub nonce data = COk out /\ length out = length data /\ aws_xor_stream sub nonce out = COk data.
Proof.
  intros Hl. destruct (xor_stream_invol sub nonce data Hl) as (out & E1 & E2 & E3). exists out.
  unfold aws_xor_stream. by rewrite E1, E3.
Qed.

(** The bytes of a wrapped key. *)
Definition wrapped_blob (kek : MockKey) (nonce body : list byte) : list byte :=
  (nonce ++ body) ++ aws_wrap_tag (aws_wrap_auth_subkey kek) (nonce ++ body).

Definition wrapped_json (kek_id target_id : string) (blob : list byte) : JsonValue :=
  JObject [("WrappingKeyId", JString kek_id); ("TargetKeyId", JString target_id); ("WrappedKey", bytes_json blob);
           ("Mechanism", JString "AES_KEY_WRAP")].

Definition verified_json (id : string) (mechanism : AwsMechanism) (valid : bool) : JsonValue :=
  JObject [("KeyId", JString id); ("Mechanism", JString (aws_wire_name mechanism)); ("Valid", JBool valid)].

(** Opening what was wrapped, wherever the wrapping key is now. *)
Lemma open_wrapped_ok kek_id kek nonce secret s :
  aw_keys s !! kek_id = Some kek -> length nonce = 12%nat -> length secret = 32%nat ->
  exists body, aws_xor_stream (aws_wrap_enc_subkey kek) nonce secret = COk body /\
    open_wrapped kek_id (wrapped_blob kek nonce body) AesKeyWrap s = COk (secret, mk_hsm_id kek).
Proof.
  intros Hk Hn Hl. destruct (aws_xor_invol (aws_wrap_enc_subkey kek) nonce secret) as (body & E1 & E2 & E3); [unfold len, u64_max; lia|].
  exists body. split; [done|]. unfold open_wrapped. cbn [wrap_mechanism comp_bind]. unfold find_key. rewrite Hk. cbn [ok_or comp_bind].
  assert (length (aws_wrap_tag (aws_wrap_auth_subkey kek) (nonce ++ body)) = 32%nat) as Ht by apply cloud_hmac_length.
  unfold wrapped_blob. rewrite (proj2 (Z.ltb_ge _ _)) by (unfold len; rewrite !length_app; lia).
  destruct (take_drop_tag (nonce ++ body) _ Ht) as [-> ->]. rewrite bool_decide_true by done. cbn [negb].
  destruct (split_app 12 nonce body Hn) as [-> ->]. rewrite E3. cbn [comp_bind]. unfold len. by rewrite Hl.
Qed.

Lemma aws_wrap_inv env identity kek_id target_id s resp s1 :
  aws_process_as env identity (WrapKey kek_id target_id AesKeyWrap) s = (COk resp, s1) ->
  s1 = s /\ exists kek target body, aw_keys s !! kek_id = Some kek /\ aw_keys s !! target_id = Some target /\
    aws_xor_stream (aws_wrap_enc_subkey kek) (we_nonce env) (mk_secret target) = COk body /\
    resp = wrapped_json kek_id target_id (wrapped_blob kek (we_nonce env) body).
Proof.
  destruct (aws_process_cases env identity (WrapKey kek_id target_id AesKeyWrap) s) as [[-> _]|[-> _]]; [done|].
  cbn [aws_dispatch]. intros [= H <-]. split; [done|]. unfold aws_wrap in H. inv_comp.
  repeat match goal with E : find_key _ _ = COk _ |- _ => apply ok_or_COk in E end. by eexists _, _, _.
Qed.

Lemma insert_key_fresh k answer s :
  aws_ok s -> aw_next_id s < u64_max -> aw_labels s !! mk_label k = None ->
  exists id, insert_key k answer s = (COk (answer id), with_key k s) /\ aw_keys s !! id = None /\
    aw_keys (with_key k s) !! id = Some k.
Proof.
  intros Hs Hn Hl. exists ("key-" +:+ fmt_hex 8 (aw_next_id s)). split_and!; [|by apply fresh_key_id|cbn; apply lookup_insert_eq].
  unfold insert_key. cbn [aws_next aw_labels]. by rewrite Hl.
Qed.

(** C28: what is wrapped is unwrapped. What [WrapKey] returned in a run of a new shim is
    unwrapped by every later request of a caller with the right on the wrapping key, under
    a free label and as long as the wrapping key is there, whatever is requested in
    between and even if the wrapped key is gone: to a new key with the secret of the
    wrapped one, so that its signatures are valid under the new key. *)
Theorem wrapped_key_unwraps config acl before after env identity kek_id target_id resp s1 env' identity' label :
  let s := aws_run before (aws_with_acl acl (aws_new config)) in
  let s2 := aws_run after s1 in
  Forall (fun r => env_ok r.1.1) (before ++ after) -> env_ok env -> len (before ++ after) < u64_max - 2 ->
  aws_process_as env identity (WrapKey kek_id target_id AesKeyWrap) s = (COk resp, s1) ->
  is_Some (aw_keys s2 !! kek_id) -> aw_labels s2 !! label = None -> acl identity' kek_id OpCrypto = true ->
  exists target kek blob id json s3,
    aw_keys s !! target_id = Some target /\ aw_keys s !! kek_id = Some kek /\ resp = wrapped_json kek_id target_id blob /\
    aws_process_as env' identity' (UnwrapKey kek_id blob label AesKeyWrap) s2 = (COk json, s3) /\
    aw_keys s2 !! id = None /\ aw_keys s3 !! id = Some (mkAwsKey "AES" label (mk_hsm_id kek) (mk_secret target)) /\
    forall message mechanism, len message <= MAX_AWS_PAYLOAD_BYTES ->
      aws_verify id message (aws_hmac_sign (aws_sign_subkey target) mechanism message) mechanism s3
      = COk (verified_json id mechanism true).
Proof.
  intros s s2 [Hb Ha]%Forall_app [_ Hnonce] Hlen Hw Hkek Hlabel Hacl. rewrite len_app in Hlen.
  pose proof (len_nonneg before). pose proof (len_nonneg after).
  apply aws_wrap_inv in Hw as (-> & kek & target & body & Hk & Ht & Hx & ->).
  destruct (aws_run_ok before (aws_with_acl acl (aws_new config)) Hb) as (Hs & Hacls & Hnext); [cbn; lia|apply aws_new_ok|].
  fold s in Hs, Hacls, Hnext. cbn in Hacls, Hnext.
  destruct (aws_run_ok after s Ha ltac:(lia) Hs) as (Hs2 & Hacl2 & Hnext2). fold s2 in Hs2, Hacl2, Hnext2.
  destruct (wo_key s Hs kek_id kek Hk) as (_ & _ & Hi). destruct (wo_key s Hs target_id target Ht) as (_ & Hsec & _).
  assert (aw_keys s2 !! kek_id = Some kek) as Hk2.
  { destruct (aws_run_keeps after s kek_id Ha ltac:(lia) Hs Hi) as [E|E]; fold s2 in E; [by rewrite E|].
    destruct Hkek as [x Hx']. congruence. }
  destruct (open_wrapped_ok kek_id kek (we_nonce env) (mk_secret target) s2 Hk2 Hnonce Hsec) as (body' & Hx' & Hopen).
  rewrite Hx in Hx'. injection Hx' as <-.
  destruct (insert_key_fresh (mkAwsKey "AES" label (mk_hsm_id kek) (mk_secret target))
    (fun id => JObject [("KeyId", JString id); ("Label", JString label); ("HsmId", JString (mk_hsm_id kek))]) s2 Hs2 ltac:(lia) Hlabel)
    as (id & Hins & Hfree & Hnew).
  exists target, kek, (wrapped_blob kek (we_nonce env) body), id. eexists _, _. split_and!; try done.
  - unfold aws_process_as. cbn [aws_classify]. rewrite Hacl2, Hacls, Hacl. cbn [negb aws_dispatch]. unfold aws_unwrap. by rewrite Hopen.
  - intros message mechanism Hm. unfold aws_verify, validate_payload. rewrite (proj2 (Z.ltb_ge _ _)) by done. cbn [comp_bind].
    unfold find_key. rewrite Hnew. cbn [ok_or comp_bind]. by rewrite bool_decide_true.
Qed.

End Aws.

(** ** A cluster at work *)

#[local] Existing Instance demo_cloud.
#[local] Existing Instance demo_cloud_laws.
#[local] Existing Instance key_order.

Definition aws_env (b : byte) : AwsEnv := mkAwsEnv (replicate 32 b) (replicate 12 Byte.x07) (fun n => replicate (Z.to_nat n) b).
Definition aws_demo_config : AwsHsmConfig := mkAwsConfig "cluster" "us-east-1" default_hsm_type.
Definition operator : AwsIdentity := mkAwsIdentity "operator".
Definition mallory : AwsIdentity := mkAwsIdentity "mallory".

(** One HSM, a key for wrapping and a root key. *)
Definition aws_setup : list aws_request :=
  [(aws_env Byte.x40, operator, CreateHsm "zone");
   (aws_env Byte.x41, operator, CreateKey "AES" "kek" None);
   (aws_env Byte.x42, operator, CreateKey "RSA" "root" (Some "hsm-00000001"))].

(** The root key is deleted and another key is created. *)
Definition aws_meanwhile : list aws_request :=
  [(aws_env Byte.x43, operator, DeleteKey "key-00000003"); (aws_env Byte.x44, operator, CreateKey "AES" "other" None)].

Definition aws_demo : MockAwsHsmShim := aws_run aws_setup (aws_with_acl AllowAllAwsAcl (aws_new aws_demo_config)).

Lemma aws_maps_agree_witness :
  exists k, aw_keys aws_demo !! "key-00000003" = Some k /\ mk_label k = "root".
Proof.
  apply (proj1 (aws_maps_agree aws_demo_config AllowAllAwsAcl aws_setup ltac:(repeat constructor) ltac:(vm_compute; reflexivity))
    "root" "key-00000003"). vm_compute. reflexivity.
Defined.

Lemma aws_demo_ok : aws_ok aws_demo.
Proof. apply aws_run_ok; [repeat constructor|vm_compute; reflexivity|apply aws_new_ok]. Qed.

Lemma aws_key_lifecycle_witness :
  exists k, aw_keys aws_demo !! "key-00000002" = Some k /\
    (DeleteHsm "hsm-00000001" = DeleteKey "key-00000002" \/ DeleteHsm "hsm-00000001" = DeleteHsm (mk_hsm_id k)).
Proof.
  assert (aw_keys (aws_process_as (aws_env Byte.x45) operator (DeleteHsm "hsm-00000001") aws_demo).2 !! "key-00000002"
    <> aw_keys aws_demo !! "key-00000002") as Hd by (vm_compute; discriminate).
  pose proof (aws_key_lifecycle (aws_env Byte.x45) operator (DeleteHsm "hsm-00000001") aws_demo "key-00000002" aws_demo_ok eq_refl Hd) as [_ H].
  destruct (aw_keys aws_demo !! "key-00000002") as [k|] eqn:E; [|vm_compute in E; discriminate E].
  exists k. split; [reflexivity|].
  destruct (aw_keys (aws_process_as (aws_env Byte.x45) operator (DeleteHsm "hsm-00000001") aws_demo).2 !! "key-00000002"); [destruct H|exact H].
Defined.

Lemma wrapped_key_unwraps_witness :
  exists blob id json s3,
    (aws_process_as (aws_env Byte.x45) operator (WrapKey "key-00000002" "key-00000003" AesKeyWrap) aws_demo).1
      = COk (wrapped_json "key-00000002" "key-00000003" blob) /\
    aws_process_as (aws_env Byte.x46) operator (UnwrapKey "key-00000002" blob "copy" AesKeyWrap) (aws_run aws_meanwhile aws_demo) = (COk json, s3) /\
    (mk_secret <$> aw_keys s3 !! id) = Some (replicate 32 Byte.x42).
Proof.
  assert (exists resp, aws_process_as (aws_env Byte.x45) operator (WrapKey "key-00000002" "key-00000003" AesKeyWrap) aws_demo = (COk resp, aws_demo))
    as [resp E] by (eexists; vm_compute; reflexivity).
  assert (is_Some (aw_keys (aws_run aws_meanwhile aws_demo) !! "key-00000002")) as Hk by (eexists; vm_compute; reflexivity).
  assert (aw_labels (aws_run aws_meanwhile aws_demo) !! "copy" = None) as Hl by (vm_compute; reflexivity).
  destruct (wrapped_key_unwraps aws_demo_config AllowAllAwsAcl aws_setup aws_meanwhile (aws_env Byte.x45) operator "key-00000002" "key-00000003"
    resp aws_demo (aws_env Byte.x46) operator "copy" ltac:(repeat constructor) ltac:(split; reflexivity) ltac:(vm_compute; reflexivity) E Hk Hl eq_refl)
    as (target & kek & blob & id & json & s3 & Ht & _ & -> & Hu & _ & Hid & _).
  exists blob, id, json, s3. rewrite E. split; [reflexivity|]. split; [exact Hu|]. rewrite Hid. cbn.
  vm_compute in Ht. injection Ht as <-. reflexivity.
Defined.

(** The policy is not asked about the key that is wrapped.  Mallory may do nothing with the
    root key; she wraps it under a key she may use, unwraps the copy, and her signatures
    are those of the root key. *)
Definition not_the_root : AwsHsmAcl :=
  fun who key_id _ => String.eqb (aw_principal who) "operator" || negb (String.eqb key_id "key-00000003").

Definition wrapped_root : list byte :=
  match aw_keys aws_demo !! "key-00000002", aw_keys aws_demo !! "key-00000003" with
  | Some kek, Some root =>
      match aws_xor_stream (aws_wrap_enc_subkey kek) (replicate 12 Byte.x07) (mk_secret root) with
      | COk body => wrapped_blob kek (replicate 12 Byte.x07) body
      | _ => []
      end
  | _, _ => []
  end.

Example policy_not_asked_about_target :
  let s := aws_run aws_setup (aws_with_acl not_the_root (aws_new aws_demo_config)) in
  let wrap := aws_process_as (aws_env Byte.x45) mallory (WrapKey "key-00000002" "key-00000003" AesKeyWrap) s in
  let s' := (aws_process_as (aws_env Byte.x46) mallory (UnwrapKey "key-00000002" wrapped_root "copy" AesKeyWrap) s).2 in
  (aws_process_as (aws_env Byte.x47) mallory (Sign "key-00000003" [] Ecdsa) s).1 = CErr PermissionDenied /\
  wrap.1 = COk (wrapped_json "key-00000002" "key-00000003" wrapped_root) /\
  (mk_secret <$> aw_keys s' !! "key-00000004") = (mk_secret <$> aw_keys s' !! "key-00000003") /\
  is_Some (aw_keys s' !! "key-00000004") /\ not_the_root mallory "key-00000004" OpCrypto = true.
Proof. vm_compute. split_and!; try reflexivity. by eexists. Qed.

(** Between the checks of [CreateKey] and its insertion the HSM may be deleted: the key
    that is inserted belongs to no HSM, and no deletion of an HSM removes it. *)
Example create_delete_race :
  let s := aws_run (take 1 aws_setup) (aws_with_acl AllowAllAwsAcl (aws_new aws_demo_config)) in
  let s1 := (aws_process_as (aws_env Byte.x45) operator (DeleteHsm "hsm-00000001") s).2 in
  let s2 := (create_finish (aws_env Byte.x46) "AES" "orphan" "hsm-00000001" s1).2 in
  create_check "orphan" None s = COk "hsm-00000001" /\
  (mk_hsm_id <$> aw_keys s2 !! "key-00000002") = Some "hsm-00000001" /\ aw_hsms s2 = ∅.
Proof. vm_compute. split_and!; reflexivity. Qed.

(** [UnwrapKey] accepts the empty label that [CreateKey] refuses. *)
Example unwrap_accepts_empty_label :
  (aws_process_as (aws_env Byte.x46) operator (CreateKey "AES" "" None) aws_demo).1 = CErr InvalidParameter /\
  aw_labels (aws_process_as (aws_env Byte.x46) operator (UnwrapKey "key-00000002" wrapped_root "" AesKeyWrap) aws_demo).2 !! "" = Some "key-00000004".
Proof. vm_compute. split; reflexivity. Qed.
